(* ===== verification/_CoqProject ===== *)
-Q . S2P
Prelude.v
Words.v
LockWord.v
Machine.v
Tx.v
Ctl.v
CtlHist.v
CtlInv.v
CtlStep.v
CtlLogic.v
CtlAssert.v
CtlExtend.v
CtlBody.v
CtlCommit.v
CtlRun.v
CtlCorrect.v
CtlDemo.v
CtlSolo.v
CtlLimits.v
Quiesce.v
Wrappers.v
Gc.v
Modules.v
UndoLog.v
Nbb.v
Prio.v
PrioSteps.v
PrioLost.v
TaskPool.v
Float.v
Messages.v
Server.v
Kill.v
KillSafe.v
Queue.v
Mt.v
Objects.v
RBTree.v
RBShape.v
RBPure.v
RBOrder.v
RBInsert.v
RBMap.v
RBFix.v
RBDelete.v
RBErase.v
RBOps.v
Serial.v
RBTrans.v
RBVerify.v
SList.v
Store.v
StoreLogic.v
Tables.v
StoreTx.v
Manager.v
Tpcc.v
TpccRep.v
TpccNew.v
TpccPay.v
TpccRead.v
TpccDeliver.v
TpccCorrect.v
TpccReq.v
TpccLoad.v
TpccStart.v
TpccTx.v
TpccDemo.v
TpccServe.v
