(* ===== verification/Prelude.v ===== *)
(** * tinySTM-reval: a verification library

    The repository is a word-based software transactional memory for C (tinySTM, with
    a mechanism that lets a transaction look at itself while it runs and abort early),
    and a server that executes the transactions of the TPC-C benchmark on it.  This
    library models the code of both, from the lock words up to the server's
    transactions, and proves what it promises.

    ** The program and its parts

    - The library, tinySTM/src/stm.c and include/stm.h: a transaction reads and writes
      words through [stm_load] and [stm_store]; an array of lock words and a global
      clock make the threads' transactions appear atomic.  Around it are wrappers for
      values of any size (wrappers.c), a garbage collector (gc.c) and modules that
      register callbacks (mod_mem.c, mod_cb.c, mod_log.c).
    - The data structures of TPCC/lib: red-black trees (rbtree.c, the tables of the
      server), sorted lists (list.c, its list of new orders), queues (queue.c), the
      random numbers (mt19937ar.c, random.c).  They access memory through the macros of
      tm.h, so the same text runs on plain memory and in transactions.
    - The server, TPCC/Server: the rows and tables (dataTable), the transactions
      (manager.c), and what brings the requests of the clients (TPCC/Client) to them:
      server threads and workers (Server.c, stm_threadpool.c, scheduler), the pool of
      tasks (mm/taskpool.c), the queues of tasks (core/priority.c, core/nbblist.c).

    ** Layers

    The foundation.  Prelude.v has what all files share: record update, tactics, lists.
    Words.v has the 64-bit words, Machine.v the atomic actions of atomic.h with their
    two semantics (a program run alone; a pool of programs interleaved action by
    action) and a rely-guarantee logic for them, Tx.v the state of a transaction and
    the monad in which stm.c is written.

    The transactions.  Ctl.v is stm.c in the default build (write-back, commit-time
    locking, suicide contention manager), one definition per function, with the
    early-abort mechanism, whose timer ticks may come at any time.  CtlHist.v is the
    specification: histories of commits, and the serial order that they define.
    CtlInv.v has the invariant that ties histories to memory and what threads rely on;
    CtlStep.v to CtlRun.v show that every function keeps it; CtlCorrect.v concludes.
    CtlSolo.v shows that a transaction that runs alone commits, CtlLimits.v where the
    guarantees stop, CtlDemo.v computes an execution.  LockWord.v has the encodings
    of lock words, of all three designs.  Quiesce.v has the barrier in which threads
    stop when the clock is reset.

    Around the transactions.  Wrappers.v (wrappers.c), Gc.v (gc.c, a step relation),
    Modules.v (registration, mod_mem.c, mod_cb.c), UndoLog.v (mod_log.c).

    Data structures.  Objects.v has programs over objects ([oprog]) with two meanings,
    on a heap of objects and as the body of a transaction, which agree: what is shown
    on the heap holds of transactions.  RBTree.v is rbtree.c in it, SList.v is list.c;
    RBShape.v to RBErase.v prove the tree's operations on the shape (zippers for the
    place where the code is), RBOps.v and RBVerify.v conclude.  Serial.v turns the
    serial order of CtlCorrect.v into an order of requests on abstract states (the
    class [Represented] is what a data structure shows for this); RBTrans.v instantiates
    it with the tree.  Queue.v (queue.c) and Mt.v (random numbers) are sequential.

    Killing.  Kill.v is stm.c built with CM_MODULAR and encounter-time locking, as far
    as status words and locks go: a step relation in which transactions kill each other
    and steal locks, with the contention managers.  KillSafe.v has its invariant.

    The server's threads.  All of these are step relations with one access to shared
    memory per step, for any number of threads, shown linearizable: Nbb.v is the
    lock-free list (if its array begins with zeros, and only then), Prio.v and PrioSteps.v the array of queues with two locks each,
    TaskPool.v the free list of tasks.  PrioLost.v has the race that can lose the bit of
    a queue.  Messages.v has the text of a request, as the client writes it and as the
    server and the worker read it.  Server.v puts these together: the threads of the
    server, over the abstract queues, from what is received to what is run.

    The server's transactions.  Store.v has programs over commands on a store of rows, maps, strings,
    memory, random numbers and time ([code]); Tables.v and Manager.v are dataTable and
    manager.c in it; Float.v has the single-precision numbers of the rows.  StoreLogic.v
    is a separation logic for the store, on Iris's predicates.  Tpcc.v is the abstract
    database, with what each transaction does to it; TpccRep.v says which part of a
    store holds a database; TpccNew.v, TpccPay.v, TpccRead.v and TpccDeliver.v prove the
    transactions in the logic, TpccCorrect.v states the results; TpccLoad.v and
    TpccStart.v do so for the loading of the database.  StoreTx.v compiles the
    commands to object programs, with every map a red-black tree, and shows that this
    keeps their meaning; TpccReq.v and TpccTx.v put all together: the server's
    transactions, run by any number of threads on the memory of the library.
    TpccDemo.v and TpccServe.v are a small database and an execution on it.

    ** What is proved

    - Serializability and opacity of the transactions, for any number of threads, any
      program and any interleaving; absence of undefined behaviour and of failed
      assertions; the clock stays in its range; all locks are free at the end; a
      transaction alone commits ([CtlCorrect], [CtlSolo]).  With read-only transactions
      in the early-abort build serializability fails, and a read-only transaction that
      writes restarts as often as it is let ([CtlLimits]).
    - The clock is reset only when no transaction runs, the barrier makes progress
      without blocking threads and can lose a wake-up with them ([Quiesce]).
    - With the modular contention manager a killed transaction does not commit, and one
      that commits has all its locks, as long as no write set grows; when one grows, a
      killed transaction can take a lock back ([KillSafe]).
    - Values of any size and alignment are written and read back ([Wrappers]); memory
      is freed only after a grace period ([Gc]); the modules follow the fate of the
      transaction ([Modules], [UndoLog]).
    - The red-black tree refines a finite map, sequentially and in transactions; the
      list a set, the ring buffers lists; the random numbers are those of the reference
      generator.
    - The lists, queues and the pool that the server's threads share are linearizable;
      a task can stay hidden in its queue for ever when the bit of the queue is lost
      ([PrioLost]).  A request reads back as the client meant it ([Messages]); at every
      moment each accepted request has been run once or waits in one task, and once a
      server thread has ended, what its client meant has been called, each transaction
      once ([Server]).
    - Each of the five TPC-C transactions refines its specification on the abstract
      database, on every branch, from any store that holds a database, and does nothing
      undefined but in the cases stated ([TpccCorrect]); the database that [manager_allocation]
      loads has the invariant of the requests ([TpccStart]); concurrent requests are
      linearizable, down to the words of memory ([TpccTx]).
    - The findings of the manifest: places where the code does not do what it means to,
      or a comment says otherwise.  Those that concern a theorem are part of its
      statement or shown by an example beside it.

    ** Conventions and bounds

    Words are [Z] in the range of 64 bits, with wrap-around written out; a [long] is read
    with its sign ([to_long]).  Signed overflow is computed as the machine does.  Memory
    is sequentially consistent.  Busy waits and loops that are not structural have
    fuel: for the transactions of the library the theorems hold for any fuel and say
    nothing of a thread that has spent it; for the data structures and the server a
    stated amount is shown to be enough (logarithmic for trees, 257 turns for any tree
    that fits in memory; the length for lists; 45 turns for the loops of stock level,
    whose orders have at most 24 lines; twice the new orders plus 25 for delivery).
    Random numbers, times and the blocks that malloc returns are those of the
    environment, arbitrary; when there is no memory the library exits, which is an
    outcome ([NoMemory]), in a transaction one that never returns.  Strings are never
    written once they are built and are kept apart from the words of memory.  The
    server and the lists read some fields directly, fields that no transaction writes
    once the object is shared; they are read as the others are.  What a request draws
    and is given by malloc does not change from one attempt of its transaction to the
    next.  The tables' keys are below 2^62 in
    magnitude, where comparing by the sign of the difference is right.

    ** Not modelled

    The other builds of stm.c (encounter-time locking, write-through, the contention
    managers that wait) but for their lock words and what Kill.v has; statistics, printing
    and the adaptive modules; the kernel module that delivers the ticks; the server's
    sockets, start, end and statistics; vendored headers; library structures that the
    server is not built with. The manifest gives the reason for each. Still open in what
    is modelled: the transactional variants of the queue; the free list of the lock-free
    list. *)
From Stdlib Require Export ZArith Lia Bool List.
From stdpp Require Export base tactics numbers list gmap option.
#[export] Set Default Goal Selector "!".

Global Open Scope Z_scope.

(** ** Record update

    The C code assigns single fields of structures ([tx->start = ...]).  A
    record type declares its eta-expansion ([Eta]); the instance of [Setter]
    for a projection is then found by abstracting that projection from it, and
    [r <| f := v |>] reads as the assignment does. *)

Class Eta (R : Type) := eta_of : R -> R.

Class Setter {R T : Type} (proj : R -> T) := setter : (T -> T) -> R -> R.

Ltac find_setter :=
  lazymatch goal with
  | |- @Setter ?R ?T ?proj =>
      let e := eval hnf in (@eta_of R _) in
      lazymatch eval pattern proj in e with
      | ?body _ =>
          let s := eval cbv beta in
            (fun (f : T -> T) (r : R) => body (fun r0 : R => f (proj r0)) r) in
          exact s
      end
  end.

#[export] Hint Extern 1 (Setter _) => find_setter : typeclass_instances.

Declare Scope stm_scope.
Delimit Scope stm_scope with stm.
#[warnings="-postfix-notation-not-level-1"]
Notation "r <| f := v |>" := (setter (proj := f) (fun _ => v) r)
  (at level 12, left associativity, f at level 11, v at level 200) : stm_scope.
Global Open Scope stm_scope.

(** ** Functions and pointers *)

(** The null pointer *)
Definition NULL : Z := 0.

(** A function changed at one place *)
Definition put {K A} `{EqDecision K} (f : K -> A) (k : K) (v : A) : K -> A := fun j => if decide (j = k) then v else f j.

Lemma put_eq {K A} `{EqDecision K} (f : K -> A) k v : put f k v k = v.
Proof. unfold put. by rewrite decide_True. Qed.

Lemma put_ne {K A} `{EqDecision K} (f : K -> A) k v j : j <> k -> put f k v j = f j.
Proof. intros. unfold put. by rewrite decide_False. Qed.

(** ** Tactics *)

(** Split every conjunction in the hypotheses and substitute. *)
Ltac destr :=
  repeat match goal with
  | H : _ /\ _ |- _ => destruct H
  | H : exists _, _ |- _ => destruct H
  end.

(** Case analysis on every boolean comparison of the goal, with its arithmetic
    meaning in the context. *)
Ltac case_bool :=
  match goal with
  | |- context [Z.eqb ?a ?b] => destruct (Z.eqb_spec a b)
  | |- context [Z.ltb ?a ?b] => destruct (Z.ltb_spec a b)
  | |- context [Z.leb ?a ?b] => destruct (Z.leb_spec a b)
  end.

(** ** Lists *)

(** Update of a Z-indexed array cell, as C's [a[i] = x] for an index in range. *)
Definition zidx (i : Z) : nat := Z.to_nat i.

Lemma lookup_last_app {A} (l : list A) (x : A) : (l ++ [x]) !! length l = Some x.
Proof. by rewrite lookup_app_r, Nat.sub_diag by lia. Qed.

Lemma Forall_last_app {A} (P : A -> Prop) l x :
  Forall P l -> P x -> Forall P (l ++ [x]).
Proof. intros. apply Forall_app. auto. Qed.

(** Elements that satisfy [P] at different places have different images. *)
Lemma NoDup_fmap_filter {A B} (f : A -> B) (P : A -> Prop) `{forall x, Decision (P x)} (l : list A) :
  (forall j j' x x', l !! j = Some x -> l !! j' = Some x' -> P x -> P x' -> f x = f x' -> j = j') ->
  NoDup (f <$> filter P l).
Proof.
  induction l as [|x l IH]; intros Hinj; [constructor|].
  assert (Hl : NoDup (f <$> filter P l)).
  { apply IH. intros j j' y y' Hj Hj' Hy Hy' Hf.
    assert (S j = S j') by (by eapply (Hinj (S j) (S j') y y')). lia. }
  destruct (decide (P x)) as [Hx|Hx]; [|by rewrite filter_cons_False].
  rewrite filter_cons_True by done. simpl. constructor; [|done].
  intros Hin. apply list_elem_of_fmap in Hin as (y & Hfy & Hy).
  apply list_elem_of_filter in Hy as [Py Hy]. apply list_elem_of_lookup in Hy as [j Hj].
  assert (O = S j); [|lia]. by eapply (Hinj O (S j) x y).
Qed.

Lemma find_Some_split {A} (f : A -> bool) l x :
  List.find f l = Some x -> In x l /\ f x = true.
Proof. apply List.find_some. Qed.
