(* ===== verification/Words.v ===== *)
(** * Words: [stm_word_t] and its bit operations

    [stm_word_t] is [uintptr_t] (tinySTM/include/stm.h), 64 bits wide on the
    target.  A word is a [Z] in [0, 2^64); every operation of the C code that
    can leave that range is followed by [w64], the reduction C performs.  The
    file also holds the masked merge [(old & ~m) | (v & m)] the library uses
    for partial stores, and the lemmas that make it compose. *)
From S2P Require Import Prelude.

(** ** Definitions *)

Definition word_size : Z := 64.

Definition w64 (x : Z) : Z := x mod 2 ^ word_size.

(** [~(stm_word_t)0] *)
Definition ones64 : Z := 2 ^ word_size - 1.

(** [~x] on a word *)
Definition wnot (x : Z) : Z := Z.lxor x ones64.

(** [(old & ~mask) | (value & mask)] *)
Definition wmerge (old value mask : Z) : Z :=
  Z.lor (Z.land old (wnot mask)) (Z.land value mask).

Definition is_word (x : Z) : Prop := 0 <= x < 2 ^ word_size.

(** C's truth value of a comparison or of [&&], [||] and [!]. *)
Definition c_bool (b : bool) : Z := if b then 1 else 0.

(** C's test of an integer in a condition. *)
Definition truth (x : Z) : bool := negb (x =? 0).

(** ** Ranges *)

Lemma w64_word x : is_word (w64 x).
Proof. unfold is_word, w64. apply Z.mod_pos_bound. by compute. Qed.

Lemma w64_id x : is_word x -> w64 x = x.
Proof. intros. by apply Z.mod_small. Qed.

Lemma w64_idemp x : w64 (w64 x) = w64 x.
Proof. apply w64_id, w64_word. Qed.

Lemma is_word_0 : is_word 0.
Proof. by compute. Qed.

Lemma is_word_ones : is_word ones64.
Proof. by compute. Qed.

Lemma word_high x i : is_word x -> 64 <= i -> Z.testbit x i = false.
Proof.
  intros [? ?] ?. destruct (decide (x = 0)) as [->|]; [apply Z.testbit_0_l|].
  apply Z.bits_above_log2; [lia|].
  assert (Z.log2 x < 64) by (apply Z.log2_lt_pow2; unfold word_size in *; lia). lia.
Qed.

Lemma is_word_bits x : 0 <= x -> (forall i, 64 <= i -> Z.testbit x i = false) -> is_word x.
Proof.
  intros H0 Hb. split; [done|]. unfold word_size.
  destruct (decide (x = 0)) as [->|]; [by compute|].
  apply Z.log2_lt_pow2; [lia|].
  destruct (Z.lt_ge_cases (Z.log2 x) 64) as [|Hge]; [done|].
  specialize (Hb _ Hge). rewrite Z.bit_log2 in Hb by lia. done.
Qed.

Lemma is_word_land x y : is_word x -> is_word y -> is_word (Z.land x y).
Proof.
  intros Hx Hy. apply is_word_bits; [apply Z.land_nonneg; destruct Hx; auto|].
  intros i Hi. by rewrite Z.land_spec, (word_high x) by done.
Qed.

Lemma is_word_lor x y : is_word x -> is_word y -> is_word (Z.lor x y).
Proof.
  intros Hx Hy. apply is_word_bits; [apply Z.lor_nonneg; destruct Hx, Hy; auto|].
  intros i Hi. by rewrite Z.lor_spec, !word_high by done.
Qed.

Lemma is_word_wnot x : is_word x -> is_word (wnot x).
Proof.
  intros Hx. pose proof is_word_ones as Ho.
  apply is_word_bits; [apply Z.lxor_nonneg; destruct Hx, Ho; tauto|].
  intros i Hi. unfold wnot. by rewrite Z.lxor_spec, !word_high by done.
Qed.

Lemma is_word_wmerge a v m : is_word a -> is_word v -> is_word m -> is_word (wmerge a v m).
Proof. intros. apply is_word_lor; apply is_word_land; auto using is_word_wnot. Qed.

Lemma is_word_shiftr x n : is_word x -> 0 <= n -> is_word (Z.shiftr x n).
Proof.
  intros Hx Hn. apply is_word_bits; [apply Z.shiftr_nonneg, Hx|].
  intros i Hi. rewrite Z.shiftr_spec by lia. apply word_high; [done|lia].
Qed.

Create HintDb word discriminated.
#[export] Hint Resolve w64_word is_word_0 is_word_ones is_word_land is_word_lor
  is_word_wnot is_word_wmerge is_word_shiftr : word.
#[export] Hint Extern 1 (_ <= _) => lia : word.

(** ** Bits *)

Lemma ones64_bit i : 0 <= i < 64 -> Z.testbit ones64 i = true.
Proof. intros. change ones64 with (Z.ones 64). by apply Z.ones_spec_low. Qed.

Lemma wnot_bit x i : 0 <= i < 64 -> Z.testbit (wnot x) i = negb (Z.testbit x i).
Proof.
  intros. unfold wnot. rewrite Z.lxor_spec, ones64_bit by done.
  by destruct (Z.testbit x i).
Qed.

Lemma w64_bit x i : 0 <= i < 64 -> Z.testbit (w64 x) i = Z.testbit x i.
Proof. intros. unfold w64, word_size. rewrite Z.mod_pow2_bits_low; [done|lia]. Qed.

Lemma wmerge_bit a v m i :
  0 <= i < 64 ->
  Z.testbit (wmerge a v m) i = if Z.testbit m i then Z.testbit v i else Z.testbit a i.
Proof.
  intros. unfold wmerge. rewrite Z.lor_spec, !Z.land_spec, wnot_bit by done.
  by destruct (Z.testbit m i), (Z.testbit a i), (Z.testbit v i).
Qed.

Lemma word_ext x y :
  is_word x -> is_word y ->
  (forall i, 0 <= i < 64 -> Z.testbit x i = Z.testbit y i) -> x = y.
Proof.
  intros Hx Hy Hb. apply Z.bits_inj_iff'. intros i Hi.
  destruct (Z.lt_ge_cases i 64) as [|]; [auto|]. by rewrite !word_high.
Qed.

(** Prove an equation between words bit by bit. *)
Ltac word_bits :=
  apply word_ext; [auto 6 with word..|]; intros ?i ?Hi;
  repeat (rewrite ?wmerge_bit, ?wnot_bit, ?w64_bit, ?ones64_bit, ?Z.lor_spec,
            ?Z.land_spec, ?Z.lxor_spec, ?Z.testbit_0_l by lia);
  repeat match goal with |- context [Z.testbit ?x ?i] => destruct (Z.testbit x i) end;
  try done.

(** ** The masked merge *)

Lemma wmerge_ones a v : is_word a -> is_word v -> wmerge a v ones64 = v.
Proof. intros. word_bits. Qed.

Lemma wmerge_0 a v : is_word a -> is_word v -> wmerge a v 0 = a.
Proof. intros. word_bits. Qed.

(** Two merges in a row are one: what [stm_write] relies on when it folds a
    second store to an address into the existing write-set entry. *)
Lemma wmerge_wmerge a v1 m1 v2 m2 :
  is_word a -> is_word v1 -> is_word m1 -> is_word v2 -> is_word m2 ->
  wmerge (wmerge a v1 m1) v2 m2 = wmerge a (wmerge v1 v2 m2) (Z.lor m1 m2).
Proof. intros. word_bits. Qed.

Lemma wmerge_idemp a v m :
  is_word a -> is_word v -> is_word m -> wmerge (wmerge a v m) v m = wmerge a v m.
Proof. intros. word_bits. Qed.

Lemma lor_ones m : is_word m -> Z.lor m ones64 = ones64.
Proof. intros. word_bits. Qed.

Lemma truth_c_bool b : truth (c_bool b) = b.
Proof. by destruct b. Qed.

Lemma truth_spec x : reflect (x <> 0) (truth x).
Proof. unfold truth. destruct (Z.eqb_spec x 0); constructor; auto. Qed.

(** ** Low-order fields *)

(** Clearing the [k] low bits of a word. *)
Lemma land_wnot_ones k l :
  is_word l -> 0 <= k <= 64 -> Z.land l (wnot (Z.ones k)) = l - l mod 2 ^ k.
Proof.
  intros Hl Hk.
  assert (Hp : 0 < 2 ^ k) by (apply Z.pow_pos_nonneg; lia).
  assert (is_word (Z.ones k)).
  { rewrite Z.ones_equiv. pose proof (Z.pow_le_mono_r 2 k 64 ltac:(lia) ltac:(lia)).
    unfold is_word, word_size. lia. }
  assert (Hw : is_word (l - l mod 2 ^ k)).
  { unfold is_word in *. pose proof (Z.mod_pos_bound l (2 ^ k) Hp).
    pose proof (Z.mod_le l (2 ^ k) ltac:(lia) ltac:(lia)). lia. }
  apply word_ext; [auto with word|done|].
  intros i Hi. rewrite Z.land_spec, wnot_bit by done.
  replace (l - l mod 2 ^ k) with (Z.shiftl (Z.shiftr l k) k).
  - rewrite Z.shiftl_spec by lia. destruct (Z.lt_ge_cases i k).
    + rewrite Z.ones_spec_low, (Z.testbit_neg_r (Z.shiftr l k)) by lia.
      by rewrite andb_false_r.
    + rewrite Z.ones_spec_high, Z.shiftr_spec by lia.
      replace (i - k + k) with i by lia. by rewrite andb_true_r.
  - rewrite Z.shiftl_mul_pow2, Z.shiftr_div_pow2 by lia.
    pose proof (Z.div_mod l (2 ^ k) ltac:(lia)). lia.
Qed.

(** Storing a field in cleared low bits is an addition. *)
Lemma lor_low k x y :
  0 <= k -> 0 <= y < 2 ^ k -> Z.lor (x * 2 ^ k) y = x * 2 ^ k + y.
Proof.
  intros Hk Hy.
  assert (Hz : Z.land (x * 2 ^ k) y = 0).
  { apply Z.bits_inj_iff'. intros i Hi. rewrite Z.land_spec, Z.testbit_0_l.
    rewrite <- Z.shiftl_mul_pow2, Z.shiftl_spec by lia.
    destruct (Z.lt_ge_cases i k).
    - by rewrite Z.testbit_neg_r by lia.
    - rewrite <- (Z.mod_small y (2 ^ k)), Z.mod_pow2_bits_high by lia. apply andb_false_r. }
  rewrite <- Z.lxor_lor by done. symmetry. by apply Z.add_nocarry_lxor.
Qed.
