(* ===== verification/LockWord.v ===== *)
(** * Lock words, lock indices and status words

    The encodings of tinySTM/src/stm.c (section LOCKS) and of
    tinySTM/include/stm.h (transaction status).  A lock is one word: its low
    bit(s) say whether the stripe is owned; the rest is the owner's pointer when
    owned, and a version number (for write-through, with an incarnation number
    below it) when not.  [Module WriteBack] is the encoding of both write-back
    designs, [Module WriteThrough] that of write-through, [Module Modular] the
    two-bit encoding of the modular contention manager. *)
From S2P Require Import Prelude Words.

(** ** Parameters shared by the encodings *)

Definition MAX_THREADS : Z := 8192.

Definition WRITE_MASK : Z := 1.

(** A pointer-sized word with every bit set: a stripe locked by a unit store. *)
Definition LOCK_UNIT : Z := ones64.

Definition LOCK_GET_WRITE (l : Z) : Z := Z.land l WRITE_MASK.

Definition LOCK_SET_ADDR_WRITE (a : Z) : Z := Z.lor a WRITE_MASK.

(** ** One owned bit, version above it *)
Module WriteBack.

Definition OWNED_BITS : Z := 1.

Definition OWNED_MASK : Z := WRITE_MASK.

Definition LOCK_BITS : Z := OWNED_BITS.

Definition VERSION_MAX : Z := Z.shiftr ones64 LOCK_BITS - MAX_THREADS.

Definition LOCK_GET_OWNED (l : Z) : Z := Z.land l OWNED_MASK.

Definition LOCK_GET_ADDR (l : Z) : Z := Z.land l (wnot OWNED_MASK).

Definition LOCK_GET_TIMESTAMP (l : Z) : Z := Z.shiftr l OWNED_BITS.

Definition LOCK_SET_TIMESTAMP (t : Z) : Z := w64 (Z.shiftl t OWNED_BITS).

End WriteBack.

(** ** One owned bit, three incarnation bits, version above *)
Module WriteThrough.

Definition OWNED_BITS : Z := 1.

Definition OWNED_MASK : Z := WRITE_MASK.

Definition INCARNATION_BITS : Z := 3.

Definition INCARNATION_MAX : Z := Z.shiftl 1 INCARNATION_BITS - 1.

Definition INCARNATION_MASK : Z := Z.shiftl INCARNATION_MAX 1.

Definition LOCK_BITS : Z := OWNED_BITS + INCARNATION_BITS.

Definition VERSION_MAX : Z := Z.shiftr ones64 LOCK_BITS - MAX_THREADS.

Definition LOCK_GET_OWNED (l : Z) : Z := Z.land l OWNED_MASK.

Definition LOCK_GET_ADDR (l : Z) : Z := Z.land l (wnot OWNED_MASK).

Definition LOCK_GET_TIMESTAMP (l : Z) : Z := Z.shiftr l (1 + INCARNATION_BITS).

Definition LOCK_SET_TIMESTAMP (t : Z) : Z := w64 (Z.shiftl t (1 + INCARNATION_BITS)).

Definition LOCK_GET_INCARNATION (l : Z) : Z := Z.shiftr (Z.land l INCARNATION_MASK) 1.

Definition LOCK_SET_INCARNATION (i : Z) : Z := Z.shiftl i 1.

Definition LOCK_UPD_INCARNATION (l i : Z) : Z :=
  Z.lor (Z.land l (wnot (Z.lor INCARNATION_MASK OWNED_MASK))) (LOCK_SET_INCARNATION i).

End WriteThrough.

(** ** A write bit and a read bit *)
Module Modular.

Definition OWNED_BITS : Z := 2.

Definition READ_MASK : Z := 2.

Definition OWNED_MASK : Z := Z.lor WRITE_MASK READ_MASK.

Definition LOCK_BITS : Z := OWNED_BITS.

Definition VERSION_MAX : Z := Z.shiftr ones64 LOCK_BITS - MAX_THREADS.

Definition LOCK_GET_OWNED (l : Z) : Z := Z.land l OWNED_MASK.

Definition LOCK_GET_ADDR (l : Z) : Z := Z.land l (wnot OWNED_MASK).

Definition LOCK_GET_READ (l : Z) : Z := Z.land l READ_MASK.

Definition LOCK_SET_ADDR_READ (a : Z) : Z := Z.lor a READ_MASK.

Definition LOCK_UPGRADE (l : Z) : Z := Z.lor l WRITE_MASK.

Definition LOCK_GET_TIMESTAMP (l : Z) : Z := Z.shiftr l OWNED_BITS.

Definition LOCK_SET_TIMESTAMP (t : Z) : Z := w64 (Z.shiftl t OWNED_BITS).

End Modular.

(** ** From an address to its lock *)

Definition LOCK_ARRAY_LOG_SIZE : Z := 20.

Definition LOCK_SHIFT_EXTRA : Z := 2.

Definition LOCK_ARRAY_SIZE : Z := Z.shiftl 1 LOCK_ARRAY_LOG_SIZE.

Definition LOCK_MASK : Z := LOCK_ARRAY_SIZE - 1.

(** [sizeof(stm_word_t)] is 8. *)
Definition LOCK_SHIFT : Z := 3 + LOCK_SHIFT_EXTRA.

Definition LOCK_IDX (a : Z) : Z := Z.land (Z.shiftr (w64 a) LOCK_SHIFT) LOCK_MASK.

(** [lock_idx_swap] works on [unsigned int]. *)
Definition u32 (x : Z) : Z := x mod 2 ^ 32.

Definition lock_idx_swap (idx : Z) : Z :=
  Z.lor (Z.lor (Z.land idx (2 ^ 32 - 1 - 0xFFFF))
               (u32 (Z.shiftl (Z.land idx 0x00FF) 8)))
        (Z.shiftr (Z.land idx 0xFF00) 8).

(** [GET_LOCK] as an index into [locks], without and with [LOCK_IDX_SWAP]. *)
Definition GET_LOCK (a : Z) : Z := LOCK_IDX a.

Definition GET_LOCK_swapped (a : Z) : Z := lock_idx_swap (LOCK_IDX a).

(** The hash bits of the Bloom filter option. *)
Definition FILTER_HASH (a : Z) : Z := Z.lxor (Z.shiftr (w64 a) 2) (Z.shiftr (w64 a) 5).

Definition FILTER_BITS (a : Z) : Z := Z.shiftl 1 (Z.land (FILTER_HASH a) 0x1F).

(** ** Transaction status *)

Definition TX_IDLE : Z := 0.
Definition TX_ACTIVE : Z := 1.
Definition TX_COMMITTED : Z := Z.shiftl 1 1.
Definition TX_ABORTED : Z := Z.shiftl 2 1.
Definition TX_COMMITTING : Z := Z.lor (Z.shiftl 1 1) TX_ACTIVE.
Definition TX_ABORTING : Z := Z.lor (Z.shiftl 2 1) TX_ACTIVE.
Definition TX_KILLED : Z := Z.lor (Z.shiftl 3 1) TX_ACTIVE.
Definition TX_IRREVOCABLE : Z := Z.lor 8 TX_ACTIVE.

Definition STATUS_BITS : Z := 4.
Definition STATUS_MASK : Z := Z.shiftl 1 STATUS_BITS - 1.

(** Without the modular contention manager the status word is the status. *)
Definition GET_STATUS (s : Z) : Z := s.

Definition IS_ACTIVE (s : Z) : bool := Z.land (GET_STATUS s) 1 =? TX_ACTIVE.

(** With it, a counter of (re)starts stands above the four status bits. *)
Module ModularStatus.

Definition SET_STATUS (s v : Z) : Z := Z.lor (Z.land s (wnot STATUS_MASK)) v.

Definition INC_STATUS_COUNTER (s : Z) : Z := w64 (Z.shiftl (w64 (Z.shiftr s STATUS_BITS + 1)) STATUS_BITS).

Definition UPDATE_STATUS (s v : Z) : Z := Z.lor (INC_STATUS_COUNTER s) v.

Definition GET_STATUS (s : Z) : Z := Z.land s STATUS_MASK.

Definition GET_STATUS_COUNTER (s : Z) : Z := Z.shiftr s STATUS_BITS.

Definition IS_ACTIVE (s : Z) : bool := Z.land (GET_STATUS s) 1 =? TX_ACTIVE.

End ModularStatus.

(** Reasons passed to [stm_rollback] (tinySTM/include/stm.h). *)
Definition STM_ABORT_EXPLICIT : Z := Z.shiftl 1 4.
Definition STM_ABORT_IMPLICIT : Z := Z.shiftl 1 5.
Definition STM_ABORT_RR_CONFLICT : Z := Z.lor (Z.shiftl 1 5) (Z.shiftl 0x01 8).
Definition STM_ABORT_RW_CONFLICT : Z := Z.lor (Z.shiftl 1 5) (Z.shiftl 0x02 8).
Definition STM_ABORT_WR_CONFLICT : Z := Z.lor (Z.shiftl 1 5) (Z.shiftl 0x03 8).
Definition STM_ABORT_WW_CONFLICT : Z := Z.lor (Z.shiftl 1 5) (Z.shiftl 0x04 8).
Definition STM_ABORT_VAL_READ : Z := Z.lor (Z.shiftl 1 5) (Z.shiftl 0x05 8).
Definition STM_ABORT_VAL_WRITE : Z := Z.lor (Z.shiftl 1 5) (Z.shiftl 0x06 8).
Definition STM_ABORT_VALIDATE : Z := Z.lor (Z.shiftl 1 5) (Z.shiftl 0x07 8).
Definition STM_ABORT_RO_WRITE : Z := Z.lor (Z.shiftl 1 5) (Z.shiftl 0x08 8).
Definition STM_ABORT_IRREVOCABLE : Z := Z.lor (Z.shiftl 1 5) (Z.shiftl 0x09 8).
Definition STM_ABORT_KILLED : Z := Z.lor (Z.shiftl 1 5) (Z.shiftl 0x0A 8).
Definition STM_ABORT_SIGNAL : Z := Z.lor (Z.shiftl 1 5) (Z.shiftl 0x0B 8).
Definition STM_ABORT_OTHER : Z := Z.lor (Z.shiftl 1 5) (Z.shiftl 0x0F 8).
Definition STM_ABORT_NO_RETRY : Z := Z.lor (Z.shiftl 1 5) (Z.shiftl 0x10 8).
Definition STM_ABORT_EARLY : Z := Z.lor (Z.shiftl 1 5) (Z.shiftl 0x1F 8).

(** ** Arithmetic reading of the write-back encoding *)

Lemma land_1 l : Z.land l 1 = l mod 2.
Proof. change 1 with (Z.ones 1). by rewrite Z.land_ones. Qed.

Lemma wb_owned l : WriteBack.LOCK_GET_OWNED l = l mod 2.
Proof. apply land_1. Qed.

Lemma lock_write l : LOCK_GET_WRITE l = l mod 2.
Proof. apply land_1. Qed.

Lemma wb_get_timestamp l : WriteBack.LOCK_GET_TIMESTAMP l = l / 2.
Proof. unfold WriteBack.LOCK_GET_TIMESTAMP. by rewrite Z.shiftr_div_pow2. Qed.

Lemma wb_set_timestamp t :
  0 <= t < 2 ^ 63 -> WriteBack.LOCK_SET_TIMESTAMP t = 2 * t.
Proof.
  intros. unfold WriteBack.LOCK_SET_TIMESTAMP, WriteBack.OWNED_BITS.
  rewrite Z.shiftl_mul_pow2 by lia. rewrite w64_id; [lia|].
  unfold is_word, word_size. lia.
Qed.

Lemma set_addr_write a : a mod 2 = 0 -> LOCK_SET_ADDR_WRITE a = a + 1.
Proof.
  intros Ha. unfold LOCK_SET_ADDR_WRITE, WRITE_MASK.
  rewrite (Z.div_mod a 2), Ha, Z.add_0_r by lia.
  rewrite (Z.mul_comm 2). by apply (lor_low 1).
Qed.

Lemma land_wnot_1 l : is_word l -> Z.land l (wnot 1) = l - l mod 2.
Proof. intros. by apply (land_wnot_ones 1). Qed.

Lemma wb_get_addr a :
  is_word a -> a mod 2 = 0 -> a + 1 < 2 ^ 64 ->
  WriteBack.LOCK_GET_ADDR (a + 1) = a.
Proof.
  intros Ha He Hb. unfold WriteBack.LOCK_GET_ADDR, WriteBack.OWNED_MASK, WRITE_MASK.
  rewrite land_wnot_1 by (unfold is_word, word_size in *; lia).
  rewrite Z.add_mod, He by lia. change ((0 + 1 mod 2) mod 2) with 1. lia.
Qed.

Lemma wb_addr_unit : WriteBack.LOCK_GET_ADDR LOCK_UNIT = ones64 - 1.
Proof. reflexivity. Qed.

Lemma LOCK_IDX_range a : 0 <= LOCK_IDX a < LOCK_ARRAY_SIZE.
Proof.
  unfold LOCK_IDX. change LOCK_MASK with (Z.ones LOCK_ARRAY_LOG_SIZE).
  rewrite Z.land_ones by (by compute). apply Z.mod_pos_bound. by compute.
Qed.

(** ** Properties *)

(** C31. A lock word of the write-back designs says which of its two forms it has
    and gives back what was put in: a timestamp of up to 63 bits for a free lock,
    the address of a write-set entry (even) for a held one; the two never coincide. *)
Theorem wb_lock_word_roundtrip t a :
  0 <= t < 2 ^ 63 -> is_word a -> a mod 2 = 0 ->
  let free := WriteBack.LOCK_SET_TIMESTAMP t in
  let held := LOCK_SET_ADDR_WRITE a in
  WriteBack.LOCK_GET_OWNED free = 0 /\ WriteBack.LOCK_GET_TIMESTAMP free = t /\
  WriteBack.LOCK_GET_OWNED held = 1 /\ WriteBack.LOCK_GET_ADDR held = a /\
  free <> held.
Proof.
  intros Ht Ha He. cbv zeta.
  assert (Hodd : (a + 1) mod 2 = 1) by (rewrite Z.add_mod, He by lia; done).
  assert (a + 1 < 2 ^ 64).
  { unfold is_word, word_size in Ha.
    assert (a <> 2 ^ 64 - 1) by (intros ->; by compute in He). lia. }
  rewrite wb_set_timestamp, set_addr_write, !wb_owned, wb_get_timestamp, wb_get_addr by done.
  rewrite (Z.mul_comm 2 t), Z.mod_mul, Z.div_mul by lia.
  split_and!; [done..|].
  intros Heq. rewrite <- Heq, Z.mod_mul in Hodd; lia.
Qed.

Lemma wb_lock_word_roundtrip_witness :
  let free := WriteBack.LOCK_SET_TIMESTAMP 77 in
  let held := LOCK_SET_ADDR_WRITE 4160 in
  WriteBack.LOCK_GET_OWNED free = 0 /\ WriteBack.LOCK_GET_TIMESTAMP free = 77 /\
  WriteBack.LOCK_GET_OWNED held = 1 /\ WriteBack.LOCK_GET_ADDR held = 4160 /\
  free <> held.
Proof. apply (wb_lock_word_roundtrip 77 4160); done. Defined.

(** In the write-through design, updating the incarnation number of a free
    lock keeps its timestamp and the owned bit, for any incarnation that fits. *)
Theorem wt_incarnation_update l i :
  is_word l -> WriteThrough.LOCK_GET_OWNED l = 0 -> 0 <= i <= WriteThrough.INCARNATION_MAX ->
  let l' := WriteThrough.LOCK_UPD_INCARNATION l i in
  WriteThrough.LOCK_GET_TIMESTAMP l' = WriteThrough.LOCK_GET_TIMESTAMP l /\
  WriteThrough.LOCK_GET_INCARNATION l' = i /\
  WriteThrough.LOCK_GET_OWNED l' = 0.
Proof.
  change WriteThrough.INCARNATION_MAX with 7. intros Hl Ho Hi. cbv zeta.
  assert (Heq : WriteThrough.LOCK_UPD_INCARNATION l i = 16 * (l / 16) + 2 * i).
  { unfold WriteThrough.LOCK_UPD_INCARNATION, WriteThrough.LOCK_SET_INCARNATION.
    change (Z.lor WriteThrough.INCARNATION_MASK WriteThrough.OWNED_MASK) with (Z.ones 4).
    rewrite land_wnot_ones by (done || lia). rewrite Z.shiftl_mul_pow2 by lia.
    change (2 ^ 4) with 16. change (2 ^ 1) with 2.
    replace (l - l mod 16) with (l / 16 * 2 ^ 4) by (pose proof (Z.div_mod l 16 ltac:(lia)); lia).
    rewrite lor_low by lia. lia. }
  rewrite Heq. unfold WriteThrough.LOCK_GET_TIMESTAMP, WriteThrough.LOCK_GET_INCARNATION,
    WriteThrough.LOCK_GET_OWNED, WriteThrough.OWNED_MASK, WRITE_MASK.
  change (1 + WriteThrough.INCARNATION_BITS) with 4. rewrite land_1.
  rewrite !Z.shiftr_div_pow2 by lia. change (2 ^ 4) with 16. change (2 ^ 1) with 2.
  split_and!.
  - rewrite Z.mul_comm, Z.div_add_l, (Z.div_small (2 * i)) by lia. lia.
  - change WriteThrough.INCARNATION_MASK with (Z.shiftl (Z.ones 3) 1).
    rewrite <- (Z.shiftr_div_pow2 _ 1), Z.shiftr_land, Z.shiftr_shiftl_l by lia.
    change (Z.shiftl (Z.ones 3) (1 - 1)) with (Z.ones 3).
    rewrite Z.land_ones, Z.shiftr_div_pow2 by lia. change (2 ^ 1) with 2. change (2 ^ 3) with 8.
    replace (16 * (l / 16) + 2 * i) with ((8 * (l / 16) + i) * 2) by lia.
    rewrite Z.div_mul, Z.add_comm, (Z.mul_comm 8), Z.mod_add by lia. apply Z.mod_small. lia.
  - replace (16 * (l / 16) + 2 * i) with ((8 * (l / 16) + i) * 2) by lia. by apply Z.mod_mul.
Qed.

Lemma wt_incarnation_update_witness :
  let l' := WriteThrough.LOCK_UPD_INCARNATION 86 7 in
  WriteThrough.LOCK_GET_TIMESTAMP l' = 5 /\ WriteThrough.LOCK_GET_INCARNATION l' = 7 /\
  WriteThrough.LOCK_GET_OWNED l' = 0.
Proof. apply (wt_incarnation_update 86 7); done. Defined.

(** [lock_idx_swap] moves bits 8-15 to 0-7 and back, and keeps the others. *)
Lemma lock_idx_swap_bit idx i :
  0 <= idx < 2 ^ 32 -> 0 <= i ->
  Z.testbit (lock_idx_swap idx) i =
  Z.testbit idx (if i <? 8 then i + 8 else if i <? 16 then i - 8 else i).
Proof.
  intros Hx Hi.
  assert (Hhigh : forall j, 32 <= j -> Z.testbit idx j = false).
  { intros j Hj. rewrite <- (Z.mod_small idx (2 ^ 32)), Z.mod_pow2_bits_high by lia. done. }
  unfold lock_idx_swap, u32.
  change (2 ^ 32 - 1 - 0xFFFF) with (Z.shiftl (Z.ones 16) 16).
  change 0x00FF with (Z.ones 8). change 0xFF00 with (Z.shiftl (Z.ones 8) 8).
  rewrite !Z.lor_spec, Z.shiftr_spec, !Z.land_spec, !Z.shiftl_spec by lia.
  destruct (Z.lt_ge_cases i 32) as [H32|H32].
  - rewrite Z.mod_pow2_bits_low, Z.shiftl_spec, Z.land_spec by lia.
    destruct (Z.ltb_spec i 8), (Z.ltb_spec i 16); try lia;
      rewrite ?(Z.testbit_neg_r (Z.ones 16)), ?(Z.testbit_neg_r idx (i - 8)),
        ?(Z.testbit_neg_r (Z.ones 8)) by lia;
      rewrite ?(Z.ones_spec_low 16), ?(Z.ones_spec_low 8), ?(Z.ones_spec_high 8) by lia;
      rewrite ?andb_true_r, ?andb_false_r, ?orb_false_r; done.
  - rewrite Z.mod_pow2_bits_high by lia.
    rewrite (Z.ones_spec_high 8) by lia.
    destruct (Z.ltb_spec i 8), (Z.ltb_spec i 16); try lia.
    rewrite Hhigh by lia. by rewrite andb_false_r.
Qed.

Lemma lock_idx_swap_nonneg idx : 0 <= idx -> 0 <= lock_idx_swap idx.
Proof.
  intros. unfold lock_idx_swap, u32. rewrite !Z.lor_nonneg. split_and!.
  - apply Z.land_nonneg. auto.
  - by apply Z.mod_pos_bound.
  - apply Z.shiftr_nonneg, Z.land_nonneg. auto.
Qed.

Lemma lock_idx_swap_small idx k :
  16 <= k <= 32 -> 0 <= idx < 2 ^ k -> 0 <= lock_idx_swap idx < 2 ^ k.
Proof.
  intros Hk Hx. pose proof (lock_idx_swap_nonneg idx ltac:(lia)) as Hn.
  split; [done|]. pose proof (Z.pow_le_mono_r 2 k 32 ltac:(lia) ltac:(lia)).
  destruct (decide (lock_idx_swap idx = 0)) as [->|]; [lia|].
  apply Z.log2_lt_pow2; [lia|].
  destruct (Z.lt_ge_cases (Z.log2 (lock_idx_swap idx)) k) as [|Hge]; [done|].
  pose proof (Z.bit_log2 (lock_idx_swap idx) ltac:(lia)) as Hb.
  rewrite lock_idx_swap_bit in Hb by lia.
  revert Hb. generalize dependent (Z.log2 (lock_idx_swap idx)). intros m Hm.
  destruct (Z.ltb_spec m 8); [lia|]. destruct (Z.ltb_spec m 16); [lia|].
  rewrite <- (Z.mod_small idx (2 ^ k)), Z.mod_pow2_bits_high by lia. done.
Qed.

(** The optional swap of lock indices is a permutation of the lock array, its own
    inverse: two addresses share a lock with it just when they do without it. *)
Theorem lock_idx_swap_involutive idx :
  0 <= idx < LOCK_ARRAY_SIZE ->
  0 <= lock_idx_swap idx < LOCK_ARRAY_SIZE /\ lock_idx_swap (lock_idx_swap idx) = idx.
Proof.
  change LOCK_ARRAY_SIZE with (2 ^ 20). intros Hx.
  pose proof (lock_idx_swap_small idx 20 ltac:(lia) Hx) as Hs.
  split; [done|]. apply Z.bits_inj_iff'. intros i Hi.
  rewrite !lock_idx_swap_bit by (repeat case_bool; lia).
  repeat case_bool; try lia; f_equal; lia.
Qed.

Lemma lock_idx_swap_involutive_witness :
  0 <= lock_idx_swap 0x3ABCD < LOCK_ARRAY_SIZE /\ lock_idx_swap (lock_idx_swap 0x3ABCD) = 0x3ABCD.
Proof. apply (lock_idx_swap_involutive 0x3ABCD); done. Defined.
