(* ===== verification/Machine.v ===== *)
(** * The machine: atomic actions, programs and their two semantics

    The library is written over the macros of tinySTM/src/atomic.h.  Each of
    them is one [action] on a shared cell; anything the code asks of its
    environment (the allocator, a registered callback, a timer tick) is an
    [Ext] action whose meaning is a parameter.  A [prog] is a sequence of
    actions, each continuing on the value the action returned.  The same
    program has two semantics: [run] executes it alone, and computes; and
    [pool_step] interleaves the threads of a pool action by action
    (sequential consistency is assumed: the acquire and release annotations
    carry no weaker meaning here).

    The last part is a small rely/guarantee logic for the interleaved
    semantics, with ghost state: [wp i p Q] says that thread [i] can run [p] from
    here whatever the others do within its [rely], keeping the global invariant
    and staying within what the others rely on, and ends in [Q]. *)
From S2P Require Import Prelude Words.

Set Implicit Arguments.

(** ** Actions, states, programs *)

Inductive action (L E : Type) : Type :=
| Load (l : L)
| Store (l : L) (v : Z)
| Cas (l : L) (e v : Z)
| Fetch_inc (l : L)
| Ext (e : E).

Arguments Load {L E} l.
Arguments Store {L E} l v.
Arguments Cas {L E} l e v.
Arguments Fetch_inc {L E} l.
Arguments Ext {L E} e.

(** The shared cells and the part of the environment the actions can see. *)
Record state (L X : Type) : Type := mk_state { cell : L -> Z; extra : X }.

Arguments mk_state {L X} cell extra.
Arguments cell {L X} s l.
Arguments extra {L X} s.

Inductive prog (L E A : Type) : Type :=
| Ret (a : A)
| Do (act : action L E) (k : Z -> prog L E A).

Arguments Ret {L E A} a.
Arguments Do {L E A} act k.

Fixpoint prog_bind {L E A B} (p : prog L E A) (f : A -> prog L E B) : prog L E B :=
  match p with
  | Ret a => f a
  | Do act k => Do act (fun r => prog_bind (k r) f)
  end.

Definition upd {L} `{EqDecision L} (c : L -> Z) (l : L) (v : Z) : L -> Z :=
  fun l' => if decide (l' = l) then v else c l'.

Definition set_cell {L X} `{EqDecision L} (s : state L X) (l : L) (v : Z) : state L X :=
  mk_state (upd (cell s) l v) (extra s).

Section Semantics.

Context {L E X : Type} `{EqDecision L}.

(** ** Executing a program alone *)

(** The environment's answer to an [Ext] action of thread [i]. *)
Variable ext_run : nat -> E -> X -> Z * X.

(** ATOMIC_LOAD, ATOMIC_STORE, ATOMIC_CAS_FULL, ATOMIC_FETCH_INC_FULL. *)
Definition exec_action (i : nat) (a : action L E) (s : state L X) : Z * state L X :=
  match a with
  | Load l => (cell s l, s)
  | Store l v => (0, set_cell s l v)
  | Cas l e v => if decide (cell s l = e) then (1, set_cell s l v) else (0, s)
  | Fetch_inc l => (cell s l, set_cell s l (w64 (cell s l + 1)))
  | Ext e => let '(r, x) := ext_run i e (extra s) in (r, mk_state (cell s) x)
  end.

Fixpoint run {A} (i : nat) (p : prog L E A) (s : state L X) : A * state L X :=
  match p with
  | Ret a => (a, s)
  | Do a k => let '(r, s') := exec_action i a s in run i (k r) s'
  end.

(** ** Interleaving *)

Variable ext_step : nat -> E -> X -> Z -> X -> Prop.

Inductive action_step (i : nat) : action L E -> state L X -> Z -> state L X -> Prop :=
| step_load l s : action_step i (Load l) s (cell s l) s
| step_store l v s : action_step i (Store l v) s 0 (set_cell s l v)
| step_cas_ok l e v s : cell s l = e -> action_step i (Cas l e v) s 1 (set_cell s l v)
| step_cas_fail l e v s : cell s l <> e -> action_step i (Cas l e v) s 0 s
| step_fetch_inc l s :
    action_step i (Fetch_inc l) s (cell s l) (set_cell s l (w64 (cell s l + 1)))
| step_ext e s r x :
    ext_step i e (extra s) r x -> action_step i (Ext e) s r (mk_state (cell s) x).

(** What the world outside the threads may do at any time. *)
Variable env : state L X -> state L X -> Prop.

Inductive pool_step {A} :
  state L X * list (prog L E A) -> state L X * list (prog L E A) -> Prop :=
| pool_thread i a k r s s' ts :
    ts !! i = Some (Do a k) -> action_step i a s r s' ->
    pool_step (s, ts) (s', <[i := k r]> ts)
| pool_env s s' ts : env s s' -> pool_step (s, ts) (s', ts).

(** ** Rely/guarantee *)

Context {G : Type}.

Local Abbreviation st := (state L X * G)%type.

Variable Inv : st -> Prop.

(** [rely i s s']: what thread [i] accepts from the others. *)
Variable rely : nat -> st -> st -> Prop.

Definition stable (i : nat) (P : st -> Prop) : Prop :=
  forall s s', P s -> rely i s s' -> Inv s' -> P s'.

(** [P] holds after a change of the ghost state that the invariant and the other
    threads allow, whatever happened in between. *)
Definition gupd (i : nat) (P : st -> Prop) (s : st) : Prop :=
  forall s1, rely i s s1 -> Inv s1 ->
  exists g', Inv (fst s1, g') /\ (forall j, j <> i -> rely j s1 (fst s1, g')) /\
             P (fst s1, g').

Fixpoint wp {A} (i : nat) (p : prog L E A) (Q : A -> st -> Prop) (s : st) : Prop :=
  match p with
  | Ret a => gupd i (Q a) s
  | Do a k =>
      forall s1, rely i s s1 -> Inv s1 ->
      forall r s', action_step i a (fst s1) r s' ->
      exists g', Inv (s', g') /\ (forall j, j <> i -> rely j s1 (s', g')) /\
                 wp i (k r) Q (s', g')
  end.

End Semantics.

Arguments exec_action {L E X EqDecision0} ext_run i a s.
Arguments run {L E X EqDecision0} ext_run {A} i p s.

(** ** Properties of [run] *)

Section Run.

Context {L E X : Type} `{EqDecision L} (ext_run : nat -> E -> X -> Z * X).

Lemma run_bind {A B} i (p : prog L E A) (f : A -> prog L E B) (s : state L X) :
  run ext_run i (prog_bind p f) s =
  let '(a, s') := run ext_run i p s in run ext_run i (f a) s'.
Proof.
  revert s. induction p as [a|a k IH]; intros s; simpl; [done|].
  destruct (exec_action ext_run i a s) as [r s']. apply IH.
Qed.

Lemma run_ret {A} i (a : A) (s : state L X) : run ext_run i (Ret a) s = (a, s).
Proof. done. Qed.

(** A thread running alone is one of the interleavings, when the environment's
    answers are allowed and keep [Good]. *)
Variable ext_step : nat -> E -> X -> Z -> X -> Prop.
Variable Good : X -> Prop.
Hypothesis ext_ok : forall i e x, Good x ->
  ext_step i e x (ext_run i e x).1 (ext_run i e x).2 /\ Good (ext_run i e x).2.

Lemma exec_action_step i (a : action L E) (s : state L X) :
  Good (extra s) ->
  action_step ext_step i a s (exec_action ext_run i a s).1 (exec_action ext_run i a s).2 /\
  Good (extra (exec_action ext_run i a s).2).
Proof.
  intros Hg. destruct a as [l|l v|l e v|l|e]; simpl.
  - split; [constructor|done].
  - split; [constructor|done].
  - case_decide; (split; [by constructor|done]).
  - split; [constructor|done].
  - destruct (ext_ok i e Hg). destruct (ext_run i e (extra s)). by split; [constructor|].
Qed.

Lemma run_pool {A} env i (p : prog L E A) (s : state L X) ts :
  Good (extra s) -> ts !! i = Some p ->
  rtc (pool_step ext_step env) (s, ts)
    ((run ext_run i p s).2, <[i := Ret (run ext_run i p s).1]> ts) /\
  Good (extra (run ext_run i p s).2).
Proof.
  revert s ts. induction p as [a|a k IH]; intros s ts Hg Hi; simpl.
  - by rewrite list_insert_id.
  - destruct (exec_action_step i a s Hg) as [Hstep Hg'].
    destruct (exec_action ext_run i a s) as [r s1]. simpl in *.
    assert (Hk : <[i:=k r]> ts !! i = Some (k r)).
    { apply list_lookup_insert_eq. by eapply lookup_lt_Some. }
    destruct (IH r s1 _ Hg' Hk) as [Hrun Hg2]. rewrite list_insert_insert_eq in Hrun.
    split; [|done]. eapply rtc_l; [|exact Hrun]. by eapply pool_thread.
Qed.

(** A schedule: the threads whose next action is taken, in order. *)
Fixpoint play {A} (sched : list nat) (s : state L X) (ts : list (prog L E A)) :
    state L X * list (prog L E A) :=
  match sched with
  | [] => (s, ts)
  | i :: sched =>
      match ts !! i with
      | Some (Do a k) =>
          let '(r, s') := exec_action ext_run i a s in play sched s' (<[i := k r]> ts)
      | _ => play sched s ts
      end
  end.

Lemma play_pool {A} env sched (s : state L X) (ts : list (prog L E A)) :
  Good (extra s) -> rtc (pool_step ext_step env) (s, ts) (play sched s ts).
Proof.
  revert s ts. induction sched as [|i sched IH]; intros s ts Hg; simpl; [done|].
  destruct (ts !! i) as [[a|a k]|] eqn:Hi; [by apply IH| |by apply IH].
  destruct (exec_action_step i a s Hg) as [Hstep Hg'].
  destruct (exec_action ext_run i a s) as [r s1]. simpl in *.
  eapply rtc_l; [|by apply IH]. by eapply pool_thread.
Qed.

End Run.

(** ** Properties of [wp] *)

Section Logic.

Context {L E X G : Type} `{EqDecision L}.
Variable ext_step : nat -> E -> X -> Z -> X -> Prop.
Variable env : state L X -> state L X -> Prop.
Local Abbreviation st := (state L X * G)%type.
Variable Inv : st -> Prop.
Variable rely : nat -> st -> st -> Prop.

Hypothesis rely_refl : forall i (s : st), rely i s s.
Hypothesis rely_trans : forall i s1 s2 s3, rely i s1 s2 -> rely i s2 s3 -> rely i s1 s3.

Local Abbreviation WP := (wp ext_step Inv rely).
Local Abbreviation Stable := (stable Inv rely).

Lemma gupd_intro i (P : st -> Prop) (s : st) :
  Stable i P -> P s -> gupd Inv rely i P s.
Proof. intros HP Hs [s1 g1] Hr HI. exists g1. split_and!; eauto. Qed.

Lemma gupd_mono i (P P' : st -> Prop) (s : st) :
  (forall s', Inv s' -> P s' -> P' s') -> gupd Inv rely i P s -> gupd Inv rely i P' s.
Proof.
  intros HP Hu s1 Hr HI. destruct (Hu s1 Hr HI) as (g' & ? & ? & ?). exists g'. auto.
Qed.

Lemma wp_mono {A} i (p : prog L E A) (Q Q' : A -> st -> Prop) (s : st) :
  (forall a s', Inv s' -> Q a s' -> Q' a s') -> WP i p Q s -> WP i p Q' s.
Proof.
  intros HQ. revert s. induction p as [a|a k IH]; simpl.
  { intros s. apply gupd_mono. auto. }
  intros s Hwp s1 Hr HI r s' Hs. destruct (Hwp s1 Hr HI r s' Hs) as (g' & ? & ? & ?).
  exists g'. auto.
Qed.

(** A change of the ghost state may precede any program. *)
Lemma wp_gupd {A} i (p : prog L E A) Q (s : st) :
  gupd Inv rely i (WP i p Q) s -> WP i p Q s.
Proof.
  destruct p as [a|a k]; simpl.
  - intros Hu s1 Hr HI. destruct (Hu s1 Hr HI) as (g' & HI' & Hg & Hu').
    destruct (Hu' _ (rely_refl i _) HI') as (g2 & ? & ? & ?).
    exists g2. split_and!; eauto.
  - intros Hu s1 Hr HI r s' Hs. destruct (Hu s1 Hr HI) as (g' & HI' & Hg & Hu').
    destruct (Hu' _ (rely_refl i _) HI' r s' Hs) as (g2 & ? & ? & ?).
    exists g2. split_and!; eauto.
Qed.

Lemma wp_bind {A B} i (p : prog L E A) (f : A -> prog L E B) Q (s : st) :
  WP i p (fun a s' => WP i (f a) Q s') s -> WP i (prog_bind p f) Q s.
Proof.
  revert s. induction p as [a|a k IH]; simpl; [intros s; apply wp_gupd|].
  intros s Hwp s1 Hr HI r s' Hs. destruct (Hwp s1 Hr HI r s' Hs) as (g' & ? & ? & ?).
  exists g'. auto.
Qed.

(** One action under a stable assertion. *)
Lemma wp_do {A} i a (k : Z -> prog L E A) (P : st -> Prop) Q (s : st) :
  Stable i P -> P s ->
  (forall s1, P s1 -> Inv s1 -> forall r s', action_step ext_step i a (fst s1) r s' ->
   exists g', Inv (s', g') /\ (forall j, j <> i -> rely j s1 (s', g')) /\
              WP i (k r) Q (s', g')) ->
  WP i (Do a k) Q s.
Proof. intros HP Hs Hk. simpl. intros s1 Hr HI. apply Hk; [|done]. by eapply HP. Qed.

Lemma wp_stable {A} i (p : prog L E A) (Q : A -> st -> Prop) (s s' : st) :
  WP i p Q s -> rely i s s' -> Inv s' -> WP i p Q s'.
Proof.
  destruct p; simpl; intros Hwp Hr HI s1 Hr1; apply Hwp; by eapply rely_trans.
Qed.

(** What every thread keeps is kept by the program too. *)
Lemma wp_frame {A} i (p : prog L E A) (P : st -> Prop) (Q : A -> st -> Prop) (s : st) :
  (forall j, Stable j P) -> P s -> WP i p Q s -> WP i p (fun a s' => Q a s' /\ P s') s.
Proof.
  intros HP. revert s. induction p as [a|a k IH]; simpl; intros s Hs Hwp s1 Hr HI.
  - destruct (Hwp s1 Hr HI) as (g' & HI' & Hg & HQ). exists g'. split_and!; try done.
    eapply (HP (S i)); [|apply Hg; lia|done]. by eapply HP.
  - intros r s' Hs'. destruct (Hwp s1 Hr HI r s' Hs') as (g' & HI' & Hg & Hk).
    exists g'. split_and!; try done. apply IH; [|done].
    eapply (HP (S i)); [|apply Hg; lia|done]. by eapply HP.
Qed.

(** Steps of the environment keep the invariant and every thread's rely. *)
Hypothesis env_ok : forall s g s', Inv (s, g) -> env s s' ->
  exists g', Inv (s', g') /\ forall i, rely i (s, g) (s', g').

(** [D i] is what a thread that does not exist keeps. *)
Definition pool_ok {A} (Q : nat -> A -> st -> Prop) (D : nat -> st -> Prop)
    (c : state L X * list (prog L E A)) : Prop :=
  exists g, Inv (fst c, g) /\
            (forall i p, snd c !! i = Some p -> WP i p (Q i) (fst c, g)) /\
            (forall i, snd c !! i = None -> D i (fst c, g)).

Lemma pool_step_ok {A} (Q : nat -> A -> st -> Prop) D c c' :
  (forall i, Stable i (D i)) ->
  pool_ok Q D c -> pool_step ext_step env c c' -> pool_ok Q D c'.
Proof.
  intros HD (g & HI & Hts & Hn) Hstep.
  destruct Hstep as [i a k r s s' ts Hi Hact|s s' ts Henv]; simpl in *.
  - destruct (Hts i _ Hi (s, g) (rely_refl i _) HI r s' Hact) as (g' & HI' & Hr & Hwp).
    exists g'. split_and!; [done| |].
    + intros j p Hj; simpl in Hj. destruct (decide (j = i)) as [->|Hne].
      * rewrite list_lookup_insert_eq in Hj by (by eapply lookup_lt_Some). by simplify_eq.
      * rewrite list_lookup_insert_ne in Hj by done. eapply wp_stable; eauto.
    + intros j Hj; simpl in Hj. destruct (decide (j = i)) as [->|Hne].
      * apply lookup_ge_None in Hj. rewrite length_insert in Hj. apply lookup_lt_Some in Hi. lia.
      * rewrite list_lookup_insert_ne in Hj by done. eapply HD; eauto.
  - destruct (env_ok HI Henv) as (g' & HI' & Hr). exists g'. split_and!; [done| |].
    + intros j p Hj. eapply wp_stable; eauto.
    + intros j Hj. eapply HD; eauto.
Qed.

Lemma pool_reach {A} (Q : nat -> A -> st -> Prop) D c c' :
  (forall i, Stable i (D i)) ->
  pool_ok Q D c -> rtc (pool_step ext_step env) c c' -> pool_ok Q D c'.
Proof. intros HD Hok Hrtc. induction Hrtc; eauto using pool_step_ok. Qed.

(** The pending ghost updates of the finished threads can all be made. *)
Lemma pool_finish {A} (Q : nat -> A -> st -> Prop) D s (ts : list (prog L E A)) n :
  (forall i, Stable i (D i)) -> (forall i a, Stable i (Q i a)) -> (n <= length ts)%nat ->
  pool_ok Q D (s, ts) ->
  exists g, Inv (s, g) /\ (forall i p, ts !! i = Some p -> WP i p (Q i) (s, g)) /\
            (forall i, ts !! i = None -> D i (s, g)) /\
            forall i a, (i < n)%nat -> ts !! i = Some (Ret a) -> Q i a (s, g).
Proof.
  intros HD HQ Hn Hok. induction n as [|n IH].
  { destruct Hok as (g & ? & ? & ?). exists g. split_and!; [done..|lia]. }
  destruct IH as (g1 & HI1 & Hts1 & Hd1 & Hdone); [lia|].
  destruct (ts !! n) as [[a|a k]|] eqn:Hp.
  - destruct (Hts1 n _ Hp (s, g1) (rely_refl n _) HI1) as (g2 & HI2 & Hr2 & HQ2).
    simpl in HI2, Hr2, HQ2. exists g2. split_and!; [done|..].
    + intros i p Hi. destruct (decide (i = n)) as [->|Hne].
      * simplify_eq. by apply gupd_intro.
      * eapply wp_stable; [by apply Hts1|auto|done].
    + intros i Hi. eapply HD; [by apply Hd1| |done]. apply Hr2. congruence.
    + intros i b Hi Hb. destruct (decide (i = n)) as [->|Hne]; [by simplify_eq|].
      eapply HQ; [eapply Hdone; [lia|done]| |]; auto.
  - exists g1. split_and!; [done..|]. intros i b Hi Hb.
    destruct (decide (i = n)) as [->|]; [congruence|]. apply Hdone; [lia|done].
  - apply lookup_ge_None in Hp. lia.
Qed.

(** Soundness: whatever the schedule, the invariant holds in every reachable
    configuration, with ghost state in which the threads that have finished
    satisfy their postconditions. *)
Theorem pool_sound {A} (Q : nat -> A -> st -> Prop) D s0 ts0 s (ts : list (prog L E A)) g0 :
  (forall i, Stable i (D i)) -> (forall i a, Stable i (Q i a)) ->
  Inv (s0, g0) -> (forall i p, ts0 !! i = Some p -> WP i p (Q i) (s0, g0)) ->
  (forall i, ts0 !! i = None -> D i (s0, g0)) ->
  rtc (pool_step ext_step env) (s0, ts0) (s, ts) ->
  exists g, Inv (s, g) /\ (forall i, ts !! i = None -> D i (s, g)) /\
            forall i a, ts !! i = Some (Ret a) -> Q i a (s, g).
Proof.
  intros HD HQ HI Hts Hn Hrtc.
  assert (Hok : pool_ok Q D (s, ts)) by (eapply pool_reach; [done| |done]; by exists g0).
  destruct (pool_finish (Q := Q) (n := length ts) HD HQ (le_n _) Hok) as (g' & ? & _ & ? & Hd).
  exists g'. split_and!; [done..|]. intros i a Hi. apply Hd; [|done]. by eapply lookup_lt_Some.
Qed.

End Logic.
