(* ===== verification/Tx.v ===== *)
(** * The transaction descriptor and the monad its code runs in

    The structures of tinySTM/include/stm.h in the default build
    (DESIGN=WRITE_BACK_CTL, CM=CM_SUICIDE, INTERNAL_STATS; with EA=1 also the
    early-abort fields), the cells the threads share, and the monad [M] the
    functions of stm.c are written in: a computation works on the current
    thread's descriptor, performs atomic actions, and ends in a value, in a
    [siglongjmp] to the start of the transaction, or by stopping the thread. *)
From S2P Require Import Prelude Words LockWord Machine.

(** ** Data *)

(** [stm_tx_attr_t] *)
Record stm_tx_attr := mk_attr { attr_id : Z; read_only : Z; no_retry : Z }.
#[export] Instance eta_attr : Eta stm_tx_attr :=
  fun r => mk_attr (attr_id r) (read_only r) (no_retry r).

(** [r_entry_t]: the lock is its index in [locks]. *)
Record r_entry := mk_r_entry { r_version : Z; r_lock : Z }.

(** [r_set_t]: [nb_entries] is the length of the list. *)
Record r_set := mk_r_set { r_entries : list r_entry; r_size : Z }.
#[export] Instance eta_r_set : Eta r_set := fun r => mk_r_set (r_entries r) (r_size r).

(** [w_entry_t], with the fields of the commit-time-locking design. *)
Record w_entry := mk_w_entry {
  w_addr : Z; w_value : Z; w_mask : Z; w_version : Z; w_lock : Z; w_no_drop : Z }.
#[export] Instance eta_w_entry : Eta w_entry := fun w =>
  mk_w_entry (w_addr w) (w_value w) (w_mask w) (w_version w) (w_lock w) (w_no_drop w).

(** [w_set_t]: [w_base] is the address of the array of entries, which locks
    point into; [nb_entries] is the length of the list. *)
Record w_set := mk_w_set {
  w_base : Z; w_entries : list w_entry; w_size : Z; nb_acquired : Z }.
#[export] Instance eta_w_set : Eta w_set := fun w =>
  mk_w_set (w_base w) (w_entries w) (w_size w) (nb_acquired w).

(** The INTERNAL_STATS counters of the descriptor. *)
Record tx_stats := mk_stats {
  retries : Z; aborts : Z; aborts_1 : Z; aborts_2 : Z; aborts_ro : Z;
  aborts_locked_read : Z; aborts_locked_write : Z; aborts_validate_read : Z;
  aborts_validate_write : Z; aborts_validate_commit : Z; aborts_invalid_memory : Z;
  aborts_early : Z; max_retries : Z }.
#[export] Instance eta_stats : Eta tx_stats := fun s =>
  mk_stats (retries s) (aborts s) (aborts_1 s) (aborts_2 s) (aborts_ro s)
    (aborts_locked_read s) (aborts_locked_write s) (aborts_validate_read s)
    (aborts_validate_write s) (aborts_validate_commit s) (aborts_invalid_memory s)
    (aborts_early s) (max_retries s).

(** [stm_tx_t]; [self] identifies the thread whose descriptor it is. *)
Record stm_tx := mk_tx {
  self : nat; attr : option stm_tx_attr; status : Z; start : Z; tx_end : Z;
  rset : r_set; wset : w_set; ro : Z; can_extend : Z; nesting : Z;
  data : list Z; stats : tx_stats; ea_aborted : Z }.
#[export] Instance eta_tx : Eta stm_tx := fun t =>
  mk_tx (self t) (attr t) (status t) (start t) (tx_end t) (rset t) (wset t) (ro t)
    (can_extend t) (nesting t) (data t) (stats t) (ea_aborted t).

(** The build options of the early-abort mechanism (README.md): [ea] is
    EARLY_ABORT with EA_EXTRATICK (make EA=1), [ea_sim] EA_SIMULATE_ABORT,
    [ea_user] EA_SIMULATE_ET_USER, [ea_kernel] EA_SIMULATE_ET_KERNEL; and the
    callbacks registered before the first transaction, as (function, argument). *)
Record config := mk_config {
  ea : bool; ea_sim : bool; ea_user : bool; ea_kernel : bool;
  init_cb : list (Z * Z); exit_cb : list (Z * Z);
  start_cb : list (Z * Z); commit_cb : list (Z * Z); abort_cb : list (Z * Z) }.

(** ** Shared cells and environment events *)

(** [locks[i]], the words of the application's memory, [gclock], [quiesce], and
    the fields of thread [t]'s control buffer the early-abort code uses. *)
Inductive loc :=
| Lock (i : Z) | Word (a : Z) | Clock | Quiesce
| Tx_on (t : nat) | Standing (t : nat) | Recently_validated (t : nat).

#[export] Instance loc_eq_dec : EqDecision loc.
Proof. solve_decision. Defined.

(** What a thread asks of its environment: the (re)allocation of its read and
    write sets (the answer is the address, 0 for NULL) and their release; the
    insertion of its descriptor in the list [threads] and its removal
    ([Quiesce.v]); delivery of an extra tick at an instruction of the application
    (answer 1); and the call of a registered callback. *)
Inductive ext :=
| Realloc_rs (n : Z) | Realloc_ws (n : Z) | Free_sets
| Enter_thread | Exit_thread
| Tick | Callback (f arg : Z).

(** What the environment keeps: each thread's write-set array, (address, number
    of entries). *)
Abbreviation arrays := (nat -> Z * Z).

Abbreviation stm_state := (state loc arrays).

(** Why a thread stops. *)
Inductive halt :=
| Exit (code : Z)      (* exit(code) *)
| Assert_failed        (* an assert of the source does not hold *)
| Undefined            (* a pointer to no entry is followed *)
| Blocked              (* waits in stm_quiesce_barrier *)
| Out_of_fuel          (* the model's bound on busy waiting and retries *)
| App_fault.           (* the application's own code failed *)

Inductive outcome (A : Type) :=
| Ok (a : A) | Jump (reason : Z) | Halt (h : halt).
Arguments Ok {A} a.
Arguments Jump {A} reason.
Arguments Halt {A} h.

(** ** The monad *)

Definition M (A : Type) : Type := stm_tx -> prog loc ext (outcome A * stm_tx).

Definition ret {A} (a : A) : M A := fun tx => Ret (Ok a, tx).

Definition bind {A B} (m : M A) (f : A -> M B) : M B := fun tx =>
  prog_bind (m tx) (fun '(o, tx') =>
    match o with
    | Ok a => f a tx'
    | Jump r => Ret (Jump r, tx')
    | Halt h => Ret (Halt h, tx')
    end).

(** [sigsetjmp]: run [m]; a jump resumes in [handler]. *)
Definition catch {A} (m : M A) (handler : Z -> M A) : M A := fun tx =>
  prog_bind (m tx) (fun '(o, tx') =>
    match o with Jump r => handler r tx' | _ => Ret (o, tx') end).

Definition longjmp {A} (reason : Z) : M A := fun tx => Ret (Jump reason, tx).
Definition stop {A} (h : halt) : M A := fun tx => Ret (Halt h, tx).
Definition get : M stm_tx := fun tx => Ret (Ok tx, tx).
Definition modify (f : stm_tx -> stm_tx) : M unit := fun tx => Ret (Ok tt, f tx).
Definition act (a : action loc ext) : M Z := fun tx => Do a (fun r => Ret (Ok r, tx)).
Definition assert (b : bool) : M unit := if b then ret tt else stop Assert_failed.

Declare Scope stm_monad_scope.
Delimit Scope stm_monad_scope with M.
Notation "'let!' x := m 'in' k" := (bind m (fun x => k))
  (at level 10, x name, m at level 99, k at level 200) : stm_monad_scope.
Notation "'do!' m ; k" := (bind m (fun _ => k))
  (at level 10, m at level 99, k at level 200) : stm_monad_scope.
Global Open Scope stm_monad_scope.

(** [if (c) s;] *)
Definition when (b : bool) (m : M unit) : M unit := if b then m else ret tt.

(** [ATOMIC_LOAD], [ATOMIC_STORE], [ATOMIC_CAS_FULL] *)
Definition load (l : loc) : M Z := act (Load l).
Definition store (l : loc) (v : Z) : M unit := do! act (Store l v); ret tt.
Definition cas (l : loc) (e v : Z) : M Z := act (Cas l e v).
