(* ===== verification/Ctl.v ===== *)
(** * The write-back, commit-time-locking transactions of stm.c

    tinySTM/src/stm.c compiled with DESIGN=WRITE_BACK_CTL and CM=CM_SUICIDE, the
    defaults of the Makefile, INTERNAL_STATS on, assertions on, and the
    early-abort mechanism (make EA=1, stubborn mode) as the [config] says.  One
    definition per function, in the order of the file.

    [fuel] bounds each busy wait.  Loop counters and sizes of the read and write
    sets are not wrapped at their 32 bits: a set would need 2^31 entries. *)
From S2P Require Import Prelude Words LockWord Machine Tx.
Import WriteBack.

(** [sizeof(w_entry_t)]: padded to a cache line. *)
Definition sizeof_w_entry : Z := 64.

(** [sizeof(r_entry_t)]: with EARLY_ABORT an entry has a field [freq], not used in
    the stubborn mode. *)
Definition sizeof_r_entry (C : config) : Z := if ea C then 24 else 16.

Definition RW_SET_SIZE : Z := 4096.

Definition MAX_SPECIFIC : nat := 16.

(** [nb_entries] of the sets *)
Definition w_nb (tx : stm_tx) : Z := Z.of_nat (length (w_entries (wset tx))).

Definition r_nb (tx : stm_tx) : Z := Z.of_nat (length (r_entries (rset tx))).

(** [tx->w_set.entries + k] *)
Definition w_ptr (tx : stm_tx) (k : nat) : Z :=
  w_base (wset tx) + sizeof_w_entry * Z.of_nat k.

(** [tx->w_set.entries <= w && w < tx->w_set.entries + tx->w_set.nb_entries] *)
Definition in_w_set (tx : stm_tx) (w : Z) : bool :=
  (w_base (wset tx) <=? w) && (w <? w_base (wset tx) + sizeof_w_entry * w_nb tx).

(** [*w], for a pointer to an entry of the array *)
Definition w_deref (tx : stm_tx) (w : Z) : option w_entry :=
  let off := w - w_base (wset tx) in
  if off mod sizeof_w_entry =? 0
  then w_entries (wset tx) !! Z.to_nat (off / sizeof_w_entry) else None.

(** Assignments to fields of the sets and of the statistics *)
Definition set_w_entries (ws : list w_entry) (tx : stm_tx) : stm_tx :=
  tx <| wset := wset tx <| w_entries := ws |> |>.

Definition set_r_entries (rs : list r_entry) (tx : stm_tx) : stm_tx :=
  tx <| rset := rset tx <| r_entries := rs |> |>.

Definition set_nb_acquired (n : Z) (tx : stm_tx) : stm_tx :=
  tx <| wset := wset tx <| nb_acquired := n |> |>.

Definition set_status (v : Z) (tx : stm_tx) : stm_tx := tx <| status := v |>.

(** [x++] on an [unsigned long] *)
Definition incr (x : Z) : Z := w64 (x + 1).

Definition count (f : tx_stats -> tx_stats) : M unit :=
  modify (fun tx => tx <| stats := f (stats tx) |>).

(** The code of a transaction: what it reads decides what it does next.
    [TAbort] is TM_RESTART, that is [stm_abort(0)], which does not return to a
    transaction that is retried; [TFail] is a failure of the application itself,
    such as the use of a null pointer. *)
Inductive txbody :=
| TRet (r : Z)
| TLoad (a : Z) (k : Z -> txbody)
| TStore (a v : Z) (k : txbody)
| TStore2 (a v m : Z) (k : txbody)
| TAbort (k : txbody)
| TFail.

(** [stm_init]: the locks, the clock and the quiescence flag ([stm_quiesce_init]). *)
Definition stm_init (s : stm_state) : stm_state :=
  mk_state (fun l => match l with Lock _ | Clock | Quiesce => 0 | _ => cell s l end) (extra s).

Section Ctl.

Context (C : config) (fuel : nat).

Definition GET_CLOCK : M Z := load Clock.

Definition FETCH_INC_CLOCK : M Z := act (Fetch_inc Clock).

(** ** Control buffer of the early-abort mechanism *)

Definition ea_load (f : nat -> loc) : M Z := let! tx := get in load (f (self tx)).

Definition ea_store (f : nat -> loc) (v : Z) : M unit :=
  let! tx := get in store (f (self tx)) v.

(** [if (stm_control_buffer.standing == 1) stm_control_buffer.standing = 0;] *)
Definition ea_clear (f : nat -> loc) : M unit :=
  let! s := ea_load f in when (s =? 1) (ea_store f 0).

(** ** Quiescence *)

Fixpoint stm_wait_quiesce (n : nat) : M unit :=
  match n with
  | O => stop Out_of_fuel
  | S n => let! q := load Quiesce in if q =? 2 then stm_wait_quiesce n else ret tt
  end.

Definition stm_check_quiesce : M Z :=
  let! tx := get in
  do! assert (IS_ACTIVE (status tx));
  let! q := load Quiesce in
  if q =? 2 then
    let s := status tx in
    do! modify (set_status TX_IDLE);
    do! stm_wait_quiesce fuel;
    do! modify (set_status (GET_STATUS s));
    ret 1
  else ret 0.

(** A thread that enters the barrier waits until every other thread has: its
    continuation is the restart of the whole system ([Quiesce.v]). *)
Definition stm_quiesce_barrier {A} : M A :=
  let! tx := get in
  do! assert (negb (IS_ACTIVE (status tx)));
  stop Blocked.

(** ** Read and write sets *)

Definition stm_has_read (tx : stm_tx) (lock : Z) : option r_entry :=
  List.find (fun r => r_lock r =? lock) (r_entries (rset tx)).

(** The index of the entry the C code returns a pointer to. *)
Fixpoint find_written (ws : list w_entry) (addr : Z) : option nat :=
  match ws with
  | [] => None
  | w :: ws => if w_addr w =? addr then Some O else S <$> find_written ws addr
  end.

Definition stm_has_written (tx : stm_tx) (addr : Z) : option nat :=
  find_written (w_entries (wset tx)) addr.

Definition stm_allocate_rs_entries (extend : bool) : M unit :=
  do! modify (fun tx =>
        if extend then tx <| rset := rset tx <| r_size := r_size (rset tx) * 2 |> |> else tx);
  let! tx := get in
  let! p := act (Ext (Realloc_rs (w64 (r_size (rset tx) * sizeof_r_entry C)))) in
  if p =? 0 then stop (Exit 1) else ret tt.

Definition stm_allocate_ws_entries (extend : bool) : M unit :=
  do! modify (fun tx =>
        if extend then tx <| wset := wset tx <| w_size := w_size (wset tx) * 2 |> |> else tx);
  let! tx := get in
  let! p := act (Ext (Realloc_ws (w64 (w_size (wset tx) * sizeof_w_entry)))) in
  do! modify (fun tx => tx <| wset := wset tx <| w_base := p |> |>);
  if p =? 0 then stop (Exit 1) else ret tt.

(** ** Validation and extension *)

Fixpoint stm_validate_entries (rs : list r_entry) : M Z :=
  match rs with
  | [] => ret 1
  | r :: rs =>
      let! l := load (Lock (r_lock r)) in
      if truth (LOCK_GET_OWNED l) then
        let! tx := get in
        let w := LOCK_GET_ADDR l in
        if negb (in_w_set tx w) then ret 0
        else match w_deref tx w with
             | None => stop Undefined
             | Some w =>
                 if negb (w_version w =? r_version r) then ret 0
                 else stm_validate_entries rs
             end
      else if negb (LOCK_GET_TIMESTAMP l =? r_version r) then ret 0
      else stm_validate_entries rs
  end.

Definition stm_validate : M Z :=
  let! tx := get in stm_validate_entries (r_entries (rset tx)).

(** [stm_extend_ok] *)
Definition stm_extend_ok : M Z :=
  do! when (ea C) (ea_clear Standing);
  ret 1.

Definition stm_extend_now : M Z :=
  let! now := GET_CLOCK in
  if VERSION_MAX <=? now then ret 0
  else
    let! ok := stm_validate in
    if truth ok then
      do! modify (fun tx => tx <| tx_end := now |>);
      stm_extend_ok
    else ret 0.

Definition stm_extend : M Z :=
  if ea C then
    let! on := ea_load Tx_on in
    do! when (on =? 1) (ea_store Recently_validated 1);
    if negb (on =? 1) && ea_user C then stm_extend_ok
    else
      let! on := (if ea_sim C then ea_load Tx_on else ret 1) in
      let! tx := get in
      if ea_sim C && (on =? 0) && (ea_aborted tx =? 1) then stm_extend_ok
      else stm_extend_now
  else stm_extend_now.

(** ** Start and restart *)

Definition stm_prepare : M unit :=
  let! now := GET_CLOCK in
  do! modify (fun tx => tx <| tx_end := now |> <| start := now |> <| can_extend := 1 |>);
  let! tx := get in
  if VERSION_MAX <=? start tx then stm_quiesce_barrier
  else
    do! modify (set_nb_acquired 0);
    do! modify (set_w_entries []);
    do! modify (set_r_entries []);
    do! modify (set_status TX_ACTIVE);
    let! _q := stm_check_quiesce in
    do! when (ea C && ea_sim C) (modify (fun tx => tx <| ea_aborted := 0 |>));
    when (ea C) (do! ea_clear Standing; ea_clear Recently_validated).

Fixpoint run_callbacks (cbs : list (Z * Z)) : M unit :=
  match cbs with
  | [] => ret tt
  | (f, arg) :: cbs => do! act (Ext (Callback f arg)); run_callbacks cbs
  end.

(** ** Rollback *)

(** Release the acquired locks, from the last entry down. *)
Fixpoint stm_release (ws : list w_entry) : M unit :=
  match ws with
  | [] => stop Undefined
  | w :: ws =>
      do! when (negb (truth (w_no_drop w)))
            (do! modify (fun tx => set_nb_acquired (nb_acquired (wset tx) - 1) tx);
             store (Lock (w_lock w)) (LOCK_SET_TIMESTAMP (w_version w)));
      let! tx := get in
      if 0 <? nb_acquired (wset tx) then stm_release ws else ret tt
  end.

Definition count_abort (reason : Z) (s : tx_stats) : tx_stats :=
  let s := s <| retries := incr (retries s) |> in
  let s := s <| aborts := incr (aborts s) |> in
  let s := if retries s =? 1 then s <| aborts_1 := incr (aborts_1 s) |>
           else if retries s =? 2 then s <| aborts_2 := incr (aborts_2 s) |> else s in
  let s := if max_retries s <? retries s then s <| max_retries := retries s |> else s in
  if ea C && (reason =? Z.lor STM_ABORT_EARLY STM_ABORT_EXPLICIT)
  then s <| aborts_early := incr (aborts_early s) |> else s.

(** [tx->attr == NULL || !tx->attr->no_retry] *)
Definition must_retry (tx : stm_tx) : bool :=
  match attr tx with None => true | Some a => negb (truth (no_retry a)) end.

Definition stm_rollback_end (reason : Z) : M unit :=
  let! tx := get in
  if must_retry tx then
    do! when (ea C)
          (do! ea_clear Standing;
           when (negb (ea_kernel C))
             (let! on := ea_load Tx_on in when (on =? 0) (ea_store Tx_on 1)));
    longjmp reason
  else
    do! modify (fun tx => tx <| nesting := 0 |>);
    when (ea C) (do! ea_clear Standing; ea_store Tx_on 0).

Definition stm_rollback_now (reason : Z) : M unit :=
  let! tx := get in
  do! assert (IS_ACTIVE (status tx));
  do! when (0 <? nb_acquired (wset tx)) (stm_release (rev (w_entries (wset tx))));
  do! count (count_abort reason);
  do! run_callbacks (abort_cb C);
  do! modify (set_status TX_ABORTED);
  do! modify (fun tx => tx <| nesting := 1 |>);
  do! stm_prepare;
  stm_rollback_end reason.

Definition stm_rollback (reason : Z) : M unit :=
  let! on := (if ea C && ea_sim C then ea_load Tx_on else ret 1) in
  if ea C && ea_sim C && (on =? 0) then
    do! modify (fun tx => tx <| ea_aborted := 1 |>);
    ea_clear Standing
  else stm_rollback_now reason.

Definition stm_abort (reason : Z) : M unit :=
  stm_rollback (Z.lor reason STM_ABORT_EXPLICIT).

(** The block at the end of [stm_load] and [stm_write]: a tick that came while
    in the library is processed on the way out. *)
Definition ea_standing_tick : M unit :=
  when (ea C)
    (let! s := ea_load Standing in
     when (s =? 1)
       (do! ea_store Tx_on 0;
        do! ea_store Recently_validated 1;
        let! ok := stm_extend in
        do! when (ok =? 0) (stm_abort STM_ABORT_EARLY);
        when (negb (ea_kernel C)) (ea_store Tx_on 1))).

(** ** Reads *)

Definition add_to_read_set (version lock : Z) : M unit :=
  let! tx := get in
  if truth (ro tx) then ret tt
  else
    do! when (r_nb tx =? r_size (rset tx)) (stm_allocate_rs_entries true);
    modify (fun tx => set_r_entries (r_entries (rset tx) ++ [mk_r_entry version lock]) tx).

(** The loop that reads lock, value, lock: [None] is [restart], [Some l] is
    [restart_no_load].  The result is the value and its version, or nothing
    when the transaction has been rolled back and must not retry. *)
Fixpoint stm_read_lock (n : nat) (addr : Z) (l : option Z) : M (option (Z * Z)) :=
  match n with
  | O => stop Out_of_fuel
  | S n =>
      let lock := Lock (GET_LOCK addr) in
      let! l := match l with None => load lock | Some l => ret l end in
      if truth (LOCK_GET_WRITE l) then
        if l =? LOCK_UNIT then stm_read_lock n addr None
        else stm_read_lock n addr None
      else
        let! value := load (Word addr) in
        let! l2 := load lock in
        if negb (l =? l2) then stm_read_lock n addr (Some l2)
        else
          let version := LOCK_GET_TIMESTAMP l in
          let! tx := get in
          if tx_end tx <? version then
            let! ok := if truth (ro tx) then ret 0
                       else if negb (truth (can_extend tx)) then ret 0
                       else stm_extend in
            if negb (truth ok) then
              do! count (fun s => s <| aborts_validate_read := incr (aborts_validate_read s) |>);
              do! stm_rollback STM_ABORT_VAL_READ;
              ret None
            else
              let! l := load lock in
              if negb (l =? l2) then stm_read_lock n addr (Some l2)
              else ret (Some (value, version))
          else ret (Some (value, version))
  end.

Definition stm_read_invisible (addr : Z) : M Z :=
  let! tx := get in
  do! assert (IS_ACTIVE (status tx));
  let written := stm_has_written tx addr ≫= fun k => w_entries (wset tx) !! k in
  let read :=
    let! r := stm_read_lock fuel addr None in
    match r with
    | None => ret 0
    | Some (value, version) =>
        let value := match written with
                     | Some w => wmerge value (w_value w) (w_mask w)
                     | None => value
                     end in
        do! add_to_read_set version (GET_LOCK addr);
        ret value
    end in
  match written with
  | Some w => if w_mask w =? ones64 then ret (w_value w) else read
  | None => read
  end.

(** ** Writes *)

Definition merge_entry (value mask : Z) (w : w_entry) : w_entry :=
  w <| w_value := wmerge (w_value w) value mask |> <| w_mask := Z.lor (w_mask w) mask |>.

Definition add_to_write_set (addr value mask version lock : Z) : M Z :=
  let! tx := get in
  do! when (w_nb tx =? w_size (wset tx)) (stm_allocate_ws_entries true);
  let! tx := get in
  let w := mk_w_entry addr (if mask =? 0 then 0 else value) mask version lock 1 in
  do! modify (fun tx => set_w_entries (w_entries (wset tx) ++ [w]) tx);
  ret (w_ptr tx (length (w_entries (wset tx)))).

(** From [restart:] to [stm_write_end:]; [None] is the [return NULL] after a
    rollback. *)
Fixpoint stm_write_lock (n : nat) (addr value mask : Z) : M (option Z) :=
  match n with
  | O => stop Out_of_fuel
  | S n =>
      let! l := load (Lock (GET_LOCK addr)) in
      if truth (LOCK_GET_OWNED l) then
        if l =? LOCK_UNIT then stm_write_lock n addr value mask
        else stm_write_lock n addr value mask
      else
        let! tx := get in
        match stm_has_written tx addr with
        | Some k =>
            do! modify (fun tx =>
                  set_w_entries (alter (merge_entry value mask) k (w_entries (wset tx))) tx);
            ret (Some (w_ptr tx k))
        | None =>
            let version := LOCK_GET_TIMESTAMP l in
            if (tx_end tx <? version) &&
               (negb (truth (can_extend tx)) ||
                bool_decide (is_Some (stm_has_read tx (GET_LOCK addr))))
            then
              do! count (fun s => s <| aborts_validate_write := incr (aborts_validate_write s) |>);
              do! stm_rollback STM_ABORT_VAL_WRITE;
              ret None
            else
              let! w := add_to_write_set addr value mask version (GET_LOCK addr) in
              ret (Some w)
        end
  end.

(** The pointer returned, 0 for NULL. *)
Definition stm_write (addr value mask : Z) : M Z :=
  let! tx := get in
  do! assert (IS_ACTIVE (status tx));
  if truth (ro tx) then
    do! assert (bool_decide (is_Some (attr tx)));
    do! modify (fun tx => tx <| attr := (fun a => a <| read_only := 0 |>) <$> attr tx |>);
    do! count (fun s => s <| aborts_ro := incr (aborts_ro s) |>);
    do! stm_rollback STM_ABORT_RO_WRITE;
    ret 0
  else
    let! w := stm_write_lock fuel addr value mask in
    match w with
    | None => ret 0
    | Some w => do! ea_standing_tick; ret w
    end.

(** ** Unit transactions *)

(** [timestamp] is [None] for a null pointer; the answer is the value returned
    and the timestamp stored through the pointer. *)
Fixpoint stm_unit_write (n : nat) (addr value mask : Z) (timestamp : option Z) :
    M (Z * option Z) :=
  match n with
  | O => stop Out_of_fuel
  | S n =>
      let lock := Lock (GET_LOCK addr) in
      let! l := load lock in
      if truth (LOCK_GET_OWNED l) then stm_unit_write n addr value mask timestamp
      else if match timestamp with Some ts => ts <? LOCK_GET_TIMESTAMP l | None => false end
      then ret (0, Some (LOCK_GET_TIMESTAMP l))
      else
        let! ok := cas lock l LOCK_UNIT in
        if ok =? 0 then stm_unit_write n addr value mask timestamp
        else
          do! store (Word addr) value;
          let! c := FETCH_INC_CLOCK in
          let l := w64 (c + 1) in
          do! store lock (LOCK_SET_TIMESTAMP l);
          if VERSION_MAX <=? l then stop Blocked
          else ret (1, match timestamp with Some _ => Some l | None => None end)
  end.

Fixpoint stm_unit_load_lock (n : nat) (addr : Z) (l : option Z) : M (Z * Z) :=
  match n with
  | O => stop Out_of_fuel
  | S n =>
      let lock := Lock (GET_LOCK addr) in
      let! l := match l with None => load lock | Some l => ret l end in
      if truth (LOCK_GET_OWNED l) then stm_unit_load_lock n addr None
      else
        let! value := load (Word addr) in
        let! l2 := load lock in
        if negb (l =? l2) then stm_unit_load_lock n addr (Some l2)
        else ret (value, LOCK_GET_TIMESTAMP l)
  end.

Definition stm_unit_load (addr : Z) : M (Z * Z) := stm_unit_load_lock fuel addr None.

Definition stm_unit_store (addr value : Z) (timestamp : option Z) : M (Z * option Z) :=
  stm_unit_write fuel addr value ones64 timestamp.

Definition stm_unit_store2 (addr value mask : Z) (timestamp : option Z) : M (Z * option Z) :=
  stm_unit_write fuel addr value mask timestamp.

(** ** Start, commit and the word-sized accesses *)

(** True when the caller gets the environment to call [sigsetjmp] with. *)
Definition stm_start (a : option stm_tx_attr) : M bool :=
  do! when (ea C && negb (ea_kernel C)) (ea_store Tx_on 1);
  let! tx := get in
  do! modify (fun tx => tx <| nesting := nesting tx + 1 |>);
  if 0 <? nesting tx then ret false
  else
    do! modify (fun tx => tx <| attr := a |>
                             <| ro := match a with None => 0 | Some a => read_only a end |>);
    do! stm_prepare;
    do! run_callbacks (start_cb C);
    ret true.

(** Acquire the lock of the entry with index [k]; false after a rollback. *)
Fixpoint stm_acquire_entry (n : nat) (k : nat) : M bool :=
  match n with
  | O => stop Out_of_fuel
  | S n =>
      let! tx := get in
      match w_entries (wset tx) !! k with
      | None => stop Undefined
      | Some w =>
          let! l := load (Lock (w_lock w)) in
          if truth (LOCK_GET_OWNED l) then
            if in_w_set tx (LOCK_GET_ADDR l) then ret true
            else
              do! count (fun s => s <| aborts_locked_write := incr (aborts_locked_write s) |>);
              do! stm_rollback STM_ABORT_WW_CONFLICT;
              ret false
          else
            let! ok := cas (Lock (w_lock w)) l (LOCK_SET_ADDR_WRITE (w_ptr tx k)) in
            if ok =? 0 then stm_acquire_entry n k
            else
              do! modify (fun tx =>
                    set_w_entries
                      (alter (fun w => w <| w_no_drop := 0 |>
                                         <| w_version := LOCK_GET_TIMESTAMP l |>)
                             k (w_entries (wset tx))) tx);
              do! modify (fun tx => set_nb_acquired (nb_acquired (wset tx) + 1) tx);
              ret true
      end
  end.

(** The entries below index [k], the last one first. *)
Fixpoint stm_acquire (k : nat) : M bool :=
  match k with
  | O => ret true
  | S k => let! ok := stm_acquire_entry fuel k in if ok then stm_acquire k else ret false
  end.

(** Install the new values and release the locks at timestamp [t]. *)
Fixpoint stm_install (t : Z) (ws : list w_entry) : M unit :=
  match ws with
  | [] => ret tt
  | w :: ws =>
      do! (if w_mask w =? ones64 then store (Word (w_addr w)) (w_value w)
           else if negb (w_mask w =? 0) then
             let! old := load (Word (w_addr w)) in
             store (Word (w_addr w)) (wmerge old (w_value w) (w_mask w))
           else ret tt);
      do! when (negb (truth (w_no_drop w))) (store (Lock (w_lock w)) (LOCK_SET_TIMESTAMP t));
      stm_install t ws
  end.

(** The label [end:] of [stm_commit] *)
Definition stm_commit_end : M Z :=
  do! count (fun s => s <| retries := 0 |>);
  do! run_callbacks (commit_cb C);
  do! modify (set_status TX_COMMITTED);
  do! when (ea C) (ea_store Tx_on 0);
  ret 1.

(** Between the acquisition of the locks and [end:] *)
Definition stm_commit_update : M Z :=
  let! c := FETCH_INC_CLOCK in
  let t := w64 (c + 1) in
  let! tx := get in
  let! ok := if start tx =? w64 (t - 1) then ret 1 else stm_validate in
  if negb (truth ok) then
    do! count (fun s => s <| aborts_validate_commit := incr (aborts_validate_commit s) |>);
    do! stm_rollback STM_ABORT_VALIDATE;
    ret 0
  else
    let! tx := get in
    do! stm_install t (w_entries (wset tx));
    stm_commit_end.

Definition stm_commit : M Z :=
  do! modify (fun tx => tx <| nesting := nesting tx - 1 |>);
  let! tx := get in
  if 0 <? nesting tx then ret 1
  else
    do! assert (IS_ACTIVE (status tx));
    if w_nb tx =? 0 then stm_commit_end
    else
      let! ok := stm_acquire (length (w_entries (wset tx))) in
      if ok then stm_commit_update else ret 0.

Definition stm_load (addr : Z) : M Z :=
  let! value := stm_read_invisible addr in
  do! ea_standing_tick;
  ret value.

Definition stm_store (addr value : Z) : M unit :=
  let! _w := stm_write addr value ones64 in ret tt.

Definition stm_store2 (addr value mask : Z) : M unit :=
  let! _w := stm_write addr value mask in ret tt.

(** ** Inspection and parameters *)

Definition stm_active (tx : stm_tx) : Z := c_bool (IS_ACTIVE (status tx)).

Definition stm_aborted (tx : stm_tx) : Z := c_bool (GET_STATUS (status tx) =? TX_ABORTED).

(** Whether an environment is returned. *)
Definition stm_get_env (tx : stm_tx) : bool := nesting tx =? 0.

Definition stm_get_attributes (tx : stm_tx) : option stm_tx_attr := attr tx.

(** [can_extend] is a field of one bit. *)
Definition stm_set_extension (enable : Z) (timestamp : option Z) : M unit :=
  modify (fun tx =>
    let tx := tx <| can_extend := Z.land enable 1 |> in
    match timestamp with
    | Some ts => if ts <? tx_end tx then tx <| tx_end := ts |> else tx
    | None => tx
    end).

(** The descriptor set up by [stm_init_thread], for arrays at [p]; the fields
    its [malloc] leaves undefined are given a value that is not used. *)
Definition init_stats : tx_stats := mk_stats 0 0 0 0 0 0 0 0 0 0 0 0 0.

Definition init_tx (i : nat) : stm_tx :=
  mk_tx i None TX_IDLE 0 0 (mk_r_set [] RW_SET_SIZE) (mk_w_set 0 [] RW_SET_SIZE 0) 0 0 0
    (replicate MAX_SPECIFIC 0) init_stats 0.

Definition stm_init_thread : M unit :=
  do! stm_allocate_rs_entries false;
  do! stm_allocate_ws_entries false;
  do! act (Ext Enter_thread);
  run_callbacks (init_cb C).

Definition stm_exit_thread : M unit :=
  do! run_callbacks (exit_cb C);
  let! tx := get in
  do! assert (negb (IS_ACTIVE (status tx)));
  do! act (Ext Exit_thread);
  do! act (Ext Free_sets);
  ret tt.

(** The handler of SIGBUS and SIGSEGV, on a thread that has a descriptor. *)
Definition signal_catcher : M unit :=
  let! tx := get in
  if negb (must_retry tx) then stop (Exit 1)
  else
    do! count (fun s => s <| aborts_invalid_memory := incr (aborts_invalid_memory s) |>);
    stm_rollback STM_ABORT_SIGNAL.

(** ** The extra-tick callback *)

(** tinySTM/src/stm_et_callback.S: entered at an instruction of the application
    when the kernel delivers a tick. *)
Definition stm_revalidate : M unit :=
  do! ea_store Tx_on 0;
  let! ok := stm_extend in
  do! when (ok =? 0) (stm_abort STM_ABORT_EARLY);
  ea_store Tx_on 1.

(** A tick is delivered at an instruction of the application only while
    [tx_on] is 1. *)
Definition et_check : M unit :=
  when (ea C)
    (let! t := act (Ext Tick) in
     let! on := ea_load Tx_on in
     when ((t =? 1) && (on =? 1)) stm_revalidate).

(** ** The application *)

Fixpoint exec_body (b : txbody) : M Z :=
  do! et_check;
  match b with
  | TRet r => ret r
  | TLoad a k => let! v := stm_load (w64 a) in exec_body (k v)
  | TStore a v k => do! stm_store (w64 a) (w64 v); exec_body k
  | TStore2 a v m k => do! stm_store2 (w64 a) (w64 v) (w64 m); exec_body k
  | TAbort k => do! stm_abort 0; exec_body k
  | TFail => stop App_fault
  end.

(** One run from the [sigsetjmp] to the answer of [stm_commit]. *)
Definition tx_attempt (b : txbody) : M (option Z) :=
  let! r := exec_body b in
  let! ok := stm_commit in
  ret (if truth ok then Some r else None).

(** [siglongjmp] comes back to the [sigsetjmp]; [n] bounds the restarts. *)
Fixpoint tx_loop (n : nat) (b : txbody) : M (option Z) :=
  match n with
  | O => stop Out_of_fuel
  | S n => catch (tx_attempt b) (fun _ => tx_loop n b)
  end.

(** START, the body, COMMIT, as the macros of the tests and of TPCC put them. *)
Definition run_tx (a : option stm_tx_attr) (b : txbody) : M (option Z) :=
  let! env := stm_start a in
  if env : bool then tx_loop fuel b else tx_attempt b.

Fixpoint run_txs (l : list (option stm_tx_attr * txbody)) : M (list (option Z)) :=
  match l with
  | [] => ret []
  | (a, b) :: l => let! r := run_tx a b in let! rs := run_txs l in ret (r :: rs)
  end.

Definition run_thread (l : list (option stm_tx_attr * txbody)) : M (list (option Z)) :=
  do! stm_init_thread;
  let! rs := run_txs l in
  do! stm_exit_thread;
  ret rs.

End Ctl.
