(* ===== verification/CtlHist.v ===== *)
(** * Commit histories and their serial replay

    The specification the transactions of [Ctl.v] are proved against.  A
    transaction body has a sequential meaning ([seq_body]).  A history gives
    each value of the global clock one slot, the writes of the transaction that
    took that timestamp at commit; [mem_at] is the memory after the committed
    slots up to a timestamp, and [order] the serial order the timestamps
    define, read-only transactions coming after the writer of their snapshot.
    [order_replays] is the heart: if each committed transaction read what
    [mem_at] says at its place, executing [order] one transaction after
    another gives every result and the final memory. *)
From S2P Require Import Prelude Words LockWord Machine Tx Ctl.
From Stdlib Require Import FunctionalExtensionality.

(** ** Memories and the sequential meaning of bodies *)

Definition mem : Type := Z -> Z.

Definition is_mem (m : mem) : Prop := forall a, is_word (m a).

(** Address, value, mask *)
Definition write : Type := Z * Z * Z.

Definition apply1 (m : mem) (w : write) : mem :=
  let '(a, v, k) := w in upd m a (wmerge (m a) v k).

Definition apply (m : mem) (ws : list write) : mem := fold_left apply1 ws m.

(** A body run alone returns, asks for a restart, or fails. *)
Inductive seq_res := SDone (r : Z) (m : mem) | SAborted | SFault.

Fixpoint seq_run (b : txbody) (m : mem) : seq_res :=
  match b with
  | TRet r => SDone r m
  | TLoad a k => seq_run (k (m (w64 a))) m
  | TStore a v k => seq_run k (upd m (w64 a) (w64 v))
  | TStore2 a v x k => seq_run k (upd m (w64 a) (wmerge (m (w64 a)) (w64 v) (w64 x)))
  | TAbort _ => SAborted
  | TFail => SFault
  end.

(** What it returns, if it does: only then can it commit. *)
Fixpoint seq_body (b : txbody) (m : mem) : option (Z * mem) :=
  match b with
  | TRet r => Some (r, m)
  | TLoad a k => seq_body (k (m (w64 a))) m
  | TStore a v k => seq_body k (upd m (w64 a) (w64 v))
  | TStore2 a v x k => seq_body k (upd m (w64 a) (wmerge (m (w64 a)) (w64 v) (w64 x)))
  | TAbort _ | TFail => None
  end.

Lemma seq_body_run b m : seq_body b m = match seq_run b m with SDone r m' => Some (r, m') | _ => None end.
Proof. revert m. induction b as [r|a k IH|a v k IH|a v x k IH|k IH|]; intros m; simpl; auto. Qed.

(** A committed transaction: its thread, its body and what the body returned. *)
Record rec := mk_rec { rc_tid : nat; rc_body : txbody; rc_res : Z }.

Fixpoint seq_exec (l : list rec) (m : mem) : option mem :=
  match l with
  | [] => Some m
  | r :: l =>
      match seq_body (rc_body r) m with
      | Some (v, m') => if v =? rc_res r then seq_exec l m' else None
      | None => None
      end
  end.

Lemma upd_same {L} `{EqDecision L} (m : L -> Z) a v : upd m a v a = v.
Proof. unfold upd. by rewrite decide_True. Qed.

Lemma upd_other {L} `{EqDecision L} (m : L -> Z) a v a' : a' <> a -> upd m a v a' = m a'.
Proof. intros. unfold upd. by rewrite decide_False. Qed.

Lemma seq_exec_app l1 l2 m :
  seq_exec (l1 ++ l2) m = seq_exec l1 m ≫= seq_exec l2.
Proof.
  revert m. induction l1 as [|r l1 IH]; intros m; simpl; [done|].
  destruct (seq_body (rc_body r) m) as [[v m']|]; [|done].
  destruct (v =? rc_res r); [apply IH|done].
Qed.

(** ** Writes *)

Definition write_ok (w : write) : Prop := let '(a, v, k) := w in is_word v /\ is_word k.

Definition w_stripe (w : write) : Z := let '(a, _, _) := w in GET_LOCK a.

Definition touches (ws : list write) (s : Z) : Prop := Exists (fun w => w_stripe w = s) ws.

#[export] Instance touches_dec ws s : Decision (touches ws s).
Proof. unfold touches. apply _. Defined.

Lemma apply_app m ws1 ws2 : apply m (ws1 ++ ws2) = apply (apply m ws1) ws2.
Proof. unfold apply. by rewrite fold_left_app. Qed.

Lemma apply1_words m w : write_ok w -> is_mem m -> is_mem (apply1 m w).
Proof.
  destruct w as [[a v] k]. intros [? ?] Hm x. simpl. unfold upd.
  case_decide; [|done]. subst. auto with word.
Qed.

Lemma apply_words ws m : Forall write_ok ws -> is_mem m -> is_mem (apply m ws).
Proof.
  intros Hws. revert m. induction Hws as [|w ws Hw Hws IH]; intros m Hm; simpl; [done|].
  apply IH. by apply apply1_words.
Qed.

Lemma apply_untouched ws m a : ~ touches ws (GET_LOCK a) -> apply m ws a = m a.
Proof.
  revert m. induction ws as [|w ws IH]; intros m Ht; simpl; [done|].
  unfold touches in *. rewrite Exists_cons in Ht.
  rewrite IH by tauto. destruct w as [[a' v] k]. simpl in *.
  apply upd_other. intros ->. tauto.
Qed.

(** Reading an address of a memory with pending writes only depends on the
    memory at that address. *)
Lemma apply_ext_at ws m m' a : m a = m' a -> apply m ws a = apply m' ws a.
Proof.
  revert m m'. induction ws as [|[[a' v] k] ws IH]; intros m m' Hm; simpl; [done|].
  apply IH. unfold upd. case_decide; [|done]. by subst; rewrite Hm.
Qed.

(** ** Histories *)

Inductive wstate := Pending | Void | Committed.

#[export] Instance wstate_eq_dec : EqDecision wstate.
Proof. solve_decision. Defined.

(** The transaction that took the timestamp: its writes, and the values it read
    from the shared memory. *)
Record slot := mk_slot {
  sl_state : wstate; sl_rec : rec; sl_ws : list write; sl_log : list (Z * Z) }.

(** Slot [k] is timestamp [k + 1]. *)
Abbreviation history := (list slot).

Definition resolve (st : wstate) (sl : slot) : slot :=
  mk_slot st (sl_rec sl) (sl_ws sl) (sl_log sl).

Definition touch (h : history) (k : nat) (s : Z) : Prop :=
  exists sl, h !! k = Some sl /\ sl_state sl <> Void /\ touches (sl_ws sl) s.

Definition pend (h : history) (k : nat) (s : Z) : Prop :=
  exists sl, h !! k = Some sl /\ sl_state sl = Pending /\ touches (sl_ws sl) s.

Definition wrote (h : history) (k : nat) (s : Z) : Prop :=
  exists sl, h !! k = Some sl /\ sl_state sl = Committed /\ touches (sl_ws sl) s.

(** No transaction wrote stripe [s] after timestamp [v], up to [e]. *)
Definition no_touch (h : history) (s : Z) (v e : nat) : Prop :=
  forall k, (v <= k < e)%nat -> ~ touch h k s.

(** No transaction with a timestamp up to [n] may still write [s]. *)
Definition settled (h : history) (s : Z) (n : nat) : Prop :=
  forall k, (k < n)%nat -> ~ pend h k s.

(** ** How a history evolves *)

Definition slot_le (sl sl' : slot) : Prop :=
  sl' = sl \/
  (sl_state sl = Pending /\ sl_state sl' <> Pending /\ sl' = resolve (sl_state sl') sl).

Definition hist_le (h h' : history) : Prop :=
  forall k sl, h !! k = Some sl -> exists sl', h' !! k = Some sl' /\ slot_le sl sl'.

Lemma slot_le_refl sl : slot_le sl sl.
Proof. by left. Qed.

Lemma slot_le_trans sl1 sl2 sl3 : slot_le sl1 sl2 -> slot_le sl2 sl3 -> slot_le sl1 sl3.
Proof.
  intros [->|(?&?&->)] [->|(?&?&->)]; unfold slot_le; simpl in *; auto; tauto.
Qed.

Lemma slot_le_rec sl sl' : slot_le sl sl' -> sl_rec sl' = sl_rec sl.
Proof. by intros [->|(_ & _ & ->)]. Qed.

Lemma hist_le_refl h : hist_le h h.
Proof. intros k sl Hk. exists sl. split; [done|]. apply slot_le_refl. Qed.

Lemma hist_le_trans h1 h2 h3 : hist_le h1 h2 -> hist_le h2 h3 -> hist_le h1 h3.
Proof.
  intros H12 H23 k sl Hk. destruct (H12 k sl Hk) as (sl2 & Hk2 & Hle).
  destruct (H23 k sl2 Hk2) as (sl3 & Hk3 & Hle3). exists sl3. split; [done|].
  by eapply slot_le_trans.
Qed.

Lemma hist_le_app h h' : hist_le h (h ++ h').
Proof.
  intros k sl Hk. exists sl. split; [|apply slot_le_refl].
  rewrite lookup_app_l; [done|]. by eapply lookup_lt_Some.
Qed.

Lemma hist_le_insert h k sl sl' :
  h !! k = Some sl -> slot_le sl sl' -> hist_le h (<[k := sl']> h).
Proof.
  intros Hk Hle j slj Hj. destruct (decide (j = k)) as [->|].
  - simplify_eq. exists sl'. split; [|done]. apply list_lookup_insert_eq.
    by eapply lookup_lt_Some.
  - exists slj. rewrite list_lookup_insert_ne by done. split; [done|]. apply slot_le_refl.
Qed.

Lemma hist_le_length h h' : hist_le h h' -> (length h <= length h')%nat.
Proof.
  intros Hle. destruct (decide (length h <= length h')%nat) as [|Hn]; [done|].
  destruct (lookup_lt_is_Some_2 h (length h')) as [sl Hsl]; [lia|].
  destruct (Hle _ _ Hsl) as (sl' & Hsl' & _). apply lookup_lt_Some in Hsl'. lia.
Qed.

Lemma touch_le h h' k s :
  hist_le h h' -> (k < length h)%nat -> touch h' k s -> touch h k s.
Proof.
  intros Hle Hk (sl' & Hsl' & Hv & Ht).
  destruct (lookup_lt_is_Some_2 h k Hk) as [sl Hsl].
  destruct (Hle _ _ Hsl) as (sl2 & Hsl2 & Hs). simplify_eq.
  exists sl. split; [done|]. destruct Hs as [->|(Hp & Hn & Heq)]; [done|].
  rewrite Heq in Ht. simpl in Ht. split; [congruence|done].
Qed.

Lemma pend_le h h' k s :
  hist_le h h' -> (k < length h)%nat -> pend h' k s -> pend h k s.
Proof.
  intros Hle Hk (sl' & Hsl' & Hv & Ht).
  destruct (lookup_lt_is_Some_2 h k Hk) as [sl Hsl].
  destruct (Hle _ _ Hsl) as (sl2 & Hsl2 & Hs). simplify_eq.
  exists sl. split; [done|]. destruct Hs as [->|(Hp & Hn & Heq)]; [done|]. congruence.
Qed.

Lemma pend_touch h k s : pend h k s -> touch h k s.
Proof. intros (sl & ? & Hp & ?). exists sl. split_and!; [done| |done]. by rewrite Hp. Qed.

Lemma wrote_touch h k s : wrote h k s -> touch h k s.
Proof. intros (sl & ? & Hp & ?). exists sl. split_and!; [done| |done]. by rewrite Hp. Qed.

Lemma wrote_le h h' k s : hist_le h h' -> wrote h k s -> wrote h' k s.
Proof.
  intros Hle (sl & Hsl & Hc & Ht). destruct (Hle _ _ Hsl) as (sl' & Hsl' & Hs).
  exists sl'. split; [done|]. destruct Hs as [->|(Hp & _)]; [done|congruence].
Qed.

Lemma no_touch_le h h' s v e :
  hist_le h h' -> (e <= length h)%nat -> no_touch h s v e -> no_touch h' s v e.
Proof. intros Hle He Hn k Hk Ht. apply (Hn k Hk). eapply touch_le; eauto. lia. Qed.

Lemma settled_le h h' s n :
  hist_le h h' -> (n <= length h)%nat -> settled h s n -> settled h' s n.
Proof. intros Hle He Hn k Hk Ht. apply (Hn k Hk). eapply pend_le; eauto. lia. Qed.

Lemma no_touch_settled h s v e : no_touch h s v e -> settled h s v -> settled h s e.
Proof.
  intros Hn Hs k Hk Hp. destruct (decide (k < v)%nat); [by apply (Hs k)|].
  apply (Hn k); [lia|]. by apply pend_touch.
Qed.

(** ** The memory at a timestamp *)

Section Memory.

Variable m0 : mem.

Definition step (m : mem) (sl : slot) : mem :=
  if decide (sl_state sl = Committed) then apply m (sl_ws sl) else m.

Definition mem_at (h : history) (n : nat) : mem := fold_left step (take n h) m0.

Lemma mem_at_0 h : mem_at h 0 = m0.
Proof. done. Qed.

Lemma mem_at_S h n sl : h !! n = Some sl -> mem_at h (S n) = step (mem_at h n) sl.
Proof. intros Hn. unfold mem_at. by rewrite (take_S_r _ _ _ Hn), fold_left_app. Qed.

Lemma mem_at_app h h' n : (n <= length h)%nat -> mem_at (h ++ h') n = mem_at h n.
Proof. intros. unfold mem_at. by rewrite take_app_le. Qed.

Lemma mem_at_insert h k sl n : (n <= k)%nat -> mem_at (<[k := sl]> h) n = mem_at h n.
Proof. intros. unfold mem_at. by rewrite take_insert_ge. Qed.

Lemma mem_at_past h n : (length h <= n)%nat -> mem_at h n = mem_at h (length h).
Proof. intros. unfold mem_at. by rewrite !take_ge by lia. Qed.

Lemma step_untouched m sl a :
  ~ (sl_state sl = Committed /\ touches (sl_ws sl) (GET_LOCK a)) -> step m sl a = m a.
Proof.
  unfold step. intros Ht. case_decide; [|done]. apply apply_untouched. tauto.
Qed.

Lemma mem_at_no_touch h v e a :
  no_touch h (GET_LOCK a) v e -> (v <= e)%nat -> mem_at h e a = mem_at h v a.
Proof.
  intros Hn. induction e as [|e IH]; intros Hle; [by replace v with O by lia|].
  destruct (decide (v = S e)) as [->|]; [done|].
  rewrite <- IH; [|intros k Hk; apply Hn; lia|lia].
  destruct (h !! e) as [sl|] eqn:Hsl.
  - rewrite (mem_at_S _ _ _ Hsl). apply step_untouched. intros [Hc Ht].
    apply (Hn e); [lia|]. exists sl. split_and!; [done| |done]. by rewrite Hc.
  - apply lookup_ge_None in Hsl.
    by rewrite mem_at_past, (mem_at_past h e) by lia.
Qed.

(** The value at [a] only changes when a pending slot that touches [a] does. *)
Lemma mem_at_fixed h h' n a :
  hist_le h h' -> (n <= length h)%nat ->
  (forall k sl sl', (k < n)%nat -> h !! k = Some sl -> h' !! k = Some sl' ->
     touches (sl_ws sl) (GET_LOCK a) -> sl' = sl) ->
  mem_at h' n a = mem_at h n a.
Proof.
  intros Hle. induction n as [|n IH]; intros Hn Hfix; [done|].
  destruct (lookup_lt_is_Some_2 h n) as [sl Hsl]; [lia|].
  destruct (Hle _ _ Hsl) as (sl' & Hsl' & Hs).
  rewrite (mem_at_S _ _ _ Hsl), (mem_at_S _ _ _ Hsl').
  assert (IH' : mem_at h' n a = mem_at h n a).
  { apply IH; [lia|]. intros k sl1 sl1' Hk. apply Hfix. lia. }
  destruct (decide (touches (sl_ws sl) (GET_LOCK a))) as [Ht|Ht].
  - assert (sl' = sl) as -> by (eapply (Hfix n); eauto with lia).
    unfold step. case_decide; [|done]. by apply apply_ext_at.
  - rewrite !step_untouched; [done|tauto|]. intros [_ Ht'].
    destruct Hs as [->|(_ & _ & Heq)]; [done|]. rewrite Heq in Ht'. done.
Qed.

Lemma slot_le_settled h k sl sl' s :
  h !! k = Some sl -> slot_le sl sl' -> touches (sl_ws sl) s -> ~ pend h k s -> sl' = sl.
Proof. intros Hk [->|(Hp & _)] Ht Hn; [done|]. destruct Hn. by exists sl. Qed.

Lemma mem_at_settled h h' n a :
  hist_le h h' -> (n <= length h)%nat -> settled h (GET_LOCK a) n ->
  mem_at h' n a = mem_at h n a.
Proof.
  intros Hle Hn Hs. apply mem_at_fixed; [done..|]. intros k sl sl' Hk Hsl Hsl' Ht.
  destruct (Hle _ _ Hsl) as (sl2 & ? & Hs2). simplify_eq.
  eapply slot_le_settled; eauto.
Qed.

Lemma mem_at_words h n :
  is_mem m0 -> Forall (fun sl => Forall write_ok (sl_ws sl)) h -> is_mem (mem_at h n).
Proof.
  intros Hm Hh. revert n. induction n as [|n IH]; [done|].
  destruct (h !! n) as [sl|] eqn:Hsl.
  - rewrite (mem_at_S _ _ _ Hsl). unfold step. case_decide; [|done].
    apply apply_words; [|done]. by eapply Forall_lookup_1 in Hh.
  - apply lookup_ge_None in Hsl. by rewrite mem_at_past, <- (mem_at_past h n) by lia.
Qed.

(** ** Transactions consistent with their place *)

Definition agree (m : mem) (log : list (Z * Z)) : Prop :=
  Forall (fun '(a, v) => m a = v) log.

(** Re-executing the body on any memory with the values read gives the result
    and the writes. *)
Definition replays (b : txbody) (r : Z) (ws : list write) (log : list (Z * Z)) : Prop :=
  forall m, is_mem m -> agree m log -> seq_body b m = Some (r, apply m ws).

(** The values of [log] are those of timestamp [n], for good. *)
Definition reads_at (h : history) (n : nat) (log : list (Z * Z)) : Prop :=
  Forall (fun '(a, v) => mem_at h n a = v /\ settled h (GET_LOCK a) n) log.

Lemma reads_at_agree h n log : reads_at h n log -> agree (mem_at h n) log.
Proof. intros Hr. eapply Forall_impl; [|exact Hr]. by intros [a v] [? _]. Qed.

Lemma reads_at_le h h' n log :
  hist_le h h' -> (n <= length h)%nat -> reads_at h n log -> reads_at h' n log.
Proof.
  intros Hle Hn Hr. eapply Forall_impl; [|exact Hr]. intros [a v] [<- Hs].
  split; [by apply mem_at_settled|by eapply settled_le].
Qed.

(** A read of version [v] that nobody has overwritten up to [e]. *)
Lemma reads_at_no_touch h v e a x :
  mem_at h v a = x -> settled h (GET_LOCK a) v -> no_touch h (GET_LOCK a) v e -> (v <= e)%nat ->
  mem_at h e a = x /\ settled h (GET_LOCK a) e.
Proof.
  intros <- Hs Hn Hle. split; [by apply mem_at_no_touch|by eapply no_touch_settled].
Qed.

Definition slot_ok (h : history) (k : nat) (sl : slot) : Prop :=
  sl_state sl = Committed ->
  reads_at h k (sl_log sl) /\
  replays (rc_body (sl_rec sl)) (rc_res (sl_rec sl)) (sl_ws sl) (sl_log sl).

(** A transaction that committed without writing: the timestamp of its snapshot,
    what it is and what it read. *)
Definition ro_commit : Type := nat * rec * list (Z * Z).

Definition ro_ok (h : history) (r : ro_commit) : Prop :=
  let '(n, c, log) := r in
  (n <= length h)%nat /\ reads_at h n log /\ replays (rc_body c) (rc_res c) [] log.

Definition hist_ok (h : history) (ros : list ro_commit) : Prop :=
  (forall k sl, h !! k = Some sl -> slot_ok h k sl) /\ Forall (ro_ok h) ros /\
  Forall (fun sl => Forall write_ok (sl_ws sl)) h /\ is_mem m0.

(** ** The serial order *)

Definition ros_at (n : nat) (ros : list ro_commit) : list rec :=
  omap (fun '(k, c, _) => if decide (k = n) then Some c else None) ros.

Definition writer (sl : slot) : list rec :=
  if decide (sl_state sl = Committed) then [sl_rec sl] else [].

Fixpoint order_from (n : nat) (h : history) (ros : list ro_commit) : list rec :=
  ros_at n ros ++
  match h with [] => [] | sl :: h => writer sl ++ order_from (S n) h ros end.

Definition order (h : history) (ros : list ro_commit) : list rec := order_from 0 h ros.

Lemma ros_at_replay h ros n l m :
  Forall (ro_ok h) ros -> is_mem m -> mem_at h n = m ->
  seq_exec (ros_at n ros ++ l) m = seq_exec l m.
Proof.
  intros Hros Hm <-. induction Hros as [|[[k c] log] ros Hr Hros IH]; [done|].
  unfold ros_at in *. simpl. case_decide as Hk; [|done]. simpl. subst k.
  destruct Hr as (_ & Hr & Hrep). apply reads_at_agree in Hr.
  rewrite Hrep by done. rewrite Z.eqb_refl. apply IH.
Qed.

Lemma order_from_replay h ros n :
  hist_ok h ros -> (n <= length h)%nat ->
  seq_exec (order_from n (drop n h) ros) (mem_at h n) = Some (mem_at h (length h)).
Proof.
  intros (Hh & Hros & Hw & Hm) Hn. remember (length h - n)%nat as d eqn:Hd.
  revert n Hn Hd. induction d as [|d IH]; intros n Hn Hd.
  - rewrite drop_ge by lia. simpl. rewrite (ros_at_replay h) by auto using mem_at_words.
    simpl. by replace n with (length h) by lia.
  - destruct (lookup_lt_is_Some_2 h n) as [sl Hsl]; [lia|].
    rewrite (drop_S _ _ _ Hsl). simpl.
    rewrite (ros_at_replay h) by auto using mem_at_words.
    rewrite seq_exec_app. specialize (IH (S n) ltac:(lia) ltac:(lia)).
    rewrite (mem_at_S _ _ _ Hsl) in IH. unfold writer, step in *. case_decide as Hc; [|done].
    simpl. destruct (Hh _ _ Hsl Hc) as [Hr Hrep].
    rewrite Hrep by eauto using mem_at_words, reads_at_agree.
    by rewrite Z.eqb_refl.
Qed.

Lemma order_replays h ros :
  hist_ok h ros -> seq_exec (order h ros) m0 = Some (mem_at h (length h)).
Proof. intros Hok. apply (order_from_replay h ros 0 Hok). lia. Qed.

(** The memory of a timestamp is reached by the committed writers before it. *)
Lemma mem_at_reached h ros n :
  hist_ok h ros ->
  exists l, seq_exec l m0 = Some (mem_at h n) /\
            Forall (fun r => exists k sl, h !! k = Some sl /\ sl_state sl = Committed /\
                                          r = sl_rec sl) l.
Proof.
  intros (Hh & Hros & Hw & Hm). induction n as [|n (l & Hl & Hin)].
  { exists []. split; [done|]. constructor. }
  destruct (h !! n) as [sl|] eqn:Hsl.
  - rewrite (mem_at_S _ _ _ Hsl). unfold step. case_decide as Hc; [|by exists l].
    exists (l ++ [sl_rec sl]). split.
    + rewrite seq_exec_app, Hl. simpl. destruct (Hh _ _ Hsl Hc) as [Hr Hrep].
      rewrite Hrep by eauto using mem_at_words, reads_at_agree. by rewrite Z.eqb_refl.
    + apply list.Forall_app. split; [done|]. constructor; [|constructor]. eauto.
  - exists l. apply lookup_ge_None in Hsl.
    by rewrite mem_at_past, <- (mem_at_past h n) by lia.
Qed.

End Memory.

(** ** The transactions of one thread in the serial order *)

Definition mine (i : nat) (l : list rec) : list rec := filter (fun r => rc_tid r = i) l.

Lemma mine_app i l1 l2 : mine i (l1 ++ l2) = mine i l1 ++ mine i l2.
Proof. apply list.filter_app. Qed.

Lemma mine_cons_eq c l : mine (rc_tid c) (c :: l) = c :: mine (rc_tid c) l.
Proof. unfold mine. by rewrite filter_cons_True. Qed.

Lemma mine_cons_ne i c l : rc_tid c <> i -> mine i (c :: l) = mine i l.
Proof. intros. unfold mine. by rewrite filter_cons_False. Qed.

Lemma ros_at_app n ros1 ros2 : ros_at n (ros1 ++ ros2) = ros_at n ros1 ++ ros_at n ros2.
Proof. apply omap_app. Qed.

Lemma order_from_app n h1 sl h2 ros :
  order_from n (h1 ++ sl :: h2) ros =
  order_from n h1 ros ++ writer sl ++ order_from (S (n + length h1)) h2 ros.
Proof.
  revert n. induction h1 as [|sl1 h1 IH]; intros n; simpl.
  - by rewrite Nat.add_0_r, app_nil_r.
  - rewrite IH, <- !app_assoc. by replace (S n + length h1)%nat with (n + S (length h1))%nat by lia.
Qed.

(** Thread [i] has nothing in the slots of [h], numbered from [n], nor among the
    read-only commits from [n] on. *)
Definition absent (i n : nat) (h : history) (ros : list ro_commit) : Prop :=
  Forall (fun sl => rc_tid (sl_rec sl) <> i) h /\
  Forall (fun '(k, c, _) => rc_tid c = i -> (k < n)%nat) ros.

Lemma ros_at_absent i n ros :
  Forall (fun '(k, c, _) => rc_tid c = i -> (k < n)%nat) ros -> mine i (ros_at n ros) = [].
Proof.
  induction 1 as [|[[k c] log] ros Hr Hros IH]; [done|].
  unfold ros_at in *. simpl. case_decide; [|done]. simpl.
  rewrite mine_cons_ne; [done|]. intros Hc. specialize (Hr Hc). lia.
Qed.

Lemma writer_other i sl : rc_tid (sl_rec sl) <> i -> mine i (writer sl) = [].
Proof.
  intros. unfold writer. case_decide; [|done]. by rewrite mine_cons_ne.
Qed.

Lemma absent_weaken i n n' h ros : (n <= n')%nat -> absent i n h ros -> absent i n' h ros.
Proof.
  intros Hle [Hh Hr]. split; [done|]. eapply Forall_impl; [|exact Hr].
  intros [[k c] log] Hk Hc. specialize (Hk Hc). lia.
Qed.

Lemma order_from_absent i n h ros : absent i n h ros -> mine i (order_from n h ros) = [].
Proof.
  revert n. induction h as [|sl h IH]; intros n [Hh Hr]; simpl.
  - by rewrite app_nil_r, ros_at_absent.
  - apply list.Forall_cons in Hh as [Hsl Hh].
    rewrite !mine_app, ros_at_absent, writer_other by done. simpl. apply IH.
    apply (absent_weaken i n); [lia|by split].
Qed.

(** Taking a timestamp does not change the order. *)
Lemma order_pending h sl ros :
  sl_state sl = Pending -> Forall (fun r => (r.1.1 <= length h)%nat) ros ->
  order (h ++ [sl]) ros = order h ros.
Proof.
  intros Hp Hros. unfold order. rewrite order_from_app. unfold writer. rewrite Hp. simpl.
  enough (ros_at (S (length h)) ros = []) as -> by by rewrite !app_nil_r.
  induction Hros as [|[[k c] log] ros Hr Hros IH]; [done|].
  unfold ros_at in *. simpl in *. rewrite decide_False by lia. done.
Qed.

(** Resolving a slot inserts its transaction at its place. *)
Lemma order_resolve h k sl st ros :
  h !! k = Some sl -> sl_state sl = Pending -> st <> Pending ->
  exists l1 l2, order h ros = l1 ++ l2 /\
    order (<[k := resolve st sl]> h) ros = l1 ++ writer (resolve st sl) ++ l2 /\
    (forall i, absent i (S k) (drop (S k) h) ros -> mine i l2 = []).
Proof.
  intros Hk Hp Hst. assert (Hlt := lookup_lt_Some _ _ _ Hk).
  exists (order_from 0 (take k h) ros), (order_from (S k) (drop (S k) h) ros).
  assert (Hl : length (take k h) = k) by (rewrite length_take; lia).
  split_and!.
  - rewrite <- (take_drop_middle h k sl Hk) at 1. unfold order.
    rewrite order_from_app, Hl. unfold writer. by rewrite Hp.
  - rewrite <- (take_drop_middle h k sl Hk) at 1. unfold order.
    rewrite insert_app_r_alt, Hl, Nat.sub_diag by lia. simpl.
    by rewrite order_from_app, Hl.
  - intros i. apply order_from_absent.
Qed.

(** So does a commit without writes. *)
Lemma order_from_ro h ros d n c log :
  (d <= length h)%nat ->
  exists l1 l2, order_from n h ros = l1 ++ l2 /\
    order_from n h (ros ++ [((n + d)%nat, c, log)]) = l1 ++ [c] ++ l2 /\
    (forall i, absent i (S (n + d)) (drop d h) ros -> mine i l2 = []).
Proof.
  revert n d. induction h as [|sl h IH]; intros n d Hd; simpl in *.
  - replace d with O by lia. exists (ros_at n ros), []. rewrite Nat.add_0_r.
    rewrite ros_at_app, !app_nil_r. unfold ros_at at 3. simpl. rewrite decide_True by done. done.
  - destruct d as [|d]; simpl.
    + rewrite Nat.add_0_r, ros_at_app.
      exists (ros_at n ros), (writer sl ++ order_from (S n) h ros).
      split_and!; [done|..].
      * unfold ros_at at 2. simpl. rewrite decide_True by done. rewrite <- app_assoc. simpl.
        do 3 f_equal. clear. generalize (S n) (Nat.lt_succ_diag_r n). intros n' Hn.
        revert n' Hn. induction h as [|sl' h IH]; intros n' Hn; simpl; rewrite ros_at_app;
          unfold ros_at at 2; simpl; rewrite decide_False by lia; rewrite app_nil_r; [done|].
        by rewrite IH by lia.
      * intros i [Hh Hr]. apply list.Forall_cons in Hh as [Hsl Hh].
        rewrite mine_app, writer_other, order_from_absent by done. done.
    + destruct (IH (S n) d) as (l1 & l2 & Heq1 & Heq2 & Hl2); [lia|].
      exists (ros_at n ros ++ writer sl ++ l1), l2.
      replace (n + S d)%nat with (S n + d)%nat by lia.
      rewrite Heq1, Heq2, ros_at_app. unfold ros_at at 3. simpl.
      rewrite decide_False by lia. rewrite app_nil_r, <- !app_assoc. split_and!; [done..|].
      intros i. apply Hl2.
Qed.

Lemma order_ro h ros d c log :
  (d <= length h)%nat ->
  exists l1 l2, order h ros = l1 ++ l2 /\
    order h (ros ++ [(d, c, log)]) = l1 ++ [c] ++ l2 /\
    (forall i, absent i (S d) (drop d h) ros -> mine i l2 = []).
Proof. apply (order_from_ro h ros d 0). Qed.
