(* ===== verification/CtlInv.v ===== *)
(** * Invariant, interference and assertions for the transactions of [Ctl.v]

    The ghost state is the commit history, the read-only commits, and the owner
    and the last version of each stripe.  [Inv] ties it to the shared cells; [rely i] is what
    the other threads and the environment keep for thread [i]; the assertions
    that describe a thread inside a transaction are stable under it. *)
From S2P Require Import Prelude Words LockWord Machine Tx Ctl CtlHist.
Import WriteBack.

(** ** The environment, as documented *)

(** [malloc] and [realloc] answer NULL or a block aligned for any type, inside
    the user address space, disjoint from the live blocks of the others. *)
Definition apart (b1 b2 : Z * Z) : Prop :=
  b1.2 = 0 \/ b2.2 = 0 \/ b1.1 + b1.2 <= b2.1 \/ b2.1 + b2.2 <= b1.1.

Definition block_free (x : arrays) (i : nat) (b : Z * Z) : Prop :=
  forall j, j <> i -> apart b (x j).

Definition set_array (x : arrays) (i : nat) (b : Z * Z) : arrays :=
  fun j => if decide (j = i) then b else x j.

Inductive ext_spec (i : nat) : ext -> arrays -> Z -> arrays -> Prop :=
| spec_rs n r x : ext_spec i (Realloc_rs n) x r x
| spec_ws_null n x : ext_spec i (Realloc_ws n) x 0 x
| spec_ws n p x :
    0 <= n -> 0 < p -> p mod 16 = 0 -> p + n <= 2 ^ 47 -> block_free x i (p, n) ->
    ext_spec i (Realloc_ws n) x p (set_array x i (p, n))
| spec_free r x : ext_spec i Free_sets x r (set_array x i (0, 0))
| spec_enter r x : ext_spec i Enter_thread x r x
| spec_exit r x : ext_spec i Exit_thread x r x
| spec_tick r x : ext_spec i Tick x r x
| spec_callback f arg r x : ext_spec i (Callback f arg) x r x.

(** The kernel only writes the fields of the control buffers that are its own. *)
Definition kernel_cell (l : loc) : Prop :=
  match l with Standing _ | Recently_validated _ => True | _ => False end.

Definition env_spec (s s' : stm_state) : Prop :=
  extra s' = extra s /\ forall l, ~ kernel_cell l -> cell s' l = cell s l.

(** ** Ghost state *)

Record ghost := mk_ghost {
  hist : list slot; ros : list ro_commit; held : Z -> option nat; ver : Z -> nat }.

Abbreviation st := (stm_state * ghost)%type.

Definition horder (s : st) : list rec := order (hist s.2) (ros s.2).

Definition now (s : st) : nat := length (hist s.2).

Definition set_held (f : Z -> option nat) (k : Z) (o : option nat) : Z -> option nat :=
  fun k' => if decide (k' = k) then o else f k'.

(** The number of timestamps below the one that stops the clock. *)
Definition vmax : nat := Z.to_nat VERSION_MAX.

Lemma vmax_spec : Z.of_nat vmax = VERSION_MAX.
Proof. apply Z2Nat.id. by compute. Qed.

Lemma VERSION_MAX_bound : 0 < VERSION_MAX /\ VERSION_MAX + MAX_THREADS < 2 ^ 63.
Proof. by compute. Qed.

#[global] Opaque vmax VERSION_MAX.

Section Inv.

Variable C : config.
Variable m0 : mem.
Variable progs : list (list (option stm_tx_attr * txbody)).

Definition in_progs (c : rec) : Prop :=
  exists l a, progs !! rc_tid c = Some l /\ (a, rc_body c) ∈ l.

Definition at_now (s : st) : mem := mem_at m0 (hist s.2) (now s).

(** ** The invariant *)

(** An unlocked stripe: its lock holds the timestamp of the last transaction
    that wrote it, and its words have the values of the history. *)
Record stripe_free (s : st) (k : Z) (v : nat) : Prop := {
  sf_ver : ver s.2 k = v;
  sf_lock : cell s.1 (Lock k) = 2 * Z.of_nat v;
  sf_now : (v <= now s)%nat;
  sf_touch : no_touch (hist s.2) k v (now s);
  sf_pend : forall j, ~ pend (hist s.2) j k;
  sf_mem : forall a, GET_LOCK a = k -> cell s.1 (Word a) = at_now s a }.

(** A locked one: its lock points into its owner's write set; its words have the
    values of the version it was locked at, unless its owner has committed. *)
Record stripe_held (s : st) (k : Z) (i : nat) : Prop := {
  sh_lock : exists p, cell s.1 (Lock k) = p + 1 /\ p mod 2 = 0 /\
              (extra s.1 i).1 <= p < (extra s.1 i).1 + (extra s.1 i).2;
  sh_now : (ver s.2 k <= now s)%nat;
  sh_pend : forall j, pend (hist s.2) j k -> (ver s.2 k <= j)%nat;
  sh_mem : (forall a, GET_LOCK a = k -> cell s.1 (Word a) = mem_at m0 (hist s.2) (ver s.2 k) a) \/
           exists t, (ver s.2 k <= t)%nat /\ wrote (hist s.2) t k }.

Definition stripe_ok (s : st) (k : Z) : Prop :=
  match held s.2 k with
  | None => exists v, stripe_free s k v
  | Some i => stripe_held s k i
  end.

Record Inv (s : st) : Prop := {
  inv_clock : cell s.1 Clock = Z.of_nat (now s);
  inv_stripes : forall k, stripe_ok s k;
  inv_block : forall i, 0 <= (extra s.1 i).1 /\ 0 <= (extra s.1 i).2 /\
                        (extra s.1 i).1 + (extra s.1 i).2 <= 2 ^ 47;
  inv_apart : forall i j, i <> j -> apart (extra s.1 i) (extra s.1 j);
  inv_hist : hist_ok m0 (hist s.2) (ros s.2);
  inv_progs : Forall (fun sl => in_progs (sl_rec sl)) (hist s.2) /\
              Forall (fun r => in_progs r.1.2) (ros s.2);
  inv_late : NoDup ((fun sl => rc_tid (sl_rec sl)) <$> drop vmax (hist s.2)) }.

(** ** Interference *)

Record rely (i : nat) (s s' : st) : Prop := {
  rl_hist : hist_le (hist s.2) (hist s'.2);
  rl_own : forall k sl, hist s.2 !! k = Some sl -> rc_tid (sl_rec sl) = i ->
                        hist s'.2 !! k = Some sl;
  rl_new : forall k sl, (now s <= k)%nat -> hist s'.2 !! k = Some sl ->
                        rc_tid (sl_rec sl) <> i;
  rl_held : forall k, held s.2 k = Some i <-> held s'.2 k = Some i;
  rl_ver : forall k, (ver s.2 k <= ver s'.2 k)%nat /\
                     (held s.2 k = Some i -> ver s'.2 k = ver s.2 k);
  rl_lock : forall k, held s.2 k = Some i -> cell s'.1 (Lock k) = cell s.1 (Lock k);
  rl_word : forall a, held s.2 (GET_LOCK a) = Some i ->
                      cell s'.1 (Word a) = cell s.1 (Word a);
  rl_touch : forall k j, held s.2 k = Some i ->
                         touch (hist s'.2) j k -> touch (hist s.2) j k;
  rl_array : extra s'.1 i = extra s.1 i;
  rl_ros : forall r, r ∈ ros s'.2 -> rc_tid r.1.2 = i -> r ∈ ros s.2;
  rl_mine : mine i (horder s') = mine i (horder s) }.

Lemma rely_refl i s : rely i s s.
Proof.
  constructor; try done; [apply hist_le_refl|].
  intros k sl Hk Hs. apply lookup_lt_Some in Hs. unfold now in *. lia.
Qed.

Lemma rely_trans i s1 s2 s3 : rely i s1 s2 -> rely i s2 s3 -> rely i s1 s3.
Proof.
  intros H1 H2.
  assert (Hheld : forall k, held s1.2 k = Some i -> held s2.2 k = Some i)
    by (intros k; apply (rl_held _ _ _ H1)).
  constructor.
  - eapply hist_le_trans; [apply H1|apply H2].
  - intros k sl Hk Hi. eapply rl_own; [done| |done]. by eapply rl_own.
  - intros k sl Hk Hsl. destruct (decide (now s2 <= k)%nat); [by eapply rl_new|].
    destruct (lookup_lt_is_Some_2 (hist s2.2) k) as [sl2 Hsl2]; [unfold now in *; lia|].
    pose proof (rl_new _ _ _ H1 k sl2 Hk Hsl2) as Hne.
    destruct (rl_hist _ _ _ H2 k sl2 Hsl2) as (sl3 & Hsl3 & Hle).
    simplify_eq. by destruct Hle as [->|(_ & _ & ->)].
  - intros k. rewrite (rl_held _ _ _ H1). apply H2.
  - intros k. destruct (rl_ver _ _ _ H1 k) as [? E1], (rl_ver _ _ _ H2 k) as [? E2].
    split; [lia|]. intros Hk. rewrite E2 by auto. auto.
  - intros k Hk. rewrite (rl_lock _ _ _ H2) by auto. by apply H1.
  - intros a Ha. rewrite (rl_word _ _ _ H2) by auto. by apply H1.
  - intros k j Hk Ht. eapply rl_touch; [done..|]. eapply rl_touch; [done| |done]. auto.
  - by rewrite (rl_array _ _ _ H2), (rl_array _ _ _ H1).
  - intros r Hr Hi. eapply rl_ros; [done| |done]. by eapply rl_ros.
  - by rewrite (rl_mine _ _ _ H2), (rl_mine _ _ _ H1).
Qed.

Lemma rely_now i s s' : rely i s s' -> (now s <= now s')%nat.
Proof. intros Hr. apply hist_le_length, Hr. Qed.

End Inv.
