(* ===== verification/CtlStep.v ===== *)
(** * What each atomic step does to the invariant

    One lemma per kind of step a transaction takes: on a control buffer, on its
    arrays, locking and unlocking a stripe, writing a word under a lock, taking a
    timestamp, and the two steps that only change the ghost state (the
    resolution of a timestamp and a commit without writes).  Each shows the
    invariant again and what the other threads rely on. *)
From S2P Require Import Prelude Words LockWord Machine Tx Ctl CtlHist CtlInv.
From Stdlib Require Import FunctionalExtensionality.
Import WriteBack.

Section Step.

Variable m0 : mem.
Variable progs : list (list (option stm_tx_attr * txbody)).
Local Abbreviation Inv := (Inv m0 progs).

Definition guar (i : nat) (s s' : st) : Prop :=
  Inv s' /\ forall j, j <> i -> rely j s s'.

(** ** What keeps a stripe as it is *)

Lemma stripe_ok_keep s s' k :
  held s'.2 k = held s.2 k -> ver s'.2 k = ver s.2 k ->
  cell s'.1 (Lock k) = cell s.1 (Lock k) ->
  (forall a, GET_LOCK a = k -> cell s'.1 (Word a) = cell s.1 (Word a)) ->
  (forall i, held s.2 k = Some i -> extra s'.1 i = extra s.1 i) ->
  hist_le (hist s.2) (hist s'.2) ->
  (forall j, (now s <= j)%nat -> touch (hist s'.2) j k -> held s.2 k <> None) ->
  stripe_ok m0 s k -> stripe_ok m0 s' k.
Proof.
  intros Hh Hv Hl Hw Hx Hle Hnew Hok. unfold stripe_ok in *. rewrite Hh.
  pose proof (hist_le_length _ _ Hle) as Hlen.
  assert (Hold : forall j, held s.2 k = None -> touch (hist s'.2) j k -> (j < now s)%nat).
  { intros j Hn Ht. destruct (decide (j < now s)%nat) as [|Hge]; [done|].
    destruct (Hnew j); [lia|done|done]. }
  destruct (held s.2 k) as [i|] eqn:Hk.
  - destruct Hok as [(p & ? & ? & ?) Hn Hp Hm]. constructor; rewrite ?Hv.
    + exists p. by rewrite Hl, (Hx i).
    + unfold now in *. lia.
    + intros j Hj. destruct (decide (j < now s)%nat); [|lia].
      apply Hp. by eapply pend_le.
    + destruct Hm as [Hm|(t & ? & ?)]; [|right; exists t; split; [done|by eapply wrote_le]].
      left. intros a Ha. rewrite Hw, Hm by done. symmetry.
      apply mem_at_fixed; [done..|]. intros j sl sl' Hj Hsl Hsl' Ht.
      destruct (Hle j sl Hsl) as (sl2 & ? & Hs). simplify_eq.
      eapply slot_le_settled; [done..|]. intros Hpe. specialize (Hp _ Hpe). lia.
  - destruct Hok as (v & [Hve Hlo Hn Ht Hp Hm]). exists v.
    assert (Hnt : no_touch (hist s'.2) k v (now s')).
    { intros j Hj Htj. pose proof (Hold j eq_refl Htj). apply (Ht j); [lia|].
      by eapply touch_le. }
    constructor; [congruence|congruence|unfold now in *; lia|done|..].
    + intros j Hj. pose proof (Hold j eq_refl (pend_touch _ _ _ Hj)).
      apply (Hp j). by eapply pend_le.
    + intros a Ha. rewrite Hw, Hm by done. unfold at_now.
      rewrite (mem_at_no_touch _ _ v (now s')), (mem_at_no_touch _ _ v (now s));
        [|by rewrite Ha|done|by rewrite Ha|unfold now in *; lia].
      symmetry. apply mem_at_settled; [done..|]. intros j Hj. rewrite Ha. apply Hp.
Qed.

Lemma touch_now s j k : (now s <= j)%nat -> ~ touch (hist s.2) j k.
Proof. intros Hj (sl & Hsl & _). apply lookup_lt_Some in Hsl. unfold now in Hj. lia. Qed.

(** ** Cells the invariant does not mention *)

Definition shared_cell (l : loc) : Prop :=
  match l with Lock _ | Word _ | Clock => True | _ => False end.

Lemma same_shared (s s' : stm_state) g :
  extra s' = extra s -> (forall l, shared_cell l -> cell s' l = cell s l) ->
  Inv (s, g) -> Inv (s', g) /\ forall j, rely j (s, g) (s', g).
Proof.
  intros Hx Hc [Hclk Hst Hb Hd Hh Hp Hl]. split.
  - constructor; simpl in *; try done; try by rewrite Hx.
    + by rewrite Hc.
    + intros k. apply (stripe_ok_keep (s, g)); simpl;
        [done|done|by apply Hc|intros; by apply Hc|by rewrite Hx|apply hist_le_refl| |done].
      intros j Hj Ht. by apply (touch_now (s, g)) in Ht.
  - intros j. destruct (rely_refl j (s, g)).
    constructor; simpl in *; try done; intros; by rewrite ?Hc, ?Hx.
Qed.

Lemma guar_ctl i s g l v :
  ~ shared_cell l -> Inv (s, g) -> guar i (s, g) (set_cell s l v, g).
Proof.
  intros Hl HI. destruct (same_shared s (set_cell s l v) g) as [? ?]; [done| |done|].
  - intros l' Hl'. simpl. apply upd_other. by intros ->.
  - by split.
Qed.

Lemma env_step s g s' :
  env_spec s s' -> Inv (s, g) -> exists g', Inv (s', g') /\ forall i, rely i (s, g) (s', g').
Proof.
  intros [Hx Hc] HI. exists g. apply same_shared; [done| |done].
  intros l Hl. apply Hc. destruct l; simpl in *; tauto.
Qed.

(** ** The write-set array *)

Lemma set_array_same x i b : set_array x i b i = b.
Proof. unfold set_array. by rewrite decide_True. Qed.

Lemma set_array_other x i b j : j <> i -> set_array x i b j = x j.
Proof. intros. unfold set_array. by rewrite decide_False. Qed.

Lemma apart_sym b1 b2 : apart b1 b2 -> apart b2 b1.
Proof. unfold apart. tauto. Qed.

Lemma guar_array i s g b :
  (forall k, held g k <> Some i) -> 0 <= b.1 -> 0 <= b.2 -> b.1 + b.2 <= 2 ^ 47 ->
  block_free (extra s) i b ->
  Inv (s, g) -> guar i (s, g) (mk_state (cell s) (set_array (extra s) i b), g).
Proof.
  intros Hno Hb1 Hb2 Hb3 Hfree HI. destruct HI as [Hclk Hst Hb Hd Hh Hp Hl]. split.
  - constructor; try done; simpl in *.
    + intros k. apply (stripe_ok_keep (s, g)); simpl;
        [done|done|done|done| |apply hist_le_refl| |done].
      * intros j Hj. rewrite set_array_other; [done|]. intros ->. by apply (Hno k).
      * intros j Hj Ht. by apply (touch_now (s, g)) in Ht.
    + intros j. destruct (decide (j = i)) as [->|].
      * rewrite set_array_same. done.
      * by rewrite set_array_other.
    + intros j1 j2 Hj. destruct (decide (j1 = i)) as [->|], (decide (j2 = i)) as [->|];
        rewrite ?set_array_same, ?set_array_other by done; auto using apart_sym; done.
  - intros j Hj. destruct (rely_refl j (s, g)). constructor; try done.
    simpl. by apply set_array_other.
Qed.

(** ** Locking, writing, unlocking *)

Definition set_ver (f : Z -> nat) (k : Z) (v : nat) : Z -> nat :=
  fun k' => if decide (k' = k) then v else f k'.

Lemma set_held_same f k o : set_held f k o k = o.
Proof. unfold set_held. by rewrite decide_True. Qed.

Lemma set_held_other f k o k' : k' <> k -> set_held f k o k' = f k'.
Proof. intros. unfold set_held. by rewrite decide_False. Qed.

Lemma set_ver_same f k v : set_ver f k v k = v.
Proof. unfold set_ver. by rewrite decide_True. Qed.

Lemma set_ver_other f k v k' : k' <> k -> set_ver f k v k' = f k'.
Proof. intros. unfold set_ver. by rewrite decide_False. Qed.

Lemma set_held_iff i j k o f :
  j <> i -> (o = None \/ o = Some i) -> (f k = None \/ f k = Some i) ->
  forall k', f k' = Some j <-> set_held f k o k' = Some j.
Proof.
  intros Hj Ho Hf k'. destruct (decide (k' = k)) as [->|].
  - rewrite set_held_same. destruct Ho, Hf; split; congruence.
  - by rewrite set_held_other.
Qed.

(** The ghost state when only stripe [k] changes hands *)
Definition set_stripe (g : ghost) (k : Z) (o : option nat) (v : nat) : ghost :=
  mk_ghost (hist g) (ros g) (set_held (held g) k o) (set_ver (ver g) k v).

(** A step at stripe [k], free or held by [i], that leaves the other stripes
    alone. *)
Lemma guar_stripe i (s s' : stm_state) g k o v :
  (held g k = None \/ held g k = Some i) -> (o = None \/ o = Some i) ->
  (ver g k <= v)%nat -> extra s' = extra s ->
  (forall k', k' <> k -> cell s' (Lock k') = cell s (Lock k')) ->
  (forall a, GET_LOCK a <> k -> cell s' (Word a) = cell s (Word a)) ->
  cell s' Clock = cell s Clock ->
  stripe_ok m0 (s', set_stripe g k o v) k ->
  Inv (s, g) -> guar i (s, g) (s', set_stripe g k o v).
Proof.
  intros Hk Ho Hv Hx Hlk Hwd Hck Hok HI. destruct HI as [Hclk Hst Hb Hd Hh Hp Hl]. split.
  - constructor; simpl in *; try done; try by rewrite Hx.
    + by rewrite Hck.
    + intros k'. destruct (decide (k' = k)) as [->|Hne]; [done|].
      apply (stripe_ok_keep (s, g)); simpl;
        [by apply set_held_other|by apply set_ver_other|by apply Hlk| |by rewrite Hx
        |apply hist_le_refl| |done].
      * intros a Ha. apply Hwd. congruence.
      * intros j Hj Ht. by apply (touch_now (s, g)) in Ht.
  - intros j Hj. destruct (rely_refl j (s, g)). constructor; simpl in *; try done.
    + by apply (set_held_iff i).
    + intros k'. destruct (decide (k' = k)) as [->|Hne].
      * rewrite set_ver_same. split; [done|]. intros Hk'. destruct Hk; congruence.
      * by rewrite set_ver_other.
    + intros k' Hk'. apply Hlk. intros ->. destruct Hk; congruence.
    + intros a Ha. apply Hwd. intros <-. destruct Hk; congruence.
    + by rewrite Hx.
Qed.

Lemma guar_lock i s g k p :
  held g k = None -> p mod 2 = 0 -> (extra s i).1 <= p < (extra s i).1 + (extra s i).2 ->
  Inv (s, g) ->
  guar i (s, g) (set_cell s (Lock k) (p + 1), set_stripe g k (Some i) (ver g k)).
Proof.
  intros Hk Hp Hr HI. apply guar_stripe; simpl; auto.
  - intros k' Hne. apply upd_other. congruence.
  - pose proof (inv_stripes _ _ _ HI k) as Hst.
    unfold stripe_ok in *. simpl in *. rewrite set_held_same. rewrite Hk in Hst.
    destruct Hst as (v & [Hv ? Hn Ht Hpe Hm]). simpl in *.
    constructor; simpl; rewrite ?set_ver_same, ?Hv; simpl.
    + exists p. by rewrite upd_same.
    + done.
    + intros j Hj. by destruct (Hpe j).
    + left. intros a Ha. rewrite upd_other, Hm by done. apply mem_at_no_touch; [by rewrite Ha|done].
Qed.

Lemma set_stripe_id g k : set_stripe g k (held g k) (ver g k) = g.
Proof.
  destruct g as [h r f w]. unfold set_stripe. simpl. f_equal;
    apply functional_extensionality; intros k'; [unfold set_held|unfold set_ver];
    case_decide; by subst.
Qed.

(** Words are only written under the lock of a committed transaction. *)
Lemma guar_word i s g a v t :
  held g (GET_LOCK a) = Some i -> (ver g (GET_LOCK a) <= t)%nat ->
  wrote (hist g) t (GET_LOCK a) ->
  Inv (s, g) -> guar i (s, g) (set_cell s (Word a) v, g).
Proof.
  intros Hk Hv Ht HI.
  pose proof (guar_stripe i s (set_cell s (Word a) v) g (GET_LOCK a)
    (held g (GET_LOCK a)) (ver g (GET_LOCK a))) as Hg.
  rewrite set_stripe_id in Hg. apply Hg; simpl; auto.
  - intros a' Ha. apply upd_other. congruence.
  - pose proof (inv_stripes _ _ _ HI (GET_LOCK a)) as Hst.
    unfold stripe_ok in *. simpl in *. rewrite Hk in *. destruct Hst as [? ? ? ?].
    constructor; simpl in *; try done. right. eauto.
Qed.

Lemma guar_unlock i s g k v :
  held g k = Some i -> (ver g k <= v)%nat -> (v <= length (hist g))%nat ->
  no_touch (hist g) k v (length (hist g)) -> (forall j, ~ pend (hist g) j k) ->
  (forall a, GET_LOCK a = k -> cell s (Word a) = mem_at m0 (hist g) v a) ->
  Inv (s, g) ->
  guar i (s, g) (set_cell s (Lock k) (2 * Z.of_nat v), set_stripe g k None v).
Proof.
  intros Hk Hle Hv Hn Hp Hm HI. apply guar_stripe; simpl; auto.
  - intros k' Hne. apply upd_other. congruence.
  - unfold stripe_ok. simpl. rewrite set_held_same. exists v. constructor; simpl; auto.
    + apply set_ver_same.
    + apply upd_same.
    + intros a Ha. rewrite upd_other by done. rewrite Hm by done. unfold at_now, now. simpl.
      symmetry. apply mem_at_no_touch; [by rewrite Ha|done].
Qed.

(** ** Taking a timestamp *)

(** The clock passes [VERSION_MAX] by at most the number of threads. *)
Lemma clock_bound s : Inv s -> (now s <= vmax + length progs)%nat.
Proof.
  intros HI. pose proof (inv_late _ _ _ HI) as Hnd.
  assert (Hlen : (length ((fun sl => rc_tid (sl_rec sl)) <$> drop vmax (hist s.2))
                  <= length (seq 0 (length progs)))%nat).
  { apply submseteq_length, NoDup_submseteq; [done|]. intros j Hj.
    apply list_elem_of_fmap in Hj as (sl & -> & Hsl).
    apply list_elem_of_lookup in Hsl as (k & Hk). rewrite lookup_drop in Hk.
    destruct (inv_progs _ _ _ HI) as [Hp _].
    destruct (Forall_lookup_1 _ _ _ _ Hp Hk) as (l & a & Hl & _).
    apply elem_of_seq. split; [lia|]. by apply lookup_lt_Some in Hl. }
  rewrite length_fmap, length_drop, length_seq in Hlen. unfold now. lia.
Qed.

Lemma late_resolve h k sl sl' :
  h !! k = Some sl -> sl_rec sl' = sl_rec sl ->
  (fun sl => rc_tid (sl_rec sl)) <$> drop vmax (<[k := sl']> h)
  = (fun sl => rc_tid (sl_rec sl)) <$> drop vmax h.
Proof.
  intros Hk Hr. rewrite !fmap_drop, list_fmap_insert, Hr. f_equal.
  apply list_insert_id. by rewrite list_lookup_fmap, Hk.
Qed.

Lemma hist_ok_le h h' ros :
  hist_le h h' ->
  (forall k sl, h' !! k = Some sl -> sl_state sl = Committed ->
     h !! k = Some sl \/ slot_ok m0 h' k sl) ->
  Forall (fun sl => Forall write_ok (sl_ws sl)) h' ->
  hist_ok m0 h ros -> hist_ok m0 h' ros.
Proof.
  intros Hle Hnew Hw (Hh & Hr & _ & Hm). split_and!; try done.
  - intros k sl Hk Hc. destruct (Hnew k sl Hk Hc) as [Hk'|Hok]; [|by apply Hok].
    destruct (Hh k sl Hk' Hc) as [? ?]. split; [|done].
    apply (reads_at_le _ h); [done| |done]. apply lookup_lt_Some in Hk'. lia.
  - eapply Forall_impl; [|exact Hr]. intros [[n c] log] (? & ? & ?).
    pose proof (hist_le_length _ _ Hle). split_and!; [lia| |done].
    by apply (reads_at_le _ h).
Qed.

Lemma at_now_snoc h sl : sl_state sl = Pending -> mem_at m0 (h ++ [sl]) (length (h ++ [sl])) = mem_at m0 h (length h).
Proof.
  intros Hp. rewrite length_app, Nat.add_1_r. rewrite (mem_at_S _ _ _ sl) by apply lookup_last_app.
  unfold step. rewrite Hp. simpl. unfold mem_at. by rewrite take_app_length, take_ge.
Qed.

Lemma guar_timestamp i s g sl :
  rc_tid (sl_rec sl) = i -> sl_state sl = Pending -> Forall write_ok (sl_ws sl) ->
  in_progs progs (sl_rec sl) ->
  (forall k, touches (sl_ws sl) k -> held g k = Some i) ->
  Forall (fun sl' => rc_tid (sl_rec sl') <> i) (drop vmax (hist g)) ->
  Inv (s, g) ->
  guar i (s, g)
    (set_cell s Clock (Z.of_nat (S (length (hist g)))),
     mk_ghost (hist g ++ [sl]) (ros g) (held g) (ver g)).
Proof.
  intros Hi Hp Hw Hin Hheld Hlate HI. destruct HI as [Hclk Hst Hb Hd Hh Hpr Hl].
  pose proof (hist_le_app (hist g) [sl]) as Hle.
  assert (Hnew : forall k j, touch (hist g ++ [sl]) j k -> held g k <> Some i -> touch (hist g) j k).
  { intros k j (sl' & Hsl' & Hn & Ht) Hne. exists sl'. split_and!; try done.
    destruct (decide (j < length (hist g))%nat); [by rewrite lookup_app_l in Hsl'|].
    rewrite lookup_app_r in Hsl' by lia. apply list_lookup_singleton_Some in Hsl' as [_ <-].
    destruct Hne. auto. }
  assert (Hros : Forall (fun r => (r.1.1 <= length (hist g))%nat) (ros g)).
  { destruct Hh as (_ & Hr & _). eapply Forall_impl; [|exact Hr]. by intros [[n c] log] (? & _). }
  split.
  - constructor; simpl in *; try done.
    + rewrite upd_same. unfold now. simpl. rewrite length_app. simpl. lia.
    + intros k. apply (stripe_ok_keep (s, g)); simpl; [done..|exact Hle| |done].
      intros j Hj Ht Hk. eapply (touch_now (s, g)); [exact Hj|]. apply Hnew; [done|congruence].
    + eapply (hist_ok_le (hist g)); [done| | |done].
      * intros k sl' Hk Hc. left. destruct (decide (k < length (hist g))%nat) as [Hk'|].
        { by rewrite lookup_app_l in Hk. }
        rewrite lookup_app_r in Hk by lia. apply list_lookup_singleton_Some in Hk as [_ <-].
        congruence.
      * apply list.Forall_app. split; [apply Hh|]. by constructor.
    + split; [|apply Hpr]. apply list.Forall_app. split; [apply Hpr|]. by constructor.
    + destruct (decide (vmax <= length (hist g))%nat) as [Hv|Hv].
      * rewrite drop_app_le, fmap_app by done. simpl. apply list.NoDup_app. split_and!; [done| |].
        { intros j Hj Hj2. apply list_elem_of_singleton in Hj2. subst j.
          apply list_elem_of_fmap in Hj as (sl' & Heq & Hsl').
          rewrite list.Forall_forall in Hlate. destruct (Hlate sl' Hsl'). congruence. }
        { apply NoDup_singleton. }
      * rewrite drop_ge; [constructor|]. rewrite length_app. simpl. lia.
  - intros j Hj. constructor; simpl; try done.
    + intros k sl' Hk _. rewrite lookup_app_l; [done|]. by eapply lookup_lt_Some.
    + intros k sl' Hk Hk'. unfold now in Hk. simpl in Hk. rewrite lookup_app_r in Hk' by done.
      apply list_lookup_singleton_Some in Hk' as [_ <-]. congruence.
    + intros k j' Hk Ht. apply (Hnew k j' Ht). congruence.
    + unfold horder. simpl. by rewrite order_pending.
Qed.

(** ** Resolving a timestamp *)

Lemma touch_insert h n sl sl' k j :
  h !! n = Some sl -> sl_ws sl' = sl_ws sl -> sl_state sl = Pending ->
  touch (<[n := sl']> h) j k -> touch h j k.
Proof.
  intros Hn Hw Hp (sl2 & Hsl2 & Hs & Ht). destruct (decide (j = n)) as [->|].
  - rewrite list_lookup_insert_eq in Hsl2 by by eapply lookup_lt_Some. simplify_eq.
    exists sl. split_and!; [done|by rewrite Hp|by rewrite <- Hw].
  - rewrite list_lookup_insert_ne in Hsl2 by done. by exists sl2.
Qed.

Lemma guar_resolve i s g n sl st :
  rc_tid (sl_rec sl) = i -> hist g !! n = Some sl -> sl_state sl = Pending -> st <> Pending ->
  (st = Committed -> slot_ok m0 (hist g) n (resolve st sl)) ->
  Inv (s, g) ->
  guar i (s, g) (s, mk_ghost (<[n := resolve st sl]> (hist g)) (ros g) (held g) (ver g)).
Proof.
  intros Hi Hn Hp Hs Hok HI. destruct HI as [Hclk Hst Hb Hd Hh Hpr Hl].
  assert (Hsl : slot_le sl (resolve st sl)) by by right.
  pose proof (hist_le_insert _ _ _ _ Hn Hsl) as Hle.
  assert (Hlt := lookup_lt_Some _ _ _ Hn).
  assert (Hwok : Forall (fun sl => Forall write_ok (sl_ws sl)) (<[n:=resolve st sl]> (hist g))).
  { apply Forall_insert; [apply Hh|]. simpl. destruct Hh as (_ & _ & Hw & _).
    exact (Forall_lookup_1 _ _ _ _ Hw Hn). }
  split.
  - constructor; simpl in *; unfold now in *; simpl in *; rewrite ?length_insert; try done.
    + intros k. apply (stripe_ok_keep (s, g)); simpl; [done..|exact Hle| |done].
      intros j Hj Ht. apply (touch_insert _ n sl) in Ht; [|done..].
      by apply (touch_now (s, g)) in Ht.
    + eapply (hist_ok_le (hist g)); [done| |done|done].
      intros k sl' Hk Hc. destruct (decide (k = n)) as [->|].
      * rewrite list_lookup_insert_eq in Hk by done. simplify_eq. right.
        destruct (Hok Hc Hc) as [Hr Hrep]. split; [|done].
        apply (reads_at_le _ (hist g)); [done|lia|done].
      * rewrite list_lookup_insert_ne in Hk by done. by left.
    + split; [|apply Hpr]. apply Forall_insert; [apply Hpr|]. simpl.
      destruct Hpr as [Hpr _]. exact (Forall_lookup_1 _ _ _ _ Hpr Hn).
    + by rewrite (late_resolve _ _ sl).
  - intros j Hj. constructor; simpl; try done.
    + intros k sl' Hk Hi'. rewrite list_lookup_insert_ne; [done|]. intros ->. congruence.
    + intros k sl' Hk Hk'. apply lookup_lt_Some in Hk'. rewrite length_insert in Hk'.
      unfold now in Hk. simpl in Hk. lia.
    + intros k j' _ Ht. by apply (touch_insert _ n sl) in Ht.
    + unfold horder. simpl.
      destruct (order_resolve (hist g) n sl st (ros g) Hn Hp Hs) as (l1 & l2 & -> & -> & _).
      rewrite !mine_app, writer_other; [done|]. simpl. congruence.
Qed.

(** The transaction enters the serial order of its thread at the end. *)
Lemma mine_resolve i g n sl :
  rc_tid (sl_rec sl) = i -> hist g !! n = Some sl -> sl_state sl = Pending ->
  absent i (S n) (drop (S n) (hist g)) (ros g) ->
  mine i (order (<[n := resolve Committed sl]> (hist g)) (ros g))
  = mine i (order (hist g) (ros g)) ++ [sl_rec sl].
Proof.
  intros Hi Hn Hp Ha.
  destruct (order_resolve (hist g) n sl Committed (ros g) Hn Hp) as (l1 & l2 & -> & -> & Hl2);
    [done|].
  rewrite !mine_app, (Hl2 i Ha), !app_nil_r. unfold writer. simpl.
  by rewrite <- Hi, mine_cons_eq.
Qed.

Lemma mine_void i g n sl :
  hist g !! n = Some sl -> sl_state sl = Pending ->
  mine i (order (<[n := resolve Void sl]> (hist g)) (ros g)) = mine i (order (hist g) (ros g)).
Proof.
  intros Hn Hp. destruct (order_resolve (hist g) n sl Void (ros g) Hn Hp) as (l1 & l2 & -> & -> & _);
    [done|]. done.
Qed.

(** ** A commit without writes *)

Lemma guar_ro i s g c log d :
  rc_tid c = i -> in_progs progs c -> ro_ok m0 (hist g) (d, c, log) ->
  Inv (s, g) ->
  guar i (s, g) (s, mk_ghost (hist g) (ros g ++ [(d, c, log)]) (held g) (ver g)).
Proof.
  intros Hi Hin Hok HI. destruct HI as [Hclk Hst Hb Hd Hh Hpr Hl]. split.
  - constructor; simpl in *; try done.
    + intros k. apply (stripe_ok_keep (s, g)); simpl; [done..|apply hist_le_refl| |done].
      intros j Hj Ht. by apply (touch_now (s, g)) in Ht.
    + destruct Hh as (? & ? & ? & ?). split_and!; try done.
      apply list.Forall_app. split; [done|]. by constructor.
    + split; [apply Hpr|]. apply list.Forall_app. split; [apply Hpr|]. by constructor.
  - intros j Hj. destruct (rely_refl j (s, g)). constructor; simpl; try done.
    + intros r Hr Hrj. apply elem_of_app in Hr as [|Hr]; [done|].
      apply list_elem_of_singleton in Hr. subst r. simpl in *. congruence.
    + unfold horder. simpl. destruct Hok as [Hd' _].
      destruct (order_ro (hist g) (ros g) d c log Hd') as (l1 & l2 & -> & -> & _).
      simpl. rewrite !mine_app, mine_cons_ne; [done|congruence].
Qed.

Lemma mine_ro i g c log d :
  rc_tid c = i -> (d <= length (hist g))%nat ->
  absent i (S d) (drop d (hist g)) (ros g) ->
  mine i (order (hist g) (ros g ++ [(d, c, log)])) = mine i (order (hist g) (ros g)) ++ [c].
Proof.
  intros Hi Hd Ha. destruct (order_ro (hist g) (ros g) d c log Hd) as (l1 & l2 & -> & -> & Hl2).
  rewrite !mine_app, (Hl2 i Ha), !app_nil_r. by rewrite <- Hi, mine_cons_eq.
Qed.

End Step.
