(* ===== verification/CtlLogic.v ===== *)
(** * Reasoning about the code of a transaction

    [wpM] is [wp] of Machine.v for the monad of Tx.v, with its rules; then the
    assertions that describe a thread between and inside transactions, each
    with its stability. *)
From S2P Require Import Prelude Words LockWord Machine Tx Ctl CtlHist CtlInv CtlStep.
Import WriteBack.

(** ** Rules of the monad *)

Section Rules.

Variable m0 : mem.
Variable progs : list (list (option stm_tx_attr * txbody)).
Variable ext_step : nat -> ext -> arrays -> Z -> arrays -> Prop.

Local Abbreviation Inv := (Inv m0 progs).
Local Abbreviation WP := (wp ext_step Inv rely).
Local Abbreviation Stable := (stable Inv rely).
Local Abbreviation guar := (guar m0 progs).

Definition wpM {A} (i : nat) (m : M A) (tx : stm_tx)
    (Q : outcome A -> stm_tx -> st -> Prop) (s : st) : Prop :=
  WP i (m tx) (fun '(o, tx') => Q o tx') s.

Lemma wpM_mono {A} i (m : M A) tx (Q Q' : outcome A -> stm_tx -> st -> Prop) s :
  (forall o tx' s', Inv s' -> Q o tx' s' -> Q' o tx' s') ->
  wpM i m tx Q s -> wpM i m tx Q' s.
Proof. intros HQ. apply wp_mono. intros [o tx'] s'. apply HQ. Qed.

Lemma wpM_frame {A} i (m : M A) tx (P : st -> Prop) Q s :
  (forall j, Stable j P) -> P s -> wpM i m tx Q s ->
  wpM i m tx (fun o tx' s' => Q o tx' s' /\ P s') s.
Proof.
  intros HP Hs Hm. eapply wp_mono; [|eapply wp_frame; [exact HP|exact Hs|exact Hm]].
  by intros [o tx'] s' HI [? ?].
Qed.

Lemma wpM_ret {A} i (a : A) tx Q s :
  Stable i (Q (Ok a) tx) -> Q (Ok a) tx s -> wpM i (ret a) tx Q s.
Proof. intros HS HQ. exact (gupd_intro rely_refl s HS HQ). Qed.

Lemma wpM_longjmp {A} i r tx (Q : outcome A -> _) s :
  Stable i (Q (Jump r) tx) -> Q (Jump r) tx s -> wpM i (longjmp r) tx Q s.
Proof. intros HS HQ. exact (gupd_intro rely_refl s HS HQ). Qed.

Lemma wpM_stop {A} i h tx (Q : outcome A -> _) s :
  Stable i (Q (Halt h) tx) -> Q (Halt h) tx s -> wpM i (stop h) tx Q s.
Proof. intros HS HQ. exact (gupd_intro rely_refl s HS HQ). Qed.

Lemma wpM_rely {A} i (m : M A) tx Q s s' :
  wpM i m tx Q s -> rely i s s' -> Inv s' -> wpM i m tx Q s'.
Proof. intros. eapply wp_stable; eauto using rely_trans. Qed.

Lemma wpM_gupd {A} i (m : M A) tx Q s :
  gupd Inv rely i (wpM i m tx Q) s -> wpM i m tx Q s.
Proof. apply wp_gupd; [apply rely_refl|apply rely_trans]. Qed.

Lemma wpM_inv {A} i (m : M A) tx (P : st -> Prop) Q s :
  Stable i P -> P s -> (forall s1, P s1 -> Inv s1 -> wpM i m tx Q s1) -> wpM i m tx Q s.
Proof.
  intros HP Hs Hm. apply wpM_gupd. intros [s1 g1] Hr HI. exists g1.
  split_and!; [done| |apply Hm; [by eapply HP|done]]. intros. apply rely_refl.
Qed.

Lemma wpM_ghost {A} i (m : M A) tx (P : st -> Prop) Q s :
  Stable i P -> P s ->
  (forall s1, P s1 -> Inv s1 ->
     exists g', guar i s1 (s1.1, g') /\ wpM i m tx Q (s1.1, g')) ->
  wpM i m tx Q s.
Proof.
  intros HP Hs Hm. apply wpM_gupd. intros s1 Hr HI.
  destruct (Hm s1) as (g' & [? ?] & ?); [by eapply HP|done|]. by exists g'.
Qed.

Lemma wpM_bind {A B} i (m : M A) (f : A -> M B) tx (Q : outcome B -> stm_tx -> st -> Prop) s :
  (forall r tx', Stable i (Q (Jump r) tx')) -> (forall h tx', Stable i (Q (Halt h) tx')) ->
  wpM i m tx (fun o tx' s' =>
    match o with
    | Ok a => wpM i (f a) tx' Q s'
    | Jump r => Q (Jump r) tx' s'
    | Halt h => Q (Halt h) tx' s'
    end) s ->
  wpM i (bind m f) tx Q s.
Proof.
  intros HJ HH Hm. apply wp_bind; [apply rely_refl|apply rely_trans|].
  eapply wp_mono; [|exact Hm]. intros [[a|r|h] tx'] s' HI HQ; [done|..].
  - exact (gupd_intro rely_refl s' (HJ r tx') HQ).
  - exact (gupd_intro rely_refl s' (HH h tx') HQ).
Qed.

Lemma wpM_catch {A} i (m : M A) (f : Z -> M A) tx (Q : outcome A -> stm_tx -> st -> Prop) s :
  (forall a tx', Stable i (Q (Ok a) tx')) -> (forall h tx', Stable i (Q (Halt h) tx')) ->
  wpM i m tx (fun o tx' s' =>
    match o with
    | Ok a => Q (Ok a) tx' s'
    | Jump r => wpM i (f r) tx' Q s'
    | Halt h => Q (Halt h) tx' s'
    end) s ->
  wpM i (catch m f) tx Q s.
Proof.
  intros HJ HH Hm. apply wp_bind; [apply rely_refl|apply rely_trans|].
  eapply wp_mono; [|exact Hm]. intros [[a|r|h] tx'] s' HI HQ; [|done|].
  - exact (gupd_intro rely_refl s' (HJ a tx') HQ).
  - exact (gupd_intro rely_refl s' (HH h tx') HQ).
Qed.

(** Steps on the descriptor *)
Lemma wpM_get {B} i (f : stm_tx -> M B) tx Q s :
  wpM i (f tx) tx Q s -> wpM i (bind get f) tx Q s.
Proof. done. Qed.

Lemma wpM_modify {B} i g (f : unit -> M B) tx Q s :
  wpM i (f tt) (g tx) Q s -> wpM i (bind (modify g) f) tx Q s.
Proof. done. Qed.

Lemma wpM_assert {B} i b (f : unit -> M B) tx Q s :
  b = true -> wpM i (f tt) tx Q s -> wpM i (bind (assert b) f) tx Q s.
Proof. by intros ->. Qed.

Lemma wpM_assoc {A B D} i (m : M A) (f : A -> M B) (g : B -> M D) tx Q s :
  wpM i (bind m (fun a => bind (f a) g)) tx Q s -> wpM i (bind (bind m f) g) tx Q s.
Proof.
  unfold wpM, bind. intros H.
  assert (Hp : forall (p : prog loc ext (outcome A * stm_tx)) s,
    WP i (prog_bind p (fun '(o, tx') =>
        match o with
        | Ok a => prog_bind (f a tx') (fun '(o, tx') =>
            match o with Ok b => g b tx' | Jump r => Ret (Jump r, tx') | Halt h => Ret (Halt h, tx') end)
        | Jump r => Ret (Jump r, tx')
        | Halt h => Ret (Halt h, tx')
        end)) (fun '(o, tx') => Q o tx') s ->
    WP i (prog_bind (prog_bind p (fun '(o, tx') =>
        match o with Ok a => f a tx' | Jump r => Ret (Jump r, tx') | Halt h => Ret (Halt h, tx') end))
      (fun '(o, tx') =>
        match o with Ok b => g b tx' | Jump r => Ret (Jump r, tx') | Halt h => Ret (Halt h, tx') end))
      (fun '(o, tx') => Q o tx') s); [|by apply Hp].
  clear H. intros p. induction p as [[[a|r|h] tx']|a k IH]; intros s'; simpl; [done..|].
  intros Hw s1 Hr HI r s2 Hs. destruct (Hw s1 Hr HI r s2 Hs) as (g' & ? & ? & ?).
  exists g'. auto.
Qed.

(** Actions *)
Lemma wpM_load {B} i l (f : Z -> M B) tx (P : st -> Prop) Q s :
  Stable i P -> P s ->
  (forall s1, P s1 -> Inv s1 -> wpM i (f (cell s1.1 l)) tx Q s1) ->
  wpM i (bind (load l) f) tx Q s.
Proof.
  intros HP Hs Hk. eapply (wp_do _ (P := P)); [done..|].
  intros [c g] HPs HI r s' Hact. inversion Hact; subst. exists g. split_and!; [done| |].
  - intros. apply rely_refl.
  - by apply (Hk (c, g)).
Qed.

Lemma wpM_store {B} i l v (f : unit -> M B) tx (P : st -> Prop) Q s :
  Stable i P -> P s ->
  (forall s1, P s1 -> Inv s1 ->
     exists g', guar i s1 (set_cell s1.1 l v, g') /\
                wpM i (f tt) tx Q (set_cell s1.1 l v, g')) ->
  wpM i (bind (store l v) f) tx Q s.
Proof.
  intros HP Hs Hk. eapply (wp_do _ (P := P)); [done..|].
  intros [c g] HPs HI r s' Hact. inversion Hact; subst.
  destruct (Hk (c, g) HPs HI) as (g' & [? ?] & ?). by exists g'.
Qed.

Lemma wpM_cas {B} i l e v (f : Z -> M B) tx (P : st -> Prop) Q s :
  Stable i P -> P s ->
  (forall s1, P s1 -> Inv s1 -> cell s1.1 l = e ->
     exists g', guar i s1 (set_cell s1.1 l v, g') /\
                wpM i (f 1) tx Q (set_cell s1.1 l v, g')) ->
  (forall s1, P s1 -> Inv s1 -> cell s1.1 l <> e -> wpM i (f 0) tx Q s1) ->
  wpM i (bind (cas l e v) f) tx Q s.
Proof.
  intros HP Hs Hk Hf. eapply (wp_do _ (P := P)); [done..|].
  intros [c g] HPs HI r s' Hact. inversion Hact; subst.
  - destruct (Hk (c, g) HPs HI) as (g' & [? ?] & ?); [done|]. by exists g'.
  - exists g. split_and!; [done| |by apply (Hf (_, g))]. intros. apply rely_refl.
Qed.

Lemma wpM_fetch_inc {B} i l (f : Z -> M B) tx (P : st -> Prop) Q s :
  Stable i P -> P s ->
  (forall s1, P s1 -> Inv s1 ->
     exists g', guar i s1 (set_cell s1.1 l (w64 (cell s1.1 l + 1)), g') /\
                wpM i (f (cell s1.1 l)) tx Q (set_cell s1.1 l (w64 (cell s1.1 l + 1)), g')) ->
  wpM i (bind (act (Fetch_inc l)) f) tx Q s.
Proof.
  intros HP Hs Hk. eapply (wp_do _ (P := P)); [done..|].
  intros [c g] HPs HI r s' Hact. inversion Hact; subst.
  destruct (Hk (c, g) HPs HI) as (g' & [? ?] & ?). by exists g'.
Qed.

Lemma wpM_ext {B} i e (f : Z -> M B) tx (P : st -> Prop) Q s :
  Stable i P -> P s ->
  (forall s1 r x, P s1 -> Inv s1 -> ext_step i e (extra s1.1) r x ->
     exists g', guar i s1 (mk_state (cell s1.1) x, g') /\
                wpM i (f r) tx Q (mk_state (cell s1.1) x, g')) ->
  wpM i (bind (act (Ext e)) f) tx Q s.
Proof.
  intros HP Hs Hk. eapply (wp_do _ (P := P)); [done..|].
  intros [c g] HPs HI r s' Hact. inversion Hact; subst.
  destruct (Hk (c, g) r x HPs HI) as (g' & [? ?] & ?); [done|]. by exists g'.
Qed.

(** Stability of composite assertions *)
Lemma stable_and i P P' : Stable i P -> Stable i P' -> Stable i (fun s => P s /\ P' s).
Proof. intros HP HP' s s' [? ?] ? ?. split; eauto. Qed.

Lemma stable_pure i (P : Prop) : Stable i (fun _ => P).
Proof. by intros s s' ? ? ?. Qed.

Lemma stable_ex {T} i (P : T -> st -> Prop) :
  (forall x, Stable i (P x)) -> Stable i (fun s => exists x, P x s).
Proof. intros HP s s' [x ?] ? ?. exists x. by eapply HP. Qed.

End Rules.

Create HintDb stm discriminated.
#[export] Hint Resolve stable_and stable_pure stable_ex : stm.
