(* ===== verification/CtlAssert.v ===== *)
(** * Assertions about one thread

    What holds of a thread's descriptor, of the locks it holds and of the
    snapshot it reads, at each phase of a transaction of [Ctl.v], each stable
    under what the other threads do; and the reading of a lock word that the
    invariant gives. *)
From S2P Require Import Prelude Words LockWord Machine Tx Ctl CtlHist CtlInv CtlStep CtlLogic.
Import WriteBack.

(** ** The descriptor *)

Definition writes (ws : list w_entry) : list write :=
  (fun w => (w_addr w, w_value w, w_mask w)) <$> ws.

Definition w_ok (w : w_entry) : Prop :=
  is_word (w_value w) /\ is_word (w_mask w) /\ w_lock w = GET_LOCK (w_addr w).

Definition ws_ok (ws : list w_entry) : Prop := Forall w_ok ws /\ NoDup (w_addr <$> ws).

(** From here on the body does what [b0] does from the start, on any memory that
    has the values read, with the writes so far applied. *)
Definition body_at (b0 b : txbody) (log : list (Z * Z)) (ws : list w_entry) : Prop :=
  forall m, is_mem m -> agree m log -> seq_run b0 m = seq_run b (apply m (writes ws)).

Record tx_base (C : config) (i : nat) (tx : stm_tx) : Prop := {
  tb_self : self tx = i;
  tb_retry : must_retry tx = true;
  tb_attr : truth (ro tx) = true -> is_Some (attr tx);
  tb_ea : ea C = true -> truth (ro tx) = false;
  tb_rows : truth (ro tx) = true -> w_entries (wset tx) = [] }.

(** What a transaction that starts needs *)
Record tx_attrs (C : config) (i : nat) (tx : stm_tx) : Prop := {
  ta_self : self tx = i;
  ta_retry : must_retry tx = true;
  ta_attr : truth (ro tx) = true -> is_Some (attr tx);
  ta_ea : ea C = true -> truth (ro tx) = false }.

Lemma tx_base_attrs C i tx : tx_base C i tx -> tx_attrs C i tx.
Proof. by intros []. Qed.

Record tx_run (C : config) (i : nat) (tx : stm_tx) : Prop := {
  tr_base : tx_base C i tx;
  tr_nesting : nesting tx = 1 }.

Record own_array (i : nat) (tx : stm_tx) (s : st) : Prop := {
  oa_block : extra s.1 i = (w_base (wset tx), w_size (wset tx) * sizeof_w_entry);
  oa_base : 0 < w_base (wset tx);
  oa_align : w_base (wset tx) mod 16 = 0;
  oa_size : 0 < w_size (wset tx);
  oa_nb : w_nb tx <= w_size (wset tx) }.

Definition no_lock (i : nat) (s : st) : Prop := forall k, held s.2 k <> Some i.

(** ** The snapshot *)

(** The transaction started at timestamp [n], and its thread has done nothing
    since. *)
Record begun (i : nat) (tx : stm_tx) (n : nat) (s : st) : Prop := {
  bg_start : start tx = Z.of_nat n;
  bg_now : (n <= now s)%nat;
  bg_vmax : (n < vmax)%nat;
  bg_absent : absent i (S n) (drop n (hist s.2)) (ros s.2) }.

Section Snapshot.

Variable m0 : mem.

(** The value read at [a] is that of a version which was current up to [e] and
    is settled; an update transaction has it in its read set. *)
Definition read_ok (h : list slot) (tx : stm_tx) (e : nat) (r : Z * Z) : Prop :=
  let '(a, x) := r in
  exists v : nat, (v <= e)%nat /\ settled h (GET_LOCK a) v /\ no_touch h (GET_LOCK a) v e /\
    mem_at m0 h v a = x /\
    (truth (ro tx) = false -> mk_r_entry (Z.of_nat v) (GET_LOCK a) ∈ r_entries (rset tx)).

Definition entry_ok (h : list slot) (e : nat) (r : r_entry) : Prop :=
  exists v : nat, r_version r = Z.of_nat v /\ (v <= e)%nat /\ no_touch h (r_lock r) v e.

Record snapshot (tx : stm_tx) (log : list (Z * Z)) (e : nat) (s : st) : Prop := {
  sn_end : tx_end tx = Z.of_nat e;
  sn_now : (e <= now s)%nat;
  sn_reads : Forall (read_ok (hist s.2) tx e) log;
  sn_entries : Forall (entry_ok (hist s.2) e) (r_entries (rset tx)) }.

(** ** The locks a committing transaction holds *)

(** Stripe [k], locked at version [v]: nobody else has written it since, nor may;
    its words still have the values of that version.  [own] is the slot of the
    transaction's own timestamp, once taken. *)
Record pinned (k : Z) (v : nat) (own : option nat) (s : st) : Prop := {
  pn_ver : ver s.2 k = v;
  pn_now : (v <= now s)%nat;
  pn_pend : forall j, pend (hist s.2) j k -> own = Some j;
  pn_touch : forall j, (v <= j)%nat -> touch (hist s.2) j k -> own = Some j;
  pn_own : forall j, own = Some j -> (v <= j)%nat;
  pn_mem : forall a, GET_LOCK a = k -> cell s.1 (Word a) = mem_at m0 (hist s.2) v a }.

Record holds (i : nat) (tx : stm_tx) (own : option nat) (s : st) : Prop := {
  ho_of : forall k, held s.2 k = Some i ->
    exists j w v, w_entries (wset tx) !! j = Some w /\ w_lock w = k /\ w_no_drop w = 0 /\
      w_version w = Z.of_nat v /\ cell s.1 (Lock k) = w_ptr tx j + 1 /\ pinned k v own s;
  ho_by : forall j w, w_entries (wset tx) !! j = Some w -> w_no_drop w = 0 ->
    held s.2 (w_lock w) = Some i;
  ho_last : forall j j' w w', w_entries (wset tx) !! j = Some w ->
    w_entries (wset tx) !! j' = Some w' ->
    w_no_drop w = 0 -> w_lock w' = w_lock w -> (j' <= j)%nat;
  ho_bit : Forall (fun w => w_no_drop w = 0 \/ w_no_drop w = 1) (w_entries (wset tx));
  ho_count : nb_acquired (wset tx) =
    Z.of_nat (length (filter (fun w => w_no_drop w = 0) (w_entries (wset tx)))) }.

End Snapshot.

(** ** Phases *)

Section Phases.

Variable C : config.
Variable m0 : mem.
Variable progs : list (list (option stm_tx_attr * txbody)).
Local Abbreviation Inv := (Inv m0 progs).
Local Abbreviation Stable := (stable Inv rely).

(** Inside a transaction, before the commit *)
Record running (i : nat) (b0 b : txbody) (log : list (Z * Z)) (tx : stm_tx) (n e : nat)
    (s : st) : Prop := {
  rn_base : tx_run C i tx;
  rn_status : status tx = TX_ACTIVE;
  rn_array : own_array i tx s;
  rn_none : no_lock i s;
  rn_acquired : nb_acquired (wset tx) = 0;
  rn_drop : Forall (fun w => w_no_drop w = 1) (w_entries (wset tx));
  rn_ws : ws_ok (w_entries (wset tx));
  rn_begun : begun i tx n s;
  rn_le : (n <= e)%nat;
  rn_snap : snapshot m0 tx log e s;
  rn_body : body_at b0 b log (w_entries (wset tx)) }.

(** Ready to roll back *)
Record abortable (i : nat) (tx : stm_tx) (s : st) : Prop := {
  ab_base : tx_base C i tx;
  ab_status : status tx = TX_ACTIVE;
  ab_array : own_array i tx s;
  ab_holds : holds m0 i tx None s }.

(** Just before [stm_prepare] *)
Record ready (i : nat) (tx : stm_tx) (s : st) : Prop := {
  rd_base : tx_attrs C i tx;
  rd_nesting : nesting tx = 1;
  rd_status : IS_ACTIVE (status tx) = false;
  rd_array : own_array i tx s;
  rd_none : no_lock i s }.

(** ** Stability *)

Lemma own_array_stable i tx : Stable i (own_array i tx).
Proof. intros s s' [] Hr HI. constructor; try done. by rewrite (rl_array _ _ _ Hr). Qed.

Lemma no_lock_stable i : Stable i (no_lock i).
Proof. intros s s' Hn Hr HI k Hk. apply (Hn k). by apply (rl_held _ _ _ Hr). Qed.

Lemma mine_stable i l : Stable i (fun s => mine i (horder s) = l).
Proof. intros s s' Hm Hr HI. by rewrite (rl_mine _ _ _ Hr). Qed.

Lemma absent_stable i m n :
  Stable i (fun s => (n <= now s)%nat /\ absent i m (drop n (hist s.2)) (ros s.2)).
Proof.
  intros s s' [Hn [Hh Hros]] Hr HI. pose proof (rely_now _ _ _ Hr). split; [lia|]. split.
  - apply Forall_lookup_2. intros k sl Hk. rewrite lookup_drop in Hk.
    destruct (decide (n + k < now s)%nat) as [Hlt|]; [|eapply rl_new; [done| |done]; lia].
    destruct (lookup_lt_is_Some_2 (hist s.2) (n + k) Hlt) as [sl0 Hsl0].
    destruct (rl_hist _ _ _ Hr _ _ Hsl0) as (sl' & Hsl' & Hle). simplify_eq.
    assert (Hne : rc_tid (sl_rec sl0) <> i).
    { rewrite <- lookup_drop in Hsl0. exact (Forall_lookup_1 _ _ _ _ Hh Hsl0). }
    apply slot_le_rec in Hle. congruence.
  - rewrite list.Forall_forall in Hros |- *. intros [[k c] log] Hin Hc.
    apply (Hros (k, c, log)); [|done]. by eapply rl_ros.
Qed.

Lemma begun_stable i tx n : Stable i (begun i tx n).
Proof.
  intros s s' [? Hn ? Ha] Hr HI.
  destruct (absent_stable i (S n) n s s' (conj Hn Ha) Hr HI). by constructor.
Qed.

Lemma read_ok_le h h' tx e r :
  hist_le h h' -> (e <= length h)%nat -> read_ok m0 h tx e r -> read_ok m0 h' tx e r.
Proof.
  destruct r as [a x]. intros Hle He (v & Hv & Hs & Hn & Hm & Hin).
  exists v. split_and!; [done| | | |done].
  - eapply settled_le; [done|lia|done].
  - by eapply no_touch_le.
  - rewrite <- Hm. apply mem_at_settled; [done|lia|done].
Qed.

Lemma entry_ok_le h h' e r :
  hist_le h h' -> (e <= length h)%nat -> entry_ok h e r -> entry_ok h' e r.
Proof.
  intros Hle He (v & ? & ? & ?). exists v. split_and!; [done..|]. by eapply no_touch_le.
Qed.

Lemma snapshot_stable i tx log e : Stable i (snapshot m0 tx log e).
Proof.
  intros s s' [? Hn Hreads Hent] Hr HI. pose proof (rely_now _ _ _ Hr).
  constructor; [done|lia|..]; (eapply Forall_impl; [|eassumption]); intros;
    [eapply read_ok_le|eapply entry_ok_le]; (done || apply Hr).
Qed.

Lemma touch_held i k s s' j :
  rely i s s' -> held s.2 k = Some i -> touch (hist s'.2) j k ->
  touch (hist s.2) j k /\ (j < now s)%nat.
Proof.
  intros Hr Hk Ht. pose proof (rl_touch _ _ _ Hr k j Hk Ht) as Ht'.
  split; [done|]. destruct Ht' as (sl & Hsl & _). by apply lookup_lt_Some in Hsl.
Qed.

Lemma pinned_stable i k v own s s' :
  held s.2 k = Some i -> rely i s s' -> pinned m0 k v own s -> pinned m0 k v own s'.
Proof.
  intros Hk Hr [Hv Hn Hp Ht Ho Hm]. pose proof (rely_now _ _ _ Hr).
  constructor; [by rewrite (proj2 (rl_ver _ _ _ Hr k) Hk)|lia|..].
  - intros j Hj. destruct (touch_held i k s s' j) as [_ Hlt]; [done..|by apply pend_touch|].
    apply Hp. eapply pend_le; [apply Hr|done|done].
  - intros j Hj Htj. destruct (touch_held i k s s' j) as [? _]; auto.
  - done.
  - intros a Ha. rewrite (rl_word _ _ _ Hr) by by rewrite Ha. rewrite Hm by done. symmetry.
    apply mem_at_fixed; [apply Hr|done|]. intros j sl sl' Hj Hsl Hsl' Htt.
    destruct (rl_hist _ _ _ Hr j sl Hsl) as (sl2 & Hsl2 & Hle). simplify_eq.
    eapply slot_le_settled; [exact Hsl|done|exact Htt|]. intros Hpe.
    specialize (Ho _ (Hp _ Hpe)). lia.
Qed.

Lemma holds_stable i tx own : Stable i (holds m0 i tx own).
Proof.
  intros s s' [Hof Hby ? ? ?] Hr HI. constructor; try done.
  - intros k Hk. rewrite <- (rl_held _ _ _ Hr) in Hk.
    destruct (Hof k Hk) as (j & w & v & ? & ? & ? & ? & Hl & Hp).
    exists j, w, v. split_and!; try done.
    + by rewrite (rl_lock _ _ _ Hr).
    + by eapply pinned_stable.
  - intros j w Hj Hw. apply (rl_held _ _ _ Hr). eauto.
Qed.

Lemma running_stable i b0 b log tx n e : Stable i (running i b0 b log tx n e).
Proof.
  intros s s' [] Hr HI. constructor; try done.
  - by eapply own_array_stable.
  - by eapply no_lock_stable.
  - by eapply begun_stable.
  - by eapply snapshot_stable.
Qed.

Lemma abortable_stable i tx : Stable i (abortable i tx).
Proof.
  intros s s' [] Hr HI. constructor; try done; [by eapply own_array_stable|by eapply holds_stable].
Qed.

Lemma ready_stable i tx : Stable i (ready i tx).
Proof.
  intros s s' [] Hr HI. constructor; try done; [by eapply own_array_stable|by eapply no_lock_stable].
Qed.

Lemma running_abortable i b0 b log tx n e s :
  running i b0 b log tx n e s -> abortable i tx s.
Proof.
  intros [[] ? ? ? ? ? ? ? ? ? ?]. constructor; [done..|]. constructor.
  - intros k Hk. by destruct (rn_none0 k).
  - intros j w Hj Hw. pose proof (Forall_lookup_1 _ _ _ _ rn_drop0 Hj) as H1. simpl in H1. lia.
  - intros j j' w w' Hj _ Hw. pose proof (Forall_lookup_1 _ _ _ _ rn_drop0 Hj) as H1.
    simpl in H1. lia.
  - eapply Forall_impl; [|exact rn_drop0]. auto.
  - rewrite rn_acquired0. clear - rn_drop0. induction rn_drop0 as [|w ws Hw Hws IH]; [done|].
    rewrite filter_cons_False; [exact IH|]. rewrite Hw. lia.
Qed.

(** ** Lock words *)

Lemma lock_cases s k (c := cell s.1 (Lock k)) :
  Inv s ->
  (exists v, held s.2 k = None /\ stripe_free m0 s k v /\
     LOCK_GET_OWNED c = 0 /\ LOCK_GET_TIMESTAMP c = Z.of_nat v) \/
  (exists j p, held s.2 k = Some j /\ c = p + 1 /\ LOCK_GET_OWNED c = 1 /\
     LOCK_GET_ADDR c = p /\ (extra s.1 j).1 <= p < (extra s.1 j).1 + (extra s.1 j).2).
Proof.
  intros HI. pose proof (inv_stripes _ _ _ HI k) as Hst. unfold stripe_ok in Hst.
  destruct (held s.2 k) as [j|] eqn:Hk.
  - right. destruct Hst as [(p & Hc & He & Hp) _ _ _]. exists j, p. fold c in Hc.
    destruct (inv_block _ _ _ HI j) as (? & ? & ?).
    rewrite wb_owned, Hc. split_and!; try done; try lia.
    + rewrite Z.add_mod, He by lia. done.
    + apply wb_get_addr; [|done|lia]. unfold is_word, word_size. lia.
  - left. destruct Hst as (v & Hf). exists v. split_and!; [done..| |].
    + rewrite wb_owned. unfold c. rewrite (sf_lock _ _ _ _ Hf).
      rewrite Z.mul_comm. by apply Z.mod_mul.
    + rewrite wb_get_timestamp. unfold c. rewrite (sf_lock _ _ _ _ Hf).
      rewrite Z.mul_comm. by apply Z.div_mul.
Qed.

(** Another thread's pointer is not taken for one of ours. *)
Lemma foreign_pointer i j tx p s :
  Inv s -> own_array i tx s -> j <> i ->
  (extra s.1 j).1 <= p < (extra s.1 j).1 + (extra s.1 j).2 -> in_w_set tx p = false.
Proof.
  intros HI [Hb ? ? ? Hnb] Hj Hp. pose proof (inv_apart _ _ _ HI j i Hj) as Ha.
  rewrite Hb in Ha. unfold apart in Ha. simpl in Ha. unfold sizeof_w_entry in *.
  unfold in_w_set, sizeof_w_entry. destruct (Z.leb_spec (w_base (wset tx)) p); [|done].
  destruct (Z.ltb_spec p (w_base (wset tx) + 64 * w_nb tx)); [|done]. simpl. lia.
Qed.

End Phases.
