(* ===== verification/CtlExtend.v ===== *)
(** * Validation, extension, start and rollback

    The proofs about the functions of [Ctl.v] that a transaction calls on its
    way: the control buffer and callbacks change nothing that matters,
    [stm_validate] answers 1 only if no version read has been overwritten up to
    the snapshot wanted, [stm_extend] moves the snapshot, [stm_prepare] starts a
    fresh one, and [stm_rollback] releases every lock at its old version and
    jumps back to the start. *)
From S2P Require Import Prelude Words LockWord Machine Tx Ctl CtlHist CtlInv CtlStep CtlLogic CtlAssert.
Import WriteBack.

(** What the theorems suppose of the configuration and of the environment. *)
Record setting (C : config) (progs : list (list (option stm_tx_attr * txbody)))
    (ext_step : nat -> ext -> arrays -> Z -> arrays -> Prop) : Prop := {
  set_sim : ea_sim C = false;
  set_user : ea_user C = false;
  set_threads : (length progs <= Z.to_nat MAX_THREADS)%nat;
  set_ext : forall i e x r x', ext_step i e x r x' -> ext_spec i e x r x' }.

Section Extend.

Context (C : config) (fuel : nat) (m0 : mem).
Context (progs : list (list (option stm_tx_attr * txbody))).
Context (ext_step : nat -> ext -> arrays -> Z -> arrays -> Prop).
Hypothesis Hset : setting C progs ext_step.

Local Abbreviation Inv := (Inv m0 progs).
Local Abbreviation Stable := (stable Inv rely).
Local Abbreviation wpM := (wpM m0 progs ext_step).
Local Abbreviation guar := (guar m0 progs).

(** A failure of a body in a serial execution of the program. *)
Definition serial_fault : Prop :=
  exists l c m, Forall (in_progs progs) l /\ in_progs progs c /\
    seq_exec l m0 = Some m /\ seq_run (rc_body c) m = SFault.

Definition halt_ok (h : halt) : Prop :=
  match h with
  | Exit code => code = 1
  | Blocked | Out_of_fuel => True
  | App_fault => serial_fault
  | Assert_failed | Undefined => False
  end.

Section Thread.

Context (i : nat) (b0 : txbody) (l : list rec).
Hypothesis Hprog : in_progs progs (mk_rec i b0 0).

(** Back at the start of the transaction, nothing done. *)
Definition restarted (tx : stm_tx) (s : st) : Prop :=
  exists n, running C m0 i b0 b0 [] tx n n s /\ mine i (horder s) = l.

Definition post {A} (R : A -> stm_tx -> st -> Prop) (o : outcome A) (tx : stm_tx) (s : st) : Prop :=
  match o with
  | Ok a => R a tx s
  | Jump _ => restarted tx s
  | Halt h => halt_ok h
  end.

(** Code that returns with the descriptor unchanged. *)
Definition keeps {A} (P : st -> Prop) (tx : stm_tx) (o : outcome A) (tx' : stm_tx) (s : st) : Prop :=
  match o with
  | Ok _ => tx' = tx /\ P s
  | Jump _ => False
  | Halt h => h = Out_of_fuel
  end.

Lemma restarted_stable tx : Stable i (restarted tx).
Proof.
  apply stable_ex. intros n. apply stable_and; [apply running_stable|apply mine_stable].
Qed.

Lemma post_stable_jump {A} (R : A -> stm_tx -> st -> Prop) r tx : Stable i (post R (Jump r) tx).
Proof. apply restarted_stable. Qed.

Lemma post_stable_halt {A} (R : A -> stm_tx -> st -> Prop) h tx : Stable i (post R (Halt h) tx).
Proof. apply stable_pure. Qed.

Lemma keeps_stable {A} P tx (o : outcome A) tx' : Stable i P -> Stable i (keeps P tx o tx').
Proof. intros HP. destruct o; simpl; [apply stable_and; [apply stable_pure|done]|apply stable_pure..]. Qed.

(** ** Sequencing *)

Lemma wpM_seq {A B} (m : M A) (f : A -> M B) tx (R1 : A -> stm_tx -> st -> Prop) R2 s :
  wpM i m tx (post R1) s ->
  (forall a tx' s', Inv s' -> R1 a tx' s' -> wpM i (f a) tx' (post R2) s') ->
  wpM i (bind m f) tx (post R2) s.
Proof.
  intros Hm Hf. apply wpM_bind; [intros; apply post_stable_jump|intros; apply post_stable_halt|].
  eapply wpM_mono; [|exact Hm]. intros [a|r|h] tx' s' HI; simpl; auto.
Qed.

Lemma wpM_keep {A B} (m : M A) (f : A -> M B) tx P R s :
  wpM i m tx (keeps P tx) s ->
  (forall a s', Inv s' -> P s' -> wpM i (f a) tx (post R) s') ->
  wpM i (bind m f) tx (post R) s.
Proof.
  intros Hm Hf. apply wpM_bind; [intros; apply post_stable_jump|intros; apply post_stable_halt|].
  eapply wpM_mono; [|exact Hm]. intros [a|r|h] tx' s' HI; simpl.
  - intros [-> ?]. auto.
  - done.
  - by intros ->.
Qed.

Lemma keep_bind {A B} (m : M A) (f : A -> M B) tx P P' s :
  wpM i m tx (keeps P tx) s ->
  (forall a s', Inv s' -> P s' -> wpM i (f a) tx (keeps P' tx) s') ->
  wpM i (bind m f) tx (keeps P' tx) s.
Proof.
  intros Hm Hf. apply wpM_bind; [intros; apply stable_pure..|].
  eapply wpM_mono; [|exact Hm]. intros [a|r|h] tx' s' HI; simpl; [|done..].
  intros [-> ?]. auto.
Qed.

(** ** Code that touches nothing shared *)

Lemma keep_ret {A} (a : A) tx P s : Stable i P -> P s -> wpM i (ret a) tx (keeps P tx) s.
Proof. intros. apply wpM_ret; [by apply keeps_stable|done]. Qed.

Lemma keep_when b m tx P s :
  Stable i P -> P s -> (b = true -> wpM i m tx (keeps P tx) s) ->
  wpM i (when b m) tx (keeps P tx) s.
Proof. intros HP Hs Hm. destruct b; [by apply Hm|by apply keep_ret]. Qed.

Lemma rely_ctl v c s :
  ~ shared_cell c -> Inv s -> rely i s (set_cell s.1 c v, s.2) /\ guar i s (set_cell s.1 c v, s.2).
Proof.
  destruct s as [s g]. intros Hc HI.
  destruct (same_shared m0 progs s (set_cell s c v) g) as [HI' Hr]; [done| |done|].
  { intros l' Hl'. simpl. apply upd_other. by intros ->. }
  split; [done|]. by split.
Qed.

Lemma keep_ea_load f tx P s : Stable i P -> P s -> wpM i (ea_load f) tx (keeps P tx) s.
Proof.
  intros HP Hs. apply (wp_do _ (P := P)); [done..|].
  intros [c g] HPs HI r s' Hact. inversion Hact; subst. exists g. split_and!; [done| |].
  - intros. apply rely_refl.
  - by apply (wpM_ret m0 progs ext_step i _ tx (keeps P tx)); [apply keeps_stable|].
Qed.

Lemma keep_ea_store f v tx P s :
  (forall t, ~ shared_cell (f t)) -> Stable i P -> P s ->
  wpM i (ea_store f v) tx (keeps P tx) s.
Proof.
  intros Hf HP Hs. apply (wpM_store m0 progs ext_step i (f (self tx)) v ret tx P); [done..|].
  intros s1 Hs1 HI. destruct (rely_ctl v (f (self tx)) s1) as [Hr Hg]; [done..|].
  exists s1.2. split; [done|]. apply keep_ret; [done|]. eapply HP; [done..|apply Hg].
Qed.

Lemma keep_ea_clear f tx P s :
  (forall t, ~ shared_cell (f t)) -> Stable i P -> P s ->
  wpM i (ea_clear f) tx (keeps P tx) s.
Proof.
  intros Hf HP Hs. eapply keep_bind; [by apply keep_ea_load|].
  intros a s' HI Hs'. apply keep_when; [done..|]. intros _. by apply keep_ea_store.
Qed.

Lemma keep_callbacks cbs tx P s : Stable i P -> P s -> wpM i (run_callbacks cbs) tx (keeps P tx) s.
Proof.
  intros HP. revert s. induction cbs as [|[f arg] cbs IH]; intros s Hs; [by apply keep_ret|].
  apply (wpM_ext m0 progs ext_step i _ _ tx P); [done..|].
  intros [c g] r x Hs1 HI Hx. apply (set_ext _ _ _ Hset) in Hx. inversion Hx; subst. simpl.
  exists g. destruct c as [c x']; simpl in *. split.
  - split; [done|]. intros. apply rely_refl.
  - by apply IH.
Qed.

Lemma keep_wait n tx P s : Stable i P -> P s -> wpM i (stm_wait_quiesce n) tx (keeps P tx) s.
Proof.
  intros HP. revert s. induction n as [|n IH]; intros s Hs.
  - apply wpM_stop; [apply stable_pure|done].
  - apply (wpM_load m0 progs ext_step i _ _ tx P); [done..|]. intros s1 Hs1 HI.
    destruct (cell s1.1 Quiesce =? 2); [by apply IH|by apply keep_ret].
Qed.

(** ** Validation *)

Lemma deref_ptr tx j w :
  w_entries (wset tx) !! j = Some w -> w_deref tx (w_ptr tx j) = Some w.
Proof.
  intros Hj. unfold w_deref, w_ptr, sizeof_w_entry.
  replace (w_base (wset tx) + 64 * Z.of_nat j - w_base (wset tx)) with (Z.of_nat j * 64) by lia.
  rewrite Z.mod_mul, Z.div_mul by lia. simpl. by rewrite Nat2Z.id.
Qed.

Definition checked (h : list slot) (e : nat) (r : r_entry) : Prop :=
  forall v : nat, r_version r = Z.of_nat v -> no_touch h (r_lock r) v e.

Lemma checked_le h h' e r :
  hist_le h h' -> (e <= length h)%nat -> checked h e r -> checked h' e r.
Proof. intros Hle He Hc v Hv. eapply no_touch_le; eauto. Qed.

(** The lock of [r] passes the test of [stm_validate]. *)
Lemma validate_entry tx own e r s :
  Inv s -> own_array i tx s -> holds m0 i tx own s -> (e <= now s)%nat ->
  (forall n, own = Some n -> (e <= n)%nat) ->
  let lk := cell s.1 (Lock (r_lock r)) in
  if truth (LOCK_GET_OWNED lk) then
    in_w_set tx (LOCK_GET_ADDR lk) = true ->
    exists w, w_deref tx (LOCK_GET_ADDR lk) = Some w /\
      (w_version w = r_version r -> checked (hist s.2) e r)
  else LOCK_GET_TIMESTAMP lk = r_version r -> checked (hist s.2) e r.
Proof.
  intros HI Ha Hh He Hown. cbv zeta.
  pose proof (lock_cases m0 progs s (r_lock r) HI) as Hlk. cbv zeta in Hlk.
  destruct Hlk as [(v & Hn & Hf & Ho & Ht)|(j & p & Hj & Hc & Ho & Hp & Hr)].
  - rewrite Ho. simpl. intros Hv v' Hv'. rewrite Ht in Hv.
    replace v' with v by lia. intros k Hk. apply (sf_touch _ _ _ _ Hf). lia.
  - rewrite Ho, Hp. simpl. destruct (decide (j = i)) as [->|Hne].
    + intros _. destruct (ho_of _ _ _ _ _ Hh _ Hj) as (j & w & v & Hw & Hlk & _ & Hv & Hcell & Hpin).
      assert (p = w_ptr tx j) as -> by lia.
      exists w. split; [by apply deref_ptr|]. intros Hver v' Hv' k Hk Ht.
      assert (v' = v) as -> by lia.
      pose proof (Hown _ (pn_touch _ _ _ _ _ Hpin k (proj1 Hk) Ht)). lia.
    + by rewrite (foreign_pointer m0 progs i j tx p s).
Qed.

Lemma validate_spec rs tx own e P s :
  Stable i P -> (forall s1, P s1 -> own_array i tx s1 /\ holds m0 i tx own s1 /\ (e <= now s1)%nat) ->
  (forall n, own = Some n -> (e <= n)%nat) -> P s ->
  wpM i (stm_validate_entries rs) tx (fun o tx' s' =>
    match o with
    | Ok a => tx' = tx /\ P s' /\ (a <> 0 -> Forall (checked (hist s'.2) e) rs)
    | _ => False
    end) s.
Proof.
  intros HP Hfacts Hown.
  set (Q := fun (all : list r_entry) (o : outcome Z) (tx' : stm_tx) (s' : st) =>
    match o with
    | Ok a => tx' = tx /\ P s' /\ (a <> 0 -> Forall (checked (hist s'.2) e) all)
    | _ => False
    end).
  assert (Hle : forall rs s2 s3, P s2 -> rely i s2 s3 ->
    Forall (checked (hist s2.2) e) rs -> Forall (checked (hist s3.2) e) rs).
  { intros rs' s2 s3 Hs2 Hr Hd. eapply Forall_impl; [|exact Hd].
    intros r. apply checked_le; [apply Hr|]. by apply Hfacts. }
  assert (Hret : forall a all s, P s -> (a <> 0 -> Forall (checked (hist s.2) e) all) ->
    wpM i (ret a) tx (Q all) s).
  { intros a all s2 Hs2 Hd. apply wpM_ret; [|done]. unfold Q. intros s3 s4 (_ & ? & ?) Hr HI.
    split_and!; [done|by eapply HP|]. intros. eapply Hle; [|done|]; auto. }
  change (P s -> wpM i (stm_validate_entries rs) tx (Q rs) s).
  enough (Hgen : forall done all s, all = done ++ rs -> P s -> Forall (checked (hist s.2) e) done ->
    wpM i (stm_validate_entries rs) tx (Q all) s) by (intros Hs; exact (Hgen [] rs s eq_refl Hs (List.Forall_nil _))).
  induction rs as [|r rs IH]; intros done all s1 -> Hs1 Hd.
  - rewrite app_nil_r. by apply Hret.
  - simpl. apply (wpM_load m0 progs ext_step i _ _ tx
      (fun s => P s /\ Forall (checked (hist s.2) e) done)); [|done|].
    { intros s2 s3 [? ?] Hr HI. split; [by eapply HP|by eapply Hle]. }
    intros s2 [Hs2 Hd2] HI. destruct (Hfacts _ Hs2) as (Ha & Hh & He).
    pose proof (validate_entry tx own e r s2 HI Ha Hh He Hown) as Hent. simpl in Hent.
    assert (Hok : checked (hist s2.2) e r ->
      wpM i (stm_validate_entries rs) tx (Q (done ++ r :: rs)) s2).
    { intros Hr. apply (IH (done ++ [r])); [by rewrite <- app_assoc|done|].
      apply list.Forall_app. auto. }
    destruct (truth (LOCK_GET_OWNED (cell s2.1 (Lock (r_lock r))))).
    + apply wpM_get. destruct (in_w_set tx _) eqn:Hin; simpl; [|by apply Hret].
      destruct Hent as (w & -> & Hw); [done|].
      destruct (Z.eqb_spec (w_version w) (r_version r)); simpl; [by auto|by apply Hret].
    + destruct (Z.eqb_spec (LOCK_GET_TIMESTAMP (cell s2.1 (Lock (r_lock r)))) (r_version r));
        simpl; [by auto|by apply Hret].
Qed.

(** ** Extension *)

(** The snapshot has moved to [e'], past everything committed before [N], when the
    answer is not 0. *)
Definition extended (b : txbody) (log : list (Z * Z)) (tx : stm_tx) (n e N : nat)
    (o : outcome Z) (tx' : stm_tx) (s : st) : Prop :=
  match o with
  | Ok a => exists e', tx' = tx <| tx_end := Z.of_nat e' |> /\ (e <= e')%nat /\
      (a <> 0 -> (N <= e')%nat) /\ running C m0 i b0 b log tx' n e' s /\
      mine i (horder s) = l
  | Jump _ => False
  | Halt h => h = Out_of_fuel
  end.

Lemma extended_stable b log tx n e N o tx' : Stable i (extended b log tx n e N o tx').
Proof.
  destruct o; [|apply stable_pure..]. apply stable_ex. intros e'.
  apply stable_and; [apply stable_pure|]. apply stable_and; [apply stable_pure|].
  apply stable_and; [apply stable_pure|]. apply stable_and; [apply running_stable|apply mine_stable].
Qed.

Lemma set_end_id tx e : tx_end tx = e -> tx <| tx_end := e |> = tx.
Proof. intros <-. by destruct tx. Qed.

(** Moving the snapshot after a successful validation *)
Lemma running_extend b log tx n e e' s :
  truth (ro tx) = false -> running C m0 i b0 b log tx n e s -> (e <= e')%nat ->
  (e' <= now s)%nat -> Forall (checked (hist s.2) e') (r_entries (rset tx)) ->
  running C m0 i b0 b log (tx <| tx_end := Z.of_nat e' |>) n e' s.
Proof.
  intros Hro [Hba ? Har ? ? ? ? Hbe ? Hsn ?] He He' Hck. destruct Hsn as [? ? Hreads Hent].
  constructor; simpl; try done.
  - by destruct Hba as [[]].
  - by destruct Har.
  - by destruct Hbe.
  - lia.
  - constructor; simpl; [done|done|..].
    + eapply Forall_impl; [|exact Hreads]. intros [a x] (v & ? & ? & ? & ? & Hin).
      exists v. split_and!; [lia|done| |done|done].
      rewrite list.Forall_forall in Hck. by apply (Hck _ (Hin Hro)).
    + apply list.Forall_forall. intros r Hr. rewrite list.Forall_forall in Hent, Hck.
      destruct (Hent r Hr) as (v & Hv & ? & ?). exists v. split_and!; [done|lia|].
      by apply (Hck r Hr).
Qed.

Lemma running_holds b log tx n e s : running C m0 i b0 b log tx n e s -> holds m0 i tx None s.
Proof. intros Hr. apply (running_abortable C m0 i b0 b log tx n e s) in Hr. by destruct Hr. Qed.

Lemma extend_ok_spec b log tx n e N s :
  (N <= e)%nat -> running C m0 i b0 b log tx n e s -> mine i (horder s) = l ->
  wpM i (stm_extend_ok C) tx (extended b log tx n e N) s.
Proof.
  intros HN Hrun Hm.
  set (P := fun s => running C m0 i b0 b log tx n e s /\ mine i (horder s) = l).
  assert (HP : Stable i P) by (apply stable_and; [apply running_stable|apply mine_stable]).
  apply wpM_bind; [intros; apply stable_pure..|].
  eapply wpM_mono; [|apply (keep_when _ _ tx P); [done|by split|]].
  - intros [[]|r|h] tx' s' HI; simpl; [|done..]. intros [-> [Hr Hl]].
    apply wpM_ret; [apply extended_stable|]. exists e.
    split_and!; [|done|done|done|done]. symmetry. apply set_end_id. apply Hr.
  - intros _. apply keep_ea_clear; [by intros t []|done|by split].
Qed.

Lemma extend_now_spec b log tx n e N s :
  truth (ro tx) = false -> (N <= now s)%nat ->
  running C m0 i b0 b log tx n e s -> mine i (horder s) = l ->
  wpM i (stm_extend_now C) tx (extended b log tx n e N) s.
Proof.
  intros Hro HN Hrun Hm.
  set (P := fun s => (running C m0 i b0 b log tx n e s /\ mine i (horder s) = l)).
  assert (HP : Stable i P) by (apply stable_and; [apply running_stable|apply mine_stable]).
  assert (Hfail : forall s, P s -> wpM i (ret 0) tx (extended b log tx n e N) s).
  { intros s1 [Hr ?]. apply wpM_ret; [apply extended_stable|]. exists e.
    split_and!; [|done|done|done|done]. symmetry. apply set_end_id. apply Hr. }
  apply (wpM_load m0 progs ext_step i _ _ tx (fun s => P s /\ (N <= now s)%nat)).
  { apply stable_and; [done|]. intros s1 s2 ? Hr _. pose proof (rely_now _ _ _ Hr). lia. }
  { done. }
  intros s1 [Hs1 HN1] HI. rewrite (inv_clock _ _ _ HI). set (e' := now s1).
  destruct (VERSION_MAX <=? Z.of_nat e'); [by apply Hfail|].
  assert (He : (e <= e')%nat) by apply Hs1.
  apply wpM_bind; [intros; apply stable_pure..|]. apply wpM_get.
  set (P' := fun s => P s /\ (e' <= now s)%nat).
  assert (HP' : Stable i P').
  { apply stable_and; [done|]. intros s2 s3 ? Hr _. pose proof (rely_now _ _ _ Hr). lia. }
  eapply wpM_mono; [|apply (validate_spec (r_entries (rset tx)) tx None e' P' s1 HP')].
  - intros [a|r|h] tx' s' HI'; [|done..]. intros (-> & [[Hr Hl] He'] & Hck).
    unfold truth. destruct (Z.eqb_spec a 0) as [->|Ha]; simpl; [by apply Hfail|].
    apply wpM_modify. eapply wpM_mono; [|apply (extend_ok_spec b log _ n e' N); [done| |done]].
    + intros [a'|r|h] tx' s2 HI2; simpl; [|done..].
      intros (e2 & -> & ? & ? & ? & ?). exists e2. split_and!; [by destruct tx|lia|done|done|done].
    + apply running_extend with e; auto.
  - intros s2 [[Hr _] ?]. split_and!; [apply Hr|by eapply running_holds|done].
  - done.
  - by split.
Qed.

Lemma extend_spec b log tx n e N s :
  truth (ro tx) = false -> (N <= now s)%nat ->
  running C m0 i b0 b log tx n e s -> mine i (horder s) = l ->
  wpM i (stm_extend C) tx (extended b log tx n e N) s.
Proof.
  intros Hro HN Hrun Hm. unfold stm_extend. destruct (ea C); [|by apply extend_now_spec].
  set (P := fun s => (running C m0 i b0 b log tx n e s /\ mine i (horder s) = l) /\ (N <= now s)%nat).
  assert (HP : Stable i P).
  { apply stable_and; [apply stable_and; [apply running_stable|apply mine_stable]|].
    intros s1 s2 ? Hr _. pose proof (rely_now _ _ _ Hr). lia. }
  apply wpM_bind; [intros; apply stable_pure..|].
  eapply wpM_mono; [|by apply (keep_ea_load Tx_on tx P)].
  intros [on|r|h] tx' s1 HI; simpl; [|done..]. intros [-> HP1].
  apply wpM_bind; [intros; apply stable_pure..|].
  eapply wpM_mono; [|apply (keep_when _ _ tx P); [done..|]].
  - intros [[]|r|h] tx' s2 HI2; simpl; [|done..]. intros [-> [[Hr Hl] HN2]].
    rewrite (set_user _ _ _ Hset), andb_false_r, (set_sim _ _ _ Hset). simpl.
    by apply extend_now_spec.
  - intros _. apply keep_ea_store; [by intros t []|done|done].
Qed.

(** ** Start of an attempt *)

Lemma keep_check_quiesce tx P s :
  status tx = TX_ACTIVE -> Stable i P -> P s ->
  wpM i (stm_check_quiesce fuel) tx (keeps P tx) s.
Proof.
  intros Hst HP Hs. apply wpM_get. apply wpM_assert; [by rewrite Hst|].
  apply (wpM_load m0 progs ext_step i _ _ tx P); [done..|]. intros s1 Hs1 HI.
  destruct (cell s1.1 Quiesce =? 2); [|by apply keep_ret].
  apply wpM_modify. apply wpM_bind; [intros; apply stable_pure..|].
  eapply wpM_mono; [|by apply keep_wait].
  intros [[]|r|h] tx' s2 HI2; simpl; [|done..]. intros [-> HP2].
  apply wpM_modify. rewrite Hst.
  replace (set_status (GET_STATUS TX_ACTIVE) (set_status TX_IDLE tx)) with tx
    by (destruct tx; simpl in *; by subst).
  by apply keep_ret.
Qed.

Definition prepared (o : outcome unit) (tx : stm_tx) (s : st) : Prop :=
  match o with
  | Ok _ => restarted tx s
  | Jump _ => False
  | Halt h => h = Blocked \/ h = Out_of_fuel
  end.

Lemma prepared_stable o tx : Stable i (prepared o tx).
Proof. destruct o; [apply restarted_stable|apply stable_pure..]. Qed.

(** A transaction that starts now. *)
Lemma begun_now tx s :
  Inv s -> start tx = Z.of_nat (now s) -> start tx < VERSION_MAX -> begun i tx (now s) s.
Proof.
  intros HI Hs Hv. constructor; [done|done|rewrite <- vmax_spec in Hv; lia|].
  unfold now. rewrite drop_all. split; [constructor|].
  destruct (inv_hist _ _ _ HI) as (_ & Hr & _). eapply Forall_impl; [|exact Hr].
  intros [[k c] log] (? & _) _. lia.
Qed.

Lemma prepare_spec tx s :
  ready C i tx s -> mine i (horder s) = l -> wpM i (stm_prepare C fuel) tx prepared s.
Proof.
  intros Hrd Hm.
  apply (wpM_load m0 progs ext_step i _ _ tx
    (fun s => ready C i tx s /\ mine i (horder s) = l)); [|done|].
  { apply stable_and; [apply ready_stable|apply mine_stable]. }
  intros s1 [[Hb Hn Hst Har Hno] Hm1] HI. rewrite (inv_clock _ _ _ HI).
  set (n := now s1). apply wpM_modify. apply wpM_get. simpl.
  destruct (Z.leb_spec VERSION_MAX (Z.of_nat n)) as [Hv|Hv].
  { apply wpM_get. apply wpM_assert; [by simpl; rewrite Hst|].
    apply wpM_stop; [apply stable_pure|by left]. }
  do 4 apply wpM_modify.
  match goal with |- CtlLogic.wpM _ _ _ _ _ ?t _ _ => set (tx1 := t) end.
  set (P := fun s => running C m0 i b0 b0 [] tx1 n n s /\ mine i (horder s) = l).
  assert (HP : Stable i P) by (apply stable_and; [apply running_stable|apply mine_stable]).
  assert (HPs : P s1).
  { split; [|done]. constructor; try done.
    - split; [|done]. by destruct Hb.
    - destruct Har as [? ? ? ? ?]. constructor; try done. unfold w_nb. simpl. lia.
    - split; [by constructor|constructor].
    - by apply begun_now. }
  assert (Hres : forall s, P s -> restarted tx1 s) by (intros s2 ?; by exists n).
  apply wpM_bind; [intros; apply stable_pure..|].
  eapply wpM_mono; [|by apply (keep_check_quiesce tx1 P)].
  intros [q|r|h] tx' s2 HI2; simpl; [|done|by right]. intros [-> HP2].
  rewrite (set_sim _ _ _ Hset), andb_false_r. change (wpM i (when (ea C)
    (bind (ea_clear Standing) (fun _ => ea_clear Recently_validated))) tx1 prepared s2).
  eapply wpM_mono; [|apply (keep_when _ _ tx1 P); [done..|]].
  - intros [[]|r|h] tx' s3 HI3; simpl; [|done|by right]. intros [-> ?]. auto.
  - intros _. eapply keep_bind; [apply (keep_ea_clear Standing tx1 P); [by intros t []|done..]|].
    intros [] s3 HI3 HP3. apply keep_ea_clear; [by intros t []|done..].
Qed.

(** ** Rollback *)

Definition taken (ws : list w_entry) : list w_entry := filter (fun w => w_no_drop w = 0) ws.

(** While the locks of the entries [ws] remain to be released *)
Record releasing (tx : stm_tx) (ws : list w_entry) (s : st) : Prop := {
  rs_array : own_array i tx s;
  rs_mine : mine i (horder s) = l;
  rs_of : forall k, held s.2 k = Some i -> exists w v, w ∈ taken ws /\ w_lock w = k /\
            w_version w = Z.of_nat v /\ pinned m0 k v None s;
  rs_by : forall w, w ∈ taken ws -> held s.2 (w_lock w) = Some i;
  rs_nodup : NoDup (w_lock <$> taken ws);
  rs_bit : Forall (fun w => w_no_drop w = 0 \/ w_no_drop w = 1) ws;
  rs_count : nb_acquired (wset tx) = Z.of_nat (length (taken ws)) }.

Lemma releasing_stable tx ws : Stable i (releasing tx ws).
Proof.
  intros s s' [? Hm Hof Hby ? ? ?] Hr HI. constructor; try done.
  - by eapply own_array_stable.
  - by rewrite (rl_mine _ _ _ Hr).
  - intros k Hk. rewrite <- (rl_held _ _ _ Hr) in Hk.
    destruct (Hof k Hk) as (w & v & ? & ? & ? & Hp). exists w, v. split_and!; try done.
    by eapply (pinned_stable m0 i).
  - intros w Hw. apply (rl_held _ _ _ Hr). auto.
Qed.

Lemma set_timestamp_now s v :
  Inv s -> (v <= now s)%nat -> LOCK_SET_TIMESTAMP (Z.of_nat v) = 2 * Z.of_nat v.
Proof.
  intros HI Hv. pose proof (clock_bound _ _ _ HI). pose proof (set_threads _ _ _ Hset).
  pose proof vmax_spec. pose proof VERSION_MAX_bound. assert (0 <= MAX_THREADS) by by compute.
  apply wb_set_timestamp. lia.
Qed.

(** Releasing the lock of the first entry *)
Lemma release_one tx w ws s :
  Inv s -> releasing tx (w :: ws) s -> w_no_drop w = 0 ->
  let g' := set_stripe s.2 (w_lock w) None (ver s.2 (w_lock w)) in
  let c' := set_cell s.1 (Lock (w_lock w)) (LOCK_SET_TIMESTAMP (w_version w)) in
  guar i s (c', g') /\
  releasing (set_nb_acquired (nb_acquired (wset tx) - 1) tx) ws (c', g').
Proof.
  intros HI [Har Hm Hof Hby Hnd Hbit Hcnt] Hw. simpl.
  unfold taken in *. rewrite filter_cons_True in * by done. simpl in Hnd, Hcnt.
  apply list.NoDup_cons in Hnd as [Hnin Hnd].
  assert (Hheld : held s.2 (w_lock w) = Some i) by (apply Hby; left).
  assert (Hpin : exists v, w_version w = Z.of_nat v /\ pinned m0 (w_lock w) v None s).
  { destruct (Hof _ Hheld) as (w' & v & Hin & Hl & Hv & Hp). exists v. split; [|done].
    apply elem_of_cons in Hin as [->|Hin]; [done|]. destruct Hnin.
    rewrite <- Hl. by apply list_elem_of_fmap_2. }
  destruct Hpin as (v & Hv & [Hve Hn Hpe Hto _ Hme]).
  rewrite Hve, Hv, (set_timestamp_now s) by done. split.
  - destruct s as [s g]. apply guar_unlock; simpl in *; [done|lia|done| | |done|done].
    + intros j Hj Ht. by specialize (Hto j (proj1 Hj) Ht).
    + intros j Hj. by specialize (Hpe j Hj).
  - constructor; simpl; try done.
    + by destruct Har.
    + intros k Hk. destruct (decide (k = w_lock w)) as [->|Hne];
        [by rewrite set_held_same in Hk|]. rewrite set_held_other in Hk by done.
      destruct (Hof k Hk) as (w' & v' & Hin & Hl & Hv' & [? ? ? ? ? Hm']).
      apply elem_of_cons in Hin as [->|Hin]; [done|]. exists w', v'.
      split_and!; [done..|]. constructor; try done. simpl. by rewrite set_ver_other.
    + intros w' Hin. rewrite set_held_other.
      * apply Hby. by right.
      * intros Heq. destruct Hnin. rewrite <- Heq. by apply list_elem_of_fmap_2.
    + by apply list.Forall_cons in Hbit as [_ ?].
    + unfold taken. lia.
Qed.

Definition released (tx : stm_tx) (o : outcome unit) (tx' : stm_tx) (s : st) : Prop :=
  match o with
  | Ok _ => tx' = set_nb_acquired 0 tx /\ own_array i tx' s /\ no_lock i s /\
            mine i (horder s) = l
  | _ => False
  end.

Lemma released_stable tx o tx' : Stable i (released tx o tx').
Proof.
  destruct o; [|apply stable_pure..]. apply stable_and; [apply stable_pure|].
  apply stable_and; [apply own_array_stable|]. apply stable_and; [|apply mine_stable].
  apply no_lock_stable.
Qed.

Lemma set_nb_twice a b tx : set_nb_acquired a (set_nb_acquired b tx) = set_nb_acquired a tx.
Proof. done. Qed.

Lemma release_spec ws tx s :
  releasing tx ws s -> 0 < nb_acquired (wset tx) ->
  wpM i (stm_release ws) tx (released tx) s.
Proof.
  revert tx s. induction ws as [|w ws IH]; intros tx s Hr Hpos.
  { pose proof (rs_count _ _ _ Hr) as Hc. unfold taken in Hc. simpl in Hc. lia. }
  assert (Hrest : forall tx' s', releasing tx' ws s' ->
    set_nb_acquired 0 tx' = set_nb_acquired 0 tx ->
    wpM i (bind get (fun tx => if 0 <? nb_acquired (wset tx) then stm_release ws else ret tt))
      tx' (released tx) s').
  { intros tx' s' Hrel Heq. apply wpM_get.
    destruct (Z.ltb_spec 0 (nb_acquired (wset tx'))) as [Hp|Hp].
    - eapply wpM_mono; [|by apply IH]. intros [[]|r|h] tx2 s2 HI2; simpl; [|done..].
      by rewrite Heq.
    - apply wpM_ret; [apply released_stable|].
      pose proof (rs_count _ _ _ Hrel) as Hc.
      assert (Hz : taken ws = []) by (apply nil_length_inv; lia).
      split_and!.
      + rewrite <- Heq. rewrite Hz in Hc. simpl in Hc. destruct tx' as [? ? ? ? ? ? [] ? ? ? ? ? ?].
        simpl in *. by subst.
      + apply Hrel.
      + intros k Hk. destruct (rs_of _ _ _ Hrel k Hk) as (w' & v & Hin & _).
        rewrite Hz in Hin. by apply elem_of_nil in Hin.
      + apply Hrel. }
  simpl. unfold truth. destruct (Z.eqb_spec (w_no_drop w) 0) as [Hw|Hw]; simpl.
  - apply wpM_assoc. apply wpM_modify.
    apply (wpM_store m0 progs ext_step i _ _ _ _ (releasing tx (w :: ws)));
      [apply releasing_stable|done|].
    intros s1 Hs1 HI. destruct (release_one tx w ws s1 HI Hs1 Hw) as [Hg Hrel].
    eexists. split; [exact Hg|]. by apply Hrest.
  - apply Hrest; [destruct Hr as [? ? Hof Hby ? Hbit ?]|done].
    unfold taken in *. rewrite filter_cons_False in * by done.
    constructor; try done. by apply list.Forall_cons in Hbit as [_ ?].
Qed.

Lemma holds_releasing tx s :
  own_array i tx s -> holds m0 i tx None s -> mine i (horder s) = l ->
  releasing tx (rev (w_entries (wset tx))) s.
Proof.
  intros Har [Hof Hby Hlast Hbit Hcnt] Hm.
  assert (Hperm : taken (rev (w_entries (wset tx))) ≡ₚ taken (w_entries (wset tx))).
  { unfold taken. by rewrite <- Permutation_rev. }
  constructor; try done.
  - intros k Hk. destruct (Hof k Hk) as (j & w & v & Hj & ? & ? & ? & ? & ?). exists w, v.
    split_and!; try done. rewrite Hperm. apply list_elem_of_filter. split; [done|].
    by eapply list_elem_of_lookup_2.
  - intros w Hw. rewrite Hperm in Hw. apply list_elem_of_filter in Hw as [Hd Hw].
    apply list_elem_of_lookup in Hw as [j Hj]. eauto.
  - rewrite Hperm. apply NoDup_fmap_filter. intros j j' w w' Hj Hj' Hw Hw' Heq.
    pose proof (Hlast j j' w w' Hj Hj' Hw (eq_sym Heq)).
    pose proof (Hlast j' j w' w Hj' Hj Hw' Heq). lia.
  - by rewrite <- Permutation_rev.
  - rewrite Hcnt. f_equal. symmetry. by apply Permutation_length.
Qed.

Lemma rollback_end_spec reason tx s (R : unit -> stm_tx -> st -> Prop) :
  restarted tx s -> wpM i (stm_rollback_end C reason) tx (post R) s.
Proof.
  intros Hr. apply wpM_get.
  assert (must_retry tx = true) as -> by (destruct Hr as (n & Hr & _); apply Hr).
  pose proof (restarted_stable tx) as HP.
  apply (wpM_keep _ _ _ (restarted tx)).
  - apply keep_when; [done..|]. intros _.
    eapply keep_bind; [apply (keep_ea_clear Standing tx (restarted tx)); [by intros t []|done..]|].
    intros [] s1 HI1 Hr1. apply keep_when; [done..|]. intros _.
    eapply keep_bind; [by apply keep_ea_load|]. intros on s2 HI2 Hr2.
    apply keep_when; [done..|]. intros _. apply keep_ea_store; [by intros t []|done..].
  - intros [] s1 HI1 Hr1. by apply wpM_longjmp.
Qed.

(** [stm_rollback] does not return: it restarts the transaction, or the thread
    stops in the barrier or in a busy wait. *)
Lemma rollback_spec reason tx s (R : unit -> stm_tx -> st -> Prop) :
  abortable C m0 i tx s -> mine i (horder s) = l ->
  wpM i (stm_rollback C fuel reason) tx (post R) s.
Proof.
  intros Hab Hm. unfold stm_rollback. rewrite (set_sim _ _ _ Hset), andb_false_r. simpl.
  change (wpM i (stm_rollback_now C fuel reason) tx (post R) s).
  destruct Hab as [Hb Hst Har Hho].
  apply wpM_get. apply wpM_assert; [by rewrite Hst|].
  assert (Hdone : forall tx' s', released tx (Ok tt) tx' s' ->
    wpM i (bind (count (count_abort C reason)) (fun _ => bind (run_callbacks (abort_cb C)) (fun _ =>
      bind (modify (set_status TX_ABORTED)) (fun _ =>
      bind (modify (fun tx => tx <| nesting := 1 |>)) (fun _ =>
      bind (stm_prepare C fuel) (fun _ => stm_rollback_end C reason))))))
      tx' (post R) s').
  { intros tx' s' (-> & Har' & Hno & Hm'). apply wpM_modify.
    match goal with |- CtlLogic.wpM _ _ _ _ _ ?t _ _ => set (tx1 := t) end.
    set (P := fun s => own_array i tx1 s /\ no_lock i s /\ mine i (horder s) = l).
    assert (HP : Stable i P).
    { apply stable_and; [apply own_array_stable|].
      apply stable_and; [apply no_lock_stable|apply mine_stable]. }
    apply (wpM_keep _ _ _ P).
    { apply keep_callbacks; [done|]. split_and!; [by destruct Har'|done|done]. }
    intros [] s1 HI1 (Har1 & Hno1 & Hm1). do 2 apply wpM_modify.
    apply wpM_bind; [intros; apply post_stable_jump|intros; apply post_stable_halt|].
    eapply wpM_mono; [|apply prepare_spec; [|done]].
    - intros [[]|r|h] tx2 s2 HI2; simpl; [|done|by intros [-> | ->]].
      apply rollback_end_spec.
    - constructor; [by destruct Hb|done|done|by destruct Har1|done]. }
  destruct (Z.ltb_spec 0 (nb_acquired (wset tx))) as [Hp|Hp].
  - apply wpM_bind; [intros; apply post_stable_jump|intros; apply post_stable_halt|].
    eapply wpM_mono; [|apply release_spec; [by apply holds_releasing|done]].
    intros [[]|r|h] tx' s' HI'; simpl; [|done..]. apply Hdone.
  - apply Hdone.
    assert (Hz : taken (w_entries (wset tx)) = []).
    { apply nil_length_inv. rewrite (ho_count _ _ _ _ _ Hho) in Hp. unfold taken. lia. }
    assert (Hn0 : nb_acquired (wset tx) = 0)
      by (rewrite (ho_count _ _ _ _ _ Hho); unfold taken in Hz; by rewrite Hz).
    split_and!; [|done| |done].
    + destruct tx as [? ? ? ? ? ? [] ? ? ? ? ? ?]. simpl in *. by subst.
    + intros k Hk. destruct (ho_of _ _ _ _ _ Hho k Hk) as (j & w & v & Hj & _ & Hw & _).
      assert (Hin : w ∈ taken (w_entries (wset tx)))
        by (apply list_elem_of_filter; split; [done|by eapply list_elem_of_lookup_2]).
      rewrite Hz in Hin. by apply elem_of_nil in Hin.
Qed.

Lemma abort_spec reason tx s (R : unit -> stm_tx -> st -> Prop) :
  abortable C m0 i tx s -> mine i (horder s) = l ->
  wpM i (stm_abort C fuel reason) tx (post R) s.
Proof. apply rollback_spec. Qed.

(** ** Ticks *)

(** Still running, with the snapshot possibly moved *)
Definition still (b : txbody) (log : list (Z * Z)) (tx : stm_tx) (n : nat) (tx' : stm_tx) (s : st) : Prop :=
  exists e, tx' = tx <| tx_end := Z.of_nat e |> /\ running C m0 i b0 b log tx' n e s /\
            mine i (horder s) = l.

Lemma still_stable b log tx n tx' : Stable i (still b log tx n tx').
Proof.
  apply stable_ex. intros e. apply stable_and; [apply stable_pure|].
  apply stable_and; [apply running_stable|apply mine_stable].
Qed.

Lemma still_id b log tx n e s :
  running C m0 i b0 b log tx n e s -> mine i (horder s) = l -> still b log tx n tx s.
Proof. intros Hr Hm. exists e. split_and!; [|done|done]. symmetry. apply set_end_id, Hr. Qed.

(** The extension a tick asks for, and the abort when it fails *)
Lemma tick_extend_spec b log tx n e k s (R : unit -> stm_tx -> st -> Prop) :
  truth (ro tx) = false -> running C m0 i b0 b log tx n e s -> mine i (horder s) = l ->
  (forall tx' s', Inv s' -> still b log tx n tx' s' -> wpM i k tx' (post R) s') ->
  wpM i (bind (stm_extend C) (fun ok =>
         bind (when (ok =? 0) (stm_abort C fuel STM_ABORT_EARLY)) (fun _ => k))) tx (post R) s.
Proof.
  intros Hro Hrun Hm Hk.
  apply wpM_bind; [intros; apply post_stable_jump|intros; apply post_stable_halt|].
  eapply wpM_mono; [|apply (extend_spec b log tx n e 0 s); [done|lia|done..]].
  intros [ok|r|h] tx' s1 HI1; simpl; [|done|by intros ->].
  intros (e' & Htx & _ & _ & Hr1 & Hm1).
  destruct (Z.eqb_spec ok 0); simpl.
  - apply (wpM_seq _ _ _ (fun _ _ _ => False)); [|done].
    apply abort_spec; [by eapply running_abortable|done].
  - apply Hk; [done|]. by exists e'.
Qed.

Lemma running_ro b log tx n e s :
  ea C = true -> running C m0 i b0 b log tx n e s -> truth (ro tx) = false.
Proof. intros He Hr. by apply (tb_ea _ _ _ (tr_base _ _ _ (rn_base _ _ _ _ _ _ _ _ _ _ Hr))). Qed.

Definition running_mine b log tx n e (s : st) : Prop :=
  running C m0 i b0 b log tx n e s /\ mine i (horder s) = l.

Lemma running_mine_stable b log tx n e : Stable i (running_mine b log tx n e).
Proof. apply stable_and; [apply running_stable|apply mine_stable]. Qed.

Lemma ret_still b log tx n tx' s :
  still b log tx n tx' s ->
  wpM i (ret tt) tx' (post (fun (_ : unit) => still b log tx n)) s.
Proof. intros Hs. apply wpM_ret; [apply still_stable|done]. Qed.

Lemma ctl_still f v b log tx n tx' s :
  (forall t, ~ shared_cell (f t)) -> still b log tx n tx' s ->
  wpM i (ea_store f v) tx' (post (fun (_ : unit) => still b log tx n)) s.
Proof.
  intros Hf Hs. eapply wpM_mono; [|apply (keep_ea_store f v tx' (still b log tx n tx')); [done| |done]].
  - intros [[]|r|h] tx2 s2 HI2; simpl; [by intros [-> ?]|done|by intros ->].
  - apply still_stable.
Qed.

Lemma standing_tick_spec b log tx n e s :
  running_mine b log tx n e s ->
  wpM i (ea_standing_tick C fuel) tx (post (fun _ => still b log tx n)) s.
Proof.
  intros Hrm. unfold ea_standing_tick. destruct (ea C) eqn:Hea; simpl.
  2: { apply ret_still. eapply still_id; apply Hrm. }
  pose proof (running_mine_stable b log tx n e) as HP.
  apply (wpM_keep _ _ _ (running_mine b log tx n e)); [by apply keep_ea_load|].
  intros sd s1 HI1 Hrm1. destruct (sd =? 1); simpl.
  2: { apply ret_still. eapply still_id; apply Hrm1. }
  eapply wpM_keep; [apply (keep_ea_store Tx_on 0 tx (running_mine b log tx n e)); [by intros t []|done..]|].
  intros [] s2 HI2 Hrm2.
  eapply wpM_keep;
    [apply (keep_ea_store Recently_validated 1 tx (running_mine b log tx n e)); [by intros t []|done..]|].
  intros [] s3 HI3 [Hr3 Hm3]. eapply tick_extend_spec; [by eapply running_ro|done..|].
  intros tx' s4 HI4 Hst. destruct (negb (ea_kernel C)); simpl; [|by apply ret_still].
  apply ctl_still; [by intros t []|done].
Qed.

Lemma revalidate_spec b log tx n e s :
  ea C = true -> running_mine b log tx n e s ->
  wpM i (stm_revalidate C fuel) tx (post (fun _ => still b log tx n)) s.
Proof.
  intros Hea Hrm. pose proof (running_mine_stable b log tx n e) as HP.
  eapply wpM_keep; [apply (keep_ea_store Tx_on 0 tx (running_mine b log tx n e)); [by intros t []|done..]|].
  intros [] s3 HI3 [Hr3 Hm3]. eapply tick_extend_spec; [by eapply running_ro|done..|].
  intros tx' s4 HI4 Hst. apply ctl_still; [by intros t []|done].
Qed.

Lemma et_check_spec b log tx n e s :
  running_mine b log tx n e s ->
  wpM i (et_check C fuel) tx (post (fun _ => still b log tx n)) s.
Proof.
  intros Hrm. unfold et_check. destruct (ea C) eqn:Hea; simpl.
  2: { apply ret_still. eapply still_id; apply Hrm. }
  pose proof (running_mine_stable b log tx n e) as HP.
  apply (wpM_ext m0 progs ext_step i _ _ tx (running_mine b log tx n e)); [done..|].
  intros [c g] r x Hs1 HI Hx. apply (set_ext _ _ _ Hset) in Hx. inversion Hx; subst. simpl.
  exists g. destruct c as [c x']; simpl in *.
  split; [split; [done|intros; apply rely_refl]|].
  apply (wpM_keep _ _ _ (running_mine b log tx n e)); [by apply keep_ea_load|].
  intros on s1 HI1 Hrm1. destruct ((r =? 1) && (on =? 1)); simpl.
  - by eapply revalidate_spec.
  - apply ret_still. eapply still_id; apply Hrm1.
Qed.

End Thread.

End Extend.
