(* ===== verification/CtlBody.v ===== *)
(** * Reads and writes

    A read of the shared memory returns the value some version of the word has
    for good, current at the snapshot, and logs it; a read of an address written
    before returns what the pending writes make of it; a write extends the
    pending writes.  So the body run so far stays equivalent to the sequential
    one on any memory that agrees with the log. *)
From S2P Require Import Prelude Words LockWord Machine Tx Ctl CtlHist CtlInv CtlStep CtlLogic CtlAssert CtlExtend.
From Stdlib Require Import FunctionalExtensionality.
Import WriteBack.

(** ** The write set as a memory *)

Lemma find_written_Some ws a k :
  find_written ws a = Some k -> exists w, ws !! k = Some w /\ w_addr w = a.
Proof.
  revert k. induction ws as [|w ws IH]; intros k; simpl; [done|].
  destruct (Z.eqb_spec (w_addr w) a) as [Ha|Ha].
  - intros [= <-]. by exists w.
  - intros (k' & Hk & ->)%fmap_Some. by apply IH.
Qed.

Lemma find_written_None ws a :
  find_written ws a = None -> Forall (fun w => w_addr w <> a) ws.
Proof.
  induction ws as [|w ws IH]; simpl; [constructor|].
  destruct (Z.eqb_spec (w_addr w) a) as [Ha|Ha]; [done|].
  intros Hf%fmap_None. constructor; auto.
Qed.

Lemma apply_absent ws m a : Forall (fun w => w_addr w <> a) ws -> apply m (writes ws) a = m a.
Proof.
  intros Hws. revert m. induction Hws as [|w ws Hw Hws IH]; intros m; simpl; [done|].
  unfold apply, writes in *. simpl. rewrite IH. by apply upd_other.
Qed.

Lemma apply_present ws m k w :
  NoDup (w_addr <$> ws) -> ws !! k = Some w ->
  apply m (writes ws) (w_addr w) = wmerge (m (w_addr w)) (w_value w) (w_mask w).
Proof.
  revert m k. induction ws as [|w0 ws IH]; intros m k Hnd Hk; [done|].
  simpl in Hnd. apply list.NoDup_cons in Hnd as [Hnin Hnd].
  unfold writes in *. simpl. destruct k as [|k]; simpl in Hk.
  - simplify_eq. rewrite (apply_absent ws).
    + by rewrite upd_same.
    + apply list.Forall_forall. intros w' Hw' Heq. destruct Hnin. rewrite <- Heq.
      by apply list_elem_of_fmap_2.
  - rewrite (IH _ _ Hnd Hk). rewrite upd_other; [done|]. intros Heq. destruct Hnin.
    rewrite <- Heq. apply list_elem_of_fmap_2. by eapply list_elem_of_lookup_2.
Qed.

Lemma writes_ok ws : Forall w_ok ws -> Forall write_ok (writes ws).
Proof. intros Hws. apply Forall_fmap. eapply Forall_impl; [|exact Hws]. by intros w (? & ? & _). Qed.

Lemma writes_words ws m : Forall w_ok ws -> is_mem m -> is_mem (apply m (writes ws)).
Proof. intros. apply apply_words; [by apply writes_ok|done]. Qed.

(** A second store to an address is folded into its entry. *)
Lemma apply_merge ws m k w v x :
  ws_ok ws -> is_mem m -> is_word v -> is_word x -> ws !! k = Some w ->
  apply m (writes (alter (merge_entry v x) k ws)) =
  let M := apply m (writes ws) in upd M (w_addr w) (wmerge (M (w_addr w)) v x).
Proof.
  intros [Hok Hnd] Hm Hv Hx Hk. cbv zeta. apply functional_extensionality. intros a.
  destruct (Forall_lookup_1 _ _ _ _ Hok Hk) as (? & ? & _).
  assert (Haddr : w_addr <$> alter (merge_entry v x) k ws = w_addr <$> ws).
  { apply list_eq. intros j. rewrite !list_lookup_fmap.
    destruct (decide (j = k)) as [->|]; [|by rewrite list_lookup_alter_ne].
    by rewrite list_lookup_alter_eq, Hk. }
  destruct (decide (a = w_addr w)) as [->|Hne].
  - rewrite upd_same, (apply_present ws _ k w) by done.
    change (w_addr w) with (w_addr (merge_entry v x w)).
    rewrite (apply_present _ m k (merge_entry v x w)).
    + simpl. symmetry. apply wmerge_wmerge; auto.
    + by rewrite Haddr.
    + by rewrite list_lookup_alter_eq, Hk.
  - rewrite upd_other by done. destruct (find_written ws a) as [j|] eqn:Hf.
    + apply find_written_Some in Hf as (w' & Hj & <-).
      assert (k <> j) by (intros ->; simplify_eq; done).
      rewrite (apply_present ws _ j w') by done. apply (apply_present _ m j).
      * by rewrite Haddr.
      * by rewrite list_lookup_alter_ne.
    + apply find_written_None in Hf. rewrite !apply_absent; [done..|].
      apply Forall_alter; [done|]. intros w' Hw' ?. simplify_eq. done.
Qed.

(** A first store to an address adds an entry. *)
Lemma apply_add ws m a v x ver lk nd :
  is_mem m -> Forall w_ok ws -> is_word v -> is_word x ->
  apply m (writes (ws ++ [mk_w_entry a (if x =? 0 then 0 else v) x ver lk nd])) =
  let M := apply m (writes ws) in upd M a (wmerge (M a) v x).
Proof.
  intros Hm Hok Hv Hx. cbv zeta. unfold writes. rewrite fmap_app, apply_app. simpl.
  destruct (Z.eqb_spec x 0) as [->|]; [|done].
  pose proof (writes_words ws m Hok Hm a) as Ha. unfold writes in Ha.
  by rewrite !wmerge_0 by auto with word.
Qed.

Lemma merge_ok ws k w v x :
  ws_ok ws -> is_word v -> is_word x -> ws !! k = Some w ->
  ws_ok (alter (merge_entry v x) k ws).
Proof.
  intros [Hok Hnd] Hv Hx Hk. split.
  - apply Forall_alter; [done|]. intros w' ? (? & ? & ?). split_and!; simpl; auto with word.
  - assert (w_addr <$> alter (merge_entry v x) k ws = w_addr <$> ws) as ->; [|done].
    apply list_eq. intros j. rewrite !list_lookup_fmap.
    destruct (decide (j = k)) as [->|]; [|by rewrite list_lookup_alter_ne].
    by rewrite list_lookup_alter_eq, Hk.
Qed.

Lemma add_ok ws a v x ver nd :
  ws_ok ws -> is_word v -> is_word x -> Forall (fun w => w_addr w <> a) ws ->
  ws_ok (ws ++ [mk_w_entry a (if x =? 0 then 0 else v) x ver (GET_LOCK a) nd]).
Proof.
  intros [Hok Hnd] Hv Hx Hf. split.
  - apply list.Forall_app. split; [done|]. constructor; [|constructor]. split_and!; simpl; [|done|done].
    by destruct (x =? 0).
  - rewrite fmap_app. apply list.NoDup_app. split_and!; [done| |apply NoDup_singleton].
    intros a' Ha' Hin. apply list_elem_of_singleton in Hin. simpl in Hin. subst a'.
    apply list_elem_of_fmap in Ha' as (w & Heq & Hw). rewrite list.Forall_forall in Hf.
    by apply (Hf w).
Qed.

Lemma agree_app m l1 l2 : agree m (l1 ++ l2) -> agree m l1 /\ agree m l2.
Proof. apply list.Forall_app. Qed.

Section Body.

Context (C : config) (fuel : nat) (m0 : mem).
Context (progs : list (list (option stm_tx_attr * txbody))).
Context (ext_step : nat -> ext -> arrays -> Z -> arrays -> Prop).
Hypothesis Hset : setting C progs ext_step.
Context (i : nat) (b0 : txbody) (l : list rec).

Local Abbreviation Inv := (Inv m0 progs).
Local Abbreviation Stable := (stable Inv rely).
Local Abbreviation wpM := (wpM m0 progs ext_step).
Local Abbreviation guar := (guar m0 progs).
Local Abbreviation post := (post C m0 progs i b0 l).
Local Abbreviation running := (running C m0 i b0).
Local Abbreviation running_mine := (running_mine C m0 i b0 l).
Local Abbreviation still := (still C m0 i b0 l).

(** ** Lock, value, lock *)

(** A lock word read some time ago: if unlocked, a version of the stripe. *)
Definition lock_was (k lk : Z) (s : st) : Prop :=
  truth (LOCK_GET_WRITE lk) = false ->
  exists v : nat, lk = 2 * Z.of_nat v /\ (v <= ver s.2 k)%nat /\ (v <= now s)%nat.

(** [x] is the value of version [v] at [a], or [v] is not current any more. *)
Definition seen (a : Z) (v : nat) (x : Z) (s : st) : Prop :=
  (v <= now s)%nat /\ (v <= ver s.2 (GET_LOCK a))%nat /\
  ((mem_at m0 (hist s.2) v a = x /\ settled (hist s.2) (GET_LOCK a) v) \/
   (exists t, (v <= t)%nat /\ wrote (hist s.2) t (GET_LOCK a)) \/
   (v < ver s.2 (GET_LOCK a))%nat).

Lemma lock_was_stable j k lk : Stable j (lock_was k lk).
Proof.
  intros s s' Hw Hr HI Hl. destruct (Hw Hl) as (v & -> & ? & ?). exists v.
  pose proof (proj1 (rl_ver _ _ _ Hr k)). pose proof (rely_now _ _ _ Hr). split_and!; [done|lia..].
Qed.

Lemma seen_stable j a v x : Stable j (seen a v x).
Proof.
  intros s s' (Hn & Hv & Hs) Hr HI.
  pose proof (proj1 (rl_ver _ _ _ Hr (GET_LOCK a))). pose proof (rely_now _ _ _ Hr).
  pose proof (rl_hist _ _ _ Hr) as Hle.
  split_and!; [lia..|]. destruct Hs as [[<- Hs]|[(t & ? & ?)|?]].
  - left. split; [by apply mem_at_settled|by eapply settled_le].
  - right. left. exists t. split; [done|]. by eapply wrote_le.
  - right. right. lia.
Qed.

(** What an unlocked lock word says. *)
Lemma lock_read s k :
  Inv s -> truth (LOCK_GET_OWNED (cell s.1 (Lock k))) = false ->
  stripe_free m0 s k (ver s.2 k) /\ LOCK_GET_TIMESTAMP (cell s.1 (Lock k)) = Z.of_nat (ver s.2 k).
Proof.
  intros HI Ho. pose proof (lock_cases m0 progs s k HI) as Hlk. cbv zeta in Hlk.
  destruct Hlk as [(v & _ & Hf & _ & Ht)|(j & p & _ & _ & Ho1 & _)].
  - by rewrite (sf_ver _ _ _ _ Hf).
  - by rewrite Ho1 in Ho.
Qed.

Lemma lock_was_now s k : Inv s -> lock_was k (cell s.1 (Lock k)) s.
Proof.
  intros HI Hw. destruct (lock_read s k HI Hw) as [[Hv Hl Hn _ _ _] _].
  exists (ver s.2 k). split_and!; done.
Qed.

Lemma seen_now s a v :
  Inv s -> (v <= ver s.2 (GET_LOCK a))%nat -> (v <= now s)%nat -> seen a v (cell s.1 (Word a)) s.
Proof.
  intros HI Hv Hn. split_and!; [done..|].
  destruct (decide (v < ver s.2 (GET_LOCK a))%nat) as [|Hge]; [auto|].
  assert (v = ver s.2 (GET_LOCK a)) as -> by lia.
  pose proof (inv_stripes _ _ _ HI (GET_LOCK a)) as Hok. unfold stripe_ok in Hok.
  destruct (held s.2 (GET_LOCK a)) as [j|].
  - destruct Hok as [_ _ Hp [Hm|(t & ? & ?)]]; [left|right; left; eauto].
    split; [by rewrite Hm|]. intros k Hk Hpe. specialize (Hp _ Hpe). lia.
  - destruct Hok as (v & [<- _ _ Ht Hp Hm]). left. split; [|intros k _; apply Hp].
    rewrite Hm by done. symmetry. by apply mem_at_no_touch.
Qed.

(** The second read of the lock confirms the value. *)
Lemma seen_confirm s a v x :
  Inv s -> seen a v x s -> cell s.1 (Lock (GET_LOCK a)) = 2 * Z.of_nat v ->
  mem_at m0 (hist s.2) v a = x /\ settled (hist s.2) (GET_LOCK a) v /\
  no_touch (hist s.2) (GET_LOCK a) v (now s) /\ (v <= now s)%nat.
Proof.
  intros HI (Hn & Hv & Hs) Hc.
  assert (Ho : truth (LOCK_GET_OWNED (cell s.1 (Lock (GET_LOCK a)))) = false).
  { rewrite wb_owned, Hc, Z.mul_comm, Z.mod_mul by lia. done. }
  destruct (lock_read s (GET_LOCK a) HI Ho) as [Hf _]. destruct Hf as [_ Hl _ Ht _ _].
  assert (ver s.2 (GET_LOCK a) = v) as Heq by lia. rewrite Heq in *.
  destruct Hs as [[? ?]|[(t & ? & Hw)|?]]; [by split_and!| |lia].
  destruct (Ht t); [|by apply wrote_touch]. destruct Hw as (sl & Hsl & _).
  apply lookup_lt_Some in Hsl. unfold now. lia.
Qed.

(** The value and version that [stm_read_lock] answers *)
Definition fetched (b : txbody) (log : list (Z * Z)) (tx : stm_tx) (n : nat) (a : Z)
    (r : option (Z * Z)) (tx' : stm_tx) (s : st) : Prop :=
  exists e v x, r = Some (x, Z.of_nat v) /\ tx' = tx <| tx_end := Z.of_nat e |> /\
    running_mine b log tx' n e s /\ (v <= e)%nat /\ settled (hist s.2) (GET_LOCK a) v /\
    no_touch (hist s.2) (GET_LOCK a) v e /\ mem_at m0 (hist s.2) v a = x.

Lemma fetched_stable b log tx n a r tx' : Stable i (fetched b log tx n a r tx').
Proof.
  intros s s' (e & v & x & -> & -> & Hrm & Hv & Hs & Hn & <-) Hr HI.
  pose proof (rl_hist _ _ _ Hr) as Hle.
  assert (e <= now s)%nat by apply Hrm.
  exists e, v, (mem_at m0 (hist s.2) v a). split_and!; try done.
  - by eapply running_mine_stable.
  - eapply settled_le; [done| |done]. unfold now in *. lia.
  - by eapply no_touch_le.
  - apply mem_at_settled; [done|unfold now in *; lia|done].
Qed.

Lemma running_end b log tx n e s : running b log tx n e s -> tx_end tx = Z.of_nat e.
Proof. intros Hr. apply Hr. Qed.

Lemma running_now b log tx n e s : running b log tx n e s -> (e <= now s)%nat.
Proof. intros Hr. apply Hr. Qed.

(** The version is confirmed at a time the snapshot covers. *)
Lemma fetched_intro b log tx n e a v x tx' s :
  tx' = tx <| tx_end := Z.of_nat e |> -> running_mine b log tx' n e s -> (v <= e)%nat ->
  mem_at m0 (hist s.2) v a = x -> settled (hist s.2) (GET_LOCK a) v ->
  no_touch (hist s.2) (GET_LOCK a) v e -> fetched b log tx n a (Some (x, Z.of_nat v)) tx' s.
Proof. intros. exists e, v, x. by split_and!. Qed.

Lemma truth_write lk : truth (LOCK_GET_WRITE lk) = truth (LOCK_GET_OWNED lk).
Proof. done. Qed.

Lemma read_lock_spec b log n a nf :
  forall tx e lk s, running_mine b log tx n e s ->
    match lk with Some lk => lock_was (GET_LOCK a) lk s | None => True end ->
    wpM i (stm_read_lock C fuel nf a lk) tx (post (fetched b log tx n a)) s.
Proof.
  set (k := GET_LOCK a).
  induction nf as [|nf IH]; intros tx e lk s Hrm Hlk.
  { by apply wpM_stop; [apply stable_pure|]. }
  pose proof (running_mine_stable C m0 progs i b0 l b log tx n e) as HP.
  (* the end of an iteration that goes round again *)
  assert (Hagain : forall tx' e' lk s', tx' = tx <| tx_end := Z.of_nat e' |> ->
    running_mine b log tx' n e' s' ->
    match lk with Some lk => lock_was k lk s' | None => True end ->
    wpM i (stm_read_lock C fuel nf a lk) tx' (post (fetched b log tx n a)) s').
  { intros tx' e' lk' s' Htx Hrm' Hlk'. eapply wpM_mono; [|by eapply IH].
    intros [r|r|h] tx2 s2 HI2; simpl; [|done..].
    intros (e2 & v & x & -> & -> & Hf). subst tx'. exists e2, v, x.
    split; [done|]. split; [done|exact Hf]. }
  assert (Hid : tx = tx <| tx_end := Z.of_nat e |>).
  { symmetry. apply set_end_id. by eapply running_end, Hrm. }
  (* the rest of the iteration, once the lock word is known *)
  match goal with |- CtlLogic.wpM _ _ _ _ (stm_read_lock _ _ (S _) _ _) _ ?Q _ =>
    assert (Hrest : forall lk s1, running_mine b log tx n e s1 -> Inv s1 -> lock_was k lk s1 ->
      wpM i (stm_read_lock C fuel (S nf) a (Some lk)) tx Q s1) end.
  { intros lk0 s1 Hrm1 HI1 Hwas.
    change (wpM i (if truth (LOCK_GET_WRITE lk0) then
        if lk0 =? LOCK_UNIT then stm_read_lock C fuel nf a None else stm_read_lock C fuel nf a None
      else bind (load (Word a)) (fun value => bind (load (Lock k)) (fun l2 =>
        if negb (lk0 =? l2) then stm_read_lock C fuel nf a (Some l2)
        else let version := LOCK_GET_TIMESTAMP lk0 in
          bind get (fun tx => if tx_end tx <? version then
            bind (if truth (ro tx) then ret 0 else if negb (truth (can_extend tx)) then ret 0
                  else stm_extend C) (fun ok =>
            if negb (truth ok) then
              bind (count (fun s => s <| aborts_validate_read := incr (aborts_validate_read s) |>))
                (fun _ => bind (stm_rollback C fuel STM_ABORT_VAL_READ) (fun _ => ret None))
            else bind (load (Lock k)) (fun l => if negb (l =? l2)
                   then stm_read_lock C fuel nf a (Some l2) else ret (Some (value, version))))
          else ret (Some (value, version)))))) tx (post (fetched b log tx n a)) s1).
    destruct (truth (LOCK_GET_WRITE lk0)) eqn:Hwr.
    { destruct (lk0 =? LOCK_UNIT); by apply (Hagain tx e). }
    destruct (Hwas Hwr) as (v & Hlk0 & Hv & Hvn).
    assert (Hts : LOCK_GET_TIMESTAMP lk0 = Z.of_nat v).
    { rewrite wb_get_timestamp, Hlk0, Z.mul_comm. by apply Z.div_mul. }
    (* value *)
    apply (wpM_load m0 progs ext_step i _ _ tx
      (fun s => running_mine b log tx n e s /\ lock_was k lk0 s)); [|done|].
    { apply stable_and; [done|apply lock_was_stable]. }
    intros s2 [Hrm2 Hwas2] HI2. set (x := cell s2.1 (Word a)).
    assert (Hseen : seen a v x s2).
    { destruct (Hwas2 Hwr) as (v' & ? & ? & ?). assert (v' = v) as -> by lia. by apply seen_now. }
    (* lock *)
    apply (wpM_load m0 progs ext_step i _ _ tx
      (fun s => running_mine b log tx n e s /\ seen a v x s)); [|done|].
    { apply stable_and; [done|apply seen_stable]. }
    intros s3 [Hrm3 Hseen3] HI3. destruct (Z.eqb_spec lk0 (cell s3.1 (Lock k))) as [Heq|]; simpl.
    2: { apply (Hagain tx e); [done|done|by apply lock_was_now]. }
    destruct (seen_confirm s3 a v x HI3 Hseen3) as (Hm & Hse & Hnt & Hvn3); [fold k; congruence|].
    apply wpM_get. rewrite Hts, (running_end _ _ _ _ _ _ (proj1 Hrm3)).
    destruct (Z.ltb_spec (Z.of_nat e) (Z.of_nat v)) as [Hlt|Hge].
    2: { apply wpM_ret; [apply fetched_stable|].
         apply (fetched_intro b log tx n e); [done|done|lia|done..|].
         intros j Hj. apply Hnt. pose proof (running_now _ _ _ _ _ _ (proj1 Hrm3)). lia. }
    assert (Hab : forall tx' e' s', running_mine b log tx' n e' s' -> wpM i
      (bind (count (fun s => s <| aborts_validate_read := incr (aborts_validate_read s) |>))
         (fun _ => bind (stm_rollback C fuel STM_ABORT_VAL_READ) (fun _ => ret None)))
      tx' (post (fetched b log tx n a)) s').
    { intros tx' e' s' [Hr' Hm']. apply wpM_modify.
      apply (wpM_seq C m0 progs ext_step i b0 l _ _ _ (fun _ _ _ => False)); [|done].
      apply rollback_spec; [done| |done].
      apply (running_abortable C m0 i b0 b log tx' n e') in Hr'. destruct Hr' as [[] ? [] []].
      by constructor. }
    destruct (truth (ro tx)) eqn:Hro; [by apply (Hab tx e)|].
    destruct (negb (truth (can_extend tx))); [by apply (Hab tx e)|].
    apply wpM_bind; [intros; apply post_stable_jump|intros; apply post_stable_halt|].
    eapply wpM_mono; [|apply (wpM_frame _ _ _ _ _ _ (seen a v x)); [intros j; apply seen_stable|done|];
      apply (extend_spec C m0 progs ext_step Hset i b0 l b log tx n e v); [done|done|apply Hrm3..]].
    intros [ok|r|h] tx' s4 HI4; simpl; [|by intros [? _]|by intros [-> _]].
    intros [(e' & Htx & He & Hok & Hr4 & Hm4) Hseen4]. unfold truth.
    destruct (Z.eqb_spec ok 0) as [|Hnz]; simpl; [by apply (Hab tx' e')|]. specialize (Hok Hnz).
    (* lock again *)
    apply (wpM_load m0 progs ext_step i _ _ tx'
      (fun s => running_mine b log tx' n e' s /\ seen a v x s)); [|done|].
    { apply stable_and; [apply running_mine_stable|apply seen_stable]. }
    intros s5 [Hrm5 Hseen5] HI5.
    destruct (Z.eqb_spec (cell s5.1 (Lock k)) (cell s3.1 (Lock k))) as [Heq5|]; simpl.
    - destruct (seen_confirm s5 a v x HI5 Hseen5) as (? & ? & Hnt5 & ?); [fold k; congruence|].
      apply wpM_ret; [apply fetched_stable|]. apply (fetched_intro b log tx n e'); try done.
      intros j Hj. apply Hnt5. pose proof (running_now _ _ _ _ _ _ (proj1 Hrm5)). lia.
    - apply (Hagain tx' e'); [done|done|].
      intros _. exists v. destruct Hseen5 as (? & ? & _). split_and!; [congruence|done..]. }
  destruct lk as [lk|].
  - apply (wpM_inv _ _ _ _ _ _
      (fun s => running_mine b log tx n e s /\ lock_was (GET_LOCK a) lk s)); [|done|].
    { apply stable_and; [done|apply lock_was_stable]. }
    intros s1 [? ?] HI1. by apply Hrest.
  - apply (wpM_load m0 progs ext_step i _ _ tx _ _ s HP Hrm). intros s1 Hrm1 HI1.
    apply (Hrest _ s1); [done|done|by apply lock_was_now].
Qed.

(** ** Loads *)

(** The body that continues with the value loaded is still equivalent to the
    sequential one. *)
Definition loaded (b : Z -> txbody) (a : Z) (log : list (Z * Z)) (n : nat)
    (x : Z) (tx : stm_tx) (s : st) : Prop :=
  exists log' e, running_mine (b x) (log ++ log') tx n e s.

Lemma loaded_stable b a log n x tx : Stable i (loaded b a log n x tx).
Proof.
  apply stable_ex. intros log'. apply stable_ex. intros e. apply running_mine_stable.
Qed.

Definition load_body (b : txbody) (a : Z) (k : Z -> txbody) : Prop :=
  forall m, is_mem m -> seq_run b m = seq_run (k (m a)) m.

Lemma in_word_cell a x : is_word x -> is_word a -> is_word x.
Proof. done. Qed.

(** What a read of address [a] sees through the write set *)
Lemma through_written tx m a w :
  ws_ok (w_entries (wset tx)) ->
  stm_has_written tx a ≫= (fun k => w_entries (wset tx) !! k) = Some w ->
  apply m (writes (w_entries (wset tx))) a = wmerge (m a) (w_value w) (w_mask w) /\ w_ok w.
Proof.
  intros [Hok Hnd] Hw. apply bind_Some in Hw as (k & Hf & Hk).
  apply find_written_Some in Hf as (w' & Hk' & <-). simplify_eq.
  split; [by apply (apply_present _ m k)|]. exact (Forall_lookup_1 _ _ _ _ Hok Hk').
Qed.

Lemma through_unwritten tx m a :
  stm_has_written tx a ≫= (fun k => w_entries (wset tx) !! k) = None ->
  apply m (writes (w_entries (wset tx))) a = m a.
Proof.
  intros Hw. apply apply_absent, find_written_None. unfold stm_has_written in Hw.
  destruct (find_written _ a) as [k|] eqn:Hf; [|done].
  apply find_written_Some in Hf as (w & Hk & _). simpl in Hw. congruence.
Qed.

(** Logging a read *)
Lemma running_log b k log tx n e s a v x y :
  running_mine b log tx n e s -> load_body b a k -> (v <= e)%nat ->
  settled (hist s.2) (GET_LOCK a) v -> no_touch (hist s.2) (GET_LOCK a) v e ->
  mem_at m0 (hist s.2) v a = x ->
  (forall m, is_mem m -> m a = x -> apply m (writes (w_entries (wset tx))) a = y) ->
  let tx' := if truth (ro tx) then tx
             else set_r_entries (r_entries (rset tx) ++ [mk_r_entry (Z.of_nat v) (GET_LOCK a)]) tx in
  running_mine (k y) (log ++ [(a, x)]) tx' n e s.
Proof.
  intros [[Hba ? Har ? ? ? Hws Hbe ? Hsn Hbody] Hm] Hk Hv Hse Hnt Hx Hy. cbv zeta.
  assert (Hsnap : snapshot m0 (if truth (ro tx) then tx
     else set_r_entries (r_entries (rset tx) ++ [mk_r_entry (Z.of_nat v) (GET_LOCK a)]) tx)
     (log ++ [(a, x)]) e s).
  { destruct Hsn as [? ? Hreads Hent]. destruct (truth (ro tx)) eqn:Hro.
    - constructor; try done. apply list.Forall_app. split; [done|]. constructor; [|done].
      exists v. split_and!; try done. congruence.
    - constructor; simpl; try done.
      + apply list.Forall_app. split.
        * eapply Forall_impl; [|exact Hreads]. intros [a' x'] (v' & ? & ? & ? & ? & Hin).
          exists v'. split_and!; try done. intros Hr. apply elem_of_app. auto.
        * constructor; [|done]. exists v. split_and!; try done. intros _. apply elem_of_app.
          right. by apply list_elem_of_singleton.
      + apply list.Forall_app. split; [done|]. constructor; [|done]. exists v. by split_and!. }
  assert (Hbody' : body_at b0 (k y) (log ++ [(a, x)]) (w_entries (wset tx))).
  { intros m Hmm Hag. apply agree_app in Hag as [Hag1 Hag2]. rewrite (Hbody m Hmm Hag1).
    apply list.Forall_cons in Hag2 as [Ha _].
    rewrite Hk by (apply writes_words; [apply Hws|done]). by rewrite (Hy m). }
  split; [|done]. destruct (truth (ro tx)) eqn:Hro; constructor; try done;
    [by destruct Hba as [[]]|by destruct Har|by destruct Hbe].
Qed.

Lemma allocate_rs_spec b log tx n e s :
  running_mine b log tx n e s ->
  wpM i (stm_allocate_rs_entries C true) tx (post (fun _ tx' s' =>
    running_mine b log tx' n e s' /\ exists sz, tx' = tx <| rset := rset tx <| r_size := sz |> |>)) s.
Proof.
  intros [Hr Hm]. apply wpM_modify. apply wpM_get.
  match goal with |- CtlLogic.wpM _ _ _ _ _ ?t _ _ => set (tx1 := t) end.
  assert (Hr1 : running_mine b log tx1 n e s).
  { split; [|done]. destruct Hr as [Hba ? Har ? ? ? Hws Hbe ? Hsn Hbody].
    constructor; try done; [by destruct Hba as [[]]|by destruct Har|by destruct Hbe|by destruct Hsn]. }
  apply (wpM_ext m0 progs ext_step i _ _ tx1 (running_mine b log tx1 n e));
    [apply running_mine_stable|done|].
  intros [c g] r x Hs1 HI Hx. apply (set_ext _ _ _ Hset) in Hx. inversion Hx; subst. simpl.
  exists g. destruct c as [c x']; simpl in *. split; [split; [done|intros; apply rely_refl]|].
  destruct (r =? 0).
  - by apply wpM_stop; [apply stable_pure|].
  - apply wpM_ret.
    + apply stable_and; [apply running_mine_stable|apply stable_pure].
    + split; [done|]. by eexists.
Qed.

Lemma add_read_spec b k log tx n e s a v x y :
  running_mine b log tx n e s -> load_body b a k -> (v <= e)%nat ->
  settled (hist s.2) (GET_LOCK a) v -> no_touch (hist s.2) (GET_LOCK a) v e ->
  mem_at m0 (hist s.2) v a = x ->
  (forall m, is_mem m -> m a = x -> apply m (writes (w_entries (wset tx))) a = y) ->
  wpM i (bind (add_to_read_set C (Z.of_nat v) (GET_LOCK a)) (fun _ => ret y)) tx
    (post (fun z tx' s' => z = y /\ loaded k a log n y tx' s')) s.
Proof.
  intros Hrm Hk Hv Hse Hnt Hx Hy. unfold add_to_read_set.
  apply wpM_assoc. apply wpM_get.
  assert (Hfin : forall tx' s', running_mine (k y) (log ++ [(a, x)]) tx' n e s' ->
    wpM i (ret y) tx' (post (fun z tx' s' => z = y /\ loaded k a log n y tx' s')) s').
  { intros tx' s' Hr'. apply wpM_ret.
    - apply stable_and; [apply stable_pure|apply loaded_stable].
    - split; [done|]. by eexists _, _. }
  destruct (truth (ro tx)) eqn:Hro.
  { apply Hfin. pose proof (running_log b k log tx n e s a v x y) as Hl.
    rewrite Hro in Hl. by apply Hl. }
  set (F := fun s => settled (hist s.2) (GET_LOCK a) v /\ no_touch (hist s.2) (GET_LOCK a) v e /\
    mem_at m0 (hist s.2) v a = x /\ (e <= now s)%nat).
  assert (HF : forall j, Stable j F).
  { intros j s1 s2 (Hs1 & Hn1 & Hm1 & He1) Hr HI. pose proof (rl_hist _ _ _ Hr) as Hle.
    pose proof (rely_now _ _ _ Hr). unfold now in *. split_and!; [| | |lia].
    - eapply settled_le; [done| |done]. lia.
    - by eapply no_touch_le.
    - rewrite <- Hm1. apply mem_at_settled; [done|lia|done]. }
  assert (HFs : F s) by (split_and!; try done; by eapply running_now, Hrm).
  assert (Hadd : forall tx' s', running_mine b log tx' n e s' -> F s' ->
    ro tx' = ro tx -> wset tx' = wset tx ->
    wpM i (bind (modify (fun tx => set_r_entries (r_entries (rset tx) ++
        [mk_r_entry (Z.of_nat v) (GET_LOCK a)]) tx)) (fun _ => ret y)) tx'
      (post (fun z tx' s' => z = y /\ loaded k a log n y tx' s')) s').
  { intros tx' s' Hr' (? & ? & ? & ?) Hro' Hws'. apply wpM_modify. apply Hfin.
    pose proof (running_log b k log tx' n e s' a v x y) as Hl. rewrite Hro', Hro, Hws' in Hl.
    by apply Hl. }
  apply wpM_assoc. destruct (r_nb tx =? r_size (rset tx)); simpl; [|by apply Hadd].
  apply wpM_bind; [intros; apply post_stable_jump|intros; apply post_stable_halt|].
  eapply wpM_mono; [|apply (wpM_frame _ _ _ _ _ _ F); [done..|by apply allocate_rs_spec]].
  intros [[]|r|h] tx' s' HI'; simpl; [|by intros [? _]..].
  intros [[Hr' (sz & ->)] HF']. by apply Hadd.
Qed.

Lemma read_spec b k log tx n e s a :
  running_mine b log tx n e s -> load_body b a k ->
  wpM i (stm_read_invisible C fuel a) tx (post (fun x => loaded k a log n x)) s.
Proof.
  intros Hrm Hk. destruct (proj1 Hrm) as [_ Hst _ _ _ _ Hws _ _ _ Hbody].
  apply wpM_get. apply wpM_assert; [by rewrite Hst|].
  set (written := stm_has_written tx a ≫= (fun k => w_entries (wset tx) !! k)).
  assert (Hread : wpM i (bind (stm_read_lock C fuel fuel a None) (fun r =>
      match r with
      | None => ret 0
      | Some (value, version) =>
          let value := match written with
                       | Some w => wmerge value (w_value w) (w_mask w)
                       | None => value
                       end in
          bind (add_to_read_set C version (GET_LOCK a)) (fun _ => ret value)
      end)) tx (post (fun x => loaded k a log n x)) s).
  { eapply wpM_seq; [by apply (read_lock_spec b log n a fuel tx e None)|].
    intros r tx' s' HI' (e' & v & x & -> & Htx & Hrm' & Hv & Hse & Hnt & Hx). cbv beta iota zeta.
    eapply wpM_mono; [|eapply (add_read_spec b k log tx' n e' s' a v x); try done].
    - intros [z|r|h] tx2 s2 HI2; simpl; [by intros [-> ?]|done..].
    - intros m Hm Ha. assert (Hw' : wset tx' = wset tx) by by rewrite Htx. rewrite Hw'.
      destruct written as [w|] eqn:Hwr.
      + rewrite <- Ha. by apply through_written.
      + rewrite <- Ha. by apply through_unwritten. }
  cbv zeta. fold written. destruct written as [w|] eqn:Hwr; [|exact Hread].
  destruct (Z.eqb_spec (w_mask w) ones64) as [Hmask|]; [|exact Hread].
  apply wpM_ret; [apply loaded_stable|]. exists [], e. rewrite app_nil_r.
  destruct Hrm as [[] ?]. split; [|done]. constructor; try done.
  intros m Hm Hag. rewrite (Hbody m Hm Hag), Hk by (apply writes_words; [apply Hws|done]).
  f_equal. f_equal. destruct (through_written tx m a w Hws Hwr) as [-> (? & ? & _)].
  rewrite Hmask, wmerge_ones; [done|apply Hm|done].
Qed.

Lemma load_spec b k log tx n e s a :
  running_mine b log tx n e s -> load_body b a k ->
  wpM i (stm_load C fuel a) tx (post (fun x => loaded k a log n x)) s.
Proof.
  intros Hrm Hk. eapply wpM_seq; [by eapply read_spec|].
  intros x tx' s' HI' (log' & e' & Hrm').
  eapply wpM_seq; [by apply (standing_tick_spec C fuel m0 progs ext_step Hset i b0 l (k x) (log ++ log') tx' n e')|].
  intros [] tx2 s2 HI2 (e2 & _ & Hr2). apply wpM_ret; [apply loaded_stable|]. by exists log', e2.
Qed.

(** ** Stores *)

Definition store_body (b : txbody) (a v x : Z) (b' : txbody) : Prop :=
  forall m, is_mem m -> seq_run b m = seq_run b' (upd m a (wmerge (m a) v x)).

Definition stored (b' : txbody) (log : list (Z * Z)) (n : nat) (tx : stm_tx) (s : st) : Prop :=
  exists e, running_mine b' log tx n e s.

Lemma stored_stable b' log n tx : Stable i (stored b' log n tx).
Proof. apply stable_ex. intros e. apply running_mine_stable. Qed.

(** Changing the entries of the write set *)
Lemma running_ws b b' log tx n e s ws :
  truth (ro tx) = false -> running_mine b log tx n e s -> ws_ok ws -> Forall (fun w => w_no_drop w = 1) ws ->
  Z.of_nat (length ws) <= w_size (wset tx) -> body_at b0 b' log ws ->
  running_mine b' log (set_w_entries ws tx) n e s.
Proof.
  intros Hro [[Hba ? Har ? ? ? Hws Hbe ? Hsn Hbody] Hm] Hws' Hd Hlen Hb'. split; [|done].
  constructor; try done; [| |by destruct Hbe|by destruct Hsn].
  { destruct Hba as [[] ?]. split; [|done]. constructor; try done. simpl. congruence. }
  destruct Har as [? ? ? ? ?]. by constructor.
Qed.

Lemma merge_spec b b' log tx n e s a v x k :
  truth (ro tx) = false -> running_mine b log tx n e s -> is_word v -> is_word x -> store_body b a v x b' ->
  stm_has_written tx a = Some k ->
  running_mine b' log (set_w_entries (alter (merge_entry v x) k (w_entries (wset tx))) tx) n e s.
Proof.
  intros Hro Hrm Hv Hx Hb Hf. apply find_written_Some in Hf as (w & Hk & <-).
  pose proof Hrm as [[? ? [? ? ? ? Hnb] ? ? Hd Hws ? ? ? Hbody] ?].
  apply (running_ws b); [done|done|by eapply merge_ok| | |].
  - apply Forall_alter; [done|]. by intros.
  - by rewrite length_alter.
  - intros m Hm Hag. rewrite (Hbody m Hm Hag), Hb by (apply writes_words; [apply Hws|done]).
    f_equal. symmetry. by apply (apply_merge _ m k w).
Qed.

Lemma append_spec b b' log tx n e s a v x ver :
  truth (ro tx) = false -> running_mine b log tx n e s -> is_word v -> is_word x -> store_body b a v x b' ->
  stm_has_written tx a = None -> w_nb tx < w_size (wset tx) ->
  running_mine b' log
    (set_w_entries (w_entries (wset tx) ++
       [mk_w_entry a (if x =? 0 then 0 else v) x ver (GET_LOCK a) 1]) tx) n e s.
Proof.
  intros Hro Hrm Hv Hx Hb Hf Hlt. apply find_written_None in Hf.
  pose proof Hrm as [[? ? ? ? ? Hd Hws ? ? ? Hbody] ?].
  apply (running_ws b); [done|done|by apply add_ok| | |].
  - apply list.Forall_app. split; [done|]. by constructor.
  - rewrite length_app. simpl. unfold w_nb in Hlt. lia.
  - intros m Hm Hag. rewrite (Hbody m Hm Hag), Hb by (apply writes_words; [apply Hws|done]).
    f_equal. symmetry. apply (apply_add _ m a); auto; apply Hws.
Qed.

Lemma allocate_ws_spec b log tx n e s :
  running_mine b log tx n e s -> w_nb tx = w_size (wset tx) ->
  wpM i (stm_allocate_ws_entries true) tx (post (fun _ tx' s' =>
    running_mine b log tx' n e s' /\ w_nb tx' < w_size (wset tx') /\ ro tx' = ro tx /\
    w_entries (wset tx') = w_entries (wset tx))) s.
Proof.
  intros Hrm Hnb. apply wpM_modify. apply wpM_get.
  match goal with |- CtlLogic.wpM _ _ _ _ _ ?t _ _ => set (tx1 := t) end.
  apply (wpM_ext m0 progs ext_step i _ _ tx1 (running_mine b log tx n e));
    [apply running_mine_stable|done|].
  intros [c g] r x [Hr Hm] HI Hx. apply (set_ext _ _ _ Hset) in Hx. simpl in Hx.
  exists g. destruct c as [c xs]; simpl in *.
  pose proof Hr as [? ? [Hblk ? ? Hsz ?] Hno ? ? ? ? ? ? ?]. simpl in *.
  assert (Hw : w64 (w_size (wset tx) * 2 * sizeof_w_entry) = w_size (wset tx) * 2 * sizeof_w_entry).
  { apply w64_id. destruct (inv_block _ _ _ HI i) as (_ & _ & Hb). simpl in Hb. rewrite Hblk in Hb.
    simpl in Hb. unfold is_word, word_size, sizeof_w_entry in *. lia. }
  inversion Hx as [| |n' p x' Hn Hp Hal Hend Hfree| | | | |]; subst; simpl in *.
  - split; [split; [done|intros; apply rely_refl]|].
    by apply wpM_stop; [apply stable_pure|].
  - rewrite Hw in Hn, Hend, Hfree |- *.
    split; [apply (guar_array m0 progs i (mk_state c xs)); [exact Hno|simpl; lia|done..]|].
    apply wpM_modify. destruct (Z.eqb_spec r 0); [lia|].
    apply wpM_ret; [apply stable_and; [apply running_mine_stable|apply stable_pure]|].
    split; [|split; [unfold w_nb in *; simpl; lia|done]]. split; [|done].
    destruct Hr as [Hba ? ? ? ? ? ? [? ? ? ?] ? [? ? ? ?] ?].
    constructor; try done; [by destruct Hba as [[]]|].
    constructor; simpl; try done; [by rewrite set_array_same|lia|unfold w_nb in *; simpl; lia].
Qed.

Lemma add_write_spec b b' log tx n e s a v x ver :
  truth (ro tx) = false -> running_mine b log tx n e s -> is_word v -> is_word x -> store_body b a v x b' ->
  stm_has_written tx a = None ->
  wpM i (add_to_write_set a v x ver (GET_LOCK a)) tx (post (fun _ => stored b' log n)) s.
Proof.
  intros Hro Hrm Hv Hx Hb Hf. apply wpM_get.
  assert (Hadd : forall tx' s', running_mine b log tx' n e s' -> w_nb tx' < w_size (wset tx') ->
    truth (ro tx') = false -> w_entries (wset tx') = w_entries (wset tx) ->
    wpM i (bind get (fun tx => let w := mk_w_entry a (if x =? 0 then 0 else v) x ver (GET_LOCK a) 1 in
      bind (modify (fun tx => set_w_entries (w_entries (wset tx) ++ [w]) tx)) (fun _ =>
      ret (w_ptr tx (length (w_entries (wset tx))))))) tx' (post (fun _ => stored b' log n)) s').
  { intros tx' s' Hr' Hlt Hro' Hent. apply wpM_get. cbv zeta. apply wpM_modify.
    apply wpM_ret; [apply stored_stable|]. exists e. apply (append_spec b); try done.
    unfold stm_has_written in *. by rewrite Hent. }
  destruct (Z.eqb_spec (w_nb tx) (w_size (wset tx))); simpl.
  - eapply wpM_seq; [by apply allocate_ws_spec|].
    intros [] tx' s' HI' (? & ? & Hro' & ?). apply Hadd; congruence.
  - apply Hadd; [done| |done..]. destruct Hrm as [[? ? [] ? ? ? ? ? ? ? ?] ?]. lia.
Qed.

Lemma write_abort_spec {A} reason f (r : A) b log tx n e s R :
  running_mine b log tx n e s ->
  wpM i (bind (count f) (fun _ => bind (stm_rollback C fuel reason) (fun _ => ret r))) tx (post R) s.
Proof.
  intros [Hr Hm]. apply wpM_modify.
  apply (wpM_seq C m0 progs ext_step i b0 l _ _ _ (fun _ _ _ => False)); [|done].
  apply rollback_spec; [done| |done].
  apply (running_abortable C m0 i b0 b log tx n e) in Hr. destruct Hr as [[] ? [] []].
  by constructor.
Qed.

Lemma write_lock_spec nf b b' log tx n e s a v x :
  truth (ro tx) = false -> running_mine b log tx n e s -> is_word v -> is_word x -> store_body b a v x b' ->
  wpM i (stm_write_lock C fuel nf a v x) tx
    (post (fun r tx' s' => is_Some r /\ stored b' log n tx' s')) s.
Proof.
  intros Hro Hrm Hv Hx Hb. revert s Hrm. induction nf as [|nf IH]; intros s Hrm.
  { by apply wpM_stop; [apply stable_pure|]. }
  assert (Hst : forall (r : option Z) tx', Stable i (fun s => is_Some r /\ stored b' log n tx' s)).
  { intros r tx'. apply stable_and; [apply stable_pure|apply stored_stable]. }
  apply (wpM_load m0 progs ext_step i _ _ tx (running_mine b log tx n e));
    [apply running_mine_stable|done|].
  intros s1 Hrm1 HI1. destruct (truth (LOCK_GET_OWNED _)).
  { destruct (_ =? LOCK_UNIT); by apply IH. }
  apply wpM_get. destruct (stm_has_written tx a) as [k|] eqn:Hf.
  - apply wpM_modify. apply wpM_ret; [apply Hst|]. split; [by eexists|]. exists e.
    by eapply merge_spec.
  - cbv zeta. destruct (_ && _).
    + by eapply write_abort_spec.
    + eapply wpM_seq; [by eapply add_write_spec|]. intros w tx' s' HI' Hs.
      apply wpM_ret; [apply Hst|]. split; [by eexists|done].
Qed.

Lemma write_spec b b' log tx n e s a v x :
  running_mine b log tx n e s -> is_word v -> is_word x -> store_body b a v x b' ->
  wpM i (stm_write C fuel a v x) tx (post (fun _ => stored b' log n)) s.
Proof.
  intros Hrm Hv Hx Hb. pose proof (proj1 Hrm) as [Hba Hst _ _ _ _ _ _ _ _ _].
  apply wpM_get. apply wpM_assert; [by rewrite Hst|].
  destruct (truth (ro tx)) eqn:Hro.
  - pose proof (tb_attr _ _ _ (tr_base _ _ _ Hba) Hro) as [at0 Hat]. rewrite Hat. simpl.
    apply wpM_modify.
    eapply (write_abort_spec STM_ABORT_RO_WRITE _ 0 b log _ n e).
    destruct Hrm as [[[[] ?] ? [] ? ? ? ? [] ? [] ?] ?]. split; [|done]. constructor; try done.
    constructor; [|done]. constructor; simpl; try done.
    + unfold must_retry in *. simpl. by rewrite Hat in *.
    + rewrite Hat. by eexists.
  - eapply wpM_seq; [by eapply write_lock_spec|].
    intros r tx' s' HI' [[w ->] (e' & Hr')].
    eapply wpM_seq; [by apply (standing_tick_spec C fuel m0 progs ext_step Hset i b0 l b' log tx' n e')|].
    intros [] tx2 s2 HI2 (e2 & _ & Hr2). apply wpM_ret; [apply stored_stable|]. by exists e2.
Qed.

(** ** The body *)

(** Run to the end, on any memory that agrees with the log, the body gives [r]. *)
Definition finished (r : Z) (n : nat) (tx : stm_tx) (s : st) : Prop :=
  exists log e, running_mine (TRet r) log tx n e s.

Lemma finished_stable r n tx : Stable i (finished r n tx).
Proof. apply stable_ex. intros log. apply stable_ex. intros e. apply running_mine_stable. Qed.

(** The values read are those of a state of the serial execution. *)
Lemma running_fault log tx n e s :
  Inv s -> in_progs progs (mk_rec i b0 0) -> running TFail log tx n e s -> serial_fault m0 progs.
Proof.
  intros HI Hin Hr. destruct Hr as [? ? ? ? ? ? ? ? ? [? ? Hreads ?] Hbody].
  assert (Hag : agree (mem_at m0 (hist s.2) e) log).
  { eapply Forall_impl; [|exact Hreads]. intros [a x] (v & ? & Hse & Hnt & <- & _).
    by apply mem_at_no_touch. }
  destruct (mem_at_reached m0 (hist s.2) (ros s.2) e (inv_hist _ _ _ HI)) as (pre & Hex & Hpre).
  exists pre, (mk_rec i b0 0), (mem_at m0 (hist s.2) e). split_and!; [|done|done|].
  - eapply Forall_impl; [|exact Hpre]. intros r (k & sl & Hk & _ & ->).
    destruct (inv_progs _ _ _ HI) as [Hp _]. exact (Forall_lookup_1 _ _ _ _ Hp Hk).
  - simpl. rewrite Hbody; [done| |done].
    destruct (inv_hist _ _ _ HI) as (_ & _ & ? & ?). by apply mem_at_words.
Qed.

Lemma body_spec b log tx n e s :
  in_progs progs (mk_rec i b0 0) -> running_mine b log tx n e s ->
  wpM i (exec_body C fuel b) tx (post (fun r => finished r n)) s.
Proof.
  intros Hin. revert log tx e s. induction b as [r|a k IH|a v k IH|a v x k IH|k IH|];
    intros log tx e s Hrm; simpl; (eapply wpM_seq; [by eapply et_check_spec|]);
    intros [] tx1 s1 HI1 (e1 & _ & Hrm1).
  - apply wpM_ret; [apply finished_stable|]. by exists log, e1.
  - eapply wpM_seq; [by eapply (load_spec (TLoad a k) k)|].
    intros x tx' s' HI' (log' & e' & Hr'). by eapply IH.
  - eapply wpM_seq.
    { apply (wpM_seq C m0 progs ext_step i b0 l _ _ _ (fun _ => stored k log n)).
      - eapply (write_spec (TStore a v k) k); [done|auto with word..|].
        intros m Hm. simpl. f_equal. f_equal. symmetry. apply wmerge_ones; auto with word.
      - intros z tx' s' HI' Hs. apply (wpM_ret _ _ _ i tt tx' (post (fun _ => stored k log n)));
          [apply stored_stable|done]. }
    intros [] tx' s' HI' (e' & Hr'). by eapply IH.
  - eapply wpM_seq.
    { apply (wpM_seq C m0 progs ext_step i b0 l _ _ _ (fun _ => stored k log n)).
      - eapply (write_spec (TStore2 a v x k) k); [done|auto with word..|]. by intros m Hm.
      - intros z tx' s' HI' Hs. apply (wpM_ret _ _ _ i tt tx' (post (fun _ => stored k log n)));
          [apply stored_stable|done]. }
    intros [] tx' s' HI' (e' & Hr'). by eapply IH.
  - apply (wpM_seq C m0 progs ext_step i b0 l _ _ _ (fun _ _ _ => False)); [|done].
    apply abort_spec; [done| |by apply Hrm1]. by eapply running_abortable, Hrm1.
  - apply (wpM_inv _ _ _ _ _ _ (running_mine TFail log tx1 n e1)); [apply running_mine_stable|done|].
    intros s2 [Hr2 _] HI2. apply wpM_stop; [apply stable_pure|].
    by apply (running_fault log tx1 n e1 s2).
Qed.

End Body.
