(* ===== verification/CtlCommit.v ===== *)
(** * Commit

    [stm_commit] acquires the locks of the write set from the last entry down,
    takes a timestamp, validates unless nobody committed since the start, then
    installs the values and releases the locks.  The transaction enters the
    serial order at the ghost step between validation and installation; without
    writes, at the end of its snapshot. *)
From S2P Require Import Prelude Words LockWord Machine Tx Ctl CtlHist CtlInv CtlStep CtlLogic CtlAssert CtlExtend CtlBody.
Import WriteBack.

(** ** Lists *)

Lemma taken_alter (ws : list w_entry) k w f :
  ws !! k = Some w -> w_no_drop w = 1 -> w_no_drop (f w) = 0 ->
  length (taken (alter f k ws)) = S (length (taken ws)).
Proof.
  unfold taken. revert k. induction ws as [|w0 ws IH]; intros k Hk H1 H0; [done|].
  destruct k as [|k]; simpl in Hk.
  - simplify_eq. simpl.
    rewrite filter_cons_True by done. rewrite filter_cons_False by (rewrite H1; lia). done.
  - change (alter f (S k) (w0 :: ws)) with (w0 :: alter f k ws).
    destruct (decide (w_no_drop w0 = 0)).
    + rewrite !filter_cons_True by done. simpl. by rewrite (IH k).
    + rewrite !filter_cons_False by done. by apply IH.
Qed.

Lemma taken_none (ws : list w_entry) : Forall (fun w => w_no_drop w <> 0) ws -> taken ws = [].
Proof.
  unfold taken. induction 1 as [|w ws Hw _ IH]; [done|]. by rewrite filter_cons_False.
Qed.

(** Every lock is released with the last entry it covers. *)
Definition droppers (ws : list w_entry) : Prop :=
  forall l1 w l2, ws = l1 ++ w :: l2 -> w_no_drop w = 0 ->
    Forall (fun w' => w_lock w' <> w_lock w) l2.

Lemma droppers_tail w ws : droppers (w :: ws) -> droppers ws.
Proof. intros Hd l1 w' l2 ->. apply (Hd (w :: l1)). done. Qed.

Record tx_commit (C : config) (i : nat) (tx : stm_tx) : Prop := {
  tc_base : tx_base C i tx;
  tc_nesting : nesting tx = 0 }.

(** A thread between transactions *)
Record idle (i : nat) (tx : stm_tx) (s : st) : Prop := {
  id_self : self tx = i;
  id_nesting : nesting tx = 0;
  id_status : IS_ACTIVE (status tx) = false;
  id_array : own_array i tx s;
  id_none : no_lock i s }.

Section Commit.

Context (C : config) (fuel : nat) (m0 : mem).
Context (progs : list (list (option stm_tx_attr * txbody))).
Context (ext_step : nat -> ext -> arrays -> Z -> arrays -> Prop).
Hypothesis Hset : setting C progs ext_step.
Context (i : nat) (b0 : txbody) (l : list rec).
Hypothesis Hprog : in_progs progs (mk_rec i b0 0).

Local Abbreviation Inv := (Inv m0 progs).
Local Abbreviation Stable := (stable Inv rely).
Local Abbreviation wpM := (wpM m0 progs ext_step).
Local Abbreviation guar := (guar m0 progs).
Local Abbreviation post := (post C m0 progs i b0 l).

(** ** Acquiring the locks *)

(** The entries from index [K] on have their locks. *)
Record acquiring (r : Z) (log : list (Z * Z)) (n e K : nat) (tx : stm_tx) (s : st) : Prop := {
  aq_base : tx_commit C i tx;
  aq_status : status tx = TX_ACTIVE;
  aq_array : own_array i tx s;
  aq_holds : holds m0 i tx None s;
  aq_ws : ws_ok (w_entries (wset tx));
  aq_done : forall j w, (K <= j)%nat -> w_entries (wset tx) !! j = Some w ->
              held s.2 (w_lock w) = Some i;
  aq_low : forall j w, (j < K)%nat -> w_entries (wset tx) !! j = Some w -> w_no_drop w = 1;
  aq_begun : begun i tx n s;
  aq_le : (n <= e)%nat;
  aq_snap : snapshot m0 tx log e s;
  aq_body : body_at b0 (TRet r) log (w_entries (wset tx));
  aq_mine : mine i (horder s) = l }.

Lemma acquiring_stable r log n e K tx : Stable i (acquiring r log n e K tx).
Proof.
  intros s s' [] Hr HI. constructor; try done.
  - by eapply own_array_stable.
  - by eapply holds_stable.
  - intros j w Hj Hw. apply (rl_held _ _ _ Hr). eauto.
  - by eapply begun_stable.
  - by eapply snapshot_stable.
  - by rewrite (rl_mine _ _ _ Hr).
Qed.

Lemma acquiring_abort {A} reason f (a : A) r log n e K tx s R :
  acquiring r log n e K tx s ->
  wpM i (bind (count f) (fun _ => bind (stm_rollback C fuel reason) (fun _ => ret a))) tx (post R) s.
Proof.
  intros Haq. apply wpM_modify.
  apply (wpM_seq C m0 progs ext_step i b0 l _ _ _ (fun _ _ _ => False)); [|done].
  apply rollback_spec; [done| |by apply Haq].
  destruct Haq as [[[] ?] ? [] [] ? ? ? ? ? ? ? ?]. by constructor.
Qed.

(** The descriptor after the lock of entry [k] has been taken at version [v] *)
Definition take_entry (k : nat) (v : Z) (tx : stm_tx) : stm_tx :=
  let tx := set_w_entries (alter (fun w => w <| w_no_drop := 0 |> <| w_version := v |>) k
                             (w_entries (wset tx))) tx in
  set_nb_acquired (nb_acquired (wset tx) + 1) tx.

Lemma ptr_even tx k s : own_array i tx s -> w_ptr tx k mod 2 = 0.
Proof.
  intros [_ _ Hal _ _]. unfold w_ptr, sizeof_w_entry.
  rewrite (Z.div_mod (w_base (wset tx)) 16), Hal by lia.
  replace (16 * (w_base (wset tx) / 16) + 0 + 64 * Z.of_nat k)
    with ((8 * (w_base (wset tx) / 16) + 32 * Z.of_nat k) * 2) by lia.
  by apply Z.mod_mul.
Qed.

Lemma ptr_in tx k w s :
  own_array i tx s -> w_entries (wset tx) !! k = Some w ->
  (extra s.1 i).1 <= w_ptr tx k < (extra s.1 i).1 + (extra s.1 i).2.
Proof.
  intros [Hb _ _ _ Hnb] Hk. rewrite Hb. simpl. apply lookup_lt_Some in Hk.
  unfold w_ptr, w_nb, sizeof_w_entry in *. lia.
Qed.

Lemma take_lookup k v tx j :
  w_entries (wset (take_entry k v tx)) !! j =
  (if decide (j = k) then fun w => w <| w_no_drop := 0 |> <| w_version := v |> else id)
    <$> w_entries (wset tx) !! j.
Proof.
  simpl. case_decide as Hj; [subst; by rewrite list_lookup_alter_eq|].
  rewrite list_lookup_alter_ne by done. by destruct (w_entries (wset tx) !! j).
Qed.

Lemma take_writes k v tx : writes (w_entries (wset (take_entry k v tx))) = writes (w_entries (wset tx)).
Proof.
  apply list_eq. intros j. unfold writes. rewrite !list_lookup_fmap, take_lookup.
  destruct (w_entries (wset tx) !! j) as [w|]; simpl; [|done]. by case_decide.
Qed.

Lemma take_addr k v tx : w_addr <$> w_entries (wset (take_entry k v tx)) = w_addr <$> w_entries (wset tx).
Proof.
  apply list_eq. intros j. rewrite !list_lookup_fmap, take_lookup.
  destruct (w_entries (wset tx) !! j) as [w|]; simpl; [|done]. by case_decide.
Qed.

Lemma take_inv k v tx j w' :
  w_entries (wset (take_entry k v tx)) !! j = Some w' ->
  exists w, w_entries (wset tx) !! j = Some w /\ w_lock w' = w_lock w /\
    ((j = k /\ w_no_drop w' = 0 /\ w_version w' = v) \/ (j <> k /\ w' = w)).
Proof.
  rewrite take_lookup. intros (w & Hj & ->)%fmap_Some. exists w. split; [done|].
  case_decide; subst; simpl; auto.
Qed.

Lemma pinned_other k k' v own s c o v' :
  k' <> k -> (forall a, c (Word a) = cell s.1 (Word a)) ->
  pinned m0 k' v own s ->
  pinned m0 k' v own (mk_state c (extra s.1), set_stripe s.2 k o v').
Proof.
  intros Hne Hc [? ? ? ? ? Hm]. constructor; simpl; try done.
  - by rewrite set_ver_other.
  - intros a Ha. rewrite Hc. by apply Hm.
Qed.

(** Taking the free lock of entry [k] *)
Lemma take_spec r log n e k tx w s :
  Inv s -> acquiring r log n e (S k) tx s -> w_entries (wset tx) !! k = Some w ->
  held s.2 (w_lock w) = None ->
  let v := ver s.2 (w_lock w) in
  let c' := set_cell s.1 (Lock (w_lock w)) (w_ptr tx k + 1) in
  let g' := set_stripe s.2 (w_lock w) (Some i) v in
  guar i s (c', g') /\ acquiring r log n e k (take_entry k (Z.of_nat v) tx) (c', g').
Proof.
  intros HI Haq Hk Hfree. cbv zeta. set (v := ver s.2 (w_lock w)).
  assert (Hg : guar i s (set_cell s.1 (Lock (w_lock w)) (w_ptr tx k + 1),
                         set_stripe s.2 (w_lock w) (Some i) v)).
  { destruct s as [s g]. apply guar_lock; [done| | |done].
    - eapply ptr_even, Haq.
    - by apply (ptr_in tx k w (s, g)); [apply Haq|]. }
  split; [exact Hg|].
  pose proof (inv_stripes _ _ _ HI (w_lock w)) as Hst. unfold stripe_ok in Hst.
  rewrite Hfree in Hst. destruct Hst as (v' & [Hver _ Hnow Hnt Hpe Hm]). fold v in Hver. subst v'.
  destruct Haq as [Hba ? Har [Hof Hby Hlast Hbit Hcnt] [Hok Hnd] Hdone Hlow Hbe ? Hsn Hbody Hmine].
  assert (Hnew : forall w', held s.2 (w_lock w') = Some i -> w_lock w' <> w_lock w).
  { intros w' Hw' Heq. rewrite Heq in Hw'. congruence. }
  constructor; try done.
  - destruct Hba as [[] ?]. split; [|done]. constructor; try done. intros Hro. simpl.
    assert (w_entries (wset tx) = []) as Hnil by auto. by rewrite Hnil.
  - destruct Har. constructor; try done. unfold w_nb in *. simpl. by rewrite length_alter.
  - constructor.
    + intros k' Hk'. destruct (decide (k' = w_lock w)) as [->|Hne].
      * exists k. eexists _, v. rewrite take_lookup, decide_True, Hk by done.
        split_and!; [done..| |].
        { simpl. by rewrite upd_same. }
        constructor; simpl; try done.
        { by rewrite set_ver_same. }
        { intros j Hj. by destruct (Hpe j). }
        { intros j Hj Ht. destruct (Hnt j); [|done]. destruct Ht as (sl & Hsl & _).
          apply lookup_lt_Some in Hsl. unfold now. lia. }
        { intros a Ha. rewrite upd_other, Hm by done. apply mem_at_no_touch; [by rewrite Ha|done]. }
      * simpl in Hk'. rewrite set_held_other in Hk' by done.
        destruct (Hof k' Hk') as (j & w' & v' & Hj & Hl & Hd & Hv' & Hc & Hp).
        assert (j <> k).
        { intros ->. by simplify_eq. }
        exists j, w', v'. rewrite take_lookup, decide_False, Hj by done.
        split_and!; try done.
        { simpl. by rewrite upd_other by congruence. }
        { apply (pinned_other _ _ _ _ s); [done| |done]. intros a. by apply upd_other. }
    + intros j w' Hj Hd. apply take_inv in Hj as (w0 & Hj & Hl & Hcase). simpl.
      destruct Hcase as [[-> _]|[Hne ->]].
      * simplify_eq. rewrite Hl. apply set_held_same.
      * assert (Hh : held s.2 (w_lock w0) = Some i) by eauto.
        rewrite set_held_other by by apply Hnew. done.
    + intros j j' w1 w2 Hj Hj' Hd Hl.
      apply take_inv in Hj as (u1 & Hj & Hl1 & Hc1). apply take_inv in Hj' as (u2 & Hj' & Hl2 & _).
      destruct Hc1 as [[-> _]|[Hne ->]].
      * simplify_eq. destruct (decide (j' <= k)%nat) as [|Hgt]; [done|].
        pose proof (Hdone j' u2 ltac:(lia) Hj') as Hh. congruence.
      * eapply Hlast; [exact Hj|exact Hj'|done|congruence].
    + apply Forall_lookup_2. intros j w' Hj. apply take_inv in Hj as (u & Hj & _ & [(_ & -> & _)|[_ ->]]).
      * by left.
      * exact (Forall_lookup_1 _ _ _ _ Hbit Hj).
    + change (nb_acquired (wset (take_entry k (Z.of_nat v) tx))) with (nb_acquired (wset tx) + 1).
      change (filter _ ?x) with (taken x). simpl.
      rewrite (taken_alter _ k w); [|done|apply (Hlow k w); [lia|done]|done].
      rewrite Hcnt. change (filter _ ?x) with (taken x). lia.
  - split; [|by rewrite take_addr].
    apply Forall_lookup_2. intros j w' Hj. rewrite take_lookup in Hj.
    apply fmap_Some in Hj as (u & Hj & ->). pose proof (Forall_lookup_1 _ _ _ _ Hok Hj).
    by case_decide.
  - intros j w' Hj Hj'. apply take_inv in Hj' as (u & Hj' & -> & _). simpl.
    destruct (decide (j = k)) as [->|]; [simplify_eq; apply set_held_same|].
    assert (Hh : held s.2 (w_lock u) = Some i) by (eapply Hdone; [|done]; lia).
    by rewrite set_held_other by by apply Hnew.
  - intros j w' Hj Hj'. apply take_inv in Hj' as (u & Hj' & _ & [(-> & _)|[_ ->]]); [lia|].
    eapply Hlow; [|done]. lia.
  - by destruct Hbe.
  - by destruct Hsn.
  - intros m Hmm Hag. rewrite take_writes. by apply Hbody.
Qed.

(** The lock of entry [k] was ours already *)
Lemma skip_spec r log n e k tx w s :
  acquiring r log n e (S k) tx s -> w_entries (wset tx) !! k = Some w ->
  held s.2 (w_lock w) = Some i -> acquiring r log n e k tx s.
Proof.
  intros [] Hk Hh. constructor; try done.
  - intros j w' Hj Hj'. destruct (decide (j = k)) as [->|]; [by simplify_eq|].
    eapply aq_done0; [|done]. lia.
  - intros j w' Hj Hj'. eapply aq_low0; [|done]. lia.
Qed.

Lemma set_addr_ptr tx k s : own_array i tx s -> LOCK_SET_ADDR_WRITE (w_ptr tx k) = w_ptr tx k + 1.
Proof. intros. by eapply set_addr_write, ptr_even. Qed.

Definition acquired (r : Z) (log : list (Z * Z)) (n e N K : nat) (ok : bool) (tx : stm_tx) (s : st) : Prop :=
  ok = true /\ length (w_entries (wset tx)) = N /\ acquiring r log n e K tx s.

Lemma acquired_stable r log n e N K ok tx : Stable i (acquired r log n e N K ok tx).
Proof.
  apply stable_and; [apply stable_pure|]. apply stable_and; [apply stable_pure|].
  apply acquiring_stable.
Qed.

Lemma acquire_entry_spec nf r log n e k tx s :
  (k < length (w_entries (wset tx)))%nat -> acquiring r log n e (S k) tx s ->
  wpM i (stm_acquire_entry C fuel nf k) tx
    (post (acquired r log n e (length (w_entries (wset tx))) k)) s.
Proof.
  intros Hlt. destruct (lookup_lt_is_Some_2 _ _ Hlt) as [w Hk].
  revert s. induction nf as [|nf IH]; intros s Haq.
  { by apply wpM_stop; [apply stable_pure|]. }
  simpl. apply wpM_get. rewrite Hk.
  pose proof (acquiring_stable r log n e (S k) tx) as HP.
  apply (wpM_load m0 progs ext_step i _ _ tx _ _ s HP Haq). intros s1 Haq1 HI1.
  pose proof (lock_cases m0 progs s1 (w_lock w) HI1) as Hlk. cbv zeta in Hlk.
  destruct Hlk as [(v & Hn & Hf & Ho & Ht)|(j & p & Hj & Hc & Ho & Hp & Hr)].
  - rewrite Ho. simpl. rewrite Ht.
    apply (wpM_cas m0 progs ext_step i _ _ _ _ tx (acquiring r log n e (S k) tx)); [done..| |].
    + intros s2 Haq2 HI2 Hc2.
      destruct (lock_read m0 progs s2 (w_lock w) HI2) as [Hf2 Ht2]; [by rewrite Hc2, Ho|].
      assert (Hn2 : held s2.2 (w_lock w) = None).
      { destruct (held s2.2 (w_lock w)) as [j|] eqn:Hh; [|done].
        pose proof (inv_stripes _ _ _ HI2 (w_lock w)) as Hs. unfold stripe_ok in Hs.
        rewrite Hh in Hs. destruct Hs as [(p & Hp & He & _) _ _ _].
        rewrite (sf_lock _ _ _ _ Hf2) in Hp. exfalso.
        assert (Hodd : (p + 1) mod 2 = 1) by (rewrite Z.add_mod, He by lia; done).
        rewrite <- Hp, Z.mul_comm, Z.mod_mul in Hodd; lia. }
      assert (Hv : Z.of_nat v = Z.of_nat (ver s2.2 (w_lock w))) by (rewrite <- Ht, <- Ht2; by rewrite Hc2).
      rewrite (set_addr_ptr tx k s2) by apply Haq2.
      destruct (take_spec r log n e k tx w s2 HI2 Haq2 Hk Hn2) as [Hg Haq3].
      eexists. split; [exact Hg|]. simpl. apply wpM_modify. apply wpM_modify.
      apply wpM_ret; [apply acquired_stable|]. split_and!; [done| |rewrite Hv; exact Haq3].
      simpl. by rewrite length_alter.
    + intros s2 Haq2 HI2 _. simpl. by apply IH.
  - rewrite Ho, Hp. simpl. destruct (in_w_set tx p) eqn:Hin.
    + assert (j = i) as ->.
      { destruct (decide (j = i)) as [|Hne]; [done|].
        rewrite (foreign_pointer m0 progs i j tx p s1) in Hin; [done|done|apply Haq1|done|done]. }
      apply wpM_ret; [apply acquired_stable|]. split_and!; [done|done|]. by eapply skip_spec.
    + by eapply acquiring_abort.
Qed.

Lemma acquire_spec r log n e k tx s :
  (k <= length (w_entries (wset tx)))%nat -> acquiring r log n e k tx s ->
  wpM i (stm_acquire C fuel k) tx
    (post (acquired r log n e (length (w_entries (wset tx))) 0)) s.
Proof.
  revert tx s. induction k as [|k IH]; intros tx s Hle Haq.
  { apply wpM_ret; [apply acquired_stable|done]. }
  eapply wpM_seq; [by apply acquire_entry_spec|].
  intros ok tx' s' HI' (-> & Hlen & Haq'). rewrite <- Hlen. apply IH; [lia|done].
Qed.

(** ** Between the timestamp and the commit point *)

(** What the transaction's slot of the history holds *)
Definition my_slot (st : wstate) (r : Z) (log : list (Z * Z)) (tx : stm_tx) : slot :=
  mk_slot st (mk_rec i b0 r) (writes (w_entries (wset tx))) log.

Record stamped (r : Z) (log : list (Z * Z)) (n e p : nat) (tx : stm_tx) (s : st) : Prop := {
  st_base : tx_commit C i tx;
  st_status : status tx = TX_ACTIVE;
  st_array : own_array i tx s;
  st_holds : holds m0 i tx (Some p) s;
  st_ws : ws_ok (w_entries (wset tx));
  st_locked : forall j w, w_entries (wset tx) !! j = Some w -> held s.2 (w_lock w) = Some i;
  st_start : start tx = Z.of_nat n;
  st_slot : hist s.2 !! p = Some (my_slot Pending r log tx);
  st_absent : (S p <= now s)%nat /\ absent i (S p) (drop (S p) (hist s.2)) (ros s.2);
  st_le : (n <= e <= p)%nat;
  st_snap : snapshot m0 tx log e s;
  st_body : body_at b0 (TRet r) log (w_entries (wset tx));
  st_mine : mine i (horder s) = l }.

Lemma stamped_stable r log n e p tx : Stable i (stamped r log n e p tx).
Proof.
  intros s s' [] Hr HI. constructor; try done.
  - by eapply own_array_stable.
  - by eapply holds_stable.
  - intros j w Hj. apply (rl_held _ _ _ Hr). eauto.
  - by eapply (rl_own _ _ _ Hr).
  - by eapply absent_stable.
  - by eapply snapshot_stable.
  - by rewrite (rl_mine _ _ _ Hr).
Qed.

Lemma touches_writes ws k :
  Forall w_ok ws -> touches (writes ws) k -> exists j w, ws !! j = Some w /\ w_lock w = k.
Proof.
  intros Hok Ht. apply Exists_exists in Ht as (x & Hx & Hk).
  apply list_elem_of_In in Hx.
  apply list_elem_of_fmap in Hx as (w & -> & Hw). apply list_elem_of_lookup in Hw as [j Hj].
  exists j, w. split; [done|]. destruct (Forall_lookup_1 _ _ _ _ Hok Hj) as (_ & _ & ->). done.
Qed.

Lemma absent_drop_le k m n h ros :
  (n <= m)%nat -> (k <= S m)%nat -> absent i k (drop n h) ros -> absent i (S m) (drop m h) ros.
Proof.
  intros Hle Hk Ha. apply (absent_weaken i k); [done|]. destruct Ha as [Hh Hr]. split; [|done].
  replace (drop m h) with (drop (m - n) (drop n h)) by (rewrite drop_drop; f_equal; lia).
  by apply Forall_drop.
Qed.

Lemma timestamp_bound s : Inv s -> w64 (Z.of_nat (now s) + 1) = Z.of_nat (S (now s)).
Proof.
  intros HI. pose proof (clock_bound _ _ _ HI). pose proof (set_threads _ _ _ Hset).
  pose proof vmax_spec. pose proof VERSION_MAX_bound. assert (0 <= MAX_THREADS) by by compute.
  rewrite w64_id; [lia|]. unfold is_word, word_size. lia.
Qed.

Lemma pinned_stamp k v sl s c :
  (forall a, c (Word a) = cell s.1 (Word a)) -> pinned m0 k v None s ->
  pinned m0 k v (Some (now s))
    (mk_state c (extra s.1), mk_ghost (hist s.2 ++ [sl]) (ros s.2) (held s.2) (ver s.2)).
Proof.
  intros Hc [Hv Hn Hpe Hto _ Hme].
  assert (Hout : forall j, touch (hist s.2 ++ [sl]) j k -> touch (hist s.2) j k \/ j = now s).
  { intros j (sl' & Hsl' & Hs). destruct (decide (j < now s)%nat) as [Hlt|Hge].
    - left. exists sl'. by rewrite lookup_app_l in Hsl' by done.
    - right. apply lookup_lt_Some in Hsl'. rewrite length_app in Hsl'. unfold now in *.
      simpl in *. lia. }
  constructor; simpl; try done.
  - unfold now in *. simpl. rewrite length_app. lia.
  - intros j Hj. destruct (Hout j (pend_touch _ _ _ Hj)) as [Ht| ->]; [|done].
    destruct Ht as (sl' & Hlt%lookup_lt_Some & _).
    assert (Hp : pend (hist s.2) j k) by (eapply pend_le; [apply hist_le_app|done|done]).
    by specialize (Hpe j Hp).
  - intros j Hvj Hj. destruct (Hout j Hj) as [Ht| ->]; [|done]. by specialize (Hto j Hvj Ht).
  - by intros j [= <-].
  - intros a Ha. rewrite Hc, mem_at_app by done. by apply Hme.
Qed.

(** Taking the timestamp *)
Lemma stamp_spec r log n e tx s :
  Inv s -> acquiring r log n e 0 tx s ->
  let p := now s in
  let c' := set_cell s.1 Clock (w64 (cell s.1 Clock + 1)) in
  let g' := mk_ghost (hist s.2 ++ [my_slot Pending r log tx]) (ros s.2) (held s.2) (ver s.2) in
  guar i s (c', g') /\ stamped r log n e p tx (c', g').
Proof.
  intros HI Haq. cbv zeta. rewrite (inv_clock _ _ _ HI), timestamp_bound by done.
  destruct Haq as [Hba ? Har [Hof Hby Hlast Hbit Hcnt] [Hok Hnd] Hdone _ Hbe ? Hsn Hbody Hmine].
  assert (Hlock : forall j w, w_entries (wset tx) !! j = Some w -> held s.2 (w_lock w) = Some i)
    by (intros j w; apply Hdone; lia).
  assert (Hros : Forall (fun r => (r.1.1 <= now s)%nat) (ros s.2)).
  { destruct (inv_hist _ _ _ HI) as (_ & Hr & _). eapply Forall_impl; [|exact Hr].
    by intros [[d c] lg] (? & _). }
  split.
  - destruct s as [s g]. apply guar_timestamp; [done|done|by apply writes_ok|exact Hprog| | |done].
    + intros k Hk. apply touches_writes in Hk as (j & w & Hj & <-); [|done]. eauto.
    + destruct Hbe as [_ _ Hv [Ha _]]. simpl in *.
      replace (drop vmax (hist g)) with (drop (vmax - n) (drop n (hist g)))
        by (rewrite drop_drop; f_equal; lia). by apply Forall_drop.
  - pose proof (hist_le_app (hist s.2) [my_slot Pending r log tx]) as Hle.
    constructor; try done.
    + by destruct Har.
    + constructor; try done. intros k Hk.
      destruct (Hof k Hk) as (j & w & v & ? & ? & ? & ? & Hc & Hp).
      exists j, w, v. split_and!; try done.
      by apply pinned_stamp.
    + by destruct Hbe.
    + exact (lookup_last_app _ _).
    + unfold now. simpl. rewrite length_app. split; [simpl; lia|].
      rewrite drop_ge by (rewrite length_app; simpl; lia). split; [constructor|].
      eapply Forall_impl; [|exact Hros]. intros [[d c] lg] Hd _. simpl in Hd. unfold now in *. lia.
    + split; [done|]. apply Hsn.
    + destruct Hsn as [? Hne Hre Hen]. constructor; simpl; [done| | |].
      * unfold now in *. simpl. rewrite length_app. lia.
      * eapply Forall_impl; [|exact Hre]. intros x. by apply read_ok_le.
      * eapply Forall_impl; [|exact Hen]. intros x. by apply entry_ok_le.
    + unfold horder. simpl. by rewrite order_pending.
Qed.

(** ** The commit point *)

(** Reads checked up to [p] are those of timestamp [p]. *)
Lemma reads_checked log tx e p h :
  truth (ro tx) = false -> Forall (read_ok m0 h tx e) log -> (e <= p)%nat ->
  Forall (checked h p) (r_entries (rset tx)) -> reads_at m0 h p log.
Proof.
  intros Hro Hr He Hc. eapply Forall_impl; [|exact Hr].
  intros [a x] (v & Hv & Hs & _ & Hm & Hin). rewrite list.Forall_forall in Hc.
  apply (reads_at_no_touch m0 h v p); [done|done| |lia].
  apply (Hc _ (Hin Hro)). done.
Qed.

Lemma reads_current log tx e h :
  Forall (read_ok m0 h tx e) log -> reads_at m0 h e log.
Proof.
  intros Hr. eapply Forall_impl; [|exact Hr]. intros [a x] (v & Hv & Hs & Hn & Hm & _).
  by apply (reads_at_no_touch m0 h v e).
Qed.

Lemma body_replays r log ws : body_at b0 (TRet r) log ws -> replays b0 r (writes ws) log.
Proof. intros Hb m Hm Ha. by rewrite seq_body_run, Hb. Qed.

(** After the commit point: [done] has been written, the locks of [ws] remain. *)
Record installing (r : Z) (p : nat) (all done ws : list w_entry) (tx : stm_tx) (s : st) : Prop := {
  is_base : tx_commit C i tx;
  is_array : own_array i tx s;
  is_slot : exists log, hist s.2 !! p = Some (mk_slot Committed (mk_rec i b0 r) (writes all) log)
              /\ mine i (horder s) = l ++ [mk_rec i b0 r];
  is_of : forall k, held s.2 k = Some i -> exists w, w ∈ ws /\ w_no_drop w = 0 /\ w_lock w = k /\
            (ver s.2 k <= p)%nat /\ (forall j, ~ pend (hist s.2) j k) /\
            (forall j, (ver s.2 k <= j)%nat -> touch (hist s.2) j k -> j = p) /\
            forall a, GET_LOCK a = k ->
              cell s.1 (Word a) = apply (mem_at m0 (hist s.2) p) (writes done) a;
  is_by : forall w, w ∈ ws -> held s.2 (w_lock w) = Some i }.

Lemma installing_stable r p all done ws tx : Stable i (installing r p all done ws tx).
Proof.
  intros s s' [? ? (log & Hs & Hm) Hof Hby] Hr HI. pose proof (rl_hist _ _ _ Hr) as Hle.
  assert (Hp : (p < now s)%nat) by (unfold now; by eapply lookup_lt_Some).
  constructor; try done.
  - by eapply own_array_stable.
  - exists log. split; [by apply (rl_own _ _ _ Hr)|by rewrite (rl_mine _ _ _ Hr)].
  - intros k Hk. apply (rl_held _ _ _ Hr) in Hk.
    destruct (Hof k Hk) as (w & Hw & Hd & Hl & Hv & Hpe & Hto & Hme). exists w.
    rewrite (proj2 (rl_ver _ _ _ Hr k) Hk). split_and!; try done.
    + intros j Hj. destruct (touch_held i k s s' j Hr Hk (pend_touch _ _ _ Hj)) as [_ Hlt].
      apply (Hpe j). by eapply pend_le.
    + intros j Hj Ht. destruct (touch_held i k s s' j Hr Hk Ht). auto.
    + intros a Ha. rewrite (rl_word _ _ _ Hr) by by rewrite Ha. rewrite Hme by done.
      apply apply_ext_at. symmetry. apply mem_at_settled; [done|unfold now in *; lia|].
      intros j _. rewrite Ha. apply Hpe.
  - intros w Hw. apply (rl_held _ _ _ Hr). auto.
Qed.

Lemma holds_droppers tx own s : holds m0 i tx own s -> droppers (w_entries (wset tx)).
Proof.
  intros Hh l1 w l2 Heq Hd. apply Forall_lookup_2. intros j w' Hj Hl.
  pose proof (ho_last _ _ _ _ _ Hh (length l1) (length l1 + S j) w w') as Hlast.
  rewrite Heq in Hlast. specialize (Hlast (list_lookup_middle _ _ _ _ eq_refl)).
  rewrite lookup_app_r in Hlast by lia.
  replace (length l1 + S j - length l1)%nat with (S j) in Hlast by lia.
  specialize (Hlast Hj Hd Hl). lia.
Qed.

Lemma slot_insert_pend (h : list slot) p sl j k :
  (p < length h)%nat -> sl_state sl <> Pending -> pend (<[p := sl]> h) j k -> pend h j k /\ j <> p.
Proof.
  intros Hp Hs (sl' & Hsl' & Hpe & Ht). destruct (decide (j = p)) as [->|Hne].
  - rewrite list_lookup_insert_eq in Hsl' by done. simplify_eq.
  - rewrite list_lookup_insert_ne in Hsl' by done. split; [by exists sl'|done].
Qed.

(** The ghost step that commits the transaction *)
Lemma commit_point r log n e p tx s :
  Inv s -> stamped r log n e p tx s -> reads_at m0 (hist s.2) p log ->
  let g' := mk_ghost (<[p := my_slot Committed r log tx]> (hist s.2)) (ros s.2) (held s.2) (ver s.2) in
  guar i s (s.1, g') /\
  installing r p (w_entries (wset tx)) [] (w_entries (wset tx)) tx (s.1, g').
Proof.
  intros HI [Hba ? Har Hho [Hok Hnd] Hlk ? Hsl [Hnow Habs] ? ? Hbody Hmine] Hreads. cbv zeta.
  pose proof (lookup_lt_Some _ _ _ Hsl) as Hlt.
  assert (Hle : hist_le (hist s.2) (<[p := my_slot Committed r log tx]> (hist s.2)))
    by (eapply hist_le_insert; [done|by right]).
  split.
  - destruct s as [s g]. apply (guar_resolve m0 progs i s g p (my_slot Pending r log tx) Committed);
      [done..| |done]. intros _ _. split; [done|]. by apply body_replays.
  - constructor; try done.
    + by destruct Har.
    + exists log. split; [by apply list_lookup_insert_eq|]. unfold horder. simpl.
      change (my_slot Committed r log tx) with (resolve Committed (my_slot Pending r log tx)).
      rewrite (mine_resolve i s.2 p (my_slot Pending r log tx)) by done.
      unfold horder in Hmine. by rewrite Hmine.
    + intros k Hk. destruct (ho_of _ _ _ _ _ Hho k Hk) as
        (j & w & v & Hj & Hl & Hd & Hv & Hc & [Hve Hn Hpe Hto Ho Hm]). exists w.
      specialize (Ho p eq_refl). simpl.
      split_and!; [by eapply list_elem_of_lookup_2|done|done|lia|..].
      * intros j' Hj'. apply slot_insert_pend in Hj' as [Hj' Hne]; [|done..].
        specialize (Hpe _ Hj'). congruence.
      * intros j' Hvj Ht. apply (touch_insert _ p (my_slot Pending r log tx)) in Ht; [|done..].
        assert (Some p = Some j') by (apply Hto; [lia|done]). congruence.
      * intros a Ha. rewrite Hm by done. simpl. rewrite mem_at_insert by lia.
        symmetry. apply mem_at_no_touch; [|done]. intros j' Hj' Ht. rewrite Ha in Ht.
        assert (Some p = Some j') by (apply Hto; [lia|done]). simplify_eq. lia.
    + intros w Hw. apply list_elem_of_lookup in Hw as [j Hj]. eauto.
Qed.

(** The ghost step that gives the timestamp up *)
Lemma void_point r log n e p tx s :
  Inv s -> stamped r log n e p tx s ->
  let g' := mk_ghost (<[p := my_slot Void r log tx]> (hist s.2)) (ros s.2) (held s.2) (ver s.2) in
  guar i s (s.1, g') /\ abortable C m0 i tx (s.1, g') /\ mine i (horder (s.1, g')) = l.
Proof.
  intros HI [Hba ? Har [Hof Hby ? ? ?] Hws Hlk ? Hsl [Hnow Habs] ? ? Hbody Hmine]. cbv zeta.
  pose proof (lookup_lt_Some _ _ _ Hsl) as Hlt.
  assert (Hle : hist_le (hist s.2) (<[p := my_slot Void r log tx]> (hist s.2)))
    by (eapply hist_le_insert; [done|by right]).
  split_and!.
  - destruct s as [s g]. by apply (guar_resolve m0 progs i s g p (my_slot Pending r log tx) Void).
  - constructor; try done.
    + by destruct Hba.
    + by destruct Har.
    + constructor; try done. intros k Hk.
      destruct (Hof k Hk) as (j & w & v & ? & ? & ? & ? & ? & [Hve Hn Hpe Hto Ho Hm]).
      exists j, w, v. split_and!; try done. specialize (Ho p eq_refl). constructor; simpl; try done.
      * unfold now in *. simpl. by rewrite length_insert.
      * intros j' Hj'. apply slot_insert_pend in Hj' as [Hj' Hne]; [|done..].
        specialize (Hpe _ Hj'). congruence.
      * intros j' Hvj Ht. exfalso. assert (Hne : j' <> p).
        { intros ->. destruct Ht as (sl & Hsl' & Hs & _).
          rewrite list_lookup_insert_eq in Hsl' by done. by simplify_eq. }
        apply (touch_insert _ p (my_slot Pending r log tx)) in Ht; [|done..].
        specialize (Hto _ Hvj Ht). congruence.
      * intros a Ha. by rewrite Hm, mem_at_insert by done.
  - unfold horder. simpl. change (my_slot Void r log tx) with (resolve Void (my_slot Pending r log tx)).
    by rewrite mine_void.
Qed.

(** ** Installation *)

Lemma writes_snoc ws w m :
  apply m (writes (ws ++ [w])) = apply1 (apply m (writes ws)) (w_addr w, w_value w, w_mask w).
Proof. unfold writes. by rewrite fmap_app, apply_app. Qed.

Lemma installing_mem r p all done w ws tx s :
  Inv s -> installing r p all done (w :: ws) tx s -> w_ok w ->
  cell s.1 (Word (w_addr w)) = apply (mem_at m0 (hist s.2) p) (writes done) (w_addr w) /\
  (Forall w_ok done -> is_word (cell s.1 (Word (w_addr w)))).
Proof.
  intros HI Hi (_ & _ & Hl).
  assert (Hh : held s.2 (w_lock w) = Some i) by (apply (is_by _ _ _ _ _ _ _ Hi); left).
  destruct (is_of _ _ _ _ _ _ _ Hi _ Hh) as (_ & _ & _ & _ & _ & _ & _ & Hm).
  rewrite Hm by done. split; [done|]. intros Hd. apply writes_words; [done|].
  destruct (inv_hist _ _ _ HI) as (_ & _ & ? & ?). by apply mem_at_words.
Qed.

Lemma install_word r p all done w ws tx s :
  Inv s -> installing r p all done (w :: ws) tx s -> w_ok w -> w ∈ all -> Forall w_ok all ->
  let c' := set_cell s.1 (Word (w_addr w)) (wmerge (cell s.1 (Word (w_addr w))) (w_value w) (w_mask w)) in
  guar i s (c', s.2) /\ installing r p all (done ++ [w]) (w :: ws) tx (c', s.2).
Proof.
  intros HI Hi Hw Hin Hall. cbv zeta.
  destruct (installing_mem r p all done w ws tx s HI Hi Hw) as [Hcell _].
  destruct Hi as [Hba Har (log & Hsl & Hmine) Hof Hby]. destruct Hw as (_ & _ & Hl).
  assert (Hh : held s.2 (w_lock w) = Some i) by (apply Hby; left).
  destruct (Hof _ Hh) as (_ & _ & _ & _ & Hv & _). rewrite Hl in Hh, Hv.
  split.
  - destruct s as [s g]. apply (guar_word m0 progs i s g _ _ p); [done|done| |done].
    eexists. split_and!; [exact Hsl|done|]. simpl. apply Exists_exists.
    exists (w_addr w, w_value w, w_mask w). split; [|done]. apply list_elem_of_In.
    apply list_elem_of_fmap. by exists w.
  - constructor; try done.
    + by destruct Har.
    + by exists log.
    + intros k Hk. destruct (Hof k Hk) as (w' & ? & ? & ? & ? & ? & ? & Hm). exists w'.
      split_and!; try done. intros a Ha. rewrite writes_snoc. simpl. unfold upd.
      destruct (decide (a = w_addr w)) as [->|Hne].
      * rewrite decide_True by done. by rewrite Hcell.
      * rewrite decide_False by congruence. by apply Hm.
Qed.

(** Nothing to write when the mask is empty *)
Lemma install_none r p all done w ws tx s :
  Inv s -> installing r p all done (w :: ws) tx s -> w_ok w -> Forall w_ok done -> w_mask w = 0 ->
  installing r p all (done ++ [w]) (w :: ws) tx s.
Proof.
  intros HI Hi Hw Hd Hz. destruct (installing_mem r p all done w ws tx s HI Hi Hw) as [Hcell Hword].
  specialize (Hword Hd).
  destruct Hi as [Hba Har Hsl Hof Hby]. constructor; try done.
  intros k Hk. destruct (Hof k Hk) as (w' & ? & ? & ? & ? & ? & ? & Hm). exists w'.
  split_and!; try done. intros a Ha. rewrite writes_snoc. simpl. unfold upd.
  destruct (decide (a = w_addr w)) as [->|Hne]; [|by apply Hm].
  rewrite Hz, <- Hcell, wmerge_0; [done|done|apply Hw].
Qed.

Lemma install_drop r p all done w ws tx s :
  Inv s -> installing r p all done (w :: ws) tx s -> all = done ++ ws -> Forall w_ok all ->
  Forall (fun w' => w_lock w' <> w_lock w) ws ->
  let c' := set_cell s.1 (Lock (w_lock w)) (LOCK_SET_TIMESTAMP (Z.of_nat (S p))) in
  let g' := set_stripe s.2 (w_lock w) None (S p) in
  guar i s (c', g') /\ installing r p all done ws tx (c', g').
Proof.
  intros HI [Hba Har (log & Hsl & Hmine) Hof Hby] Hall Hok Hlast. cbv zeta.
  assert (Hh : held s.2 (w_lock w) = Some i) by (apply Hby; left).
  assert (Hp : (S p <= now s)%nat) by (apply lookup_lt_Some in Hsl; unfold now; lia).
  destruct (Hof _ Hh) as (_ & _ & _ & _ & Hv & Hpe & Hto & Hm).
  rewrite (set_timestamp_now C m0 progs ext_step Hset s) by done.
  split.
  - destruct s as [s g]. apply guar_unlock; [done|simpl in *; lia|done| |done| |done].
    + intros j Hj Ht. simpl in *. assert (j = p) by (apply Hto; [lia|done]). lia.
    + intros a Ha. simpl. rewrite (mem_at_S _ _ _ _ Hsl). unfold step. simpl.
      rewrite Hall. unfold writes. rewrite fmap_app, apply_app. fold (writes done).
      change ((fun w => (w_addr w, w_value w, w_mask w)) <$> ws) with (writes ws).
      rewrite apply_untouched; [by apply Hm|]. rewrite Ha. intros Ht.
      rewrite Hall in Hok. apply list.Forall_app in Hok as [_ Hok].
      apply touches_writes in Ht as (j & w' & Hj & Hlw); [|done].
      by apply (Forall_lookup_1 _ _ _ _ Hlast Hj).
  - constructor; try done.
    + by destruct Har.
    + by exists log.
    + intros k Hk. simpl in Hk. destruct (decide (k = w_lock w)) as [->|Hne];
        [by rewrite set_held_same in Hk|]. rewrite set_held_other in Hk by done.
      destruct (Hof k Hk) as (w' & Hw' & ? & Hl & ? & ? & ? & Hm'). exists w'. simpl.
      rewrite set_ver_other by done. split_and!; try done.
      apply elem_of_cons in Hw' as [->|]; [congruence|done].
    + intros w' Hw'. simpl. rewrite list.Forall_forall in Hlast.
      rewrite set_held_other by by apply Hlast. apply Hby. by right.
Qed.

Lemma install_keep r p all done w ws tx s :
  installing r p all done (w :: ws) tx s -> w_no_drop w <> 0 -> installing r p all done ws tx s.
Proof.
  intros [Hba Har Hsl Hof Hby] Hd. constructor; try done.
  - intros k Hk. destruct (Hof k Hk) as (w' & Hw' & ? & ?). exists w'.
    split; [|done]. by apply elem_of_cons in Hw' as [->|].
  - intros w' Hw'. apply Hby. by right.
Qed.

Lemma install_spec r p all ws done tx s :
  all = done ++ ws -> droppers ws -> Forall w_ok all -> installing r p all done ws tx s ->
  wpM i (stm_install (Z.of_nat (S p)) ws) tx (keeps (installing r p all all [] tx) tx) s.
Proof.
  revert done s. induction ws as [|w ws IH]; intros done s Hall Hdr Hok Hi.
  { apply keep_ret; [apply installing_stable|]. rewrite app_nil_r in Hall. by subst. }
  assert (Hw : w_ok w /\ w ∈ all /\ Forall w_ok done).
  { rewrite Hall in Hok. apply list.Forall_app in Hok as [? Hok]. apply list.Forall_cons in Hok as [? _].
    split_and!; [done| |done]. rewrite Hall. apply elem_of_app. right. left. }
  destruct Hw as (Hw & Hin & Hdone).
  assert (Hall' : all = (done ++ [w]) ++ ws) by by rewrite <- app_assoc.
  simpl. eapply (keep_bind m0 progs ext_step i _ _ _ (installing r p all (done ++ [w]) (w :: ws) tx)).
  { pose proof (installing_stable r p all done (w :: ws) tx) as HP.
    assert (Hst : forall v s1, installing r p all done (w :: ws) tx s1 -> Inv s1 ->
      v = wmerge (cell s1.1 (Word (w_addr w))) (w_value w) (w_mask w) ->
      exists g', guar i s1 (set_cell s1.1 (Word (w_addr w)) v, g') /\
        wpM i (ret tt) tx (keeps (installing r p all (done ++ [w]) (w :: ws) tx) tx)
          (set_cell s1.1 (Word (w_addr w)) v, g')).
    { intros v s1 Hi1 HI1 ->. destruct (install_word r p all done w ws tx s1) as [Hg Hi2]; try done.
      exists s1.2. split; [done|]. apply keep_ret; [apply installing_stable|done]. }
    destruct (Z.eqb_spec (w_mask w) ones64) as [Hones|Hones].
    - apply (wpM_store m0 progs ext_step i _ _ ret tx _ _ s HP Hi). intros s1 Hi1 HI1.
      apply Hst; [done..|]. destruct (installing_mem r p all done w ws tx s1 HI1 Hi1 Hw) as [_ Hword].
      rewrite Hones, wmerge_ones; [done|by apply Hword|apply Hw].
    - destruct (Z.eqb_spec (w_mask w) 0) as [Hz|Hz]; simpl.
      + apply (wpM_inv _ _ _ _ _ _ _ _ _ HP Hi). intros s1 Hi1 HI1.
        apply keep_ret; [apply installing_stable|]. by apply install_none.
      + apply (wpM_inv _ _ _ _ _ _ _ _ _ HP Hi). intros s1 Hi1 HI1.
        set (P := fun s => installing r p all done (w :: ws) tx s /\
          cell s.1 (Word (w_addr w)) = cell s1.1 (Word (w_addr w))).
        assert (HP' : Stable i P).
        { intros s2 s3 [Hi2 Hc2] Hr HI. split; [by eapply HP|]. rewrite (rl_word _ _ _ Hr); [done|].
          destruct Hw as (_ & _ & <-). apply (is_by _ _ _ _ _ _ _ Hi2). left. }
        apply (wpM_load m0 progs ext_step i _ _ tx P _ _ HP'); [by split|].
        intros s2 [Hi2 Hc2] HI2. rewrite Hc2.
        apply (wpM_store m0 progs ext_step i _ _ ret tx P _ _ HP'); [by split|].
        intros s3 [Hi3 Hc3] HI3. apply Hst; [done..|]. by rewrite Hc3. }
  intros [] s1 HI1 Hi1.
  pose proof (installing_stable r p all (done ++ [w]) ws tx) as HP.
  eapply (keep_bind m0 progs ext_step i _ _ _ (installing r p all (done ++ [w]) ws tx)).
  { unfold truth. destruct (Z.eqb_spec (w_no_drop w) 0) as [Hd|Hd]; simpl.
    - apply (wpM_store m0 progs ext_step i _ _ ret tx _ _ s1
        (installing_stable r p all (done ++ [w]) (w :: ws) tx) Hi1).
      intros s2 Hi2 HI2. destruct (install_drop r p all (done ++ [w]) w ws tx s2) as [Hg Hi3]; try done.
      { by apply (Hdr []). }
      eexists. split; [exact Hg|]. by apply keep_ret.
    - apply keep_ret; [done|]. by eapply install_keep. }
  intros [] s2 HI2 Hi2. apply IH with (done ++ [w]); [done|by eapply droppers_tail|done|done].
Qed.

(** ** [stm_commit] *)

Lemma idle_stable tx : Stable i (idle i tx).
Proof.
  intros s s' [] Hr HI. constructor; try done; [by eapply own_array_stable|by eapply no_lock_stable].
Qed.

(** The transaction has committed with result [r]. *)
Definition committed (r : Z) (ok : Z) (tx : stm_tx) (s : st) : Prop :=
  ok = 1 /\ idle i tx s /\ mine i (horder s) = l ++ [mk_rec i b0 r].

Lemma committed_stable r ok tx : Stable i (committed r ok tx).
Proof.
  apply stable_and; [apply stable_pure|]. apply stable_and; [apply idle_stable|apply mine_stable].
Qed.

Lemma commit_end_spec r tx s :
  tx_commit C i tx -> own_array i tx s -> no_lock i s ->
  mine i (horder s) = l ++ [mk_rec i b0 r] ->
  wpM i (stm_commit_end C) tx (post (committed r)) s.
Proof.
  intros Hba Har Hno Hm. apply wpM_modify.
  match goal with |- CtlLogic.wpM _ _ _ _ _ ?t _ _ => set (tx1 := t) end.
  set (P := fun s => own_array i tx1 s /\ no_lock i s /\ mine i (horder s) = l ++ [mk_rec i b0 r]).
  assert (HP : Stable i P).
  { apply stable_and; [apply own_array_stable|].
    apply stable_and; [apply no_lock_stable|apply mine_stable]. }
  eapply (wpM_keep C m0 progs ext_step i b0 l _ _ _ P).
  { apply (keep_callbacks C m0 progs ext_step Hset i); [done..|]. split_and!; [by destruct Har|done|done]. }
  intros [] s1 HI1 (Har1 & Hno1 & Hm1). apply wpM_modify.
  set (tx2 := set_status TX_COMMITTED tx1).
  eapply (wpM_keep C m0 progs ext_step i b0 l _ _ _ (committed r 1 tx2)).
  { assert (Hc : committed r 1 tx2 s1).
    { split_and!; [done| |done]. destruct Hba as [[] ?]. constructor; try done. by destruct Har1. }
    pose proof (committed_stable r 1 tx2). apply keep_when; [done..|]. intros _.
    apply keep_ea_store; [by intros t []|done..]. }
  intros [] s2 HI2 Hc2. by apply wpM_ret; [apply committed_stable|].
Qed.

Lemma commit_update_spec r log n e tx s :
  w_entries (wset tx) <> [] -> acquiring r log n e 0 tx s ->
  wpM i (stm_commit_update C fuel) tx (post (committed r)) s.
Proof.
  intros Hne Haq.
  apply (wpM_fetch_inc m0 progs ext_step i _ _ tx _ _ s (acquiring_stable r log n e 0 tx) Haq).
  intros s1 Haq1 HI1. destruct (stamp_spec r log n e tx s1 HI1 Haq1) as [Hg Hst].
  eexists. split; [exact Hg|]. rewrite (inv_clock _ _ _ HI1), timestamp_bound by done.
  rewrite (inv_clock _ _ _ HI1), timestamp_bound in Hst, Hg by done.
  set (p := now s1) in *. cbv zeta. apply wpM_get.
  replace (w64 (Z.of_nat (S p) - 1)) with (Z.of_nat p).
  2: { pose proof (clock_bound _ _ _ HI1). pose proof (set_threads _ _ _ Hset).
       pose proof vmax_spec. pose proof VERSION_MAX_bound. assert (0 <= MAX_THREADS) by by compute.
       rewrite w64_id; [lia|]. unfold is_word, word_size. fold p in H. lia. }
  pose proof (stamped_stable r log n e p tx) as HP.
  assert (Hro : truth (ro tx) = false).
  { destruct (truth (ro tx)) eqn:Hro; [|done]. destruct Hne. apply Haq. done. }
  (* from the commit point on *)
  assert (Hgo : forall s, Inv s -> stamped r log n e p tx s -> reads_at m0 (hist s.2) p log ->
    wpM i (bind get (fun tx => bind (stm_install (Z.of_nat (S p)) (w_entries (wset tx)))
      (fun _ => stm_commit_end C))) tx (post (committed r)) s).
  { intros s2 HI2 Hst2 Hr2.
    apply (wpM_ghost _ _ _ _ _ _ (fun s => stamped r log n e p tx s /\ reads_at m0 (hist s.2) p log));
      [|done|].
    { intros s3 s4 [Hst3 Hr3] Hr HI. split; [by eapply HP|].
      eapply reads_at_le; [apply Hr| |done]. destruct Hst3 as [? ? ? ? ? ? ? ? [Hn _] ? ? ? ?].
      unfold now in Hn. lia. }
    intros s3 [Hst3 Hr3] HI3. destruct (commit_point r log n e p tx s3 HI3 Hst3 Hr3) as [Hg3 Hi3].
    eexists. split; [exact Hg3|]. apply wpM_get.
    eapply (wpM_keep C m0 progs ext_step i b0 l).
    - apply (install_spec r p (w_entries (wset tx)) (w_entries (wset tx)) []); [done| | |exact Hi3].
      + eapply holds_droppers, Hst3.
      + apply Hst3.
    - intros [] s4 HI4 [Hba Har (log' & Hsl & Hm) Hof Hby].
      apply commit_end_spec; [done|done| |done].
      intros k Hk. destruct (Hof k Hk) as (w & Hw & _). by apply elem_of_nil in Hw. }
  assert (Hab : forall s, stamped r log n e p tx s -> wpM i
    (bind (count (fun s => s <| aborts_validate_commit := incr (aborts_validate_commit s) |>))
      (fun _ => bind (stm_rollback C fuel STM_ABORT_VALIDATE) (fun _ => ret 0)))
    tx (post (committed r)) s).
  { intros s2 Hst2. apply (wpM_ghost _ _ _ _ _ _ (stamped r log n e p tx)); [done..|].
    intros s3 Hst3 HI3. destruct (void_point r log n e p tx s3 HI3 Hst3) as (Hg3 & Hab3 & Hm3).
    eexists. split; [exact Hg3|]. apply wpM_modify.
    apply (wpM_seq C m0 progs ext_step i b0 l _ _ _ (fun _ _ _ => False)); [|done].
    apply rollback_spec; [done| |done]. destruct Hab3 as [[] ? [] []]. by constructor. }
  destruct (Z.eqb_spec (start tx) (Z.of_nat p)) as [Heq|Hneq].
  - apply (wpM_inv _ _ _ _ _ _ _ _ _ HP Hst). intros s2 Hst2 HI2.
    apply Hgo; [done|done|]. destruct Hst2 as [? ? ? ? ? ? Hs ? ? Hle Hsn ? ?].
    assert (e = p) as -> by lia. eapply reads_current, Hsn.
  - apply wpM_bind; [intros; apply post_stable_jump|intros; apply post_stable_halt|].
    apply wpM_get.
    eapply wpM_mono; [|apply (validate_spec m0 progs ext_step i _ tx (Some p) p
      (stamped r log n e p tx) _ HP)].
    + intros [ok|r'|h] tx' s2 HI2; simpl; [|done..]. intros (-> & Hst2 & Hck).
      unfold truth. destruct (Z.eqb_spec ok 0) as [|Hnz]; simpl; [by apply Hab|].
      apply Hgo; [done|done|]. eapply (reads_checked log tx e p); [done|apply Hst2| |by apply Hck].
      destruct Hst2 as [? ? ? ? ? ? ? ? ? ? ? ? ?]. lia.
    + intros s2 Hst2. split_and!; [apply Hst2|apply Hst2|].
      destruct Hst2 as [? ? ? ? ? ? ? ? [Hn _] ? ? ? ?]. lia.
    + intros p' [= <-]. done.
    + exact Hst.
Qed.

(** A transaction without writes enters the order at the end of its snapshot. *)
Lemma ro_point r log n e tx s :
  Inv s -> running_mine C m0 i b0 l (TRet r) log tx n e s -> w_entries (wset tx) = [] ->
  let g' := mk_ghost (hist s.2) (ros s.2 ++ [(e, mk_rec i b0 r, log)]) (held s.2) (ver s.2) in
  guar i s (s.1, g') /\ own_array i tx (s.1, g') /\ no_lock i (s.1, g') /\
  mine i (horder (s.1, g')) = l ++ [mk_rec i b0 r].
Proof.
  intros HI [Hr Hm] Hnil. cbv zeta.
  destruct Hr as [_ _ Har Hno _ _ _ Hbe Hle [_ Hne Hre _] Hbody].
  rewrite Hnil in Hbody. split_and!; [|by destruct Har|done|].
  - destruct s as [s g]. apply guar_ro; [done|done| |done]. split_and!; [done| |].
    + by eapply reads_current.
    + by apply (body_replays _ _ []).
  - unfold horder. simpl. rewrite mine_ro; [|done|done|].
    + by rewrite <- Hm.
    + destruct Hbe as [_ _ _ Ha]. eapply (absent_drop_le (S n) e n); [done|lia|exact Ha].
Qed.

Lemma start_commit r log tx n e s :
  running_mine C m0 i b0 l (TRet r) log tx n e s ->
  acquiring r log n e (length (w_entries (wset tx))) (tx <| nesting := 0 |>) s.
Proof.
  intros [[[Hba Hn] ? Har Hno Hacq Hd Hws Hbe ? Hsn ?] ?].
  assert (Hlow : forall j w, w_entries (wset tx) !! j = Some w -> w_no_drop w = 1)
    by (intros j w; apply (Forall_lookup_1 _ _ _ _ Hd)).
  constructor; simpl; try done.
  - split; [by destruct Hba|done].
  - by destruct Har.
  - constructor; simpl.
    + intros k Hk. by destruct (Hno k).
    + intros j w Hj Hz. rewrite (Hlow j w Hj) in Hz. lia.
    + intros j j' w w' Hj _ Hz. rewrite (Hlow j w Hj) in Hz. lia.
    + eapply Forall_impl; [|exact Hd]. by right.
    + rewrite Hacq. change (filter _ ?x) with (taken x). rewrite taken_none; [done|].
      eapply Forall_impl; [|exact Hd]. intros w ->. lia.
  - intros j w Hj Hw. apply lookup_lt_Some in Hw. lia.
  - intros j w _. apply Hlow.
  - by destruct Hbe.
  - by destruct Hsn.
Qed.

Lemma commit_spec r log tx n e s :
  running_mine C m0 i b0 l (TRet r) log tx n e s ->
  wpM i (stm_commit C fuel) tx (post (committed r)) s.
Proof.
  intros Hrm. pose proof Hrm as [[[Hba Hn] Hs _ _ _ _ _ _ _ _ _] _].
  apply wpM_modify. rewrite Hn. change (1 - 1) with 0. apply wpM_get. simpl.
  apply wpM_assert; [simpl; by rewrite Hs|].
  destruct (Z.eqb_spec (w_nb (tx <| nesting := 0 |>)) 0) as [Hz|Hz].
  - assert (Hnil : w_entries (wset tx) = []).
    { apply nil_length_inv. unfold w_nb in Hz. simpl in Hz. lia. }
    apply (wpM_ghost _ _ _ _ _ _ (running_mine C m0 i b0 l (TRet r) log tx n e));
      [by apply running_mine_stable|done|].
    intros s1 Hr1 HI1. destruct (ro_point r log n e tx s1 HI1 Hr1 Hnil) as (Hg & Har & Hno & Hm).
    eexists. split; [exact Hg|]. apply commit_end_spec; [|by destruct Har|done|done].
    split; [by destruct Hba|done].
  - eapply wpM_seq.
    { apply (acquire_spec r log n e); [done|]. by apply start_commit. }
    intros ok tx' s' HI' (-> & Hlen & Haq). apply (commit_update_spec r log n e); [|done].
    intros Hnil. rewrite Hnil in Hlen. unfold w_nb in Hz. simpl in *. lia.
Qed.

End Commit.
