(* ===== verification/CtlRun.v ===== *)
(** * Whole transactions and threads

    From [stm_start] to the answer of [stm_commit] with every restart in
    between, the sequence of transactions of a thread, and the thread from
    [stm_init_thread] to [stm_exit_thread]. *)
From S2P Require Import Prelude Words LockWord Machine Tx Ctl CtlHist CtlInv CtlStep CtlLogic CtlAssert CtlExtend CtlBody CtlCommit.
Import WriteBack.

(** The attributes covered: a transaction that may not retry can be left half
    way, and the ticks of the early-abort build move the snapshot of a read-only
    one without a check. *)
Definition attr_ok (C : config) (a : option stm_tx_attr) : Prop :=
  match a with
  | None => True
  | Some a => truth (no_retry a) = false /\ (ea C = true -> truth (read_only a) = false)
  end.

(** The records of a thread that ran the transactions [p] with results [vs]. *)
Definition records (i : nat) (p : list (option stm_tx_attr * txbody)) (vs : list Z) : list rec :=
  zip_with (fun ab v => mk_rec i (snd ab) v) p vs.

Section Run.

Context (C : config) (fuel : nat) (m0 : mem).
Context (progs : list (list (option stm_tx_attr * txbody))).
Context (ext_step : nat -> ext -> arrays -> Z -> arrays -> Prop).
Hypothesis Hset : setting C progs ext_step.

Local Abbreviation Inv := (Inv m0 progs).
Local Abbreviation Stable := (stable Inv rely).
Local Abbreviation wpM := (wpM m0 progs ext_step).
Local Abbreviation guar := (guar m0 progs).

(** The outcomes of code that handles its own restarts *)
Definition final {A} (R : A -> stm_tx -> st -> Prop) (o : outcome A) (tx : stm_tx) (s : st) : Prop :=
  match o with
  | Ok a => R a tx s
  | Jump _ => False
  | Halt h => halt_ok m0 progs h
  end.

Lemma final_seq {A B} i (m : M A) (f : A -> M B) tx (R1 : A -> stm_tx -> st -> Prop) R2 s :
  wpM i m tx (final R1) s ->
  (forall a tx' s', Inv s' -> R1 a tx' s' -> wpM i (f a) tx' (final R2) s') ->
  wpM i (bind m f) tx (final R2) s.
Proof.
  intros Hm Hf. apply wpM_bind; [intros; apply stable_pure..|].
  eapply wpM_mono; [|exact Hm]. intros [a|r|h] tx' s' HI; simpl; auto.
Qed.

Lemma final_keep {A} i (m : M A) tx P s :
  wpM i m tx (keeps P tx) s -> wpM i m tx (final (fun _ tx' s' => tx' = tx /\ P s')) s.
Proof.
  apply wpM_mono. intros [a|r|h] tx' s' HI; simpl; [done..|]. by intros ->.
Qed.

(** ** One transaction *)

Section Transaction.

Context (i : nat) (b0 : txbody) (l : list rec).
Hypothesis Hprog : in_progs progs (mk_rec i b0 0).

Local Abbreviation post := (post C m0 progs i b0 l).
Local Abbreviation restarted := (restarted C m0 i b0 l).

(** The transaction has committed and is the last of its thread in the order. *)
Definition tx_done (res : option Z) (tx : stm_tx) (s : st) : Prop :=
  exists r, res = Some r /\ committed i b0 l r 1 tx s.

Lemma tx_done_stable res tx : Stable i (tx_done res tx).
Proof.
  apply stable_ex. intros r. apply stable_and; [apply stable_pure|apply committed_stable].
Qed.

Lemma tx_attempt_spec tx s :
  restarted tx s -> wpM i (tx_attempt C fuel b0) tx (post tx_done) s.
Proof.
  intros (n & Hr & Hm). eapply wpM_seq; [by eapply (body_spec C fuel m0 progs ext_step Hset)|].
  intros r tx1 s1 HI1 (log & e & Hr1).
  eapply wpM_seq; [by eapply (commit_spec C fuel m0 progs ext_step Hset)|].
  intros ok tx2 s2 HI2 (-> & Hid & Hm2). apply wpM_ret; [apply tx_done_stable|].
  by exists r.
Qed.

Lemma tx_loop_spec n tx s :
  restarted tx s -> wpM i (tx_loop C fuel n b0) tx (final tx_done) s.
Proof.
  revert tx s. induction n as [|n IH]; intros tx s Hr.
  { by apply wpM_stop; [apply stable_pure|]. }
  apply wpM_catch; [intros; apply tx_done_stable|intros; apply stable_pure|].
  eapply wpM_mono; [|by apply tx_attempt_spec].
  intros [res|r|h] tx' s' HI; simpl; [done| |done]. apply IH.
Qed.

(** The descriptor as [stm_start] leaves it for [stm_prepare] *)
Lemma start_ready a tx s :
  attr_ok C a -> idle i tx s ->
  ready C i (tx <| nesting := nesting tx + 1 |>
    <| attr := a |> <| ro := match a with None => 0 | Some a => read_only a end |>) s.
Proof.
  intros Ha [Hs Hn Hst Har Hno]. constructor; simpl; try done.
  - constructor; simpl; [done| | |].
    + unfold must_retry. simpl. destruct a; [|done]. by rewrite (proj1 Ha).
    + destruct a; [by eexists|done].
    + intros Hea. destruct a; [by apply Ha|done].
  - lia.
  - by destruct Har.
Qed.

Lemma start_spec a tx s :
  attr_ok C a -> idle i tx s -> mine i (horder s) = l ->
  wpM i (stm_start C fuel a) tx (final (fun env tx' s' => env = true /\ restarted tx' s')) s.
Proof.
  intros Ha Hid Hm.
  set (P := fun s => idle i tx s /\ mine i (horder s) = l).
  assert (HP : Stable i P) by (apply stable_and; [apply idle_stable|apply mine_stable]).
  eapply final_seq.
  { apply final_keep, (keep_when _ _ _ i _ _ tx P); [done|by split|]. intros _.
    apply keep_ea_store; [by intros t []|done|by split]. }
  intros [] tx' s1 HI1 [-> [Hid1 Hm1]]. apply wpM_get. apply wpM_modify.
  pose proof (id_nesting _ _ _ Hid1) as Hn. rewrite Hn. simpl. apply wpM_modify.
  apply wpM_bind; [intros; apply stable_pure..|].
  eapply wpM_mono; [|apply (prepare_spec C fuel m0 progs ext_step Hset i b0 l);
    [|exact Hm1]].
  2: { pose proof (start_ready a tx s1 Ha Hid1) as Hr. by rewrite Hn in Hr. }
  intros [[]|r|h] tx2 s2 HI2; simpl; [|done|by intros [-> | ->]]. intros Hres.
  pose proof (restarted_stable C m0 progs i b0 l tx2) as HP2.
  eapply final_seq.
  { by apply final_keep, (keep_callbacks C m0 progs ext_step Hset i _ tx2 (restarted tx2)). }
  intros [] tx' s3 HI3 [-> Hres3]. apply wpM_ret; [|done].
  by apply stable_and; [apply stable_pure|].
Qed.

Lemma run_tx_spec a tx s :
  attr_ok C a -> idle i tx s -> mine i (horder s) = l ->
  wpM i (run_tx C fuel a b0) tx (final tx_done) s.
Proof.
  intros Ha Hid Hm. eapply final_seq; [by apply start_spec|].
  intros env tx' s' HI' [-> Hr]. by apply tx_loop_spec.
Qed.

End Transaction.

(** ** The transactions of a thread *)

Definition txs_done (i : nat) (p : list (option stm_tx_attr * txbody)) (l : list rec)
    (rs : list (option Z)) (tx : stm_tx) (s : st) : Prop :=
  exists vs, rs = Some <$> vs /\ length vs = length p /\ idle i tx s /\
    mine i (horder s) = l ++ records i p vs.

Lemma txs_done_stable i p l rs tx : Stable i (txs_done i p l rs tx).
Proof.
  apply stable_ex. intros vs. apply stable_and; [apply stable_pure|].
  apply stable_and; [apply stable_pure|]. apply stable_and; [apply idle_stable|apply mine_stable].
Qed.

Lemma run_txs_spec i p l tx s :
  Forall (fun ab => attr_ok C ab.1 /\ in_progs progs (mk_rec i ab.2 0)) p ->
  idle i tx s -> mine i (horder s) = l ->
  wpM i (run_txs C fuel p) tx (final (txs_done i p l)) s.
Proof.
  intros Hp. revert l tx s. induction Hp as [|[a b] p [Ha Hb] Hp IH]; intros l tx s Hid Hm; simpl.
  { apply wpM_ret; [apply txs_done_stable|]. exists []. by rewrite app_nil_r. }
  eapply final_seq; [by apply (run_tx_spec i b l)|].
  intros res tx1 s1 HI1 (r & -> & _ & Hid1 & Hm1).
  eapply final_seq; [by apply IH|]. intros rs tx2 s2 HI2 (vs & -> & Hlen & Hid2 & Hm2).
  apply wpM_ret; [apply txs_done_stable|]. exists (r :: vs). split_and!; [done|simpl; lia|done|].
  by rewrite Hm2, <- app_assoc.
Qed.

(** ** The thread *)

Definition thread_done (i : nat) (p : list (option stm_tx_attr * txbody))
    (rs : list (option Z)) (tx : stm_tx) (s : st) : Prop :=
  exists vs, rs = Some <$> vs /\ length vs = length p /\ no_lock i s /\
    mine i (horder s) = records i p vs.

Lemma thread_done_stable i p rs tx : Stable i (thread_done i p rs tx).
Proof.
  apply stable_ex. intros vs. apply stable_and; [apply stable_pure|].
  apply stable_and; [apply stable_pure|]. apply stable_and; [apply no_lock_stable|apply mine_stable].
Qed.

(** An event of the environment that leaves the arrays alone *)
Lemma wpM_event {B} i e (f : Z -> M B) tx P Q s :
  Stable i P -> P s -> (forall r x x', ext_spec i e x r x' -> x' = x) ->
  (forall r s', Inv s' -> P s' -> wpM i (f r) tx Q s') ->
  wpM i (bind (act (Ext e)) f) tx Q s.
Proof.
  intros HP Hs He Hk. apply (wpM_ext m0 progs ext_step i e f tx P); [done..|].
  intros [c g] r x Hs1 HI Hx. apply (set_ext _ _ _ Hset), He in Hx. subst. simpl.
  destruct c as [c x]. exists g. split; [split; [done|intros; apply rely_refl]|]. by apply Hk.
Qed.

Lemma allocate_first_spec i s :
  no_lock i s -> mine i (horder s) = [] ->
  wpM i (stm_allocate_ws_entries false) (init_tx i)
    (final (fun _ tx' s' => idle i tx' s' /\ mine i (horder s') = [])) s.
Proof.
  intros Hno Hm. apply wpM_modify. apply wpM_get.
  apply (wpM_ext m0 progs ext_step i _ _ _ (fun s => no_lock i s /\ mine i (horder s) = []));
    [apply stable_and; [apply no_lock_stable|apply mine_stable]|done|].
  intros [c g] r x [Hno1 Hm1] HI Hx. apply (set_ext _ _ _ Hset) in Hx. simpl in Hx.
  exists g. destruct c as [c xs]; simpl in *.
  inversion Hx as [| |n' p x' Hn Hp Hal Hend Hfree| | | | |]; subst; simpl in *.
  - split; [split; [done|intros; apply rely_refl]|].
    by apply wpM_stop; [apply stable_pure|].
  - split; [apply (guar_array m0 progs i (mk_state c xs)); [exact Hno1|simpl; lia|done..]|].
    apply wpM_modify. destruct (Z.eqb_spec r 0); [lia|].
    apply wpM_ret; [apply stable_and; [apply idle_stable|apply mine_stable]|].
    split; [|done]. constructor; simpl; try done. constructor; simpl; try done.
    by rewrite set_array_same.
Qed.

Lemma init_thread_spec i s :
  no_lock i s -> mine i (horder s) = [] ->
  wpM i (stm_init_thread C) (init_tx i)
    (final (fun _ tx' s' => idle i tx' s' /\ mine i (horder s') = [])) s.
Proof.
  intros Hno Hm. set (P := fun s => no_lock i s /\ mine i (horder s) = []).
  assert (HP : Stable i P) by (apply stable_and; [apply no_lock_stable|apply mine_stable]).
  eapply (final_seq i _ _ _ (fun _ tx' s' => tx' = init_tx i /\ P s')).
  { apply wpM_modify. apply wpM_get.
    apply (wpM_event i _ _ _ P); [done|by split|by inversion 1|].
    intros r s1 HI1 HPs. destruct (r =? 0); [by apply wpM_stop; [apply stable_pure|]|].
    apply wpM_ret; [by apply stable_and; [apply stable_pure|]|done]. }
  intros [] tx1 s1 HI1 [-> HP1].
  eapply (final_seq i _ _ _ (fun _ tx' s' => idle i tx' s' /\ mine i (horder s') = [])).
  { apply allocate_first_spec; apply HP1. }
  intros [] tx2 s2 HI2 Hid2.
  assert (HP2 : Stable i (fun s => idle i tx2 s /\ mine i (horder s) = []))
    by (apply stable_and; [apply idle_stable|apply mine_stable]).
  eapply (wpM_event i _ _ _ _); [exact HP2|done|by inversion 1|]. intros r s3 HI3 Hid3.
  eapply wpM_mono; [|by apply final_keep, (keep_callbacks C m0 progs ext_step Hset i _ tx2 _ _ HP2)].
  intros [[]|r'|h] tx3 s4 HI4; simpl; [by intros [-> ?]|done..].
Qed.

Lemma exit_thread_spec i p rs tx s :
  txs_done i p [] rs tx s ->
  wpM i (bind (stm_exit_thread C) (fun _ => ret rs)) tx (final (thread_done i p)) s.
Proof.
  intros Hd. pose proof (txs_done_stable i p [] rs tx) as HP.
  apply (final_seq i _ _ _ (fun _ => thread_done i p rs));
    [|intros [] tx' s' HI' Ht; apply wpM_ret; [apply thread_done_stable|exact Ht]].
  eapply final_seq; [by apply final_keep, (keep_callbacks C m0 progs ext_step Hset i _ tx _ _ HP)|].
  intros [] tx' s1 HI1 [-> Hd1]. apply wpM_get.
  apply wpM_assert; [by destruct Hd1 as (vs & _ & _ & [_ _ -> _ _] & _)|].
  eapply (wpM_event i _ _ _ _); [exact HP|done|by inversion 1|]. intros r s2 HI2 Hd2.
  apply (wpM_ext m0 progs ext_step i _ _ tx _ _ _ HP); [done|].
  intros [c g] r' x (vs & Hrs & Hlen & [_ _ _ _ Hno] & Hm) HI Hx.
  apply (set_ext _ _ _ Hset) in Hx. inversion Hx; subst. simpl in *. exists g. split.
  { apply (guar_array m0 progs i c); simpl; [exact Hno|lia|lia|lia| |done]. intros j _. by left. }
  apply wpM_ret; [apply thread_done_stable|]. by exists vs.
Qed.

(** From an empty history, a thread runs its transactions. *)
Lemma run_thread_spec i p s :
  Forall (fun ab => attr_ok C ab.1 /\ in_progs progs (mk_rec i ab.2 0)) p ->
  no_lock i s -> mine i (horder s) = [] ->
  wpM i (run_thread C fuel p) (init_tx i) (final (thread_done i p)) s.
Proof.
  intros Hp Hno Hm. eapply final_seq; [by apply init_thread_spec|].
  intros [] tx1 s1 HI1 [Hid1 Hm1]. eapply final_seq; [by eapply run_txs_spec|].
  intros rs tx2 s2 HI2 Hd. by apply exit_thread_spec.
Qed.

End Run.
