(* ===== verification/CtlCorrect.v ===== *)
(** * What the transactions guarantee

    For every configuration that the threads can reach from [stm_init] under any
    interleaving of their atomic actions: the committed transactions have a
    serial order, no transaction ever computes with values that no serial
    execution has, nothing is undefined, the clock and the timestamps stay in
    their range, and the locks are free at the end. *)
From S2P Require Import Prelude Words LockWord Machine Tx Ctl CtlHist CtlInv CtlStep CtlLogic CtlAssert CtlExtend CtlBody CtlCommit CtlRun.
From Stdlib Require Import FunctionalExtensionality.
Import WriteBack.

Abbreviation program := (list (option stm_tx_attr * txbody)).
Abbreviation thread_result := (outcome (list (option Z)) * stm_tx)%type.

(** The threads, each at its start *)
Definition start_threads (C : config) (fuel : nat) (progs : list program) :
    list (prog loc ext thread_result) :=
  imap (fun i p => run_thread C fuel p (init_tx i)) progs.

(** The memory of the application *)
Definition words (s : stm_state) : mem := fun a => cell s (Word a).

(** What the theorems suppose: at most MAX_THREADS threads, attributes that may
    retry, words in the memory, nothing allocated yet, and an environment that
    behaves as documented. *)
Record setup (C : config) (progs : list program)
    (ext_step : nat -> ext -> arrays -> Z -> arrays -> Prop) (s0 : stm_state) : Prop := {
  su_setting : setting C progs ext_step;
  su_attrs : Forall (Forall (fun ab => attr_ok C ab.1)) progs;
  su_words : is_mem (words s0);
  su_arrays : forall i, extra s0 i = (0, 0) }.

(** Reachable from the start, whatever the schedule *)
Definition reachable (C : config) (fuel : nat) (progs : list program)
    (ext_step : nat -> ext -> arrays -> Z -> arrays -> Prop) (s0 s : stm_state)
    (ts : list (prog loc ext thread_result)) : Prop :=
  rtc (pool_step ext_step env_spec) (stm_init s0, start_threads C fuel progs) (s, ts).

(** Every thread has returned. *)
Definition all_done (ts : list (prog loc ext thread_result)) : Prop :=
  Forall (fun p => exists rs tx, p = Ret (Ok rs, tx)) ts.

Section Correct.

Context (C : config) (fuel : nat) (progs : list program).
Context (ext_step : nat -> ext -> arrays -> Z -> arrays -> Prop) (s0 : stm_state).
Hypothesis Hsu : setup C progs ext_step s0.

Local Abbreviation m0 := (words s0).
Local Abbreviation Inv := (Inv m0 progs).

Definition ghost0 : ghost := mk_ghost [] [] (fun _ => None) (fun _ => 0%nat).

Lemma inv_init : Inv (stm_init s0, ghost0).
Proof.
  constructor; simpl; try done.
  - intros k. exists 0%nat. constructor; simpl; try done.
    + intros j. unfold now. simpl. lia.
    + intros j (sl & Hsl & _). done.
  - intros i. rewrite (su_arrays _ _ _ _ Hsu). simpl. lia.
  - intros i j _. rewrite (su_arrays _ _ _ _ Hsu). by left.
  - split_and!; try done. apply Hsu.
  - rewrite drop_nil. constructor.
Qed.

Lemma progs_ok i p :
  progs !! i = Some p ->
  Forall (fun ab => attr_ok C ab.1 /\ in_progs progs (mk_rec i ab.2 0)) p.
Proof.
  intros Hi. pose proof (Forall_lookup_1 _ _ _ _ (su_attrs _ _ _ _ Hsu) Hi) as Ha.
  apply list.Forall_forall. intros [a b] Hin. split.
  - by apply (proj1 (list.Forall_forall _ _) Ha).
  - exists p, a. done.
Qed.

(** What holds of every thread that has ended *)
Definition thread_post (i : nat) (r : thread_result) (s : st) : Prop :=
  exists p, progs !! i = Some p /\
    final m0 progs (thread_done i p) (fst r) (snd r) s.

Lemma thread_post_stable i r : stable Inv rely i (thread_post i r).
Proof.
  apply stable_ex. intros p. apply stable_and; [apply stable_pure|].
  destruct r as [[rs|r|h] tx]; simpl; [apply thread_done_stable|apply stable_pure..].
Qed.

(** The invariant holds in every reachable configuration, with a history in
    which the threads that have returned are recorded. *)
Lemma reach_inv s ts :
  reachable C fuel progs ext_step s0 s ts ->
  exists g, Inv (s, g) /\ (forall i, ts !! i = None -> no_lock i (s, g)) /\
            forall i r, ts !! i = Some (Ret r) -> thread_post i r (s, g).
Proof.
  apply (pool_sound rely_refl rely_trans) with (g0 := ghost0).
  - intros s1 g s2 HI He. by apply env_step.
  - apply no_lock_stable.
  - apply thread_post_stable.
  - apply inv_init.
  - intros i q Hq. unfold start_threads in Hq. rewrite list_lookup_imap in Hq.
    apply fmap_Some in Hq as (p & Hp & ->).
    eapply wp_mono; [|apply (run_thread_spec C fuel m0 progs ext_step); [apply Hsu|by apply progs_ok|done|done]].
    intros [o tx] s' HI Hf. exists p. split; [done|exact Hf].
  - intros i _ k. done.
Qed.

(** When every thread has returned no lock is held. *)
Lemma done_free s ts g :
  (forall i, ts !! i = None -> no_lock i (s, g)) ->
  (forall i r, ts !! i = Some (Ret r) -> thread_post i r (s, g)) ->
  all_done ts -> Inv (s, g) -> forall k, exists v, stripe_free m0 (s, g) k v.
Proof.
  intros Hn Hts Hd HI k. pose proof (inv_stripes _ _ _ HI k) as Hst.
  unfold stripe_ok in Hst. destruct (held (s, g).2 k) as [i|] eqn:Hk; [|done]. exfalso.
  destruct (ts !! i) as [q|] eqn:Hi; [|by destruct (Hn i Hi k)].
  destruct (Forall_lookup_1 _ _ _ _ Hd Hi) as (rs & tx & ->).
  destruct (Hts i _ Hi) as (p & _ & vs & _ & _ & Hno & _). by destruct (Hno k).
Qed.

Lemma order_in_progs s : Inv s -> Forall (in_progs progs) (horder s).
Proof.
  intros HI. destruct (inv_progs _ _ _ HI) as [Hh Hr]. unfold horder, order.
  generalize 0%nat. induction (hist s.2) as [|sl h IH]; intros n; simpl;
    (apply list.Forall_app; split; [apply list.Forall_forall; intros c Hc;
      apply list_elem_of_omap in Hc as ([[d c'] log] & Hin & Hd); case_decide; simplify_eq;
      by apply (proj1 (list.Forall_forall _ _) Hr _ Hin)|]).
  - constructor.
  - apply list.Forall_cons in Hh as [Hsl Hh]. apply list.Forall_app. split; [|by apply IH].
    unfold writer. case_decide; constructor; [done|constructor].
Qed.

(** The serial order of the committed transactions *)
Lemma reach_serial s ts :
  reachable C fuel progs ext_step s0 s ts ->
  exists order m,
    seq_exec order m0 = Some m /\
    Forall (in_progs progs) order /\
    (forall i rs tx, ts !! i = Some (Ret (Ok rs, tx)) ->
       exists p vs, progs !! i = Some p /\ rs = Some <$> vs /\ length vs = length p /\
         mine i order = records i p vs) /\
    (all_done ts -> forall a, words s a = m a).
Proof.
  intros Hr. destruct (reach_inv _ _ Hr) as (g & HI & Hn & Hts).
  exists (horder (s, g)), (mem_at m0 (hist g) (length (hist g))). split_and!.
  - apply order_replays, HI.
  - by eapply order_in_progs.
  - intros i rs tx Hi. destruct (Hts i _ Hi) as (p & Hp & vs & -> & Hl & _ & Hm).
    by exists p, vs.
  - intros Hd a. destruct (done_free _ _ _ Hn Hts Hd HI (GET_LOCK a)) as [v Hf].
    by apply (sf_mem _ _ _ _ Hf).
Qed.

Lemma reach_length s ts : reachable C fuel progs ext_step s0 s ts -> length ts = length progs.
Proof.
  unfold reachable.
  assert (Hgen : forall c c' : stm_state * list (prog loc ext thread_result),
    rtc (pool_step ext_step env_spec) c c' -> length c'.2 = length c.2).
  { induction 1 as [|c1 c2 c3 Hs _ IH]; [done|]. rewrite IH.
    destruct Hs; simpl; [by rewrite length_insert|done]. }
  intros Hr. apply Hgen in Hr. simpl in Hr. rewrite Hr. apply length_imap.
Qed.

End Correct.

(** ** The theorems *)

Section Theorems.

Context (C : config) (fuel : nat) (progs : list program).
Context (ext_step : nat -> ext -> arrays -> Z -> arrays -> Prop) (s0 : stm_state).

(** C1. Serializability.  In every configuration reachable under any
    interleaving, allocation, timer ticks and callbacks, there is a serial order
    of transactions of the program whose one-by-one execution from the initial
    memory gives each of them the result it returned; each thread that has ended
    has its transactions in that order, in program order and each once; and when
    all have ended, the memory is that of the serial execution. *)
Theorem ctl_serializable s ts :
  setup C progs ext_step s0 -> reachable C fuel progs ext_step s0 s ts ->
  exists order m,
    seq_exec order (words s0) = Some m /\
    Forall (in_progs progs) order /\
    (forall i rs tx, ts !! i = Some (Ret (Ok rs, tx)) ->
       exists p vs, progs !! i = Some p /\ rs = Some <$> vs /\ length vs = length p /\
         mine i order = records i p vs) /\
    (all_done ts -> forall a, words s a = m a).
Proof. intros Hsu. by apply reach_serial. Qed.

(** C3. Opacity, for invariants of the application: if every transaction run
    alone in a memory where [J] holds does not fail, and keeps [J] if it returns
    (it may also ask for a restart), then under
    concurrency no execution of a transaction fails, be it one that is aborted
    later, and [J] holds of the memory at the end. *)
Theorem ctl_opaque (J : mem -> Prop) s ts :
  setup C progs ext_step s0 -> reachable C fuel progs ext_step s0 s ts ->
  J (words s0) ->
  (forall c m, in_progs progs c -> J m ->
    match seq_run (rc_body c) m with SDone _ m' => J m' | SAborted => True | SFault => False end) ->
  (forall i tx, ts !! i <> Some (Ret (Halt App_fault, tx))) /\
  (all_done ts -> J (words s)).
Proof.
  intros Hsu Hr HJ Hkeep.
  assert (Hall : forall l m m', Forall (in_progs progs) l -> J m -> seq_exec l m = Some m' -> J m').
  { induction l as [|c l IH]; intros m m' Hl Hm He; simpl in He; [by simplify_eq|].
    apply list.Forall_cons in Hl as [Hc Hl]. specialize (Hkeep c m Hc Hm). rewrite seq_body_run in He.
    destruct (seq_run (rc_body c) m) as [r m2| |]; [|done..].
    destruct (r =? rc_res c); [|done]. by apply (IH m2). }
  destruct (reach_inv _ _ _ _ _ Hsu _ _ Hr) as (g & HI & Hn & Hts). split.
  - intros i tx Hi. destruct (Hts i _ Hi) as (p & _ & l & c & m & Hl & Hc & He & Hf).
    specialize (Hkeep c m Hc (Hall _ _ _ Hl HJ He)). by rewrite Hf in Hkeep.
  - intros Hd. replace (words s) with (mem_at (words s0) (hist g) (length (hist g))).
    + eapply (Hall (horder (s, g))); [by eapply order_in_progs|done|]. apply order_replays, HI.
    + apply functional_extensionality. intros a.
      destruct (done_free _ _ _ _ _ Hn Hts Hd HI (GET_LOCK a)) as [v Hf].
      symmetry. by apply (sf_mem _ _ _ _ Hf).
Qed.

(** C8. No reachable configuration has a thread that ended in a failed assertion,
    in the use of a pointer to no entry, or in a jump that nothing catches; a
    thread that stops early ran out of memory ([exit(1)]), waits in the barrier
    for the clock to be reset, or faults the way a serial execution would. *)
Theorem ctl_no_undefined s ts i o tx :
  setup C progs ext_step s0 -> reachable C fuel progs ext_step s0 s ts ->
  ts !! i = Some (Ret (o, tx)) ->
  match o with
  | Ok rs => exists p, progs !! i = Some p /\ length rs = length p /\ Forall is_Some rs
  | Jump _ => False
  | Halt h => match h with
              | Exit code => code = 1
              | Blocked | Out_of_fuel => True
              | App_fault => serial_fault (words s0) progs
              | Assert_failed | Undefined => False
              end
  end.
Proof.
  intros Hsu Hr Hi. destruct (reach_inv _ _ _ _ _ Hsu _ _ Hr) as (g & HI & _ & Hts).
  destruct (Hts i _ Hi) as (p & Hp & Hf). destruct o as [rs|r|h]; simpl in Hf; [|done|done].
  destruct Hf as (vs & -> & Hl & _). exists p. rewrite length_fmap. split_and!; [done..|].
  apply list.Forall_fmap, list.Forall_forall. intros v _. by eexists.
Qed.

(** C25. The clock never passes VERSION_MAX by more than the number of threads, so
    a timestamp always fits beside the lock bits of a lock word. *)
Theorem ctl_clock_bound s ts :
  setup C progs ext_step s0 -> reachable C fuel progs ext_step s0 s ts ->
  0 <= cell s Clock <= VERSION_MAX + Z.of_nat (length progs) /\
  LOCK_GET_TIMESTAMP (LOCK_SET_TIMESTAMP (cell s Clock)) = cell s Clock.
Proof.
  intros Hsu Hr. destruct (reach_inv _ _ _ _ _ Hsu _ _ Hr) as (g & HI & _ & _).
  pose proof (inv_clock _ _ _ HI) as Hc. pose proof (clock_bound _ _ _ HI) as Hb.
  pose proof vmax_spec. pose proof VERSION_MAX_bound. simpl in Hc.
  pose proof (set_threads _ _ _ (su_setting _ _ _ _ Hsu)).
  assert (0 <= MAX_THREADS) by by compute.
  rewrite Hc, wb_set_timestamp, wb_get_timestamp by lia. split; [lia|].
  by rewrite Z.mul_comm, Z.div_mul.
Qed.

(** C26. Every lock is either free, with a timestamp that the clock has reached, or
    taken, pointing into the write set of exactly one thread of the program; once
    every thread has returned they are all free. *)
Theorem ctl_locks s ts k :
  setup C progs ext_step s0 -> reachable C fuel progs ext_step s0 s ts ->
  let l := cell s (Lock k) in
  (LOCK_GET_OWNED l = 0 /\ 0 <= LOCK_GET_TIMESTAMP l <= cell s Clock) \/
  (LOCK_GET_OWNED l = 1 /\ ~ all_done ts /\ exists i, (i < length progs)%nat /\
     (extra s i).1 <= LOCK_GET_ADDR l < (extra s i).1 + (extra s i).2 /\
     forall j, (extra s j).1 <= LOCK_GET_ADDR l < (extra s j).1 + (extra s j).2 -> j = i).
Proof.
  intros Hsu Hr l. pose proof (reach_length _ _ _ _ _ _ _ Hr) as Hlen.
  destruct (reach_inv _ _ _ _ _ Hsu _ _ Hr) as (g & HI & Hn & Hts).
  pose proof (lock_cases (words s0) progs (s, g) k HI) as Hlk. simpl in Hlk. fold l in Hlk.
  destruct Hlk as [(v & _ & Hf & Ho & Ht)|(j & p & Hj & Hl & Ho & Hp & Hin)]; [left|right].
  - split; [done|]. rewrite Ht. pose proof (inv_clock _ _ _ HI) as Hc. simpl in Hc.
    pose proof (sf_now _ _ _ _ Hf). lia.
  - split_and!; [done| |].
    + intros Hd. destruct (done_free _ _ _ _ _ Hn Hts Hd HI k) as [v Hf].
      pose proof (sf_lock _ _ _ _ Hf) as Hw. simpl in Hw. fold l in Hw.
      rewrite wb_owned, Hw, Z.mul_comm, Z.mod_mul in Ho by lia. done.
    + exists j. rewrite Hp. split_and!; [|lia..|].
      * rewrite <- Hlen. destruct (ts !! j) as [q|] eqn:Hq; [by eapply lookup_lt_Some|].
        by destruct (Hn j Hq k).
      * intros j' Hj'. destruct (decide (j' = j)) as [|Hne]; [done|].
        pose proof (inv_apart _ _ _ HI j' j Hne) as Ha. unfold apart in Ha. simpl in Ha. lia.
Qed.

End Theorems.
