(* ===== verification/CtlDemo.v ===== *)
(** * The theorems on a concrete program

    An environment that allocates each write set at a fixed place, two threads
    that run one after the other, and the theorems of [CtlCorrect.v] applied to
    them: their hypotheses can all hold, and what they conclude is computed. *)
From S2P Require Import Prelude Words LockWord Machine Tx Ctl CtlHist CtlInv CtlStep CtlLogic CtlAssert CtlExtend CtlBody CtlCommit CtlRun CtlCorrect.
Import WriteBack.

(** ** An environment *)

Definition demo_ext (i : nat) (e : ext) (x : arrays) : Z * arrays :=
  match e with
  | Realloc_rs _ => (4096, x)
  | Realloc_ws n =>
      if (0 <=? n) && (n <=? 2 ^ 30) && (Z.of_nat i <? 1024)
      then (2 ^ 30 * (Z.of_nat i + 1), set_array x i (2 ^ 30 * (Z.of_nat i + 1), n))
      else (0, x)
  | Free_sets => (0, set_array x i (0, 0))
  | Enter_thread | Exit_thread | Tick | Callback _ _ => (0, x)
  end.

Definition demo_good (x : arrays) : Prop :=
  forall j, x j = (0, 0) \/ ((x j).1 = 2 ^ 30 * (Z.of_nat j + 1) /\ 0 <= (x j).2 <= 2 ^ 30).

Lemma demo_good_set x i b :
  demo_good x -> b = (0, 0) \/ (b.1 = 2 ^ 30 * (Z.of_nat i + 1) /\ 0 <= b.2 <= 2 ^ 30) ->
  demo_good (set_array x i b).
Proof.
  intros Hx Hb j. unfold set_array. case_decide; [by subst|apply Hx].
Qed.

Lemma demo_ext_ok i e x :
  demo_good x ->
  ext_spec i e x (demo_ext i e x).1 (demo_ext i e x).2 /\ demo_good (demo_ext i e x).2.
Proof.
  intros Hx. destruct e as [n|n| | | | |f arg]; simpl;
    try (split; [constructor|done]); [|split; [constructor|apply demo_good_set; auto]].
  destruct (_ && _) eqn:Hc; simpl; [|split; [constructor|done]].
  apply andb_true_iff in Hc as [[H0 H1]%andb_true_iff Hi%Z.ltb_lt].
  apply Z.leb_le in H0, H1. split; [|apply demo_good_set; [done|right; simpl; lia]].
  constructor; [done|lia| |lia|].
  - rewrite (Z.mul_mod (2 ^ 30)) by lia. done.
  - intros j Hj. destruct (Hx j) as [->|[Hb Hs]]; [by right; left|].
    right; right. simpl. rewrite Hb. assert (Z.of_nat j <> Z.of_nat i) by lia.
    destruct (decide (Z.of_nat i < Z.of_nat j)); [left|right]; nia.
Qed.

(** ** A program *)

Definition demo_config : config := mk_config false false false false [] [] [] [] [].

(** [*a = *a + d; return *a] *)
Definition add_tx (a d : Z) : txbody :=
  TLoad a (fun v => TStore a (v + d) (TLoad a TRet)).

(** [return *a + *b], a read-only transaction *)
Definition sum_tx (a b : Z) : txbody := TLoad a (fun v => TLoad b (fun w => TRet (v + w))).

Definition demo_progs : list program :=
  [ [(None, add_tx 64 5); (Some (mk_attr 0 1 0), sum_tx 64 72)];
    [(None, add_tx 64 7); (None, TStore2 72 255 15 (TLoad 72 TRet))] ].

Definition demo_start : stm_state := mk_state (fun _ => 0) (fun _ => (0, 0)).

(** The two threads take turns; the environment is [demo_ext]. *)
Definition demo_end : stm_state * list (prog loc ext thread_result) :=
  play demo_ext (concat (replicate 400 [0%nat; 1%nat])) (stm_init demo_start)
    (start_threads demo_config 8 demo_progs).

Lemma demo_setup : setup demo_config demo_progs ext_spec demo_start.
Proof.
  constructor.
  - constructor; [done|done| |done]. apply Nat2Z.inj_le. by compute.
  - by repeat constructor.
  - intros a. split; done.
  - done.
Qed.

Lemma demo_reachable :
  reachable demo_config 8 demo_progs ext_spec demo_start demo_end.1 demo_end.2.
Proof.
  unfold reachable. rewrite <- surjective_pairing.
  apply (play_pool demo_ext ext_spec demo_good demo_ext_ok). by left.
Qed.

(** Thread 0 adds 5 and sums afterwards; thread 1 adds 7 and writes 15. *)
Lemma demo_results : exists tx0 tx1, demo_end.2 =
  [Ret (Ok [Some 5; Some 27], tx0); Ret (Ok [Some 12; Some 15], tx1)].
Proof. eexists _, _. vm_compute. reflexivity. Qed.

Lemma demo_done : all_done demo_end.2.
Proof.
  destruct demo_results as (tx0 & tx1 & ->).
  constructor; [by eexists _, _|]. constructor; [by eexists _, _|constructor].
Qed.

(** ** The theorems apply *)

Lemma ctl_serializable_witness :
  words demo_end.1 64 = 12 /\
  exists order m,
    seq_exec order (words demo_start) = Some m /\
    Forall (in_progs demo_progs) order /\
    (forall i rs tx, demo_end.2 !! i = Some (Ret (Ok rs, tx)) ->
       exists p vs, demo_progs !! i = Some p /\ rs = Some <$> vs /\ length vs = length p /\
         mine i order = records i p vs) /\
    (all_done demo_end.2 -> forall a, words demo_end.1 a = m a).
Proof.
  split; [vm_compute; reflexivity|].
  apply (ctl_serializable demo_config 8 demo_progs ext_spec demo_start).
  - exact demo_setup.
  - exact demo_reachable.
Defined.

(** The word at 72 is 0 until thread 1 writes it. *)
Lemma ctl_opaque_witness :
  (forall i tx, demo_end.2 !! i <> Some (Ret (Halt App_fault, tx))) /\
  (all_done demo_end.2 -> words demo_end.1 72 = 0 \/ words demo_end.1 72 = 15).
Proof.
  apply (ctl_opaque demo_config 8 demo_progs ext_spec demo_start (fun m => m 72 = 0 \/ m 72 = 15)).
  - exact demo_setup.
  - exact demo_reachable.
  - by left.
  - intros [i b r] m (p & a & Hp & Hb) Hm. simpl in *.
    destruct i as [|[|i]]; simpl in Hp; [| |done]; simplify_eq;
      repeat (apply elem_of_cons in Hb as [Hb|Hb]; [simplify_eq; cbn [seq_run rc_body]|]);
      try (by apply elem_of_nil in Hb); unfold upd; simpl; auto.
    right. change (w64 72) with 72. destruct Hm as [-> | ->]; vm_compute; reflexivity.
Defined.

Lemma ctl_no_undefined_witness :
  exists o tx, demo_end.2 !! 1%nat = Some (Ret (o, tx)) /\
  match o with
  | Ok rs => exists p, demo_progs !! 1%nat = Some p /\ length rs = length p /\ Forall is_Some rs
  | Jump _ => False
  | Halt h => match h with
              | Exit code => code = 1
              | Blocked | Out_of_fuel => True
              | App_fault => serial_fault (words demo_start) demo_progs
              | Assert_failed | Undefined => False
              end
  end.
Proof.
  destruct demo_results as (tx0 & tx1 & Heq). eexists _, tx1.
  assert (Hi : demo_end.2 !! 1%nat = Some (Ret (Ok [Some 12; Some 15], tx1))) by by rewrite Heq.
  split; [exact Hi|].
  apply (ctl_no_undefined demo_config 8 demo_progs ext_spec demo_start demo_end.1 demo_end.2 1
    (Ok [Some 12; Some 15]) tx1 demo_setup demo_reachable Hi).
Defined.

Lemma ctl_clock_bound_witness :
  cell demo_end.1 Clock = 3 /\
  0 <= cell demo_end.1 Clock <= VERSION_MAX + Z.of_nat (length demo_progs) /\
  LOCK_GET_TIMESTAMP (LOCK_SET_TIMESTAMP (cell demo_end.1 Clock)) = cell demo_end.1 Clock.
Proof.
  split; [vm_compute; reflexivity|].
  apply (ctl_clock_bound demo_config 8 demo_progs ext_spec demo_start _ demo_end.2).
  - exact demo_setup.
  - exact demo_reachable.
Defined.

Lemma ctl_locks_witness :
  let l := cell demo_end.1 (Lock (GET_LOCK 64)) in
  (LOCK_GET_OWNED l = 0 /\ 0 <= LOCK_GET_TIMESTAMP l <= cell demo_end.1 Clock) \/
  (LOCK_GET_OWNED l = 1 /\ ~ all_done demo_end.2 /\ exists i, (i < length demo_progs)%nat /\
     (extra demo_end.1 i).1 <= LOCK_GET_ADDR l < (extra demo_end.1 i).1 + (extra demo_end.1 i).2 /\
     forall j, (extra demo_end.1 j).1 <= LOCK_GET_ADDR l < (extra demo_end.1 j).1 + (extra demo_end.1 j).2 ->
       j = i).
Proof.
  apply (ctl_locks demo_config 8 demo_progs ext_spec demo_start demo_end.1 demo_end.2 (GET_LOCK 64)).
  - exact demo_setup.
  - exact demo_reachable.
Defined.
