(* ===== verification/CtlSolo.v ===== *)
(** * A transaction that runs alone commits

    The theorems of [CtlCorrect.v] say what a transaction does if it ends.  Here:
    from a state in which nobody holds a lock, with the clock below its limit,
    a transaction that nobody disturbs commits at its first attempt, with fuel 1,
    and its effect on the memory is that of its body. *)
From S2P Require Import Prelude Words LockWord Machine Tx Ctl CtlHist CtlInv CtlStep CtlLogic CtlAssert CtlExtend CtlBody CtlCommit CtlRun CtlCorrect CtlDemo.
From Stdlib Require Import FunctionalExtensionality.
Import WriteBack.

(** ** Accesses of a body *)

(** The loads and the stores of a body on its way through a memory *)
Fixpoint seq_loads (b : txbody) (m : mem) : Z :=
  match b with
  | TRet _ | TAbort _ | TFail => 0
  | TLoad a k => 1 + seq_loads (k (m (w64 a))) m
  | TStore a v k => seq_loads k (upd m (w64 a) (w64 v))
  | TStore2 a v x k => seq_loads k (upd m (w64 a) (wmerge (m (w64 a)) (w64 v) (w64 x)))
  end.

Fixpoint seq_stores (b : txbody) (m : mem) : Z :=
  match b with
  | TRet _ | TAbort _ | TFail => 0
  | TLoad a k => seq_stores (k (m (w64 a))) m
  | TStore a v k => 1 + seq_stores k (upd m (w64 a) (w64 v))
  | TStore2 a v x k => 1 + seq_stores k (upd m (w64 a) (wmerge (m (w64 a)) (w64 v) (w64 x)))
  end.

Lemma seq_stores_nonneg b m : 0 <= seq_stores b m.
Proof.
  revert m. induction b as [r|a k IH|a v k IH|a v x k IH|k IH|]; intros m; simpl; [done|apply IH| | |done|done].
  - specialize (IH (upd m (w64 a) (w64 v))). lia.
  - specialize (IH (upd m (w64 a) (wmerge (m (w64 a)) (w64 v) (w64 x)))). lia.
Qed.

Section Solo.

Context (C : config) (f : nat) (ext_run : nat -> ext -> arrays -> Z * arrays) (i : nat).
Hypothesis Hsim : ea_sim C = false.
Hypothesis Huser : ea_user C = false.

Local Abbreviation fuel := (S f).

(** ** Running alone *)

(** [m] returns, in a state with [P]. *)
Definition okM {A} (m : M A) (tx : stm_tx) (s : stm_state)
    (P : A -> stm_tx -> stm_state -> Prop) : Prop :=
  exists a tx' s', run ext_run i (m tx) s = ((Ok a, tx'), s') /\ P a tx' s'.

Lemma ok_bind {A B} (m : M A) (g : A -> M B) tx s P Q :
  okM m tx s P -> (forall a tx' s', P a tx' s' -> okM (g a) tx' s' Q) -> okM (bind m g) tx s Q.
Proof.
  intros (a & tx' & s' & Hr & HP) Hg. destruct (Hg a tx' s' HP) as (b & tx2 & s2 & Hr2 & HQ).
  exists b, tx2, s2. split; [|done]. unfold bind. by rewrite run_bind, Hr.
Qed.

Lemma ok_ret {A} (a : A) tx s (P : A -> _) : P a tx s -> okM (ret a) tx s P.
Proof. intros HP. by exists a, tx, s. Qed.

Lemma ok_mono {A} (m : M A) tx s (P Q : A -> stm_tx -> stm_state -> Prop) :
  okM m tx s P -> (forall a tx' s', P a tx' s' -> Q a tx' s') -> okM m tx s Q.
Proof. intros (a & tx' & s' & Hr & HP) HQ. exists a, tx', s'. auto. Qed.

Lemma ok_get {B} (g : stm_tx -> M B) tx s Q : okM (g tx) tx s Q -> okM (bind get g) tx s Q.
Proof. done. Qed.

Lemma ok_modify {B} h (g : unit -> M B) tx s Q : okM (g tt) (h tx) s Q -> okM (bind (modify h) g) tx s Q.
Proof. done. Qed.

Lemma ok_assert {B} b (g : unit -> M B) tx s Q : b = true -> okM (g tt) tx s Q -> okM (bind (assert b) g) tx s Q.
Proof. by intros ->. Qed.

Lemma ok_load {B} l (g : Z -> M B) tx s Q : okM (g (cell s l)) tx s Q -> okM (bind (load l) g) tx s Q.
Proof. done. Qed.

Lemma ok_store {B} l v (g : unit -> M B) tx s Q :
  okM (g tt) tx (set_cell s l v) Q -> okM (bind (store l v) g) tx s Q.
Proof. done. Qed.

Lemma ok_store_last l v tx s Q : Q tt tx (set_cell s l v) -> okM (store l v) tx s Q.
Proof. intros HQ. by exists tt, tx, (set_cell s l v). Qed.

Lemma ok_ext {B} e (g : Z -> M B) tx s Q :
  okM (g (ext_run i e (extra s)).1) tx (mk_state (cell s) (ext_run i e (extra s)).2) Q ->
  okM (bind (act (Ext e)) g) tx s Q.
Proof.
  unfold okM, bind, act. simpl. by destruct (ext_run i e (extra s)).
Qed.

(** ** Nobody else *)

Record calm (n : Z) (lk : Z -> Z) (m : mem) (s : stm_state) : Prop := {
  cm_clock : cell s Clock = n;
  cm_range : 0 <= n < VERSION_MAX;
  cm_locks : forall k, cell s (Lock k) = 2 * lk k /\ 0 <= lk k <= n;
  cm_quiesce : cell s Quiesce <> 2;
  cm_words : forall a, cell s (Word a) = m a;
  cm_mem : is_mem m }.

Definition keep_ctl {A} (m : M A) : Prop :=
  forall n lk mm tx s, calm n lk mm s -> okM m tx s (fun _ tx' s' => tx' = tx /\ calm n lk mm s').

Lemma calm_ctl n lk m s l v : ~ shared_cell l -> l <> Quiesce -> calm n lk m s -> calm n lk m (set_cell s l v).
Proof.
  intros Hl Hq [? ? Hlk ? Hw ?].
  assert (Hsame : forall l', l' <> l -> cell (set_cell s l v) l' = cell s l')
    by (intros l' Hne; simpl; by apply upd_other).
  constructor; try done.
  - rewrite Hsame; [done|]. by intros <-; destruct Hl.
  - intros k. rewrite Hsame; [done|]. by intros <-; destruct Hl.
  - rewrite Hsame; [done|]. congruence.
  - intros a. rewrite Hsame; [done|]. by intros <-; destruct Hl.
Qed.

Lemma calm_extra n lk m s x : calm n lk m s -> calm n lk m (mk_state (cell s) x).
Proof. by intros []. Qed.

Lemma keep_ret_ok {A} (a : A) : keep_ctl (ret a).
Proof. intros n lk m tx s Hs. by apply ok_ret. Qed.

Lemma keep_bind_ok {A B} (m : M A) (g : A -> M B) :
  keep_ctl m -> (forall a, keep_ctl (g a)) -> keep_ctl (bind m g).
Proof.
  intros Hm Hg n lk mm tx s Hs. eapply ok_bind; [by apply Hm|].
  intros a tx' s' [-> Hs']. by apply Hg.
Qed.

Lemma keep_when_ok b m : keep_ctl m -> keep_ctl (when b m).
Proof. intros Hm. destruct b; [done|apply keep_ret_ok]. Qed.

Lemma keep_ea_load_ok g : keep_ctl (ea_load g).
Proof. intros n lk m tx s Hs. by eexists _, tx, s. Qed.

Lemma keep_ea_store_ok g v : (forall t, ~ shared_cell (g t) /\ g t <> Quiesce) -> keep_ctl (ea_store g v).
Proof.
  intros Hg n lk m tx s Hs. apply ok_get, ok_store_last. split; [done|].
  apply calm_ctl; [apply Hg..|done].
Qed.

Lemma keep_ea_clear_ok g : (forall t, ~ shared_cell (g t) /\ g t <> Quiesce) -> keep_ctl (ea_clear g).
Proof.
  intros Hg. apply keep_bind_ok; [apply keep_ea_load_ok|]. intros a.
  by apply keep_when_ok, keep_ea_store_ok.
Qed.

Lemma keep_callbacks_ok cbs : keep_ctl (run_callbacks cbs).
Proof.
  induction cbs as [|[h arg] cbs IH]; simpl; [apply keep_ret_ok|].
  intros n lk m tx s Hs. apply ok_ext. by apply IH, calm_extra.
Qed.

(** ** Inside the transaction *)

Record steady (n : Z) (lk : Z -> Z) (tx : stm_tx) : Prop := {
  sd_status : status tx = TX_ACTIVE;
  sd_end : tx_end tx = n;
  sd_start : start tx = n;
  sd_nesting : nesting tx = 1;
  sd_reads : Forall (fun r => r_version r = lk (r_lock r)) (r_entries (rset tx));
  sd_ws : ws_ok (w_entries (wset tx));
  sd_drop : Forall (fun w => w_no_drop w = 1) (w_entries (wset tx));
  sd_acquired : nb_acquired (wset tx) = 0;
  sd_base : 0 < w_base (wset tx) /\ w_base (wset tx) mod 16 = 0 /\
            w_base (wset tx) + sizeof_w_entry * w_size (wset tx) <= 2 ^ 47;
  sd_nb : w_nb tx <= w_size (wset tx) }.

Lemma calm_free n lk m s k :
  calm n lk m s -> LOCK_GET_OWNED (cell s (Lock k)) = 0 /\ LOCK_GET_WRITE (cell s (Lock k)) = 0 /\
    LOCK_GET_TIMESTAMP (cell s (Lock k)) = lk k.
Proof.
  intros Hs. destruct (cm_locks _ _ _ _ Hs k) as [-> Hk].
  rewrite wb_owned, lock_write, wb_get_timestamp, Z.mul_comm, Z.mod_mul, Z.div_mul by lia. done.
Qed.

Lemma validate_ok n lk m tx s rs :
  calm n lk m s -> Forall (fun r => r_version r = lk (r_lock r)) rs ->
  okM (stm_validate_entries rs) tx s (fun a tx' s' => a = 1 /\ tx' = tx /\ s' = s).
Proof.
  intros Hs Hrs. induction Hrs as [|r rs Hr Hrs IH]; simpl; [by apply ok_ret|].
  apply ok_load. destruct (calm_free n lk m s (r_lock r) Hs) as (-> & _ & ->). simpl.
  by rewrite Hr, Z.eqb_refl.
Qed.

Lemma extend_ok n lk m tx s :
  calm n lk m s -> steady n lk tx ->
  okM (stm_extend C) tx s (fun a tx' s' => a = 1 /\ tx' = tx /\ calm n lk m s').
Proof.
  intros Hs Hd.
  assert (Hok : forall s, calm n lk m s ->
    okM (stm_extend_ok C) tx s (fun a tx' s' => a = 1 /\ tx' = tx /\ calm n lk m s')).
  { intros s1 Hs1. eapply ok_bind.
    - apply (keep_when_ok (ea C) (ea_clear Standing)); [|exact Hs1].
      apply keep_ea_clear_ok. intros t. split; [by intros []|done].
    - intros [] tx' s' [-> Hs']. by apply ok_ret. }
  assert (Hnow : forall s, calm n lk m s ->
    okM (stm_extend_now C) tx s (fun a tx' s' => a = 1 /\ tx' = tx /\ calm n lk m s')).
  { intros s1 Hs1. apply ok_load. rewrite (cm_clock _ _ _ _ Hs1).
    destruct (cm_range _ _ _ _ Hs1). destruct (Z.leb_spec VERSION_MAX n); [lia|].
    eapply ok_bind; [eapply (validate_ok n lk m tx s1); [done|apply Hd]|].
    intros a tx' s' (-> & -> & ->). simpl. apply ok_modify. rewrite set_end_id by apply Hd. by apply Hok. }
  unfold stm_extend. destruct (ea C); [|by apply Hnow].
  eapply ok_bind; [by apply keep_ea_load_ok|]. intros on tx' s1 [-> Hs1].
  eapply ok_bind.
  { apply (keep_when_ok (on =? 1) (ea_store Recently_validated 1)); [|exact Hs1].
    apply keep_ea_store_ok. intros t. split; [by intros []|done]. }
  intros [] tx' s2 [-> Hs2]. rewrite Huser, andb_false_r, Hsim. simpl. by apply Hnow.
Qed.

Lemma tick_ok n lk m tx s k :
  calm n lk m s -> steady n lk tx -> (forall t, ~ shared_cell (k t) /\ k t <> Quiesce) ->
  okM (bind (stm_extend C) (fun ok =>
       bind (when (ok =? 0) (stm_abort C fuel STM_ABORT_EARLY)) (fun _ => when (negb (ea_kernel C)) (ea_store k 1))))
    tx s (fun _ tx' s' => tx' = tx /\ calm n lk m s').
Proof.
  intros Hs Hd Hk. eapply ok_bind; [by eapply extend_ok|]. intros a tx' s' (-> & -> & Hs').
  apply (keep_when_ok (negb (ea_kernel C)) (ea_store k 1)); [|done]. by apply keep_ea_store_ok.
Qed.

Lemma ctl_free (g : nat -> loc) :
  g = Tx_on \/ g = Standing \/ g = Recently_validated -> forall t, ~ shared_cell (g t) /\ g t <> Quiesce.
Proof. intros [-> |[-> | ->]] t; (split; [by intros []|done]). Qed.

Lemma standing_ok n lk m tx s :
  calm n lk m s -> steady n lk tx ->
  okM (ea_standing_tick C fuel) tx s (fun _ tx' s' => tx' = tx /\ calm n lk m s').
Proof.
  intros Hs Hd. unfold ea_standing_tick. destruct (ea C); [|by apply ok_ret].
  eapply ok_bind; [by apply keep_ea_load_ok|]. intros sd tx' s1 [-> Hs1].
  destruct (sd =? 1); [|by apply ok_ret].
  eapply ok_bind; [apply (keep_ea_store_ok Tx_on 0); [apply ctl_free; auto|exact Hs1]|].
  intros [] tx' s2 [-> Hs2].
  eapply ok_bind; [apply (keep_ea_store_ok Recently_validated 1); [apply ctl_free; auto|exact Hs2]|].
  intros [] tx' s3 [-> Hs3]. apply tick_ok; [done|done|]. apply ctl_free. auto.
Qed.

Lemma check_ok n lk m tx s :
  calm n lk m s -> steady n lk tx ->
  okM (et_check C fuel) tx s (fun _ tx' s' => tx' = tx /\ calm n lk m s').
Proof.
  intros Hs Hd. unfold et_check. destruct (ea C); [|by apply ok_ret].
  apply ok_ext. apply calm_extra with (x := (ext_run i Tick (extra s)).2) in Hs.
  eapply ok_bind; [by apply keep_ea_load_ok|]. intros on tx' s1 [-> Hs1].
  destruct (_ && _); [|by apply ok_ret].
  eapply ok_bind; [apply (keep_ea_store_ok Tx_on 0); [apply ctl_free; auto|exact Hs1]|].
  intros [] tx' s2 [-> Hs2]. eapply ok_bind; [by eapply extend_ok|].
  intros a tx' s3 (-> & -> & Hs3). apply (keep_ea_store_ok Tx_on 1); [|done]. apply ctl_free. auto.
Qed.

(** *** Reads *)

Definition room_r (tx : stm_tx) : Z := r_size (rset tx) - r_nb tx.
Definition room_w (tx : stm_tx) : Z := w_size (wset tx) - w_nb tx.

Definition same_sets (tx tx' : stm_tx) : Prop :=
  ro tx' = ro tx /\ r_size (rset tx') = r_size (rset tx) /\
  w_size (wset tx') = w_size (wset tx) /\ w_base (wset tx') = w_base (wset tx).

Lemma read_lock_ok n lk m tx s a :
  calm n lk m s -> steady n lk tx ->
  okM (stm_read_lock C fuel fuel a None) tx s
    (fun r tx' s' => r = Some (m a, lk (GET_LOCK a)) /\ tx' = tx /\ s' = s).
Proof.
  intros Hs Hd. simpl. apply ok_load.
  destruct (calm_free n lk m s (GET_LOCK a) Hs) as (_ & -> & ->). simpl.
  apply ok_load, ok_load. rewrite Z.eqb_refl. simpl. apply ok_get.
  destruct (cm_locks _ _ _ _ Hs (GET_LOCK a)). rewrite (sd_end _ _ _ Hd).
  destruct (Z.ltb_spec n (lk (GET_LOCK a))); [lia|]. apply ok_ret.
  by rewrite (cm_words _ _ _ _ Hs).
Qed.

Lemma add_read_ok n lk tx s a (y : Z) :
  steady n lk tx -> (truth (ro tx) = false -> 1 <= room_r tx) ->
  okM (bind (add_to_read_set C (lk a) a) (fun _ => ret y)) tx s (fun v tx' s' => v = y /\ s' = s /\
    steady n lk tx' /\ same_sets tx tx' /\ wset tx' = wset tx /\ room_r tx - 1 <= room_r tx').
Proof.
  intros Hd Hroom. eapply (ok_bind _ _ _ _ (fun _ tx' s' => s' = s /\
    steady n lk tx' /\ same_sets tx tx' /\ wset tx' = wset tx /\ room_r tx - 1 <= room_r tx')).
  2: { intros _ tx' s' (-> & ?). by apply ok_ret. }
  apply ok_get. destruct (truth (ro tx)) eqn:Hro.
  { apply ok_ret. split_and!; try done. lia. }
  specialize (Hroom eq_refl). unfold room_r in *.
  destruct (Z.eqb_spec (r_nb tx) (r_size (rset tx))); [lia|].
  eapply (ok_bind _ _ _ _ (fun _ tx' s' => tx' = tx /\ s' = s)); [by apply ok_ret|].
  intros _ tx' s' [-> ->].
  eexists tt, _, s. split; [reflexivity|]. destruct Hd.
  split_and!; try done.
  - constructor; simpl; try done. apply list.Forall_app. split; [done|]. by constructor.
  - unfold r_nb. simpl. rewrite length_app. simpl. lia.
Qed.

Lemma stm_load_ok n lk m tx s a :
  calm n lk m s -> steady n lk tx -> (truth (ro tx) = false -> 1 <= room_r tx) ->
  okM (stm_load C fuel a) tx s (fun v tx' s' => v = apply m (writes (w_entries (wset tx))) a /\
    calm n lk m s' /\ steady n lk tx' /\ same_sets tx tx' /\ wset tx' = wset tx /\
    room_r tx - 1 <= room_r tx').
Proof.
  intros Hs Hd Hroom. eapply (ok_bind _ _ _ _ (fun v tx' s' =>
    v = apply m (writes (w_entries (wset tx))) a /\
    s' = s /\ steady n lk tx' /\ same_sets tx tx' /\ wset tx' = wset tx /\ room_r tx - 1 <= room_r tx')).
  2: { intros v tx' s' (-> & -> & Hd' & Hrest).
       eapply ok_bind; [by apply (standing_ok n lk m)|]. intros [] tx2 s2 [-> Hs2]. by apply ok_ret. }
  apply ok_get, ok_assert; [by rewrite (sd_status _ _ _ Hd)|].
  cbv zeta. set (wr := stm_has_written tx a ≫= fun k => w_entries (wset tx) !! k).
  assert (Hread : okM (bind (stm_read_lock C fuel fuel a None) (fun r =>
      match r with
      | None => ret 0
      | Some (value, version) =>
          let value := match wr with Some w => wmerge value (w_value w) (w_mask w) | None => value end in
          bind (add_to_read_set C version (GET_LOCK a)) (fun _ => ret value)
      end)) tx s (fun v tx' s' => v = apply m (writes (w_entries (wset tx))) a /\
    s' = s /\ steady n lk tx' /\ same_sets tx tx' /\ wset tx' = wset tx /\ room_r tx - 1 <= room_r tx')).
  { eapply ok_bind; [by apply (read_lock_ok n lk m)|]. intros r tx' s' (-> & -> & ->). cbv zeta.
    eapply ok_mono; [by apply (add_read_ok n lk)|]. intros v tx' s' (-> & ?). split; [|done].
    destruct wr as [w|] eqn:Hw.
    - symmetry. apply (through_written tx m a w); [apply Hd|done].
    - symmetry. by apply through_unwritten. }
  destruct wr as [w|] eqn:Hw; [|exact Hread].
  destruct (Z.eqb_spec (w_mask w) ones64) as [Hone|]; [|exact Hread].
  destruct (through_written tx m a w (sd_ws _ _ _ Hd) Hw) as [Hap (Hv & _ & _)].
  apply ok_ret. split_and!; try done; [|lia].
  rewrite Hap, Hone, wmerge_ones; [done| |done]. apply Hs.
Qed.

(** *** Writes *)

(** The write set now maps [a] to [v] under the mask [x]. *)
Definition wrote_to (n : Z) (lk : Z -> Z) (m : mem) (tx : stm_tx) (a v x : Z) (tx' : stm_tx) : Prop :=
  let M := apply m (writes (w_entries (wset tx))) in
  steady n lk tx' /\ same_sets tx tx' /\ rset tx' = rset tx /\ room_w tx - 1 <= room_w tx' /\
  apply m (writes (w_entries (wset tx'))) = upd M a (wmerge (M a) v x).

Lemma wrote_merge n lk m tx a v x k :
  steady n lk tx -> is_mem m -> is_word v -> is_word x -> stm_has_written tx a = Some k ->
  wrote_to n lk m tx a v x (set_w_entries (alter (merge_entry v x) k (w_entries (wset tx))) tx).
Proof.
  intros Hd Hm Hv Hx Hf. apply find_written_Some in Hf as (w & Hk & <-).
  destruct Hd as [? ? ? ? ? Hws Hdr ? ? Hnb]. unfold wrote_to, room_w, w_nb in *. simpl.
  rewrite !length_alter. split_and!; try done; [|lia|].
  - constructor; simpl; try done.
    + by eapply merge_ok.
    + apply Forall_alter; [done|]. by intros.
    + unfold w_nb. simpl. by rewrite length_alter.
  - by apply (apply_merge _ m k w).
Qed.

Lemma wrote_add n lk m tx a v x ver :
  steady n lk tx -> is_mem m -> is_word v -> is_word x -> stm_has_written tx a = None ->
  1 <= room_w tx ->
  wrote_to n lk m tx a v x
    (set_w_entries (w_entries (wset tx) ++
       [mk_w_entry a (if x =? 0 then 0 else v) x ver (GET_LOCK a) 1]) tx).
Proof.
  intros Hd Hm Hv Hx Hf Hroom. apply find_written_None in Hf.
  destruct Hd as [? ? ? ? ? Hws Hdr ? ? Hnb]. unfold wrote_to, room_w, w_nb in *. simpl.
  rewrite length_app. simpl. split_and!; try done; [|lia|].
  - constructor; simpl; try done.
    + by apply add_ok.
    + apply list.Forall_app. split; [done|]. by constructor.
    + unfold w_nb. simpl. rewrite length_app. simpl. lia.
  - apply (apply_add _ m a); try done. apply Hws.
Qed.

Lemma write_ok_solo n lk m tx s a v x :
  calm n lk m s -> steady n lk tx -> truth (ro tx) = false -> 1 <= room_w tx ->
  is_word v -> is_word x ->
  okM (stm_write C fuel a v x) tx s (fun _ tx' s' => calm n lk m s' /\ wrote_to n lk m tx a v x tx').
Proof.
  intros Hs Hd Hro Hroom Hv Hx. apply ok_get, ok_assert; [by rewrite (sd_status _ _ _ Hd)|].
  rewrite Hro. eapply (ok_bind _ _ _ _ (fun r tx' s' => is_Some r /\ s' = s /\ wrote_to n lk m tx a v x tx')).
  2: { intros r tx' s' ([w ->] & -> & Hw). eapply ok_bind; [by eapply standing_ok; [|apply Hw]|].
       intros [] tx2 s2 [-> Hs2]. by apply ok_ret. }
  simpl. apply ok_load. destruct (calm_free n lk m s (GET_LOCK a) Hs) as (-> & _ & ->). simpl.
  apply ok_get. destruct (stm_has_written tx a) as [k|] eqn:Hf.
  - apply ok_modify, ok_ret. split_and!; [by eexists|done|].
    apply wrote_merge; [done|apply Hs|done..].
  - destruct (cm_locks _ _ _ _ Hs (GET_LOCK a)). rewrite (sd_end _ _ _ Hd).
    destruct (Z.ltb_spec n (lk (GET_LOCK a))); [lia|]. simpl. unfold add_to_write_set.
    unfold room_w in Hroom. eapply (ok_bind _ _ _ _ (fun _ tx' s' => s' = s /\ wrote_to n lk m tx a v x tx')).
    + apply ok_get. destruct (Z.eqb_spec (w_nb tx) (w_size (wset tx))); [lia|].
      eapply (ok_bind _ _ _ _ (fun _ tx' s' => tx' = tx /\ s' = s)); [by apply ok_ret|].
      intros _ tx' s' [-> ->]. apply ok_get, ok_modify, ok_ret. split; [done|].
      apply wrote_add; [done|apply Hs|done..].
    + intros w tx' s' [-> Hw]. apply ok_ret. split_and!; [by eexists|done|done].
Qed.

(** *** The body *)

Definition ran (n : Z) (lk : Z -> Z) (m : mem) (tx : stm_tx) (r : Z) (m' : mem) (v : Z)
    (tx' : stm_tx) (s' : stm_state) : Prop :=
  v = r /\ calm n lk m s' /\ steady n lk tx' /\ same_sets tx tx' /\
  (truth (ro tx) = true -> w_entries (wset tx) = [] -> w_entries (wset tx') = []) /\
  apply m (writes (w_entries (wset tx'))) = m'.

Lemma same_sets_trans tx1 tx2 tx3 : same_sets tx1 tx2 -> same_sets tx2 tx3 -> same_sets tx1 tx3.
Proof. intros (? & ? & ? & ?) (? & ? & ? & ?). split_and!; congruence. Qed.

Lemma body_ok n lk m b tx s r m' :
  let M := apply m (writes (w_entries (wset tx))) in
  calm n lk m s -> steady n lk tx -> seq_body b M = Some (r, m') ->
  (truth (ro tx) = false -> seq_loads b M <= room_r tx) -> seq_stores b M <= room_w tx ->
  (truth (ro tx) = true -> seq_stores b M = 0) ->
  okM (exec_body C fuel b) tx s (ran n lk m tx r m').
Proof.
  cbv zeta. revert tx s.
  assert (Hstore : forall k a v x tx s,
    (forall tx s, calm n lk m s -> steady n lk tx ->
       seq_body k (apply m (writes (w_entries (wset tx)))) = Some (r, m') ->
       (truth (ro tx) = false -> seq_loads k (apply m (writes (w_entries (wset tx)))) <= room_r tx) ->
       seq_stores k (apply m (writes (w_entries (wset tx)))) <= room_w tx ->
       (truth (ro tx) = true -> seq_stores k (apply m (writes (w_entries (wset tx)))) = 0) ->
       okM (exec_body C fuel k) tx s (ran n lk m tx r m')) ->
    let M := apply m (writes (w_entries (wset tx))) in
    let M' := upd M a (wmerge (M a) v x) in
    is_word v -> is_word x -> calm n lk m s -> steady n lk tx ->
    seq_body k M' = Some (r, m') -> (truth (ro tx) = false -> seq_loads k M' <= room_r tx) ->
    1 + seq_stores k M' <= room_w tx -> (truth (ro tx) = true -> 1 + seq_stores k M' = 0) ->
    okM (bind (bind (stm_write C fuel a v x) (fun _ => ret tt)) (fun _ => exec_body C fuel k)) tx s
      (ran n lk m tx r m')).
  { intros k a v x tx s IH M M' Hv Hx Hs Hd Hb Hr Hw Hro.
    pose proof (seq_stores_nonneg k M'). destruct (truth (ro tx)) eqn:Hro'; [lia|].
    eapply (ok_bind _ _ _ _ (fun _ tx' s' => calm n lk m s' /\ wrote_to n lk m tx a v x tx')).
    { eapply ok_bind; [apply (write_ok_solo n lk m); [done..|lia|done|done]|].
      intros w tx' s' Hp. by apply ok_ret. }
    intros _ tx' s' [Hs' (Hd' & Hsame & Hrs & Hroom & Hap)]. fold M in Hap. fold M' in Hap.
    assert (Hro2 : truth (ro tx') = false) by (by rewrite (proj1 Hsame)).
    eapply ok_mono; [apply IH; rewrite ?Hap, ?Hro2; try done|].
    - intros _. unfold room_r, r_nb in *. rewrite Hrs. by apply Hr.
    - lia.
    - intros y tx2 s2 (-> & ? & ? & ? & ? & ?). split_and!; try done; [by eapply same_sets_trans|].
      congruence. }
  induction b as [r0|a k IH|a v k IH|a v x k IH|k IH|]; intros tx s Hs Hd Hb Hr Hw Hro; simpl in *;
    (eapply ok_bind; [by eapply check_ok|]); intros [] tx1 s1 [-> Hs1].
  - simplify_eq. apply ok_ret. by split_and!.
  - pose proof (seq_stores_nonneg (k (apply m (writes (w_entries (wset tx))) (w64 a)))
      (apply m (writes (w_entries (wset tx))))).
    assert (Hl : forall b m, 0 <= seq_loads b m).
    { clear. intros b. induction b; intros m0; simpl; try done; [|auto..].
      specialize (H (m0 (w64 a)) m0). lia. }
    eapply ok_bind; [apply (stm_load_ok n lk m); [done..|]|].
    { intros Hro'. specialize (Hr Hro').
      specialize (Hl (k (apply m (writes (w_entries (wset tx))) (w64 a))) (apply m (writes (w_entries (wset tx))))).
      lia. }
    intros v tx' s' (-> & Hs' & Hd' & Hsame & Hws & Hroom).
    eapply ok_mono; [apply IH; rewrite ?Hws, ?(proj1 Hsame); try done|].
    + intros Hro'. specialize (Hr Hro'). lia.
    + unfold room_w, w_nb in *. by rewrite Hws.
    + intros y tx2 s2 (-> & ? & ? & ? & Hnil & ?). split_and!; try done; [by eapply same_sets_trans|].
      rewrite Hws, (proj1 Hsame) in Hnil. done.
  - apply Hstore; auto with word;
      rewrite ?wmerge_ones; auto with word; try (apply writes_words; [apply Hd|apply Hs1]).
  - apply Hstore; auto with word.
  - done.
  - done.
Qed.

(** ** Start *)

(** A descriptor between transactions *)
Record parked (tx : stm_tx) : Prop := {
  pk_nesting : nesting tx = 0;
  pk_status : IS_ACTIVE (status tx) = false;
  pk_base : 0 < w_base (wset tx) /\ w_base (wset tx) mod 16 = 0 /\
            w_base (wset tx) + sizeof_w_entry * w_size (wset tx) <= 2 ^ 47;
  pk_size : 0 <= w_size (wset tx) }.

(** A descriptor that has just been prepared *)
Definition fresh (n : Z) (lk : Z -> Z) (tx tx' : stm_tx) : Prop :=
  steady n lk tx' /\ same_sets tx tx' /\ w_entries (wset tx') = [] /\ r_entries (rset tx') = [].

Lemma prepare_ok n lk m tx s :
  calm n lk m s -> parked (tx <| nesting := 0 |>) -> nesting tx = 1 ->
  okM (stm_prepare C fuel) tx s (fun _ tx' s' => fresh n lk tx tx' /\ calm n lk m s').
Proof.
  intros Hs [_ Hst Hb Hsz] Hn. apply ok_load, ok_modify, ok_get. rewrite (cm_clock _ _ _ _ Hs). simpl.
  destruct (cm_range _ _ _ _ Hs). destruct (Z.leb_spec VERSION_MAX n); [lia|].
  do 4 apply ok_modify. match goal with |- okM _ ?t _ _ => set (tx1 := t) end.
  assert (Hf : fresh n lk tx tx1).
  { split; [|done]. constructor; simpl; try done. split; constructor. }
  eapply (ok_bind _ _ _ _ (fun _ tx' s' => tx' = tx1 /\ calm n lk m s')).
  { apply ok_get, ok_assert; [done|]. apply ok_load.
    destruct (Z.eqb_spec (cell s Quiesce) 2) as [Hq|]; [by destruct (cm_quiesce _ _ _ _ Hs)|].
    by apply ok_ret. }
  intros q tx' s1 [-> Hs1]. rewrite Hsim, andb_false_r.
  eapply (ok_bind _ _ _ _ (fun _ tx' s' => tx' = tx1 /\ calm n lk m s')); [by apply ok_ret|].
  intros _ tx' s2 [-> Hs2]. eapply ok_mono.
  - apply (keep_when_ok (ea C) (bind (ea_clear Standing) (fun _ => ea_clear Recently_validated)));
      [|exact Hs2].
    apply keep_bind_ok; [|intros _]; apply keep_ea_clear_ok, ctl_free; auto.
  - intros [] tx' s3 [-> Hs3]. by split.
Qed.

Lemma start_ok n lk m a tx s :
  calm n lk m s -> parked tx ->
  let tx1 := tx <| ro := match a with None => 0 | Some a => read_only a end |> in
  okM (stm_start C fuel a) tx s
    (fun env tx' s' => env = true /\ fresh n lk tx1 tx' /\ calm n lk m s').
Proof.
  intros Hs [Hn Hst Hb Hsz] tx1. eapply ok_bind.
  { apply (keep_when_ok (ea C && negb (ea_kernel C)) (ea_store Tx_on 1)); [|exact Hs].
    apply keep_ea_store_ok, ctl_free. auto. }
  intros [] tx' s1 [-> Hs1]. apply ok_get, ok_modify. rewrite Hn. simpl. apply ok_modify.
  eapply ok_bind; [apply (prepare_ok n lk m); [done| |done]|].
  { by constructor. }
  intros [] tx2 s2 [Hf Hs2]. eapply ok_bind; [by apply keep_callbacks_ok|].
  intros [] tx3 s3 [-> Hs3]. apply ok_ret. split; [done|]. split; [|done]. exact Hf.
Qed.

(** ** Commit *)

(** The state between transactions, whatever the timestamps *)
Record rest (n : Z) (m : mem) (s : stm_state) : Prop := {
  rt_clock : cell s Clock = n;
  rt_range : 0 <= n;
  rt_locks : forall k, exists v, cell s (Lock k) = 2 * v /\ 0 <= v <= n;
  rt_quiesce : cell s Quiesce <> 2;
  rt_words : forall a, cell s (Word a) = m a;
  rt_mem : is_mem m }.

Lemma calm_rest n lk m s : calm n lk m s -> rest n m s.
Proof.
  intros [? ? Hl ? ? ?]. constructor; try done; [lia|]. intros k. by exists (lk k).
Qed.

Lemma rest_calm n m s : rest n m s -> n < VERSION_MAX -> calm n (fun k => cell s (Lock k) / 2) m s.
Proof.
  intros [? ? Hl ? ? ?] Hn. constructor; try done. intros k. destruct (Hl k) as (v & -> & Hv).
  rewrite Z.mul_comm, Z.div_mul by lia. lia.
Qed.

(** What the commit leaves of the descriptor *)
Definition committed_tx (tx tx' : stm_tx) : Prop := parked tx' /\ same_sets tx tx'.

Lemma commit_end_ok tx s (P : stm_state -> Prop) :
  (forall s l v, ~ shared_cell l -> l <> Quiesce -> P s -> P (set_cell s l v)) ->
  (forall s x, P s -> P (mk_state (cell s) x)) -> P s ->
  okM (stm_commit_end C) tx s (fun ok tx' s' => ok = 1 /\ P s' /\ status tx' = TX_COMMITTED /\
    nesting tx' = nesting tx /\ same_sets tx tx').
Proof.
  intros Hctl Hx Hs. apply ok_modify. match goal with |- okM _ ?t _ _ => set (tx1 := t) end.
  eapply (ok_bind _ _ _ _ (fun _ tx' s' => tx' = tx1 /\ P s')).
  { clearbody tx1. revert s Hs. induction (commit_cb C) as [|[h arg] cbs IH]; intros s Hs; simpl; [by apply ok_ret|].
    apply ok_ext. apply IH. by apply Hx. }
  intros [] tx' s1 [-> Hs1]. apply ok_modify.
  eapply (ok_bind _ _ _ _ (fun _ tx' s' => tx' = set_status TX_COMMITTED tx1 /\ P s')).
  { destruct (ea C); [|by apply ok_ret]. apply ok_get, ok_store_last. split; [done|].
    apply Hctl; [by intros []|done|done]. }
  intros [] tx' s2 [-> Hs2]. by apply ok_ret.
Qed.

(** The locks of the entries from [K] on are taken. *)
Record locking (n : Z) (m : mem) (K : nat) (tx : stm_tx) (s : stm_state) : Prop := {
  lg_clock : cell s Clock = n;
  lg_range : 0 <= n < VERSION_MAX;
  lg_quiesce : cell s Quiesce <> 2;
  lg_words : forall a, cell s (Word a) = m a;
  lg_mem : is_mem m;
  lg_base : 0 < w_base (wset tx) /\ w_base (wset tx) mod 16 = 0 /\
            w_base (wset tx) + sizeof_w_entry * w_size (wset tx) <= 2 ^ 47;
  lg_nb : w_nb tx <= w_size (wset tx);
  lg_locks : forall k, (exists v, cell s (Lock k) = 2 * v /\ 0 <= v <= n) \/
    exists j w, w_entries (wset tx) !! j = Some w /\ (K <= j)%nat /\ w_no_drop w = 0 /\
      w_lock w = k /\ cell s (Lock k) = w_ptr tx j + 1 }.

Definition locked_tx (tx tx' : stm_tx) : Prop :=
  writes (w_entries (wset tx')) = writes (w_entries (wset tx)) /\
  (Forall w_ok (w_entries (wset tx)) -> Forall w_ok (w_entries (wset tx'))) /\
  same_sets tx tx' /\ start tx' = start tx /\ nesting tx' = nesting tx /\
  length (w_entries (wset tx')) = length (w_entries (wset tx)).

Lemma locked_tx_trans tx1 tx2 tx3 : locked_tx tx1 tx2 -> locked_tx tx2 tx3 -> locked_tx tx1 tx3.
Proof.
  intros (? & ? & ? & ? & ? & ?) (? & ? & ? & ? & ? & ?).
  split_and!; try congruence; [auto|by eapply same_sets_trans].
Qed.

Lemma ptr_own n m K tx s j w :
  locking n m K tx s -> w_entries (wset tx) !! j = Some w ->
  LOCK_GET_OWNED (w_ptr tx j + 1) = 1 /\ LOCK_GET_ADDR (w_ptr tx j + 1) = w_ptr tx j /\
  LOCK_SET_ADDR_WRITE (w_ptr tx j) = w_ptr tx j + 1 /\ in_w_set tx (w_ptr tx j) = true.
Proof.
  intros [_ _ _ _ _ (Hb & Hal & Hend) Hnb _] Hj. apply lookup_lt_Some in Hj.
  assert (Hev : w_ptr tx j mod 2 = 0).
  { unfold w_ptr, sizeof_w_entry. rewrite (Z.div_mod (w_base (wset tx)) 16), Hal by lia.
    replace (16 * (w_base (wset tx) / 16) + 0 + 64 * Z.of_nat j)
      with ((8 * (w_base (wset tx) / 16) + 32 * Z.of_nat j) * 2) by lia.
    by apply Z.mod_mul. }
  assert (Hrange : w_base (wset tx) <= w_ptr tx j < w_base (wset tx) + sizeof_w_entry * w_nb tx).
  { unfold w_ptr, w_nb, sizeof_w_entry in *. lia. }
  assert (sizeof_w_entry * w_nb tx <= sizeof_w_entry * w_size (wset tx))
    by (unfold sizeof_w_entry; lia).
  split_and!.
  - rewrite wb_owned, Z.add_mod, Hev by lia. done.
  - apply wb_get_addr; [unfold is_word, word_size; lia|done|lia].
  - by apply set_addr_write.
  - unfold in_w_set. destruct Hrange. apply andb_true_iff. split; [by apply Z.leb_le|by apply Z.ltb_lt].
Qed.

Lemma locking_take n m k v tx s w :
  locking n m (S k) tx s -> w_entries (wset tx) !! k = Some w ->
  let tx' := take_entry k v tx in
  locking n m k tx' (set_cell s (Lock (w_lock w)) (w_ptr tx k + 1)) /\ locked_tx tx tx'.
Proof.
  intros [Hc Hn Hq Hw Hm Hb Hnb Hl] Hk. cbv zeta. split.
  - constructor; try done.
    + unfold w_nb in *. simpl. by rewrite length_alter.
    + intros k'. destruct (decide (k' = w_lock w)) as [->|Hne].
      * right. eexists k, _. rewrite take_lookup, decide_True, Hk by done. split_and!; [done|lia|done|done|].
        simpl. by rewrite upd_same.
      * unfold set_cell. cbn [cell]. rewrite upd_other by congruence.
        destruct (Hl k') as [|(j & w' & Hj & Hle & Hd & Hlk & Hcell)]; [by left|].
        right. exists j, w'. rewrite (take_lookup k v tx j), decide_False, Hj by lia. split_and!; try done. lia.
  - split_and!; try done.
    + apply take_writes.
    + intros Hok. apply Forall_lookup_2. intros j w' Hj. rewrite take_lookup in Hj.
      apply fmap_Some in Hj as (u & Hj & ->). pose proof (Forall_lookup_1 _ _ _ _ Hok Hj).
      by case_decide.
    + simpl. by rewrite length_alter.
Qed.

Lemma acquire_entry_ok n m k tx s w :
  locking n m (S k) tx s -> w_entries (wset tx) !! k = Some w ->
  okM (stm_acquire_entry C fuel fuel k) tx s (fun ok tx' s' => ok = true /\ locking n m k tx' s' /\ locked_tx tx tx').
Proof.
  intros Hl Hk. simpl. apply ok_get. rewrite Hk. apply ok_load.
  destruct (lg_locks _ _ _ _ _ Hl (w_lock w)) as [(v & Hc & Hv)|(j & w' & Hj & Hle & Hd & Hlk & Hc)].
  - rewrite Hc, wb_owned, Z.mul_comm, Z.mod_mul by lia. simpl.
    destruct (locking_take n m k (LOCK_GET_TIMESTAMP (v * 2)) tx s w Hl Hk) as [Hl' Hlt].
    exists true. eexists _, _. split.
    { unfold cas, act, bind. simpl. rewrite Hc, Z.mul_comm, decide_True by done. reflexivity. }
    split; [done|]. split; [|exact Hlt].
    destruct (ptr_own n m (S k) tx s k w Hl Hk) as (_ & _ & -> & _). exact Hl'.
  - rewrite Hc. destruct (ptr_own n m (S k) tx s j w' Hl Hj) as (-> & -> & _ & ->). simpl.
    apply ok_ret. split_and!; try done. destruct Hl as [? ? ? ? ? ? ? Hl]. constructor; try done.
    intros k'. destruct (Hl k') as [|(j' & w2 & ? & ? & ? & ? & ?)]; [by left|].
    right. exists j', w2. split_and!; try done. lia.
Qed.

Lemma acquire_ok n m k tx s :
  locking n m k tx s -> (k <= length (w_entries (wset tx)))%nat ->
  okM (stm_acquire C fuel k) tx s (fun ok tx' s' => ok = true /\ locking n m 0 tx' s' /\ locked_tx tx tx').
Proof.
  revert tx s. induction k as [|k IH]; intros tx s Hl Hk; [by apply ok_ret|].
  destruct (lookup_lt_is_Some_2 (w_entries (wset tx)) k) as [w Hw]; [lia|].
  eapply ok_bind; [by eapply acquire_entry_ok|]. intros ok tx' s' (-> & Hl' & Hlt).
  destruct Hlt as (? & ? & ? & ? & ? & Hlen) eqn:Heq. clear Heq.
  eapply ok_mono; [apply IH; [done|lia]|]. intros ok tx2 s2 (-> & Hl2 & Hlt2).
  split_and!; try done. by eapply locked_tx_trans.
Qed.

(** While the entries [ws] remain to be installed *)
Record placing (t : Z) (m : mem) (ws : list w_entry) (s : stm_state) : Prop := {
  pl_clock : cell s Clock = t;
  pl_quiesce : cell s Quiesce <> 2;
  pl_words : forall a, cell s (Word a) = m a;
  pl_mem : is_mem m;
  pl_locks : forall k, (exists v, cell s (Lock k) = 2 * v /\ 0 <= v <= t) \/
    exists w, w ∈ ws /\ w_no_drop w = 0 /\ w_lock w = k }.

Lemma placing_word t m w ws s :
  placing t m (w :: ws) s -> w_ok w ->
  placing t (upd m (w_addr w) (wmerge (m (w_addr w)) (w_value w) (w_mask w))) (w :: ws)
    (set_cell s (Word (w_addr w)) (wmerge (m (w_addr w)) (w_value w) (w_mask w))).
Proof.
  intros [? ? Hw Hm Hl] (Hv & Hx & _). constructor; try done.
  - intros a. simpl. unfold upd. destruct (decide (a = w_addr w)) as [->|Hne].
    + by rewrite decide_True.
    + rewrite decide_False by congruence. apply Hw.
  - intros a. unfold upd. case_decide; [|done]. by apply is_word_wmerge.
Qed.

Lemma placing_lock t m w ws s :
  0 <= t < 2 ^ 63 -> placing t m (w :: ws) s ->
  placing t m ws
    (if negb (truth (w_no_drop w)) then set_cell s (Lock (w_lock w)) (LOCK_SET_TIMESTAMP t) else s).
Proof.
  intros Ht [? ? Hw Hm Hl]. unfold truth. destruct (Z.eqb_spec (w_no_drop w) 0) as [Hd|Hd]; simpl.
  - rewrite wb_set_timestamp by done. constructor; try done. intros k. simpl.
    destruct (decide (k = w_lock w)) as [->|Hne]; [left; exists t; rewrite upd_same; lia|].
    rewrite upd_other by congruence. destruct (Hl k) as [|(w' & Hin & ? & Hk)]; [by left|].
    apply elem_of_cons in Hin as [->|]; [done|]. right. by exists w'.
  - constructor; try done. intros k. destruct (Hl k) as [|(w' & Hin & ? & ?)]; [by left|].
    apply elem_of_cons in Hin as [->|]; [done|]. right. by exists w'.
Qed.

Lemma install_ok t m ws tx s :
  0 <= t < 2 ^ 63 -> placing t m ws s -> Forall w_ok ws ->
  okM (stm_install t ws) tx s (fun _ tx' s' => tx' = tx /\ placing t (apply m (writes ws)) [] s').
Proof.
  intros Ht. revert m s. induction ws as [|w ws IH]; intros m s Hp Hok; [by apply ok_ret|].
  apply list.Forall_cons in Hok as [Hw Hok]. simpl.
  set (m1 := upd m (w_addr w) (wmerge (m (w_addr w)) (w_value w) (w_mask w))).
  eapply (ok_bind _ _ _ _ (fun _ tx' s' => tx' = tx /\ placing t m1 (w :: ws) s')).
  { pose proof (placing_word t m w ws s Hp Hw) as Hp1. fold m1 in Hp1.
    destruct (Z.eqb_spec (w_mask w) ones64) as [Hones|Hones].
    - apply ok_store_last. split; [done|]. rewrite Hones, wmerge_ones in Hp1; [done|apply Hp|apply Hw].
    - destruct (Z.eqb_spec (w_mask w) 0) as [Hz|Hz]; simpl.
      + apply ok_ret. split; [done|]. replace m1 with m; [done|].
        apply functional_extensionality. intros a. unfold m1, upd. case_decide; [subst|done].
        rewrite Hz, wmerge_0; [done|apply Hp|apply Hw].
      + apply ok_load, ok_store_last. split; [done|]. by rewrite (pl_words _ _ _ _ Hp). }
  intros [] tx' s1 [-> Hp1].
  eapply (ok_bind _ _ _ _ (fun _ tx' s' => tx' = tx /\ placing t m1 ws s')).
  { apply (placing_lock t m1 w ws s1 Ht) in Hp1. destruct (negb _); simpl.
    - by apply ok_store_last.
    - by apply ok_ret. }
  intros [] tx' s2 [-> Hp2]. by apply IH.
Qed.

Lemma rest_ctl n m s l v : ~ shared_cell l -> l <> Quiesce -> rest n m s -> rest n m (set_cell s l v).
Proof.
  intros Hl Hq [? ? Hlk ? Hw ?].
  assert (Hsame : forall l', l' <> l -> cell (set_cell s l v) l' = cell s l')
    by (intros l' Hne; simpl; by apply upd_other).
  constructor; try done.
  - rewrite Hsame; [done|]. by intros <-; destruct Hl.
  - intros k. rewrite Hsame; [done|]. by intros <-; destruct Hl.
  - rewrite Hsame; [done|]. congruence.
  - intros a. rewrite Hsame; [done|]. by intros <-; destruct Hl.
Qed.

Lemma rest_extra n m s x : rest n m s -> rest n m (mk_state (cell s) x).
Proof. by intros []. Qed.

(** What the commit has done *)
Definition closed (n : Z) (tx : stm_tx) (m' : mem) (ok : Z) (tx' : stm_tx) (s' : stm_state) : Prop :=
  ok = 1 /\ committed_tx tx tx' /\ exists n', n <= n' <= n + 1 /\ rest n' m' s'.

Lemma close_ok n n' m' tx0 tx s :
  n <= n' <= n + 1 -> rest n' m' s -> nesting tx = 0 -> same_sets tx0 tx ->
  0 <= w_size (wset tx0) ->
  (0 < w_base (wset tx0) /\ w_base (wset tx0) mod 16 = 0 /\
   w_base (wset tx0) + sizeof_w_entry * w_size (wset tx0) <= 2 ^ 47) ->
  okM (stm_commit_end C) tx s (closed n tx0 m').
Proof.
  intros Hn Hs Hz Hsame Hsz Hb. eapply ok_mono; [apply (commit_end_ok tx s (rest n' m')); [apply rest_ctl|apply rest_extra|done]|].
  intros ok tx' s' (-> & Hs' & Hst & Hnest & Hsame').
  pose proof (same_sets_trans _ _ _ Hsame Hsame') as (Hro & Hr & Hw & Hba).
  split_and!; [done| |by exists n']. split; [|done].
  constructor; [congruence|by rewrite Hst|by rewrite Hba, Hw|by rewrite Hw].
Qed.

Lemma commit_ok n lk m tx s :
  calm n lk m s -> steady n lk tx ->
  okM (stm_commit C fuel) tx s (closed n tx (apply m (writes (w_entries (wset tx))))).
Proof.
  intros Hs Hd. destruct Hd as [Hst _ Hstart Hn _ [Hok Hnd] _ _ Hb Hnb].
  assert (0 <= w_size (wset tx)) by (unfold w_nb in Hnb; lia).
  apply ok_modify, ok_get. rewrite Hn. change (1 - 1) with 0. simpl.
  apply ok_assert; [simpl; by rewrite Hst|].
  destruct (Z.eqb_spec (w_nb (tx <| nesting := 0 |>)) 0) as [Hz|Hz].
  { assert (Hnil : w_entries (wset tx) = []).
    { apply nil_length_inv. unfold w_nb in Hz. simpl in Hz. lia. }
    rewrite Hnil. apply (close_ok n n); [lia|by apply (calm_rest n lk)|done|done|done|done]. }
  eapply ok_bind.
  { apply (acquire_ok n m); [|done]. destruct Hs as [? ? Hl ? ? ?]. constructor; try done.
    intros k. left. by exists (lk k). }
  intros ok tx1 s1 (-> & Hl1 & Hwr & Hok1 & Hsame & Hst1 & Hn1 & Hlen). simpl in Hwr, Hst1, Hn1.
  eapply (ok_bind _ _ _ _ (fun c tx' s' => c = n /\ tx' = tx1 /\
    placing (n + 1) m (w_entries (wset tx1)) s')).
  { destruct Hl1 as [Hc Hr Hq Hw Hm _ _ Hl].
    assert (Ht : w64 (n + 1) = n + 1).
    { pose proof VERSION_MAX_bound. assert (0 <= MAX_THREADS) by by compute.
      apply w64_id. unfold is_word, word_size. lia. }
    eexists n, tx1, _. split; [unfold FETCH_INC_CLOCK, act; simpl; rewrite Hc, Ht; reflexivity|].
    split_and!; [done..|]. constructor; try done. intros k.
    destruct (Hl k) as [(v & ? & ?)|(j & w & Hj & _ & ? & ? & _)].
    - left. exists v. split; [done|lia].
    - right. exists w. split_and!; [by eapply list_elem_of_lookup_2|done|done]. }
  intros c tx2 s2 (-> & -> & Hp). pose proof (cm_range _ _ _ _ Hs). pose proof VERSION_MAX_bound.
  assert (0 <= MAX_THREADS) by by compute.
  cbv zeta. apply ok_get. rewrite (w64_id (n + 1)) by (unfold is_word, word_size; lia).
  replace (n + 1 - 1) with n by lia. rewrite w64_id by (unfold is_word, word_size; lia).
  rewrite Hst1, Hstart, Z.eqb_refl.
  eapply (ok_bind _ _ _ _ (fun a tx' s' => a = 1 /\ tx' = tx1 /\ s' = s2)); [by apply ok_ret|].
  intros a tx' s' (-> & -> & ->). simpl. apply ok_get.
  eapply ok_bind; [apply (install_ok (n + 1) m); [lia|exact Hp|by apply Hok1]|].
  intros [] tx' s' [-> [? ? ? ? Hl']]. rewrite Hwr in *.
  apply (close_ok n (n + 1)); [lia| |congruence|done|done|done].
  constructor; try done; [lia|]. intros k. destruct (Hl' k) as [|(w & Hw & _)]; [done|].
  by apply elem_of_nil in Hw.
Qed.

(** ** The whole transaction *)

Lemma run_tx_ok n m a b tx s r m' :
  let rd := truth (match a with None => 0 | Some a => read_only a end) in
  rest n m s -> n < VERSION_MAX -> parked tx -> seq_body b m = Some (r, m') ->
  (rd = false -> seq_loads b m <= r_size (rset tx)) -> seq_stores b m <= w_size (wset tx) ->
  (rd = true -> seq_stores b m = 0) ->
  okM (run_tx C fuel a b) tx s (fun res tx' s' => res = Some r /\ parked tx' /\
    r_size (rset tx') = r_size (rset tx) /\ w_size (wset tx') = w_size (wset tx) /\
    exists n', n <= n' <= n + 1 /\ rest n' m' s').
Proof.
  intros rd Hrest Hn Hp Hb Hr Hw Hro. pose proof (rest_calm n m s Hrest Hn) as Hs.
  eapply ok_bind; [by apply (start_ok n (fun k => cell s (Lock k) / 2) m)|].
  intros env tx1 s1 (-> & (Hd & (Hro1 & Hrs & Hws & Hba) & Hwn & Hrn) & Hs1). simpl in Hro1, Hrs, Hws.
  assert (Hrun : okM (tx_attempt C fuel b) tx1 s1 (fun res tx' s' => res = Some r /\ parked tx' /\
    r_size (rset tx') = r_size (rset tx) /\ w_size (wset tx') = w_size (wset tx) /\
    exists n', n <= n' <= n + 1 /\ rest n' m' s')).
  { eapply ok_bind.
    - apply (body_ok n (fun k => cell s (Lock k) / 2) m b tx1 s1 r m'); rewrite ?Hwn, ?Hro1; try done.
      + intros Hf. unfold room_r, r_nb. rewrite Hrn, Hrs. simpl. specialize (Hr Hf). lia.
      + unfold room_w, w_nb. rewrite Hwn, Hws. simpl. lia.
    - intros v tx2 s2 (-> & Hs2 & Hd2 & (? & Hrs2 & Hws2 & _) & _ & Hap).
      eapply ok_bind; [by eapply commit_ok|].
      intros ok tx3 s3 (-> & [Hpk (_ & Hrs3 & Hws3 & _)] & n' & Hn' & Hrest'). apply ok_ret.
      rewrite Hap in Hrest'. split_and!; [done|done|congruence|congruence|]. by exists n'. }
  destruct Hrun as (res & tx2 & s2 & Hrun & HP). exists res, tx2, s2. split; [|exact HP].
  simpl. unfold catch. by rewrite run_bind, Hrun.
Qed.

End Solo.

(** C9. Progress.  From a state in which every lock is free and the clock is below
    its limit, a transaction that runs alone commits at its first attempt, with the
    bound 1 on busy waiting and on restarts: it returns the result of its body, leaves
    the memory its body leaves, frees every lock and advances the clock by at
    most 1, and the descriptor is ready for the next one.  It must fit the read
    and write sets as they are, and must not write if it is read-only. *)
Theorem solo_commits C ext_run i n m a b tx s r m' :
  ea_sim C = false -> ea_user C = false ->
  rest n m s -> n < VERSION_MAX -> parked tx -> seq_body b m = Some (r, m') ->
  let rd := truth (match a with None => 0 | Some a => read_only a end) in
  (rd = false -> seq_loads b m <= r_size (rset tx)) -> seq_stores b m <= w_size (wset tx) ->
  (rd = true -> seq_stores b m = 0) ->
  exists tx' s' n', run ext_run i (run_tx C 1 a b tx) s = ((Ok (Some r), tx'), s') /\
    n <= n' <= n + 1 /\ rest n' m' s' /\ parked tx' /\
    r_size (rset tx') = r_size (rset tx) /\ w_size (wset tx') = w_size (wset tx).
Proof.
  intros Hsim Huser Hrest Hn Hp Hb rd Hr Hw Hro.
  destruct (run_tx_ok C 0 ext_run i Hsim Huser n m a b tx s r m') as
    (res & tx' & s' & Hrun & -> & Hpk & Hrs & Hws & n' & Hn' & Hrest'); try done.
  by exists tx', s', n'.
Qed.

(** The descriptor that [stm_init_thread] leaves, its write set at 4096 *)
Definition solo_tx : stm_tx :=
  init_tx 0 <| wset := mk_w_set 4096 [] RW_SET_SIZE 0 |>.

Lemma solo_commits_witness :
  exists tx' s' n', run demo_ext 0 (run_tx demo_config 1 None (add_tx 64 5) solo_tx)
      (stm_init demo_start) = ((Ok (Some 5), tx'), s') /\
    0 <= n' <= 1 /\ rest n' (upd (fun _ => 0) 64 5) s' /\ parked tx' /\
    r_size (rset tx') = RW_SET_SIZE /\ w_size (wset tx') = RW_SET_SIZE.
Proof.
  apply (solo_commits demo_config demo_ext 0 0 (fun _ => 0) None (add_tx 64 5) solo_tx
    (stm_init demo_start) 5 (upd (fun _ => 0) 64 5)).
  - reflexivity.
  - reflexivity.
  - constructor; try done. intros k. by exists 0.
  - by vm_compute.
  - by constructor.
  - reflexivity.
  - intros _. by vm_compute.
  - by vm_compute.
  - done.
Defined.
