(* ===== verification/CtlLimits.v ===== *)
(** * Where the guarantees stop

    The theorems of [CtlCorrect.v] exclude read-only transactions in the
    early-abort build, and say nothing of how long a transaction may retry.  Both
    limits are real. *)
From S2P Require Import Prelude Words LockWord Machine Tx Ctl CtlHist CtlInv CtlStep CtlLogic CtlAssert CtlExtend CtlBody CtlCommit CtlRun CtlCorrect CtlDemo.
Import WriteBack.

(** ** Ticks in a read-only transaction *)

Definition ea_config : config := mk_config true false false false [] [] [] [] [].

(** [demo_ext], with a tick at every instruction *)
Definition tick_ext (i : nat) (e : ext) (x : arrays) : Z * arrays :=
  match e with Tick => (1, x) | _ => demo_ext i e x end.

Lemma tick_ext_ok i e x :
  demo_good x ->
  ext_spec i e x (tick_ext i e x).1 (tick_ext i e x).2 /\ demo_good (tick_ext i e x).2.
Proof. intros Hx. destruct e; try by apply demo_ext_ok. split; [constructor|done]. Qed.

Definition pair_tx : txbody := TLoad 64 (fun v => TLoad 72 (fun w => TRet (v + 10 * w))).

Definition ones_tx : txbody := TStore 64 1 (TStore 72 1 (TRet 0)).

Definition ea_progs : list program :=
  [ [(Some (mk_attr 0 1 0), pair_tx)]; [(None, ones_tx)] ].

(** Thread 1 runs between the two reads of thread 0. *)
Definition ea_end : stm_state * list (prog loc ext thread_result) :=
  play tick_ext (replicate 20 0%nat ++ replicate 200 1%nat ++ replicate 200 0%nat)
    (stm_init demo_start) (start_threads ea_config 8 ea_progs).

Lemma ea_reachable : reachable ea_config 8 ea_progs ext_spec demo_start ea_end.1 ea_end.2.
Proof.
  unfold reachable. rewrite <- surjective_pairing.
  apply (play_pool tick_ext ext_spec demo_good tick_ext_ok). by left.
Qed.

Lemma ea_results : exists tx0 tx1, ea_end.2 =
  [Ret (Ok [Some 10], tx0); Ret (Ok [Some 0], tx1)].
Proof. eexists _, _. vm_compute. reflexivity. Qed.

(** The orders of two transactions of two threads *)
Lemma order_two l c0 c1 :
  rc_tid c0 = 0%nat -> rc_tid c1 = 1%nat -> Forall (fun c => (rc_tid c < 2)%nat) l ->
  mine 0 l = [c0] -> mine 1 l = [c1] -> l = [c0; c1] \/ l = [c1; c0].
Proof.
  intros H0 H1 Hl. unfold mine.
  assert (Hone : forall i c l, Forall (fun c => (rc_tid c < 2)%nat) l -> (i < 2)%nat ->
    filter (fun r => rc_tid r = i) l = [] -> filter (fun r => rc_tid r = 1 - i)%nat l = [c] -> l = [c]).
  { clear. intros i c l Hl Hi. induction Hl as [|d l Hd Hl IH]; [done|].
    destruct (decide (rc_tid d = i)) as [He|He];
      [by rewrite filter_cons_True by done|rewrite filter_cons_False by done].
    rewrite filter_cons_True by lia. intros Hn [= -> Hm]. f_equal.
    clear IH Hd. induction Hl as [|d l Hd Hl IH]; [done|].
    destruct (decide (rc_tid d = i)) as [He'|He'];
      [by rewrite filter_cons_True in Hn by done|by rewrite filter_cons_True in Hm by lia]. }
  destruct Hl as [|d l Hd Hl]; [done|].
  destruct (decide (rc_tid d = 0%nat)) as [He|He].
  - rewrite filter_cons_True, filter_cons_False by lia. intros [= -> Hm] Hn. left. f_equal.
    by apply (Hone 0%nat); [|lia| |].
  - rewrite filter_cons_False, filter_cons_True by lia. intros Hn [= -> Hm]. right. f_equal.
    by apply (Hone 1%nat); [|lia| |].
Qed.

(** C28. The exclusion of read-only transactions from the early-abort build is
    necessary: a tick moves the end of the snapshot of a read-only transaction,
    whose empty read set always passes [stm_validate].  There is a reachable
    configuration, all of whose threads have committed, with no serial order:
    thread 0 read one word before and the other after the commit of thread 1. *)
Theorem ea_read_only_not_serializable :
  exists s ts,
    reachable ea_config 8 ea_progs ext_spec demo_start s ts /\ all_done ts /\
    ~ exists order m,
        seq_exec order (words demo_start) = Some m /\ Forall (in_progs ea_progs) order /\
        forall i rs tx, ts !! i = Some (Ret (Ok rs, tx)) ->
          exists p vs, ea_progs !! i = Some p /\ rs = Some <$> vs /\ length vs = length p /\
            mine i order = records i p vs.
Proof.
  exists ea_end.1, ea_end.2. split; [exact ea_reachable|].
  destruct ea_results as (tx0 & tx1 & ->). split.
  { constructor; [by eexists _, _|]. constructor; [by eexists _, _|constructor]. }
  intros (order & m & He & Hin & Hts).
  destruct (Hts 0%nat _ _ eq_refl) as (p0 & vs0 & [= <-] & Hv0 & _ & Hm0).
  destruct (Hts 1%nat _ _ eq_refl) as (p1 & vs1 & [= <-] & Hv1 & _ & Hm1).
  destruct vs0 as [|v0 [|]]; [done| |done]. destruct vs1 as [|v1 [|]]; [done| |done].
  assert (Hlt : Forall (fun c => (rc_tid c < 2)%nat) order).
  { eapply Forall_impl; [|exact Hin]. intros c (p & a & Hp & _). by apply lookup_lt_Some in Hp. }
  simpl in Hv0, Hv1. injection Hv0 as <-. injection Hv1 as <-.
  assert (Ho := order_two order (mk_rec 0 pair_tx 10) (mk_rec 1 ones_tx 0) eq_refl eq_refl Hlt Hm0 Hm1).
  destruct Ho as [-> | ->]; discriminate He.
Qed.

(** ** Writes in a read-only transaction *)

(** A state in which no thread blocks the others and the clock is not exhausted *)
Definition calm (s : stm_state) : Prop := cell s Clock < VERSION_MAX /\ cell s Quiesce <> 2.

(** What an action of a program can answer; in a calm state if [c] *)
Definition answer (c : bool) (a : action loc ext) (r : Z) : Prop :=
  match a with
  | Load Clock => c = true -> r < VERSION_MAX
  | Load Quiesce => c = true -> r <> 2
  | _ => True
  end.

(** The action writes nothing but a control buffer. *)
Definition quiet (a : action loc ext) : Prop :=
  match a with
  | Load _ | Ext _ => True
  | Store l _ => match l with Tx_on _ | Standing _ | Recently_validated _ => True | _ => False end
  | _ => False
  end.

(** The actions of a program are quiet, and whatever they answer it ends in [P]. *)
Fixpoint leaves {A} (c : bool) (P : A -> Prop) (p : prog loc ext A) : Prop :=
  match p with
  | Ret a => P a
  | Do a k => quiet a /\ forall r, answer c a r -> leaves c P (k r)
  end.

Lemma leaves_bind {A B} c (P : B -> Prop) (p : prog loc ext A) (f : A -> prog loc ext B) :
  leaves c (fun a => leaves c P (f a)) p -> leaves c P (prog_bind p f).
Proof. induction p as [a|a k IH]; simpl; [done|]. intros [Hq Hk]. split; auto. Qed.

Lemma leaves_mono {A} c (P Q : A -> Prop) (p : prog loc ext A) :
  (forall a, P a -> Q a) -> leaves c P p -> leaves c Q p.
Proof. intros HPQ. induction p as [a|a k IH]; simpl; [auto|]. intros [Hq Hk]. split; auto. Qed.

(** In any interleaving, through calm states if [c] *)
Lemma leaves_step {A} ext_step env c (P : A -> Prop) i u u' :
  rtc (fun u u' => (c = true -> calm u.1) /\ pool_step (A := A) ext_step env u u') u u' ->
  (forall p, u.2 !! i = Some p -> leaves c P p) -> forall p, u'.2 !! i = Some p -> leaves c P p.
Proof.
  induction 1 as [|u1 u2 u3 [Hc Hs] _ IH]; [done|]. intros Hp. apply IH. clear IH.
  destruct Hs as [j a k r s s' ts Hj Hact|]; simpl in *; [|done].
  intros p Hi. destruct (decide (j = i)) as [->|Hne].
  - rewrite list_lookup_insert_eq in Hi by (by eapply lookup_lt_Some). simplify_eq.
    destruct (Hp _ Hj) as [_ Hk]. apply Hk. destruct Hact as [l s| | | | |]; try done.
    destruct l; try done; intros E; by apply Hc.
  - rewrite list_lookup_insert_ne in Hi by done. auto.
Qed.

(** Alone *)
Lemma leaves_run {A} ext_run (P : A -> Prop) i (p : prog loc ext A) s :
  calm s -> leaves true P p -> P (run ext_run i p s).1.
Proof.
  revert s. induction p as [a|a k IH]; intros s Hs; simpl; [done|]. intros [Hq Hk].
  assert (Ha : answer true a (exec_action ext_run i a s).1).
  { destruct a as [l| | | |]; try done. destruct l; try done; intros _; apply Hs. }
  assert (Hs' : calm (exec_action ext_run i a s).2).
  { destruct a as [l|l v|l e v|l|e]; simpl in *; try done; [destruct l; try done|by destruct (ext_run i e (extra s))]; by split. }
  destruct (exec_action ext_run i a s) as [r s1]. simpl in *. by apply IH; [|apply Hk].
Qed.

(** [m] ends normally, without a change of the descriptor *)
Definition keeps {A} (c : bool) (m : M A) : Prop := forall tx, leaves c (fun '(o, tx') => tx' = tx /\ exists a, o = Ok a) (m tx).

Lemma l_bind {A B} c (m : M A) (f : A -> M B) tx (Q : outcome B * stm_tx -> Prop) :
  leaves c (fun '(o, tx') => match o with
    | Ok a => leaves c Q (f a tx') | Jump r => Q (Jump r, tx') | Halt h => Q (Halt h, tx') end) (m tx) ->
  leaves c Q (bind m f tx).
Proof. intros H. apply leaves_bind. eapply leaves_mono; [|exact H]. by intros [[a|r|h] tx']. Qed.

Lemma l_keeps {A B} c (m : M A) (f : A -> M B) tx (Q : outcome B * stm_tx -> Prop) :
  keeps c m -> (forall a, leaves c Q (f a tx)) -> leaves c Q (bind m f tx).
Proof. intros Hm Hf. apply l_bind. eapply leaves_mono; [|by apply Hm]. by intros [o tx'] [-> [a ->]]. Qed.

Create HintDb keeps discriminated.

Lemma keeps_bind {A B} c (m : M A) (f : A -> M B) : keeps c m -> (forall a, keeps c (f a)) -> keeps c (bind m f).
Proof. intros Hm Hf tx. apply l_keeps; [done|]. intros a. apply Hf. Qed.

Lemma keeps_ret {A} c (a : A) : keeps c (ret a).
Proof. intros tx. split; eauto. Qed.

Lemma keeps_get c : keeps c get.
Proof. intros tx. split; eauto. Qed.

Lemma keeps_act c a : quiet a -> keeps c (act a).
Proof. intros Hq tx. split; [done|]. intros r _. simpl. eauto. Qed.

Lemma keeps_when c b m : keeps c m -> keeps c (when b m).
Proof. intros Hm. destruct b; [done|apply keeps_ret]. Qed.

#[local] Hint Resolve keeps_bind keeps_ret keeps_get keeps_act keeps_when : keeps.
#[local] Hint Extern 1 (quiet _) => exact I : keeps.

Section Read_only.

Context (C : config) (fuel : nat).
Hypothesis Hsim : ea_sim C = false.

(** Whether the answers are those of calm states *)
Context (c : bool).

(** The aborts counted before *)
Context (n0 : Z).

Definition aborted (k : nat) : Z := Nat.iter k incr n0.

(** A read-only transaction that retries, between [stm_prepare] and its first access, at
    its [k]th restart *)
Record ro_ready (k : nat) (tx : stm_tx) : Prop := {
  ro_ro : truth (ro tx) = true; ro_retry : must_retry tx = true; ro_attr : is_Some (attr tx);
  ro_status : status tx = TX_ACTIVE; ro_reads : r_entries (rset tx) = []; ro_writes : w_entries (wset tx) = [];
  ro_acquired : nb_acquired (wset tx) = 0; ro_aborts : aborts (stats tx) = aborted k }.

(** It waits for the roll-over of the clock, or for a thread that blocks the others. *)
Definition ro_waits {A} (o : outcome A) (tx : stm_tx) : Prop :=
  c = false /\ (o = Halt Blocked \/ o = Halt Out_of_fuel /\ status tx = TX_IDLE).

(** [m], run at the [k]th restart, goes on or restarts. *)
Definition goes_on {A} (k : nat) (m : M A) : Prop := forall tx, ro_ready k tx ->
  leaves c (fun '(o, tx') => ((exists a, o = Ok a) /\ ro_ready k tx') \/ ((exists r, o = Jump r) /\ ro_ready (S k) tx') \/ ro_waits o tx')
    (m tx).

(** ... or restarts for certain *)
Definition restarts {A} (k : nat) (m : M A) : Prop := forall tx, ro_ready k tx ->
  leaves c (fun '(o, tx') => ((exists r, o = Jump r) /\ ro_ready (S k) tx') \/ ro_waits o tx') (m tx).

Lemma l_get {B} (f : stm_tx -> M B) tx Q : leaves c Q (f tx tx) -> leaves c Q (bind get f tx).
Proof. done. Qed.

Lemma l_modify {B} g (f : unit -> M B) tx Q : leaves c Q (f tt (g tx)) -> leaves c Q (bind (modify g) f tx).
Proof. done. Qed.

Lemma l_assert {B} b (f : unit -> M B) tx Q : b = true -> leaves c Q (f tt tx) -> leaves c Q (bind (assert b) f tx).
Proof. by intros ->. Qed.

Lemma l_act {B} a (f : Z -> M B) tx Q :
  quiet a -> (forall r, answer c a r -> leaves c Q (f r tx)) -> leaves c Q (bind (act a) f tx).
Proof. done. Qed.

Lemma keeps_goes {A} k (m : M A) : keeps c m -> goes_on k m.
Proof. intros Hm tx Ht. eapply leaves_mono; [|by apply Hm]. intros [o tx'] [-> Ho]. by left. Qed.

Lemma modify_goes k g : (forall tx, ro_ready k tx -> ro_ready k (g tx)) -> goes_on k (modify g).
Proof. intros Hg tx Ht. left. eauto. Qed.

Lemma goes_bind {A B} k (m : M A) (f : A -> M B) : goes_on k m -> (forall a, goes_on k (f a)) -> goes_on k (bind m f).
Proof.
  intros Hm Hf tx Ht. apply l_bind. eapply leaves_mono; [|by apply Hm].
  intros [o tx'] [[[a ->] Ht']|[[[r ->] Ht']|[Hc Ho]]]; [by apply Hf|right; left; eauto|].
  destruct Ho as [-> |[-> Hs]]; right; right; split; auto.
Qed.

Lemma restarts_goes {A} k (m : M A) : restarts k m -> goes_on k m.
Proof. intros Hm tx Ht. eapply leaves_mono; [|by apply Hm]. by intros [o tx']; right. Qed.

Lemma goes_restarts {A B} k (m : M A) (f : A -> M B) : goes_on k m -> (forall a, restarts k (f a)) -> restarts k (bind m f).
Proof.
  intros Hm Hf tx Ht. apply l_bind. eapply leaves_mono; [|by apply Hm].
  intros [o tx'] [[[a ->] Ht']|[[[r ->] Ht']|[Hc Ho]]]; [by apply Hf|left; eauto|].
  destruct Ho as [-> |[-> Hs]]; right; split; auto.
Qed.

Lemma restarts_bind {A B} k (m : M A) (f : A -> M B) : restarts k m -> restarts k (bind m f).
Proof.
  intros Hm tx Ht. apply l_bind. eapply leaves_mono; [|by apply Hm].
  intros [o tx'] [[[r ->] Ht']|[Hc Ho]]; [left; eauto|].
  destruct Ho as [-> |[-> Hs]]; right; split; auto.
Qed.

Lemma goes_when k b m : goes_on k m -> goes_on k (when b m).
Proof. intros Hm. destruct b; [done|]. apply keeps_goes, keeps_ret. Qed.

Lemma keeps_callbacks cbs : keeps c (run_callbacks cbs).
Proof. induction cbs as [|[f arg] cbs IH]; simpl; auto with keeps. Qed.

(** The three fields of a control buffer *)
Definition buffer_field (f : nat -> loc) : Prop := f = Tx_on \/ f = Standing \/ f = Recently_validated.

Lemma keeps_ea_load f : keeps c (ea_load f).
Proof. unfold ea_load, load. auto with keeps. Qed.

Lemma keeps_ea_store f v : buffer_field f -> keeps c (ea_store f v).
Proof. unfold ea_store, store. intros [-> |[-> | ->]]; auto 8 with keeps. Qed.

Lemma keeps_ea_clear f : buffer_field f -> keeps c (ea_clear f).
Proof. intros Hf. unfold ea_clear. apply keeps_bind; [apply keeps_ea_load|]. intros s. apply keeps_when. by apply keeps_ea_store. Qed.

Hint Resolve keeps_callbacks keeps_ea_load keeps_ea_store keeps_ea_clear : keeps.
Hint Extern 1 (buffer_field _) => unfold buffer_field; tauto : keeps.

(** ** stm_prepare *)

Lemma l_wait_quiesce n tx :
  leaves c (fun '(o, tx') => tx' = tx /\ (o = Ok tt \/ o = Halt Out_of_fuel)) (stm_wait_quiesce n tx).
Proof.
  induction n as [|n IH]; [by split; [|right]|]. split; [done|]. intros q _. simpl. destruct (q =? 2); [done|by split; [|left]].
Qed.

(** In the state that a thread prepares in *)
Record ro_idle (k : nat) (tx : stm_tx) : Prop := {
  ri_ro : truth (ro tx) = true; ri_retry : must_retry tx = true; ri_attr : is_Some (attr tx);
  ri_status : IS_ACTIVE (status tx) = false; ri_aborts : aborts (stats tx) = aborted k }.

Lemma ro_check_quiesce k tx :
  ro_ready k tx -> leaves c (fun '(o, tx') => (exists a, o = Ok a) /\ ro_ready k tx' \/ ro_waits o tx') (stm_check_quiesce fuel tx).
Proof.
  intros Ht. unfold stm_check_quiesce. apply l_get. apply l_assert; [by rewrite (ro_status _ _ Ht)|].
  apply l_act; [done|]. intros q Hq. destruct (Z.eqb_spec q 2) as [->|_]; [|left; eauto].
  assert (Hc : c = false) by (destruct c; [by destruct Hq|done]).
  apply l_modify, l_bind. eapply leaves_mono; [|apply l_wait_quiesce]. intros [o tx'] [-> [-> | ->]].
  - apply l_modify. left. split; [eauto|]. destruct Ht. by constructor; simpl; rewrite ?ro_status0.
  - right. split; auto.
Qed.

Lemma ro_prepare k tx :
  ro_idle k tx -> leaves c (fun '(o, tx') => (o = Ok tt /\ ro_ready k tx') \/ ro_waits o tx') (stm_prepare C fuel tx).
Proof.
  intros [H1 H2 H3 H4 H5]. unfold stm_prepare. apply l_act; [done|]. intros now Hnow. apply l_modify, l_get.
  match goal with |- context [VERSION_MAX <=? ?x] => change x with now end.
  destruct (Z.leb_spec VERSION_MAX now) as [Hmax|Hmax].
  - assert (Hc : c = false) by (destruct c; [specialize (Hnow eq_refl); lia|done]).
    unfold stm_quiesce_barrier. apply l_get, l_assert; [by simpl; rewrite H4|]. right. split; auto.
  - do 4 apply l_modify. match goal with |- leaves _ _ (_ ?t) => assert (Ht : ro_ready k t) by by constructor end.
    rewrite Hsim, andb_false_r. apply l_bind. eapply leaves_mono; [|by apply ro_check_quiesce].
    intros [o tx'] [[[a ->] Ht']|[Hc Ho]].
    + apply l_keeps; [by apply keeps_ret|]. intros _.
      eapply leaves_mono; [|apply (keeps_when c (ea C)); auto with keeps].
      intros [o tx''] [-> [[] ->]]. by left.
    + destruct Ho as [-> |[-> Hs]]; right; split; auto.
Qed.

(** ** stm_rollback and stm_extend *)

Lemma ro_rollback_end k r tx :
  ro_ready k tx -> leaves c (fun '(o, tx') => o = Jump r /\ tx' = tx) (stm_rollback_end C r tx).
Proof.
  intros Ht. unfold stm_rollback_end. apply l_get. rewrite (ro_retry _ _ Ht).
  apply l_keeps; [|by intros ?]. auto 10 with keeps.
Qed.

Lemma aborted_S k s : aborts s = aborted k -> forall r, aborts (count_abort C r s) = aborted (S k).
Proof.
  intros Hs r. unfold aborted. simpl. fold (aborted k). rewrite <- Hs. unfold count_abort.
  repeat case_match; done.
Qed.

Lemma ro_rollback k r : restarts k (stm_rollback C fuel r).
Proof.
  intros tx Ht. unfold stm_rollback. rewrite Hsim, andb_false_r. apply l_keeps; [by apply keeps_ret|]. intros on. simpl andb. cbn iota.
  unfold stm_rollback_now. apply l_get, l_assert; [by rewrite (ro_status _ _ Ht)|]. rewrite (ro_acquired _ _ Ht). simpl when.
  apply l_keeps; [by apply keeps_ret|]. intros _. apply l_modify, l_keeps; [by apply keeps_callbacks|]. intros _. do 2 apply l_modify.
  match goal with |- leaves _ _ (_ ?t) => assert (Hi : ro_idle (S k) t) end.
  { destruct Ht. constructor; try done. by apply aborted_S. }
  apply l_bind. eapply leaves_mono; [|by apply ro_prepare]. intros [o tx'] [[-> Ht']|[Hc Ho]].
  - eapply leaves_mono; [|by apply (ro_rollback_end (S k))]. intros [o tx''] [-> ->]. left. eauto.
  - destruct Ho as [-> |[-> Hs]]; right; split; auto.
Qed.

Lemma ro_extend k : goes_on k (stm_extend C).
Proof.
  assert (Hok : goes_on k (stm_extend_ok C)) by (apply keeps_goes; unfold stm_extend_ok; auto with keeps).
  assert (Hnow : goes_on k (stm_extend_now C)).
  { unfold stm_extend_now. apply goes_bind; [apply keeps_goes, keeps_act; done|]. intros now.
    destruct (VERSION_MAX <=? now); [apply keeps_goes; auto with keeps|]. apply goes_bind.
    - intros tx Ht. unfold stm_validate. apply l_get. rewrite (ro_reads _ _ Ht). left. eauto.
    - intros ok. destruct (truth ok); [|apply keeps_goes; auto with keeps]. apply goes_bind; [|done].
      apply modify_goes. intros tx []. by constructor. }
  unfold stm_extend. destruct (ea C); [|done]. apply goes_bind; [apply keeps_goes; auto with keeps|]. intros on.
  apply goes_bind; [apply keeps_goes; auto with keeps|]. intros _. destruct (negb _ && _); [done|].
  rewrite Hsim. apply goes_bind; [apply keeps_goes; auto with keeps|]. intros on'. simpl.
  apply goes_bind; [apply keeps_goes; auto with keeps|]. by intros tx.
Qed.

Lemma ro_check k : goes_on k (et_check C fuel).
Proof.
  unfold et_check. apply goes_when. apply goes_bind; [apply keeps_goes; auto with keeps|]. intros t.
  apply goes_bind; [apply keeps_goes; auto with keeps|]. intros on. apply goes_when.
  unfold stm_revalidate. apply goes_bind; [apply keeps_goes; auto with keeps|]. intros _.
  apply goes_bind; [apply ro_extend|]. intros ok.
  apply goes_bind; [|intros _; apply keeps_goes; auto with keeps]. apply goes_when, restarts_goes, ro_rollback.
Qed.

Lemma ro_write k a v x : restarts k (stm_write C fuel a v x).
Proof.
  intros tx Ht. unfold stm_write. pose proof Ht as [H1 H2 H3 H4 H5 H6 H7 H8]. apply l_get, l_assert; [by rewrite H4|].
  rewrite H1. apply l_assert; [by apply bool_decide_eq_true|]. do 2 apply l_modify. apply restarts_bind; [apply ro_rollback|].
  destruct H3 as [a' Ha]. unfold must_retry in H2. rewrite Ha in H2.
  constructor; try done; unfold must_retry; simpl; rewrite Ha; simpl; [done|eauto].
Qed.

(** ** Attempts *)

(** A body that begins with a write *)
Definition writes_first (b : txbody) : bool :=
  match b with TStore _ _ _ | TStore2 _ _ _ _ => true | _ => false end.

Lemma ro_attempt k b : writes_first b = true -> restarts k (tx_attempt C fuel b).
Proof.
  intros Hb. apply restarts_bind. destruct b; try done; simpl;
    (apply goes_restarts; [apply ro_check|]; intros _; do 2 apply restarts_bind; apply ro_write).
Qed.

(** What it comes to: [n] restarts *)
Definition restarted {A} (n : nat) (o : outcome A) (tx : stm_tx) : Prop :=
  o = Halt Out_of_fuel /\ status tx = TX_ACTIVE /\ aborts (stats tx) = aborted n.

Lemma ro_loop n k b tx : writes_first b = true -> ro_ready k tx ->
  leaves c (fun '(o, tx') => restarted (k + n) o tx' \/ ro_waits o tx') (tx_loop C fuel n b tx).
Proof.
  intros Hb. revert k tx. induction n as [|n IH]; simpl; intros k tx Ht.
  - left. rewrite Nat.add_0_r. destruct Ht. by repeat split.
  - apply leaves_bind. eapply leaves_mono; [|by apply (ro_attempt k b Hb)].
    intros [o tx'] [[[r ->] Ht']|[Hc Ho]].
    + eapply leaves_mono; [|by apply (IH (S k))]. intros [o tx'']. by rewrite <- Nat.add_succ_comm.
    + destruct Ho as [-> |[-> Hs]]; right; split; auto.
Qed.

Lemma ro_run a b tx :
  truth (read_only a) = true -> truth (no_retry a) = false -> nesting tx = 0 -> IS_ACTIVE (status tx) = false ->
  aborts (stats tx) = n0 -> writes_first b = true ->
  leaves c (fun '(o, tx') => restarted fuel o tx' \/ ro_waits o tx') (run_tx C fuel (Some a) b tx).
Proof.
  intros Hr Hn Hz Hs Ha Hb. unfold run_tx, stm_start. apply leaves_bind, l_keeps; [auto with keeps|]. intros _.
  apply l_get, l_modify. rewrite Hz. simpl (0 <? 0). cbn iota. apply l_modify.
  match goal with |- leaves _ _ (_ ?t) => assert (Hi : ro_idle 0 t) end.
  { constructor; simpl; [done|by unfold must_retry; simpl; rewrite Hn|eauto|done|done]. }
  apply l_bind. eapply leaves_mono; [|by apply ro_prepare]. intros [o tx'] [[-> Ht']|[Hc Ho]].
  - apply l_keeps; [apply keeps_callbacks|]. intros _. by apply (ro_loop fuel 0).
  - destruct Ho as [-> |[-> Hs']]; right; split; auto.
Qed.

End Read_only.

(** C29. A transaction started with the read-only attribute never commits when its first
    access is a write: [stm_write] clears the attribute, but the restart resumes after
    [stm_start], where the copy [tx->ro] is made.  Whatever the other threads do, it
    restarts as often as the model lets it ([fuel] times, for any [fuel]) and is then
    active again; no assertion fails and it does not exit.  Before that it only stops
    to wait for the roll-over of the clock or for a thread that blocks the others,
    which needs a state that is not calm.  Alone it gets there. *)
Theorem ro_write_never_commits C fuel a b i tx :
  ea_sim C = false -> truth (read_only a) = true -> truth (no_retry a) = false ->
  nesting tx = 0 -> IS_ACTIVE (status tx) = false -> writes_first b = true ->
  let p := run_tx C fuel (Some a) b tx in
  let n := aborts (stats tx) in
  (forall ext_step env c s s' ts ts' o tx',
    ts !! i = Some p ->
    rtc (fun u u' => (c = true -> calm u.1) /\ pool_step ext_step env u u') (s, ts) (s', ts') ->
    ts' !! i = Some (Ret (o, tx')) -> restarted n fuel o tx' \/ ro_waits c o tx') /\
  (forall ext_run s, calm s -> let r := run ext_run i p s in restarted n fuel r.1.1 r.1.2).
Proof.
  intros Hsim Hr Hn Hz Hs Hb p n. split.
  - intros ext_step env c s s' ts ts' o tx' Hi Hrtc Hi'.
    apply (leaves_step ext_step env c (fun '(o, tx') => restarted n fuel o tx' \/ ro_waits c o tx') i _ _ Hrtc) in Hi'; [done|].
    intros q Hq. simpl in Hq. rewrite Hi in Hq. injection Hq as <-. by apply ro_run.
  - intros ext_run s Hcalm. pose proof (leaves_run ext_run _ i _ s Hcalm (ro_run C fuel Hsim true n a b tx Hr Hn Hz Hs eq_refl Hb)) as H.
    cbv zeta. fold p in H. destruct (run ext_run i p s) as [[o tx'] s']. by destruct H as [H|[? _]].
Qed.

(** Eight restarts, and the model's bound is met. *)
Lemma ro_write_never_commits_witness :
  exists tx, (run demo_ext 0 (run_tx demo_config 8 (Some (mk_attr 0 1 0)) ones_tx (init_tx 0)) (stm_init demo_start)).1 =
    (Halt Out_of_fuel, tx) /\ status tx = TX_ACTIVE /\ aborts (stats tx) = 8.
Proof.
  destruct (ro_write_never_commits demo_config 8 (mk_attr 0 1 0) ones_tx 0 (init_tx 0)) as [_ H]; [reflexivity..|].
  destruct (H demo_ext (stm_init demo_start)) as (H1 & H2 & H3); [split; [vm_compute; reflexivity|discriminate]|].
  eexists. split; [rewrite <- H1; apply surjective_pairing|]. split; [exact H2|exact H3].
Defined.
