(* ===== verification/Quiesce.v ===== *)
(** * Quiescence

    tinySTM/src/stm.c, [stm_quiesce_*] and [rollover_clock]: the list of the
    transactional threads, the barrier in which they all stop before the clock
    is reset, and the blocking of all others by one thread.

    Every critical section of [quiesce_mutex] is one step; [pthread_cond_wait]
    ends one and starts another.  A thread in the wait is [Waiting] until a signal,
    a broadcast or a spurious wake-up makes it [Woken], after which it takes the
    mutex again.  The call-back of the barrier is counted in [resets]. *)
From S2P Require Import Prelude Words LockWord Machine Tx Ctl CtlHist CtlCorrect CtlDemo CtlSolo.
From Stdlib Require FunctionalExtensionality.

Inductive qphase := Outside | Running | Waiting | Woken.

#[export] Instance qphase_eq_dec : EqDecision qphase.
Proof. solve_decision. Defined.

(** [quiesce], [threads_count], [threads], the owner of [quiesce_mutex] between
    [stm_quiesce] and [stm_quiesce_release], the threads it has yet to look at, and
    for each thread where it is and whether its transaction is active *)
Record qstate := mk_q {
  quiesce : Z; threads_count : Z; threads : list nat;
  mutex : option nat; scan : list nat;
  phase : nat -> qphase; active : nat -> bool; resets : nat }.
#[export] Instance eta_q : Eta qstate := fun s =>
  mk_q (quiesce s) (threads_count s) (threads s) (mutex s) (scan s) (phase s) (active s) (resets s).

Definition stm_quiesce_init : qstate :=
  mk_q 0 0 [] None [] (fun _ => Outside) (fun _ => false) 0.

Definition set_phase (t : nat) (p : qphase) (s : qstate) : qstate :=
  s <| phase := fun u => if decide (u = t) then p else phase s u |>.

Definition set_active (t : nat) (b : bool) (s : qstate) : qstate :=
  s <| active := fun u => if decide (u = t) then b else active s u |>.

Definition stm_quiesce_enter_thread (t : nat) (s : qstate) : qstate :=
  set_phase t Running (s <| threads := t :: threads s |> <| threads_count := threads_count s + 1 |>).

(** The walk to [tx] in the list; [None] when the assertion in the loop fails *)
Fixpoint unlink (t : nat) (l : list nat) : option (list nat) :=
  match l with
  | [] => None
  | u :: l => if decide (u = t) then Some l else (fun l => u :: l) <$> unlink t l
  end.

(** [pthread_cond_signal]: at least one waiting thread is woken, if there is one. *)
Definition cond_signal (s s' : qstate) : Prop :=
  exists w : nat -> bool,
    s' = s <| phase := fun u => if decide (phase s u = Waiting) then (if w u then Woken else Waiting)
                                else phase s u |> /\
    ((exists u, u ∈ threads s /\ phase s u = Waiting) ->
     exists u, u ∈ threads s /\ phase s u = Waiting /\ w u = true).

Definition cond_broadcast (s : qstate) : qstate :=
  s <| phase := fun u => if decide (phase s u = Waiting) then Woken else phase s u |>.

(** With the thread already off the list and uncounted *)
Definition stm_quiesce_exit_thread (t : nat) (s s' : qstate) : Prop :=
  exists l, unlink t (threads s) = Some l /\
    let s1 := set_phase t Outside (s <| threads := l |> <| threads_count := threads_count s - 1 |>) in
    if quiesce s =? 0 then s' = s1 else cond_signal s1 s'.

(** The loop of [stm_quiesce_barrier], from a point where the thread holds the
    mutex to one where it waits or has left *)
Definition barrier_loop (t : nat) (s : qstate) : qstate :=
  let leave s := set_phase t Running (s <| threads_count := threads_count s + 1 |>) in
  if quiesce s =? 0 then leave s
  else if threads_count s =? 0
  then leave (cond_broadcast (s <| resets := S (resets s) |> <| quiesce := 0 |>))
  else set_phase t Waiting s.

Definition stm_quiesce_barrier (t : nat) (s : qstate) : qstate :=
  let s := s <| threads_count := threads_count s - 1 |> in
  let s := if quiesce s =? 0 then s <| quiesce := 1 |> else s in
  barrier_loop t s.

(** [stm_quiesce] with [block], up to the loop over the threads *)
Definition stm_quiesce_block (t : nat) (s : qstate) : qstate :=
  s <| mutex := Some t |> <| quiesce := 2 |> <| scan := threads s |>.

Definition stm_quiesce_release (s : qstate) : qstate :=
  s <| quiesce := 0 |> <| mutex := None |>.

(** ** Steps

    [blocks] allows a thread to block the others ([stm_set_irrevocable] with
    [serial], in the builds with IRREVOCABLE_ENABLED). *)
Inductive q_step (blocks : bool) : qstate -> qstate -> Prop :=
| q_enter t s :
    mutex s = None -> phase s t = Outside ->
    q_step blocks s (stm_quiesce_enter_thread t s)
| q_begin t s : phase s t = Running -> active s t = false -> q_step blocks s (set_active t true s)
| q_end t s : phase s t = Running -> active s t = true -> q_step blocks s (set_active t false s)
| q_exit t s s' :
    mutex s = None -> phase s t = Running -> active s t = false ->
    stm_quiesce_exit_thread t s s' -> q_step blocks s s'
| q_barrier t s :
    mutex s = None -> phase s t = Running -> active s t = false ->
    q_step blocks s (stm_quiesce_barrier t s)
| q_spurious t s : phase s t = Waiting -> q_step blocks s (set_phase t Woken s)
| q_resume t s : mutex s = None -> phase s t = Woken -> q_step blocks s (barrier_loop t s)
| q_block t s :
    blocks = true -> mutex s = None -> phase s t = Running ->
    q_step blocks s (stm_quiesce_block t s)
| q_scan t u l s :
    mutex s = Some t -> scan s = u :: l -> u = t \/ active s u = false ->
    q_step blocks s (s <| scan := l |>)
| q_release t s :
    mutex s = Some t -> scan s = [] -> q_step blocks s (stm_quiesce_release s).

Definition q_reachable (blocks : bool) (s : qstate) : Prop := rtc (q_step blocks) stm_quiesce_init s.

(** ** Counting *)

Definition weight (p : qphase) : Z := match p with Running => 1 | _ => 0 end.

Fixpoint running_in (ph : nat -> qphase) (l : list nat) : Z :=
  match l with [] => 0 | t :: l => weight (ph t) + running_in ph l end.

Lemma running_nonneg ph l : 0 <= running_in ph l.
Proof. induction l as [|t l IH]; simpl; [done|]. destruct (ph t); simpl; lia. Qed.

Lemma running_zero s l t : running_in (phase s) l = 0 -> t ∈ l -> phase s t <> Running.
Proof.
  induction l as [|u l IH]; intros Hz Hin Ht; [by apply elem_of_nil in Hin|]. simpl in Hz.
  pose proof (running_nonneg (phase s) l). apply elem_of_cons in Hin as [->|Hin].
  - rewrite Ht in Hz. simpl in Hz. lia.
  - apply IH; [|done|done]. destruct (phase s u); simpl in Hz; lia.
Qed.

Lemma running_ext s s' l :
  (forall t, t ∈ l -> weight (phase s' t) = weight (phase s t)) -> running_in (phase s') l = running_in (phase s) l.
Proof.
  induction l as [|u l IH]; intros He; simpl; [done|].
  rewrite (He u), IH; [done| |by left]. intros t Ht. apply He. by right.
Qed.

Lemma phase_set t p s u : phase (set_phase t p s) u = if decide (u = t) then p else phase s u.
Proof. done. Qed.

Lemma phase_same t p s : phase (set_phase t p s) t = p.
Proof. rewrite phase_set. by rewrite decide_True. Qed.

Lemma phase_other t p s u : u <> t -> phase (set_phase t p s) u = phase s u.
Proof. intros. rewrite phase_set. by rewrite decide_False. Qed.

Lemma running_none s t l p : t ∉ l -> running_in (phase (set_phase t p s)) l = running_in (phase s) l.
Proof. intros Ht. apply running_ext. intros u Hu. rewrite phase_other; [done|]. by intros ->. Qed.

(** Changing where one thread is *)
Lemma running_set s t p l :
  NoDup l -> t ∈ l ->
  running_in (phase (set_phase t p s)) l = running_in (phase s) l - weight (phase s t) + weight p.
Proof.
  induction 1 as [|x l Hx Hnd IH]; intros Hin; [by apply elem_of_nil in Hin|].
  cbn [running_in]. destruct (decide (x = t)) as [->|Hne].
  - rewrite phase_same, running_none by done. lia.
  - rewrite phase_other by done. apply elem_of_cons in Hin as [|Hin]; [by subst|].
    rewrite IH by done. lia.
Qed.

Lemma unlink_spec t l :
  t ∈ l -> NoDup l ->
  exists l', unlink t l = Some l' /\ NoDup l' /\ (forall u, u ∈ l' <-> u ∈ l /\ u <> t) /\
    forall s, running_in (phase s) l' = running_in (phase s) l - weight (phase s t).
Proof.
  intros Hin Hnd. induction Hnd as [|x l Hx Hnd IH]; [by apply elem_of_nil in Hin|]. simpl.
  destruct (decide (x = t)) as [->|Hne].
  - exists l. split_and!; [done|done| |intros s; simpl; lia].
    intros u. rewrite elem_of_cons. split; [|by intros [[->|] ?]].
    intros Hu. split; [by right|]. by intros ->.
  - apply elem_of_cons in Hin as [|Hin]; [by subst|].
    destruct (IH Hin) as (l' & -> & Hnd' & Hel & Hrun). exists (x :: l'). split_and!; [done| | |].
    + constructor; [|done]. rewrite Hel. tauto.
    + intros u. rewrite !elem_of_cons, Hel. split; [|tauto]. intros [->|]; tauto.
    + intros s. simpl. rewrite Hrun. lia.
Qed.

(** ** The invariant *)

Record q_core (s : qstate) : Prop := {
  qi_nodup : NoDup (threads s);
  qi_in : forall t, t ∈ threads s <-> phase s t <> Outside;
  qi_active : forall t, active s t = true -> phase s t = Running }.

Definition q_inv (s : qstate) : Prop :=
  q_core s /\ threads_count s = running_in (phase s) (threads s).

(** The number of the other threads that run *)
Definition others (t : nat) (s : qstate) : Z := running_in (phase s) (threads s) - weight (phase s t).

(** Only the places of the threads and the list matter. *)
Lemma q_core_same s s' :
  threads s' = threads s -> active s' = active s ->
  (forall t, phase s' t = phase s t \/
             (phase s t = Waiting /\ (phase s' t = Woken \/ phase s' t = Waiting))) ->
  q_core s -> q_core s' /\ running_in (phase s') (threads s') = running_in (phase s) (threads s).
Proof.
  intros Ht Ha Hp [Hnd Hin Hac]. split; [constructor|].
  - by rewrite Ht.
  - intros t. rewrite Ht, Hin. destruct (Hp t) as [->|[-> [-> | ->]]]; done.
  - intros t. rewrite Ha. intros Hact. pose proof (Hac t Hact) as Hr.
    destruct (Hp t) as [->|[Hw _]]; [done|congruence].
  - rewrite Ht. apply running_ext. intros t _. by destruct (Hp t) as [->|[-> [-> | ->]]].
Qed.

(** Thread [t] is put at [p]. *)
Lemma place t p s c :
  q_core s -> t ∈ threads s -> p <> Outside -> active s t = false -> c = others t s + weight p ->
  q_inv (set_phase t p (s <| threads_count := c |>)).
Proof.
  intros [Hnd Hin Ha] Ht Hp Hact ->. split; [constructor|].
  - done.
  - intros u. change (threads (set_phase t p _)) with (threads s).
    destruct (decide (u = t)) as [->|Hne]; [rewrite phase_same; tauto|].
    rewrite phase_other by done. apply Hin.
  - intros u Hu. change (active s u = true) in Hu. destruct (decide (u = t)) as [->|Hne]; [congruence|].
    rewrite phase_other by done. by apply Ha.
  - change (threads (set_phase t p _)) with (threads s).
    change (threads_count (set_phase t p _)) with (others t s + weight p).
    rewrite running_set by done. done.
Qed.

Lemma broadcast_core t s :
  q_core s -> weight (phase s t) = 0 \/ phase s t = Running ->
  q_core (cond_broadcast s) /\ others t (cond_broadcast s) = others t s.
Proof.
  intros HI Ht. assert (Hp : forall u, phase (cond_broadcast s) u = phase s u \/
    (phase s u = Waiting /\ (phase (cond_broadcast s) u = Woken \/ phase (cond_broadcast s) u = Waiting))).
  { intros u. simpl. case_decide; [right|by left]. by split; [|left]. }
  destruct (q_core_same s (cond_broadcast s)) as [HI' Hr]; [done..|]. split; [done|].
  unfold others. rewrite Hr. f_equal. by destruct (Hp t) as [->|[-> [-> | ->]]].
Qed.

Lemma barrier_loop_inv t s :
  q_core s -> t ∈ threads s -> active s t = false -> threads_count s = others t s ->
  q_inv (barrier_loop t s).
Proof.
  intros HI Ht Ha Hc. unfold barrier_loop.
  assert (Hleave : forall s', q_core s' -> t ∈ threads s' -> active s' t = false ->
    threads_count s' = others t s' ->
    q_inv (set_phase t Running (s' <| threads_count := threads_count s' + 1 |>))).
  { intros s' HI' Ht' Ha' Hc'. apply place; try done. rewrite Hc'. simpl. lia. }
  destruct (quiesce s =? 0); [by apply Hleave|].
  destruct (threads_count s =? 0).
  - set (s1 := s <| resets := S (resets s) |> <| quiesce := 0 |>).
    destruct (broadcast_core t s1) as [HI' Ho].
    + by destruct HI.
    + change (weight (phase s t) = 0 \/ phase s t = Running). destruct (phase s t); auto.
    + apply Hleave; [done|done|done|]. rewrite Ho. exact Hc.
  - change (q_inv (set_phase t Waiting (s <| threads_count := threads_count s |>))).
    apply place; try done. simpl. lia.
Qed.

Lemma barrier_inv t s :
  q_inv s -> phase s t = Running -> active s t = false -> q_inv (stm_quiesce_barrier t s).
Proof.
  intros [HI Hc] Hr Ha. assert (Ht : t ∈ threads s) by (apply (qi_in _ HI); congruence).
  unfold stm_quiesce_barrier. cbv zeta.
  assert (Ho : forall q, threads_count (s <| threads_count := threads_count s - 1 |> <| quiesce := q |>) =
    others t (s <| threads_count := threads_count s - 1 |> <| quiesce := q |>)).
  { intros q. unfold others. simpl. rewrite Hr, Hc. simpl. reflexivity. }
  change (quiesce (s <| threads_count := threads_count s - 1 |>)) with (quiesce s).
  destruct (quiesce s =? 0); apply barrier_loop_inv; try done.
  - by destruct HI.
  - by destruct HI.
  - apply (Ho (quiesce s)).
Qed.

Lemma enter_inv t s : q_inv s -> phase s t = Outside -> q_inv (stm_quiesce_enter_thread t s).
Proof.
  intros [[Hnd Hin Ha] Hc] Hp.
  assert (Ht : t ∉ threads s) by (intros H; apply Hin in H; done).
  split; [constructor|].
  - by constructor.
  - intros u. unfold stm_quiesce_enter_thread. change (threads (set_phase t Running _)) with (t :: threads s).
    rewrite elem_of_cons. destruct (decide (u = t)) as [->|Hne].
    + rewrite phase_same. split; [done|]. by left.
    + rewrite phase_other by done. rewrite (Hin u). simpl. tauto.
  - intros u Hu. unfold stm_quiesce_enter_thread.
    destruct (decide (u = t)) as [->|Hne]; [by rewrite phase_same|].
    rewrite phase_other by done. by apply Ha.
  - unfold stm_quiesce_enter_thread. change (threads (set_phase t Running _)) with (t :: threads s).
    cbn [running_in]. rewrite phase_same, running_none by done. simpl. rewrite Hc.
    apply Z.add_comm.
Qed.

Lemma exit_inv t s s' :
  q_inv s -> phase s t = Running -> active s t = false -> stm_quiesce_exit_thread t s s' -> q_inv s'.
Proof.
  intros [[Hnd Hin Ha] Hc] Hr Hact (l & Hl & He). cbv zeta in He.
  assert (Ht : t ∈ threads s) by (apply Hin; congruence).
  destruct (unlink_spec t (threads s) Ht Hnd) as (l' & Hl' & Hnd' & Hel & Hrun). simplify_eq.
  set (s1 := set_phase t Outside (s <| threads := l |> <| threads_count := threads_count s - 1 |>)) in *.
  assert (HI1 : q_inv s1).
  { split; [constructor|].
    - done.
    - intros u. change (threads s1) with l. rewrite Hel, Hin. unfold s1.
      destruct (decide (u = t)) as [->|Hne]; [rewrite phase_same; tauto|].
      rewrite phase_other by done. simpl. tauto.
    - intros u Hu. change (active s u = true) in Hu. unfold s1.
      destruct (decide (u = t)) as [->|Hne]; [congruence|]. rewrite phase_other by done. by apply Ha.
    - change (threads s1) with l. change (threads_count s1) with (threads_count s - 1). unfold s1.
      rewrite running_none by (rewrite Hel; tauto).
      specialize (Hrun s). rewrite Hr in Hrun. simpl in Hrun. rewrite Hc, <- Hrun. done. }
  destruct (quiesce s =? 0); [by subst|]. destruct He as (w & -> & _). destruct HI1 as [HI1 Hc1].
  match goal with |- q_inv ?x => destruct (q_core_same s1 x) as [HI2 Hr2] end; [done|done| |done|].
  - intros u. simpl. case_decide as Hw; [right|by left]. split; [done|]. destruct (w u); auto.
  - split; [done|]. rewrite Hr2. exact Hc1.
Qed.

Lemma q_step_inv blocks s s' : q_inv s -> q_step blocks s s' -> q_inv s'.
Proof.
  intros HI Hs. pose proof HI as [[Hnd Hin Ha] Hc]. destruct Hs.
  - by apply enter_inv.
  - split; [constructor; try done|done]. intros u. simpl. case_decide as Hu; [by subst|apply Ha].
  - split; [constructor; try done|done]. intros u. simpl. case_decide as Hu; [done|apply Ha].
  - by eapply exit_inv.
  - by apply barrier_inv.
  - change (q_inv (set_phase t Woken (s <| threads_count := threads_count s |>))).
    apply place; try done; [apply Hin; congruence| |unfold others; rewrite H; simpl; lia].
    destruct (active s t) eqn:Hact; [|done]. apply Ha in Hact. congruence.
  - apply barrier_loop_inv; try done; [apply Hin; congruence| |unfold others; rewrite H0; simpl; lia].
    destruct (active s t) eqn:Hact; [|done]. apply Ha in Hact. congruence.
  - done.
  - done.
  - done.
Qed.

Lemma q_reach_inv blocks s : q_reachable blocks s -> q_inv s.
Proof.
  unfold q_reachable. assert (Hgen : forall s s', rtc (q_step blocks) s s' -> q_inv s -> q_inv s').
  { induction 1; eauto using q_step_inv. }
  intros Hr. apply (Hgen _ _ Hr). split; [constructor|done]; simpl; try done.
  - constructor.
  - intros t. split; [by intros ?%elem_of_nil|done].
Qed.

(** ** Safety of the reset *)

Lemma others_zero t s :
  q_core s -> t ∈ threads s -> others t s = 0 -> active s t = false -> forall u, active s u = false.
Proof.
  intros HI Ht Hz Ha u. destruct (active s u) eqn:Hu; [|done].
  pose proof (qi_active _ HI u Hu) as Hr.
  destruct (decide (u = t)) as [->|Hne]; [congruence|]. exfalso.
  assert (Hin : u ∈ threads s) by (apply (qi_in _ HI); congruence).
  assert (Hz' : running_in (phase (set_phase t Waiting s)) (threads s) = 0).
  { rewrite running_set; [|apply HI|done]. unfold others in Hz. simpl. lia. }
  apply (running_zero _ _ u Hz' Hin). by rewrite phase_other.
Qed.

Lemma barrier_loop_resets t s :
  resets (barrier_loop t s) <> resets s -> threads_count s = 0.
Proof.
  unfold barrier_loop. destruct (quiesce s =? 0); [done|].
  by destruct (Z.eqb_spec (threads_count s) 0).
Qed.

(** C21. The clock is reset only when it is safe: in every reachable state, with
    or without threads that block the others, if a step runs the call-back of
    the barrier ([rollover_clock]), then no thread is inside a transaction. *)
Theorem reset_when_inactive blocks s s' :
  q_reachable blocks s -> q_step blocks s s' -> resets s' <> resets s ->
  forall t, active s t = false.
Proof.
  intros Hr%q_reach_inv Hs Hres. destruct Hr as [HI Hc].
  destruct Hs as [| | |t s s' Hm Hp Ha Hex|t s Hm Hp Ha| |t s Hm Hp| | |]; try done.
  - destruct Hex as (l & _ & He). cbv zeta in He. destruct (quiesce s =? 0); [by subst|].
    by destruct He as (w & -> & _).
  - assert (Ht : t ∈ threads s) by (apply (qi_in _ HI); congruence).
    apply (others_zero t); try done. unfold others. rewrite Hp, <- Hc. simpl.
    assert (threads_count s - 1 = 0); [|lia].
    unfold stm_quiesce_barrier in Hres. cbv zeta in Hres.
    destruct (quiesce _ =? 0) in Hres;
      match type of Hres with resets (barrier_loop _ ?x) <> _ => exact (barrier_loop_resets t x Hres) end.
  - assert (Ht : t ∈ threads s) by (apply (qi_in _ HI); congruence).
    assert (Ha : active s t = false).
    { destruct (active s t) eqn:Hact; [|done]. apply (qi_active _ HI) in Hact. congruence. }
    apply (others_zero t); try done. unfold others. rewrite Hp, <- Hc. simpl.
    apply barrier_loop_resets in Hres. lia.
Qed.

(** Three threads; the last one to arrive at the barrier resets the clock. *)
Definition demo_q : qstate :=
  stm_quiesce_barrier 1 (stm_quiesce_barrier 0
    (stm_quiesce_enter_thread 2 (stm_quiesce_enter_thread 1 (stm_quiesce_enter_thread 0 stm_quiesce_init)))).

Lemma demo_q_reachable blocks : q_reachable blocks demo_q.
Proof.
  unfold q_reachable, demo_q.
  do 2 (eapply rtc_r; [|by apply q_barrier]).
  do 3 (eapply rtc_r; [|by apply q_enter]). apply rtc_refl.
Qed.

Lemma reset_when_inactive_witness :
  resets (stm_quiesce_barrier 2 demo_q) = 1%nat /\ forall t, active demo_q t = false.
Proof.
  split; [reflexivity|].
  apply (reset_when_inactive false demo_q (stm_quiesce_barrier 2 demo_q)).
  - apply demo_q_reachable.
  - by apply q_barrier.
  - done.
Defined.

(** ** No lost wake-up *)

(** What holds as long as nobody blocks the others *)
Record q_live (s : qstate) : Prop := {
  ql_mutex : mutex s = None;
  ql_zero : quiesce s = 0 -> forall t, phase s t <> Waiting;
  ql_woken : threads_count s = 0 -> (exists t, t ∈ threads s /\ phase s t = Waiting) ->
             exists t, t ∈ threads s /\ phase s t = Woken }.

Lemma barrier_loop_live t s :
  q_inv (barrier_loop t s) -> mutex s = None -> (quiesce s = 0 -> forall u, phase s u <> Waiting) ->
  t ∈ threads s -> 0 <= threads_count s -> q_live (barrier_loop t s).
Proof.
  intros _ Hm Hz Ht Hc. unfold barrier_loop.
  destruct (Z.eqb_spec (quiesce s) 0) as [Hq|Hq].
  - constructor; [done| |simpl; lia]. intros _ u. destruct (decide (u = t)) as [->|Hne].
    + by rewrite phase_same.
    + rewrite phase_other by done. by apply Hz.
  - destruct (Z.eqb_spec (threads_count s) 0) as [Hc0|Hc0].
    + constructor; [done| |simpl; lia]. intros _ u. destruct (decide (u = t)) as [->|Hne].
      * by rewrite phase_same.
      * rewrite phase_other by done. simpl. by case_decide.
    + constructor; [done|done|]. simpl. lia.
Qed.

Lemma q_step_live s s' : q_inv s -> q_live s -> q_step false s s' -> q_live s'.
Proof.
  intros HI [Hm Hz Hw] Hs. pose proof (q_step_inv _ _ _ HI Hs) as HI'.
  pose proof HI as [[Hnd Hin Ha] Hc]. pose proof (running_nonneg (phase s) (threads s)).
  destruct Hs as [t s _ Hp|t s Hp Hact|t s Hp Hact|t s s' _ Hp Hact Hex|t s _ Hp Hact|t s Hp|t s _ Hp
    |t s Hb|t u l s Hmx|t s Hmx]; try congruence.
  - constructor; [done| |].
    + intros Hq u. unfold stm_quiesce_enter_thread. destruct (decide (u = t)) as [->|Hne].
      * by rewrite phase_same.
      * rewrite phase_other by done. by apply Hz.
    + change (threads_count (stm_quiesce_enter_thread t s)) with (threads_count s + 1). lia.
  - by constructor.
  - by constructor.
  - destruct Hex as (l & Hl & He). cbv zeta in He.
    destruct (Z.eqb_spec (quiesce s) 0) as [Hq|Hq].
    + subst s'. constructor; [done| |].
      * intros _ u. destruct (decide (u = t)) as [->|Hne]; [by rewrite phase_same|].
        rewrite phase_other by done. by apply Hz.
      * intros _ (u & Hu & Hpu). exfalso. destruct (decide (u = t)) as [->|Hne]; [by rewrite phase_same in Hpu|].
        rewrite phase_other in Hpu by done. by apply (Hz Hq u).
    + destruct He as (w & -> & Hsig). constructor; [done|done|].
      intros _ (u & Hu & Hpu). destruct Hsig as (v & Hv & Hpv & Hwv).
      { exists u. split; [done|]. simpl in Hpu |- *. by repeat case_decide. }
      exists v. split; [done|]. simpl in Hpv |- *. rewrite Hwv. by rewrite decide_True.
  - assert (Ht : t ∈ threads s) by (apply Hin; congruence).
    assert (0 <= threads_count s - 1).
    { destruct HI as [HI _]. pose proof (running_nonneg (phase (set_phase t Waiting s)) (threads s)) as Hn.
      rewrite running_set in Hn by done. rewrite Hp in Hn. simpl in Hn. lia. }
    unfold stm_quiesce_barrier in *. cbv zeta in *.
    change (quiesce (s <| threads_count := threads_count s - 1 |>)) with (quiesce s) in *.
    destruct (Z.eqb_spec (quiesce s) 0); apply barrier_loop_live; try done.
  - constructor; [done| |].
    + intros Hq. by destruct (Hz Hq t).
    + intros _ _. exists t. split; [apply Hin; congruence|]. apply phase_same.
  - apply barrier_loop_live; try done; [apply Hin; congruence|lia].
Qed.

Lemma q_reach_live s : q_reachable false s -> q_live s.
Proof.
  intros Hr. assert (Hgen : forall s s', rtc (q_step false) s s' -> q_inv s -> q_live s -> q_live s').
  { induction 1; eauto using q_step_inv, q_step_live. }
  apply (Hgen _ _ Hr); [by apply (q_reach_inv false), rtc_refl|].
  constructor; simpl; try done. by intros _ (t & Hin%elem_of_nil & _).
Qed.

(** C27. The barrier does not deadlock as long as no thread blocks the others:
    when every transactional thread is in it, one of them is awake, and its next
    step takes it out of the barrier. *)
Theorem barrier_progress s :
  q_reachable false s -> threads s <> [] ->
  (forall t, t ∈ threads s -> phase s t <> Running) ->
  exists t, t ∈ threads s /\ phase s t = Woken /\
    q_step false s (barrier_loop t s) /\ phase (barrier_loop t s) t = Running.
Proof.
  intros Hr Hne Hall. pose proof (q_reach_live s Hr) as [Hm Hz Hw].
  apply q_reach_inv in Hr as [[Hnd Hin Ha] Hc].
  assert (Hc0 : threads_count s = 0).
  { rewrite Hc. clear -Hall. induction (threads s) as [|u l IH]; [done|]. simpl.
    rewrite IH by (intros t Ht; apply Hall; by right).
    assert (phase s u <> Running) by (apply Hall; left). by destruct (phase s u). }
  assert (Hex : exists t, t ∈ threads s /\ phase s t = Woken).
  { destruct (threads s) as [|u l] eqn:Hl; [done|].
    assert (Hu : u ∈ threads s) by (rewrite Hl; left). rewrite Hl in Hu.
    destruct (phase s u) eqn:Hp.
    - by destruct (proj1 (Hin u) Hu).
    - by destruct (Hall u Hu).
    - apply Hw; [done|]. by exists u.
    - by exists u. }
  destruct Hex as (t & Ht & Hp). exists t. split_and!; [done|done|by apply q_resume|].
  unfold barrier_loop. destruct (quiesce s =? 0); [apply phase_same|].
  destruct (Z.eqb_spec (threads_count s) 0); [|done]. apply phase_same.
Qed.

(** Two threads wait, the third exits and its signal wakes thread 0. *)
Definition demo_exit : qstate :=
  set_phase 2 Outside (demo_q <| threads := [1; 0]%nat |> <| threads_count := 0 |>)
    <| phase := fun u => match u with 0 => Woken | 1 => Waiting | _ => Outside end%nat |>.

Lemma demo_exit_reachable : q_reachable false demo_exit.
Proof.
  unfold q_reachable. eapply rtc_r; [apply (demo_q_reachable false)|].
  apply q_exit with (t := 2%nat); [done..|]. exists [1; 0]%nat. split; [reflexivity|].
  cbv zeta. change (quiesce demo_q =? 0) with false. exists (fun u => bool_decide (u = 0%nat)). split.
  - unfold demo_exit. assert (Hph : (fun u : nat => match u with 0 => Woken | 1 => Waiting | _ => Outside end%nat) =
      phase (set_phase 2 Outside (demo_q <| threads := [1; 0]%nat |> <| threads_count := 0 |>)
        <| phase := fun u => if decide (phase (set_phase 2 Outside (demo_q <| threads := [1; 0]%nat |> <| threads_count := 0 |>)) u = Waiting)
             then (if bool_decide (u = 0%nat) then Woken else Waiting)
             else phase (set_phase 2 Outside (demo_q <| threads := [1; 0]%nat |> <| threads_count := 0 |>)) u |>)).
    { apply FunctionalExtensionality.functional_extensionality. intros [|[|[|u]]]; reflexivity. }
    rewrite Hph. reflexivity.
  - intros _. exists 0%nat. split_and!; [|reflexivity|reflexivity]. right. left.
Qed.

Lemma barrier_progress_witness :
  exists t, t ∈ threads demo_exit /\ phase demo_exit t = Woken /\
    q_step false demo_exit (barrier_loop t demo_exit) /\ phase (barrier_loop t demo_exit) t = Running.
Proof.
  apply (barrier_progress demo_exit).
  - exact demo_exit_reachable.
  - done.
  - intros t Ht. change (t ∈ [1; 0]%nat) in Ht.
    repeat (apply elem_of_cons in Ht as [->|Ht]; [done|]). by apply elem_of_nil in Ht.
Defined.

(** ** A lost wake-up

    Thread 1 waits in the barrier ([quiesce] is 1) for thread 0 to end its
    transaction.  Thread 0 becomes irrevocable in that transaction: it sets
    [quiesce] to 2, commits, and its [stm_quiesce_release] sets [quiesce] to 0.
    When it then exits, it signals nobody. *)
Definition lost_before : qstate :=
  stm_quiesce_barrier 1 (set_active 0 true
    (stm_quiesce_enter_thread 1 (stm_quiesce_enter_thread 0 stm_quiesce_init))).

Definition lost_release : qstate :=
  set_active 0 false (stm_quiesce_release
    (stm_quiesce_block 0 lost_before <| scan := [0%nat] |> <| scan := [] |>)).

Definition lost_end : qstate :=
  set_phase 0 Outside (lost_release <| threads := [1]%nat |> <| threads_count := 0 |>).

Lemma lost_end_reachable : q_reachable true lost_end.
Proof.
  unfold q_reachable.
  eapply rtc_r; [|apply q_exit with (t := 0%nat) (s := lost_release); try reflexivity].
  2: { exists [1]%nat. split; reflexivity. }
  eapply rtc_r; [|apply q_end with (t := 0%nat); reflexivity].
  eapply rtc_r; [|apply q_release with (t := 0%nat); reflexivity].
  eapply rtc_r; [|apply (q_scan _ 0%nat 0%nat [] (stm_quiesce_block 0 lost_before <| scan := [0%nat] |>)); by auto].
  eapply rtc_r; [|apply (q_scan _ 0%nat 1%nat [0%nat] (stm_quiesce_block 0 lost_before)); by auto].
  eapply rtc_r; [|by apply q_block].
  eapply rtc_r; [|by apply q_barrier].
  eapply rtc_r; [|by apply q_begin].
  do 2 (eapply rtc_r; [|by apply q_enter]). apply rtc_refl.
Qed.

(** C30. With irrevocable transactions (which block the others) a wake-up can be
    lost: there is a reachable state in which the only transactional thread
    waits in the barrier although [quiesce] is 0 and the mutex is free, and
    nothing but a spurious wake-up of the condition variable or the arrival of
    a new thread can happen. *)
Theorem irrevocable_lost_wakeup :
  exists s, q_reachable true s /\ threads s = [1]%nat /\ phase s 1 = Waiting /\
    quiesce s = 0 /\ mutex s = None /\
    forall s', q_step true s s' ->
      s' = set_phase 1 Woken s \/ exists t, t <> 1%nat /\ s' = stm_quiesce_enter_thread t s.
Proof.
  exists lost_end. split_and!; try reflexivity; [exact lost_end_reachable|].
  assert (Hph : forall t, phase lost_end t = if decide (t = 1%nat) then Waiting else Outside).
  { intros [|[|t]]; reflexivity. }
  intros s' Hs. inversion Hs as [t s Hm Hp|t s Hp Ha|t s Hp Ha|t s s'' Hm Hp Ha He|t s Hm Hp Ha|t s Hp
    |t s Hm Hp|t s Hb Hm Hp|t u l s Hm Hl Hd|t s Hm Hl]; subst;
    try (rewrite Hph in Hp; case_decide; discriminate); try discriminate.
  - right. exists t. split; [|done]. intros ->. discriminate.
  - left. rewrite Hph in Hp. case_decide; [by subst|discriminate].
Qed.

(** ** The call-back of the barrier *)

Definition rollover_clock (s : stm_state) : stm_state :=
  mk_state (fun l => match l with Clock | Lock _ => 0 | _ => cell s l end) (extra s).

(** The clock roll-over loses nothing: from a state in which every lock is
    free (no thread is in a transaction), with the clock as far as it may be,
    it leaves the memory as it was, every lock free at timestamp 0 and the clock at
    0, so that a transaction run next commits as from the start. *)
Theorem rollover_commits C ext_run i n m b tx s r m' :
  ea_sim C = false -> ea_user C = false -> rest n m s -> parked tx -> seq_body b m = Some (r, m') ->
  seq_loads b m <= r_size (rset tx) -> seq_stores b m <= w_size (wset tx) ->
  exists tx' s' n', run ext_run i (run_tx C 1 None b tx) (rollover_clock s) = ((Ok (Some r), tx'), s') /\
    n' <= 1 /\ rest n' m' s' /\ parked tx'.
Proof.
  intros Hsim Huser [? ? Hl ? ? ?] Hp Hb Hr Hw.
  assert (Hs : rest 0 m (rollover_clock s)).
  { constructor; try done. intros k. by exists 0. }
  destruct (run_tx_ok C 0 ext_run i Hsim Huser 0 m None b tx (rollover_clock s) r m')
    as (res & tx' & s' & Hrun & -> & Hp' & _ & _ & n' & Hn & Hs'); try done.
  exists tx', s', n'. split_and!; try done. lia.
Qed.

Lemma rollover_commits_witness :
  exists tx' s' n', run demo_ext 0 (run_tx demo_config 1 None (add_tx 64 5) solo_tx)
      (rollover_clock (set_cell (stm_init demo_start) Clock WriteBack.VERSION_MAX)) = ((Ok (Some 5), tx'), s') /\
    n' <= 1 /\ rest n' (upd (fun _ => 0) 64 5) s' /\ parked tx'.
Proof.
  apply (rollover_commits demo_config demo_ext 0 WriteBack.VERSION_MAX (fun _ => 0) (add_tx 64 5) solo_tx
    (set_cell (stm_init demo_start) Clock WriteBack.VERSION_MAX) 5 (upd (fun _ => 0) 64 5)).
  - reflexivity.
  - reflexivity.
  - constructor; try done. intros k. by exists 0.
  - by constructor.
  - reflexivity.
  - by vm_compute.
  - by vm_compute.
Defined.
