(* ===== verification/Wrappers.v ===== *)
(** * Loads and stores of any size

    tinySTM/src/wrappers.c: the accesses of one, two, four and eight bytes, of
    byte ranges and of the C types, on top of [stm_load], [stm_store] and
    [stm_store2], on the target ([sizeof(stm_word_t)] is 8, little endian,
    ALLOW_MISALIGNED_ACCESSES as the file defines it).  A wrapper is code of the
    application's side: a piece of a [txbody] with its continuation, so that
    what is shown here of the sequential meaning holds of every serialised
    transaction.  Floating-point values are their bit patterns. *)
From S2P Require Import Prelude Words LockWord Machine Tx Ctl CtlHist.

(** ** The unions [convert_64_t], ... *)

(** [val.u8[i]], [val.u16[i]], [val.u32[i]] with [n] the width *)
Definition part (n w i : Z) : Z := Z.land (Z.shiftr w (n * i)) (Z.ones n).

(** The assignment to it *)
Definition set_part (n w i v : Z) : Z :=
  Z.lor (Z.land w (wnot (Z.shiftl (Z.ones n) (n * i)))) (Z.shiftl v (n * i)).

(** [val.s8], [val.s16], [val.s32], [val.s64] after the unsigned member is set,
    and back *)
Definition signed (n v : Z) : Z := if v <? 2 ^ (n - 1) then v else v - 2 ^ n.

Definition unsigned (n v : Z) : Z := v mod 2 ^ n.

(** The integer whose bytes are in the buffer, and the bytes of an integer *)
Fixpoint le (bs : list Z) : Z :=
  match bs with [] => 0 | b :: bs => b + 256 * le bs end.

Fixpoint to_bytes (n : nat) (v : Z) : list Z :=
  match n with O => [] | S n => part 8 v 0 :: to_bytes n (Z.shiftr v 8) end.

Definition word_base (addr : Z) : Z := Z.land addr (wnot 7).

(** ** Loads *)

(** [for (; i < sizeof(stm_word_t) && size > 0; i++, size--) *buf++ = val.b[i];] *)
Fixpoint copy_out (w : Z) (i size : nat) : list Z :=
  match size with
  | O => []
  | S size => if (i <? 8)%nat then part 8 w (Z.of_nat i) :: copy_out w (S i) size else []
  end.

(** The full words and the last bytes *)
Fixpoint load_words (fuel : nat) (a : Z) (size : nat) (buf : list Z) (k : list Z -> txbody) : txbody :=
  match fuel with
  | O => TFail
  | S fuel =>
      if (8 <=? size)%nat then
        TLoad a (fun w => load_words fuel (a + 8) (size - 8) (buf ++ to_bytes 8 w) k)
      else if (0 <? size)%nat then TLoad a (fun w => k (buf ++ copy_out w 0 size))
      else k buf
  end.

Definition stm_load_bytes (addr : Z) (size : nat) (k : list Z -> txbody) : txbody :=
  if (size =? 0)%nat then k []
  else
    let i := Z.land addr 7 in
    if negb (i =? 0) then
      TLoad (word_base addr) (fun w =>
        let first := copy_out w (Z.to_nat i) size in
        load_words (S size) (word_base addr + 8) (size - length first) first k)
    else load_words (S size) addr size [] k.

Definition stm_load_u8 (addr : Z) (k : Z -> txbody) : txbody :=
  TLoad (word_base addr) (fun w => k (part 8 w (Z.land addr 7))).

Definition stm_load_u16 (addr : Z) (k : Z -> txbody) : txbody :=
  if negb (Z.land addr 1 =? 0) then stm_load_bytes addr 2 (fun buf => k (le buf))
  else TLoad (word_base addr) (fun w => k (part 16 w (Z.shiftr (Z.land addr 7) 1))).

Definition stm_load_u32 (addr : Z) (k : Z -> txbody) : txbody :=
  if negb (Z.land addr 3 =? 0) then stm_load_bytes addr 4 (fun buf => k (le buf))
  else TLoad (word_base addr) (fun w => k (part 32 w (Z.shiftr (Z.land addr 7) 2))).

Definition stm_load_u64 (addr : Z) (k : Z -> txbody) : txbody :=
  if negb (Z.land addr 7 =? 0) then stm_load_bytes addr 8 (fun buf => k (le buf))
  else TLoad addr k.

Definition stm_load_char addr k := stm_load_u8 addr (fun v => k (signed 8 v)).
Definition stm_load_uchar addr k := stm_load_u8 addr k.
Definition stm_load_short addr k := stm_load_u16 addr (fun v => k (signed 16 v)).
Definition stm_load_ushort addr k := stm_load_u16 addr k.
Definition stm_load_int addr k := stm_load_u32 addr (fun v => k (signed 32 v)).
Definition stm_load_uint addr k := stm_load_u32 addr k.
Definition stm_load_long addr k := stm_load_u64 addr (fun v => k (signed 64 v)).
Definition stm_load_ulong addr k := stm_load_u64 addr k.
Definition stm_load_float addr k := stm_load_u32 addr k.
Definition stm_load_double addr k := stm_load_u64 addr k.
Definition stm_load_ptr (addr : Z) (k : Z -> txbody) : txbody := TLoad addr k.

(** ** Stores *)

(** [for (; i < sizeof(stm_word_t) && size > 0; i++, size--)
      { mask.b[i] = 0xFF; val.b[i] = *buf++; }] *)
Fixpoint copy_in (val mask : Z) (i : nat) (buf : list Z) : Z * Z * list Z :=
  match buf with
  | [] => (val, mask, [])
  | b :: rest =>
      if (i <? 8)%nat
      then copy_in (set_part 8 val (Z.of_nat i) b) (set_part 8 mask (Z.of_nat i) 255) (S i) rest
      else (val, mask, buf)
  end.

Fixpoint store_words (fuel : nat) (a : Z) (buf : list Z) (k : txbody) : txbody :=
  match fuel with
  | O => TFail
  | S fuel =>
      if (8 <=? length buf)%nat then
        TStore a (le (take 8 buf)) (store_words fuel (a + 8) (drop 8 buf) k)
      else if (0 <? length buf)%nat then
        let '(val, mask, _) := copy_in 0 0 0 buf in TStore2 a val mask k
      else k
  end.

Definition stm_store_bytes (addr : Z) (buf : list Z) (k : txbody) : txbody :=
  if (length buf =? 0)%nat then k
  else
    let i := Z.land addr 7 in
    if negb (i =? 0) then
      let '(val, mask, rest) := copy_in 0 0 (Z.to_nat i) buf in
      TStore2 (word_base addr) val mask (store_words (S (length buf)) (word_base addr + 8) rest k)
    else store_words (S (length buf)) addr buf k.

(** [junk] is what the local variable [val], which is not initialised, holds. *)
Definition stm_store_u8 (junk addr v : Z) (k : txbody) : txbody :=
  let i := Z.land addr 7 in
  TStore2 (word_base addr) (set_part 8 junk i v) (set_part 8 0 i (Z.ones 8)) k.

Definition stm_store_u16 (junk addr v : Z) (k : txbody) : txbody :=
  if negb (Z.land addr 1 =? 0) then stm_store_bytes addr (to_bytes 2 v) k
  else
    let i := Z.shiftr (Z.land addr 7) 1 in
    TStore2 (word_base addr) (set_part 16 junk i v) (set_part 16 0 i (Z.ones 16)) k.

Definition stm_store_u32 (junk addr v : Z) (k : txbody) : txbody :=
  if negb (Z.land addr 3 =? 0) then stm_store_bytes addr (to_bytes 4 v) k
  else
    let i := Z.shiftr (Z.land addr 7) 2 in
    TStore2 (word_base addr) (set_part 32 junk i v) (set_part 32 0 i (Z.ones 32)) k.

Definition stm_store_u64 (addr v : Z) (k : txbody) : txbody :=
  if negb (Z.land addr 7 =? 0) then stm_store_bytes addr (to_bytes 8 v) k
  else TStore addr v k.

Definition stm_store_char junk addr v k := stm_store_u8 junk addr (unsigned 8 v) k.
Definition stm_store_uchar junk addr v k := stm_store_u8 junk addr v k.
Definition stm_store_short junk addr v k := stm_store_u16 junk addr (unsigned 16 v) k.
Definition stm_store_ushort junk addr v k := stm_store_u16 junk addr v k.
Definition stm_store_int junk addr v k := stm_store_u32 junk addr (unsigned 32 v) k.
Definition stm_store_uint junk addr v k := stm_store_u32 junk addr v k.
Definition stm_store_long addr v k := stm_store_u64 addr (unsigned 64 v) k.
Definition stm_store_ulong addr v k := stm_store_u64 addr v k.
Definition stm_store_float junk addr v k := stm_store_u32 junk addr v k.
Definition stm_store_double addr v k := stm_store_u64 addr v k.
Definition stm_store_ptr (addr v : Z) (k : txbody) : txbody := TStore addr v k.

(** [for (; i < sizeof(stm_word_t) && count > 0; i++, count--) mask.b[i] = 0xFF;]:
    the mask and what is left of [count] *)
Fixpoint mask_in (mask : Z) (i count : nat) : Z * nat :=
  match count with
  | O => (mask, O)
  | S c => if (i <? 8)%nat then mask_in (set_part 8 mask (Z.of_nat i) 255) (S i) c else (mask, count)
  end.

Fixpoint fill_val (val byte : Z) (n : nat) : Z :=
  match n with O => val | S n => set_part 8 (fill_val val byte n) (Z.of_nat n) byte end.

Fixpoint set_words (fuel : nat) (a val : Z) (count : nat) (k : txbody) : txbody :=
  match fuel with
  | O => TFail
  | S fuel =>
      if (8 <=? count)%nat then TStore a val (set_words fuel (a + 8) val (count - 8) k)
      else if (0 <? count)%nat then TStore2 a val (mask_in 0 0 count).1 k
      else k
  end.

Definition stm_set_bytes (junk addr byte : Z) (count : nat) (k : txbody) : txbody :=
  if (count =? 0)%nat then k
  else
    let val := fill_val junk byte 8 in
    let i := Z.land addr 7 in
    if negb (i =? 0) then
      let '(mask, rest) := mask_in 0 (Z.to_nat i) count in
      TStore2 (word_base addr) val mask (set_words (S count) (word_base addr + 8) val rest k)
    else set_words (S count) addr val count k.

(** ** Memory seen as bytes *)

Definition byte_at (m : mem) (a : Z) : Z := part 8 (m (a - a mod 8)) (a mod 8).

Fixpoint bytes_at (m : mem) (a : Z) (n : nat) : list Z :=
  match n with O => [] | S n => byte_at m a :: bytes_at m (a + 1) n end.

Fixpoint parts (w i : Z) (n : nat) : list Z :=
  match n with O => [] | S n => part 8 w i :: parts w (i + 1) n end.

Lemma land_low k a : 0 <= k -> Z.land a (Z.ones k) = a mod 2 ^ k.
Proof. intros. by rewrite Z.land_ones. Qed.

Lemma land_7 a : Z.land a 7 = a mod 8.
Proof. exact (land_low 3 a ltac:(lia)). Qed.

Lemma land_3 a : Z.land a 3 = a mod 4.
Proof. exact (land_low 2 a ltac:(lia)). Qed.

Lemma word_base_eq a : is_word a -> word_base a = a - a mod 8.
Proof. intros. by apply (land_wnot_ones 3). Qed.

Lemma part_bit n w i j :
  0 <= n -> 0 <= i -> 0 <= j -> Z.testbit (part n w i) j = (j <? n) && Z.testbit w (n * i + j).
Proof.
  intros Hn Hi Hj. unfold part. rewrite Z.land_spec, Z.shiftr_spec by done.
  rewrite (Z.add_comm j). destruct (Z.ltb_spec j n).
  - by rewrite Z.ones_spec_low, andb_true_r by lia.
  - by rewrite Z.ones_spec_high, andb_false_r by lia.
Qed.

Lemma part_range n w i : 0 <= n -> 0 <= part n w i < 2 ^ n.
Proof. intros. unfold part. rewrite Z.land_ones by done. apply Z.mod_pos_bound. apply Z.pow_pos_nonneg; lia. Qed.

Lemma part_byte w i : 0 <= part 8 w i < 256.
Proof. by apply (part_range 8). Qed.

(** Two bytes are equal when their bits are. *)
Lemma byte_ext x y :
  0 <= x < 256 -> 0 <= y < 256 -> (forall j, 0 <= j < 8 -> Z.testbit x j = Z.testbit y j) -> x = y.
Proof.
  intros Hx Hy Hb. apply Z.bits_inj_iff'. intros j Hj. destruct (Z.lt_ge_cases j 8); [auto|].
  rewrite <- (Z.mod_small x (2 ^ 8)), <- (Z.mod_small y (2 ^ 8)), !Z.mod_pow2_bits_high by lia. done.
Qed.

Lemma part_shiftr w i k : 0 <= i -> 0 <= k -> part 8 (Z.shiftr w (8 * i)) k = part 8 w (i + k).
Proof. intros. unfold part. rewrite Z.shiftr_shiftr by lia. do 2 f_equal. lia. Qed.

Lemma to_bytes_parts n v i : 0 <= i -> to_bytes n (Z.shiftr v (8 * i)) = parts v i n.
Proof.
  revert i. induction n as [|n IH]; intros i Hi; simpl; [done|].
  rewrite part_shiftr, Z.add_0_r by lia. f_equal. rewrite <- IH by lia.
  rewrite Z.shiftr_shiftr by lia. do 2 f_equal. lia.
Qed.

Lemma le_parts w i n :
  0 <= i -> le (parts w i n) = Z.shiftr w (8 * i) mod 2 ^ (8 * Z.of_nat n).
Proof.
  revert i. induction n as [|n IH]; intros i Hi; [by rewrite Z.mod_1_r|]. cbn [parts le].
  rewrite IH by lia. unfold part. rewrite land_low by done.
  replace (8 * Z.of_nat (S n)) with (8 + 8 * Z.of_nat n) by lia.
  rewrite Z.pow_add_r, Z.rem_mul_r by (try apply Z.pow_nonzero; try apply Z.pow_pos_nonneg; lia).
  change (2 ^ 8) with 256. do 2 f_equal. f_equal.
  rewrite <- (Z.shiftr_div_pow2 _ 8), Z.shiftr_shiftr by lia. f_equal. lia.
Qed.

Lemma parts_length w i n : length (parts w i n) = n.
Proof. revert i. induction n; intros i; simpl; auto. Qed.

Lemma bytes_length m a n : length (bytes_at m a n) = n.
Proof. revert a. induction n; intros a; simpl; auto. Qed.

Lemma bytes_at_app m a n1 n2 :
  bytes_at m a (n1 + n2) = bytes_at m a n1 ++ bytes_at m (a + Z.of_nat n1) n2.
Proof.
  revert a. induction n1 as [|n1 IH]; intros a; simpl; [by rewrite Z.add_0_r|].
  rewrite IH. do 2 f_equal. f_equal. lia.
Qed.

Lemma bytes_in_word m a i n :
  a mod 8 = 0 -> 0 <= i -> i + Z.of_nat n <= 8 -> bytes_at m (a + i) n = parts (m a) i n.
Proof.
  intros Ha. revert i. induction n as [|n IH]; intros i Hi Hn; simpl; [done|].
  unfold byte_at at 1. rewrite Z.add_mod, Ha, (Z.mod_small i) by lia. simpl.
  rewrite (Z.mod_small i), Z.add_simpl_r by lia. f_equal. rewrite <- Z.add_assoc. apply IH; lia.
Qed.

Lemma parts_to_bytes n v : to_bytes n v = parts v 0 n.
Proof. rewrite <- (to_bytes_parts n v 0) by lia. by rewrite Z.shiftr_0_r. Qed.

Lemma word_bytes m a : a mod 8 = 0 -> to_bytes 8 (m a) = bytes_at m a 8.
Proof. intros. rewrite parts_to_bytes, <- (bytes_in_word m a 0) by lia. by rewrite Z.add_0_r. Qed.

Lemma copy_out_parts w i n : (i + n <= 8)%nat -> copy_out w i n = parts w (Z.of_nat i) n.
Proof.
  revert i. induction n as [|n IH]; intros i Hi; simpl; [done|].
  destruct (Nat.ltb_spec i 8); [|lia]. rewrite IH by lia. do 2 f_equal. lia.
Qed.

Lemma copy_out_min w i n : (i <= 8)%nat -> copy_out w i n = copy_out w i (n `min` (8 - i)).
Proof.
  revert i. induction n as [|n IH]; intros i Hi; [done|].
  destruct (Nat.lt_ge_cases i 8) as [Hlt|Hge].
  - replace (S n `min` (8 - i))%nat with (S (n `min` (8 - S i))) by lia. cbn [copy_out].
    destruct (Nat.ltb_spec i 8); [|lia]. f_equal. apply IH. lia.
  - replace (S n `min` (8 - i))%nat with O by lia. cbn [copy_out].
    by destruct (Nat.ltb_spec i 8); [lia|].
Qed.

(** ** Loading bytes *)

Lemma load_words_spec fuel a size buf k m :
  a mod 8 = 0 -> 0 <= a -> a + Z.of_nat size <= 2 ^ 64 -> (size < fuel)%nat ->
  seq_body (load_words fuel a size buf k) m = seq_body (k (buf ++ bytes_at m a size)) m.
Proof.
  revert a size buf. induction fuel as [|fuel IH]; intros a size buf Ha H0 Hb Hf; [lia|].
  cbn [load_words]. destruct (Nat.leb_spec 8 size).
  - cbn [seq_body]. rewrite w64_id by (unfold is_word, word_size; lia).
    rewrite IH; [|rewrite Z.add_mod, Ha by lia; done|lia|lia|lia].
    f_equal. f_equal. rewrite <- app_assoc. f_equal.
    replace size with (8 + (size - 8))%nat at 2 by lia. rewrite bytes_at_app. f_equal.
    by apply word_bytes.
  - destruct (Nat.ltb_spec 0 size).
    + cbn [seq_body]. rewrite w64_id by (unfold is_word, word_size; lia).
      do 3 f_equal. rewrite copy_out_parts by lia. rewrite <- (bytes_in_word m a 0) by lia.
      by rewrite Z.add_0_r.
    + replace size with O by lia. simpl. by rewrite app_nil_r.
Qed.

Lemma load_bytes_seq addr size k m :
  is_word addr -> addr + Z.of_nat size <= 2 ^ 64 ->
  seq_body (stm_load_bytes addr size k) m = seq_body (k (bytes_at m addr size)) m.
Proof.
  intros Ha Hb. unfold stm_load_bytes. destruct (Nat.eqb_spec size 0) as [->|Hz]; [done|].
  rewrite land_7, word_base_eq by done. cbv zeta.
  pose proof (Z.mod_pos_bound addr 8 ltac:(lia)). pose proof (Z.mod_le addr 8 ltac:(apply Ha) ltac:(lia)).
  assert (Hbase : (addr - addr mod 8) mod 8 = 0) by (by rewrite Zminus_mod, Z.mod_mod, Z.sub_diag by lia).
  destruct (Z.eqb_spec (addr mod 8) 0) as [Hr|Hr]; cbn [negb seq_body].
  - rewrite load_words_spec by (done || apply Ha || lia). done.
  - rewrite w64_id by (unfold is_word, word_size in *; lia).
    rewrite copy_out_min, copy_out_parts, parts_length, Z2Nat.id by lia.
    rewrite <- (bytes_in_word m (addr - addr mod 8)) by lia.
    replace (addr - addr mod 8 + addr mod 8) with addr by lia.
    set (n := (size `min` (8 - Z.to_nat (addr mod 8)))%nat).
    destruct (Nat.eq_dec size n) as [Heq|Hne].
    + replace (size - n)%nat with O by lia. rewrite <- Heq. done.
    + rewrite load_words_spec; [|rewrite Z.add_mod, Hbase by lia; done|lia|lia|lia].
      f_equal. f_equal. replace size with (n + (size - n))%nat at 2 by lia.
      rewrite bytes_at_app. do 2 f_equal. lia.
Qed.

(** ** Loading integers *)

Lemma part_le w i (n : nat) :
  0 <= i -> part (8 * Z.of_nat n) w i = le (parts w (Z.of_nat n * i) n).
Proof.
  intros Hi. rewrite le_parts by lia. unfold part. rewrite land_low by lia.
  do 2 f_equal. lia.
Qed.

(** A part of the word at an address aligned for it *)
Lemma load_part m addr (n : nat) q :
  is_word addr -> addr mod 8 = Z.of_nat n * q -> 0 <= q -> Z.of_nat n * (q + 1) <= 8 ->
  part (8 * Z.of_nat n) (m (addr - addr mod 8)) q = le (bytes_at m addr n).
Proof.
  intros Ha Hr Hq Hn. rewrite part_le by done. rewrite <- Hr. f_equal.
  rewrite <- (bytes_in_word m) by (try lia; by rewrite Zminus_mod, Z.mod_mod, Z.sub_diag by lia).
  f_equal. lia.
Qed.

Lemma base_word addr : is_word addr -> is_word (addr - addr mod 8).
Proof.
  unfold is_word, word_size. intros Ha. pose proof (Z.mod_pos_bound addr 8 ltac:(lia)).
  pose proof (Z.mod_le addr 8 ltac:(lia) ltac:(lia)). lia.
Qed.

(** The index of the part for [n] bytes, [n] a power of two *)
Lemma part_index addr n k :
  2 ^ k = n -> n * 2 ^ (3 - k) = 8 -> 0 <= k <= 3 -> addr mod n = 0 ->
  addr mod 8 = n * Z.shiftr (Z.land addr 7) k /\ 0 <= Z.shiftr (Z.land addr 7) k /\
  n * (Z.shiftr (Z.land addr 7) k + 1) <= 8.
Proof.
  intros Hn H8 Hk Ha. rewrite land_7, Z.shiftr_div_pow2, Hn by lia.
  assert (0 < n) by (rewrite <- Hn; apply Z.pow_pos_nonneg; lia).
  pose proof (Z.mod_pos_bound addr 8 ltac:(lia)).
  assert (Hd : (addr mod 8) mod n = 0).
  { rewrite <- H8. rewrite Z.rem_mul_r by (try apply Z.pow_nonzero; lia).
    rewrite Ha, Z.add_0_l, Z.mul_comm. apply Z.mod_mul. lia. }
  pose proof (Z.div_mod (addr mod 8) n ltac:(lia)).
  split_and!; [lia|apply Z.div_pos; lia|].
  assert (addr mod 8 / n < 2 ^ (3 - k)); [|nia].
  apply Z.div_lt_upper_bound; lia.
Qed.

Lemma load_u8_seq addr k m :
  is_word addr -> seq_body (stm_load_u8 addr k) m = seq_body (k (byte_at m addr)) m.
Proof.
  intros Ha. unfold stm_load_u8, byte_at. rewrite word_base_eq, land_7 by done. cbn [seq_body].
  by rewrite w64_id by by apply base_word.
Qed.

Lemma load_u16_seq addr k m :
  is_word addr -> addr + 2 <= 2 ^ 64 ->
  seq_body (stm_load_u16 addr k) m = seq_body (k (le (bytes_at m addr 2))) m.
Proof.
  intros Ha Hb. unfold stm_load_u16. rewrite (land_low 1 addr ltac:(lia) : Z.land addr 1 = _).
  destruct (Z.eqb_spec (addr mod 2 ^ 1) 0) as [Hr|Hr]; cbn [negb].
  - destruct (part_index addr 2 1) as (? & ? & ?); try done.
    cbn [seq_body]. rewrite word_base_eq, w64_id by (done || by apply base_word).
    by rewrite (load_part m addr 2).
  - by rewrite load_bytes_seq.
Qed.

Lemma load_u32_seq addr k m :
  is_word addr -> addr + 4 <= 2 ^ 64 ->
  seq_body (stm_load_u32 addr k) m = seq_body (k (le (bytes_at m addr 4))) m.
Proof.
  intros Ha Hb. unfold stm_load_u32. rewrite land_3.
  destruct (Z.eqb_spec (addr mod 4) 0) as [Hr|Hr]; cbn [negb].
  - destruct (part_index addr 4 2) as (? & ? & ?); try done.
    cbn [seq_body]. rewrite word_base_eq, w64_id by (done || by apply base_word).
    by rewrite (load_part m addr 4).
  - by rewrite load_bytes_seq.
Qed.

Lemma le_word m a : is_mem m -> a mod 8 = 0 -> le (bytes_at m a 8) = m a.
Proof.
  intros Hm Ha. rewrite <- word_bytes, parts_to_bytes, le_parts by (done || lia).
  rewrite Z.shiftr_0_r. apply Z.mod_small, Hm.
Qed.

Lemma load_u64_seq addr k m :
  is_word addr -> addr + 8 <= 2 ^ 64 -> is_mem m ->
  seq_body (stm_load_u64 addr k) m = seq_body (k (le (bytes_at m addr 8))) m.
Proof.
  intros Ha Hb Hm. unfold stm_load_u64. rewrite land_7.
  destruct (Z.eqb_spec (addr mod 8) 0) as [Hr|Hr]; cbn [negb].
  - cbn [seq_body]. by rewrite w64_id, le_word.
  - by rewrite load_bytes_seq.
Qed.

(** ** Storing bytes *)

Definition is_byte (b : Z) : Prop := 0 <= b < 256.

(** [m'] is [m] with the bytes [bs] at [addr] and nothing else changed. *)
Definition bytes_set (m : mem) (addr : Z) (bs : list Z) (m' : mem) : Prop :=
  is_mem m' /\ (forall a, a mod 8 <> 0 -> m' a = m a) /\
  forall a, byte_at m' a =
    if decide (addr <= a < addr + Z.of_nat (length bs)) then nth (Z.to_nat (a - addr)) bs 0
    else byte_at m a.

Lemma bytes_set_nil m addr : is_mem m -> bytes_set m addr [] m.
Proof. intros Hm. split_and!; [done..|]. intros a. rewrite decide_False by (simpl; lia). done. Qed.

Lemma bytes_set_app m addr bs1 bs2 m1 m2 :
  bytes_set m addr bs1 m1 -> bytes_set m1 (addr + Z.of_nat (length bs1)) bs2 m2 ->
  bytes_set m addr (bs1 ++ bs2) m2.
Proof.
  intros (_ & Ha1 & Hb1) (Hm & Ha2 & Hb2). split_and!; [done| |].
  - intros a Ha. by rewrite Ha2, Ha1.
  - intros a. rewrite Hb2, Hb1, length_app.
    destruct (decide (addr <= a < addr + Z.of_nat (length bs1))).
    + rewrite decide_False, decide_True by lia. by rewrite app_nth1 by lia.
    + destruct (decide (addr + Z.of_nat (length bs1) <= a <
        addr + Z.of_nat (length bs1) + Z.of_nat (length bs2))).
      * rewrite decide_True by lia. rewrite app_nth2 by lia. f_equal. lia.
      * by rewrite decide_False by lia.
Qed.

Lemma part_w64 w b : 0 <= b < 8 -> part 8 (w64 w) b = part 8 w b.
Proof.
  intros Hb. apply byte_ext; [apply part_byte..|]. intros j Hj.
  rewrite !part_bit, w64_bit by lia. done.
Qed.

Lemma set_part_bit n w i v j :
  0 <= n -> 0 <= i -> n * (i + 1) <= 64 -> 0 <= v < 2 ^ n -> 0 <= j < 64 ->
  Z.testbit (set_part n w i v) j =
    if (n * i <=? j) && (j <? n * (i + 1)) then Z.testbit v (j - n * i) else Z.testbit w j.
Proof.
  intros Hn Hi H64 Hv Hj. unfold set_part.
  rewrite Z.lor_spec, Z.land_spec, wnot_bit, !Z.shiftl_spec by lia.
  destruct (Z.leb_spec (n * i) j); simpl.
  - destruct (Z.ltb_spec j (n * (i + 1))).
    + rewrite Z.ones_spec_low by lia. by rewrite andb_false_r.
    + rewrite Z.ones_spec_high by lia. rewrite <- (Z.mod_small v (2 ^ n)) by done.
      rewrite Z.mod_pow2_bits_high by lia. by rewrite andb_true_r, orb_false_r.
  - rewrite (Z.testbit_neg_r (Z.ones n)), (Z.testbit_neg_r v) by lia.
    by rewrite andb_true_r, orb_false_r.
Qed.

Lemma set_part_byte (n : nat) w i v b :
  0 <= i -> Z.of_nat n * (i + 1) <= 8 -> 0 <= v < 2 ^ (8 * Z.of_nat n) -> 0 <= b < 8 ->
  part 8 (set_part (8 * Z.of_nat n) w i v) b =
    if (Z.of_nat n * i <=? b) && (b <? Z.of_nat n * (i + 1)) then part 8 v (b - Z.of_nat n * i)
    else part 8 w b.
Proof.
  intros Hi H8 Hv Hb. apply byte_ext; [apply part_byte|destruct (_ && _); apply part_byte|].
  intros j Hj. rewrite part_bit, set_part_bit by lia.
  destruct (Z.ltb_spec j 8); [|lia].
  destruct (Z.leb_spec (Z.of_nat n * i) b), (Z.ltb_spec b (Z.of_nat n * (i + 1))),
    (Z.leb_spec (8 * Z.of_nat n * i) (8 * b + j)), (Z.ltb_spec (8 * b + j) (8 * Z.of_nat n * (i + 1)));
    try lia; simpl; rewrite part_bit by lia; (destruct (Z.ltb_spec j 8); [|lia]); simpl; f_equal; lia.
Qed.

Lemma set_part_1 w i v b :
  0 <= i < 8 -> is_byte v -> 0 <= b < 8 ->
  part 8 (set_part 8 w i v) b = if decide (b = i) then v else part 8 w b.
Proof.
  intros Hi Hv Hb. change 8 with (8 * Z.of_nat 1) at 2.
  rewrite (set_part_byte 1 w i v b) by (exact Hv || lia).
  destruct (Z.leb_spec (Z.of_nat 1 * i) b), (Z.ltb_spec b (Z.of_nat 1 * (i + 1))); case_decide;
    try lia; try done.
  replace (b - Z.of_nat 1 * i) with 0 by lia. unfold part. change (8 * 0) with 0.
  rewrite Z.shiftr_0_r, land_low by lia. by apply Z.mod_small.
Qed.

Lemma wmerge_byte old v mask b :
  0 <= b < 8 ->
  (part 8 mask b = 255 -> part 8 (wmerge old v mask) b = part 8 v b) /\
  (part 8 mask b = 0 -> part 8 (wmerge old v mask) b = part 8 old b).
Proof.
  intros Hb. split; intros Hm; apply byte_ext; try apply part_byte; intros j Hj;
    assert (Hbit : Z.testbit (part 8 mask b) j = Z.testbit mask (8 * b + j))
      by (rewrite part_bit by lia; by destruct (Z.ltb_spec j 8); [|lia]);
    rewrite !part_bit, wmerge_bit by lia; rewrite <- Hbit, Hm.
  - change 255 with (Z.ones 8). by rewrite Z.ones_spec_low by lia.
  - by rewrite Z.testbit_0_l.
Qed.

Lemma byte_at_upd m base x a :
  byte_at (upd m base x) a =
    if decide (a - a mod 8 = base) then part 8 x (a mod 8) else byte_at m a.
Proof. unfold byte_at, upd. by case_decide. Qed.

(** A masked store sets the bytes that the mask covers. *)
Lemma store2_set m base i bs v mask :
  is_mem m -> base mod 8 = 0 -> 0 <= i -> i + Z.of_nat (length bs) <= 8 ->
  (forall b, 0 <= b < 8 ->
     part 8 mask b = if decide (i <= b < i + Z.of_nat (length bs)) then 255 else 0) ->
  (forall b, i <= b < i + Z.of_nat (length bs) -> part 8 v b = nth (Z.to_nat (b - i)) bs 0) ->
  bytes_set m (base + i) bs (upd m base (wmerge (m base) (w64 v) (w64 mask))).
Proof.
  intros Hm Hbase Hi H8 Hmask Hv. split_and!.
  - intros a. unfold upd. case_decide; auto with word.
  - intros a Ha. apply upd_other. by intros ->.
  - intros a. rewrite byte_at_upd. pose proof (Z.mod_pos_bound a 8 ltac:(lia)) as Hr.
    case_decide as Hb.
    + destruct (wmerge_byte (m base) (w64 v) (w64 mask) (a mod 8) Hr) as [H1 H0].
      rewrite part_w64, Hmask in H1, H0 by done. rewrite part_w64 in H1 by done.
      destruct (decide (i <= a mod 8 < i + Z.of_nat (length bs))).
      * rewrite decide_True by lia. rewrite H1, Hv by done. f_equal. lia.
      * rewrite decide_False by lia. rewrite H0 by done. unfold byte_at. by rewrite Hb.
    + rewrite decide_False; [done|]. intros Hin. apply Hb.
      pose proof (Z.div_mod a 8 ltac:(lia)). pose proof (Z.div_mod base 8 ltac:(lia)).
      assert (a / 8 = base / 8); [|lia]. symmetry. apply (Z.div_unique a 8 _ (a - base)); lia.
Qed.

Lemma part_0 b : part 8 0 b = 0.
Proof. unfold part. by rewrite Z.shiftr_0_l. Qed.

Lemma mask_in_spec mask i count :
  (i <= 8)%nat ->
  let n := (count `min` (8 - i))%nat in
  (mask_in mask i count).2 = (count - n)%nat /\
  forall b, 0 <= b < 8 -> part 8 (mask_in mask i count).1 b =
    if decide (Z.of_nat i <= b < Z.of_nat i + Z.of_nat n) then 255 else part 8 mask b.
Proof.
  cbv zeta. revert mask i. induction count as [|c IH]; intros mask i Hi.
  - split; [done|]. intros b Hb. by rewrite decide_False by lia.
  - cbn [mask_in]. destruct (Nat.ltb_spec i 8) as [Hlt|Hge].
    + destruct (IH (set_part 8 mask (Z.of_nat i) 255) (S i)) as [H1 H2]; [lia|].
      split; [rewrite H1; lia|]. intros b Hb. rewrite H2 by done.
      rewrite set_part_1 by (unfold is_byte; lia).
      repeat case_decide; try done; lia.
    + split; [cbn [snd]; lia|]. intros b Hb. by rewrite decide_False by lia.
Qed.

Lemma copy_in_spec val mask i buf :
  (i <= 8)%nat -> Forall is_byte buf ->
  let n := (length buf `min` (8 - i))%nat in
  (copy_in val mask i buf).2 = drop n buf /\
  forall b, 0 <= b < 8 ->
    part 8 (copy_in val mask i buf).1.2 b =
      (if decide (Z.of_nat i <= b < Z.of_nat i + Z.of_nat n) then 255 else part 8 mask b) /\
    part 8 (copy_in val mask i buf).1.1 b =
      (if decide (Z.of_nat i <= b < Z.of_nat i + Z.of_nat n) then nth (Z.to_nat (b - Z.of_nat i)) buf 0
       else part 8 val b).
Proof.
  cbv zeta. intros Hi Hbuf. revert val mask i Hi.
  induction Hbuf as [|x buf Hx Hbuf IH]; intros val mask i Hi.
  - split; [done|]. intros b Hb. by rewrite !decide_False by (simpl; lia).
  - cbn [copy_in length]. destruct (Nat.ltb_spec i 8) as [Hlt|Hge].
    + destruct (IH (set_part 8 val (Z.of_nat i) x) (set_part 8 mask (Z.of_nat i) 255) (S i)) as [H1 H2]; [lia|].
      replace (S (length buf) `min` (8 - i))%nat with (S (length buf `min` (8 - S i))) by lia.
      split; [done|]. intros b Hb. destruct (H2 b Hb) as [-> ->].
      rewrite !set_part_1 by (done || unfold is_byte; lia).
      split; repeat case_decide; try done; try lia.
      * replace (Z.to_nat (b - Z.of_nat i)) with (S (Z.to_nat (b - Z.of_nat (S i)))) by lia. done.
      * by replace (Z.to_nat (b - Z.of_nat i)) with O by lia.
    + replace (S (length buf) `min` (8 - i))%nat with O by lia.
      split; [done|]. intros b Hb. by rewrite !decide_False by (simpl; lia).
Qed.

Lemma le_bytes bs b :
  Forall is_byte bs -> (b < length bs)%nat -> part 8 (le bs) (Z.of_nat b) = nth b bs 0.
Proof.
  intros Hbs. revert b. induction Hbs as [|x bs Hx Hbs IH]; intros b Hb; simpl in Hb; [lia|].
  cbn [le]. destruct b as [|b]; cbn [nth].
  - unfold part. change (8 * Z.of_nat 0) with 0. rewrite Z.shiftr_0_r, land_low by lia.
    change (2 ^ 8) with 256. rewrite Z.mul_comm, Z.mod_add by lia. by apply Z.mod_small.
  - rewrite <- IH by lia. replace (Z.of_nat (S b)) with (1 + Z.of_nat b) by lia.
    rewrite <- part_shiftr by lia. f_equal. rewrite Z.shiftr_div_pow2 by lia.
    change (2 ^ (8 * 1)) with 256. rewrite Z.mul_comm, Z.div_add by lia.
    rewrite (Z.div_small x) by done. lia.
Qed.

(** A word store sets the eight bytes of the word. *)
Lemma store_set m base bs v :
  is_mem m -> base mod 8 = 0 -> length bs = 8%nat ->
  (forall b, (b < 8)%nat -> part 8 v (Z.of_nat b) = nth b bs 0) ->
  bytes_set m base bs (upd m base (w64 v)).
Proof.
  intros Hm Hbase Hlen Hv.
  replace (upd m base (w64 v)) with (upd m base (wmerge (m base) (w64 v) (w64 ones64))).
  2: { f_equal. rewrite (w64_id ones64) by apply is_word_ones.
       apply wmerge_ones; [apply Hm|apply w64_word]. }
  rewrite <- (Z.add_0_r base) at 1. apply store2_set; try done; rewrite ?Hlen; [lia| |].
  - intros b Hb. rewrite decide_True by lia. apply byte_ext; [apply part_byte|done|].
    intros j Hj. rewrite part_bit, ones64_bit by lia. change 255 with (Z.ones 8).
    rewrite Z.ones_spec_low by done. by destruct (Z.ltb_spec j 8); [|lia].
  - intros b Hb. rewrite <- Hv by lia. f_equal. lia.
Qed.

Lemma nth_take_lt {A} (d : A) (l : list A) n i : (i < n)%nat -> nth i (take n l) d = nth i l d.
Proof.
  revert n i. induction l as [|x l IH]; intros [|n] [|i] Hi; try lia; try done. apply IH. lia.
Qed.

Lemma store_words_spec fuel a buf k m :
  a mod 8 = 0 -> 0 <= a -> a + Z.of_nat (length buf) <= 2 ^ 64 -> Forall is_byte buf -> is_mem m ->
  (length buf < fuel)%nat ->
  exists m', seq_body (store_words fuel a buf k) m = seq_body k m' /\ bytes_set m a buf m'.
Proof.
  revert a buf m. induction fuel as [|fuel IH]; intros a buf m Ha H0 Hb Hbuf Hm Hf; [lia|].
  cbn [store_words]. destruct (Nat.leb_spec 8 (length buf)) as [H8|H8].
  - assert (Hw : bytes_set m a (take 8 buf) (upd m a (w64 (le (take 8 buf))))).
    { apply store_set; [done..|by rewrite length_take; lia|]. intros b Hlt.
      apply le_bytes; [by apply Forall_take|rewrite length_take; lia]. }
    destruct (IH (a + 8) (drop 8 buf) (upd m a (w64 (le (take 8 buf))))) as (m' & Hs & Hset);
      rewrite ?length_drop; try lia; [by rewrite Z.add_mod, Ha|by apply Forall_drop|apply Hw|].
    exists m'. split; [cbn [seq_body]; rewrite (w64_id a) by (unfold is_word, word_size; lia); done|].
    rewrite <- (take_drop 8 buf). eapply bytes_set_app; [done|]. rewrite length_take.
    replace (Z.of_nat (8 `min` length buf)) with 8 by lia. done.
  - destruct (Nat.ltb_spec 0 (length buf)) as [Hpos|Hz].
    + pose proof (copy_in_spec 0 0 0 buf ltac:(lia) Hbuf) as [_ Hc].
      destruct (copy_in 0 0 0 buf) as [[val mask] rest]. cbn [fst snd seq_body] in *.
      rewrite Nat.min_l in Hc by lia.
      eexists. split; [reflexivity|]. rewrite (w64_id a) by (unfold is_word, word_size; lia).
      rewrite <- (Z.add_0_r a) at 1. apply store2_set; try done; try lia.
      * intros b Hlt. destruct (Hc b Hlt) as [-> _]. by rewrite part_0.
      * intros b Hlt. destruct (Hc b ltac:(lia)) as [_ ->]. by rewrite decide_True.
    + exists m. split; [done|]. destruct buf; [by apply bytes_set_nil|simpl in Hz; lia].
Qed.

(** The first, partial word of a range *)
Lemma first_set m addr bs (n : nat) v mask :
  is_word addr -> is_mem m -> n = (length bs `min` (8 - Z.to_nat (addr mod 8)))%nat ->
  (forall b, 0 <= b < 8 ->
     part 8 mask b = if decide (addr mod 8 <= b < addr mod 8 + Z.of_nat n) then 255 else 0) ->
  (forall b, addr mod 8 <= b < addr mod 8 + Z.of_nat n ->
     part 8 v b = nth (Z.to_nat (b - addr mod 8)) bs 0) ->
  let base := addr - addr mod 8 in
  bytes_set m addr (take n bs) (upd m base (wmerge (m base) (w64 v) (w64 mask))).
Proof.
  intros Ha Hm Hn Hmask Hv base. pose proof (Z.mod_pos_bound addr 8 ltac:(lia)).
  replace addr with (base + addr mod 8) at 1 by (unfold base; lia).
  assert (Hlen : length (take n bs) = n) by (rewrite length_take; lia).
  apply store2_set; rewrite ?Hlen; try done; try lia.
  - unfold base. by rewrite Zminus_mod, Z.mod_mod, Z.sub_diag by lia.
  - intros b Hb. rewrite nth_take_lt by lia. by apply Hv.
Qed.

(** Where the rest of the range begins *)
Lemma next_word addr (bs : list Z) (n : nat) :
  is_word addr -> n = (length bs `min` (8 - Z.to_nat (addr mod 8)))%nat ->
  (addr - addr mod 8 + 8) mod 8 = 0 /\ 0 <= addr - addr mod 8 + 8 <= 2 ^ 64 /\ (drop n bs <> [] -> addr - addr mod 8 + 8 = addr + Z.of_nat (length (take n bs))).
Proof.
  intros Ha Hn. pose proof (Z.mod_pos_bound addr 8 ltac:(lia)).
  pose proof (base_word addr Ha) as Hw. unfold is_word, word_size in *.
  assert (Hb : (addr - addr mod 8) mod 8 = 0) by (by rewrite Zminus_mod, Z.mod_mod, Z.sub_diag by lia).
  split_and!; [by rewrite Z.add_mod, Hb|lia| |].
  - pose proof (Z.div_mod (addr - addr mod 8) 8 ltac:(lia)). change (2 ^ 64) with (8 * 2 ^ 61) in *. lia.
  - intros Hd. rewrite length_take. assert (length bs > n)%nat; [|lia].
    destruct (Nat.lt_ge_cases n (length bs)); [lia|]. by rewrite drop_ge in Hd by lia.
Qed.

Lemma set_rest m m1 m' addr (bs : list Z) (n : nat) :
  is_word addr -> n = (length bs `min` (8 - Z.to_nat (addr mod 8)))%nat ->
  bytes_set m addr (take n bs) m1 -> bytes_set m1 (addr - addr mod 8 + 8) (drop n bs) m' ->
  bytes_set m addr bs m'.
Proof.
  intros Ha Hn H1 H2. destruct (next_word addr bs n Ha Hn) as (_ & _ & Hnext).
  rewrite <- (take_drop n bs). eapply bytes_set_app; [done|].
  destruct (decide (drop n bs = [])) as [Hd|Hd]; [|by rewrite <- Hnext].
  rewrite Hd in *. destruct H2 as (Hm & Ho & Hb). split_and!; [done..|].
  intros a. rewrite Hb. by rewrite !decide_False by (simpl; lia).
Qed.

Lemma store_bytes_seq addr buf k m :
  is_word addr -> addr + Z.of_nat (length buf) <= 2 ^ 64 -> Forall is_byte buf -> is_mem m ->
  exists m', seq_body (stm_store_bytes addr buf k) m = seq_body k m' /\ bytes_set m addr buf m'.
Proof.
  intros Ha Hb Hbuf Hm. unfold stm_store_bytes.
  destruct (Nat.eqb_spec (length buf) 0) as [Hz|Hz].
  { exists m. split; [done|]. destruct buf; [by apply bytes_set_nil|done]. }
  rewrite land_7, word_base_eq by done. cbv zeta. pose proof (Z.mod_pos_bound addr 8 ltac:(lia)).
  destruct (Z.eqb_spec (addr mod 8) 0) as [Hr|Hr]; cbn [negb].
  { apply store_words_spec; try done; [apply Ha|lia]. }
  pose proof (copy_in_spec 0 0 (Z.to_nat (addr mod 8)) buf ltac:(lia) Hbuf) as [Hrest Hc].
  rewrite Z2Nat.id in Hc by lia.
  destruct (copy_in 0 0 (Z.to_nat (addr mod 8)) buf) as [[val mask] rest]. cbn [fst snd] in *.
  set (n := (length buf `min` (8 - Z.to_nat (addr mod 8)))%nat) in *. subst rest.
  destruct (next_word addr buf n Ha eq_refl) as (H8 & Hbase & Hnext).
  assert (H1 : bytes_set m addr (take n buf) (upd m (addr - addr mod 8)
    (wmerge (m (addr - addr mod 8)) (w64 val) (w64 mask)))).
  { apply first_set; try done.
    - intros b Hlt. destruct (Hc b Hlt) as [-> _]. by rewrite part_0.
    - intros b Hlt. destruct (Hc b ltac:(lia)) as [_ ->]. by rewrite decide_True. }
  edestruct (store_words_spec (S (length buf)) (addr - addr mod 8 + 8) (drop n buf) k) as (m' & Hs & Hset);
    [done|lia| |by apply Forall_drop|apply H1|rewrite length_drop; lia|].
  { destruct (decide (drop n buf = [])) as [->|Hd]; [simpl; lia|].
    rewrite (Hnext Hd), length_take, length_drop. lia. }
  exists m'. split; [|by eapply set_rest].
  cbn [seq_body]. rewrite (w64_id (addr - addr mod 8)) by by apply base_word. exact Hs.
Qed.

Lemma fill_val_part val byte n b :
  is_byte byte -> (n <= 8)%nat -> 0 <= b < 8 ->
  part 8 (fill_val val byte n) b = if decide (b < Z.of_nat n) then byte else part 8 val b.
Proof.
  intros Hb Hn Hlt. induction n as [|n IH]; cbn [fill_val]; [by rewrite decide_False by lia|].
  rewrite set_part_1, IH by (done || lia). repeat case_decide; try done; lia.
Qed.

Lemma nth_replicate_lt (n i : nat) (x d : Z) : (i < n)%nat -> nth i (replicate n x) d = x.
Proof. revert i. induction n as [|n IH]; intros [|i] Hi; try lia; try done. simpl. apply IH. lia. Qed.

Lemma set_words_spec fuel a val byte count k m :
  a mod 8 = 0 -> 0 <= a -> a + Z.of_nat count <= 2 ^ 64 -> is_mem m ->
  (forall b, 0 <= b < 8 -> part 8 val b = byte) -> (count < fuel)%nat ->
  exists m', seq_body (set_words fuel a val count k) m = seq_body k m' /\
    bytes_set m a (replicate count byte) m'.
Proof.
  revert a count m. induction fuel as [|fuel IH]; intros a count m Ha H0 Hb Hm Hv Hf; [lia|].
  cbn [set_words]. destruct (Nat.leb_spec 8 count) as [H8|H8].
  - assert (Hw : bytes_set m a (replicate 8 byte) (upd m a (w64 val))).
    { apply store_set; try done. intros b Hlt. rewrite Hv by lia. by rewrite nth_replicate_lt. }
    destruct (IH (a + 8) (count - 8)%nat (upd m a (w64 val))) as (m' & Hs & Hset);
      try lia; [by rewrite Z.add_mod, Ha|apply Hw|done|].
    exists m'. split; [cbn [seq_body]; rewrite (w64_id a) by (unfold is_word, word_size; lia); done|].
    replace count with (8 + (count - 8))%nat by lia. rewrite replicate_add.
    by eapply bytes_set_app.
  - destruct (Nat.ltb_spec 0 count) as [Hpos|Hz].
    + pose proof (mask_in_spec 0 0 count ltac:(lia)) as [_ Hc]. rewrite Nat.min_l in Hc by lia.
      eexists. split; [reflexivity|]. rewrite (w64_id a) by (unfold is_word, word_size; lia).
      rewrite <- (Z.add_0_r a) at 1. apply store2_set; try done; rewrite ?length_replicate; try lia.
      * intros b Hlt. by rewrite Hc, part_0.
      * intros b Hlt. rewrite Hv by lia. by rewrite nth_replicate_lt by lia.
    + exists m. replace count with O by lia. split; [done|by apply bytes_set_nil].
Qed.

Lemma set_bytes_seq junk addr byte count k m :
  is_word addr -> addr + Z.of_nat count <= 2 ^ 64 -> is_byte byte -> is_mem m ->
  exists m', seq_body (stm_set_bytes junk addr byte count k) m = seq_body k m' /\
    bytes_set m addr (replicate count byte) m'.
Proof.
  intros Ha Hb Hbyte Hm. unfold stm_set_bytes.
  destruct (Nat.eqb_spec count 0) as [->|Hz].
  { exists m. split; [done|by apply bytes_set_nil]. }
  rewrite land_7, word_base_eq by done. cbv zeta. pose proof (Z.mod_pos_bound addr 8 ltac:(lia)).
  assert (Hv : forall b, 0 <= b < 8 -> part 8 (fill_val junk byte 8) b = byte).
  { intros b Hlt. rewrite fill_val_part by (done || lia). by rewrite decide_True by lia. }
  revert Hv. generalize (fill_val junk byte 8). intros val Hv.
  destruct (Z.eqb_spec (addr mod 8) 0) as [Hr|Hr]; cbn [negb].
  { apply set_words_spec; try done; [apply Ha|lia]. }
  pose proof (mask_in_spec 0 (Z.to_nat (addr mod 8)) count ltac:(lia)) as [Hrest Hc].
  rewrite Z2Nat.id in Hc by lia.
  destruct (mask_in 0 (Z.to_nat (addr mod 8)) count) as [mask rest]. cbn [fst snd] in *.
  set (bs := replicate count byte).
  assert (Hlen : length bs = count) by apply length_replicate.
  rewrite <- Hlen in Hc, Hrest.
  set (n := (length bs `min` (8 - Z.to_nat (addr mod 8)))%nat) in *.
  destruct (next_word addr bs n Ha eq_refl) as (H8 & Hbase & Hnext).
  assert (H1 : bytes_set m addr (take n bs) (upd m (addr - addr mod 8)
    (wmerge (m (addr - addr mod 8)) (w64 val) (w64 mask)))).
  { apply first_set; try done.
    - intros b Hlt. by rewrite Hc, part_0.
    - intros b Hlt. rewrite Hv by lia. unfold bs. by rewrite nth_replicate_lt by lia. }
  assert (Hd : drop n bs = replicate rest byte).
  { unfold bs. rewrite drop_replicate, Hrest, Hlen. done. }
  edestruct (set_words_spec (S count) (addr - addr mod 8 + 8) val byte rest k) as (m' & Hs & Hset);
    [done|lia| |apply H1|done|lia|].
  { destruct (decide (drop n bs = [])) as [Hn|Hn].
    - rewrite Hn in Hd. destruct rest; [simpl; lia|done].
    - rewrite (Hnext Hn), length_take. lia. }
  exists m'. split.
  - cbn [seq_body]. rewrite (w64_id (addr - addr mod 8)) by by apply base_word. exact Hs.
  - eapply set_rest; [done|reflexivity|exact H1|]. fold n. by rewrite Hd.
Qed.

(** ** Storing integers *)

Lemma to_bytes_bytes n v : Forall is_byte (to_bytes n v).
Proof. revert v. induction n; intros v; simpl; constructor; auto. apply part_byte. Qed.

Lemma to_bytes_length n v : length (to_bytes n v) = n.
Proof. rewrite parts_to_bytes. apply parts_length. Qed.

Lemma to_bytes_nth n v b : (b < n)%nat -> nth b (to_bytes n v) 0 = part 8 v (Z.of_nat b).
Proof.
  revert v b. induction n as [|n IH]; intros v [|b] Hb; try lia; [done|]. cbn [to_bytes nth].
  rewrite IH by lia. change 8 with (8 * 1) at 2. rewrite part_shiftr by lia. f_equal. lia.
Qed.

Lemma le_to_bytes n v : 0 <= v < 2 ^ (8 * Z.of_nat n) -> le (to_bytes n v) = v.
Proof.
  intros Hv. rewrite parts_to_bytes, le_parts by lia. rewrite Z.shiftr_0_r. by apply Z.mod_small.
Qed.

(** The masked store of [n] bytes at an address aligned for them *)
Lemma store_part_seq (n : nat) junk addr q v k m :
  is_word addr -> addr mod 8 = Z.of_nat n * q -> 0 <= q -> Z.of_nat n * (q + 1) <= 8 ->
  0 <= v < 2 ^ (8 * Z.of_nat n) -> is_mem m ->
  exists m', seq_body (TStore2 (word_base addr) (set_part (8 * Z.of_nat n) junk q v)
      (set_part (8 * Z.of_nat n) 0 q (Z.ones (8 * Z.of_nat n))) k) m = seq_body k m' /\
    bytes_set m addr (to_bytes n v) m'.
Proof.
  intros Ha Hr Hq Hn Hv Hm. eexists. cbn [seq_body]. split; [reflexivity|].
  rewrite word_base_eq, (w64_id (addr - addr mod 8)) by (done || by apply base_word).
  assert (Hones : 0 <= Z.ones (8 * Z.of_nat n) < 2 ^ (8 * Z.of_nat n)).
  { rewrite Z.ones_equiv. pose proof (Z.pow_pos_nonneg 2 (8 * Z.of_nat n) ltac:(lia) ltac:(lia)). lia. }
  replace addr with (addr - addr mod 8 + addr mod 8) at 1 by lia.
  apply store2_set; rewrite ?to_bytes_length; try done; try lia.
  - by rewrite Zminus_mod, Z.mod_mod, Z.sub_diag by lia.
  - intros b Hb. rewrite set_part_byte, part_0 by (done || lia).
    destruct (Z.leb_spec (Z.of_nat n * q) b), (Z.ltb_spec b (Z.of_nat n * (q + 1))); simpl;
      case_decide; try lia; try done.
    apply byte_ext; [apply part_byte|done|]. intros j Hj. rewrite part_bit by lia.
    change 255 with (Z.ones 8). rewrite !Z.ones_spec_low by lia. by destruct (Z.ltb_spec j 8); [|lia].
  - intros b Hb. rewrite set_part_byte by (done || lia).
    destruct (Z.leb_spec (Z.of_nat n * q) b), (Z.ltb_spec b (Z.of_nat n * (q + 1))); try lia. simpl.
    rewrite to_bytes_nth by lia. f_equal. lia.
Qed.

Lemma store_u8_seq junk addr v k m :
  is_word addr -> 0 <= v < 2 ^ 8 -> is_mem m ->
  exists m', seq_body (stm_store_u8 junk addr v k) m = seq_body k m' /\ bytes_set m addr (to_bytes 1 v) m'.
Proof.
  intros Ha Hv Hm. unfold stm_store_u8. rewrite land_7. pose proof (Z.mod_pos_bound addr 8 ltac:(lia)).
  apply (store_part_seq 1); try done; lia.
Qed.

Lemma store_u16_seq junk addr v k m :
  is_word addr -> addr + 2 <= 2 ^ 64 -> 0 <= v < 2 ^ 16 -> is_mem m ->
  exists m', seq_body (stm_store_u16 junk addr v k) m = seq_body k m' /\ bytes_set m addr (to_bytes 2 v) m'.
Proof.
  intros Ha Hb Hv Hm. unfold stm_store_u16. rewrite (land_low 1 addr ltac:(lia) : Z.land addr 1 = _).
  destruct (Z.eqb_spec (addr mod 2 ^ 1) 0) as [Hr|Hr]; cbn [negb].
  - destruct (part_index addr 2 1) as (? & ? & ?); try done. by apply (store_part_seq 2).
  - apply store_bytes_seq; auto using to_bytes_bytes.
Qed.

Lemma store_u32_seq junk addr v k m :
  is_word addr -> addr + 4 <= 2 ^ 64 -> 0 <= v < 2 ^ 32 -> is_mem m ->
  exists m', seq_body (stm_store_u32 junk addr v k) m = seq_body k m' /\ bytes_set m addr (to_bytes 4 v) m'.
Proof.
  intros Ha Hb Hv Hm. unfold stm_store_u32. rewrite land_3.
  destruct (Z.eqb_spec (addr mod 4) 0) as [Hr|Hr]; cbn [negb].
  - destruct (part_index addr 4 2) as (? & ? & ?); try done. by apply (store_part_seq 4).
  - apply store_bytes_seq; auto using to_bytes_bytes.
Qed.

Lemma store_u64_seq addr v k m :
  is_word addr -> addr + 8 <= 2 ^ 64 -> 0 <= v < 2 ^ 64 -> is_mem m ->
  exists m', seq_body (stm_store_u64 addr v k) m = seq_body k m' /\ bytes_set m addr (to_bytes 8 v) m'.
Proof.
  intros Ha Hb Hv Hm. unfold stm_store_u64. rewrite land_7.
  destruct (Z.eqb_spec (addr mod 8) 0) as [Hr|Hr]; cbn [negb].
  - eexists. cbn [seq_body]. split; [reflexivity|]. rewrite (w64_id addr) by done.
    apply store_set; try done. intros b Hlt. by rewrite to_bytes_nth.
  - apply store_bytes_seq; auto using to_bytes_bytes.
Qed.

(** What was stored is read back. *)
Lemma bytes_set_read m addr bs m' : bytes_set m addr bs m' -> bytes_at m' addr (length bs) = bs.
Proof.
  intros (_ & _ & Hb). assert (Hgen : forall a l, (forall b, (b < length l)%nat ->
    byte_at m' (a + Z.of_nat b) = nth b l 0) -> bytes_at m' a (length l) = l).
  { intros a l. revert a. induction l as [|x l IH]; intros a Hl; simpl; [done|]. f_equal.
    - rewrite <- (Z.add_0_r a). by apply (Hl O); simpl; lia.
    - apply IH. intros b Hlt. pose proof (Hl (S b) ltac:(simpl; lia)) as H. cbn [nth] in H.
      rewrite <- H. f_equal. lia. }
  apply Hgen. intros b Hlt. rewrite Hb, decide_True by lia. f_equal. lia.
Qed.

Lemma bytes_nth m a n j : (j < n)%nat -> nth j (bytes_at m a n) 0 = byte_at m (a + Z.of_nat j).
Proof.
  revert a j. induction n as [|n IH]; intros a [|j] Hj; try lia; cbn [bytes_at nth].
  - by rewrite Z.add_0_r.
  - rewrite IH by lia. f_equal. lia.
Qed.

Lemma bytes_set_le m addr n v m' :
  0 <= v < 2 ^ (8 * Z.of_nat n) -> bytes_set m addr (to_bytes n v) m' -> le (bytes_at m' addr n) = v.
Proof.
  intros Hv Hs. apply bytes_set_read in Hs. rewrite to_bytes_length in Hs. rewrite Hs. by apply le_to_bytes.
Qed.

Lemma signed_unsigned n v :
  0 < n -> - 2 ^ (n - 1) <= v < 2 ^ (n - 1) ->
  signed n (unsigned n v) = v /\ 0 <= unsigned n v < 2 ^ n.
Proof.
  intros Hn Hv. assert (H2 : 2 ^ n = 2 * 2 ^ (n - 1)).
  { rewrite <- Z.pow_succ_r by lia. f_equal. lia. }
  assert (0 < 2 ^ (n - 1)) by (apply Z.pow_pos_nonneg; lia).
  unfold signed, unsigned. split; [|apply Z.mod_pos_bound; lia].
  destruct (Z.lt_ge_cases v 0).
  - replace (v mod 2 ^ n) with (v + 2 ^ n) by (apply (Z.mod_unique _ _ (-1)); lia).
    destruct (Z.ltb_spec (v + 2 ^ n) (2 ^ (n - 1))); lia.
  - rewrite Z.mod_small by lia. destruct (Z.ltb_spec v (2 ^ (n - 1))); lia.
Qed.

(** ** Properties *)

(** C32. Ranges of bytes of any size and alignment: what [stm_load_bytes] reads after
    [stm_store_bytes] is, byte by byte, what was stored where the two ranges
    overlap and what was in memory before elsewhere. *)
Theorem bytes_store_load addr buf addr2 size k m :
  is_word addr -> addr + Z.of_nat (length buf) <= 2 ^ 64 -> Forall is_byte buf ->
  is_word addr2 -> addr2 + Z.of_nat size <= 2 ^ 64 -> is_mem m ->
  exists m' out, bytes_set m addr buf m' /\ length out = size /\
    seq_body (stm_store_bytes addr buf (stm_load_bytes addr2 size k)) m = seq_body (k out) m' /\
    forall j, (j < size)%nat ->
      nth j out 0 =
        let a := addr2 + Z.of_nat j in
        if decide (addr <= a < addr + Z.of_nat (length buf)) then nth (Z.to_nat (a - addr)) buf 0
        else byte_at m a.
Proof.
  intros Ha Hb Hbuf Ha2 Hb2 Hm.
  destruct (store_bytes_seq addr buf (stm_load_bytes addr2 size k) m) as (m' & Hs & Hset); try done.
  exists m', (bytes_at m' addr2 size). split_and!; [done|apply bytes_length| |].
  - by rewrite Hs, load_bytes_seq.
  - intros j Hj. rewrite bytes_nth by done. apply Hset.
Qed.

(** Writing a range of bytes, of any size and alignment, puts the bytes of the
    buffer in memory, in order, and changes no other byte; filling a range does
    the same with equal bytes, whatever the uninitialised union holds. *)
Theorem store_bytes_spec addr buf junk byte count k m :
  is_word addr -> is_mem m ->
  (addr + Z.of_nat (length buf) <= 2 ^ 64 -> Forall is_byte buf ->
   exists m', seq_body (stm_store_bytes addr buf k) m = seq_body k m' /\ bytes_set m addr buf m') /\
  (addr + Z.of_nat count <= 2 ^ 64 -> is_byte byte ->
   exists m', seq_body (stm_set_bytes junk addr byte count k) m = seq_body k m' /\
     bytes_set m addr (replicate count byte) m').
Proof. split; intros; [by apply store_bytes_seq|by apply set_bytes_seq]. Qed.

(** An unsigned integer of 8, 16, 32 or 64 bits that is stored at any address,
    aligned or not, occupies exactly its bytes (least significant first) and is read
    back. *)
Theorem unsigned_store_load junk addr v k m :
  is_word addr -> is_mem m ->
  (0 <= v < 2 ^ 8 -> exists m', bytes_set m addr (to_bytes 1 v) m' /\
     seq_body (stm_store_uchar junk addr v (stm_load_uchar addr k)) m = seq_body (k v) m') /\
  (addr + 2 <= 2 ^ 64 -> 0 <= v < 2 ^ 16 -> exists m', bytes_set m addr (to_bytes 2 v) m' /\
     seq_body (stm_store_ushort junk addr v (stm_load_ushort addr k)) m = seq_body (k v) m') /\
  (addr + 4 <= 2 ^ 64 -> 0 <= v < 2 ^ 32 -> exists m', bytes_set m addr (to_bytes 4 v) m' /\
     seq_body (stm_store_uint junk addr v (stm_load_uint addr k)) m = seq_body (k v) m') /\
  (addr + 8 <= 2 ^ 64 -> 0 <= v < 2 ^ 64 -> exists m', bytes_set m addr (to_bytes 8 v) m' /\
     seq_body (stm_store_ulong addr v (stm_load_ulong addr k)) m = seq_body (k v) m').
Proof.
  intros Ha Hm. split_and!; intros.
  - destruct (store_u8_seq junk addr v (stm_load_uchar addr k) m) as (m' & Hs & Hset); try done.
    exists m'. split; [done|]. unfold stm_store_uchar. rewrite Hs. unfold stm_load_uchar.
    rewrite load_u8_seq by done. pose proof (bytes_set_read _ _ _ _ Hset) as Hb.
    f_equal. f_equal. injection Hb as ->. unfold part. rewrite Z.shiftr_0_r, land_low by lia.
    by apply Z.mod_small.
  - destruct (store_u16_seq junk addr v (stm_load_ushort addr k) m) as (m' & Hs & Hset); try done.
    exists m'. split; [done|]. unfold stm_store_ushort. rewrite Hs. unfold stm_load_ushort.
    rewrite load_u16_seq by done. by rewrite (bytes_set_le m addr 2 v).
  - destruct (store_u32_seq junk addr v (stm_load_uint addr k) m) as (m' & Hs & Hset); try done.
    exists m'. split; [done|]. unfold stm_store_uint. rewrite Hs. unfold stm_load_uint.
    rewrite load_u32_seq by done. by rewrite (bytes_set_le m addr 4 v).
  - destruct (store_u64_seq addr v (stm_load_ulong addr k) m) as (m' & Hs & Hset); try done.
    exists m'. split; [done|]. unfold stm_store_ulong. rewrite Hs. unfold stm_load_ulong.
    rewrite load_u64_seq by (done || apply Hset). by rewrite (bytes_set_le m addr 8 v).
Qed.

(** A signed integer ([char], [short], [int] or [long]) that is stored at any
    address is read back with its sign. *)
Theorem signed_store_load junk addr v k m :
  is_word addr -> is_mem m ->
  (- 2 ^ 7 <= v < 2 ^ 7 -> exists m',
     seq_body (stm_store_char junk addr v (stm_load_char addr k)) m = seq_body (k v) m') /\
  (addr + 2 <= 2 ^ 64 -> - 2 ^ 15 <= v < 2 ^ 15 -> exists m',
     seq_body (stm_store_short junk addr v (stm_load_short addr k)) m = seq_body (k v) m') /\
  (addr + 4 <= 2 ^ 64 -> - 2 ^ 31 <= v < 2 ^ 31 -> exists m',
     seq_body (stm_store_int junk addr v (stm_load_int addr k)) m = seq_body (k v) m') /\
  (addr + 8 <= 2 ^ 64 -> - 2 ^ 63 <= v < 2 ^ 63 -> exists m',
     seq_body (stm_store_long addr v (stm_load_long addr k)) m = seq_body (k v) m').
Proof.
  intros Ha Hm. split_and!; intros.
  - destruct (signed_unsigned 8 v) as [Hsu Hr]; [done..|].
    destruct (store_u8_seq junk addr (unsigned 8 v) (stm_load_char addr k) m) as (m' & Hs & Hset); try done.
    exists m'. unfold stm_store_char. rewrite Hs. unfold stm_load_char. rewrite load_u8_seq by done.
    pose proof (bytes_set_read _ _ _ _ Hset) as Hb. injection Hb as ->.
    replace (part 8 (unsigned 8 v) 0) with (unsigned 8 v); [by rewrite Hsu|].
    unfold part. rewrite Z.shiftr_0_r, land_low by lia. by rewrite Z.mod_small.
  - destruct (signed_unsigned 16 v) as [Hsu Hr]; [done..|].
    destruct (store_u16_seq junk addr (unsigned 16 v) (stm_load_short addr k) m) as (m' & Hs & Hset); try done.
    exists m'. unfold stm_store_short. rewrite Hs. unfold stm_load_short.
    by rewrite load_u16_seq, (bytes_set_le m addr 2 (unsigned 16 v)), Hsu.
  - destruct (signed_unsigned 32 v) as [Hsu Hr]; [done..|].
    destruct (store_u32_seq junk addr (unsigned 32 v) (stm_load_int addr k) m) as (m' & Hs & Hset); try done.
    exists m'. unfold stm_store_int. rewrite Hs. unfold stm_load_int.
    by rewrite load_u32_seq, (bytes_set_le m addr 4 (unsigned 32 v)), Hsu.
  - destruct (signed_unsigned 64 v) as [Hsu Hr]; [done..|].
    destruct (store_u64_seq addr (unsigned 64 v) (stm_load_long addr k) m) as (m' & Hs & Hset); try done.
    exists m'. unfold stm_store_long. rewrite Hs. unfold stm_load_long.
    rewrite load_u64_seq by (done || apply Hset).
    by rewrite (bytes_set_le m addr 8 (unsigned 64 v)), Hsu.
Qed.

(** ** Examples *)

(** Three bytes across the end of a word, read back with their neighbours *)
Lemma bytes_store_load_witness :
  exists m' out, bytes_set (fun _ => 0) 70 [1; 2; 3] m' /\ length out = 5%nat /\
    seq_body (stm_store_bytes 70 [1; 2; 3] (stm_load_bytes 69 5 (fun out => TRet (le out)))) (fun _ => 0) =
      seq_body (TRet (le out)) m' /\
    forall j, (j < 5)%nat ->
      nth j out 0 =
        let a := 69 + Z.of_nat j in
        if decide (70 <= a < 70 + Z.of_nat (length [1; 2; 3])) then nth (Z.to_nat (a - 70)) [1; 2; 3] 0
        else byte_at (fun _ => 0) a.
Proof.
  apply (bytes_store_load 70 [1; 2; 3] 69 5 (fun out => TRet (le out)) (fun _ => 0)); try done.
  repeat constructor; done.
Defined.

Lemma store_bytes_spec_witness :
  (70 + Z.of_nat (length [1; 2; 3]) <= 2 ^ 64 -> Forall is_byte [1; 2; 3] ->
   exists m', seq_body (stm_store_bytes 70 [1; 2; 3] (TRet 0)) (fun _ => 0) = seq_body (TRet 0) m' /\
     bytes_set (fun _ => 0) 70 [1; 2; 3] m') /\
  (70 + Z.of_nat 20 <= 2 ^ 64 -> is_byte 7 ->
   exists m', seq_body (stm_set_bytes 0 70 7 20 (TRet 0)) (fun _ => 0) = seq_body (TRet 0) m' /\
     bytes_set (fun _ => 0) 70 (replicate 20 7) m').
Proof. apply (store_bytes_spec 70 [1; 2; 3] 0 7 20 (TRet 0) (fun _ => 0)); done. Defined.

Lemma unsigned_store_load_witness :
  exists m', bytes_set (fun _ => 0) 71 (to_bytes 4 0xDEADBEEF) m' /\
    seq_body (stm_store_uint 0 71 0xDEADBEEF (stm_load_uint 71 TRet)) (fun _ => 0) =
      seq_body (TRet 0xDEADBEEF) m'.
Proof. apply (unsigned_store_load 0 71 0xDEADBEEF TRet (fun _ => 0)); done. Defined.

Lemma signed_store_load_witness :
  exists m', seq_body (stm_store_short 0 71 (-2) (stm_load_short 71 TRet)) (fun _ => 0) =
    seq_body (TRet (-2)) m'.
Proof. apply (signed_store_load 0 71 (-2) TRet (fun _ => 0)); done. Defined.
