(* ===== verification/Gc.v ===== *)
(** * Epoch-based garbage collection

    tinySTM/src/gc.c, compiled with TLS and periodic cleanup, for the builds with
    EPOCH_GC: the slots of the threads with their epochs and their lists of
    memory to free, as a step relation.  A step is one access to data that
    several threads use ([used], [ts], [nb_active], the clock); what only the
    owner of a slot touches (its regions, [frees]) is part of the step it goes
    with.

    The ghost fields of a block say when its memory was given up: the epoch the
    caller read, and the transactions that were then running, each as (thread,
    number).  The clock is [gc_current_epoch]; it advances at any time. *)
From S2P Require Import Prelude Words.

Definition MAX_GC_THREADS : nat := 1024.

Definition EPOCH_MAX : Z := ones64.

Definition CLEANUP_FREQUENCY : Z := 1.

Definition GC_NULL : Z := 0.
Definition GC_BUSY : Z := 1.
Definition GC_FREE_EMPTY : Z := 2.
Definition GC_FREE_FULL : Z := 3.

(** ** Data *)

(** [gc_block_t]; [b_epoch] and [b_readers] are ghost. *)
Record gc_block := mk_block { b_addr : Z; b_epoch : Z; b_readers : list (nat * nat) }.

(** [gc_region_t] *)
Record gc_region := mk_region { blocks : list gc_block; region_ts : Z }.

(** [gc_thread_t]: the list of regions is [head] to [tail]. *)
Record gc_thread := mk_gc_thread { used : Z; ts : Z; regions : list gc_region; frees : Z }.
#[export] Instance eta_gc_thread : Eta gc_thread := fun s =>
  mk_gc_thread (used s) (ts s) (regions s) (frees s).

(** ** What the owner of a slot does to its regions *)

Definition region_blocks (l : list gc_region) : list gc_block := concat (blocks <$> l).

(** [gc_cleanup_thread]: the regions that stay, and the blocks freed *)
Fixpoint gc_cleanup_thread (min : Z) (l : list gc_region) : list gc_region * list gc_block :=
  match l with
  | [] => ([], [])
  | mr :: l' =>
      if region_ts mr <? min
      then let '(r, f) := gc_cleanup_thread min l' in (r, blocks mr ++ f)
      else (l, [])
  end.

(** The part of [gc_free] before the cleanup *)
Definition gc_add_block (mb : gc_block) (epoch : Z) (sl : gc_thread) : gc_thread :=
  (match regions sl with
   | [] => sl <| regions := [mk_region [mb] epoch] |>
   | mr :: l =>
       if region_ts mr <? epoch then sl <| regions := (mr :: l) ++ [mk_region [mb] epoch] |>
       else sl <| regions := mk_region (mb :: blocks mr) (region_ts mr) :: l |>
   end) <| frees := (frees sl + 1) mod 2 ^ 32 |>.

(** The status a slot is given when it is released *)
Definition gc_released (sl : gc_thread) : Z :=
  match regions sl with [] => GC_FREE_EMPTY | _ => GC_FREE_FULL end.

Definition next_slot (i : nat) : nat := if (S i <? MAX_GC_THREADS)%nat then S i else O.

(** ** State *)

(** Where a thread is in [gc_compute_min]: about to load [used] or [ts] of slot [j],
    or at the end *)
Inductive scan := Look (j : nat) (min : Z) | Load (j : nat) (min : Z) | Done (min : Z).

(** Where a thread is *)
Inductive pc :=
| Out                                      (* not initialised, or after gc_exit_thread *)
| Failed                                   (* exit(1): too many threads *)
| Broken                                   (* an assertion failed *)
| Init (i : nat)                           (* gc_init_thread: about to load slots[i].used *)
| Claim (i : nat) (u : Z)                  (* about to try the CAS *)
| Claimed (i : nat)                        (* about to read the current epoch *)
| First (i : nat) (e : Z)                  (* about to store it *)
| Idle (i : nat)
| Starting (i : nat) (s : Z)               (* stm_prepare has read the clock *)
| Running (i : nat) (s : Z)                (* after gc_set_epoch *)
| Freeing (i : nat) (e : Z) (rd : list (nat * nat)) (l : list Z)
                                           (* about to gc_free the addresses l at epoch e *)
| Scan (i : nat) (c : scan) (e : Z) (rd : list (nat * nat)) (l : list Z)
                                           (* the same, in gc_cleanup *)
| Leaving (i : nat)                        (* gc_exit_thread: about to release the slot *)
| Left                                     (* about to decrement nb_active *)
| All (i : nat) (min : Z)                  (* gc_cleanup_all, about to look at slot i *)
| All_own (i : nat) (min : Z)              (* has claimed slot i *)
| All_scan (i : nat) (c : scan)            (* the same, in gc_compute_min *)
| All_clean (i : nat) (min : Z).           (* about to clean and release slot i *)

Record gc := mk_gc {
  slots : nat -> gc_thread; nb_active : Z; epoch : Z;
  pcs : nat -> pc; txn : nat -> nat;       (* the number of each thread's transaction *)
  given : list gc_block; freed : list gc_block }.
#[export] Instance eta_gc : Eta gc := fun s =>
  mk_gc (slots s) (nb_active s) (epoch s) (pcs s) (txn s) (given s) (freed s).

Definition gc_init : gc :=
  mk_gc (fun _ => mk_gc_thread GC_NULL EPOCH_MAX [] 0) 0 0 (fun _ => Out) (fun _ => O) [] [].

Definition set_pc (t : nat) (p : pc) (s : gc) : gc :=
  s <| pcs := fun u => if decide (u = t) then p else pcs s u |>.

Definition set_slot (i : nat) (sl : gc_thread) (s : gc) : gc :=
  s <| slots := fun j => if decide (j = i) then sl else slots s j |>.

Definition set_used (i : nat) (u : Z) (s : gc) : gc := set_slot i (slots s i <| used := u |>) s.

Definition set_ts (i : nat) (e : Z) (s : gc) : gc := set_slot i (slots s i <| ts := e |>) s.

(** [gc_set_epoch]: an epoch that is too large is not stored. *)
Definition gc_set_epoch (i : nat) (e : Z) (s : gc) : gc :=
  if EPOCH_MAX <=? e then s else set_ts i e s.

(** [gc_cleanup_thread] on the slot with index [i] *)
Definition clean_slot (i : nat) (min : Z) (s : gc) : gc :=
  let '(r, f) := gc_cleanup_thread min (regions (slots s i)) in
  (set_slot i (slots s i <| regions := r |>) s) <| freed := f ++ freed s |>.

Definition add_block (i : nat) (mb : gc_block) (e : Z) (s : gc) : gc :=
  (set_slot i (gc_add_block mb e (slots s i)) s) <| given := mb :: given s |>.

(** The loop of [gc_reset] from slot [i], [n] slots at most *)
Fixpoint gc_reset_from (n i : nat) (s : gc) : gc :=
  match n with
  | O => s
  | S n =>
      if used (slots s i) =? GC_NULL then s
      else
        gc_reset_from n (S i)
          ((set_slot i (mk_gc_thread (used (slots s i)) EPOCH_MAX [] 0) s)
             <| freed := region_blocks (regions (slots s i)) ++ freed s |>)
  end.

(** Called by [rollover_clock], which sets the clock to 0. *)
Definition gc_reset (s : gc) : gc := gc_reset_from MAX_GC_THREADS O s <| epoch := 0 |>.

(** [gc_exit]: the blocks it frees; [None] is exit(1). *)
Definition gc_exit (s : gc) : option (list gc_block) :=
  if negb (nb_active s =? 0) then None
  else Some (concat ((fun i => region_blocks (regions (slots s i))) <$> seq 0 MAX_GC_THREADS)).

(** Stopped and out of transactions, as [gc_reset] demands of all threads *)
Definition stopped (p : pc) : Prop :=
  match p with Out | Failed | Idle _ => True | _ => False end.

(** The next step of [gc_compute_min] *)
Definition scan_step (s : gc) (c : scan) : scan :=
  match c with
  | Look j min =>
      if (j <? MAX_GC_THREADS)%nat then
        if used (slots s j) =? GC_NULL then Done min
        else if negb (used (slots s j) =? GC_BUSY) then Look (S j) min
        else Load j min
      else Done min
  | Load j min => Look (S j) (if ts (slots s j) <? min then ts (slots s j) else min)
  | Done min => Done min
  end.

(** ** Steps *)

Inductive gc_step : gc -> gc -> Prop :=
| s_tick s : epoch s + 1 < EPOCH_MAX -> gc_step s (s <| epoch := epoch s + 1 |>)
(* gc_init_thread *)
| s_enter t s :
    pcs s t = Out ->
    gc_step s (set_pc t (if Z.of_nat MAX_GC_THREADS <=? nb_active s then Failed else Init 0)
                 (s <| nb_active := nb_active s + 1 |>))
| s_look t i s :
    pcs s t = Init i ->
    gc_step s (set_pc t (if used (slots s i) =? GC_BUSY then Init (next_slot i)
                         else Claim i (used (slots s i))) s)
| s_claim t i u s :
    pcs s t = Claim i u ->
    gc_step s
      (if used (slots s i) =? u then set_pc t (Claimed i) (set_used i GC_BUSY s)
       else set_pc t (if used (slots s i) =? GC_NULL then Broken else Init (next_slot i)) s)
| s_claimed t i s : pcs s t = Claimed i -> gc_step s (set_pc t (First i (epoch s)) s)
| s_first t i e s :
    pcs s t = First i e -> gc_step s (set_pc t (Idle i) (set_ts i e s))
(* transactions *)
| s_start t i s : pcs s t = Idle i -> gc_step s (set_pc t (Starting i (epoch s)) s)
| s_epoch t i e s :
    pcs s t = Starting i e ->
    gc_step s (set_pc t (Running i e)
      ((gc_set_epoch i e s) <| txn := fun u => if decide (u = t) then S (txn s u) else txn s u |>))
| s_end t i e s : pcs s t = Running i e -> gc_step s (set_pc t (Idle i) s)
(* gc_free and gc_cleanup; the caller gives up l at the current epoch *)
| s_give t i rd l s :
    pcs s t = Idle i ->
    (forall u n, (u, n) ∈ rd <-> n = txn s u /\ exists j e, pcs s u = Running j e) ->
    gc_step s (set_pc t (Freeing i (epoch s) rd l) s)
| s_free t i e rd a l s :
    pcs s t = Freeing i e rd (a :: l) ->
    let s' := add_block i (mk_block a e rd) e s in
    gc_step s (set_pc t (if frees (slots s' i) mod CLEANUP_FREQUENCY =? 0
                         then Scan i (Look 0 (epoch s)) e rd l else Freeing i e rd l) s')
| s_scan t i c e rd l s :
    pcs s t = Scan i c e rd l -> gc_step s (set_pc t (Scan i (scan_step s c) e rd l) s)
| s_clean t i min e rd l s :
    pcs s t = Scan i (Done min) e rd l ->
    gc_step s (set_pc t (Freeing i e rd l) (clean_slot i min s))
| s_given t i e rd s : pcs s t = Freeing i e rd [] -> gc_step s (set_pc t (Idle i) s)
(* gc_exit_thread *)
| s_leave t i s : pcs s t = Idle i -> gc_step s (set_pc t (Leaving i) (set_ts i EPOCH_MAX s))
| s_release t i s :
    pcs s t = Leaving i -> gc_step s (set_pc t Left (set_used i (gc_released (slots s i)) s))
| s_left t s :
    pcs s t = Left -> gc_step s (set_pc t Out (s <| nb_active := nb_active s - 1 |>))
(* gc_cleanup_all, called by a thread that has no slot *)
| s_all t s : pcs s t = Out -> gc_step s (set_pc t (All 0 EPOCH_MAX) s)
| s_all_slot t i min s :
    pcs s t = All i min -> (i < MAX_GC_THREADS)%nat ->
    gc_step s
      (if used (slots s i) =? GC_NULL then set_pc t Out s
       else if used (slots s i) =? GC_FREE_FULL
       then set_pc t (All_own i min) (set_used i GC_BUSY s)
       else set_pc t (All (S i) min) s)
| s_all_own t i min s :
    pcs s t = All_own i min ->
    gc_step s (set_pc t (if min =? EPOCH_MAX then All_scan i (Look 0 (epoch s)) else All_clean i min) s)
| s_all_scan t i c s :
    pcs s t = All_scan i c -> gc_step s (set_pc t (All_scan i (scan_step s c)) s)
| s_all_scanned t i min s :
    pcs s t = All_scan i (Done min) -> gc_step s (set_pc t (All_clean i min) s)
| s_all_clean t i min s :
    pcs s t = All_clean i min ->
    let s' := clean_slot i min s in
    gc_step s (set_pc t (All (S i) min) (set_used i (gc_released (slots s' i)) s'))
| s_all_done t min s : pcs s t = All MAX_GC_THREADS min -> gc_step s (set_pc t Out s)
(* the roll-over of the clock *)
| s_reset s : (forall t, stopped (pcs s t)) -> gc_step s (gc_reset s).

Definition gc_reachable (s : gc) : Prop := rtc gc_step gc_init s.

(** ** Slots and their owners *)

Definition owner (p : pc) : option nat :=
  match p with
  | Claimed i | First i _ | Idle i | Starting i _ | Running i _ | Freeing i _ _ _
  | Scan i _ _ _ _ | Leaving i | All_own i _ | All_scan i _ | All_clean i _ => Some i
  | _ => None
  end.

(** What the place of a thread says about the slots *)
Definition place_ok (sl : nat -> gc_thread) (p : pc) : Prop :=
  match p with
  | Broken => False
  | Init i => (i < MAX_GC_THREADS)%nat /\ forall j, (j < i)%nat -> used (sl j) <> GC_NULL
  | Claim i u =>
      (i < MAX_GC_THREADS)%nat /\ u <> GC_BUSY /\ (u <> GC_NULL -> used (sl i) <> GC_NULL) /\
      forall j, (j < i)%nat -> used (sl j) <> GC_NULL
  | _ => forall i, owner p = Some i -> (i < MAX_GC_THREADS)%nat /\ used (sl i) = GC_BUSY
  end.

Record slots_inv (s : gc) : Prop := {
  si_place : forall t, place_ok (slots s) (pcs s t);
  si_owner : forall t u i, owner (pcs s t) = Some i -> owner (pcs s u) = Some i -> t = u;
  si_prefix : forall i j, used (slots s i) = GC_NULL -> (i <= j)%nat -> used (slots s j) = GC_NULL;
  si_null : forall i, used (slots s i) = GC_NULL -> regions (slots s i) = [];
  si_far : forall i, (MAX_GC_THREADS <= i)%nat -> used (slots s i) = GC_NULL }.

Lemma pcs_set t p s u : pcs (set_pc t p s) u = if decide (u = t) then p else pcs s u.
Proof. done. Qed.

Lemma owner_busy s t i :
  slots_inv s -> owner (pcs s t) = Some i -> (i < MAX_GC_THREADS)%nat /\ used (slots s i) = GC_BUSY.
Proof.
  intros HI Ho. pose proof (si_place _ HI t) as Hp.
  destruct (pcs s t) eqn:Hpc; simpl in Ho; try done; simplify_eq; by apply Hp.
Qed.

Lemma place_used sl sl' p :
  (forall j, used (sl' j) = used (sl j)) -> place_ok sl p -> place_ok sl' p.
Proof.
  intros Hu. destruct p; simpl; try done; intros H; try (intros j Hj; rewrite Hu; by apply H).
  - destruct H as [? Hl]. split; [done|]. intros j Hj. rewrite Hu. by apply Hl.
  - destruct H as (? & ? & Hu0 & Hl). rewrite Hu. split_and!; try done. intros j Hj. rewrite Hu. by apply Hl.
Qed.

(** A thread moves to [p] while the slots become [sl]. *)
Lemma slots_move s s' t p :
  slots_inv s -> pcs s' = pcs (set_pc t p s) ->
  (forall i, used (slots s i) <> GC_NULL -> used (slots s' i) <> GC_NULL) ->
  (forall i, used (slots s i) = GC_BUSY -> owner (pcs s t) <> Some i -> used (slots s' i) = GC_BUSY) ->
  place_ok (slots s') p ->
  (forall i, owner p = Some i -> owner (pcs s t) = Some i \/ used (slots s i) <> GC_BUSY) ->
  (forall i j, used (slots s' i) = GC_NULL -> (i <= j)%nat -> used (slots s' j) = GC_NULL) ->
  (forall i, used (slots s' i) = GC_NULL -> regions (slots s' i) = []) ->
  (forall i, (MAX_GC_THREADS <= i)%nat -> used (slots s' i) = GC_NULL) ->
  slots_inv s'.
Proof.
  intros HI Hpcs Hnull Hbusy Hp Hown Hpre Hreg Hfar. constructor; rewrite ?Hpcs; try done.
  - intros u. rewrite pcs_set. case_decide as Hu; [done|].
    pose proof (si_place _ HI u) as Hpu.
    assert (Hkeep : forall i, owner (pcs s u) = Some i ->
      (i < MAX_GC_THREADS)%nat /\ used (slots s' i) = GC_BUSY).
    { intros i Ho. pose proof (owner_busy s u i HI Ho) as [? ?]. split; [done|].
      apply Hbusy; [done|]. intros Ht. apply Hu. by apply (si_owner _ HI u t i). }
    destruct (pcs s u) eqn:Hpc; simpl in *; try done; try (intros ? [=]; subst; by apply Hkeep).
    + destruct Hpu as [? Hl]. split; [done|]. intros j Hj. apply Hnull. by apply Hl.
    + destruct Hpu as (? & ? & Hu0 & Hl). split_and!; try done; intros; apply Hnull; auto.
  - intros u v i. rewrite !pcs_set. repeat case_decide; subst; intros Ho1 Ho2; try done.
    + destruct (Hown i Ho1) as [Ht|Hb]; [by apply (si_owner _ HI _ _ i)|].
      by destruct Hb; apply (owner_busy s v).
    + destruct (Hown i Ho2) as [Ht|Hb]; [by apply (si_owner _ HI _ _ i)|].
      by destruct Hb; apply (owner_busy s u).
    + by apply (si_owner _ HI _ _ i).
Qed.

(** The same, when no [used] changes *)
Lemma slots_stay s s' t p :
  slots_inv s -> pcs s' = pcs (set_pc t p s) ->
  (forall i, used (slots s' i) = used (slots s i)) ->
  (forall i, used (slots s i) = GC_NULL -> regions (slots s' i) = regions (slots s i)) ->
  place_ok (slots s') p -> (forall i, owner p = Some i -> owner (pcs s t) = Some i) ->
  slots_inv s'.
Proof.
  intros HI Hpcs Hu Hr Hp Ho. apply (slots_move s s' t p); try done.
  - intros i. by rewrite Hu.
  - intros i. by rewrite Hu.
  - intros i Hi. left. auto.
  - intros i j. rewrite !Hu. apply HI.
  - intros i. rewrite Hu. intros Hi. rewrite Hr by done. by apply HI.
  - intros i. rewrite Hu. apply (si_far _ HI).
Qed.

Lemma next_slot_lt i : (next_slot i < MAX_GC_THREADS)%nat.
Proof.
  unfold next_slot. destruct (Nat.ltb_spec (S i) MAX_GC_THREADS); [done|]. unfold MAX_GC_THREADS. lia.
Qed.

(** A slot that is not NULL ends the set of the slots looked at so far. *)
Lemma next_seen (sl : nat -> gc_thread) i :
  used (sl i) <> GC_NULL -> (forall j, (j < i)%nat -> used (sl j) <> GC_NULL) ->
  forall j, (j < next_slot i)%nat -> used (sl j) <> GC_NULL.
Proof.
  intros Hi Hl j. unfold next_slot. destruct (Nat.ltb_spec (S i) MAX_GC_THREADS); [|lia].
  intros Hj. destruct (Nat.eq_dec j i) as [->|]; [done|]. apply Hl. lia.
Qed.

Lemma slot_set i sl s j : slots (set_slot i sl s) j = if decide (j = i) then sl else slots s j.
Proof. done. Qed.

Lemma used_set i u s j : used (slots (set_used i u s) j) = if decide (j = i) then u else used (slots s j).
Proof. unfold set_used. rewrite slot_set. by case_decide. Qed.

Lemma regions_used i u s j : regions (slots (set_used i u s) j) = regions (slots s j).
Proof. unfold set_used. rewrite slot_set. case_decide; by subst. Qed.

Lemma used_ts i e s j : used (slots (set_ts i e s) j) = used (slots s j).
Proof. unfold set_ts. rewrite slot_set. case_decide; by subst. Qed.

Lemma regions_ts i e s j : regions (slots (set_ts i e s) j) = regions (slots s j).
Proof. unfold set_ts. rewrite slot_set. case_decide; by subst. Qed.

Lemma clean_slots i min s j :
  slots (clean_slot i min s) j =
    if decide (j = i) then slots s i <| regions := (gc_cleanup_thread min (regions (slots s i))).1 |>
    else slots s j.
Proof. unfold clean_slot. by destruct (gc_cleanup_thread min (regions (slots s i))). Qed.

Lemma used_clean i min s j : used (slots (clean_slot i min s) j) = used (slots s j).
Proof. rewrite clean_slots. case_decide; by subst. Qed.

Lemma pcs_clean i min s : pcs (clean_slot i min s) = pcs s.
Proof. unfold clean_slot. by destruct (gc_cleanup_thread min (regions (slots s i))). Qed.

Lemma used_add mb e sl : used (gc_add_block mb e sl) = used sl.
Proof. unfold gc_add_block. destruct (regions sl) as [|mr l]; [done|]. by destruct (region_ts mr <? e). Qed.

Lemma released_not sl : gc_released sl <> GC_NULL /\ gc_released sl <> GC_BUSY.
Proof. unfold gc_released. by destruct (regions sl). Qed.

(** Giving a slot a status other than NULL *)
Lemma prefix_used i u s :
  slots_inv s -> used (slots s i) <> GC_NULL -> u <> GC_NULL ->
  (forall j k, used (slots (set_used i u s) j) = GC_NULL -> (j <= k)%nat ->
     used (slots (set_used i u s) k) = GC_NULL) /\
  (forall j, used (slots (set_used i u s) j) = GC_NULL -> regions (slots (set_used i u s) j) = []).
Proof.
  intros HI Hi Hu. split.
  - intros j k. rewrite !used_set. repeat case_decide; subst; try done; intros Hj Hle.
    + destruct Hi. by apply (si_prefix _ HI j).
    + by apply (si_prefix _ HI j).
  - intros j. rewrite used_set, regions_used. case_decide; [done|]. apply HI.
Qed.

(** Steps that change no [used] *)
Lemma place_same s sl t p :
  slots_inv s -> (forall i, used (sl i) = used (slots s i)) ->
  (forall i, owner p = Some i -> owner (pcs s t) = Some i) -> p <> Broken ->
  (forall i, p <> Init i) -> (forall i u, p <> Claim i u) -> place_ok sl p.
Proof.
  intros HI Hu Ho Hb Hi Hc.
  assert (Hgen : forall i, owner p = Some i -> (i < MAX_GC_THREADS)%nat /\ used (sl i) = GC_BUSY).
  { intros i Hp. rewrite Hu. by apply (owner_busy s t i HI), Ho. }
  destruct p; try done; try (by destruct (Hi _ eq_refl)); try (by destruct (Hc _ _ eq_refl)); exact Hgen.
Qed.

Lemma step_slots_simple s s1 t p :
  slots_inv s -> pcs s1 = pcs s -> (forall i, used (slots s1 i) = used (slots s i)) ->
  (forall i, used (slots s i) = GC_NULL -> regions (slots s1 i) = regions (slots s i)) ->
  (forall i, owner p = Some i -> owner (pcs s t) = Some i) -> p <> Broken ->
  (forall i, p <> Init i) -> (forall i u, p <> Claim i u) ->
  slots_inv (set_pc t p s1).
Proof.
  intros HI Hpcs Hu Hr Ho Hb Hi Hc. apply (slots_stay s _ t p HI); try done.
  - unfold set_pc. simpl. by rewrite Hpcs.
  - by apply (place_same s _ t).
Qed.

Lemma scan_owner_regions s t i :
  slots_inv s -> owner (pcs s t) = Some i -> used (slots s i) <> GC_NULL.
Proof. intros HI Ho. by destruct (owner_busy s t i HI Ho) as [_ ->]. Qed.

Lemma step_slots_used s s1 t p i u :
  slots_inv s -> pcs s1 = pcs s -> slots s1 = slots (set_used i u s) ->
  used (slots s i) <> GC_NULL -> u <> GC_NULL ->
  (used (slots s i) = GC_BUSY -> owner (pcs s t) = Some i) -> p <> Broken ->
  (forall j, p <> Init j) -> (forall j v, p <> Claim j v) ->
  (forall j, owner p = Some j -> j = i /\ u = GC_BUSY /\ (j < MAX_GC_THREADS)%nat) ->
  slots_inv (set_pc t p s1).
Proof.
  intros HI Hpcs Hs Hi Hu Hb Hbr Hin Hcl Ho.
  assert (Hlt : (i < MAX_GC_THREADS)%nat).
  { destruct (Nat.lt_ge_cases i MAX_GC_THREADS) as [|Hge]; [done|]. by destruct Hi; apply (si_far _ HI). }
  destruct (prefix_used i u s HI Hi Hu) as [Hpre Hreg].
  apply (slots_move s _ t p HI).
  - unfold set_pc. simpl. by rewrite Hpcs.
  - intros j Hj. change (slots (set_pc t p s1)) with (slots s1). rewrite Hs, used_set. by case_decide.
  - intros j Hj Hne. change (slots (set_pc t p s1)) with (slots s1). rewrite Hs, used_set.
    case_decide as Hji; [|done]. subst. by destruct Hne; apply Hb.
  - change (slots (set_pc t p s1)) with (slots s1). rewrite Hs.
    assert (Hgen : forall j, owner p = Some j -> (j < MAX_GC_THREADS)%nat /\
      used (slots (set_used i u s) j) = GC_BUSY).
    { intros j Hj. destruct (Ho j Hj) as (-> & -> & ?). rewrite used_set, decide_True by done. done. }
    destruct p; try done; try (by destruct (Hin _ eq_refl)); try (by destruct (Hcl _ _ eq_refl)); exact Hgen.
  - intros j Hj. destruct (Ho j Hj) as (-> & -> & ?).
    destruct (decide (used (slots s i) = GC_BUSY)); [left; auto|by right].
  - change (slots (set_pc t p s1)) with (slots s1). by rewrite Hs.
  - change (slots (set_pc t p s1)) with (slots s1). by rewrite Hs.
  - intros j Hj. change (slots (set_pc t p s1)) with (slots s1). rewrite Hs, used_set.
    rewrite decide_False by lia. by apply (si_far _ HI).
Qed.

(** What [gc_reset] leaves as it was, and what it clears *)
Lemma reset_from_spec n i s :
  let s' := gc_reset_from n i s in
  pcs s' = pcs s /\ txn s' = txn s /\ nb_active s' = nb_active s /\ given s' = given s /\
  (forall j, used (slots s' j) = used (slots s j)) /\
  (forall j, regions (slots s' j) = regions (slots s j) \/ regions (slots s' j) = []) /\
  (forall j, (i <= j < i + n)%nat -> (forall k, (i <= k <= j)%nat -> used (slots s k) <> GC_NULL) ->
     regions (slots s' j) = []).
Proof.
  revert i s. induction n as [|n IH]; intros i s; cbv zeta; cbn [gc_reset_from].
  - split_and!; try done; [by left|lia].
  - destruct (Z.eqb_spec (used (slots s i)) GC_NULL) as [Hn|Hn].
    + split_and!; try done; [by left|]. intros j Hj Hk. destruct (Hk i); [lia|done].
    + match goal with |- context [gc_reset_from n (S i) ?x] =>
        set (s1 := x); destruct (IH (S i) s1) as (H1 & H2 & H3 & H4 & H5 & H6 & H7) end.
      cbv zeta in *. rewrite H1, H2, H3, H4.
      assert (Hu : forall j, used (slots s1 j) = used (slots s j)).
      { intros j. unfold s1. simpl. case_decide; by subst. }
      split_and!; try done.
      * intros j. by rewrite H5.
      * intros j. destruct (H6 j) as [->|]; [|by right]. unfold s1. simpl. case_decide; [by right|by left].
      * intros j Hj Hk. destruct (decide (j = i)) as [->|Hne].
        -- destruct (H6 i) as [->|]; [|done]. unfold s1. simpl. by rewrite decide_True.
        -- apply H7; [lia|]. intros k Hk'. rewrite Hu. apply Hk. lia.
Qed.

Lemma reset_spec s :
  let s' := gc_reset s in
  pcs s' = pcs s /\ txn s' = txn s /\ nb_active s' = nb_active s /\ given s' = given s /\
  (forall j, used (slots s' j) = used (slots s j)) /\
  (forall j, regions (slots s' j) = regions (slots s j) \/ regions (slots s' j) = []) /\
  (forall j, (j < MAX_GC_THREADS)%nat -> (forall k, (k <= j)%nat -> used (slots s k) <> GC_NULL) ->
     regions (slots s' j) = []) /\ epoch s' = 0.
Proof.
  unfold gc_reset. pose proof (reset_from_spec MAX_GC_THREADS 0 s) as H. revert H.
  generalize (gc_reset_from MAX_GC_THREADS 0 s). intros s0 (H1 & H2 & H3 & H4 & H5 & H6 & H7). cbv zeta.
  split_and!; try done. intros j Hj Hk. apply H7; [lia|]. intros k Hk'. apply Hk. lia.
Qed.

Lemma step_slots s s' : slots_inv s -> gc_step s s' -> slots_inv s'.
Proof.
  intros HI Hs. destruct Hs as [s Ht|t s Hp|t i s Hp|t i u s Hp|t i s Hp|t i e s Hp|t i s Hp|t i e s Hp
    |t i e s Hp|t i rd l s Hp Hrd|t i e rd a l s Hp s1|t i c e rd l s Hp|t i min e rd l s Hp|t i e rd s Hp
    |t i s Hp|t i s Hp|t s Hp|t s Hp|t i min s Hp Hi|t i min s Hp|t i c s Hp|t i min s Hp|t i min s Hp s1
    |t min s Hp|s Hst];
    try (apply (step_slots_simple s); try done; rewrite Hp; by simpl).
  - by destruct HI.
  - eapply (slots_stay s _ t _ HI); [reflexivity|..]; try done; destruct (_ <=? _); try done.
    split; [unfold MAX_GC_THREADS; lia|]. lia.
  - pose proof (si_place _ HI t) as Hpl. rewrite Hp in Hpl. destruct Hpl as [Hi Hl].
    destruct (Z.eqb_spec (used (slots s i)) GC_BUSY) as [Hb|Hb]; eapply (slots_stay s _ t _ HI); [reflexivity|..]; try done.
    split; [apply next_slot_lt|]. apply (next_seen (slots s)); [by rewrite Hb|done].
  - pose proof (si_place _ HI t) as Hpl. rewrite Hp in Hpl. destruct Hpl as (Hi & Hu & Hu0 & Hl).
    destruct (Z.eqb_spec (used (slots s i)) u) as [Heq|Hne].
    + eapply (slots_move s _ t _ HI); [reflexivity|..]; try done.
      * intros j Hj. change (slots _) with (slots (set_used i GC_BUSY s)). rewrite used_set. by case_decide.
      * intros j Hj _. change (slots _) with (slots (set_used i GC_BUSY s)). rewrite used_set. by case_decide.
      * intros j [= <-]. split; [done|]. change (slots _) with (slots (set_used i GC_BUSY s)).
        rewrite used_set. by rewrite decide_True.
      * intros j [= <-]. right. congruence.
      * intros j k. change (slots _) with (slots (set_used i GC_BUSY s)). rewrite !used_set.
        repeat case_decide; subst; try done; intros Hj Hle.
        -- destruct (Nat.eq_dec j i); [done|]. destruct (Hl j); [lia|done].
        -- by apply (si_prefix _ HI j).
      * intros j. change (slots _) with (slots (set_used i GC_BUSY s)). rewrite used_set, regions_used.
        case_decide; [done|]. apply HI.
      * intros j Hj. change (slots _) with (slots (set_used i GC_BUSY s)). rewrite used_set.
        rewrite decide_False by lia. by apply (si_far _ HI).
    + assert (Hnn : used (slots s i) <> GC_NULL).
      { destruct (decide (u = GC_NULL)) as [->|]; [done|auto]. }
      destruct (Z.eqb_spec (used (slots s i)) GC_NULL); [done|].
      eapply (slots_stay s _ t _ HI); [reflexivity|..]; try done. split; [apply next_slot_lt|]. by apply (next_seen (slots s)).
  - apply (step_slots_simple s); try done; [intros j; apply used_ts|intros; apply regions_ts|by rewrite Hp].
  - apply (step_slots_simple s); try done; [| | |by rewrite Hp].
    + simpl. unfold gc_set_epoch. by destruct (_ <=? _).
    + intros j. simpl. unfold gc_set_epoch. destruct (_ <=? _); [done|apply used_ts].
    + intros j _. simpl. unfold gc_set_epoch. destruct (_ <=? _); [done|apply regions_ts].
  - pose proof (scan_owner_regions s t i HI) as Hn. rewrite Hp in Hn. specialize (Hn eq_refl).
    apply (step_slots_simple s); try done.
    + intros j. simpl. case_decide; subst; [apply used_add|done].
    + intros j Hj. simpl. case_decide; subst; [done|done].
    + rewrite Hp. by destruct (_ =? _).
    + by destruct (_ =? _).
    + by destruct (_ =? _).
    + by destruct (_ =? _).
  - pose proof (scan_owner_regions s t i HI) as Hn. rewrite Hp in Hn. specialize (Hn eq_refl).
    apply (step_slots_simple s); try done; [by rewrite pcs_clean|intros j; apply used_clean| |by rewrite Hp].
    intros j Hj. rewrite clean_slots. case_decide; subst; [done|done].
  - apply (step_slots_simple s); try done; [intros j; apply used_ts|intros; apply regions_ts|by rewrite Hp].
  - pose proof (scan_owner_regions s t i HI) as Hn. rewrite Hp in Hn. specialize (Hn eq_refl).
    eapply (step_slots_used s _ t _ i (gc_released (slots s i)) HI); try done; [apply released_not|by rewrite Hp].
  - destruct (Z.eqb_spec (used (slots s i)) GC_NULL) as [Hn|Hn];
      [apply (step_slots_simple s); try done; by rewrite Hp|].
    destruct (Z.eqb_spec (used (slots s i)) GC_FREE_FULL) as [Hf|Hf];
      [|apply (step_slots_simple s); try done; by rewrite Hp].
    eapply (step_slots_used s _ t _ i GC_BUSY HI); try done; [by rewrite Hf|].
    by intros j [= <-].
  - apply (step_slots_simple s); try done; try (by destruct (_ =? _)). rewrite Hp. by destruct (_ =? _).
  - pose proof (scan_owner_regions s t i HI) as Hn. rewrite Hp in Hn. specialize (Hn eq_refl).
    assert (HI1 : slots_inv s1).
    { unfold s1. destruct (owner_busy s t i HI) as [Hlt Hb]; [by rewrite Hp|].
      constructor; rewrite ?pcs_clean.
      - intros u. apply (place_used (slots s)); [intros; apply used_clean|apply HI].
      - apply HI.
      - intros j k. rewrite !used_clean. apply HI.
      - intros j. rewrite used_clean, clean_slots. intros Hj. case_decide; [by subst|by apply HI].
      - intros j. rewrite used_clean. apply (si_far _ HI). }
    eapply (step_slots_used s1 _ t _ i (gc_released (slots s1 i)) HI1); try done.
    + unfold s1. by rewrite used_clean.
    + apply released_not.
    + unfold s1. by rewrite pcs_clean, Hp.
  - destruct (reset_spec s) as (H1 & H2 & H3 & H4 & H5 & H6 & H7 & H8).
    revert H1 H2 H3 H4 H5 H6 H7 H8. generalize (gc_reset s). intros s' H1 H2 H3 H4 H5 H6 H7 H8.
    constructor; rewrite ?H1.
    + intros u. apply (place_used (slots s)); [done|apply HI].
    + apply HI.
    + intros i j. rewrite !H5. apply HI.
    + intros i. rewrite H5. intros Hi. destruct (H6 i) as [->|]; [by apply HI|done].
    + intros i. rewrite H5. apply (si_far _ HI).
Qed.

(** ** Epochs *)

(** Transaction [n] of thread [u] runs, with slot [i] and start [e]. *)
Definition runs (s : gc) (u n i : nat) (e : Z) : Prop := pcs s u = Running i e /\ txn s u = n.

Definition pending (p : pc) : option (Z * list (nat * nat)) :=
  match p with Freeing _ e rd _ | Scan _ _ e rd _ => Some (e, rd) | _ => None end.

(** An epoch at which memory was, or is about to be, given up, and the
    transactions that ran then *)
Definition handle (s : gc) (e : Z) (rd : list (nat * nat)) : Prop :=
  (exists t, pending (pcs s t) = Some (e, rd)) \/
  (exists i b, b ∈ region_blocks (regions (slots s i)) /\ b_epoch b = e /\ b_readers b = rd).

Definition handle_ok (s : gc) (e : Z) (rd : list (nat * nat)) : Prop :=
  e <= epoch s /\
  forall u n, (u, n) ∈ rd -> (n <= txn s u)%nat /\ forall i e', runs s u n i e' -> e' <= e.

(** What [gc_compute_min] knows once it has passed the slots below [j] *)
Definition scan_ok (s : gc) (j : nat) (min : Z) : Prop :=
  min <= epoch s /\
  forall e rd u n i e', handle s e rd -> (u, n) ∈ rd -> runs s u n i e' -> (i < j)%nat -> min <= e.

Definition scan_at (c : scan) : nat * Z :=
  match c with Look j min | Load j min => (j, min) | Done min => (MAX_GC_THREADS, min) end.

Definition scanning (p : pc) : option (nat * Z) :=
  match p with
  | Scan _ c _ _ _ | All_scan _ c => Some (scan_at c)
  | All _ min | All_own _ min => if min =? EPOCH_MAX then None else Some (MAX_GC_THREADS, min)
  | All_clean _ min => Some (MAX_GC_THREADS, min)
  | _ => None
  end.

Record epoch_inv (s : gc) : Prop := {
  ei_range : 0 <= epoch s < EPOCH_MAX;
  ei_start : forall t i e, pcs s t = Starting i e -> e <= epoch s;
  ei_run : forall t i e, pcs s t = Running i e -> ts (slots s i) <= e <= epoch s;
  ei_handle : forall e rd, handle s e rd -> handle_ok s e rd;
  ei_scan : forall t j min, scanning (pcs s t) = Some (j, min) -> scan_ok s j min;
  ei_region : forall i mr b, mr ∈ regions (slots s i) -> b ∈ blocks mr -> b_epoch b <= region_ts mr }.

(** Everything but the roll-over: time advances, transactions get new numbers, and
    new handles are at the current epoch. *)
Record later (s s' : gc) : Prop := {
  la_epoch : epoch s <= epoch s';
  la_txn : forall u, (txn s u <= txn s' u)%nat;
  la_runs : forall u n i e, runs s' u n i e -> runs s u n i e \/ (txn s u < n)%nat;
  la_handle : forall e rd, handle s' e rd ->
    handle s e rd \/ (e = epoch s' /\ forall u n, (u, n) ∈ rd -> n = txn s' u) }.

Lemma later_handle s s' e rd :
  epoch_inv s -> later s s' -> (forall t i e, pcs s' t = Running i e -> e <= epoch s') ->
  handle s' e rd -> handle_ok s' e rd.
Proof.
  intros HI [He Ht Hr Hh] Hrun Hs. destruct (Hh e rd Hs) as [Ho|[-> Hn]].
  - destruct (ei_handle _ HI e rd Ho) as [Hle Hrd]. split; [lia|].
    intros u n Hin. destruct (Hrd u n Hin) as [Hn Hend]. split; [specialize (Ht u); lia|].
    intros i e' Hrs. destruct (Hr _ _ _ _ Hrs) as [|Hlt]; [by eapply Hend|lia].
  - split; [done|]. intros u n Hin. rewrite (Hn u n Hin). split; [done|].
    intros i e' [Hp _]. by eapply Hrun.
Qed.

Lemma later_scan s s' j min :
  epoch_inv s -> later s s' -> scan_ok s j min -> scan_ok s' j min.
Proof.
  intros HI [He Ht Hr Hh] [Hm Hs]. split; [lia|]. intros e rd u n i e' Hha Hin Hrs Hi.
  destruct (Hh e rd Hha) as [Ho|[-> Hn]]; [|lia].
  destruct (Hr _ _ _ _ Hrs) as [Hro|Hlt]; [by eapply Hs|].
  destruct (ei_handle _ HI e rd Ho) as [_ Hrd]. destruct (Hrd u n Hin) as [Hle _]. lia.
Qed.

(** A thread that moves, while the regions only lose blocks *)
Lemma later_move s s1 t p :
  pcs s1 = pcs s -> txn s1 = txn s -> epoch s <= epoch s1 -> (forall i e, p <> Running i e) ->
  (forall e rd, pending p = Some (e, rd) ->
     handle s e rd \/ (e = epoch s1 /\ forall u n, (u, n) ∈ rd -> n = txn s u)) ->
  (forall i b, b ∈ region_blocks (regions (slots s1 i)) -> handle s (b_epoch b) (b_readers b)) ->
  later s (set_pc t p s1).
Proof.
  intros Hpcs Htxn He Hp Hpend Hb. constructor; simpl; try done; rewrite ?Htxn; try done.
  - intros u n i e [Hpc Hn]. left. simpl in Hpc, Hn. rewrite Hpcs in Hpc. rewrite Htxn in Hn.
    split; [|done]. case_decide; [by destruct (Hp i e)|done].
  - intros e rd [[u Hu]|(i & b & Hin & <- & <-)]; [|left; by eapply Hb].
    simpl in Hu. rewrite Hpcs in Hu. case_decide; [by apply Hpend|]. left. left. by exists u.
Qed.

(** The invariant after a step that is [later] *)
Lemma epoch_move s s' t p :
  epoch_inv s -> later s s' -> epoch s' < EPOCH_MAX -> pcs s' = pcs (set_pc t p s) ->
  (forall u i e, u <> t -> pcs s u = Running i e -> ts (slots s' i) = ts (slots s i)) ->
  (forall i e, p = Starting i e -> e <= epoch s') ->
  (forall i e, p = Running i e -> ts (slots s' i) <= e <= epoch s') ->
  (forall j min, scanning p = Some (j, min) -> scan_ok s' j min) ->
  (forall i mr b, mr ∈ regions (slots s' i) -> b ∈ blocks mr -> b_epoch b <= region_ts mr) ->
  epoch_inv s'.
Proof.
  intros HI Hl Hmax Hpcs Hts Hst Hru Hsc Hreg. pose proof (la_epoch _ _ Hl) as He.
  assert (Hrun : forall u i e, pcs s' u = Running i e -> ts (slots s' i) <= e <= epoch s').
  { intros u i e. rewrite Hpcs, pcs_set. case_decide; [apply Hru|]. intros Hp.
    rewrite (Hts u i e) by done. destruct (ei_run _ HI u i e Hp). lia. }
  constructor; try done.
  - pose proof (ei_range _ HI). lia.
  - intros u i e. rewrite Hpcs, pcs_set. case_decide; [apply Hst|]. intros Hp.
    pose proof (ei_start _ HI u i e Hp). lia.
  - intros e rd Hh. apply (later_handle s); try done. intros u i e' Hp. by destruct (Hrun u i e' Hp).
  - intros u j min. rewrite Hpcs, pcs_set. case_decide; [apply Hsc|]. intros Hp.
    apply (later_scan s); try done. by eapply ei_scan.
Qed.

(** A move that leaves the slots as they are *)
Lemma epoch_stay s t p :
  epoch_inv s -> (forall i e, p <> Running i e) ->
  (forall i e, p = Starting i e -> e <= epoch s) ->
  (forall e rd, pending p = Some (e, rd) ->
     handle s e rd \/ (e = epoch s /\ forall u n, (u, n) ∈ rd -> n = txn s u)) ->
  (forall j min, scanning p = Some (j, min) -> scan_ok s j min) ->
  epoch_inv (set_pc t p s).
Proof.
  intros HI Hr Hst Hp Hs.
  assert (Hl : later s (set_pc t p s)).
  { apply later_move; try done. intros i b Hb. right. by exists i, b. }
  eapply (epoch_move s _ t p); try done; [apply HI| | |apply HI].
  - intros i e ->. by destruct (Hr i e).
  - intros j min Hsc. apply (later_scan s); auto.
Qed.

Lemma in_region_blocks b l : b ∈ region_blocks l <-> exists mr, mr ∈ l /\ b ∈ blocks mr.
Proof.
  unfold region_blocks. rewrite list_elem_of_In, in_concat. setoid_rewrite <- list_elem_of_In.
  split.
  - intros (x & Hx & Hb). apply list_elem_of_fmap in Hx as (mr & -> & Hmr). by exists mr.
  - intros (mr & Hmr & Hb). exists (blocks mr). split; [by apply list_elem_of_fmap_2|done].
Qed.

Lemma cleanup_spec min l :
  let '(r, f) := gc_cleanup_thread min l in
  (exists k, l = k ++ r /\ f = region_blocks k /\ Forall (fun mr => region_ts mr < min) k).
Proof.
  induction l as [|mr l IH]; cbn [gc_cleanup_thread]; [by exists []|].
  destruct (Z.ltb_spec (region_ts mr) min); [|by exists []].
  destruct (gc_cleanup_thread min l) as [r f]. destruct IH as (k & -> & -> & Hk).
  exists (mr :: k). split_and!; [done..|by constructor].
Qed.

Lemma clean_regions i min s j mr :
  mr ∈ regions (slots (clean_slot i min s) j) -> mr ∈ regions (slots s j).
Proof.
  rewrite clean_slots. case_decide as Hj; [|done]. subst. simpl.
  pose proof (cleanup_spec min (regions (slots s i))) as Hc.
  destruct (gc_cleanup_thread min (regions (slots s i))) as [r f]. destruct Hc as (k & -> & _).
  simpl. rewrite elem_of_app. auto.
Qed.

Lemma ts_clean i min s j : ts (slots (clean_slot i min s) j) = ts (slots s j).
Proof. rewrite clean_slots. case_decide; by subst. Qed.

Lemma ts_used i u s j : ts (slots (set_used i u s) j) = ts (slots s j).
Proof. unfold set_used. rewrite slot_set. case_decide; by subst. Qed.

Lemma ts_add mb e sl : ts (gc_add_block mb e sl) = ts sl.
Proof. unfold gc_add_block. destruct (regions sl) as [|mr l]; [done|]. by destruct (region_ts mr <? e). Qed.

(** A move that changes the slots of nobody else, and whose regions lose blocks
    or keep them *)
Lemma epoch_slots s s1 t p :
  epoch_inv s -> pcs s1 = pcs s -> txn s1 = txn s -> epoch s1 = epoch s ->
  (forall i mr, mr ∈ regions (slots s1 i) -> mr ∈ regions (slots s i)) ->
  (forall u i e, u <> t -> pcs s u = Running i e -> ts (slots s1 i) = ts (slots s i)) ->
  (forall i e, p <> Running i e) -> (forall i e, p <> Starting i e) ->
  (forall e rd, pending p = Some (e, rd) -> handle s e rd) ->
  (forall j min, scanning p = Some (j, min) -> scan_ok s j min) ->
  epoch_inv (set_pc t p s1).
Proof.
  intros HI Hpcs Htxn He Hreg Hts Hr Hst Hp Hs.
  assert (Hl : later s (set_pc t p s1)).
  { apply later_move; try done; [lia|by left; apply Hp|].
    intros i b Hb. right. exists i, b. split; [|done]. apply in_region_blocks in Hb as (mr & Hm & Hb).
    apply in_region_blocks. exists mr. auto. }
  eapply (epoch_move s _ t p); try done.
  - simpl. rewrite He. apply HI.
  - unfold set_pc. simpl. by rewrite Hpcs.
  - intros i e ->. by destruct (Hst i e).
  - intros i e ->. by destruct (Hr i e).
  - intros j min Hsc. apply (later_scan s); auto.
  - intros i mr b Hmr. simpl in Hmr. eapply ei_region; eauto.
Qed.

Lemma scan_0 s : 0 <= epoch s < EPOCH_MAX -> scan_ok s 0 (epoch s).
Proof. intros H. split; [done|]. intros. lia. Qed.

Lemma scan_step_ok s c :
  slots_inv s -> epoch_inv s -> scan_ok s (scan_at c).1 (scan_at c).2 ->
  scan_ok s (scan_at (scan_step s c)).1 (scan_at (scan_step s c)).2.
Proof.
  intros HS HE. assert (Hbusy : forall u n i e, runs s u n i e ->
    (i < MAX_GC_THREADS)%nat /\ used (slots s i) = GC_BUSY).
  { intros u n i e [Hp _]. apply (owner_busy s u); [done|]. by rewrite Hp. }
  destruct c as [j min|j min|min]; [| |done]; cbn [scan_step scan_at fst snd]; intros [Hm Hs].
  - destruct (Nat.ltb_spec j MAX_GC_THREADS) as [Hj|Hj]; cbn [scan_at fst snd].
    + destruct (Z.eqb_spec (used (slots s j)) GC_NULL) as [Hn|Hn]; cbn [scan_at fst snd].
      { split; [done|]. intros e rd u n i e' Hh Hin Hr Hi. destruct (Nat.lt_ge_cases i j) as [|Hge]; [by eapply Hs|].
        destruct (Hbusy _ _ _ _ Hr) as [_ Hb]. by rewrite (si_prefix _ HS j i Hn Hge) in Hb. }
      destruct (Z.eqb_spec (used (slots s j)) GC_BUSY) as [Hb|Hb]; cbn [negb scan_at fst snd]; [done|].
      split; [done|]. intros e rd u n i e' Hh Hin Hr Hi.
      destruct (decide (i = j)) as [->|]; [by destruct Hb; eapply Hbusy|]. eapply Hs; try done. lia.
    + split; [done|]. intros e rd u n i e' Hh Hin Hr Hi. eapply Hs; try done. lia.
  - assert (Hle : (if ts (slots s j) <? min then ts (slots s j) else min) <= min).
    { destruct (Z.ltb_spec (ts (slots s j)) min); lia. }
    split; [lia|]. intros e rd u n i e' Hh Hin Hr Hi.
    destruct (decide (i = j)) as [->|]; [|assert (min <= e) by (eapply Hs; try done; lia); lia].
    pose proof (ei_run _ HE u j e' (proj1 Hr)) as [Hts _].
    destruct (ei_handle _ HE e rd Hh) as [_ Hrd]. destruct (Hrd u n Hin) as [_ Hend].
    specialize (Hend j e' Hr). destruct (Z.ltb_spec (ts (slots s j)) min); lia.
Qed.

Lemma add_block_regions mb e sl b mr :
  mr ∈ regions (gc_add_block mb e sl) -> b ∈ blocks mr ->
  (exists mr', mr' ∈ regions sl /\ b ∈ blocks mr' /\ region_ts mr' = region_ts mr) \/
  (b = mb /\ e <= region_ts mr).
Proof.
  unfold gc_add_block. destruct (regions sl) as [|m l] eqn:Hr.
  - simpl. intros ->%list_elem_of_singleton. simpl. intros ->%list_elem_of_singleton. right. done.
  - destruct (Z.ltb_spec (region_ts m) e) as [Hlt|Hge]; simpl.
    + intros Hm Hb. change (m :: l ++ [mk_region [mb] e]) with ((m :: l) ++ [mk_region [mb] e]) in Hm.
      apply elem_of_app in Hm as [Hm| ->%list_elem_of_singleton].
      * left. by exists mr.
      * simpl in Hb. apply list_elem_of_singleton in Hb as ->. right. done.
    + intros [->|Hm]%elem_of_cons Hb.
      * simpl in Hb. apply elem_of_cons in Hb as [->|Hb]; [right; split; [done|simpl; lia]|].
        left. exists m. split_and!; [by left|done|done].
      * left. exists mr. split_and!; [by right|done|done].
Qed.

Lemma step_epoch s s' : slots_inv s -> epoch_inv s -> gc_step s s' -> epoch_inv s'.
Proof.
  intros HS HI Hs. pose proof (ei_range _ HI) as He.
  assert (Hsc : forall t q, pcs s t = q -> forall j min, scanning q = Some (j, min) -> scan_ok s j min).
  { intros t q <-. apply (ei_scan _ HI t). }
  assert (Hpend : forall t q, pcs s t = q -> forall e rd, pending q = Some (e, rd) -> handle s e rd).
  { intros t q <- e rd Hp. left. by exists t. }
  assert (Hts : forall t i, owner (pcs s t) = Some i -> forall u j e, u <> t -> pcs s u = Running j e -> j <> i).
  { intros t i Ho u j e Hne Hu ->. apply Hne. apply (si_owner _ HS u t i); [by rewrite Hu|done]. }
  destruct Hs as [s Ht|t s Hp|t i s Hp|t i u s Hp|t i s Hp|t i e s Hp|t i s Hp|t i e s Hp
    |t i e s Hp|t i rd l s Hp Hrd|t i e rd a l s Hp s1|t i c e rd l s Hp|t i min e rd l s Hp|t i e rd s Hp
    |t i s Hp|t i s Hp|t s Hp|t s Hp|t i min s Hp Hi|t i min s Hp|t i c s Hp|t i min s Hp|t i min s Hp s1
    |t min s Hp|s Hst]; try specialize (Hsc t _ Hp); try specialize (Hpend t _ Hp);
    try specialize (Hts t); rewrite ?Hp in Hts;
    try (apply epoch_stay; [exact HI|done|done|done|done]).
  - assert (Hl : later s (s <| epoch := epoch s + 1 |>)).
    { constructor; simpl; try done; [lia|by left|by left]. }
    constructor; simpl.
    + lia.
    + intros t i e Hp. pose proof (ei_start _ HI t i e Hp). lia.
    + intros t i e Hp. destruct (ei_run _ HI t i e Hp). lia.
    + intros e rd. apply (later_handle s); try done. simpl. intros t i e' Hp.
      destruct (ei_run _ HI t i e' Hp). lia.
    + intros t j min Hs. apply (later_scan s); try done. by eapply ei_scan.
    + apply HI.
  - apply (epoch_slots s); try done; by destruct (_ <=? _).
  - apply epoch_stay; try done; by destruct (_ =? _).
  - destruct (used (slots s i) =? u).
    + apply (epoch_slots s); try done; [intros j mr; by rewrite regions_used|intros; apply ts_used].
    + apply epoch_stay; try done; by destruct (_ =? _).
  - apply (epoch_slots s); try done; [intros j mr; by rewrite regions_ts|].
    intros u j e' Hne Hu. unfold set_ts. rewrite slot_set, decide_False; [done|]. by eapply Hts.
  - apply epoch_stay; try done. by intros j e [= <- <-].
  - pose proof (ei_start _ HI t i e Hp) as Hle.
    set (p := Running i e). set (s1 := gc_set_epoch i e s <| txn := _ |>).
    assert (Hsets : gc_set_epoch i e s = set_ts i e s).
    { unfold gc_set_epoch. destruct (Z.leb_spec EPOCH_MAX e); [lia|done]. }
    assert (Hl : later s (set_pc t p s1)).
    { unfold s1. rewrite Hsets. constructor; simpl; try done.
      - intros u. case_decide; lia.
      - intros u n j e' [Hpc Hn]. simpl in Hpc, Hn. case_decide; [right; subst; lia|by left].
      - intros e' rd [[u Hu]|(j & b & Hb & H1 & H2)]; left.
        + simpl in Hu. case_decide; [done|]. left. by exists u.
        + right. exists j, b. change (b ∈ region_blocks (regions (slots (set_ts i e s) j))) in Hb.
          by rewrite regions_ts in Hb. }
    unfold s1 in *. rewrite Hsets in *.
    eapply (epoch_move s _ t p HI Hl); try done; [apply He| | |].
    + intros u j e' Hne Hu. simpl. unfold set_ts. simpl. rewrite decide_False; [done|]. by eapply Hts.
    + intros j e' [= <- <-]. simpl. rewrite decide_True by done. simpl. lia.
    + intros j mr b. change (slots _) with (slots (set_ts i e s)). rewrite regions_ts. apply HI.
  - apply epoch_stay; try done. intros e' rd' [= <- <-]. right. split; [done|].
    intros u n Hin. by apply Hrd in Hin as [-> _].
  - assert (Hh : handle s e rd) by by apply Hpend.
    assert (Hreg : forall j mr b, mr ∈ regions (slots s1 j) -> b ∈ blocks mr ->
      (exists mr', mr' ∈ regions (slots s j) /\ b ∈ blocks mr' /\ region_ts mr' = region_ts mr) \/
      (b = mk_block a e rd /\ e <= region_ts mr)).
    { intros j mr b. unfold s1. simpl. case_decide as Hj; [subst j; apply add_block_regions|].
      intros Hm Hb. left. by exists mr. }
    match goal with |- epoch_inv (set_pc t ?x s1) => set (p := x) end.
    assert (Hpp : forall e' rd', pending p = Some (e', rd') -> (e', rd') = (e, rd)).
    { unfold p. destruct (_ =? _); by intros e' rd' [= <- <-]. }
    assert (Hl : later s (set_pc t p s1)).
    { apply (later_move s); try done; [by unfold p; destruct (_ =? _)| |].
      - intros e' rd' Hx. apply Hpp in Hx as [= -> ->]. by left.
      - intros j b Hb. apply in_region_blocks in Hb as (mr & Hm & Hb).
        destruct (Hreg j mr b Hm Hb) as [(mr' & Hm' & Hb' & _)|[-> _]]; [|done].
        right. exists j, b. split; [|done]. apply in_region_blocks. by exists mr'. }
    eapply (epoch_move s _ t p HI Hl); try done.
    + apply He.
    + intros u j e' Hne Hu. unfold s1. simpl. rewrite decide_False; [done|]. by eapply Hts.
    + unfold p. by destruct (_ =? _).
    + unfold p. by destruct (_ =? _).
    + unfold p. destruct (_ =? _); [|done]. intros j min [= <- <-].
      apply (later_scan s); try done. by apply scan_0.
    + intros j mr b Hm Hb. destruct (Hreg j mr b Hm Hb) as [(mr' & Hm' & Hb' & <-)|[-> ?]]; [|done].
      by eapply ei_region.
  - apply epoch_stay; try done; [intros e' rd' [= <- <-]; left; by apply Hpend|].
    intros j min [= Hj]. pose proof (scan_step_ok s c HS HI) as Hstep. rewrite Hj in Hstep.
    apply Hstep, Hsc. simpl. by destruct (scan_at c).
  - apply (epoch_slots s); try done; [apply pcs_clean| | | |intros; apply ts_clean].
    + unfold clean_slot. by destruct (gc_cleanup_thread _ _).
    + unfold clean_slot. by destruct (gc_cleanup_thread _ _).
    + intros j mr. apply clean_regions.
  - apply (epoch_slots s); try done; [intros j mr; by rewrite regions_ts|].
    intros u j e' Hne Hu. unfold set_ts. rewrite slot_set, decide_False; [done|]. by eapply Hts.
  - apply (epoch_slots s); try done; [intros j mr; by rewrite regions_used|intros; apply ts_used].
  - apply (epoch_slots s); done.
  - destruct (_ =? _); [by apply epoch_stay|]. destruct (_ =? _).
    + apply (epoch_slots s); try done; [intros j mr; by rewrite regions_used|intros; apply ts_used].
    + by apply epoch_stay.
  - apply epoch_stay; try done; destruct (Z.eqb_spec min EPOCH_MAX); try done.
    + intros j m [= <- <-]. by apply scan_0.
    + intros j m [= <- <-]. apply Hsc. simpl. by destruct (Z.eqb_spec min EPOCH_MAX).
  - apply epoch_stay; try done.
    intros j min [= Hj]. pose proof (scan_step_ok s c HS HI) as Hstep. rewrite Hj in Hstep.
    apply Hstep, Hsc. simpl. by destruct (scan_at c).
  - apply (epoch_slots s); try done.
    + unfold s1. simpl. apply pcs_clean.
    + unfold s1, clean_slot. by destruct (gc_cleanup_thread _ _).
    + unfold s1, clean_slot. by destruct (gc_cleanup_thread _ _).
    + intros j mr. rewrite regions_used. apply clean_regions.
    + intros. rewrite ts_used. apply ts_clean.
    + intros j m. simpl. destruct (min =? EPOCH_MAX); [done|]. apply Hsc.
  - destruct (reset_spec s) as (H1 & H2 & H3 & H4 & H5 & H6 & H7 & H8).
    revert H1 H2 H3 H4 H5 H6 H7 H8. generalize (gc_reset s). intros s' H1 H2 H3 H4 H5 H6 H7 H8.
    assert (Hno : forall i, regions (slots s' i) = []).
    { intros i. destruct (decide (used (slots s i) = GC_NULL)) as [Hn|Hn].
      - destruct (H6 i) as [->|]; [|done]. by apply HS.
      - destruct (Nat.lt_ge_cases i MAX_GC_THREADS) as [Hlt|Hge].
        + apply H7; [done|]. intros k Hk Hz. apply Hn. by apply (si_prefix _ HS k).
        + by destruct Hn; apply (si_far _ HS). }
    constructor.
    + rewrite H8. by split.
    + intros t i e. rewrite H1. intros Hp. specialize (Hst t). by rewrite Hp in Hst.
    + intros t i e. rewrite H1. intros Hp. specialize (Hst t). by rewrite Hp in Hst.
    + intros e rd [[t Hp]|(i & b & Hb & _)].
      * rewrite H1 in Hp. specialize (Hst t). by destruct (pcs s t).
      * rewrite Hno in Hb. by apply elem_of_nil in Hb.
    + intros t j min. rewrite H1. intros Hp. specialize (Hst t). by destruct (pcs s t).
    + intros i mr b. rewrite Hno. by intros ?%elem_of_nil.
Qed.

Lemma gc_reach s : gc_reachable s -> slots_inv s /\ epoch_inv s.
Proof.
  unfold gc_reachable. assert (Hgen : forall s s', rtc gc_step s s' ->
    slots_inv s /\ epoch_inv s -> slots_inv s' /\ epoch_inv s').
  { induction 1 as [|x y z Hxy Hyz IH]; [done|]. intros [HS HE]. apply IH.
    split; [by eapply step_slots|by eapply step_epoch]. }
  intros Hr. apply (Hgen _ _ Hr).
  split; constructor; simpl; try done.
  - intros e rd [[t Ht]|(i & b & Hb & _)]; [done|]. by apply elem_of_nil in Hb.
  - by intros _ mr b ?%elem_of_nil.
Qed.

(** ** What a step frees *)

Lemma freed_clean i min s :
  epoch_inv s -> slots_inv s -> scan_ok s MAX_GC_THREADS min ->
  exists f, freed (clean_slot i min s) = f ++ freed s /\
    forall b u n j e, b ∈ f -> (u, n) ∈ b_readers b -> ~ runs s u n j e.
Proof.
  intros HE HS [_ Hsc]. unfold clean_slot. pose proof (cleanup_spec min (regions (slots s i))) as Hc.
  destruct (gc_cleanup_thread min (regions (slots s i))) as [r f].
  destruct Hc as (k & Hreg & -> & Hk). exists (region_blocks k). split; [done|].
  intros b u n j e Hb Hin Hr. apply in_region_blocks in Hb as (mr & Hm & Hb).
  assert (Hin' : mr ∈ regions (slots s i)) by (rewrite Hreg; apply elem_of_app; by left).
  pose proof (ei_region _ HE i mr b Hin' Hb). rewrite list.Forall_forall in Hk. specialize (Hk mr Hm). simpl in Hk.
  assert (min <= b_epoch b); [|lia].
  apply (Hsc _ (b_readers b) u n j e); [|done..|].
  - right. exists i, b. split; [|done]. apply in_region_blocks. by exists mr.
  - apply (owner_busy s u); [done|]. destruct Hr as [Hp _]. by rewrite Hp.
Qed.

Lemma reset_from_freed n i s : exists f, freed (gc_reset_from n i s) = f ++ freed s.
Proof.
  revert i s. induction n as [|n IH]; intros i s; cbn [gc_reset_from]; [by exists []|].
  destruct (_ =? _); [by exists []|]. destruct (IH (S i) ((set_slot i (mk_gc_thread (used (slots s i)) EPOCH_MAX [] 0) s)
    <| freed := region_blocks (regions (slots s i)) ++ freed s |>)) as [f Hf].
  exists (f ++ region_blocks (regions (slots s i))). rewrite Hf. simpl. by rewrite (assoc_L (++)).
Qed.

Lemma nothing_freed s s' :
  freed s' = freed s ->
  exists f, freed s' = f ++ freed s /\
    forall b u n j e, b ∈ f -> (u, n) ∈ b_readers b -> ~ runs s u n j e.
Proof. intros ->. exists []. split; [done|]. by intros ? ? ? ? ? ?%elem_of_nil. Qed.

(** C11. The grace period: when a step frees memory, none of the transactions that
    were running when the thread that gave the memory up read the epoch is still
    running.  This holds in every reachable state of any number of threads that
    enter, leave, start and end transactions, free memory and collect for others,
    with roll-overs of the clock. *)
Theorem gc_grace_period s s' :
  gc_reachable s -> gc_step s s' ->
  exists f, freed s' = f ++ freed s /\
    forall b u n j e, b ∈ f -> (u, n) ∈ b_readers b -> ~ runs s u n j e.
Proof.
  intros [HS HE]%gc_reach Hs.
  destruct Hs as [s Ht|t s Hp|t i s Hp|t i u s Hp|t i s Hp|t i e s Hp|t i s Hp|t i e s Hp
    |t i e s Hp|t i rd l s Hp Hrd|t i e rd a l s Hp s1|t i c e rd l s Hp|t i min e rd l s Hp|t i e rd s Hp
    |t i s Hp|t i s Hp|t s Hp|t s Hp|t i min s Hp Hi|t i min s Hp|t i c s Hp|t i min s Hp|t i min s Hp s1
    |t min s Hp|s Hst];
    try (apply nothing_freed; reflexivity).
  - apply nothing_freed. by destruct (_ =? u).
  - apply nothing_freed. simpl. unfold gc_set_epoch. by destruct (_ <=? _).
  - destruct (freed_clean i min s HE HS) as (f & Hf & Hb); [|by exists f].
    apply (ei_scan _ HE t). by rewrite Hp.
  - apply nothing_freed. destruct (_ =? _); [done|]. by destruct (_ =? _).
  - destruct (freed_clean i min s HE HS) as (f & Hf & Hb); [|by exists f].
    apply (ei_scan _ HE t). by rewrite Hp.
  - destruct (reset_from_freed MAX_GC_THREADS 0 s) as [f Hf]. exists f. split.
    { unfold gc_reset. revert Hf. generalize (gc_reset_from MAX_GC_THREADS 0 s). by intros s1 <-. }
    intros b u n j e _ _ [Hp _]. specialize (Hst u). by rewrite Hp in Hst.
Qed.

(** C33. The slots: in every reachable state two threads never own the same slot, the
    slot of a thread is in range and busy, and the assertion of [gc_init_thread]
    has not failed. *)
Theorem gc_slots_exclusive s t u i :
  gc_reachable s -> owner (pcs s t) = Some i ->
  (i < MAX_GC_THREADS)%nat /\ used (slots s i) = GC_BUSY /\
  (owner (pcs s u) = Some i -> t = u) /\ pcs s u <> Broken.
Proof.
  intros [HS _]%gc_reach Ho. destruct (owner_busy s t i HS Ho) as [? ?]. split_and!; try done.
  - intros Hu. by apply (si_owner _ HS t u i).
  - intros Hb. pose proof (si_place _ HS u) as Hp. by rewrite Hb in Hp.
Qed.

(** ** No leak, no double free *)

Definition held_of (sl : nat -> gc_thread) : list gc_block :=
  concat ((fun i => region_blocks (regions (sl i))) <$> seq 0 MAX_GC_THREADS).

Definition held (s : gc) : list gc_block := held_of (slots s).

Lemma concat_set {A} (f : nat -> list A) (x : list A) i l :
  NoDup l -> i ∈ l ->
  concat ((fun j => if decide (j = i) then x else f j) <$> l) ++ f i ≡ₚ concat (f <$> l) ++ x.
Proof.
  induction 1 as [|k l Hk Hl IH]; intros Hin; [by apply elem_of_nil in Hin|].
  rewrite !fmap_cons. cbn [concat]. destruct (decide (k = i)) as [->|Hne].
  - assert (Hsame : (fun j => if decide (j = i) then x else f j) <$> l = f <$> l).
    { apply list_fmap_ext. intros j y Hy. case_decide; [|done]. subst.
      by apply list_elem_of_lookup_2 in Hy. }
    rewrite Hsame. rewrite <- (assoc_L (++) x). rewrite (Permutation_app_comm (concat (f <$> l)) (f i)).
    apply Permutation_app_comm.
  - apply elem_of_cons in Hin as [|Hin]; [done|]. rewrite <- !(assoc_L (++)). f_equiv. by apply IH.
Qed.

Lemma held_set i sl s :
  (i < MAX_GC_THREADS)%nat ->
  held (set_slot i sl s) ++ region_blocks (regions (slots s i)) ≡ₚ held s ++ region_blocks (regions sl).
Proof.
  intros Hi. unfold held, held_of. assert (Hin : i ∈ seq 0 MAX_GC_THREADS) by (apply elem_of_seq; lia).
  pose proof (NoDup_seq 0 MAX_GC_THREADS) as Hnd. revert Hnd Hin. generalize (seq 0 MAX_GC_THREADS).
  intros l Hnd Hin. rewrite <- (concat_set (fun j => region_blocks (regions (slots s j))) _ i l) by done.
  apply Permutation_app_tail, Permutation_refl'. apply (f_equal (@concat _)), list_fmap_ext.
  intros k j _. simpl. by case_decide.
Qed.

Lemma held_ext s s' : (forall i, regions (slots s' i) = regions (slots s i)) -> held s' = held s.
Proof.
  intros H. unfold held, held_of. generalize (seq 0 MAX_GC_THREADS). intros l.
  apply (f_equal (@concat _)), list_fmap_ext. intros k i _. by rewrite H.
Qed.

Opaque held_of.

(** [freed ++ held] is what was given. *)
Definition conserved (s : gc) : Prop := freed s ++ held s ≡ₚ given s.

Lemma conserved_ext s s' :
  (forall i, regions (slots s' i) = regions (slots s i)) -> freed s' = freed s -> given s' = given s ->
  conserved s -> conserved s'.
Proof. unfold conserved. intros Hr Hf Hg. by rewrite Hf, Hg, (held_ext s s'). Qed.

Lemma regions_blocks_add mb e sl :
  region_blocks (regions (gc_add_block mb e sl)) ≡ₚ mb :: region_blocks (regions sl).
Proof.
  unfold gc_add_block. destruct (regions sl) as [|mr l] eqn:Hr; [done|].
  destruct (region_ts mr <? e); simpl; [|done].
  unfold region_blocks. simpl. rewrite fmap_app, concat_app. simpl.
  rewrite (assoc_L (++)), Permutation_app_comm. done.
Qed.

(** Slot [i] is changed, [f] is freed and [g] is given. *)
Lemma conserved_set s s' i sl f g :
  (i < MAX_GC_THREADS)%nat -> slots s' = slots (set_slot i sl s) ->
  freed s' = f ++ freed s -> given s' = g ++ given s ->
  f ++ region_blocks (regions sl) ≡ₚ g ++ region_blocks (regions (slots s i)) ->
  conserved s -> conserved s'.
Proof.
  unfold conserved. intros Hi Hs Hf Hg Hp Hc. pose proof (held_set i sl s Hi) as Hh.
  unfold held in *. rewrite Hs, Hf, Hg, <- Hc. revert Hp Hh.
  generalize (held_of (slots (set_slot i sl s))), (held_of (slots s)), (freed s),
    (region_blocks (regions sl)), (region_blocks (regions (slots s i))).
  intros h' h fr bs bs0 Hp Hh. apply (Permutation_app_inv_r (bs0 ++ bs)).
  transitivity (fr ++ (f ++ bs) ++ (h' ++ bs0)); [solve_Permutation|].
  rewrite Hh, Hp. solve_Permutation.
Qed.

Lemma clean_conserved i min s :
  (i < MAX_GC_THREADS)%nat -> conserved s -> conserved (clean_slot i min s).
Proof.
  intros Hi. pose proof (cleanup_spec min (regions (slots s i))) as Hc.
  unfold clean_slot. destruct (gc_cleanup_thread min (regions (slots s i))) as [r f].
  destruct Hc as (k & Hreg & -> & _).
  apply (conserved_set s _ i (slots s i <| regions := r |>) (region_blocks k) []); try done.
  simpl. rewrite Hreg. unfold region_blocks. by rewrite fmap_app, concat_app.
Qed.

Lemma add_conserved i mb e s :
  (i < MAX_GC_THREADS)%nat -> conserved s -> conserved (add_block i mb e s).
Proof.
  intros Hi. apply (conserved_set s _ i (gc_add_block mb e (slots s i)) [] [mb]); try done.
  simpl. apply regions_blocks_add.
Qed.

Lemma reset_conserved n i s :
  (i + n <= MAX_GC_THREADS)%nat -> conserved s -> conserved (gc_reset_from n i s).
Proof.
  revert i s. induction n as [|n IH]; intros i s Hle Hc; cbn [gc_reset_from]; [done|].
  destruct (_ =? _); [done|]. apply IH; [lia|].
  eapply (conserved_set s _ i (mk_gc_thread (used (slots s i)) EPOCH_MAX [] 0)
    (region_blocks (regions (slots s i))) []); try done; [lia|].
  simpl. by rewrite app_nil_r.
Qed.

Lemma step_conserved s s' : slots_inv s -> conserved s -> gc_step s s' -> conserved s'.
Proof.
  intros HS HC Hs. assert (Hown : forall t p, pcs s t = p -> forall i, owner p = Some i -> (i < MAX_GC_THREADS)%nat).
  { intros t p <- i Ho. by destruct (owner_busy s t i HS Ho). }
  destruct Hs as [s Ht|t s Hp|t i s Hp|t i u s Hp|t i s Hp|t i e s Hp|t i s Hp|t i e s Hp
    |t i e s Hp|t i rd l s Hp Hrd|t i e rd a l s Hp s1|t i c e rd l s Hp|t i min e rd l s Hp|t i e rd s Hp
    |t i s Hp|t i s Hp|t s Hp|t s Hp|t i min s Hp Hi|t i min s Hp|t i c s Hp|t i min s Hp|t i min s Hp s1
    |t min s Hp|s Hst]; try specialize (Hown t _ Hp);
    try (apply (conserved_ext s); [done|reflexivity|reflexivity|exact HC]).
  - apply (conserved_ext s); [intros j; destruct (_ =? u); [apply regions_used|done]| | |done]; by destruct (_ =? u).
  - apply (conserved_ext s); [apply regions_ts|done..].
  - apply (conserved_ext s); [intros j| | |done]; simpl; unfold gc_set_epoch; destruct (_ <=? _);
      [done|apply regions_ts|done..].
  - apply (conserved_ext s1); [done..|]. apply add_conserved; auto.
  - apply (conserved_ext (clean_slot i min s)); [done..|]. apply clean_conserved; auto.
  - apply (conserved_ext s); [apply regions_ts|done..].
  - apply (conserved_ext s); [apply regions_used|done..].
  - apply (conserved_ext s); [intros j| | |done]; destruct (_ =? GC_NULL); try done; destruct (_ =? _); try done.
    apply regions_used.
  - apply (conserved_ext s1); [apply regions_used|done..|]. apply clean_conserved; auto.
  - pose proof (reset_conserved MAX_GC_THREADS 0 s) as Hr. unfold gc_reset. revert Hr.
    generalize (gc_reset_from MAX_GC_THREADS 0 s). intros s1 Hr. apply (conserved_ext s1); [done..|].
    apply Hr; [lia|done].
Qed.

Lemma gc_reach_conserved s : gc_reachable s -> conserved s.
Proof.
  unfold gc_reachable. assert (Hgen : forall s s', rtc gc_step s s' ->
    slots_inv s /\ conserved s -> slots_inv s' /\ conserved s').
  { induction 1 as [|x y z Hxy Hyz IH]; [done|]. intros [HS HC]. apply IH.
    split; [by eapply step_slots|by eapply step_conserved]. }
  intros Hr. apply (Hgen _ _ Hr). split; [constructor; try done|].
  unfold conserved, held. transitivity (held_of (fun _ => mk_gc_thread GC_NULL EPOCH_MAX [] 0)); [done|].
  Transparent held_of. unfold held_of. generalize (seq 0 MAX_GC_THREADS).
  intros l. by induction l.
Qed.

(** C34. No block is lost and none is freed twice: in every reachable state the blocks
    freed and the blocks the slots hold are, counting repetitions, the blocks
    given to [gc_free]; and if no thread is active [gc_exit] frees exactly the
    rest. *)
Theorem gc_conserves s :
  gc_reachable s ->
  (exists h, freed s ++ h ≡ₚ given s /\
     forall b, b ∈ h -> exists i mr, (i < MAX_GC_THREADS)%nat /\ mr ∈ regions (slots s i) /\ b ∈ blocks mr) /\
  (forall l, gc_exit s = Some l -> l ++ freed s ≡ₚ given s).
Proof.
  intros Hr%gc_reach_conserved. unfold conserved in Hr. split.
  - exists (held s). split; [exact Hr|]. intros b Hb. unfold held, held_of in Hb.
    rewrite list_elem_of_In, in_concat in Hb. destruct Hb as (x & Hx & Hb%list_elem_of_In).
    apply list_elem_of_In, list_elem_of_fmap in Hx as (i & -> & Hi%elem_of_seq).
    apply in_region_blocks in Hb as (mr & Hm & Hb). exists i, mr. split_and!; [lia|done..].
  - unfold gc_exit. intros l. destruct (negb _); [done|]. intros [= <-]. etransitivity; [|exact Hr].
    apply Permutation_app_comm.
Qed.

(** ** A run *)

(** The moves of the threads, as a function: what a thread in the middle of an
    operation does next, and the operations a thread that is in none can begin *)
Inductive gc_move := Tick | Enter (t : nat) | Next (t : nat) | Start (t : nat) | End_txn (t : nat) | Leave (t : nat).

Definition gc_next (t : nat) (s : gc) : gc :=
  match pcs s t with
  | Init i => set_pc t (if used (slots s i) =? GC_BUSY then Init (next_slot i)
                        else Claim i (used (slots s i))) s
  | Claim i u =>
      if used (slots s i) =? u then set_pc t (Claimed i) (set_used i GC_BUSY s)
      else set_pc t (if used (slots s i) =? GC_NULL then Broken else Init (next_slot i)) s
  | Claimed i => set_pc t (First i (epoch s)) s
  | First i e => set_pc t (Idle i) (set_ts i e s)
  | Starting i e =>
      set_pc t (Running i e)
        ((gc_set_epoch i e s) <| txn := fun u => if decide (u = t) then S (txn s u) else txn s u |>)
  | Freeing i e rd (a :: l) =>
      let s' := add_block i (mk_block a e rd) e s in
      set_pc t (if frees (slots s' i) mod CLEANUP_FREQUENCY =? 0
                then Scan i (Look 0 (epoch s)) e rd l else Freeing i e rd l) s'
  | Freeing i e rd [] => set_pc t (Idle i) s
  | Scan i (Done min) e rd l => set_pc t (Freeing i e rd l) (clean_slot i min s)
  | Scan i c e rd l => set_pc t (Scan i (scan_step s c) e rd l) s
  | Leaving i => set_pc t Left (set_used i (gc_released (slots s i)) s)
  | Left => set_pc t Out (s <| nb_active := nb_active s - 1 |>)
  | _ => s
  end.

Definition gc_do (s : gc) (m : gc_move) : gc :=
  match m with
  | Tick => if epoch s + 1 <? EPOCH_MAX then s <| epoch := epoch s + 1 |> else s
  | Enter t =>
      match pcs s t with
      | Out => set_pc t (if Z.of_nat MAX_GC_THREADS <=? nb_active s then Failed else Init 0)
                 (s <| nb_active := nb_active s + 1 |>)
      | _ => s
      end
  | Next t => gc_next t s
  | Start t => match pcs s t with Idle i => set_pc t (Starting i (epoch s)) s | _ => s end
  | End_txn t => match pcs s t with Running i _ => set_pc t (Idle i) s | _ => s end
  | Leave t => match pcs s t with Idle i => set_pc t (Leaving i) (set_ts i EPOCH_MAX s) | _ => s end
  end.

Lemma do_step s m : rtc gc_step s (gc_do s m).
Proof.
  destruct m as [|t|t|t|t|t]; cbn [gc_do].
  - destruct (Z.ltb_spec (epoch s + 1) EPOCH_MAX); [|done]. by apply rtc_once, s_tick.
  - destruct (pcs s t) eqn:Hp; try done. by apply rtc_once, s_enter.
  - unfold gc_next. destruct (pcs s t) as [| | |i|i u|i|i e|i|i e|i e|i e rd [|a l]|i c e rd l|i| |i min|i min|i c|i min] eqn:Hp;
      try done; try (apply rtc_once; by constructor).
    { by eapply rtc_once, s_given. }
    destruct c as [j min|j min|min]; apply rtc_once; by constructor.
  - destruct (pcs s t) eqn:Hp; try done. by apply rtc_once, s_start.
  - destruct (pcs s t) eqn:Hp; try done. by eapply rtc_once, s_end.
  - destruct (pcs s t) eqn:Hp; try done. by apply rtc_once, s_leave.
Qed.

Lemma run_step l s : rtc gc_step s (foldl gc_do s l).
Proof.
  revert s. induction l as [|m l IH]; intros s; [done|]. simpl.
  etransitivity; [apply do_step|apply IH].
Qed.

(** Two threads enter, thread 1 starts a transaction. *)
Definition demo_start : gc :=
  foldl gc_do gc_init
    ([Enter 0; Next 0; Next 0; Next 0; Next 0; Enter 1; Next 1; Next 1; Next 1; Next 1; Next 1; Next 1]
     ++ [Start 1; Next 1]).

(** Thread 0 gives block 100 up while it runs; nothing can be freed. *)
Definition demo_given : gc := set_pc 0 (Freeing 0 0 [(1, 1)]%nat [100]) demo_start.

(** The clock advances; both threads start transactions at the new epoch. *)
Definition demo_later : gc :=
  foldl gc_do demo_given
    (replicate 9 (Next 0) ++ [Tick; End_txn 1; Start 1; Next 1; Start 0; Next 0; End_txn 0]).

(** Thread 0 gives up block 200, and has computed the minimum. *)
Definition demo_scanned : gc :=
  foldl gc_do (set_pc 0 (Freeing 0 1 [(1, 2)]%nat [200]) demo_later) (replicate 6 (Next 0)).

(** The transactions that run in a state where only threads 0 and 1 are inside *)
Lemma give_step s rd l i n1 e1 :
  gc_reachable s -> pcs s 0 = Idle i -> pcs s 1 = Running 1 e1 -> txn s 1 = n1 -> rd = [(1%nat, n1)] ->
  (forall u, pcs s (S (S u)) = Out) -> gc_reachable (set_pc 0 (Freeing i (epoch s) rd l) s).
Proof.
  intros Hr H0 H1 Hn -> Hout. unfold gc_reachable. etransitivity; [exact Hr|]. apply rtc_once, s_give; [done|].
  intros u n. rewrite list_elem_of_singleton. split.
  - intros [= -> ->]. split; [done|]. by exists 1%nat, e1.
  - intros (-> & j & e & Hu). destruct u as [|[|u]].
    + by rewrite H0 in Hu.
    + by rewrite <- Hn.
    + by rewrite Hout in Hu.
Qed.

Lemma demo_scanned_reachable : gc_reachable demo_scanned.
Proof.
  assert (Hs : gc_reachable demo_start) by apply run_step.
  assert (Hg : gc_reachable demo_given).
  { apply (give_step demo_start [(1, 1)]%nat [100] 0 1 0); try done; by vm_compute. }
  assert (Hl : gc_reachable demo_later).
  { unfold gc_reachable. etransitivity; [exact Hg|]. apply run_step. }
  unfold gc_reachable. etransitivity; [|apply run_step].
  apply (give_step demo_later [(1, 2)]%nat [200] 0 2 1); try done; by vm_compute.
Qed.

(** Block 100 is freed, block 200 is not. *)
Example demo_frees : b_addr <$> freed (gc_next 0 demo_scanned) = [100].
Proof. vm_compute. reflexivity. Qed.

Lemma gc_grace_period_witness :
  exists f, freed (gc_next 0 demo_scanned) = f ++ freed demo_scanned /\
    forall b u n j e, b ∈ f -> (u, n) ∈ b_readers b -> ~ runs demo_scanned u n j e.
Proof.
  apply (gc_grace_period demo_scanned).
  - exact demo_scanned_reachable.
  - change (gc_next 0 demo_scanned) with (set_pc 0 (Freeing 0 1 [(1, 2)]%nat []) (clean_slot 0 1 demo_scanned)).
    apply s_clean. vm_compute. reflexivity.
Defined.

Lemma gc_slots_exclusive_witness :
  pcs demo_scanned 0 <> Broken /\ (1 < MAX_GC_THREADS)%nat /\ used (slots demo_scanned 1) = GC_BUSY /\
  (owner (pcs demo_scanned 0) = Some 1%nat -> 1%nat = 0%nat).
Proof.
  destruct (gc_slots_exclusive demo_scanned 1 0 1 demo_scanned_reachable) as (H1 & H2 & H3 & H4).
  - vm_compute. reflexivity.
  - split_and!; [exact H4|exact H1|exact H2|exact H3].
Defined.

Lemma gc_conserves_witness :
  exists h, freed demo_scanned ++ h ≡ₚ given demo_scanned /\
     forall b, b ∈ h -> exists i mr, (i < MAX_GC_THREADS)%nat /\ mr ∈ regions (slots demo_scanned i) /\ b ∈ blocks mr.
Proof. apply (gc_conserves demo_scanned demo_scanned_reachable). Defined.
