(* ===== verification/Modules.v ===== *)
(** * Registration of modules, and the modules mod_mem and mod_cb

    The tables of callbacks and of transaction-specific data (stm.c:
    [stm_register], [stm_create_specific]), and two modules built on them:
    memory whose allocation and disposal follow the fate of the transaction
    (mod_mem.c) and callbacks of the application (mod_cb.c).  A module's data is
    a record per thread; its functions take it and return it.  The allocator is
    the map of the live blocks with their sizes; freeing what is not live has no
    result.  Failures of [malloc] (exit) are not modelled. *)
From S2P Require Import Prelude Words LockWord Machine Tx Ctl.

Module Api.

Definition MAX_CB : Z := 16.

(** [cb_entry_t]; a function is its address, 0 is NULL. *)
Record cb_entry := mk_cb { cb_f : Z; cb_arg : Z }.

Record registry := mk_registry {
  init_cb : list cb_entry; exit_cb : list cb_entry; start_cb : list cb_entry;
  commit_cb : list cb_entry; abort_cb : list cb_entry; nb_specific : Z }.

Definition registry_init : registry := mk_registry [] [] [] [] [] 0.

Definition nb {A} (l : list A) : Z := Z.of_nat (length l).

Definition add_cb (f arg : Z) (l : list cb_entry) : list cb_entry :=
  if truth f then l ++ [mk_cb f arg] else l.

Definition no_room (f : Z) (l : list cb_entry) : bool := truth f && (MAX_CB <=? nb l).

Definition stm_register (on_thread_init on_thread_exit on_start on_commit on_abort arg : Z)
    (r : registry) : Z * registry :=
  if no_room on_thread_init (init_cb r) || no_room on_thread_exit (exit_cb r)
     || no_room on_start (start_cb r) || no_room on_commit (commit_cb r)
     || no_room on_abort (abort_cb r)
  then (0, r)
  else
    (1, mk_registry (add_cb on_thread_init arg (init_cb r)) (add_cb on_thread_exit arg (exit_cb r))
          (add_cb on_start arg (start_cb r)) (add_cb on_commit arg (commit_cb r))
          (add_cb on_abort arg (abort_cb r)) (nb_specific r)).

Definition stm_create_specific (r : registry) : Z * registry :=
  if Z.of_nat MAX_SPECIFIC <=? nb_specific r then (-1, r)
  else (nb_specific r,
        mk_registry (init_cb r) (exit_cb r) (start_cb r) (commit_cb r) (abort_cb r) (nb_specific r + 1)).

(** [None] is the assertion on the key. *)
Definition stm_set_specific (r : registry) (key d : Z) (tx : stm_tx) : option stm_tx :=
  if (0 <=? key) && (key <? nb_specific r)
  then Some (tx <| data := <[zidx key := d]> (data tx) |>) else None.

Definition stm_get_specific (r : registry) (key : Z) (tx : stm_tx) : option Z :=
  if (0 <=? key) && (key <? nb_specific r) then data tx !! zidx key else None.

Inductive registered : registry -> Prop :=
| reg_init : registered registry_init
| reg_register f1 f2 f3 f4 f5 arg r :
    registered r -> registered (stm_register f1 f2 f3 f4 f5 arg r).2
| reg_specific r : registered r -> registered (stm_create_specific r).2.

Lemma nb_add f arg l : no_room f l = false -> nb l <= MAX_CB -> nb (add_cb f arg l) <= MAX_CB.
Proof.
  unfold no_room, add_cb. destruct (truth f); [|done]. simpl.
  intros ?%Z.leb_gt _. unfold nb in *. rewrite length_app. simpl. lia.
Qed.

Record registry_ok (r : registry) : Prop := {
  ro_init : nb (init_cb r) <= MAX_CB; ro_exit : nb (exit_cb r) <= MAX_CB;
  ro_start : nb (start_cb r) <= MAX_CB; ro_commit : nb (commit_cb r) <= MAX_CB;
  ro_abort : nb (abort_cb r) <= MAX_CB; ro_specific : 0 <= nb_specific r <= Z.of_nat MAX_SPECIFIC }.

Lemma registered_ok r : registered r -> registry_ok r.
Proof.
  induction 1 as [|f1 f2 f3 f4 f5 arg r _ [H1 H2 H3 H4 H5 H6]|r _ [H1 H2 H3 H4 H5 H6]].
  - by constructor.
  - unfold stm_register. destruct (no_room f1 _) eqn:?, (no_room f2 _) eqn:?, (no_room f3 _) eqn:?,
      (no_room f4 _) eqn:?, (no_room f5 _) eqn:?; constructor; simpl; auto using nb_add.
  - unfold stm_create_specific. destruct (Z.leb_spec (Z.of_nat MAX_SPECIFIC) (nb_specific r)); constructor; simpl; auto; lia.
Qed.

(** The tables of callbacks and the keys of transaction-specific data never exceed
    their arrays, whatever is registered in whatever order; a refused
    registration returns 0 and changes nothing; and what is stored under one key
    is read back under it and leaves the data of every other key as it was. *)
Theorem registry_bounds r :
  registered r ->
  (nb (init_cb r) <= MAX_CB /\ nb (exit_cb r) <= MAX_CB /\ nb (start_cb r) <= MAX_CB /\
   nb (commit_cb r) <= MAX_CB /\ nb (abort_cb r) <= MAX_CB /\ nb_specific r <= Z.of_nat MAX_SPECIFIC) /\
  (forall f1 f2 f3 f4 f5 arg r', stm_register f1 f2 f3 f4 f5 arg r = (0, r') -> r' = r) /\
  (forall key d tx, length (data tx) = MAX_SPECIFIC -> 0 <= key < nb_specific r ->
     exists tx', stm_set_specific r key d tx = Some tx' /\ stm_get_specific r key tx' = Some d /\
       forall key', key' <> key -> stm_get_specific r key' tx' = stm_get_specific r key' tx).
Proof.
  intros Hr%registered_ok. destruct Hr as [H1 H2 H3 H4 H5 H6]. split_and!; try done; [lia| |].
  - intros f1 f2 f3 f4 f5 arg r'. unfold stm_register. by destruct (_ || _); intros [= <-].
  - intros key d tx Hlen Hkey. unfold stm_set_specific, stm_get_specific.
    rewrite (proj2 (Z.leb_le 0 key)), (proj2 (Z.ltb_lt key (nb_specific r))) by lia. simpl.
    eexists. split; [done|]. simpl. split.
    + apply list_lookup_insert_eq. unfold zidx. lia.
    + intros key' Hne. destruct (Z.leb_spec 0 key'); [|done]. destruct (Z.ltb_spec key' (nb_specific r)); [|done].
      simpl. rewrite list_lookup_insert_ne; [done|]. unfold zidx. lia.
Qed.

End Api.

(** ** mod_mem.c *)

Module Mem.

(** [free]; the allocator's live blocks are a map from addresses to sizes. *)
Definition hfree (a : Z) (h : gmap Z Z) : option (gmap Z Z) :=
  match h !! a with Some _ => Some (delete a h) | None => None end.

Fixpoint free_all (l : list Z) (h : gmap Z Z) : option (gmap Z Z) :=
  match l with
  | [] => Some h
  | a :: l => match hfree a h with Some h' => free_all l h' | None => None end
  end.

(** [mod_mem_info_t]: the lists of [mod_mem_block_t] are the addresses. *)
Record mem_info := mk_mem { allocated : list Z; to_free : list Z }.

Definition mod_mem_on_thread_init : mem_info := mk_mem [] [].

(** The rounding of a size to full words *)
Definition round_up (size : Z) : Z := Z.land (w64 (size + 7)) (wnot 7).

(** [a] is the address that [malloc] returned. *)
Definition stm_malloc (size a : Z) (mi : mem_info) (h : gmap Z Z) : Z * mem_info * gmap Z Z :=
  (a, mk_mem (a :: allocated mi) (to_free mi), <[a := round_up size]> h).

(** The loop over the words of the block: each is stored to with the empty mask. *)
Fixpoint overwrite (n : nat) (a : Z) (k : txbody) : txbody :=
  match n with O => k | S n => TStore2 a 0 0 (overwrite n (w64 (a + 8)) k) end.

(** The words that [stm_free2] overwrites: the first one and their number *)
Definition free_words (addr idx size : Z) : Z * nat :=
  if 0 <? size
  then (w64 (addr + 8 * Z.shiftr (w64 (idx + 7)) 3), Z.to_nat (Z.shiftr (w64 (size + 7)) 3))
  else (addr, O).

Definition stm_free2 (addr idx size : Z) (mi : mem_info) (k : txbody) : mem_info * txbody :=
  (mk_mem (allocated mi) (addr :: to_free mi),
   overwrite (free_words addr idx size).2 (free_words addr idx size).1 k).

Definition stm_free (addr size : Z) (mi : mem_info) (k : txbody) : mem_info * txbody :=
  stm_free2 addr 0 size mi k.

(** With [gc] the blocks go to [gc_free] at the clock's value [t]; the last
    component lists them. *)
Definition mod_mem_on_commit (gc : bool) (t : Z) (mi : mem_info) (h : gmap Z Z)
    : option (mem_info * gmap Z Z * list (Z * Z)) :=
  if gc then Some (mk_mem [] [], h, (fun a => (a, t)) <$> to_free mi)
  else match free_all (to_free mi) h with Some h' => Some (mk_mem [] [], h', []) | None => None end.

Definition mod_mem_on_abort (mi : mem_info) (h : gmap Z Z) : option (mem_info * gmap Z Z) :=
  match free_all (allocated mi) h with Some h' => Some (mk_mem [] [], h') | None => None end.

(** What a transaction does to memory: [Malloc size a] got the address [a]. *)
Inductive mem_op := Malloc (size a : Z) | Free (a idx size : Z).

Definition mem_do (op : mem_op) (s : mem_info * gmap Z Z) : mem_info * gmap Z Z :=
  match op with
  | Malloc size a => let '(_, mi, h) := stm_malloc size a s.1 s.2 in (mi, h)
  | Free a idx size => ((stm_free2 a idx size s.1 (TRet 0)).1, s.2)
  end.

Fixpoint mem_run (ops : list mem_op) (s : mem_info * gmap Z Z) : mem_info * gmap Z Z :=
  match ops with [] => s | op :: ops => mem_run ops (mem_do op s) end.

(** [malloc] returns an address that is not live; the application frees live
    blocks, each once. *)
Fixpoint mem_wf (ops : list mem_op) (s : mem_info * gmap Z Z) : Prop :=
  match ops with
  | [] => True
  | op :: ops =>
      match op with
      | Malloc _ a => s.2 !! a = None
      | Free a _ _ => is_Some (s.2 !! a) /\ a ∉ to_free s.1
      end /\ mem_wf ops (mem_do op s)
  end.

Definition freed_by (ops : list mem_op) : list Z :=
  omap (fun op => match op with Free a _ _ => Some a | _ => None end) ops.

(** The heap in which nothing that the transaction freed is missing yet *)
Fixpoint malloced (ops : list mem_op) (h : gmap Z Z) : gmap Z Z :=
  match ops with
  | [] => h
  | Malloc size a :: ops => malloced ops (<[a := round_up size]> h)
  | _ :: ops => malloced ops h
  end.

Lemma decide_cons {A} (a b : Z) l (x y : A) :
  a <> b -> (if decide (a ∈ b :: l) then x else y) = if decide (a ∈ l) then x else y.
Proof.
  intros Hne. destruct (decide (a ∈ b :: l)) as [H1|H1], (decide (a ∈ l)) as [H2|H2]; try done; exfalso;
    rewrite elem_of_cons in H1; tauto.
Qed.

Lemma free_all_spec l h :
  NoDup l -> (forall a, a ∈ l -> is_Some (h !! a)) ->
  exists h', free_all l h = Some h' /\ forall a, h' !! a = if decide (a ∈ l) then None else h !! a.
Proof.
  intros Hl. revert h. induction Hl as [|b l Hb Hl IH]; intros h Hlive; simpl.
  { by exists h. }
  unfold hfree. destruct (Hlive b) as [n ->]; [by left|].
  destruct (IH (delete b h)) as (h' & -> & Hh').
  { intros a Ha. rewrite lookup_delete_ne by set_solver. apply Hlive. by right. }
  exists h'. split; [done|]. intros a. rewrite Hh'.
  destruct (decide (a = b)) as [->|Hne].
  - rewrite decide_False by done. rewrite lookup_delete_eq. by rewrite decide_True by left.
  - by rewrite lookup_delete_ne, decide_cons.
Qed.

(** The blocks of a transaction: what it allocated is live and was not before,
    what it will free is live. *)
Record mem_ok (h0 : gmap Z Z) (s : mem_info * gmap Z Z) : Prop := {
  mk_alloc_nodup : NoDup (allocated s.1); mk_free_nodup : NoDup (to_free s.1);
  mk_alloc : forall a, a ∈ allocated s.1 -> is_Some (s.2 !! a);
  mk_free : forall a, a ∈ to_free s.1 -> is_Some (s.2 !! a);
  mk_old : forall a, (if decide (a ∈ allocated s.1) then None else s.2 !! a) = h0 !! a }.

Lemma mem_ok_run h0 ops s :
  mem_ok h0 s -> mem_wf ops s ->
  mem_ok h0 (mem_run ops s) /\ (mem_run ops s).2 = malloced ops s.2 /\
  forall a, a ∈ to_free (mem_run ops s).1 <-> a ∈ freed_by ops \/ a ∈ to_free s.1.
Proof.
  revert s. induction ops as [|op ops IH]; intros [mi h] Hok Hwf; simpl.
  { split_and!; [done..|]. intros a. split; [auto|]. intros [H|H]; [by apply elem_of_nil in H|done]. }
  destruct Hwf as [Hop Hwf]. destruct Hok as [H1 H2 H3 H4 H5]. simpl in *.
  destruct op as [size a|a idx size]; simpl in *.
  - assert (Hok' : mem_ok h0 (mk_mem (a :: allocated mi) (to_free mi), <[a := round_up size]> h)).
    { constructor; simpl; try done.
      - constructor; [|done]. intros Ha. destruct (H3 a Ha) as [n Hn]. congruence.
      - intros b [->|Hb]%elem_of_cons; [by rewrite lookup_insert_eq|].
        rewrite lookup_insert_ne; [auto|]. intros ->. destruct (H3 b Hb). congruence.
      - intros b Hb. rewrite lookup_insert_ne; [auto|]. intros ->. destruct (H4 b Hb). congruence.
      - intros b. rewrite <- H5. destruct (decide (b = a)) as [->|Hne].
        + rewrite decide_True by left. rewrite decide_False; [done|].
          intros Ha. destruct (H3 a Ha). congruence.
        + by rewrite lookup_insert_ne, decide_cons. }
    destruct (IH _ Hok' Hwf) as (Hok & Hh & Hf). done.
  - destruct Hop as [Hlive Hnot].
    assert (Hok' : mem_ok h0 (mk_mem (allocated mi) (a :: to_free mi), h)).
    { constructor; simpl; try done; [by constructor|]. by intros b [->|Hb]%elem_of_cons; [|apply H4]. }
    destruct (IH _ Hok' Hwf) as (Hok & Hh & Hf).
    split_and!; [done..|]. intros b. rewrite Hf. simpl. rewrite !elem_of_cons. tauto.
Qed.

Lemma mem_ok_start h : mem_ok h (mod_mem_on_thread_init, h).
Proof.
  constructor; simpl; try done; try (by constructor); by intros a ?%elem_of_nil.
Qed.

(** C35. Memory follows the fate of the transaction.  However it allocates and frees,
    its own blocks included, an abort leaves the allocator exactly as it was
    before the transaction; a commit keeps what was allocated and disposes of
    exactly what was freed: at once, or with EPOCH_GC by handing exactly these
    blocks to [gc_free]; nothing is freed twice, and the lists are empty for the
    next transaction. *)
Theorem mem_follows_transaction ops h t :
  mem_wf ops (mod_mem_on_thread_init, h) ->
  let '(mi, h1) := mem_run ops (mod_mem_on_thread_init, h) in
  mod_mem_on_abort mi h1 = Some (mod_mem_on_thread_init, h) /\
  (exists h2, mod_mem_on_commit false t mi h1 = Some (mod_mem_on_thread_init, h2, []) /\
     forall a, h2 !! a = if decide (a ∈ freed_by ops) then None else malloced ops h !! a) /\
  (exists l, mod_mem_on_commit true t mi h1 = Some (mod_mem_on_thread_init, malloced ops h, l) /\
     NoDup l /\ forall x, x ∈ l <-> exists a, x = (a, t) /\ a ∈ freed_by ops).
Proof.
  intros Hwf. destruct (mem_ok_run h ops _ (mem_ok_start h) Hwf) as (Hok & Hh & Hf).
  destruct (mem_run ops _) as [mi h1]. destruct Hok as [H1 H2 H3 H4 H5]. simpl in *. subst h1.
  assert (Hf' : forall a, a ∈ to_free mi <-> a ∈ freed_by ops).
  { intros a. rewrite Hf. split; [|by left]. by intros [|?%elem_of_nil]. }
  split_and!.
  - unfold mod_mem_on_abort. destruct (free_all_spec (allocated mi) _ H1 H3) as (h' & -> & Hh').
    f_equal. unfold mod_mem_on_thread_init. f_equal. apply map_eq. intros a. by rewrite Hh', H5.
  - unfold mod_mem_on_commit. destruct (free_all_spec (to_free mi) _ H2 H4) as (h' & -> & Hh').
    exists h'. split; [done|]. intros a. rewrite Hh'. by rewrite (decide_ext _ _ _ _ (Hf' a)).
  - eexists. split; [done|]. split.
    + apply (NoDup_fmap_2 _); done.
    + intros x. rewrite list_elem_of_fmap. setoid_rewrite Hf'. done.
Qed.

(** The size of a block is the requested one rounded up to full words, and the
    words that [stm_free] of a block with the size it was allocated with
    overwrites lie inside the block and cover every byte of it. *)
Theorem free_stays_in_block size addr mi k :
  0 < size -> size + 7 < 2 ^ 64 -> 0 <= addr -> addr + round_up size < 2 ^ 64 ->
  let (a, n) := free_words addr 0 size in
  size <= round_up size < size + 8 /\ round_up size mod 8 = 0 /\
  a = addr /\ 8 * Z.of_nat n = round_up size /\
  (stm_free addr size mi k).2 = overwrite n a k.
Proof.
  intros Hs Hov Ha Hend. unfold free_words, stm_free, stm_free2, free_words.
  rewrite (proj2 (Z.ltb_lt 0 size)) by done. cbn [fst snd].
  assert (Hw : w64 (size + 7) = size + 7) by (apply w64_id; unfold is_word, word_size; lia).
  assert (Hr : round_up size = 8 * ((size + 7) / 8)).
  { unfold round_up. rewrite Hw. change (wnot 7) with (wnot (Z.ones 3)).
    rewrite land_wnot_ones; [|unfold is_word, word_size; lia|lia].
    change (2 ^ 3) with 8. pose proof (Z.div_mod (size + 7) 8 ltac:(lia)). lia. }
  rewrite Hw, !Z.shiftr_div_pow2 by lia. change (2 ^ 3) with 8.
  change (w64 (0 + 7) / 8) with 0. rewrite Hr in *.
  pose proof (Z.div_mod (size + 7) 8 ltac:(lia)). pose proof (Z.mod_pos_bound (size + 7) 8 ltac:(lia)).
  split_and!; try lia.
  - rewrite Z.mul_comm. apply Z.mod_mul. lia.
  - rewrite Z.mul_0_r, Z.add_0_r. apply w64_id. unfold is_word, word_size. lia.
  - done.
Qed.

(** A transaction that frees block 64, allocates block 128 and frees it again *)
Lemma mem_follows_transaction_witness :
  let h := <[64 := 16]> ∅ in
  let ops := [Free 64 0 16; Malloc 20 128; Free 128 0 20] in
  let '(mi, h1) := mem_run ops (mod_mem_on_thread_init, h) in
  mod_mem_on_abort mi h1 = Some (mod_mem_on_thread_init, h) /\ h1 !! 128 = Some 24.
Proof.
  split; [|by vm_compute].
  apply (mem_follows_transaction [Free 64 0 16; Malloc 20 128; Free 128 0 20] (<[64 := 16]> ∅) 5).
  simpl. split_and!; try done; [by apply not_elem_of_nil|].
  intros ?%list_elem_of_singleton. done.
Defined.

Lemma free_stays_in_block_witness :
  8 * Z.of_nat (free_words 128 0 20).2 = round_up 20 /\ round_up 20 = 24.
Proof.
  split; [|by vm_compute].
  apply (free_stays_in_block 20 128 mod_mem_on_thread_init (TRet 0)); by vm_compute.
Defined.

End Mem.

(** ** mod_cb.c *)

Module Cb.

(** [mod_cb_entry_t] *)
Record entry := mk_entry { f : Z; arg : Z }.

(** [mod_cb_info_t] *)
Record cb_info := mk_info { commit : list entry; abort : list entry }.

Definition mod_cb_on_thread_init : cb_info := mk_info [] [].

Definition stm_on_abort (g a : Z) (icb : cb_info) : Z * cb_info :=
  (1, mk_info (commit icb) (mk_entry g a :: abort icb)).

Definition stm_on_commit (g a : Z) (icb : cb_info) : Z * cb_info :=
  (1, mk_info (mk_entry g a :: commit icb) (abort icb)).

Section Callbacks.

(** The application's functions: what a call does to the rest of the state, and to
    the module's data, since a callback may itself register callbacks. *)
Context {W : Type} (call : Z -> Z -> W * cb_info -> W * cb_info).

(** [while ((ccb = icb->commit) != NULL) { icb->commit->f(icb->commit->arg);
      icb->commit = ccb->next; free(ccb); }]; the list of entries called comes
    with the result. *)
Fixpoint call_commit (ccb : list entry) (s : W * cb_info) : W * cb_info * list entry :=
  match ccb with
  | [] => (s, [])
  | e :: next =>
      let '(w, icb) := call (f e) (arg e) s in
      let '(s', l) := call_commit next (w, mk_info next (abort icb)) in (s', e :: l)
  end.

Fixpoint call_abort (ccb : list entry) (s : W * cb_info) : W * cb_info * list entry :=
  match ccb with
  | [] => (s, [])
  | e :: next =>
      let '(w, icb) := call (f e) (arg e) s in
      let '(s', l) := call_abort next (w, mk_info (commit icb) next) in (s', e :: l)
  end.

Definition mod_cb_on_commit (s : W * cb_info) : W * cb_info * list entry :=
  let '(w, icb, l) := call_commit (commit s.2) s in (w, mk_info (commit icb) [], l).

Definition mod_cb_on_abort (s : W * cb_info) : W * cb_info * list entry :=
  let '(w, icb, l) := call_abort (abort s.2) s in (w, mk_info [] (abort icb), l).

Lemma call_commit_spec ccb s :
  commit s.2 = ccb -> (call_commit ccb s).2 = ccb /\ commit (call_commit ccb s).1.2 = [].
Proof.
  revert s. induction ccb as [|e next IH]; intros [w icb] Hs; simpl in *; [done|].
  destruct (call (f e) (arg e) (w, icb)) as [w1 icb1].
  destruct (IH (w1, mk_info next (abort icb1)) eq_refl) as [Hl Hc].
  destruct (call_commit next _) as [s' l]. simpl in *. by subst.
Qed.

Lemma call_abort_spec ccb s :
  abort s.2 = ccb -> (call_abort ccb s).2 = ccb /\ abort (call_abort ccb s).1.2 = [].
Proof.
  revert s. induction ccb as [|e next IH]; intros [w icb] Hs; simpl in *; [done|].
  destruct (call (f e) (arg e) (w, icb)) as [w1 icb1].
  destruct (IH (w1, mk_info (commit icb1) next) eq_refl) as [Hl Hc].
  destruct (call_abort next _) as [s' l]. simpl in *. by subst.
Qed.

(** What a transaction registers: to be called on commit ([true]) or on abort *)
Definition register (r : bool * entry) (icb : cb_info) : cb_info :=
  if r.1 then (stm_on_commit (f r.2) (arg r.2) icb).2 else (stm_on_abort (f r.2) (arg r.2) icb).2.

Definition registrations (rs : list (bool * entry)) (icb : cb_info) : cb_info :=
  foldl (fun icb r => register r icb) icb rs.

Definition wanted (b : bool) (rs : list (bool * entry)) : list entry :=
  (filter (fun r => Is_true (Bool.eqb r.1 b)) rs).*2.

Lemma registrations_spec rs icb :
  registrations rs icb = mk_info (rev (wanted true rs) ++ commit icb) (rev (wanted false rs) ++ abort icb).
Proof.
  revert icb. induction rs as [|[[|] [g a]] rs IH]; intros icb; [by destruct icb| |];
    unfold registrations, wanted in *; simpl; rewrite IH; simpl; by rewrite <- (assoc_L (++)).
Qed.

(** C36. Callbacks: whatever a transaction registers, and whatever the callbacks do
    themselves, its commit calls exactly the functions registered for a commit,
    each once, the last one first, its abort exactly those registered for an
    abort, and the lists are empty when the next transaction starts. *)
Theorem callbacks_once rs w :
  let s := (w, registrations rs mod_cb_on_thread_init) in
  (mod_cb_on_commit s).2 = rev (wanted true rs) /\
  (mod_cb_on_commit s).1.2 = mod_cb_on_thread_init /\
  (mod_cb_on_abort s).2 = rev (wanted false rs) /\
  (mod_cb_on_abort s).1.2 = mod_cb_on_thread_init.
Proof.
  cbv zeta. rewrite registrations_spec. simpl. rewrite !app_nil_r.
  set (icb := mk_info _ _). unfold mod_cb_on_commit, mod_cb_on_abort.
  destruct (call_commit_spec (commit icb) (w, icb) eq_refl) as [Hl Hc].
  destruct (call_abort_spec (abort icb) (w, icb) eq_refl) as [Hl' Hc']. simpl.
  destruct (call_commit _ _) as [[w1 icb1] l], (call_abort _ _) as [[w2 icb2] l']. simpl in *.
  unfold mod_cb_on_thread_init. by rewrite Hc, Hc', Hl, Hl'.
Qed.

End Callbacks.

End Cb.

Lemma registry_bounds_witness :
  let r := (Api.stm_create_specific (Api.stm_register 1 2 0 4 5 0 Api.registry_init).2).2 in
  Api.nb (Api.commit_cb r) <= Api.MAX_CB /\ Api.nb_specific r = 1.
Proof.
  cbv zeta. split; [|by vm_compute].
  refine (proj1 (proj2 (proj2 (proj2 (proj1 (Api.registry_bounds _ _)))))).
  apply Api.reg_specific, Api.reg_register, Api.reg_init.
Defined.
