(* ===== verification/UndoLog.v ===== *)
(** * The undo log of mod_log.c

    Variables that a transaction writes without the library's stores are saved
    with [stm_log_*] before they are written and put back when it aborts.  The
    memory is a function from addresses to bytes; values are the unsigned
    integers of their bytes, and a member [char v] of the union holds the signed
    value of its byte.  The specification is what the commits and aborts of a thread do to
    the memory, with the entries that an abort does not erase. *)
From S2P Require Import Prelude Words LockWord Machine Tx Ctl CtlHist Wrappers.

Definition LW_SET_SIZE : Z := 1024.

Inductive log_type :=
| TYPE_WORD | TYPE_U8 | TYPE_U16 | TYPE_U32 | TYPE_U64 | TYPE_CHAR | TYPE_UCHAR | TYPE_SHORT
| TYPE_USHORT | TYPE_INT | TYPE_UINT | TYPE_LONG | TYPE_ULONG | TYPE_FLOAT | TYPE_DOUBLE | TYPE_PTR.

(** The bytes of a variable of the type *)
Definition type_size (ty : log_type) : nat :=
  match ty with
  | TYPE_U8 | TYPE_CHAR | TYPE_UCHAR => 1
  | TYPE_U16 | TYPE_SHORT | TYPE_USHORT => 2
  | TYPE_U32 | TYPE_INT | TYPE_UINT | TYPE_FLOAT => 4
  | TYPE_WORD | TYPE_U64 | TYPE_LONG | TYPE_ULONG | TYPE_DOUBLE | TYPE_PTR => 8
  end.

(** The assignment [w->data.X.v = *addr]: the union has [char v] for the types
    [u8] to [u64], signed members for the signed types. *)
Definition saved (ty : log_type) (x : Z) : Z :=
  match ty with
  | TYPE_U8 | TYPE_U16 | TYPE_U32 | TYPE_U64 | TYPE_CHAR => signed 8 (x mod 2 ^ 8)
  | TYPE_SHORT => signed 16 x
  | TYPE_INT => signed 32 x
  | TYPE_LONG => signed 64 x
  | _ => x
  end.

(** [*w->data.X.a = w->data.X.v] *)
Definition restored (ty : log_type) (v : Z) : Z := unsigned (8 * Z.of_nat (type_size ty)) v.

(** ** Memory *)

Definition bytes := Z -> Z.

Fixpoint read (m : bytes) (a : Z) (n : nat) : list Z :=
  match n with O => [] | S n => m a :: read m (a + 1) n end.

Definition write (m : bytes) (a : Z) (l : list Z) : bytes := fun x =>
  if (a <=? x) && (x <? a + Z.of_nat (length l)) then nth (Z.to_nat (x - a)) l 0 else m x.

(** ** The log *)

(** [mod_log_w_entry_t]: a value, or a copy in the buffer [buf] *)
Inductive log_entry :=
| Value (ty : log_type) (a v : Z)
| Copy (a : Z) (v : list Z) (buf : nat).

(** [mod_log_w_set_t]; [entries] is the part of the array that has been written,
    [live] the buffers that are allocated, of [next] obtained so far. *)
Record w_log := mk_log {
  entries : list log_entry; nb_entries : nat; lsize : Z; allocated : Z;
  live : gset nat; next : nat }.
#[export] Instance eta_w_log : Eta w_log := fun w =>
  mk_log (entries w) (nb_entries w) (lsize w) (allocated w) (live w) (next w).

Definition mod_log_on_thread_init : w_log := mk_log [] 0 0 0 ∅ 0.

(** [get_entry], and the assignment to the entry *)
Definition add_entry (e : log_entry) (ws : w_log) : w_log :=
  ws <| lsize := if Z.of_nat (nb_entries ws) =? lsize ws
                 then if lsize ws <? LW_SET_SIZE then LW_SET_SIZE else lsize ws * 2
                 else lsize ws |>
     <| entries := take (nb_entries ws) (entries ws) ++ [e] ++ drop (S (nb_entries ws)) (entries ws) |>
     <| nb_entries := S (nb_entries ws) |>.

(** [stm_log], [stm_log_u8], ..., [stm_log_ptr] *)
Definition stm_log (ty : log_type) (addr : Z) (m : bytes) (ws : w_log) : w_log :=
  add_entry (Value ty addr (saved ty (le (read m addr (type_size ty))))) ws.

Definition stm_log_bytes (addr : Z) (size : nat) (m : bytes) (ws : w_log) : w_log :=
  let ws := add_entry (Copy addr (read m addr size) (next ws)) ws in
  ws <| live := {[next ws]} ∪ live ws |> <| next := S (next ws) |> <| allocated := allocated ws + 1 |>.

(** [free] of a buffer *)
Definition free_buf (b : nat) (ws : w_log) : option w_log :=
  if decide (b ∈ live ws) then Some (ws <| live := live ws ∖ {[b]} |>) else None.

(** The loop of [mod_log_on_commit]: [do { ... w++; } while (ws->allocated > 0);]
    [None] is a failed assertion or a buffer freed twice. *)
Fixpoint free_copies (w : list log_entry) (ws : w_log) : option w_log :=
  match w with
  | [] => None
  | Value _ _ _ :: w => if 0 <? allocated ws then free_copies w ws else Some ws
  | Copy _ _ b :: w =>
      match free_buf b ws with
      | None => None
      | Some ws =>
          let ws := ws <| allocated := allocated ws - 1 |> in
          if 0 <? allocated ws then free_copies w ws else Some ws
      end
  end.

Definition mod_log_on_commit (ws : w_log) : option w_log :=
  match (if 0 <? allocated ws then free_copies (take (nb_entries ws) (entries ws)) ws else Some ws) with
  | Some ws => Some (ws <| nb_entries := O |>)
  | None => None
  end.

(** One turn of the loop of [mod_log_on_abort] *)
Definition undo (e : log_entry) (s : bytes * w_log) : option (bytes * w_log) :=
  match e with
  | Value ty a v => Some (write s.1 a (to_bytes (type_size ty) (restored ty v)), s.2)
  | Copy a v b =>
      match free_buf b s.2 with
      | Some ws => Some (write s.1 a v, ws <| allocated := allocated ws - 1 |>)
      | None => None
      end
  end.

(** The entries, the last one first *)
Fixpoint undo_all (l : list log_entry) (s : bytes * w_log) : option (bytes * w_log) :=
  match l with
  | [] => Some s
  | e :: l => match undo e s with Some s' => undo_all l s' | None => None end
  end.

Definition mod_log_on_abort (s : bytes * w_log) : option (bytes * w_log) :=
  match undo_all (rev (take (nb_entries s.2) (entries s.2))) s with
  | Some s' => if allocated s'.2 =? 0 then Some s' else None
  | None => None
  end.

(** ** What a transaction does *)

Inductive log_op := Log (ty : log_type) (a : Z) | Log_bytes (a : Z) (n : nat) | Write (a : Z) (l : list Z).

Definition log_do (op : log_op) (s : bytes * w_log) : bytes * w_log :=
  match op with
  | Log ty a => (s.1, stm_log ty a s.1 s.2)
  | Log_bytes a n => (s.1, stm_log_bytes a n s.1 s.2)
  | Write a l => (write s.1 a l, s.2)
  end.

Fixpoint log_run (ops : list log_op) (s : bytes * w_log) : bytes * w_log :=
  match ops with [] => s | op :: ops => log_run ops (log_do op s) end.

Definition in_range (x a : Z) (n : nat) : Prop := a <= x < a + Z.of_nat n.

(** The types whose member of the union is wide enough *)
Definition wide (ty : log_type) : Prop :=
  match ty with TYPE_U16 | TYPE_U32 | TYPE_U64 => False | _ => True end.

(** What is written has been logged before, and is bytes. *)
Fixpoint log_wf (c : Z -> Prop) (ops : list log_op) : Prop :=
  match ops with
  | [] => True
  | Log ty a :: ops => wide ty /\ log_wf (fun x => in_range x a (type_size ty) \/ c x) ops
  | Log_bytes a n :: ops => log_wf (fun x => in_range x a n \/ c x) ops
  | Write a l :: ops => Forall is_byte l /\ (forall x, in_range x a (length l) -> c x) /\ log_wf c ops
  end.

(** ** Memory *)

Definition is_bytes (m : bytes) : Prop := forall x, is_byte (m x).

Lemma read_length m a n : length (read m a n) = n.
Proof. revert a. induction n as [|n IH]; intros a; [done|]. simpl. by rewrite IH. Qed.

Lemma read_nth m a n i : (i < n)%nat -> nth i (read m a n) 0 = m (a + Z.of_nat i).
Proof.
  revert a i. induction n as [|n IH]; intros a [|i] Hi; [lia|lia| |]; simpl.
  - f_equal. lia.
  - rewrite IH by lia. f_equal. lia.
Qed.

Lemma read_bytes m a n : is_bytes m -> Forall is_byte (read m a n).
Proof. intros Hm. revert a. induction n; intros a; simpl; constructor; auto. Qed.

Lemma write_in m a l x : in_range x a (length l) -> write m a l x = nth (Z.to_nat (x - a)) l 0.
Proof.
  unfold in_range, write. intros H. by rewrite (proj2 (Z.leb_le a x)), (proj2 (Z.ltb_lt x _)) by lia.
Qed.

Lemma write_out m a l x : ~ in_range x a (length l) -> write m a l x = m x.
Proof.
  unfold in_range, write. intros H. destruct (Z.leb_spec a x); [|done].
  destruct (Z.ltb_spec x (a + Z.of_nat (length l))); [lia|done].
Qed.

Lemma in_range_dec x a n : {in_range x a n} + {~ in_range x a n}.
Proof. unfold in_range. destruct (Z_le_dec a x), (Z_lt_dec x (a + Z.of_nat n)); (by left) || (right; lia). Qed.

(** Writing back what was read *)
Lemma write_read m a n x : write m a (read m a n) x = m x.
Proof.
  destruct (in_range_dec x a (length (read m a n))) as [Hx|Hx]; [|by apply write_out].
  rewrite write_in by done. rewrite read_length in Hx. unfold in_range in Hx.
  rewrite read_nth by lia. f_equal. lia.
Qed.

Lemma write_is_bytes m a l : is_bytes m -> Forall is_byte l -> is_bytes (write m a l).
Proof.
  intros Hm Hl x. destruct (in_range_dec x a (length l)) as [Hx|Hx]; [|by rewrite write_out].
  rewrite write_in by done. rewrite Forall_forall in Hl. apply Hl, nth_In. unfold in_range in Hx. lia.
Qed.

(** ** Saved values *)

Lemma le_range l : Forall is_byte l -> 0 <= le l < 2 ^ (8 * Z.of_nat (length l)).
Proof.
  induction 1 as [|b l Hb Hl IH]; [done|]. cbn [le length]. unfold is_byte in Hb.
  replace (8 * Z.of_nat (S (length l))) with (8 + 8 * Z.of_nat (length l)) by lia.
  rewrite Z.pow_add_r by lia. change (2 ^ 8) with 256. lia.
Qed.

Lemma to_bytes_le l : Forall is_byte l -> to_bytes (length l) (le l) = l.
Proof.
  induction 1 as [|b l Hb Hl IH]; [done|]. cbn [le length to_bytes]. unfold is_byte in Hb.
  rewrite Z.shiftr_div_pow2 by lia. change (2 ^ 8) with 256.
  replace ((b + 256 * le l) / 256) with (le l) by (apply (Z.div_unique _ _ _ b); lia).
  rewrite IH. f_equal. unfold part. rewrite Z.mul_0_r, Z.shiftr_0_r, Z.land_ones by lia.
  symmetry. apply (Z.mod_unique _ _ (le l)); [left|]; change (2 ^ 8) with 256; lia.
Qed.

Lemma unsigned_signed n x : 0 < n -> unsigned n (signed n x) = unsigned n x.
Proof.
  intros Hn. unfold unsigned, signed. destruct (x <? 2 ^ (n - 1)); [done|].
  rewrite <- Zminus_mod_idemp_r, Z_mod_same_full, Z.sub_0_r. done.
Qed.

Lemma restored_wide ty x :
  wide ty -> 0 <= x < 2 ^ (8 * Z.of_nat (type_size ty)) -> restored ty (saved ty x) = x.
Proof.
  intros Hw Hx. assert (Hid : unsigned (8 * Z.of_nat (type_size ty)) x = x) by by apply Z.mod_small.
  unfold restored. destruct ty; simpl in Hw; try done; cbn [saved type_size] in *; try exact Hid;
    rewrite unsigned_signed by lia; try exact Hid.
  all: unfold unsigned in *; rewrite Z.mod_mod by lia; exact Hid.
Qed.

(** For the other types only the low byte comes back, sign-extended. *)
Lemma restored_narrow ty x :
  ~ wide ty -> restored ty (saved ty x) = unsigned (8 * Z.of_nat (type_size ty)) (signed 8 (x mod 2 ^ 8)).
Proof. intros Hw. by destruct ty; simpl in Hw. Qed.

(** ** Undoing *)

Definition entry_at (e : log_entry) : Z * list Z :=
  match e with
  | Value ty a v => (a, to_bytes (type_size ty) (restored ty v))
  | Copy a v _ => (a, v)
  end.

Definition undo_mem (l : list log_entry) (m : bytes) : bytes :=
  foldl (fun m e => write m (entry_at e).1 (entry_at e).2) m l.

Definition covered (l : list log_entry) (x : Z) : Prop :=
  exists e, e ∈ l /\ in_range x (entry_at e).1 (length (entry_at e).2).

Definition bufs (l : list log_entry) : list nat :=
  omap (fun e => match e with Copy _ _ b => Some b | _ => None end) l.

Lemma undo_mem_ext l m m' :
  (forall x, covered l x \/ m x = m' x) -> forall x, undo_mem l m x = undo_mem l m' x.
Proof.
  revert m m'. induction l as [|e l IH]; intros m m' H x; simpl.
  - destruct (H x) as [(e & He & _)|]; [by apply elem_of_nil in He|done].
  - apply IH. intros y. destruct (in_range_dec y (entry_at e).1 (length (entry_at e).2)) as [Hy|Hy].
    + right. by rewrite !write_in.
    + rewrite !write_out by done. destruct (H y) as [(e' & [->|He']%elem_of_cons & Hr)|]; [done| |by right].
      left. by exists e'.
Qed.

(** The log [l] of a transaction that began with the memory [m0] *)
Record log_inv (m0 m : bytes) (ws : w_log) (l : list log_entry) : Prop := {
  li_bytes : is_bytes m;
  li_entries : take (nb_entries ws) (entries ws) = l;
  li_length : (nb_entries ws <= length (entries ws))%nat;
  li_nodup : NoDup (bufs l);
  li_live : live ws = list_to_set (bufs l);
  li_next : Forall (fun b => (b < next ws)%nat) (bufs l);
  li_alloc : allocated ws = Z.of_nat (length (bufs l));
  li_undo : forall x, undo_mem (rev l) m x = m0 x }.

(** Between transactions the log is empty; what is left in the array does not matter. *)
Definition log_clean (ws : w_log) : Prop := nb_entries ws = O /\ allocated ws = 0 /\ live ws = ∅.

Lemma log_inv_start m ws : is_bytes m -> log_clean ws -> log_inv m m ws [].
Proof. intros Hm (Hn & Ha & Hl). constructor; rewrite ?Hn; simpl; try done; try lia; by constructor. Qed.

Lemma put_entry {A} n (e : A) l :
  (n <= length l)%nat ->
  take (S n) (take n l ++ [e] ++ drop (S n) l) = take n l ++ [e] /\
  (S n <= length (take n l ++ [e] ++ drop (S n) l))%nat.
Proof.
  intros Hle. assert (Hlen : length (take n l ++ [e]) = S n).
  { rewrite length_app, length_take. simpl. lia. }
  rewrite (assoc_L (++)). split.
  - rewrite take_app_le by lia. apply take_ge. lia.
  - rewrite length_app. lia.
Qed.

Lemma take_add_entry e ws :
  (nb_entries ws <= length (entries ws))%nat ->
  take (nb_entries (add_entry e ws)) (entries (add_entry e ws)) = take (nb_entries ws) (entries ws) ++ [e] /\
  (nb_entries (add_entry e ws) <= length (entries (add_entry e ws)))%nat.
Proof. apply put_entry. Qed.

Lemma undo_snoc l e m : undo_mem (rev (l ++ [e])) m = undo_mem (rev l) (write m (entry_at e).1 (entry_at e).2).
Proof. by rewrite rev_app_distr. Qed.

Lemma bufs_snoc l e : bufs (l ++ [e]) = bufs l ++ bufs [e].
Proof. apply omap_app. Qed.

(** An entry that saves what is in memory *)
Lemma log_inv_value m0 m ws l ty a :
  wide ty -> log_inv m0 m ws l ->
  exists e, log_inv m0 m (stm_log ty a m ws) (l ++ [e]) /\ entry_at e = (a, read m a (type_size ty)).
Proof.
  intros Hw [Hm He Hle Hnd Hlive Hnext Hal Hundo].
  set (e := Value ty a (saved ty (le (read m a (type_size ty))))). exists e.
  destruct (take_add_entry e ws Hle) as [Htk Hle'].
  assert (Hat : entry_at e = (a, read m a (type_size ty))).
  { cbn [entry_at e]. rewrite restored_wide; [|done|].
    - rewrite <- (read_length m a (type_size ty)) at 1. by rewrite to_bytes_le by by apply read_bytes.
    - pose proof (le_range _ (read_bytes m a (type_size ty) Hm)) as Hr. by rewrite read_length in Hr. }
  split; [|exact Hat]. constructor; try done.
  - unfold stm_log. fold e. by rewrite Htk, He.
  - rewrite bufs_snoc. by rewrite app_nil_r.
  - rewrite bufs_snoc. by rewrite app_nil_r.
  - rewrite bufs_snoc. by rewrite app_nil_r.
  - rewrite bufs_snoc. by rewrite app_nil_r.
  - intros x. rewrite undo_snoc, Hat. simpl. rewrite <- Hundo. apply undo_mem_ext.
    intros y. right. apply write_read.
Qed.

Lemma log_inv_copy m0 m ws l a n :
  log_inv m0 m ws l ->
  exists e, log_inv m0 m (stm_log_bytes a n m ws) (l ++ [e]) /\ entry_at e = (a, read m a n).
Proof.
  intros [Hm He Hle Hnd Hlive Hnext Hal Hundo].
  set (e := Copy a (read m a n) (next ws)). exists e.
  destruct (take_add_entry e ws Hle) as [Htk Hle']. split; [|done]. constructor.
  - done.
  - unfold stm_log_bytes. fold e. simpl. simpl in Htk. by rewrite Htk, He.
  - exact Hle'.
  - rewrite bufs_snoc. apply list.NoDup_app. split_and!; [done| |apply NoDup_singleton].
    intros b Hb ->%list_elem_of_singleton. rewrite list.Forall_forall in Hnext. specialize (Hnext _ Hb). lia.
  - rewrite bufs_snoc, list_to_set_app_L. simpl.
    rewrite Hlive, (right_id_L ∅ (∪)). apply union_comm_L.
  - rewrite bufs_snoc. simpl. apply Forall_app. split; [|repeat constructor; lia].
    eapply list.Forall_impl; [exact Hnext|]. simpl. lia.
  - rewrite bufs_snoc, length_app. simpl. rewrite Hal. lia.
  - intros x. rewrite undo_snoc. simpl. rewrite <- Hundo. apply undo_mem_ext.
    intros y. right. apply write_read.
Qed.

Lemma log_inv_write m0 m ws l a bs :
  Forall is_byte bs -> (forall x, in_range x a (length bs) -> covered l x) ->
  log_inv m0 m ws l -> log_inv m0 (write m a bs) ws l.
Proof.
  intros Hbs Hc [Hm He Hle Hnd Hlive Hnext Hal Hundo]. constructor; try done; [by apply write_is_bytes|].
  intros x. rewrite <- Hundo. apply undo_mem_ext. intros y.
  destruct (in_range_dec y a (length bs)) as [Hy|Hy]; [left|right; by apply write_out].
  destruct (Hc y Hy) as (e & He' & Hr). exists e. split; [|done].
  rewrite list_elem_of_In, <- in_rev, <- list_elem_of_In. done.
Qed.

Lemma log_inv_run ops m0 m ws l c :
  log_wf c ops -> (forall x, c x -> covered l x) -> log_inv m0 m ws l ->
  exists l', log_inv m0 (log_run ops (m, ws)).1 (log_run ops (m, ws)).2 l'.
Proof.
  revert m ws l c. induction ops as [|op ops IH]; intros m ws l c Hwf Hc HI; [by exists l|].
  assert (Hnew : forall e a n, entry_at e = (a, read m a n) ->
    forall x, in_range x a n \/ c x -> covered (l ++ [e]) x).
  { intros e a n He x [Hx|Hx].
    - exists e. split; [apply elem_of_app; right; by left|]. rewrite He. simpl. by rewrite read_length.
    - destruct (Hc x Hx) as (e' & He' & Hr). exists e'. split; [apply elem_of_app; by left|done]. }
  destruct op as [ty a|a n|a bs]; simpl in *.
  - destruct Hwf as [Hw Hwf]. destruct (log_inv_value m0 m ws l ty a Hw HI) as (e & HI' & He).
    eapply IH; eauto.
  - destruct (log_inv_copy m0 m ws l a n HI) as (e & HI' & He). eapply IH; eauto.
  - destruct Hwf as (Hbs & Hr & Hwf). eapply IH; [done|done|]. apply log_inv_write; auto.
Qed.

(** ** Commit and abort *)

Lemma free_live ws b bs :
  live ws = list_to_set (b :: bs) -> NoDup (b :: bs) ->
  free_buf b ws = Some (ws <| live := list_to_set bs |>).
Proof.
  intros Hl Hnd. apply list.NoDup_cons in Hnd as [Hb _]. unfold free_buf. rewrite Hl.
  rewrite decide_True by (apply elem_of_list_to_set; by left).
  assert (Hd : list_to_set (b :: bs) ∖ {[b]} =@{gset nat} list_to_set bs); [|by rewrite Hd].
  simpl. rewrite difference_union_distr_l_L, difference_diag_L, (left_id_L ∅ (∪)).
  apply difference_disjoint_L. intros x Hx ->%elem_of_singleton. by apply elem_of_list_to_set in Hx.
Qed.

Lemma free_copies_spec w ws :
  live ws = list_to_set (bufs w) -> NoDup (bufs w) -> allocated ws = Z.of_nat (length (bufs w)) ->
  0 < allocated ws ->
  free_copies w ws = Some (ws <| live := ∅ |> <| allocated := 0 |>).
Proof.
  revert ws. induction w as [|[ty a v|a v b] w IH]; intros ws Hl Hnd Ha Hpos; simpl in *; [lia| |].
  - rewrite (proj2 (Z.ltb_lt 0 (allocated ws))) by done. by apply IH.
  - rewrite (free_live ws b (bufs w)) by done. simpl. apply list.NoDup_cons in Hnd as [_ Hnd].
    destruct (Z.ltb_spec 0 (allocated ws - 1)) as [Hlt|Hge].
    + rewrite IH; simpl; [done|done|done|lia|done].
    + destruct (bufs w); [|simpl in *; lia]. simpl in *.
      by replace (allocated ws - 1) with 0 by lia.
Qed.

Lemma undo_all_spec l m ws :
  live ws = list_to_set (bufs l) -> NoDup (bufs l) -> allocated ws = Z.of_nat (length (bufs l)) ->
  undo_all l (m, ws) = Some (undo_mem l m, ws <| live := ∅ |> <| allocated := 0 |>).
Proof.
  revert m ws. induction l as [|[ty a v|a v b] l IH]; intros m ws Hl Hnd Ha; simpl in *.
  - do 2 f_equal. destruct ws; simpl in *. by subst.
  - by rewrite IH.
  - rewrite (free_live ws b (bufs l)) by done. apply list.NoDup_cons in Hnd as [_ Hnd].
    rewrite IH; simpl; [done|done|done|lia].
Qed.

Lemma bufs_rev l : bufs (rev l) ≡ₚ bufs l.
Proof.
  induction l as [|e l IH]; [done|]. simpl rev. rewrite bufs_snoc, IH.
  change (e :: l) with ([e] ++ l). unfold bufs. rewrite omap_app. apply Permutation_app_comm.
Qed.

(** ** The life of a thread

    An attempt of a transaction logs and writes, and then commits or aborts; what others
    write between two attempts is part of the next one. *)

Definition attempt (x : list log_op * bool) (s : bytes * w_log) : option (bytes * w_log) :=
  let s := log_run x.1 s in
  if x.2 then pair s.1 <$> mod_log_on_commit s.2 else mod_log_on_abort s.

Definition attempts (h : list (list log_op * bool)) (s : bytes * w_log) : option (bytes * w_log) :=
  foldl (fun o x => o ≫= attempt x) (Some s) h.

(** *** The specification

    An entry: an address, the bytes that an abort puts there, and whether it has a buffer.
    A thread has those of the attempts that were aborted since its last commit, which an
    abort does not erase. *)

Definition undo_entry : Type := Z * list Z * bool.

Definition sign_extended (l : list Z) : list Z :=
  match l with [] => [] | b :: l => b :: replicate (length l) (if b <? 128 then 0 else 255) end.

#[export] Instance wide_dec ty : Decision (wide ty).
Proof. destruct ty; apply _. Defined.

(** A variable of a narrow type comes back as the sign extension of its lowest byte. *)
Definition put_back_bytes (ty : log_type) (l : list Z) : list Z := if decide (wide ty) then l else sign_extended l.

Fixpoint logged (ops : list log_op) (m : bytes) : list undo_entry :=
  match ops with
  | [] => []
  | Log ty a :: ops => (a, put_back_bytes ty (read m a (type_size ty)), false) :: logged ops m
  | Log_bytes a n :: ops => (a, read m a n, true) :: logged ops m
  | Write a l :: ops => logged ops (write m a l)
  end.

Fixpoint written (ops : list log_op) (m : bytes) : bytes :=
  match ops with [] => m | Write a l :: ops => written ops (write m a l) | _ :: ops => written ops m end.

(** The last entry is put back first. *)
Definition put_back (l : list undo_entry) (m : bytes) : bytes :=
  foldl (fun m (e : undo_entry) => write m e.1.1 e.1.2) m (rev l).

Definition with_buffer (l : list undo_entry) : bool := existsb snd l.

(** [None] is a buffer freed twice: that of an earlier attempt. *)
Definition spec_attempt (x : list log_op * bool) (s : bytes * list undo_entry) : option (bytes * list undo_entry) :=
  let new := logged x.1 s.1 in
  if x.2 then if with_buffer s.2 && with_buffer new then None else Some (written x.1 s.1, [])
  else if with_buffer s.2 then None else Some (put_back (s.2 ++ new) (written x.1 s.1), s.2 ++ new).

Definition spec_attempts (h : list (list log_op * bool)) (s : bytes * list undo_entry) : option (bytes * list undo_entry) :=
  foldl (fun o x => o ≫= spec_attempt x) (Some s) h.

Definition bytes_op (op : log_op) : Prop := match op with Write _ l => Forall is_byte l | _ => True end.

(** *** The log does what the specification says *)

Definition view (e : log_entry) : undo_entry := (entry_at e, match e with Copy _ _ _ => true | _ => false end).

(** The entries [old] of aborted attempts, and those of the current one, [new] *)
Record log_rep (ws : w_log) (old new : list log_entry) : Prop := {
  lr_entries : take (nb_entries ws) (entries ws) = old ++ new;
  lr_length : (nb_entries ws <= length (entries ws))%nat;
  lr_nodup : NoDup (bufs new);
  lr_live : live ws = list_to_set (bufs new);
  lr_next : Forall (fun b => (b < next ws)%nat) (bufs (old ++ new));
  lr_dead : Forall (fun b => b ∉ bufs new) (bufs old);
  lr_alloc : allocated ws = Z.of_nat (length (bufs new)) }.

Lemma bufs_app l l' : bufs (l ++ l') = bufs l ++ bufs l'.
Proof. apply omap_app. Qed.

Lemma with_buffer_view l : with_buffer (view <$> l) = negb (bool_decide (bufs l = [])).
Proof. induction l as [|[ty a v|a v b] l IH]; [done|exact IH|done]. Qed.

Lemma le_replicate k : le (replicate k 0) = 0 /\ le (replicate k 255) = 2 ^ (8 * Z.of_nat k) - 1.
Proof.
  induction k as [|k [IH1 IH2]]; [done|]. cbn [replicate le]. rewrite IH1, IH2. split; [done|].
  replace (8 * Z.of_nat (S k)) with (8 + 8 * Z.of_nat k) by lia. rewrite Z.pow_add_r by lia. lia.
Qed.

(** A [char], in [S k] bytes *)
Lemma to_bytes_extended k b :
  is_byte b -> to_bytes (S k) (unsigned (8 * Z.of_nat (S k)) (signed 8 b)) = b :: replicate k (if b <? 128 then 0 else 255).
Proof.
  intros Hb. destruct (le_replicate k) as [H0 H1]. set (l := b :: replicate k (if b <? 128 then 0 else 255)).
  assert (Hl : Forall is_byte l).
  { constructor; [done|]. apply Forall_replicate. unfold is_byte. case_bool; lia. }
  assert (Hle : unsigned (8 * Z.of_nat (S k)) (signed 8 b) = le l).
  { pose proof (le_range l Hl) as Hr. unfold l in Hr at 3. simpl length in Hr. rewrite length_replicate in Hr.
    unfold unsigned, signed. change (2 ^ (8 - 1)) with 128. unfold l. cbn [le]. fold l.
    replace (8 * Z.of_nat (S k)) with (8 + 8 * Z.of_nat k) in * by lia. rewrite Z.pow_add_r in * by lia.
    change (2 ^ 8) with 256 in *. unfold is_byte in Hb. pose proof (Z.pow_pos_nonneg 2 (8 * Z.of_nat k) ltac:(lia) ltac:(lia)).
    destruct (Z.ltb_spec b 128); rewrite ?H0, ?H1; [rewrite Z.mul_0_r, Z.add_0_r; apply Z.mod_small; nia|].
    symmetry. apply (Z.mod_unique _ _ (-1)); lia. }
  rewrite Hle. replace (S k) with (length l); [by apply to_bytes_le|]. simpl. by rewrite length_replicate.
Qed.

Lemma value_at ty a m :
  is_bytes m -> entry_at (Value ty a (saved ty (le (read m a (type_size ty))))) = (a, put_back_bytes ty (read m a (type_size ty))).
Proof.
  intros Hm. unfold put_back_bytes. cbn [entry_at]. f_equal. case_decide as Hw.
  - rewrite restored_wide; [|done|].
    + rewrite <- (read_length m a (type_size ty)) at 1. by apply to_bytes_le, read_bytes.
    + pose proof (le_range _ (read_bytes m a (type_size ty) Hm)) as Hr. by rewrite read_length in Hr.
  - rewrite restored_narrow by done. destruct (type_size ty) as [|k] eqn:E; [by destruct ty|]. cbn [read le sign_extended].
    rewrite read_length. change (2 ^ 8) with 256. rewrite (Z.mul_comm 256), Z_mod_plus_full, Z.mod_small by apply Hm. by apply to_bytes_extended.
Qed.

Lemma add_rep e ws old new :
  log_rep ws old new -> bufs [e] = [] -> log_rep (add_entry e ws) old (new ++ [e]).
Proof.
  intros [H1 H2 H3 H4 H5 H6 H7] He. destruct (take_add_entry e ws H2) as [Htk Hle].
  constructor; rewrite ?(assoc_L (++)), ?bufs_app, ?He, ?app_nil_r; try done; [by rewrite Htk, H1|].
  by rewrite <- bufs_app.
Qed.

Lemma add_copy_rep a n m ws old new :
  log_rep ws old new -> log_rep (stm_log_bytes a n m ws) old (new ++ [Copy a (read m a n) (next ws)]).
Proof.
  intros [H1 H2 H3 H4 H5 H6 H7]. set (e := Copy a (read m a n) (next ws)). destruct (take_add_entry e ws H2) as [Htk Hle].
  assert (Hfresh : Forall (fun b => b <> next ws) (bufs old ++ bufs new)).
  { rewrite <- bufs_app. eapply list.Forall_impl; [exact H5|]. simpl. lia. }
  apply Forall_app in Hfresh as [Hf1 Hf2]. rewrite list.Forall_forall in Hf1, Hf2.
  constructor.
  - unfold stm_log_bytes. fold e. simpl. simpl in Htk. by rewrite Htk, H1, (assoc_L (++)).
  - exact Hle.
  - rewrite bufs_snoc. apply list.NoDup_app. split_and!; [done| |apply NoDup_singleton].
    intros b Hb ->%list_elem_of_singleton. by apply (Hf2 _ Hb).
  - rewrite bufs_snoc, list_to_set_app_L. simpl. rewrite H4, (right_id_L ∅ (∪)). apply union_comm_L.
  - rewrite (assoc_L (++)), bufs_snoc. apply Forall_app. split; [|repeat constructor; simpl; lia].
    eapply list.Forall_impl; [exact H5|]. simpl. lia.
  - rewrite list.Forall_forall in *. intros b Hb. rewrite bufs_snoc, not_elem_of_app. split; [by apply H6|]. intros ->%list_elem_of_singleton. by apply (Hf1 _ Hb).
  - rewrite bufs_snoc, length_app. simpl. rewrite H7. lia.
Qed.

Lemma run_rep ops m ws old new :
  Forall bytes_op ops -> is_bytes m -> log_rep ws old new ->
  exists new', (log_run ops (m, ws)).1 = written ops m /\ is_bytes (written ops m) /\
    log_rep (log_run ops (m, ws)).2 old (new ++ new') /\ view <$> new' = logged ops m.
Proof.
  intros Hops. revert m ws new. induction Hops as [|op ops Hop Hops IH]; intros m ws new Hm Hr.
  { exists []. by rewrite app_nil_r. }
  destruct op as [ty a|a n|a l]; simpl.
  - set (e := Value ty a (saved ty (le (read m a (type_size ty))))).
    destruct (IH m (stm_log ty a m ws) (new ++ [e]) Hm) as (new' & H1 & H2 & H3 & H4); [by apply add_rep|].
    exists (e :: new'). rewrite <- (assoc_L (++)) in H3. split_and!; try done. rewrite fmap_cons, H4. f_equal.
    unfold view, e. by rewrite value_at.
  - destruct (IH m (stm_log_bytes a n m ws) _ Hm (add_copy_rep a n m ws old new Hr)) as (new' & H1 & H2 & H3 & H4).
    eexists (_ :: new'). rewrite <- (assoc_L (++)) in H3. split_and!; try done. by rewrite fmap_cons, H4.
  - apply IH; [by apply write_is_bytes|done].
Qed.

(** *** Abort and commit *)

Lemma undo_mem_view l m : undo_mem (rev l) m = put_back (view <$> l) m.
Proof.
  assert (Hrev : rev (view <$> l) = view <$> rev l) by (induction l as [|e l IH]; [done|]; rewrite fmap_cons; simpl rev; by rewrite IH, fmap_app).
  unfold put_back. rewrite Hrev. generalize (rev l). clear. intros l. revert m. induction l as [|e l IH]; intros m; [done|]. apply IH.
Qed.

Lemma undo_all_app l l' s : undo_all (l ++ l') s = undo_all l s ≫= undo_all l'.
Proof. revert s. induction l as [|e l IH]; intros s; simpl; [done|]. destruct (undo e s); [apply IH|done]. Qed.

Lemma free_dead b ws : b ∉ live ws -> free_buf b ws = None.
Proof. intros Hb. unfold free_buf. by rewrite decide_False. Qed.

Lemma undo_all_dead l s : bufs l <> [] -> live s.2 = ∅ -> undo_all l s = None.
Proof.
  revert s. induction l as [|[ty a v|a v b] l IH]; intros s Hb Hl; simpl in *; [done|by apply IH|].
  rewrite free_dead; [done|]. rewrite Hl. set_solver.
Qed.

Lemma free_copies_dead old new ws :
  bufs old <> [] -> Forall (fun b => b ∉ live ws) (bufs old) -> 0 < allocated ws -> free_copies (old ++ new) ws = None.
Proof.
  induction old as [|[ty a v|a v b] old IH]; intros Hb Hd Ha; simpl in *; [done| |].
  - rewrite (proj2 (Z.ltb_lt _ _)) by done. by apply IH.
  - apply list.Forall_cons in Hd as [Hd _]. by rewrite free_dead.
Qed.

Lemma abort_rep m ws old new :
  log_rep ws old new ->
  match mod_log_on_abort (m, ws) with
  | Some (m', ws') => bufs old = [] /\ m' = undo_mem (rev (old ++ new)) m /\ log_rep ws' (old ++ new) []
  | None => bufs old <> []
  end.
Proof.
  intros [H1 H2 H3 H4 H5 H6 H7]. unfold mod_log_on_abort. simpl. rewrite H1, rev_app_distr, undo_all_app.
  rewrite undo_all_spec; [|by rewrite H4; apply leibniz_equiv; rewrite bufs_rev|by rewrite bufs_rev|by rewrite bufs_rev].
  simpl. destruct (decide (bufs old = [])) as [He|He].
  - assert (Hr : bufs (rev old) = []) by (apply Permutation_nil; by rewrite bufs_rev, He).
    rewrite undo_all_spec; simpl; rewrite ?Hr; try done; [|by constructor]. split; [done|]. split.
    + unfold undo_mem. by rewrite foldl_app.
    + constructor; simpl; try done; [by rewrite H1, app_nil_r|by constructor|by rewrite app_nil_r|].
      rewrite list.Forall_forall. intros b _. by apply not_elem_of_nil.
  - rewrite undo_all_dead; [done| |done]. intros E. apply He. apply Permutation_nil. by rewrite <- bufs_rev, E.
Qed.

Lemma commit_rep ws old new :
  log_rep ws old new ->
  match mod_log_on_commit ws with
  | Some ws' => (bufs old = [] \/ bufs new = []) /\ log_rep ws' [] []
  | None => bufs old <> [] /\ bufs new <> []
  end.
Proof.
  intros [H1 H2 H3 H4 H5 H6 H7]. unfold mod_log_on_commit.
  assert (Hempty : forall w, nb_entries w = O -> live w = ∅ -> allocated w = 0 -> log_rep w [] []).
  { intros w E1 E2 E3. constructor; rewrite ?E1; simpl; try done; try lia; by constructor. }
  destruct (Z.ltb_spec 0 (allocated ws)) as [Ha|Ha].
  - assert (Hn : bufs new <> []) by (intros E; rewrite E in H7; simpl in H7; lia). rewrite H1.
    destruct (decide (bufs old = [])) as [He|He].
    + rewrite free_copies_spec; [|by rewrite bufs_app, He|by rewrite bufs_app, He|by rewrite bufs_app, He|done].
      split; [by left|]. by apply Hempty.
    + rewrite free_copies_dead; [done|done| |done]. eapply list.Forall_impl; [exact H6|]. simpl. intros b Hb.
      by rewrite H4, elem_of_list_to_set.
  - assert (Hn : bufs new = []) by (destruct (bufs new); [done|simpl in H7; lia]).
    split; [by right|]. apply Hempty; simpl; [done| |rewrite H7, Hn; done]. by rewrite H4, Hn.
Qed.

(** A state of the thread and one of the specification *)
Record refines (s : bytes * w_log) (t : bytes * list undo_entry) : Prop := {
  rf_mem : s.1 = t.1; rf_bytes : is_bytes s.1;
  rf_log : exists old, log_rep s.2 old [] /\ view <$> old = t.2;
  rf_entries : Forall (fun e : undo_entry => Forall is_byte e.1.2) t.2 }.

Lemma put_back_is_bytes l m : is_bytes m -> Forall (fun e : undo_entry => Forall is_byte e.1.2) l -> is_bytes (put_back l m).
Proof.
  intros Hm Hl. unfold put_back. apply List.Forall_rev in Hl. revert m Hm. induction Hl as [|e l' He Hl IH]; intros m Hm; simpl; [done|].
  by apply IH, write_is_bytes.
Qed.

Lemma logged_bytes ops m :
  Forall bytes_op ops -> is_bytes m -> Forall (fun e : undo_entry => Forall is_byte e.1.2) (logged ops m).
Proof.
  intros Hops. revert m. induction Hops as [|[ty a|a n|a l] ops Hop Hops IH]; intros m Hm; simpl; [done|constructor|constructor|]; auto.
  - simpl. pose proof (read_bytes m a (type_size ty) Hm) as Hr. unfold put_back_bytes. case_decide; [done|].
    destruct Hr as [|b l Hb Hr]; constructor; [done|]. apply Forall_replicate. unfold is_byte. case_bool; lia.
  - by apply read_bytes.
  - by apply IH, write_is_bytes.
Qed.

Lemma attempt_refines x s t :
  Forall bytes_op x.1 -> refines s t ->
  match attempt x s, spec_attempt x t with
  | Some s', Some t' => refines s' t' | None, None => True | _, _ => False
  end.
Proof.
  destruct x as [ops commit], s as [m ws], t as [m' old']. simpl. intros Hops [Hm Hb (old & Hr & Hv) He]. simpl in *. subst m' old'.
  destruct (run_rep ops m ws old [] Hops Hb Hr) as (new & H1 & H2 & H3 & H4). simpl in H3.
  unfold attempt, spec_attempt. simpl. rewrite <- H4, !with_buffer_view.
  destruct (log_run ops (m, ws)) as [m1 ws1]. simpl in H1, H3. subst m1. destruct commit; simpl.
  - apply commit_rep in H3. destruct (mod_log_on_commit ws1) as [ws2|]; simpl.
    + destruct H3 as [Hor H3].
      assert (Hf : negb (bool_decide (bufs old = [])) && negb (bool_decide (bufs new = [])) = false).
      { destruct Hor as [E|E]; rewrite (bool_decide_true _ E); [done|by rewrite andb_false_r]. }
      rewrite Hf. constructor; [done|done|by exists []|done].
    + destruct H3 as [Ho Hn]. by rewrite !bool_decide_false by done.
  - apply (abort_rep (written ops m)) in H3. destruct (mod_log_on_abort _) as [[m2 ws2]|].
    + destruct H3 as (Ho & -> & H3). rewrite (bool_decide_true _ Ho). simpl. rewrite <- fmap_app, undo_mem_view.
      assert (Hall : Forall (fun e : undo_entry => Forall is_byte e.1.2) (view <$> (old ++ new))).
      { rewrite fmap_app. apply Forall_app. split; [done|]. rewrite H4. by apply logged_bytes. }
      constructor; simpl; [done|by apply put_back_is_bytes|by exists (old ++ new)|done].
    + by rewrite bool_decide_false.
Qed.

Lemma attempts_refine h s t :
  Forall (fun x => Forall bytes_op x.1) h -> refines s t ->
  match attempts h s, spec_attempts h t with
  | Some s', Some t' => refines s' t' | None, None => True | _, _ => False
  end.
Proof.
  unfold attempts, spec_attempts. intros Hh. revert s t. induction Hh as [|x h Hx Hh IH]; intros s t Hst; simpl; [done|].
  pose proof (attempt_refines x s t Hx Hst) as H. destruct (attempt x s), (spec_attempt x t); try done; [by apply IH|].
  clear. induction h; done.
Qed.

Lemma init_refines m : is_bytes m -> refines (m, mod_log_on_thread_init) (m, []).
Proof. intros Hm. constructor; try done. exists []. split; [|done]. constructor; simpl; try done; by constructor. Qed.

(** *** What the specification restores *)

(** The entries of earlier attempts put back what is there. *)
Definition harmless (l : list undo_entry) (m : bytes) : Prop :=
  Forall (fun e : undo_entry => e.2 = false /\ read m e.1.1 (length e.1.2) = e.1.2) l.

Lemma undo_nothing l m : Forall (fun e => read m (entry_at e).1 (length (entry_at e).2) = (entry_at e).2) l -> forall x, undo_mem l m x = m x.
Proof.
  induction 1 as [|e l He Hl IH]; intros x; [done|]. simpl. rewrite <- IH. apply undo_mem_ext. intros y. right.
  rewrite <- He at 1. apply write_read.
Qed.

Lemma abort_restores ops s t :
  log_wf (fun _ => False) ops -> refines s t -> harmless t.2 t.1 ->
  exists s', attempt (ops, false) s = Some s' /\ (forall x, s'.1 x = s.1 x) /\ live s'.2 = ∅.
Proof.
  intros Hwf [Hm Hb (old & Hr & Hv) _] Hh. destruct s as [m ws], t as [m' l]. simpl in *. subst m' l.
  apply list.Forall_fmap in Hh. assert (Hbuf : bufs old = []).
  { clear - Hh. induction Hh as [|[ty a v|a v b] old [He _] Hh IH]; [done|exact IH|done]. }
  assert (HI : log_inv m m ws old).
  { destruct Hr as [H1 H2 H3 H4 H5 H6 H7]. rewrite app_nil_r in H1. constructor; rewrite ?Hbuf; try done; try (by constructor).
    apply undo_nothing. apply List.Forall_rev. eapply list.Forall_impl; [exact Hh|]. by intros e [_ He]. }
  destruct (log_inv_run ops m m ws old (fun _ => False) Hwf) as (l & HI'); [done|done|].
  unfold attempt. simpl. destruct (log_run ops (m, ws)) as [m1 ws1]. destruct HI' as [Hm1 He Hle Hnd Hlive Hnext Hal Hundo]. simpl in *.
  unfold mod_log_on_abort. simpl. rewrite He. rewrite undo_all_spec.
  - simpl. eexists. split; [done|]. by split.
  - rewrite Hlive. apply leibniz_equiv. by rewrite bufs_rev.
  - by rewrite bufs_rev.
  - by rewrite bufs_rev.
Qed.

(** C37. The undo log, over any sequence [h] of attempts of a new thread.  What the attempts
    do to the memory is what the specification says: a commit keeps the writes and erases
    the log; an abort puts back, the last entry first, what was logged, a variable of type
    uint16_t, uint32_t or uint64_t as the sign extension of its lowest byte (the entry
    keeps a char of it) and all else as it was; an abort does not erase the log, so the
    entries of the attempts aborted since the last commit are put back again.  A buffer is
    freed twice exactly if an attempt that logs a range of bytes is aborted, and one of
    the attempts up to the next commit aborts too, or logs a range and commits; otherwise
    no buffer is left.
    So an attempt that writes only what it has logged, with no variable of these three
    types, leaves every byte as it was when it aborts, if the entries of the attempts
    before it agree with the memory it finds and none of them is a range of bytes; a new
    thread and one that has just committed have no such entries. *)
Theorem undo_log_restores h m :
  is_bytes m -> Forall (fun x => Forall bytes_op x.1) h ->
  match attempts h (m, mod_log_on_thread_init), spec_attempts h (m, []) with
  | Some s, Some (m', old) =>
      s.1 = m' /\ live s.2 = ∅ /\
      (forall ops, log_wf (fun _ => False) ops -> harmless old m' ->
        exists s', attempt (ops, false) s = Some s' /\ (forall x, s'.1 x = s.1 x) /\ live s'.2 = ∅)
  | None, None => True
  | _, _ => False
  end.
Proof.
  intros Hm Hh. pose proof (attempts_refine h _ _ Hh (init_refines m Hm)) as H.
  destruct (attempts h _) as [s|], (spec_attempts h _) as [[m' old]|]; try done.
  split; [apply H|]. split; [|intros ops Hwf Hha; by apply (abort_restores ops s (m', old))].
  destruct (rf_log _ _ H) as (l & Hr & _). by rewrite (lr_live _ _ _ Hr).
Qed.

(** A transaction logs and writes a 16-bit counter (as short) and an int, aborts, tries
    again and commits; the next logs a buffer and aborts. *)
Definition demo_ops : list log_op :=
  [Log TYPE_SHORT 100; Write 100 [1; 2]; Write 100 [3]; Log TYPE_INT 98; Write 99 [9]].

Definition demo_attempts : list (list log_op * bool) :=
  [(demo_ops, false); (demo_ops, true); ([Log TYPE_SHORT 100; Log_bytes 200 3; Write 201 [7; 8]; Write 100 [0; 0]], false)].

Lemma undo_log_restores_witness :
  exists s, attempts demo_attempts (fun x => x mod 256, mod_log_on_thread_init) = Some s /\
    read s.1 98 4 = [98; 9; 3; 2] /\ read s.1 200 3 = [200; 201; 202].
Proof.
  assert (Hm : is_bytes (fun x => x mod 256)) by (intros x; unfold is_byte; apply Z.mod_pos_bound; lia).
  pose proof (undo_log_restores demo_attempts (fun x => x mod 256) Hm) as H.
  assert (Hh : Forall (fun x => Forall bytes_op x.1) demo_attempts).
  { repeat constructor; unfold is_byte; lia. }
  specialize (H Hh). destruct (attempts demo_attempts _) as [s|] eqn:E; [|by vm_compute in E].
  exists s. split; [reflexivity|]. destruct (spec_attempts _ _) as [[m' old]|] eqn:E'; [|done].
  destruct H as (-> & _ & _). apply (f_equal (fmap fst)) in E'. injection E' as <-. split; vm_compute; reflexivity.
Defined.

(** What the undo log does not restore: a variable logged with [stm_log_u16],
    [stm_log_u32] or [stm_log_u64] comes back as the sign extension of its lowest
    byte, because the entry keeps the old value in a [char]; so it is restored
    exactly when it is the sign extension of its lowest byte already. *)
Theorem narrow_log_truncates ty a m ws :
  ~ wide ty -> is_bytes m -> nb_entries ws = O -> allocated ws = 0 ->
  exists m' ws', mod_log_on_abort (m, stm_log ty a m ws) = Some (m', ws') /\
    le (read m' a (type_size ty)) =
      unsigned (8 * Z.of_nat (type_size ty)) (signed 8 (m a)).
Proof.
  intros Hw Hm Hn Ha. unfold mod_log_on_abort, stm_log. simpl. rewrite Hn. simpl. rewrite Ha. simpl.
  eexists _, _. split; [done|]. rewrite restored_narrow by done.
  set (n := type_size ty). set (v := unsigned _ _).
  assert (Hv : 0 <= v < 2 ^ (8 * Z.of_nat n)) by (apply Z.mod_pos_bound; apply Z.pow_pos_nonneg; lia).
  assert (Hread : forall l m0, length l = n -> read (write m0 a l) a n = l).
  { intros l m0 Hl. apply (nth_ext _ _ 0 0); [by rewrite read_length|].
    intros i Hi. rewrite read_length in Hi. rewrite read_nth by done.
    rewrite write_in by (unfold in_range; lia). f_equal. lia. }
  rewrite Hread by apply to_bytes_length. rewrite le_to_bytes by done. unfold v. do 2 f_equal.
  assert (Hn1 : exists k, n = S k) by (unfold n; destruct ty; eexists; reflexivity). destruct Hn1 as [k ->].
  cbn [read le]. change (2 ^ 8) with 256. pose proof (Hm a) as Hb. unfold is_byte in Hb.
  rewrite Z.mul_comm, Z_mod_plus_full. by apply Z.mod_small.
Qed.

(** The value 300 of a uint16_t comes back as 44. *)
Lemma narrow_log_truncates_witness :
  let m : bytes := write (fun _ => 0) 100 [44; 1] in
  exists m' ws', mod_log_on_abort (m, stm_log TYPE_U16 100 m mod_log_on_thread_init) = Some (m', ws') /\
    le (read m' 100 2) = unsigned 16 (signed 8 44) /\ le (read m 100 2) = 300 /\ unsigned 16 (signed 8 44) = 44.
Proof.
  cbv zeta.
  destruct (narrow_log_truncates TYPE_U16 100 (write (fun _ => 0) 100 [44; 1]) mod_log_on_thread_init)
    as (m' & ws' & H1 & H2).
  - by intros H.
  - apply write_is_bytes; [|repeat constructor; unfold is_byte; lia]. intros x. unfold is_byte. lia.
  - done.
  - done.
  - exists m', ws'. split_and!; [exact H1|exact H2|by vm_compute|by vm_compute].
Defined.

(** An abort does not erase the log: if the transaction is tried again and aborts
    a second time, the entries of the first attempt are applied again and undo
    a write that was made in between, by another thread or outside of
    transactions. *)
Theorem second_abort_undoes_more a v v' ws :
  log_clean ws -> is_byte v ->
  let m : bytes := fun _ => v in
  exists s1 s2,
    mod_log_on_abort (log_run [Log TYPE_UCHAR a; Write a [v']] (m, ws)) = Some s1 /\
    (forall x, s1.1 x = v) /\
    mod_log_on_abort (log_run [Write a [v']] s1) = Some s2 /\ s2.1 a = v.
Proof.
  intros (Hn & Ha & _) Hv. cbv zeta. unfold mod_log_on_abort. simpl. unfold stm_log, add_entry. simpl.
  rewrite Hn. simpl. rewrite Ha. simpl.
  assert (Hb : part 8 (restored TYPE_UCHAR (v + 256 * 0)) 0 = v).
  { change (v + 256 * 0) with (saved TYPE_UCHAR (v + 256 * 0)). rewrite restored_wide; [|done|unfold is_byte in Hv; simpl; lia]. unfold is_byte in Hv. unfold part.
    rewrite Z.mul_0_r, Z.shiftr_0_r, Z.land_ones by lia. rewrite Z.mod_small; [lia|]. change (2 ^ 8) with 256. lia. }
  eexists _, _. split; [reflexivity|]. split; [|split; [simpl; rewrite ?Ha; simpl; reflexivity|]].
  - intros x. simpl. rewrite Hb. unfold write. simpl.
    destruct (_ && _) eqn:Hx; [|done]. apply andb_true_iff in Hx as [?%Z.leb_le ?%Z.ltb_lt].
    by replace (Z.to_nat (x - a)) with O by lia.
  - simpl. rewrite Hb. rewrite write_in by (unfold in_range; simpl; lia). by rewrite Z.sub_diag.
Qed.

Lemma second_abort_undoes_more_witness :
  exists s1 s2,
    mod_log_on_abort (log_run [Log TYPE_UCHAR 8; Write 8 [5]] (fun _ => 1, mod_log_on_thread_init)) = Some s1 /\
    (forall x, s1.1 x = 1) /\
    mod_log_on_abort (log_run [Write 8 [5]] s1) = Some s2 /\ s2.1 8 = 1.
Proof.
  apply (second_abort_undoes_more 8 1 5 mod_log_on_thread_init); [by split_and!|unfold is_byte; lia].
Defined.
