(* ===== verification/Nbb.v ===== *)
(** * The non-blocking bounded list of the server

    TPCC/Server/core/nbblist.c and datatypes/nbblist.h: a circular buffer of
    64-bit entries, each a value and the number of the lap it belongs to, and
    the two hints [head] and [tail].  Any number of threads insert and remove
    concurrently; a step is one access to shared memory.

    The state also records, as ghost components, the operations in the order in
    which they take effect ([hist]) and what each thread's calls have returned. *)
From S2P Require Import Prelude Words.

(** ** Entries *)

Section Nbb.

(** [list->length] and [list->val_nbits] *)
Context (len n : Z).

Definition ver_nbits : Z := 64 - n.
Definition val_mask : Z := w64 (Z.shiftl 1 n - 1).
Definition ver_mask : Z := w64 (Z.shiftl (Z.shiftl 1 ver_nbits - 1) n).

Definition nbb_val (mask : Z) : Z := Z.land mask val_mask.

Definition nbb_ver (mask : Z) : Z := Z.shiftr (Z.land mask ver_mask) n.

Definition nbb_mask (ver val : Z) : Z :=
  Z.lor (w64 (Z.shiftl ver n)) (Z.shiftr (w64 (Z.shiftl val ver_nbits)) ver_nbits).

(** ** State *)

Definition NBB_LIST_EMPTY : Z := -2.
Definition NBB_LIST_FULL : Z := -1.

(** An operation, and what it returns: for [Remove] that returns 1, [RValue] is
    what it leaves in [*val]. *)
Inductive op := Insert (val : Z) | Remove.
Inductive res := RFull | REmpty | RDone | RValue (v : Z).

(** The C result *)
Definition res_code (r : res) : Z :=
  match r with RFull => NBB_LIST_FULL | REmpty => NBB_LIST_EMPTY | RDone | RValue _ => 1 end.

(** Where a thread is *)
Inductive pc :=
| Idle
| ILoad (val : Z)                   (* nbb_list_insert: about to load tail *)
| ILook (val base t : Z)            (* about to load entries[t % length] *)
| ICas (val base t : Z)             (* about to CAS that entry *)
| ITail (val base t : Z)            (* about to test and CAS tail *)
| IReload (val t : Z)               (* about to load tail again *)
| RLoad                             (* nbb_list_remove, the same *)
| RLook (base h : Z)
| RCas (base h headmask : Z)
| RHead (base h v : Z)
| RReload (h v : Z)
| Return (o : op) (r : res).        (* about to return *)

Record nbb := mk_nbb {
  entries : Z -> Z; head : Z; tail : Z; pcs : nat -> pc;
  hist : list (nat * (op * res)); rets : nat -> list (op * res) }.
#[export] Instance eta_nbb : Eta nbb := fun s =>
  mk_nbb (entries s) (head s) (tail s) (pcs s) (hist s) (rets s).

(** [junk] is what [malloc] leaves in the array. *)
Definition nbb_list_create (junk : Z -> Z) : nbb :=
  mk_nbb junk 0 0 (fun _ => Idle) [] (fun _ => []).

Definition set_pc (i : nat) (p : pc) (s : nbb) : nbb :=
  s <| pcs := fun j => if decide (j = i) then p else pcs s j |>.

Definition set_entry (t w : Z) (s : nbb) : nbb :=
  s <| entries := fun j => if decide (j = t mod len) then w else entries s j |>.

(** The operation of thread [i] takes effect. *)
Definition effect (i : nat) (o : op) (r : res) (s : nbb) : nbb := s <| hist := hist s ++ [(i, (o, r))] |>.

(** What the load of [entries[t % length]] leads to in [nbb_list_insert] *)
Definition insert_look (i : nat) (val base t w : Z) (s : nbb) : nbb :=
  if negb (nbb_val w =? 0) || negb (nbb_ver w =? t / len) then
    if negb (nbb_val w =? 0) && (nbb_ver w =? t / len)
    then set_pc i (Return (Insert val) RFull) (effect i (Insert val) RFull s)
    else set_pc i (ILook val base (w64 (t + 1))) s
  else set_pc i (ICas val base t) s.

Definition remove_look (i : nat) (base h w : Z) (s : nbb) : nbb :=
  if (nbb_val w =? 0) || negb (nbb_ver w =? w64 (h / len + 1)) then
    if (nbb_val w =? 0) && (nbb_ver w =? h / len)
    then set_pc i (Return Remove REmpty) (effect i Remove REmpty s)
    else set_pc i (RLook base (w64 (h + 1))) s
  else set_pc i (RCas base h w) s.

Inductive nbb_step (i : nat) : nbb -> nbb -> Prop :=
(* nbb_list_insert *)
| n_insert val s :
    pcs s i = Idle -> 0 < val < 2 ^ n -> nbb_step i s (set_pc i (ILoad val) s)
| n_tail val s : pcs s i = ILoad val -> nbb_step i s (set_pc i (ILook val (tail s) (tail s)) s)
| n_look val base t s :
    pcs s i = ILook val base t ->
    nbb_step i s (insert_look i val base t (entries s (t mod len)) s)
| n_cas val base t s :
    pcs s i = ICas val base t ->
    nbb_step i s
      (if entries s (t mod len) =? nbb_mask (t / len) 0
       then set_pc i (ITail val base t)
              (effect i (Insert val) RDone (set_entry t (nbb_mask (w64 (t / len + 1)) val) s))
       else set_pc i (ILoad val) s)
| n_move val base t s :
    pcs s i = ITail val base t ->
    nbb_step i s
      (if base <? w64 (t + 1) then
         if tail s =? base then set_pc i (Return (Insert val) RDone) (s <| tail := w64 (t + 1) |>)
         else set_pc i (IReload val t) s
       else set_pc i (Return (Insert val) RDone) s)
| n_reload val t s : pcs s i = IReload val t -> nbb_step i s (set_pc i (ITail val (tail s) t) s)
(* nbb_list_remove *)
| n_remove s : pcs s i = Idle -> nbb_step i s (set_pc i RLoad s)
| n_head s : pcs s i = RLoad -> nbb_step i s (set_pc i (RLook (head s) (head s)) s)
| n_rlook base h s :
    pcs s i = RLook base h -> nbb_step i s (remove_look i base h (entries s (h mod len)) s)
| n_rcas base h headmask s :
    pcs s i = RCas base h headmask ->
    let oldmask := nbb_mask (w64 (h / len + 1)) (nbb_val headmask) in
    nbb_step i s
      (if entries s (h mod len) =? oldmask
       then set_pc i (RHead base h (nbb_val oldmask))
              (effect i Remove (RValue (nbb_val oldmask)) (set_entry h (nbb_mask (w64 (h / len + 1)) 0) s))
       else set_pc i RLoad s)
| n_rmove base h v s :
    pcs s i = RHead base h v ->
    nbb_step i s
      (if base <? w64 (h + 1) then
         if head s =? base then set_pc i (Return Remove (RValue v)) (s <| head := w64 (h + 1) |>)
         else set_pc i (RReload h v) s
       else set_pc i (Return Remove (RValue v)) s)
| n_rreload h v s : pcs s i = RReload h v -> nbb_step i s (set_pc i (RHead (head s) h v) s)
(* both *)
| n_return o r s :
    pcs s i = Return o r ->
    nbb_step i s (set_pc i Idle (s <| rets := fun j => if decide (j = i) then rets s j ++ [(o, r)] else rets s j |>)).

Definition nbb_reachable (junk : Z -> Z) (s : nbb) : Prop :=
  rtc (fun s s' => exists i, nbb_step i s s') (nbb_list_create junk) s.

(** ** The specification: a bounded queue *)

Definition spec (q : list Z) (o : op) : res * list Z :=
  match o with
  | Insert v => if Z.of_nat (length q) <? len then (RDone, q ++ [v]) else (RFull, q)
  | Remove => match q with [] => (REmpty, []) | v :: q => (RValue v, q) end
  end.

#[local] Instance op_eq_dec : EqDecision op.
Proof. solve_decision. Defined.
#[local] Instance res_eq_dec : EqDecision res.
Proof. solve_decision. Defined.

(** The queue after the operations, if each returns what the specification says *)
Fixpoint legal (h : list (nat * (op * res))) (q : list Z) : option (list Z) :=
  match h with
  | [] => Some q
  | (_, (o, r)) :: h => if decide ((spec q o).1 = r) then legal h (spec q o).2 else None
  end.

Lemma legal_snoc h q q' i o r :
  legal h q = Some q' -> (spec q' o).1 = r -> legal (h ++ [(i, (o, r))]) q = Some (spec q' o).2.
Proof.
  revert q. induction h as [|[j [o' r']] h IH]; intros q Hl Hr; simpl in *.
  - simplify_eq. by rewrite decide_True.
  - destruct (decide ((spec q o').1 = r')); [by apply IH|done].
Qed.

(** The operations of one thread *)
Definition by_thread (i : nat) (h : list (nat * (op * res))) : list (op * res) :=
  (filter (fun x => x.1 = i) h).*2.

Lemma by_thread_snoc i j x h :
  by_thread i (h ++ [(j, x)]) = by_thread i h ++ (if decide (j = i) then [x] else []).
Proof.
  unfold by_thread. rewrite list.filter_app, fmap_app. f_equal. simpl.
  unfold filter. simpl. by case_decide.
Qed.

(** ** Entries are pairs of a lap and a value *)

Context (Hn : 0 < n < 64) (Hlen : 0 < len).

Lemma pow_split : 2 ^ ver_nbits * 2 ^ n = 2 ^ 64.
Proof. rewrite <- Z.pow_add_r by (unfold ver_nbits; lia). f_equal. unfold ver_nbits. lia. Qed.

Lemma pow_pos : 0 < 2 ^ n /\ 0 < 2 ^ ver_nbits.
Proof. split; apply Z.pow_pos_nonneg; unfold ver_nbits; lia. Qed.

Lemma mask_eq ver val :
  0 <= ver < 2 ^ ver_nbits -> 0 <= val < 2 ^ n -> nbb_mask ver val = ver * 2 ^ n + val.
Proof.
  intros Hv Hl. pose proof pow_split as Hs. pose proof pow_pos as [Hp1 Hp2]. unfold nbb_mask.
  rewrite !Z.shiftl_mul_pow2 by (unfold ver_nbits; lia). rewrite Z.shiftr_div_pow2 by (unfold ver_nbits; lia).
  rewrite !w64_id by (unfold is_word, word_size; nia). rewrite Z.div_mul by lia.
  rewrite <- Z.add_lor_land, <- (Z.shiftl_mul_pow2 ver n) by lia.
  replace (Z.land (Z.shiftl ver n) val) with 0; [lia|]. symmetry. apply Z.bits_inj'. intros i Hi.
  rewrite Z.land_spec, Z.bits_0. destruct (Z.lt_ge_cases i n) as [Hlt|Hge].
  - by rewrite Z.shiftl_spec_low.
  - assert (Hb : Z.testbit val i = false); [|by rewrite Hb, andb_false_r].
    apply Z.testbit_false; [lia|]. rewrite Z.div_small; [done|]. split; [lia|].
    apply Z.lt_le_trans with (2 ^ n); [lia|]. apply Z.pow_le_mono_r; lia.
Qed.

Lemma nbb_val_eq w : nbb_val w = w mod 2 ^ n.
Proof.
  pose proof pow_split. pose proof pow_pos as [Hp1 Hp2]. unfold nbb_val, val_mask.
  rewrite Z.shiftl_mul_pow2, w64_id by (unfold is_word, word_size; nia).
  replace (1 * 2 ^ n - 1) with (Z.ones n) by (rewrite Z.ones_equiv; lia). apply Z.land_ones. lia.
Qed.

Lemma nbb_ver_eq w : is_word w -> nbb_ver w = w / 2 ^ n.
Proof.
  intros Hw. pose proof pow_split as Hs. pose proof pow_pos as [Hp1 Hp2]. unfold nbb_ver, ver_mask.
  rewrite !Z.shiftl_mul_pow2 by (unfold ver_nbits; lia).
  rewrite w64_id by (unfold is_word, word_size; nia).
  replace (1 * 2 ^ ver_nbits - 1) with (Z.ones ver_nbits) by (rewrite Z.ones_equiv; lia).
  rewrite Z.shiftr_land, <- (Z.shiftl_mul_pow2 (Z.ones ver_nbits)), Z.shiftr_shiftl_l, Z.sub_diag, Z.shiftl_0_r by lia.
  rewrite Z.land_ones, Z.shiftr_div_pow2 by (unfold ver_nbits; lia). apply Z.mod_small.
  unfold is_word, word_size in Hw. split; [apply Z.div_pos; lia|]. apply Z.div_lt_upper_bound; lia.
Qed.

Lemma mask_val ver val :
  0 <= ver < 2 ^ ver_nbits -> 0 <= val < 2 ^ n -> nbb_val (nbb_mask ver val) = val.
Proof.
  intros Hv Hl. rewrite mask_eq, nbb_val_eq by done.
  rewrite Z.add_comm, Z_mod_plus_full. by apply Z.mod_small.
Qed.

Lemma mask_ver ver val :
  0 <= ver < 2 ^ ver_nbits -> 0 <= val < 2 ^ n -> nbb_ver (nbb_mask ver val) = ver.
Proof.
  intros Hv Hl. pose proof pow_split. pose proof pow_pos as [Hp1 Hp2]. rewrite mask_eq by done. rewrite nbb_ver_eq.
  - rewrite Z.div_add_l, Z.div_small by lia. lia.
  - unfold is_word, word_size. nia.
Qed.

(** ** The invariant *)

Definition inserted (h : list (nat * (op * res))) : Z :=
  Z.of_nat (length (filter (fun x => x.2.2 = RDone) h)).

Definition is_value (r : res) : Prop := match r with RValue _ => True | _ => False end.

#[local] Instance is_value_dec r : Decision (is_value r).
Proof. destruct r; apply _. Defined.

Definition removed (h : list (nat * (op * res))) : Z :=
  Z.of_nat (length (filter (fun x => is_value x.2.2) h)).

(** Whether the thread's operation has taken effect, and with what result *)
Definition pending (p : pc) : list (op * res) :=
  match p with
  | ITail v _ _ | IReload v _ => [(Insert v, RDone)]
  | RHead _ _ v | RReload _ v => [(Remove, RValue v)]
  | Return o r => [(o, r)]
  | _ => []
  end.

Definition is_val (v : Z) : Prop := 0 < v < 2 ^ n.

(** With [T] insertions and [H] removals done *)
Definition place_ok (T H : Z) (p : pc) : Prop :=
  match p with
  | ILoad v => is_val v
  | ILook v b t | ICas v b t => is_val v /\ 0 <= b <= T /\ 0 <= t <= T
  | ITail v b t => is_val v /\ 0 <= b <= T /\ 0 <= t < T
  | IReload v t => is_val v /\ 0 <= t < T
  | RLook b h => 0 <= b <= H /\ 0 <= h <= H
  | RCas b h w => 0 <= b <= H /\ 0 <= h <= H /\ is_val (nbb_val w)
  | RHead b h _ => 0 <= b <= H /\ 0 <= h < H
  | RReload h _ => 0 <= h < H
  | _ => True
  end.

(** Slot [k] of the buffer, counted from the beginning: full or free. *)
Definition slot_full (e : Z -> Z) (k v : Z) : Prop := is_val v /\ e (k mod len) = nbb_mask (k / len + 1) v.
Definition slot_free (e : Z -> Z) (k : Z) : Prop := e (k mod len) = nbb_mask (k / len) 0.

Record buffer_ok (e : Z -> Z) (H T : Z) (q : list Z) : Prop := {
  bo_head : 0 <= H; bo_len : T = H + Z.of_nat (length q); bo_room : T <= H + len;
  bo_full : forall k v, H <= k < T -> q !! Z.to_nat (k - H) = Some v -> slot_full e k v;
  bo_free : forall k, T <= k < H + len -> slot_free e k }.

Record nbb_inv (s : nbb) (q : list Z) : Prop := {
  ni_legal : legal (hist s) [] = Some q;
  ni_buffer : buffer_ok (entries s) (removed (hist s)) (inserted (hist s)) q;
  ni_tail : 0 <= tail s <= inserted (hist s);
  ni_head : 0 <= head s <= removed (hist s);
  ni_place : forall i, place_ok (inserted (hist s)) (removed (hist s)) (pcs s i);
  ni_hist : forall i, by_thread i (hist s) = rets s i ++ pending (pcs s i) }.

(** The counters and the versions do not overflow. *)
Definition no_overflow (T : Z) : Prop := T + 2 * len < 2 ^ ver_nbits * len /\ T + 1 < 2 ^ 64.

Lemma version_ok T k : no_overflow T -> 0 <= k < T + len -> 0 <= k / len /\ k / len + 1 < 2 ^ ver_nbits.
Proof.
  intros [Hv _] Hk. split; [apply Z.div_pos; lia|].
  enough (k / len < 2 ^ ver_nbits - 1) by lia. apply Z.div_lt_upper_bound; lia.
Qed.

Lemma decode_full e T k v :
  no_overflow T -> 0 <= k < T + len -> slot_full e k v ->
  nbb_val (e (k mod len)) = v /\ nbb_ver (e (k mod len)) = k / len + 1 /\ is_val v.
Proof.
  intros Hv Hk [Hval ->]. destruct (version_ok T k Hv Hk). unfold is_val in *.
  rewrite mask_val, mask_ver by lia. done.
Qed.

Lemma decode_free e T k :
  no_overflow T -> 0 <= k < T + len -> slot_free e k ->
  nbb_val (e (k mod len)) = 0 /\ nbb_ver (e (k mod len)) = k / len.
Proof.
  intros Hv Hk ->. destruct (version_ok T k Hv Hk). pose proof pow_pos. rewrite mask_val, mask_ver by lia. done.
Qed.

(** The slot that an index below the end of the buffer shares *)
Lemma slot_of H t :
  0 <= t < H + len -> exists k j, k = t + j * len /\ 0 <= j /\ H <= k < H + len /\ (0 < j -> t < H).
Proof.
  intros Ht. destruct (Z.lt_ge_cases t H) as [Hlt|Hge].
  - pose proof (Z.div_mod (H - 1 - t) len ltac:(lia)). pose proof (Z.mod_pos_bound (H - 1 - t) len Hlen).
    pose proof (Z.div_pos (H - 1 - t) len ltac:(lia) Hlen).
    exists (t + ((H - 1 - t) / len + 1) * len), ((H - 1 - t) / len + 1). split_and!; try lia.
  - exists t, 0. split_and!; lia.
Qed.

Lemma slot_lookup H T (q : list Z) k :
  T = H + Z.of_nat (length q) -> H <= k < T -> exists v, q !! Z.to_nat (k - H) = Some v.
Proof. intros -> Hk. apply lookup_lt_is_Some_2. lia. Qed.

(** What an inserter may see at index [t] *)
Lemma insert_sees e H T q t :
  no_overflow T -> buffer_ok e H T q -> 0 <= t <= T ->
  let w := e (t mod len) in
  (t < T /\ t / len < nbb_ver w) \/
  (t = T /\ T < H + len /\ nbb_val w = 0 /\ nbb_ver w = t / len) \/
  (t = T /\ T = H + len /\ nbb_val w <> 0 /\ nbb_ver w = t / len).
Proof.
  intros Hv [HH HT Hroom Hfull Hfree] Ht w.
  destruct (decide (t = T)) as [->|Hne].
  - right. destruct (decide (T = H + len)) as [Heq|Hroom'].
    + right. destruct (slot_lookup H T q H HT) as [v Hq]; [lia|].
      destruct (decode_full e T H v Hv) as (Hval & Hver & Hv0); [lia|apply Hfull; [lia|done]|].
      unfold w. rewrite Heq in *. replace ((H + len) mod len) with (H mod len).
      * split_and!; try done; [unfold is_val in *; lia|]. rewrite Hver.
        replace (H + len) with (H + 1 * len) by lia. by rewrite Z.div_add by lia.
      * replace (H + len) with (H + 1 * len) by lia. by rewrite Z.mod_add by lia.
    + left. destruct (decode_free e T T Hv) as [Hval Hver]; [lia|apply Hfree; lia|]. split_and!; try done. lia.
  - left. split; [lia|]. destruct (slot_of H t) as (k & j & Hk & Hj & Hkr & Hjt); [lia|].
    assert (Hmod : t mod len = k mod len) by (rewrite Hk; symmetry; apply Z.mod_add; lia).
    assert (Hdiv : k / len = t / len + j) by (rewrite Hk; apply Z.div_add; lia).
    unfold w. rewrite Hmod. destruct (Z.lt_ge_cases k T) as [Hlt|Hge].
    + destruct (slot_lookup H T q k HT) as [v Hq]; [lia|].
      destruct (decode_full e T k v Hv) as (_ & -> & _); [lia|apply Hfull; [lia|done]|]. lia.
    + destruct (decode_free e T k Hv) as [_ ->]; [lia|apply Hfree; lia|].
      assert (0 < j); [|lia]. destruct (decide (j = 0)) as [->|]; lia.
Qed.

(** What a remover may see at index [h] *)
Lemma remove_sees e H T q h :
  no_overflow T -> buffer_ok e H T q -> 0 <= h <= H ->
  let w := e (h mod len) in
  (h < H /\ h / len < nbb_ver w /\ (nbb_val w = 0 \/ h / len + 1 < nbb_ver w)) \/
  (h = H /\ T = H /\ nbb_val w = 0 /\ nbb_ver w = h / len) \/
  (h = H /\ H < T /\ nbb_ver w = h / len + 1 /\ is_val (nbb_val w) /\ q !! O = Some (nbb_val w)).
Proof.
  intros Hv [HH HT Hroom Hfull Hfree] Hh w.
  destruct (decide (h = H)) as [->|Hne].
  - right. destruct (decide (T = H)) as [Heq|Hroom'].
    + left. destruct (decode_free e T H Hv) as [Hval Hver]; [lia|apply Hfree; lia|]. done.
    + right. destruct (slot_lookup H T q H HT) as [v Hq]; [lia|].
      destruct (decode_full e T H v Hv) as (Hval & Hver & Hv0); [lia|apply Hfull; [lia|done]|].
      unfold w. rewrite Z.sub_diag in Hq. rewrite Hval. split_and!; done || lia.
  - left. split; [lia|]. destruct (slot_of H h) as (k & j & Hk & Hj & Hkr & Hjt); [lia|].
    assert (Hj0 : 0 < j) by (destruct (decide (j = 0)) as [->|]; lia).
    assert (Hmod : h mod len = k mod len) by (rewrite Hk; symmetry; apply Z.mod_add; lia).
    assert (Hdiv : k / len = h / len + j) by (rewrite Hk; apply Z.div_add; lia).
    unfold w. rewrite Hmod. destruct (Z.lt_ge_cases k T) as [Hlt|Hge].
    + destruct (slot_lookup H T q k HT) as [v Hq]; [lia|].
      destruct (decode_full e T k v Hv) as (_ & -> & _); [lia|apply Hfull; [lia|done]|]. lia.
    + destruct (decode_free e T k Hv) as [-> ->]; [lia|apply Hfree; lia|]. split; [lia|by left].
Qed.

(** Other slots of the window do not share the entry. *)
Lemma slot_other k t : 0 < Z.abs (k - t) < len -> k mod len <> t mod len.
Proof.
  intros Hk Heq. assert (Hd : (k - t) mod len = 0) by by rewrite Zminus_mod, Heq, Z.sub_diag.
  apply Z.mod_divide in Hd as [c Hc]; [|lia]. rewrite Hc in Hk. rewrite Z.abs_mul in Hk. 
  assert (Z.abs c = 0 \/ 1 <= Z.abs c) as [?|?] by lia; nia.
Qed.

Lemma buffer_insert e H T q v :
  buffer_ok e H T q -> T < H + len -> is_val v ->
  buffer_ok (fun j => if decide (j = T mod len) then nbb_mask (T / len + 1) v else e j) H (T + 1) (q ++ [v]).
Proof.
  intros [HH HT Hroom Hfull Hfree] Hlt Hv. constructor; try done; [rewrite length_app; simpl; lia|lia| |].
  - intros k v' Hk Hq. destruct (decide (k = T)) as [->|Hne].
    + replace (Z.to_nat (T - H)) with (length q) in Hq by lia. rewrite lookup_last_app in Hq. simplify_eq.
      split; [done|]. by rewrite decide_True.
    + rewrite lookup_app_l in Hq by lia. destruct (Hfull k v') as [Hv' He]; [lia|done|]. split; [done|].
      rewrite decide_False; [done|]. apply slot_other. lia.
  - intros k Hk. unfold slot_free. rewrite decide_False; [apply Hfree; lia|]. apply slot_other. lia.
Qed.

Lemma buffer_remove e H T q v :
  buffer_ok e H T (v :: q) ->
  buffer_ok (fun j => if decide (j = H mod len) then nbb_mask (H / len + 1) 0 else e j) (H + 1) T q.
Proof.
  intros [HH HT Hroom Hfull Hfree]. simpl in HT. constructor; try lia.
  - intros k v' Hk Hq. destruct (Hfull k v') as [Hv' He]; [lia| |].
    { replace (Z.to_nat (k - H)) with (S (Z.to_nat (k - (H + 1)))) by lia. done. }
    split; [done|]. rewrite decide_False; [done|]. apply slot_other. lia.
  - intros k Hk. unfold slot_free. destruct (decide (k = H + len)) as [->|Hne].
    + replace (H + len) with (H + 1 * len) by lia. rewrite Z.mod_add, Z.div_add by lia. by rewrite decide_True.
    + rewrite decide_False; [apply Hfree; lia|]. apply slot_other. lia.
Qed.

(** ** Steps *)

Lemma inserted_snoc h i o r :
  inserted (h ++ [(i, (o, r))]) = match r with RDone => inserted h + 1 | _ => inserted h end.
Proof.
  unfold inserted. rewrite list.filter_app, length_app. unfold filter at 2. simpl.
  destruct r; simpl; lia.
Qed.

Lemma removed_snoc h i o r :
  removed (h ++ [(i, (o, r))]) = match r with RValue _ => removed h + 1 | _ => removed h end.
Proof.
  unfold removed. rewrite list.filter_app, length_app. unfold filter at 2. simpl.
  destruct r; simpl; lia.
Qed.

Lemma place_mono T T' H H' p : T <= T' -> H <= H' -> place_ok T H p -> place_ok T' H' p.
Proof. intros ? ?. destruct p; simpl; intuition lia. Qed.

Lemma nbb_pcs_set i p s j : pcs (set_pc i p s) j = if decide (j = i) then p else pcs s j.
Proof. done. Qed.

(** A step without an effect *)
Lemma inv_move s s' i p q :
  nbb_inv s q -> hist s' = hist s -> entries s' = entries s -> rets s' = rets s ->
  pcs s' = pcs (set_pc i p s) -> 0 <= tail s' <= inserted (hist s) -> 0 <= head s' <= removed (hist s) ->
  place_ok (inserted (hist s)) (removed (hist s)) p -> pending p = pending (pcs s i) -> nbb_inv s' q.
Proof.
  intros [Hl Hb Ht Hh Hp Hr] H1 H2 H3 H4 H5 H6 H7 H8. constructor; rewrite ?H1, ?H2, ?H3, ?H4; try done.
  - intros j. rewrite nbb_pcs_set. by case_decide.
  - intros j. rewrite nbb_pcs_set. case_decide; [by subst; rewrite H8|done].
Qed.

(** A step with an effect *)
Lemma inv_effect s s' i p q o r :
  nbb_inv s q -> hist s' = hist s ++ [(i, (o, r))] -> (spec q o).1 = r ->
  buffer_ok (entries s') (removed (hist s')) (inserted (hist s')) (spec q o).2 ->
  rets s' = rets s -> pcs s' = pcs (set_pc i p s) -> tail s' = tail s -> head s' = head s ->
  place_ok (inserted (hist s')) (removed (hist s')) p -> pending p = [(o, r)] -> pending (pcs s i) = [] ->
  nbb_inv s' (spec q o).2.
Proof.
  intros [Hl Hb Ht Hh Hp Hr] H1 H2 H3 H4 H5 H6 H7 H8 H9 H10.
  assert (HT : inserted (hist s) <= inserted (hist s')) by (rewrite H1, inserted_snoc; destruct r; lia).
  assert (HH : removed (hist s) <= removed (hist s')) by (rewrite H1, removed_snoc; destruct r; lia).
  constructor; rewrite ?H4, ?H5, ?H6, ?H7; try done; try lia.
  - rewrite H1. by apply legal_snoc.
  - intros j. rewrite nbb_pcs_set. case_decide; [done|]. by eapply place_mono; [..|apply Hp].
  - intros j. rewrite H1, by_thread_snoc, Hr, nbb_pcs_set. repeat case_decide; subst; try done.
    + by rewrite H9, H10, app_nil_r.
    + by rewrite app_nil_r.
Qed.

Lemma step_grows i s s' : nbb_step i s s' -> inserted (hist s) <= inserted (hist s').
Proof.
  intros Hs. destruct Hs; simpl; unfold insert_look, remove_look; simpl; try lia;
    repeat match goal with |- context [if ?b then _ else _] => destruct b end; simpl;
    rewrite ?inserted_snoc; lia.
Qed.

Lemma w64_small x : 0 <= x < 2 ^ 64 -> w64 x = x.
Proof. intros. by apply w64_id. Qed.

Lemma div_le t : 0 <= t -> 0 <= t / len <= t.
Proof. intros Ht. split; [by apply Z.div_pos|]. apply Z.div_le_upper_bound; nia. Qed.

Lemma inv_insert_look s i v b t q :
  nbb_inv s q -> no_overflow (inserted (hist s)) -> pcs s i = ILook v b t ->
  exists q', nbb_inv (insert_look i v b t (entries s (t mod len)) s) q'.
Proof.
  intros HI Hv Hp. pose proof (ni_place _ _ HI i) as Hpl. rewrite Hp in Hpl. destruct Hpl as (Hval & Hb & Ht).
  pose proof (ni_buffer _ _ HI) as HB. pose proof (ni_tail _ _ HI). pose proof (ni_head _ _ HI).
  assert (Hmove : forall p, place_ok (inserted (hist s)) (removed (hist s)) p -> pending p = [] ->
    nbb_inv (set_pc i p s) q).
  { intros p H1 H2. eapply (inv_move s _ i p); try done. by rewrite Hp. }
  unfold insert_look. destruct (insert_sees _ _ _ _ t Hv HB Ht) as [[Hlt Hver]|[(-> & Hroom & -> & ->)|(-> & Hroom & Hne & ->)]].
  - exists q. destruct (Z.eqb_spec (nbb_ver (entries s (t mod len))) (t / len)); [lia|].
    rewrite orb_true_r, andb_false_r. destruct Hv. rewrite w64_small by lia.
    apply Hmove; [|done]. simpl. split_and!; done || lia.
  - exists q. rewrite !Z.eqb_refl. simpl. by apply Hmove.
  - exists (spec q (Insert v)).2. rewrite (proj2 (Z.eqb_neq _ 0)) by done. rewrite Z.eqb_refl. simpl orb. simpl andb. cbn iota.
    assert (Hfull : spec q (Insert v) = (RFull, q)).
    { simpl. rewrite (proj2 (Z.ltb_ge _ _)); [done|]. pose proof (bo_len _ _ _ _ HB). lia. }
    eapply (inv_effect s _ i (Return (Insert v) RFull) q (Insert v) RFull HI); try done; [by rewrite Hfull| |by rewrite Hp].
    rewrite Hfull. simpl. by rewrite inserted_snoc, removed_snoc.
Qed.

Lemma inv_remove_look s i b h q :
  nbb_inv s q -> no_overflow (inserted (hist s)) -> pcs s i = RLook b h ->
  exists q', nbb_inv (remove_look i b h (entries s (h mod len)) s) q'.
Proof.
  intros HI Hv Hp. pose proof (ni_place _ _ HI i) as Hpl. rewrite Hp in Hpl. destruct Hpl as (Hb & Hh).
  pose proof (ni_buffer _ _ HI) as HB. pose proof (ni_tail _ _ HI). pose proof (ni_head _ _ HI).
  pose proof (bo_len _ _ _ _ HB). pose proof (div_le h ltac:(lia)). pose proof Hv as [_ Hv'].
  assert (Hmove : forall p, place_ok (inserted (hist s)) (removed (hist s)) p -> pending p = [] ->
    nbb_inv (set_pc i p s) q).
  { intros p H3 H4. eapply (inv_move s _ i p); try done. by rewrite Hp. }
  unfold remove_look. rewrite !w64_small by lia.
  destruct (remove_sees _ _ _ _ h Hv HB Hh) as [(Hlt & Hver & Hw)|[(-> & HT & -> & ->)|(-> & HT & -> & Hval & Hq)]].
  - exists q. destruct (Z.eqb_spec (nbb_ver (entries s (h mod len))) (h / len)); [lia|]. rewrite andb_false_r.
    replace ((nbb_val (entries s (h mod len)) =? 0) || negb (nbb_ver (entries s (h mod len)) =? h / len + 1)) with true.
    + apply Hmove; [|done]. simpl. lia.
    + destruct Hw as [-> |Hw]; [done|]. rewrite (proj2 (Z.eqb_neq _ (h / len + 1))) by lia. by rewrite orb_true_r.
  - exists (spec q Remove).2. rewrite !Z.eqb_refl. simpl orb. simpl andb. cbn iota.
    assert (q = []) as -> by (destruct q; [done|simpl in *; lia]).
    eapply (inv_effect s _ i (Return Remove REmpty) [] Remove REmpty HI); try done; [|by rewrite Hp].
    simpl. by rewrite inserted_snoc, removed_snoc.
  - exists q. rewrite Z.eqb_refl, (proj2 (Z.eqb_neq _ 0)) by (unfold is_val in Hval; lia). simpl.
    apply Hmove; [|done]. simpl. split_and!; try done; lia.
Qed.

Lemma inv_cas s i v b t q :
  nbb_inv s q -> no_overflow (inserted (hist s)) -> pcs s i = ICas v b t ->
  entries s (t mod len) = nbb_mask (t / len) 0 ->
  exists q', nbb_inv (set_pc i (ITail v b t)
    (effect i (Insert v) RDone (set_entry t (nbb_mask (w64 (t / len + 1)) v) s))) q'.
Proof.
  intros HI Hv Hp He. pose proof (ni_place _ _ HI i) as Hpl. rewrite Hp in Hpl. destruct Hpl as (Hval & Hb & Ht).
  pose proof (ni_buffer _ _ HI) as HB. pose proof (bo_len _ _ _ _ HB). pose proof (div_le t ltac:(lia)).
  destruct (version_ok _ t Hv) as [? Hver]; [lia|]. pose proof pow_pos.
  assert (HeV : nbb_val (entries s (t mod len)) = 0) by (rewrite He, mask_val; lia).
  assert (HeW : nbb_ver (entries s (t mod len)) = t / len) by (rewrite He, mask_ver; lia).
  destruct (insert_sees _ _ _ _ t Hv HB Ht) as [[Hlt Hx]|[(-> & Hroom & _ & _)|(_ & _ & Hne & _)]]; [lia| |done].
  destruct Hv as [_ Hv]. rewrite w64_small by lia.
  assert (Hspec : spec q (Insert v) = (RDone, q ++ [v])).
  { simpl. by rewrite (proj2 (Z.ltb_lt _ _)) by lia. }
  exists (spec q (Insert v)).2.
  eapply (inv_effect s _ i _ q (Insert v) RDone HI); try done; [by rewrite Hspec|..].
  - rewrite Hspec. simpl. rewrite inserted_snoc, removed_snoc.
    by apply buffer_insert.
  - simpl. rewrite inserted_snoc. split_and!; try done; lia.
  - by rewrite Hp.
Qed.

Lemma inv_rcas s i b h w q :
  nbb_inv s q -> no_overflow (inserted (hist s)) -> pcs s i = RCas b h w ->
  entries s (h mod len) = nbb_mask (w64 (h / len + 1)) (nbb_val w) ->
  exists q', nbb_inv (set_pc i (RHead b h (nbb_val (nbb_mask (w64 (h / len + 1)) (nbb_val w))))
    (effect i Remove (RValue (nbb_val (nbb_mask (w64 (h / len + 1)) (nbb_val w))))
       (set_entry h (nbb_mask (w64 (h / len + 1)) 0) s))) q'.
Proof.
  intros HI Hv Hp He. pose proof (ni_place _ _ HI i) as Hpl. rewrite Hp in Hpl. destruct Hpl as (Hb & Hh & Hval).
  pose proof (ni_buffer _ _ HI) as HB. pose proof (bo_len _ _ _ _ HB). pose proof (div_le h ltac:(lia)).
  destruct (version_ok _ h Hv) as [? Hver]; [lia|]. pose proof pow_pos.
  assert (Hw : w64 (h / len + 1) = h / len + 1) by (apply w64_small; destruct Hv; lia). rewrite Hw in *.
  rewrite mask_val by (unfold is_val in Hval; lia).
  assert (HeV : nbb_val (entries s (h mod len)) = nbb_val w) by (rewrite He, mask_val; unfold is_val in Hval; lia).
  assert (HeW : nbb_ver (entries s (h mod len)) = h / len + 1) by (rewrite He, mask_ver; unfold is_val in Hval; lia).
  destruct (remove_sees _ _ _ _ h Hv HB Hh) as [(_ & _ & [Hx|Hx])|[(_ & _ & Hx & _)|(-> & HT & _ & _ & Hq)]];
    try (unfold is_val in Hval; lia).
  destruct q as [|v q]; [done|]. simpl in Hq. rewrite HeV in Hq. injection Hq as ->.
  exists (spec (nbb_val w :: q) Remove).2.
  eapply (inv_effect s _ i _ _ Remove (RValue (nbb_val w)) HI); try done.
  - simpl. rewrite inserted_snoc, removed_snoc.
    by eapply buffer_remove.
  - simpl. rewrite removed_snoc. lia.
  - by rewrite Hp.
Qed.

Lemma step_inv i s s' q :
  nbb_inv s q -> no_overflow (inserted (hist s)) -> nbb_step i s s' -> exists q', nbb_inv s' q'.
Proof.
  intros HI Hv Hs. pose proof (ni_tail _ _ HI) as Htl. pose proof (ni_head _ _ HI) as Hhd.
  pose proof (bo_len _ _ _ _ (ni_buffer _ _ HI)) as Hlen'.
  pose proof (ni_place _ _ HI i) as Hpl.
  destruct Hs as [val s Hp Hval|val s Hp|val b t s Hp|val b t s Hp|val b t s Hp|val t s Hp
    |s Hp|s Hp|b h s Hp|b h w s Hp old|b h v s Hp|h v s Hp|o r s Hp]; rewrite Hp in Hpl; simpl in Hpl;
    try (exists q; eapply (inv_move s _ i); try done; [by split_and!|by rewrite Hp]);
    try (exists q; eapply (inv_move s _ i); try done; by rewrite Hp).
  - by eapply inv_insert_look.
  - case_bool; [by eapply inv_cas|]. exists q. eapply (inv_move s _ i); try done; [apply Hpl|by rewrite Hp].
  - exists q. destruct Hpl as (H1 & H2 & H3). destruct Hv as [_ Hv]. rewrite w64_small by lia.
    repeat case_bool; (eapply (inv_move s _ i); try done; try (by rewrite Hp)); simpl; split_and!; done || lia.
  - exists q. destruct Hpl as (H1 & H2). (eapply (inv_move s _ i); try done; try (by rewrite Hp)); simpl; split_and!; done || lia.
  - by eapply inv_remove_look.
  - unfold old. case_bool; [by eapply inv_rcas|]. exists q. eapply (inv_move s _ i); try done. by rewrite Hp.
  - exists q. destruct Hpl as (H1 & H2). destruct Hv as [_ Hv]. rewrite w64_small by lia.
    repeat case_bool; (eapply (inv_move s _ i); try done; try (by rewrite Hp)); simpl; split_and!; done || lia.
  - exists q. destruct HI as [Hl Hb Ht Hh Hpc Hr]. constructor; try done.
    + intros j. rewrite nbb_pcs_set. case_decide; [done|apply Hpc].
    + intros j. rewrite nbb_pcs_set. simpl. rewrite Hr. case_decide; subst; [|done]. rewrite Hp. simpl.
      by rewrite app_nil_r.
Qed.

Lemma nbb_init junk : (forall j, 0 <= j < len -> junk j = 0) -> nbb_inv (nbb_list_create junk) [].
Proof.
  intros Hj. constructor; simpl; try done.
  constructor; try done; [unfold inserted, removed; simpl; lia|].
  intros k Hk. unfold slot_free. rewrite Hj by by apply Z.mod_pos_bound. unfold inserted, removed in Hk. simpl in Hk. rewrite Z.div_small by lia.
  pose proof pow_pos. rewrite mask_eq by lia. lia.
Qed.

Lemma nbb_reach_inv junk s :
  (forall j, 0 <= j < len -> junk j = 0) -> nbb_reachable junk s -> no_overflow (inserted (hist s)) ->
  exists q, nbb_inv s q.
Proof.
  intros Hj Hr. unfold nbb_reachable in Hr.
  assert (Hgen : forall s0 s', rtc (fun s s' => exists i, nbb_step i s s') s0 s' ->
    (exists q, nbb_inv s0 q) -> no_overflow (inserted (hist s')) -> exists q, nbb_inv s' q).
  { intros s0 s' H H0. revert s' H.
    apply (rtc_ind_r (fun s' => no_overflow (inserted (hist s')) -> exists q, nbb_inv s' q)); [done|].
    intros y z Hxy [i Hyz] IH. intros Hz. pose proof (step_grows i _ _ Hyz). assert (Hy : no_overflow (inserted (hist y))).
    { unfold no_overflow in *. lia. }
    destruct (IH Hy) as [q Hq]. by eapply step_inv. }
  apply (Hgen _ _ Hr). exists []. by apply nbb_init.
Qed.

(** ** What the list promises *)

(** A search does not go past the end of what it looks for. *)
Definition search_ok (T H : Z) (p : pc) : Prop :=
  match p with
  | ILook _ _ t | ICas _ _ t => t <= T
  | RLook _ h | RCas _ h _ => h <= H
  | _ => True
  end.

(** The operations so far took effect as on a queue of at most [length] values, each between
    its call and its return, and have returned what the queue returns; the searches under
    way stay within it. *)
Definition nbb_works (s : nbb) : Prop :=
  (exists q, legal (hist s) [] = Some q /\ Z.of_nat (length q) <= len) /\
  (forall i, by_thread i (hist s) = rets s i ++ pending (pcs s i)) /\
  (forall i, search_ok (inserted (hist s)) (removed (hist s)) (pcs s i)).

Lemma inv_works s q : nbb_inv s q -> nbb_works s.
Proof.
  intros HI. split; [|split; [apply HI|]].
  - exists q. split; [apply HI|]. destruct (ni_buffer _ _ HI). lia.
  - intros i. pose proof (ni_place _ _ HI i) as Hp. destruct (pcs s i); simpl in *; done || lia.
Qed.

(** *** A list whose array does not begin with zeros *)

(** One thread has inserted [k] values, into the first [k] entries. *)
Record filled (junk : Z -> Z) (k : nat) (s : nbb) : Prop := {
  fi_idle : forall i, pcs s i = Idle; fi_tail : tail s = Z.of_nat k; fi_inserted : inserted (hist s) = Z.of_nat k;
  fi_legal : legal (hist s) [] = Some (replicate k 1);
  fi_rest : forall x, Z.of_nat k <= x < len -> entries s x = junk x }.

Lemma own_pc i p s : pcs (set_pc i p s) i = p.
Proof. simpl. by rewrite decide_True. Qed.

Lemma reach_step junk i s s' : nbb_reachable junk s -> nbb_step i s s' -> nbb_reachable junk s'.
Proof. intros Hr Hs. eapply rtc_r; [exact Hr|by exists i]. Qed.

Lemma one_val : 0 < 1 < 2 ^ n.
Proof. split; [lia|]. apply Z.pow_gt_1; lia. Qed.

(** The next insertion, until it looks at its entry *)
Lemma filled_look junk k s : no_overflow len -> filled junk k s -> Z.of_nat k < len -> nbb_reachable junk s ->
  nbb_reachable junk (insert_look 0 1 (Z.of_nat k) (Z.of_nat k) (junk (Z.of_nat k))
    (set_pc 0 (ILook 1 (Z.of_nat k) (Z.of_nat k)) (set_pc 0 (ILoad 1) s))).
Proof.
  intros Hv [Hi Ht Hins Hl Hr] Hk Hs.
  eapply reach_step in Hs; [|apply (n_insert 0 1); [apply Hi|apply one_val]].
  eapply reach_step in Hs; [|apply (n_tail 0 1), own_pc]. simpl tail in Hs. rewrite Ht in Hs.
  eapply reach_step in Hs; [|apply (n_look 0 1 (Z.of_nat k) (Z.of_nat k)), own_pc].
  simpl entries in Hs. rewrite Z.mod_small, Hr in Hs by lia. exact Hs.
Qed.

Lemma filled_next junk k s : no_overflow len -> filled junk k s -> Z.of_nat k < len -> junk (Z.of_nat k) = 0 ->
  nbb_reachable junk s -> exists s', nbb_reachable junk s' /\ filled junk (S k) s'.
Proof.
  intros Hv Hf Hk Hj Hs. apply (filled_look junk k) in Hs; try done. destruct Hf as [Hi Ht Hins Hl Hr].
  pose proof pow_pos. destruct Hv as [_ Hv]. pose proof one_val as H1.
  assert (Hz : nbb_ver 0 = 0) by apply Z.shiftr_0_l. rewrite Hj in Hs. unfold insert_look in Hs. rewrite (Z.div_small (Z.of_nat k)), Hz in Hs by lia. simpl in Hs.
  eapply reach_step in Hs; [|apply (n_cas 0 1 (Z.of_nat k) (Z.of_nat k)), own_pc]. simpl entries in Hs.
  rewrite (Z.div_small (Z.of_nat k)), Z.mod_small, Hr, Hj, mask_eq in Hs by lia. simpl (_ =? _) in Hs. cbn iota in Hs.
  eapply reach_step in Hs; [|apply (n_move 0 1 (Z.of_nat k) (Z.of_nat k)), own_pc].
  simpl tail in Hs. rewrite w64_small, Ht, (proj2 (Z.ltb_lt _ _)), Z.eqb_refl in Hs by lia. cbn iota in Hs.
  eapply reach_step in Hs; [|apply (n_return 0 (Insert 1) RDone), own_pc].
  eexists. split; [exact Hs|]. constructor.
  - intros i. simpl. by repeat case_decide.
  - simpl. lia.
  - simpl. rewrite inserted_snoc, Hins. lia.
  - simpl. erewrite legal_snoc; [|exact Hl|simpl; rewrite (proj2 (Z.ltb_lt _ _)); [done|rewrite length_replicate; lia]].
    simpl. rewrite (proj2 (Z.ltb_lt _ _)) by (rewrite length_replicate; lia). simpl. by rewrite <- replicate_cons_app.
  - intros x Hx. simpl. rewrite decide_False by (rewrite Z.mod_small by lia; lia). apply Hr. lia.
Qed.

Lemma fill junk k : no_overflow len -> Z.of_nat k <= len -> (forall j, 0 <= j < Z.of_nat k -> junk j = 0) ->
  exists s, nbb_reachable junk s /\ filled junk k s.
Proof.
  intros Hv. induction k as [|k IH]; intros Hk Hj; [exists (nbb_list_create junk); split; [apply rtc_refl|by constructor]|].
  destruct IH as (s & Hs & Hf); [lia|intros; apply Hj; lia|]. eapply filled_next; try done; [lia|apply Hj; lia].
Qed.

(** The first entry that is not zero is taken for the end of a full queue, or the search
    passes it. *)
Lemma filled_fails junk k s : no_overflow len -> filled junk k s -> Z.of_nat k < len -> is_word (junk (Z.of_nat k)) ->
  nbb_reachable junk s -> (forall s, nbb_reachable junk s -> no_overflow (inserted (hist s)) -> nbb_works s) ->
  junk (Z.of_nat k) = 0.
Proof.
  intros Hv Hf Hk Hw Hs Hall. apply (filled_look junk k) in Hs; try done. apply Hall in Hs as (Hleg & _ & Hse).
  2: { unfold insert_look. destruct Hf as [_ _ Hins _ _]. unfold no_overflow in *.
       repeat case_match; simpl; rewrite ?inserted_snoc, Hins; lia. }
  destruct Hf as [Hi Ht Hins Hl Hr]. specialize (Hse 0%nat). revert Hleg Hse. unfold insert_look.
  rewrite (Z.div_small (Z.of_nat k)) by lia. rewrite nbb_ver_eq, nbb_val_eq by done. destruct Hv as [_ Hv].
  destruct (Z.eqb_spec (junk (Z.of_nat k) mod 2 ^ n) 0) as [E1|E1], (Z.eqb_spec (junk (Z.of_nat k) / 2 ^ n) 0) as [E2|E2]; simpl.
  - intros _ _. pose proof pow_pos. rewrite (Z.div_mod (junk (Z.of_nat k)) (2 ^ n)) by lia. lia.
  - intros _. rewrite Hins, w64_small by lia. lia.
  - intros (q & Hq & _). exfalso. revert Hq. clear - Hl Hk.
    assert (Hbad : forall h q q' i, legal h q = Some q' -> Z.of_nat (length q') < len -> legal (h ++ [(i, (Insert 1, RFull))]) q = None).
    { induction h as [|[j [o r]] h IH]; intros q0 q' i H1 H2; simpl in *.
      - simplify_eq. by rewrite (proj2 (Z.ltb_lt _ _)), decide_False.
      - destruct (decide _); [by eapply IH|done]. }
    rewrite (Hbad _ _ _ _ Hl); [done|]. by rewrite length_replicate.
  - intros _. rewrite Hins, w64_small by lia. lia.
Qed.

(** C12. The list works in all its executions exactly when the array that [malloc] returned
    begins with zeros, which [nbb_list_create] does not see to.  To work is: the operations
    of any number of threads, in any interleaving, take effect one at a time, each at one
    of its own steps between call and return, and return what a queue of at most [length]
    values returns (values leave in the order in which they entered, each once, FULL is
    returned only when the queue holds [length] values and EMPTY only when it holds none);
    and no search passes the end of the queue.  The executions are those in which fewer
    values are inserted than the laps of an entry can number. *)
Theorem nbb_linearizable junk :
  no_overflow len -> (forall j, 0 <= j < len -> is_word (junk j)) ->
  (forall j, 0 <= j < len -> junk j = 0) <->
  (forall s, nbb_reachable junk s -> no_overflow (inserted (hist s)) -> nbb_works s).
Proof.
  intros Hv Hw. split.
  - intros Hj s Hr Hs. destruct (nbb_reach_inv junk s Hj Hr Hs) as [q HI]. by eapply inv_works.
  - intros Hall. assert (Hk : forall k j, (Z.of_nat k <= len) -> 0 <= j < Z.of_nat k -> junk j = 0).
    { induction k as [|k IH]; intros j Hk Hj; [lia|]. destruct (decide (j = Z.of_nat k)) as [->|]; [|apply IH; lia].
      destruct (fill junk k Hv) as (s & Hs & Hf); [lia|intros; apply IH; lia|].
      eapply filled_fails; try done; [lia|apply Hw; lia]. }
    intros j Hj. apply (Hk (Z.to_nat len)); lia.
Qed.

(** ** Running threads *)

Inductive nbb_move := Call_insert (i : nat) (val : Z) | Call_remove (i : nat) | Next (i : nat).

Definition nbb_next (i : nat) (s : nbb) : nbb :=
  match pcs s i with
  | Idle => s
  | ILoad val => set_pc i (ILook val (tail s) (tail s)) s
  | ILook val base t => insert_look i val base t (entries s (t mod len)) s
  | ICas val base t =>
      if entries s (t mod len) =? nbb_mask (t / len) 0
      then set_pc i (ITail val base t)
             (effect i (Insert val) RDone (set_entry t (nbb_mask (w64 (t / len + 1)) val) s))
      else set_pc i (ILoad val) s
  | ITail val base t =>
      if base <? w64 (t + 1) then
        if tail s =? base then set_pc i (Return (Insert val) RDone) (s <| tail := w64 (t + 1) |>)
        else set_pc i (IReload val t) s
      else set_pc i (Return (Insert val) RDone) s
  | IReload val t => set_pc i (ITail val (tail s) t) s
  | RLoad => set_pc i (RLook (head s) (head s)) s
  | RLook base h => remove_look i base h (entries s (h mod len)) s
  | RCas base h headmask =>
      let oldmask := nbb_mask (w64 (h / len + 1)) (nbb_val headmask) in
      if entries s (h mod len) =? oldmask
      then set_pc i (RHead base h (nbb_val oldmask))
             (effect i Remove (RValue (nbb_val oldmask)) (set_entry h (nbb_mask (w64 (h / len + 1)) 0) s))
      else set_pc i RLoad s
  | RHead base h v =>
      if base <? w64 (h + 1) then
        if head s =? base then set_pc i (Return Remove (RValue v)) (s <| head := w64 (h + 1) |>)
        else set_pc i (RReload h v) s
      else set_pc i (Return Remove (RValue v)) s
  | RReload h v => set_pc i (RHead (head s) h v) s
  | Return o r => set_pc i Idle (s <| rets := fun j => if decide (j = i) then rets s j ++ [(o, r)] else rets s j |>)
  end.

Definition nbb_do (s : nbb) (m : nbb_move) : nbb :=
  match m with
  | Call_insert i val =>
      match pcs s i with
      | Idle => if (0 <? val) && (val <? 2 ^ n) then set_pc i (ILoad val) s else s
      | _ => s
      end
  | Call_remove i => match pcs s i with Idle => set_pc i RLoad s | _ => s end
  | Next i => nbb_next i s
  end.

Lemma next_step i s : pcs s i <> Idle -> nbb_step i s (nbb_next i s).
Proof. unfold nbb_next. destruct (pcs s i) eqn:Hp; intros Hne; try done; by constructor. Qed.

Lemma do_reachable l s : rtc (fun s s' => exists i, nbb_step i s s') s (foldl nbb_do s l).
Proof.
  revert s. induction l as [|m l IH]; intros s; [done|]. simpl. etransitivity; [|apply IH].
  destruct m as [i val|i|i]; simpl.
  - destruct (pcs s i) eqn:Hp; try done. destruct (Z.ltb_spec 0 val); [|done].
    destruct (Z.ltb_spec val (2 ^ n)); [|done]. apply rtc_once. exists i. by apply n_insert.
  - destruct (pcs s i) eqn:Hp; try done. apply rtc_once. exists i. by apply n_remove.
  - destruct (pcs s i) eqn:Hp; try (apply rtc_once; exists i; apply next_step; by rewrite Hp).
    unfold nbb_next. by rewrite Hp.
Qed.

End Nbb.

(** Threads 0 and 1 insert 7 and 8 into a list of two; both look at the same entry,
    and thread 1 has to try again; thread 2 removes. *)
Definition demo_moves : list nbb_move :=
  [Call_insert 0 7; Call_insert 1 8; Next 0; Next 1; Next 0; Next 1; Next 0; Next 1] ++
  replicate 6 (Next 1) ++ [Call_remove 2] ++ replicate 5 (Next 2) ++ replicate 2 (Next 0).

Definition demo_end : nbb := foldl (nbb_do 2 32) (nbb_list_create (fun _ => 0)) demo_moves.

Lemma nbb_linearizable_witness :
  legal 2 (hist demo_end) [] = Some [8] /\ rets demo_end 2 = [(Remove, RValue 7)] /\ nbb_works 2 demo_end.
Proof.
  split; [by vm_compute|]. split; [by vm_compute|].
  apply (nbb_linearizable 2 32 ltac:(lia) ltac:(lia) (fun _ => 0)).
  - vm_compute. split; reflexivity.
  - intros j _. vm_compute. split; [discriminate|reflexivity].
  - done.
  - apply do_reachable.
  - vm_compute. split; reflexivity.
Defined.

(** ** The array is not initialised *)

(** [nbb_list_create] takes the array from [malloc] and does not clear it.  With what
    an earlier use of the memory may have left in it, a list into which nothing
    was inserted gives a value out. *)
Lemma nbb_garbage :
  exists junk moves, let s := foldl (nbb_do 2 32) (nbb_list_create junk) moves in
    rets s 0 = [(Remove, RValue 5)] /\ inserted (hist s) = 0 /\ legal 2 (hist s) [] = None.
Proof.
  exists (fun j => if j =? 0 then nbb_mask 32 1 5 else 0), (Call_remove 0 :: replicate 5 (Next 0)).
  cbv zeta. split_and!; by vm_compute.
Qed.
