(* ===== verification/Prio.v ===== *)
(** * The task queues of the server: TPCC/Server/core/priority.c

    An array of task lists, one for each priority, and a bitmap with a bit for each
    list that is not empty.  A list has a lock for its head and one for its tail; an
    operation takes both when it finds one task in the list and else only one.  Any
    number of threads insert and remove; a step is one access to shared memory, or one
    attempt at a lock.  Ghost components record the operations in the order in which
    they take effect, what each thread's calls have returned and where each task is.

    This is the build without USE_NBBLIST, which is the default. *)
From S2P Require Import Prelude Words.

(** ** State *)

(** task_list_t; a lock holds the thread that has it. *)
Record task_list := mk_task_list {
  headlock : option nat; taillock : option nat; qhead : Z; qtail : Z;
  nenq : Z; ndeq : Z; neqx : Z; nins : Z; count : Z }.
#[export] Instance eta_task_list : Eta task_list := fun l =>
  mk_task_list (headlock l) (taillock l) (qhead l) (qtail l) (nenq l) (ndeq l) (neqx l) (nins l) (count l).

Definition task_list_init : task_list := mk_task_list None None NULL NULL 0 0 0 0 0.

(** priority.h: a priority is a place in the bitmap. *)
Definition GET_BYTE_NUM (pos : Z) : Z := Z.quot pos 8.
Definition GET_BIT_NUM (pos : Z) : Z := Z.rem pos 8.
Definition GET_POS_NUM (byte bit : Z) : Z := byte * 8 + bit.
Definition CHECK_BIT (byte bit : Z) : Z := Z.land byte (Z.shiftl 1 bit) mod 2 ^ 8.
Definition SET_BIT (byte bit : Z) : Z := Z.lor byte (Z.shiftl 1 bit) mod 2 ^ 8.
Definition RESET_BIT (byte bit : Z) : Z := Z.land byte (Z.lnot (Z.shiftl 1 bit)) mod 2 ^ 8.

(** An operation on a list, and what it returns: 0 for an insertion, the task or NULL
    for a removal. *)
Inductive op := Insert (t p : Z) | Remove (p : Z).
Definition op_prio (o : op) : Z := match o with Insert _ p | Remove p => p end.

(** The counters that the assertions of the lock functions use, and what these do *)
Inductive counter := Nenq | Ndeq | Neqx.
Inductive act := Up (c : counter) | Down (c : counter) | UnlockHead | UnlockTail.

(** insert_acq_lock and remove_acq_lock behind the locks, with the number of locks;
    insert_rel_lock and remove_rel_lock *)
Definition insert_enter (two : bool) : list act := if two then [Up Nenq; Up Ndeq; Up Neqx] else [Up Nenq].
Definition remove_enter (two : bool) : list act := if two then [Up Ndeq; Up Nenq; Up Neqx] else [Up Ndeq].
Definition insert_rel_lock (two : bool) : list act :=
  (if two then [Down Ndeq; Down Neqx; UnlockHead] else []) ++ [Down Nenq; UnlockTail].
Definition remove_rel_lock (two : bool) : list act :=
  (if two then [Down Nenq; Down Neqx; UnlockTail] else []) ++ [Down Ndeq; UnlockHead].

(** Where a thread is: [t] is the task, [p] the priority, [two] tells that it has both
    locks. *)
Inductive pc :=
| Idle
| Crash                                     (* a failed assertion, or an access outside *)
| InsCountNins (t p : Z)                    (* InsertTask *)
| InsTrylock (t p : Z)                      (* insert_acq_lock: the tail lock *)
| InsCount (t p : Z)                        (* load of count *)
| InsTrylock2 (t p : Z)                     (* the head lock *)
| InsUnlock (t p : Z)                       (* it was not free *)
| InsEnter (t p : Z) (two : bool) (l : list act)
| InsHead (t p : Z) (two : bool)            (* InsertTaskWithPriority: load of head *)
| InsSetHead (t p : Z) (two : bool)
| InsTail (t p : Z) (two : bool)            (* load of tail *)
| InsLink (t p : Z) (two : bool) (tl : Z)   (* tail->next_queue = task *)
| InsSetTail (t p : Z) (two : bool)
| InsAdd (t p : Z) (two : bool)             (* fetch_add of count *)
| InsBitmap (t p : Z) (two : bool)          (* load of the byte of the bitmap *)
| InsCas (t p : Z) (two : bool) (b : Z)     (* B_CAS *)
| InsLeave (t p : Z) (l : list act)
| RemTrylock (p : Z)                        (* remove_acq_lock *)
| RemCount (p : Z)
| RemTrylock2 (p : Z)
| RemUnlock (p : Z)
| RemEnter (p : Z) (two : bool) (l : list act)
| RemHead (p : Z) (two : bool)              (* RemoveTaskFromPriority: load of head *)
| RemTask (p : Z) (two : bool)              (* load of head again *)
| RemNext (t p : Z) (two : bool)            (* load of task->next_queue *)
| RemSetHead (t p : Z) (two : bool) (nx : Z)
| RemSetTail (t p : Z) (two : bool)         (* tail = NULL *)
| RemClear (t p : Z) (two : bool)           (* task->next_queue = NULL *)
| RemSub (t p : Z) (two : bool)             (* fetch_sub of count *)
| RemBitmap (t p : Z) (two : bool)
| RemCas (t p : Z) (two : bool) (b : Z)
| RemLeave (t p : Z) (l : list act)
| HighBit (byte bit : Z)                    (* RemoveHighestPriorityTask: load of the byte *)
| Return (r : Z)                            (* of an insertion *)
| ReturnTask (t : Z).

(** Where a task is *)
Inductive place := Outside | Held (i : nat) | Queued (p : Z).

(** [high]: the byte and the bit at which the thread's RemoveHighestPriorityTask is *)
Record prio := mk_prio {
  lists : Z -> task_list; bitmap : Z -> Z; next_queue : Z -> Z;
  pcs : nat -> pc; high : nat -> option (Z * Z);
  loc : Z -> place; hist : list (nat * (op * Z)); rets : nat -> list (op * Z) }.
#[export] Instance eta_prio : Eta prio := fun s =>
  mk_prio (lists s) (bitmap s) (next_queue s) (pcs s) (high s) (loc s) (hist s) (rets s).

Section Prio.

(** [pta->num_priorities], positive as GetPrioTaskArray checks *)
Context (num_priorities : Z).

Definition num_bytes : Z := Z.quot (num_priorities - 1) 8 + 1.

(** The parameters of the calls are checked before anything is accessed. *)
Definition prio_ok (p : Z) : bool := negb ((p <? 0) || (num_priorities <=? p)).

(** [None]: there is no array for these priorities. *)
Definition GetPrioTaskArray : option prio :=
  if num_priorities <=? 0 then None
  else Some (mk_prio (fun _ => task_list_init) (fun _ => 0) (fun _ => NULL) (fun _ => Idle) (fun _ => None)
               (fun _ => Outside) [] (fun _ => [])).

(** ** Steps *)

Definition go (i : nat) (c : pc) (s : prio) : prio := s <| pcs := put (pcs s) i c |>.
Definition upd_list (p : Z) (f : task_list -> task_list) (s : prio) : prio :=
  s <| lists := put (lists s) p (f (lists s p)) |>.
Definition move (t : Z) (w : place) (s : prio) : prio := s <| loc := put (loc s) t w |>.
Definition effect (i : nat) (o : op) (r : Z) (s : prio) : prio := s <| hist := hist s ++ [(i, (o, r))] |>.

Definition get_counter (c : counter) (l : task_list) : Z :=
  match c with Nenq => nenq l | Ndeq => ndeq l | Neqx => neqx l end.
Definition set_counter (c : counter) (v : Z) (l : task_list) : task_list :=
  match c with Nenq => l <| nenq := v |> | Ndeq => l <| ndeq := v |> | Neqx => l <| neqx := v |> end.

(** One action; the assertions compare the counter from before. *)
Definition do_act (i : nat) (p : Z) (a : act) (k : pc) (s : prio) : prio :=
  match a with
  | Up c =>
      let v := get_counter c (lists s p) in
      go i (if v =? 0 then k else Crash) (upd_list p (set_counter c (v + 1)) s)
  | Down c =>
      let v := get_counter c (lists s p) in
      go i (if v =? 1 then k else Crash) (upd_list p (set_counter c (v - 1)) s)
  | UnlockHead => go i k (upd_list p (fun l => l <| headlock := None |>) s)
  | UnlockTail => go i k (upd_list p (fun l => l <| taillock := None |>) s)
  end.

(** The place behind the byte and the bit, going down *)
Definition high_next (byte bit : Z) : pc :=
  if 0 <? bit then HighBit byte (bit - 1) else if 0 <? byte then HighBit (byte - 1) 7 else ReturnTask NULL.

(** The end of an operation on a list *)
Definition finish (i : nat) (o : op) (r : Z) (s : prio) : prio := s <| rets := put (rets s) i (rets s i ++ [(o, r)]) |>.

(** Where a removal returns to, which RemoveHighestPriorityTask may have called *)
Definition removed (i : nat) (t : Z) (s : prio) : pc :=
  match high s i with
  | Some (byte, bit) => if t =? NULL then high_next byte bit else ReturnTask t
  | None => ReturnTask t
  end.

Definition insert_next (i : nat) (s : prio) : prio :=
  match pcs s i with
  | InsCountNins t p => go i (InsTrylock t p) (upd_list p (fun l => l <| nins := nins l + 1 |>) s)
  | InsTrylock t p =>
      match taillock (lists s p) with
      | Some _ => s
      | None => go i (InsCount t p) (upd_list p (fun l => l <| taillock := Some i |>) s)
      end
  | InsCount t p =>
      go i (if count (lists s p) =? 1 then InsTrylock2 t p else InsEnter t p false (insert_enter false)) s
  | InsTrylock2 t p =>
      match headlock (lists s p) with
      | Some _ => go i (InsUnlock t p) s
      | None => go i (InsEnter t p true (insert_enter true)) (upd_list p (fun l => l <| headlock := Some i |>) s)
      end
  | InsUnlock t p => go i (InsTrylock t p) (upd_list p (fun l => l <| taillock := None |>) s)
  | InsEnter t p two (a :: l) =>
      do_act i p a (match l with [] => InsHead t p two | _ => InsEnter t p two l end) s
  | InsHead t p two => go i (if qhead (lists s p) =? NULL then InsSetHead t p two else InsTail t p two) s
  | InsSetHead t p two =>
      go i (InsSetTail t p two)
        (effect i (Insert t p) 0 (move t (Queued p) (upd_list p (fun l => l <| qhead := t |>) s)))
  | InsTail t p two => go i (InsLink t p two (qtail (lists s p))) s
  | InsLink t p two tl =>
      if tl =? NULL then go i Crash s
      else go i (InsSetTail t p two)
             (effect i (Insert t p) 0 (move t (Queued p) (s <| next_queue := put (next_queue s) tl t |>)))
  | InsSetTail t p two => go i (InsAdd t p two) (upd_list p (fun l => l <| qtail := t |>) s)
  | InsAdd t p two =>
      let v := count (lists s p) in
      go i (if v =? 0 then InsBitmap t p two else InsLeave t p (insert_rel_lock two))
        (upd_list p (fun l => l <| count := v + 1 |>) s)
  | InsBitmap t p two => go i (InsCas t p two (bitmap s (GET_BYTE_NUM p))) s
  | InsCas t p two b =>
      if bitmap s (GET_BYTE_NUM p) =? b
      then go i (InsLeave t p (insert_rel_lock two))
             (s <| bitmap := put (bitmap s) (GET_BYTE_NUM p) (SET_BIT b (GET_BIT_NUM p)) |>)
      else go i (InsBitmap t p two) s
  | InsLeave t p [a] => finish i (Insert t p) 0 (do_act i p a (Return 0) s)
  | InsLeave t p (a :: l) => do_act i p a (InsLeave t p l) s
  | _ => s
  end.

Definition remove_next (i : nat) (s : prio) : prio :=
  match pcs s i with
  | RemTrylock p =>
      match headlock (lists s p) with
      | Some _ => s
      | None => go i (RemCount p) (upd_list p (fun l => l <| headlock := Some i |>) s)
      end
  | RemCount p =>
      go i (if count (lists s p) =? 1 then RemTrylock2 p else RemEnter p false (remove_enter false)) s
  | RemTrylock2 p =>
      match taillock (lists s p) with
      | Some _ => go i (RemUnlock p) s
      | None => go i (RemEnter p true (remove_enter true)) (upd_list p (fun l => l <| taillock := Some i |>) s)
      end
  | RemUnlock p => go i (RemTrylock p) (upd_list p (fun l => l <| headlock := None |>) s)
  | RemEnter p two (a :: l) => do_act i p a (match l with [] => RemHead p two | _ => RemEnter p two l end) s
  | RemHead p two =>
      if qhead (lists s p) =? NULL
      then go i (RemLeave NULL p (remove_rel_lock two)) (effect i (Remove p) NULL s)
      else go i (RemTask p two) s
  | RemTask p two => go i (RemNext (qhead (lists s p)) p two) s
  | RemNext t p two => if t =? NULL then go i Crash s else go i (RemSetHead t p two (next_queue s t)) s
  | RemSetHead t p two nx =>
      go i (if nx =? NULL then RemSetTail t p two else RemClear t p two)
        (effect i (Remove p) t (move t (Held i) (upd_list p (fun l => l <| qhead := nx |>) s)))
  | RemSetTail t p two => go i (RemClear t p two) (upd_list p (fun l => l <| qtail := NULL |>) s)
  | RemClear t p two => go i (RemSub t p two) (s <| next_queue := put (next_queue s) t NULL |>)
  | RemSub t p two =>
      let v := count (lists s p) in
      go i (if v =? 1 then RemBitmap t p two else RemLeave t p (remove_rel_lock two))
        (upd_list p (fun l => l <| count := v - 1 |>) s)
  | RemBitmap t p two => go i (RemCas t p two (bitmap s (GET_BYTE_NUM p))) s
  | RemCas t p two b =>
      if bitmap s (GET_BYTE_NUM p) =? b
      then go i (RemLeave t p (remove_rel_lock two))
             (s <| bitmap := put (bitmap s) (GET_BYTE_NUM p) (RESET_BIT b (GET_BIT_NUM p)) |>)
      else go i (RemBitmap t p two) s
  | RemLeave t p [a] =>
      finish i (Remove p) t (do_act i p a (removed i t s) s) <| high := put (high s) i None |>
  | RemLeave t p (a :: l) => do_act i p a (RemLeave t p l) s
  | _ => s
  end.

(** RemoveTaskFromPriority, called in a loop over the places of the bitmap *)
Definition high_step (i : nat) (byte bit : Z) (s : prio) : prio :=
  if CHECK_BIT (bitmap s byte) bit =? 0 then go i (high_next byte bit) s
  else if prio_ok (GET_POS_NUM byte bit)
       then go i (RemTrylock (GET_POS_NUM byte bit)) (s <| high := put (high s) i (Some (byte, bit)) |>)
       else go i (high_next byte bit) s.

Definition next (i : nat) (s : prio) : prio :=
  match pcs s i with
  | Idle | Crash => s
  | HighBit byte bit => high_step i byte bit s
  | Return _ => go i Idle s
  | ReturnTask t => go i Idle (move t Outside s)
  | RemTrylock _ | RemCount _ | RemTrylock2 _ | RemUnlock _ | RemEnter _ _ _ | RemHead _ _ | RemTask _ _
  | RemNext _ _ _ | RemSetHead _ _ _ _ | RemSetTail _ _ _ | RemClear _ _ _ | RemSub _ _ _ | RemBitmap _ _ _
  | RemCas _ _ _ _ | RemLeave _ _ _ => remove_next i s
  | _ => insert_next i s
  end.

(** The calls: [InsertTask] of a task with this priority, [InsertTaskWithPriority],
    [RemoveTaskFromPriority] and [RemoveHighestPriorityTask] *)
Inductive call := InsertTask (t p : Z) | InsertTaskWithPriority (t p : Z) | RemoveTaskFromPriority (p : Z) | RemoveHighestPriorityTask.

(** InsertTask uses the priority before it is checked. *)
Definition start (i : nat) (c : call) (s : prio) : prio :=
  match c with
  | InsertTask t p =>
      if (t =? NULL) || negb (prio_ok p) then go i Crash s else go i (InsCountNins t p) (move t (Held i) s)
  | InsertTaskWithPriority t p =>
      if (t =? NULL) || negb (prio_ok p) then go i (Return (-1)) s else go i (InsTrylock t p) (move t (Held i) s)
  | RemoveTaskFromPriority p => if prio_ok p then go i (RemTrylock p) s else go i (ReturnTask NULL) s
  | RemoveHighestPriorityTask => go i (HighBit (num_bytes - 1) 7) s
  end.

(** What callers owe: a task that is inserted is not in a list already, nor in the
    hands of another call. *)
Definition allowed (c : call) (s : prio) : Prop :=
  match c with
  | InsertTask t p => loc s t = Outside /\ t <> NULL /\ prio_ok p = true
  | InsertTaskWithPriority t p => loc s t = Outside
  | _ => True
  end.

Inductive prio_step (i : nat) (s : prio) : prio -> Prop :=
| p_call c : pcs s i = Idle -> allowed c s -> prio_step i s (start i c s)
| p_next : pcs s i <> Idle -> pcs s i <> Crash -> prio_step i s (next i s).

Definition prio_steps : prio -> prio -> Prop := rtc (fun s s' => exists i, prio_step i s s').

End Prio.

(** ** The specification: a queue for each priority *)

Definition spec (q : list Z) (o : op) : Z * list Z :=
  match o with
  | Insert t _ => (0, q ++ [t])
  | Remove _ => match q with [] => (NULL, []) | t :: q => (t, q) end
  end.

(** The queues after the operations, if each returns what the specification says *)
Fixpoint legal (h : list (nat * (op * Z))) (qs : Z -> list Z) : option (Z -> list Z) :=
  match h with
  | [] => Some qs
  | (_, (o, r)) :: h =>
      if (spec (qs (op_prio o)) o).1 =? r then legal h (put qs (op_prio o) (spec (qs (op_prio o)) o).2) else None
  end.

Lemma prio_legal_snoc h qs qs' i o r :
  legal h qs = Some qs' -> (spec (qs' (op_prio o)) o).1 = r ->
  legal (h ++ [(i, (o, r))]) qs = Some (put qs' (op_prio o) (spec (qs' (op_prio o)) o).2).
Proof.
  revert qs. induction h as [|[j [o' r']] h IH]; intros qs Hl Hr; simpl in *.
  - simplify_eq. by rewrite Z.eqb_refl.
  - case_bool; [by apply IH|done].
Qed.

Definition by_thread (i : nat) (h : list (nat * (op * Z))) : list (op * Z) := (filter (fun x => x.1 = i) h).*2.

Lemma prio_by_thread_snoc i j x h : by_thread i (h ++ [(j, x)]) = by_thread i h ++ (if decide (j = i) then [x] else []).
Proof.
  unfold by_thread. rewrite list.filter_app, fmap_app. f_equal. simpl.
  unfold filter. simpl. by case_decide.
Qed.

(** ** What a thread's place says *)

Definition pc_prio (c : pc) : option Z :=
  match c with
  | Idle | Crash | HighBit _ _ | Return _ | ReturnTask _ => None
  | InsCountNins _ p | InsTrylock _ p | InsCount _ p | InsTrylock2 _ p | InsUnlock _ p | InsEnter _ p _ _ | InsHead _ p _
  | InsSetHead _ p _ | InsTail _ p _ | InsLink _ p _ _ | InsSetTail _ p _ | InsAdd _ p _ | InsBitmap _ p _
  | InsCas _ p _ _ | InsLeave _ p _ => Some p
  | RemTrylock p | RemCount p | RemTrylock2 p | RemUnlock p | RemEnter p _ _ | RemHead p _ | RemTask p _ | RemNext _ p _
  | RemSetHead _ p _ _ | RemSetTail _ p _ | RemClear _ p _ | RemSub _ p _ | RemBitmap _ p _ | RemCas _ p _ _
  | RemLeave _ p _ => Some p
  end.

#[export] Instance act_eq_dec : EqDecision act.
Proof. unfold EqDecision. intros x y. unfold Decision. repeat decide equality. Defined.

(** It has the lock of the tail, of the head. *)
Definition has_tail (c : pc) : bool :=
  match c with
  | InsCount _ _ | InsTrylock2 _ _ | InsUnlock _ _ | InsEnter _ _ _ _ | InsHead _ _ _ | InsSetHead _ _ _ | InsTail _ _ _
  | InsLink _ _ _ _ | InsSetTail _ _ _ | InsAdd _ _ _ | InsBitmap _ _ _ | InsCas _ _ _ _ => true
  | RemEnter _ two _ | RemHead _ two | RemTask _ two | RemNext _ _ two | RemSetHead _ _ two _ | RemSetTail _ _ two
  | RemClear _ _ two | RemSub _ _ two | RemBitmap _ _ two | RemCas _ _ two _ => two
  | InsLeave _ _ l | RemLeave _ _ l => bool_decide (UnlockTail ∈ l)
  | _ => false
  end.

Definition has_head (c : pc) : bool :=
  match c with
  | RemCount _ | RemTrylock2 _ | RemUnlock _ | RemEnter _ _ _ | RemHead _ _ | RemTask _ _
  | RemNext _ _ _ | RemSetHead _ _ _ _ | RemSetTail _ _ _ | RemClear _ _ _ | RemSub _ _ _ | RemBitmap _ _ _ | RemCas _ _ _ _ => true
  | InsEnter _ _ two _ | InsHead _ _ two | InsSetHead _ _ two | InsTail _ _ two | InsLink _ _ two _ | InsSetTail _ _ two
  | InsAdd _ _ two | InsBitmap _ _ two | InsCas _ _ two _ => two
  | InsLeave _ _ l | RemLeave _ _ l => bool_decide (UnlockHead ∈ l)
  | _ => false
  end.

(** It has counted the counter up and not down. *)
Definition raised (n : counter) (c : pc) : bool :=
  match c with
  | InsEnter _ _ two l => bool_decide (Up n ∈ insert_enter two) && negb (bool_decide (Up n ∈ l))
  | InsHead _ _ two | InsSetHead _ _ two | InsTail _ _ two | InsLink _ _ two _ | InsSetTail _ _ two
  | InsAdd _ _ two | InsBitmap _ _ two | InsCas _ _ two _ => bool_decide (Up n ∈ insert_enter two)
  | RemEnter _ two l => bool_decide (Up n ∈ remove_enter two) && negb (bool_decide (Up n ∈ l))
  | RemHead _ two | RemTask _ two | RemNext _ _ two | RemSetHead _ _ two _ | RemSetTail _ _ two
  | RemClear _ _ two | RemSub _ _ two | RemBitmap _ _ two | RemCas _ _ two _ => bool_decide (Up n ∈ remove_enter two)
  | InsLeave _ _ l | RemLeave _ _ l => bool_decide (Down n ∈ l)
  | _ => false
  end.

(** Its task is in the list and not counted; its task is out of the list and counted. *)
Definition uncounted (c : pc) : bool := match c with InsSetTail _ _ _ | InsAdd _ _ _ => true | _ => false end.
Definition overcounted (c : pc) : bool := match c with RemSetTail _ _ _ | RemClear _ _ _ | RemSub _ _ _ => true | _ => false end.

(** With one lock, it has looked at [count] and not yet changed the list. *)
Definition inserting (c : pc) : bool :=
  match c with
  | InsEnter _ _ two _ | InsHead _ _ two | InsSetHead _ _ two | InsTail _ _ two | InsLink _ _ two _ => negb two
  | _ => false
  end.
Definition removing (c : pc) : bool :=
  match c with
  | RemEnter _ two _ | RemHead _ two | RemTask _ two | RemNext _ _ two | RemSetHead _ _ two _ => negb two
  | _ => false
  end.

Definition at_set_tail (c : pc) : bool := match c with InsSetTail _ _ _ => true | _ => false end.
Definition at_null_tail (c : pc) : bool := match c with RemSetTail _ _ _ => true | _ => false end.

(** The task that the thread has in hand *)
Definition holding (c : pc) : option Z :=
  match c with
  | InsCountNins t _ | InsTrylock t _ | InsCount t _ | InsTrylock2 t _ | InsUnlock t _ | InsEnter t _ _ _ | InsHead t _ _
  | InsSetHead t _ _ | InsTail t _ _ | InsLink t _ _ _ => Some t
  | RemSetTail t _ _ | RemClear t _ _ | RemSub t _ _ | RemBitmap t _ _ | RemCas t _ _ _ => Some t
  | RemLeave t _ _ | ReturnTask t => if t =? NULL then None else Some t
  | _ => None
  end.

(** The operation has taken effect. *)
Definition pending (c : pc) : list (op * Z) :=
  match c with
  | InsSetTail t p _ | InsAdd t p _ | InsBitmap t p _ | InsCas t p _ _ | InsLeave t p _ => [(Insert t p, 0)]
  | RemSetTail t p _ | RemClear t p _ | RemSub t p _ | RemBitmap t p _ | RemCas t p _ _ | RemLeave t p _ => [(Remove p, t)]
  | _ => []
  end.

(** What the thread has seen of the queue [q] *)
Definition seen (q : list Z) (c : pc) : Prop :=
  match c with
  | InsEnter _ _ two l => l <> [] /\ l `suffix_of` insert_enter two
  | InsSetHead _ _ _ => q = []
  | InsTail _ _ _ => q <> []
  | InsLink _ _ _ tl => list.last q = Some tl
  | InsSetTail t _ _ => q <> [] -> list.last q = Some t
  | InsLeave _ _ l => l <> [] /\ exists two, l `suffix_of` insert_rel_lock two
  | RemEnter _ two l => l <> [] /\ l `suffix_of` remove_enter two
  | RemTask _ _ => q <> []
  | RemNext t _ _ => head q = Some t
  | RemSetHead t _ _ n => head q = Some t /\ n = default NULL (head (tail q))
  | RemSetTail _ _ _ => q = []
  | RemLeave _ _ l => l <> [] /\ exists two, l `suffix_of` remove_rel_lock two
  | _ => True
  end.

(** Its task has no successor yet, or has been cleared. *)
Definition clear (c : pc) : bool := match c with RemSetTail _ _ _ | RemClear _ _ _ => false | _ => true end.

(** ** The invariant *)

Fixpoint chain (nx : Z -> Z) (q : list Z) (h : Z) : Prop :=
  match q with
  | [] => h = NULL
  | t :: q => h = t /\ chain nx q (nx t)
  end.

(** What the thread with a lock is doing *)
Definition holder (o : option nat) (s : prio) : pc := match o with Some i => pcs s i | None => Idle end.
Definition head_pc (s : prio) (p : Z) : pc := holder (headlock (lists s p)) s.
Definition tail_pc (s : prio) (p : Z) : pc := holder (taillock (lists s p)) s.

Definition b2z (b : bool) : Z := if b then 1 else 0.

Record list_ok (s : prio) (p : Z) (q : list Z) : Prop := {
  lo_headlock i : headlock (lists s p) = Some i <-> pc_prio (pcs s i) = Some p /\ has_head (pcs s i) = true;
  lo_taillock i : taillock (lists s p) = Some i <-> pc_prio (pcs s i) = Some p /\ has_tail (pcs s i) = true;
  lo_nenq : nenq (lists s p) = b2z (raised Nenq (tail_pc s p));
  lo_ndeq : ndeq (lists s p) = b2z (raised Ndeq (head_pc s p));
  lo_neqx : neqx (lists s p) = b2z (raised Neqx (head_pc s p));
  lo_count : count (lists s p) = Z.of_nat (length q) + b2z (overcounted (head_pc s p)) - b2z (uncounted (tail_pc s p));
  lo_chain : chain (next_queue s) q (qhead (lists s p));
  lo_tail : q <> [] -> at_set_tail (tail_pc s p) = false -> list.last q = Some (qtail (lists s p));
  lo_one : inserting (tail_pc s p) = true ->
    (removing (head_pc s p) = true -> length q <> 1%nat) /\ at_null_tail (head_pc s p) = false;
  lo_seen i : pc_prio (pcs s i) = Some p -> seen q (pcs s i) }.

Record prio_inv (s : prio) (qs : Z -> list Z) : Prop := {
  pi_legal : legal (hist s) (fun _ => []) = Some qs;
  pi_hist i : by_thread i (hist s) = rets s i ++ pending (pcs s i);
  pi_list p : list_ok s p (qs p);
  pi_queued t p : t ∈ qs p <-> loc s t = Queued p;
  pi_nodup p : NoDup (qs p);
  pi_held i t : loc s t = Held i <-> holding (pcs s i) = Some t;
  pi_null : loc s NULL = Outside;
  pi_clear_out t : loc s t = Outside -> next_queue s t = NULL;
  pi_clear i t : loc s t = Held i -> clear (pcs s i) = true -> next_queue s t = NULL;
  pi_crash i : pcs s i <> Crash }.

(** ** One list, one step *)

Lemma suffix_cases {A} (x : A) l l' : l `suffix_of` x :: l' -> l = x :: l' \/ l `suffix_of` l'.
Proof. destruct l as [|y l]; [right; apply suffix_nil|]. intros H. by apply suffix_cons_inv in H. Qed.

(** The actions of the lock functions that are left, case by case *)
Ltac suffixes H :=
  repeat (apply suffix_cases in H; destruct H as [H|H]; [subst|]); [..|try (apply suffix_nil_inv in H; subst)].

Ltac leaves :=
  repeat match goal with
  | H : _ /\ _ |- _ => destruct H
  | H : exists two : bool, _ |- _ => destruct H as [[] H]
  | H : _ `suffix_of` insert_enter ?two |- _ => is_var two; destruct two
  | H : _ `suffix_of` remove_enter ?two |- _ => is_var two; destruct two
  end;
  repeat match goal with
  | H : _ `suffix_of` _ |- _ => cbn in H; suffixes H
  end.

Lemma raised_tail q c : seen q c -> raised Nenq c = true -> has_tail c = true.
Proof. destruct c; cbn -[bool_decide]; intros Hs Hr; try done; try (by destruct two); leaves; try done. Qed.

Lemma raised_head n q c : n <> Nenq -> seen q c -> raised n c = true -> has_head c = true.
Proof. intros Hn. destruct c; cbn -[bool_decide]; intros Hs Hr; try done; try (destruct two, n; done); leaves; destruct n; try done. Qed.

Lemma overcounted_head c : overcounted c = true -> has_head c = true.
Proof. by destruct c. Qed.

Lemma uncounted_tail c : uncounted c = true -> has_tail c = true.
Proof. by destruct c. Qed.

(** The lock after a step of thread [i] which had it ([b]) and has it ([b']) *)
Definition lock_after (b b' : bool) (i : nat) (o : option nat) : option nat := if b' then Some i else if b then None else o.

Section Step.

Context (s s' : prio) (i : nat) (p : Z) (c' : pc).
Local Abbreviation c := (pcs s i).
Local Abbreviation L := (lists s p).
Local Abbreviation L' := (lists s' p).

(** The thread works on the list [p], or on none. *)
Definition here (c : pc) : Prop := pc_prio c = Some p \/ pc_prio c = None.

Lemma here_head c0 : here c0 -> has_head c0 = true -> pc_prio c0 = Some p.
Proof. intros [|Hn] Hh; [done|]. by destruct c0. Qed.

Lemma here_tail c0 : here c0 -> has_tail c0 = true -> pc_prio c0 = Some p.
Proof. intros [|Hn] Hh; [done|]. by destruct c0. Qed.

Context (Hpcs : pcs s' = put (pcs s) i c') (Hc : here c) (Hc' : here c').

Section Lock.

(** What is common to the two locks *)
Context (has : pc -> bool) (lock : task_list -> option nat) (Hhas : forall c0, here c0 -> has c0 = true -> pc_prio c0 = Some p).
Context (Hok : forall j, lock L = Some j <-> pc_prio (pcs s j) = Some p /\ has (pcs s j) = true).
Context (Hlock : lock L' = lock_after (has c) (has c') i (lock L)) (Hfree : has c' = true -> has c = true \/ lock L = None).

Lemma lock_mine : has c = true <-> lock L = Some i.
Proof using Hc Hhas Hok. split; [intros Hh; apply Hok; auto|intros Hl; by apply Hok in Hl as [_ Hl]]. Qed.

Lemma lock_step j : lock L' = Some j <-> pc_prio (pcs s' j) = Some p /\ has (pcs s' j) = true.
Proof using All.
  rewrite Hlock, Hpcs. unfold lock_after, put. pose proof lock_mine as Hm. destruct (decide (j = i)) as [->|Hne].
  - destruct (has c') eqn:Hh'; [split; auto|]. destruct (has c) eqn:Hh; (split; [|by intros [_ ?]]); [done|].
    intros Hl. by apply Hm in Hl.
  - rewrite <- Hok. destruct (has c') eqn:Hh'.
    + split; [congruence|]. intros Hl. destruct (Hfree eq_refl) as [Hh|Hf]; [|congruence]. apply Hm in Hh. congruence.
    + destruct (has c) eqn:Hh; [|done]. split; [done|]. intros Hl. apply proj1 in Hm. rewrite Hm in Hl by done. congruence.
Qed.

Lemma holder_step :
  holder (lock L') s' = if has c' then c' else if has c then Idle else holder (lock L) s.
Proof using All.
  rewrite Hlock. pose proof lock_mine as Hm. unfold lock_after, holder. rewrite Hpcs. destruct (has c') eqn:Hh'; [by rewrite put_eq|].
  destruct (has c) eqn:Hh; [done|]. destruct (lock L) as [j|] eqn:Hl; [|done]. rewrite put_ne; [done|]. intros ->. by apply proj2 in Hm; specialize (Hm eq_refl).
Qed.

Lemma holder_mine : has c = true -> holder (lock L) s = c.
Proof using Hc Hhas Hok. intros Hh. apply lock_mine in Hh. by rewrite Hh. Qed.

Lemma holder_free : has c = false -> has c' = true -> holder (lock L) s = Idle.
Proof using Hfree. intros Hh Hh'. destruct (Hfree Hh') as [|Hl]; [congruence|by rewrite Hl]. Qed.

(** A property of the holder, counted: it goes up and down with the thread. *)
Lemma counted_step (f : pc -> bool) :
  f Idle = false -> (f c = true -> has c = true) -> (f c' = true -> has c' = true) ->
  b2z (f (holder (lock L') s')) = b2z (f (holder (lock L) s)) + b2z (f c') - b2z (f c).
Proof using All.
  intros Hi Hf Hf'. rewrite holder_step. pose proof holder_mine as Hm. pose proof holder_free as Hfr.
  destruct (has c') eqn:Hh', (has c) eqn:Hh.
  - rewrite Hm by done. destruct (f c), (f c'); simpl; lia.
  - rewrite Hfr by done. rewrite Hi. destruct (f c); [by specialize (Hf eq_refl)|]. simpl. lia.
  - rewrite Hm by done. rewrite Hi. destruct (f c'); [by specialize (Hf' eq_refl)|]. simpl. lia.
  - destruct (f c), (f c'); try (by specialize (Hf eq_refl)); try (by specialize (Hf' eq_refl)). simpl. lia.
Qed.

End Lock.

Context (q q' : list Z) (Hok : list_ok s p q).
Context (Hhead : headlock L' = lock_after (has_head c) (has_head c') i (headlock L)).
Context (Hheadfree : has_head c' = true -> has_head c = true \/ headlock L = None).
Context (Htail : taillock L' = lock_after (has_tail c) (has_tail c') i (taillock L)).
Context (Htailfree : has_tail c' = true -> has_tail c = true \/ taillock L = None).

Lemma head_pc_step : head_pc s' p = if has_head c' then c' else if has_head c then Idle else head_pc s p.
Proof using Hpcs Hc Hc' Hok Hhead Hheadfree. apply (holder_step has_head headlock); [apply here_head|apply Hok|done..]. Qed.

Lemma tail_pc_step : tail_pc s' p = if has_tail c' then c' else if has_tail c then Idle else tail_pc s p.
Proof using Hpcs Hc Hc' Hok Htail Htailfree. apply (holder_step has_tail taillock); [apply here_tail|apply Hok|done..]. Qed.

Lemma my_head : has_head c = true -> head_pc s p = c.
Proof using Hc Hok. apply (holder_mine has_head headlock); [apply here_head|apply Hok]. Qed.

Lemma my_tail : has_tail c = true -> tail_pc s p = c.
Proof using Hc Hok. apply (holder_mine has_tail taillock); [apply here_tail|apply Hok]. Qed.

Lemma list_ok_step :
  nenq L' = nenq L + b2z (raised Nenq c') - b2z (raised Nenq c) ->
  ndeq L' = ndeq L + b2z (raised Ndeq c') - b2z (raised Ndeq c) ->
  neqx L' = neqx L + b2z (raised Neqx c') - b2z (raised Neqx c) ->
  count L' - Z.of_nat (length q') - b2z (overcounted c') + b2z (uncounted c') =
    count L - Z.of_nat (length q) - b2z (overcounted c) + b2z (uncounted c) ->
  chain (next_queue s') q' (qhead L') ->
  (q' <> [] -> at_set_tail (tail_pc s' p) = false -> list.last q' = Some (qtail L')) ->
  (inserting (tail_pc s' p) = true ->
    (removing (head_pc s' p) = true -> length q' <> 1%nat) /\ at_null_tail (head_pc s' p) = false) ->
  seen q' c' ->
  (pc_prio c <> Some p -> seen q' c) ->
  (forall j, j <> i -> pc_prio (pcs s j) = Some p -> seen q (pcs s j) -> seen q' (pcs s j)) ->
  list_ok s' p q'.
Proof using All.
  intros H1 H2 H3 H4 H5 H6 H7 H8 H9 H10.
  assert (Hsc : exists q0, seen q0 c).
  { destruct (decide (pc_prio c = Some p)) as [Hp|Hp]; eexists; [by apply (lo_seen _ _ _ Hok)|by apply H9]. }
  destruct Hsc as [q0 Hsc].
  pose proof (counted_step has_tail taillock here_tail (lo_taillock _ _ _ Hok) Htail Htailfree) as Ht.
  pose proof (counted_step has_head headlock here_head (lo_headlock _ _ _ Hok) Hhead Hheadfree) as Hh.
  constructor; try done.
  - apply (lock_step has_head headlock); [apply here_head|apply Hok|done..].
  - apply (lock_step has_tail taillock); [apply here_tail|apply Hok|done..].
  - rewrite H1, (lo_nenq _ _ _ Hok). symmetry. apply Ht; [done|by eapply raised_tail..].
  - rewrite H2, (lo_ndeq _ _ _ Hok). symmetry. apply Hh; [done|by eapply raised_head..].
  - rewrite H3, (lo_neqx _ _ _ Hok). symmetry. apply Hh; [done|by eapply raised_head..].
  - pose proof (lo_count _ _ _ Hok) as Hcnt. specialize (Hh overcounted eq_refl (overcounted_head _) (overcounted_head _)).
    specialize (Ht uncounted eq_refl (uncounted_tail _) (uncounted_tail _)). fold (head_pc s' p) (head_pc s p) in Hh.
    fold (tail_pc s' p) (tail_pc s p) in Ht. lia.
  - intros j Hj. rewrite Hpcs in Hj |- *. unfold put in *. destruct (decide (j = i)) as [->|Hne]; [done|].
    apply H10; [done|done|by apply Hok].
Qed.

End Step.

(** A step that leaves the list as it is *)
Lemma list_ok_quiet s s' i p c' q :
  pcs s' = put (pcs s) i c' -> here p (pcs s i) -> here p c' -> list_ok s p q ->
  headlock (lists s' p) = lock_after (has_head (pcs s i)) (has_head c') i (headlock (lists s p)) ->
  (has_head c' = true -> has_head (pcs s i) = true \/ headlock (lists s p) = None) ->
  taillock (lists s' p) = lock_after (has_tail (pcs s i)) (has_tail c') i (taillock (lists s p)) ->
  (has_tail c' = true -> has_tail (pcs s i) = true \/ taillock (lists s p) = None) ->
  nenq (lists s' p) = nenq (lists s p) + b2z (raised Nenq c') - b2z (raised Nenq (pcs s i)) ->
  ndeq (lists s' p) = ndeq (lists s p) + b2z (raised Ndeq c') - b2z (raised Ndeq (pcs s i)) ->
  neqx (lists s' p) = neqx (lists s p) + b2z (raised Neqx c') - b2z (raised Neqx (pcs s i)) ->
  count (lists s' p) - b2z (overcounted c') + b2z (uncounted c') =
    count (lists s p) - b2z (overcounted (pcs s i)) + b2z (uncounted (pcs s i)) ->
  qhead (lists s' p) = qhead (lists s p) -> qtail (lists s' p) = qtail (lists s p) -> next_queue s' = next_queue s ->
  (at_set_tail (pcs s i) = true -> at_set_tail c' = true) ->
  (inserting c' = true -> inserting (pcs s i) = true) -> (removing c' = true -> removing (pcs s i) = true) ->
  (at_null_tail c' = true -> at_null_tail (pcs s i) = true) ->
  (pc_prio (pcs s i) <> Some p -> seen q (pcs s i)) -> seen q c' -> list_ok s' p q.
Proof.
  intros Hpcs Hc Hc' Hok Hh Hhf Ht Htf H1 H2 H3 H4 H5 H6 H7 H8 H9 H10 H11 H12 H13.
  pose proof (head_pc_step s s' i p c' Hpcs Hc Hc' q Hok Hh Hhf) as Hhs.
  pose proof (tail_pc_step s s' i p c' Hpcs Hc Hc' q Hok Ht Htf) as Hts.
  pose proof (my_head s i p Hc q Hok) as Hmh. pose proof (my_tail s i p Hc q Hok) as Hmt.
  apply (list_ok_step s s' i p c' Hpcs Hc Hc' q q Hok Hh Hhf Ht Htf); try done; rewrite ?H7; try lia.
  - rewrite H5. apply Hok.
  - rewrite H6, Hts. intros Hq Hs. apply (lo_tail _ _ _ Hok Hq). destruct (has_tail (pcs s i)) eqn:Hb.
    + rewrite Hmt by done. destruct (at_set_tail (pcs s i)) eqn:Ha; [|done]. specialize (H8 eq_refl).
      destruct (has_tail c') eqn:Hb'; [congruence|]. by destruct c'.
    + destruct (has_tail c') eqn:Hb'; [|done]. unfold tail_pc. destruct (Htf eq_refl) as [Hx|Hx]; [congruence|by rewrite Hx].
  - rewrite Hts, Hhs. intros Hi.
    assert (Hi0 : inserting (tail_pc s p) = true).
    { destruct (has_tail c') eqn:Hb'; [|by destruct (has_tail (pcs s i))]. rewrite Hmt; [auto|].
      destruct (pcs s i); try done; specialize (H9 Hi); done. }
    destruct (lo_one _ _ _ Hok Hi0) as [Ha Hb]. split.
    + intros Hr. apply Ha. destruct (has_head c') eqn:Hb'; [|by destruct (has_head (pcs s i))]. rewrite Hmh; [auto|].
      destruct (pcs s i); try done; specialize (H10 Hr); done.
    + destruct (has_head c') eqn:Hb'; [|by destruct (has_head (pcs s i))]. destruct (at_null_tail c') eqn:Hn; [|done].
      rewrite Hmh in Hb; [rewrite H11 in Hb by done; done|]. specialize (H11 eq_refl). by destruct (pcs s i).
Qed.

(** *** The other lists *)

Lemma chain_ext nx nx' q h : (forall t, t ∈ q -> nx' t = nx t) -> chain nx q h -> chain nx' q h.
Proof.
  revert h. induction q as [|t q IH]; intros h Hn Hc; [done|]. destruct Hc as [-> Hc]. split; [done|].
  rewrite Hn by apply list_elem_of_here. apply IH; [|done]. intros u Hu. apply Hn. by apply list_elem_of_further.
Qed.

Lemma list_ok_frame s s' i p p' q c' :
  p' <> p -> pcs s' = put (pcs s) i c' -> here p (pcs s i) -> here p c' -> lists s' p' = lists s p' ->
  (forall t, t ∈ q -> next_queue s' t = next_queue s t) -> list_ok s p' q -> list_ok s' p' q.
Proof.
  intros Hne Hpcs Hc Hc' Hl Hn Hok.
  assert (Hno : forall c0, here p c0 -> pc_prio c0 <> Some p') by (intros c0 [->| ->]; congruence).
  assert (Hj : forall j, pc_prio (pcs s' j) = Some p' \/ pc_prio (pcs s j) = Some p' -> pcs s' j = pcs s j).
  { intros j Hj. rewrite Hpcs in Hj |- *. unfold put in *. destruct (decide (j = i)) as [->|]; [|done]. exfalso.
    destruct Hj as [Hj|Hj]; [by apply (Hno c')|by apply (Hno (pcs s i))]. }
  assert (head_pc s' p' = head_pc s p' /\ tail_pc s' p' = tail_pc s p') as [Hh Ht].
  { unfold head_pc, tail_pc, holder. rewrite Hl. split.
    - destruct (headlock (lists s p')) as [j|] eqn:He; [|done]. apply Hj. right. by apply (lo_headlock _ _ _ Hok) in He as [? _].
    - destruct (taillock (lists s p')) as [j|] eqn:He; [|done]. apply Hj. right. by apply (lo_taillock _ _ _ Hok) in He as [? _]. }
  assert (Hlock : forall (has : pc -> bool) j, (pc_prio (pcs s' j) = Some p' /\ has (pcs s' j) = true) <->
    (pc_prio (pcs s j) = Some p' /\ has (pcs s j) = true)).
  { intros has j. split; intros [Hp Hb]; [rewrite (Hj j) in Hp, Hb by auto|rewrite (Hj j) by auto]; done. }
  destruct Hok as [H1 H2 H3 H4 H5 H6 H7 H8 H9 H10]. constructor; rewrite ?Hl, ?Hh, ?Ht; try done.
  - intros j. by rewrite Hlock.
  - intros j. by rewrite Hlock.
  - by eapply chain_ext.
  - intros j Hp. rewrite (Hj j) by auto. apply H10. by rewrite <- (Hj j) by auto.
Qed.

(** ** The invariant, one step *)

Section Move.

Context (s s' : prio) (qs : Z -> list Z) (i : nat) (p : Z) (c' : pc) (HI : prio_inv s qs).
Local Abbreviation c := (pcs s i).
Context (Hpcs : pcs s' = put (pcs s) i c') (Hc : here p c) (Hc' : here p c') (Hcr : c' <> Crash).
Context (Hlists : forall p', p' <> p -> lists s' p' = lists s p').

Lemma frame_lists q' :
  (forall p' t, p' <> p -> t ∈ qs p' -> next_queue s' t = next_queue s t) -> list_ok s' p q' ->
  forall p', list_ok s' p' (put qs p q' p').
Proof using All.
  intros Hn Hok p'. destruct (decide (p' = p)) as [->|Hne]; [by rewrite put_eq|]. rewrite put_ne by done.
  eapply (list_ok_frame s s' i p p'); try done; [auto|intros; by eapply Hn|apply HI].
Qed.

Lemma no_crash j : pcs s' j <> Crash.
Proof using HI Hpcs Hcr. rewrite Hpcs. unfold put. case_decide; [done|apply (pi_crash _ _ HI)]. Qed.

(** A step without an effect *)
Lemma inv_quiet :
  hist s' = hist s -> loc s' = loc s -> next_queue s' = next_queue s -> (forall j, j <> i -> rets s' j = rets s j) ->
  rets s' i ++ pending c' = rets s i ++ pending c -> holding c' = holding c -> (clear c' = true -> clear c = true) ->
  list_ok s' p (qs p) -> prio_inv s' qs.
Proof using All.
  intros H1 H3 H4 H2 H5 H6 H7 H8. pose proof no_crash as Hcrash.
  assert (Hall : forall p', list_ok s' p' (qs p')).
  { intros p'. pose proof (frame_lists (qs p)) as Hf. rewrite H4 in Hf. specialize (Hf (fun _ _ _ _ => eq_refl) H8 p').
    unfold put in Hf. destruct (decide (p' = p)) as [->|]; done. }
  destruct HI as [G1 G2 G3 G4 G5 G6 G7 G8 G9 G10]. constructor; rewrite ?H1, ?H3, ?H4; try done.
  - intros j. rewrite Hpcs, G2. unfold put. case_decide; [by subst|by rewrite H2].
  - intros j t. rewrite Hpcs, G6. unfold put. case_decide; [subst; by rewrite H6|done].
  - intros j t Hj. rewrite Hpcs. unfold put. case_decide; [subst; intros Hcl; eapply G9; eauto|by apply G9].
Qed.

(** A task enters the list. *)
Lemma inv_insert t :
  hist s' = hist s ++ [(i, (Insert t p, 0))] -> rets s' = rets s -> loc s' = put (loc s) t (Queued p) ->
  (forall u, loc s u <> Queued p -> next_queue s' u = next_queue s u) ->
  pending c = [] -> pending c' = [(Insert t p, 0)] -> holding c = Some t -> holding c' = None ->
  list_ok s' p (qs p ++ [t]) -> prio_inv s' (put qs p (qs p ++ [t])).
Proof using All.
  intros H1 H2 H3 H4 H5 H6 H7 H8 H9. pose proof no_crash as Hcrash.
  assert (Ht : loc s t = Held i) by (by apply (pi_held _ _ HI)).
  assert (Hall : forall p', list_ok s' p' (put qs p (qs p ++ [t]) p')).
  { apply frame_lists; [|done]. intros p' u Hne Hu. apply H4. apply (pi_queued _ _ HI) in Hu. congruence. }
  destruct HI as [G1 G2 G3 G4 G5 G6 G7 G8 G9 G10].
  assert (Hn : t ∉ qs p) by (rewrite G4; congruence).
  constructor; rewrite ?H1, ?H2, ?H3; try done.
  - by apply (prio_legal_snoc _ _ _ i (Insert t p) 0).
  - intros j. rewrite prio_by_thread_snoc, G2, Hpcs. unfold put. repeat case_decide; subst; try done; [by rewrite H5, H6, app_nil_r|by rewrite app_nil_r].
  - intros u p'. unfold put at 2. destruct (decide (u = t)) as [->|Hne].
    + unfold put. case_decide as Hp; [subst; split; [done|intros _; apply elem_of_app; right; by apply list_elem_of_singleton]|].
      rewrite G4. split; congruence.
    + unfold put. case_decide as Hp; [subst|apply G4]. rewrite elem_of_app, list_elem_of_singleton, G4. split; [by intros [?|?]|by left].
  - intros p'. unfold put. case_decide; [subst|apply G5]. apply list.NoDup_app. split; [apply G5|]. split; [|apply NoDup_singleton].
    intros u Hu ->%list_elem_of_singleton. done.
  - intros j u. rewrite Hpcs. unfold put. destruct (decide (u = t)) as [->|Hu], (decide (j = i)) as [->|Hj]; [by rewrite H8| |rewrite H8, G6, H7; split; congruence|apply G6].
    split; [done|]. rewrite <- G6. congruence.
  - unfold put. case_decide; [subst; congruence|done].
  - intros u. unfold put. case_decide; [done|]. intros Hu. rewrite H4 by congruence. by apply G8.
  - intros j u. unfold put. case_decide; [done|]. intros Hu. rewrite Hpcs, H4 by congruence. unfold put. case_decide; [|by apply G9].
    subst. rewrite G6, H7 in Hu. congruence.
Qed.

(** The first task leaves it. *)
Lemma inv_remove t q :
  qs p = t :: q -> hist s' = hist s ++ [(i, (Remove p, t))] -> rets s' = rets s -> loc s' = put (loc s) t (Held i) ->
  next_queue s' = next_queue s -> pending c = [] -> pending c' = [(Remove p, t)] -> holding c = None -> holding c' = Some t ->
  clear c' = false -> list_ok s' p q -> prio_inv s' (put qs p q).
Proof using All.
  intros Hq H1 H2 H3 H4 H5 H6 H7 H8 H9 H10. pose proof no_crash as Hcrash.
  assert (Hall : forall p', list_ok s' p' (put qs p q p')) by (apply frame_lists; [intros; by rewrite H4|done]).
  destruct HI as [G1 G2 G3 G4 G5 G6 G7 G8 G9 G10].
  assert (Ht : loc s t = Queued p) by (apply G4; rewrite Hq; apply list_elem_of_here).
  pose proof (G5 p) as Hnd. rewrite Hq in Hnd. apply list.NoDup_cons in Hnd as [Hnt Hnd].
  constructor; rewrite ?H1, ?H2, ?H3, ?H4; try done.
  - pose proof (prio_legal_snoc _ _ _ i (Remove p) t G1) as Hl. simpl in Hl. rewrite Hq in Hl. by apply Hl.
  - intros j. rewrite prio_by_thread_snoc, G2, Hpcs. unfold put. repeat case_decide; subst; try done; [by rewrite H5, H6, app_nil_r|by rewrite app_nil_r].
  - intros u p'. unfold put at 2. destruct (decide (u = t)) as [->|Hne].
    + unfold put. case_decide as Hp; [by subst|]. rewrite G4. split; congruence.
    + unfold put. case_decide as Hp; [subst|apply G4]. rewrite <- G4, Hq, elem_of_cons. split; [by right|by intros [?|?]].
  - intros p'. unfold put. case_decide; [by subst|apply G5].
  - intros j u. rewrite Hpcs. unfold put. destruct (decide (u = t)) as [->|Hu], (decide (j = i)) as [->|Hj]; [by rewrite H8| |rewrite H8, G6, H7; split; congruence|apply G6].
    rewrite <- G6. split; congruence.
  - unfold put. case_decide; [subst; congruence|done].
  - intros u. unfold put. case_decide; [done|]. apply G8.
  - intros j u. rewrite Hpcs. unfold put. destruct (decide (u = t)) as [->|Hu], (decide (j = i)) as [->|Hj]; [by rewrite H9|congruence|by rewrite G6, H7|apply G9].
Qed.

(** There is none. *)
Lemma inv_none :
  qs p = [] -> hist s' = hist s ++ [(i, (Remove p, NULL))] -> rets s' = rets s -> loc s' = loc s ->
  next_queue s' = next_queue s -> pending c = [] -> pending c' = [(Remove p, NULL)] -> holding c' = holding c -> clear c = true ->
  list_ok s' p [] -> prio_inv s' (put qs p []).
Proof using All.
  intros Hq H1 H2 H3 H4 H5 H6 H7 H8 H9. pose proof no_crash as Hcrash.
  assert (Hall : forall p', list_ok s' p' (put qs p [] p')) by (apply frame_lists; [intros; by rewrite H4|done]).
  destruct HI as [G1 G2 G3 G4 G5 G6 G7 G8 G9 G10].
  assert (Hqs : forall p', put qs p [] p' = qs p') by (intros p'; unfold put; case_decide; by subst).
  constructor; rewrite ?H1, ?H2, ?H3, ?H4; try done.
  - pose proof (prio_legal_snoc _ _ _ i (Remove p) NULL G1) as Hl. simpl in Hl. rewrite Hq in Hl. by apply Hl.
  - intros j. rewrite prio_by_thread_snoc, G2, Hpcs. unfold put. repeat case_decide; subst; try done; [by rewrite H5, H6, app_nil_r|by rewrite app_nil_r].
  - intros u p'. by rewrite Hqs.
  - intros p'. by rewrite Hqs.
  - intros j u. rewrite Hpcs, G6. unfold put. case_decide; [subst; by rewrite H7|done].
  - intros j u Hj. rewrite Hpcs. unfold put. case_decide; [subst; intros _; eapply G9; eauto|by apply G9].
Qed.

(** Its link is cleared. *)
Lemma inv_unlink t :
  hist s' = hist s -> rets s' = rets s -> loc s' = loc s -> next_queue s' = put (next_queue s) t NULL ->
  pending c' = pending c -> holding c = Some t -> holding c' = holding c -> list_ok s' p (qs p) -> prio_inv s' qs.
Proof using All.
  intros H1 H2 H3 H4 H5 H6 H7 H8. pose proof no_crash as Hcrash.
  assert (Ht : loc s t = Held i) by (by apply (pi_held _ _ HI)).
  assert (Hall : forall p', list_ok s' p' (qs p')).
  { intros p'. pose proof (frame_lists (qs p)) as Hf. specialize (fun H => Hf H H8 p').
    unfold put at 1 in Hf. assert (forall q, p' = p -> put qs p q p' = q) by (intros; subst; apply put_eq).
    destruct (decide (p' = p)) as [->|Hne]; [done|]. apply Hf. intros p2 u Hne2 Hu. rewrite H4. apply put_ne. intros ->.
    apply (pi_queued _ _ HI) in Hu. congruence. }
  destruct HI as [G1 G2 G3 G4 G5 G6 G7 G8 G9 G10]. constructor; rewrite ?H1, ?H2, ?H3, ?H4; try done.
  - intros j. rewrite Hpcs, G2. unfold put. case_decide; [subst; by rewrite H5|done].
  - intros j u. rewrite Hpcs, G6. unfold put. case_decide; [subst; by rewrite H7|done].
  - intros u Hu. unfold put. case_decide; [done|by apply G8].
  - intros j u Hu. rewrite Hpcs. unfold put. repeat case_decide; subst; try done; [|by apply G9]. rewrite G6, H6 in Hu. congruence.
Qed.

(** A task comes from outside, or goes there. *)
Lemma inv_take t :
  hist s' = hist s -> rets s' = rets s -> loc s' = put (loc s) t (Held i) -> next_queue s' = next_queue s ->
  pending c' = pending c -> loc s t = Outside -> t <> NULL -> holding c = None -> holding c' = Some t ->
  list_ok s' p (qs p) -> prio_inv s' qs.
Proof using All.
  intros H1 H2 H3 H4 H5 H6 Hnull H7 H8 H9. pose proof no_crash as Hcrash.
  assert (Hall : forall p', list_ok s' p' (qs p')).
  { intros p'. pose proof (frame_lists (qs p)) as Hf. rewrite H4 in Hf. specialize (Hf (fun _ _ _ _ => eq_refl) H9 p').
    unfold put in Hf. destruct (decide (p' = p)) as [->|]; done. }
  destruct HI as [G1 G2 G3 G4 G5 G6 G7 G8 G9 G10]. constructor; rewrite ?H1, ?H2, ?H3, ?H4; try done.
  - intros j. rewrite Hpcs, G2. unfold put. case_decide; [subst; by rewrite H5|done].
  - intros u p'. rewrite G4. unfold put. case_decide; [subst; split; congruence|done].
  - intros j u. rewrite Hpcs. unfold put. destruct (decide (u = t)) as [->|Hu], (decide (j = i)) as [->|Hj]; [by rewrite H8| |rewrite H8, G6, H7; split; congruence|apply G6].
    rewrite <- G6. split; congruence.
  - unfold put. case_decide; [congruence|done].
  - intros u. unfold put. case_decide; [done|]. apply G8.
  - intros j u. rewrite Hpcs. unfold put. destruct (decide (u = t)) as [->|Hu]; [intros; by apply G8|].
    destruct (decide (j = i)) as [->|Hj]; [|apply G9]. rewrite G6, H7. done.
Qed.

Lemma inv_leave t :
  hist s' = hist s -> rets s' = rets s -> loc s' = put (loc s) t Outside -> next_queue s' = next_queue s ->
  pending c' = pending c -> clear c = true -> holding c = (if t =? NULL then None else Some t) -> holding c' = None ->
  list_ok s' p (qs p) -> prio_inv s' qs.
Proof using All.
  intros H1 H2 H3 H4 H5 H6 H7 H8 H9. pose proof no_crash as Hcrash.
  assert (Hall : forall p', list_ok s' p' (qs p')).
  { intros p'. pose proof (frame_lists (qs p)) as Hf. rewrite H4 in Hf. specialize (Hf (fun _ _ _ _ => eq_refl) H9 p').
    unfold put in Hf. destruct (decide (p' = p)) as [->|]; done. }
  destruct HI as [G1 G2 G3 G4 G5 G6 G7 G8 G9 G10].
  assert (Ht : loc s t = Outside \/ loc s t = Held i).
  { destruct (Z.eqb_spec t NULL) as [->|]; [by left|right; by apply G6]. }
  constructor; rewrite ?H1, ?H2, ?H3, ?H4; try done.
  - intros j. rewrite Hpcs, G2. unfold put. case_decide; [subst; by rewrite H5|done].
  - intros u p'. rewrite G4. unfold put. case_decide; [subst; split; [|done]; destruct Ht; congruence|done].
  - intros j u. rewrite Hpcs. unfold put. destruct (decide (u = t)) as [->|Hu], (decide (j = i)) as [->|Hj]; [by rewrite H8| | |apply G6].
    + rewrite <- G6. split; [done|]. intros Hh. destruct Ht; congruence.
    + rewrite H8, G6, H7. destruct (t =? NULL); split; congruence.
  - unfold put. by case_decide.
  - intros u. unfold put. case_decide; [|apply G8]. subst. intros _. destruct Ht as [Ht|Ht]; [by apply G8|by apply (G9 i)].
  - intros j u. rewrite Hpcs. unfold put. destruct (decide (u = t)) as [->|Hu]; [done|].
    destruct (decide (j = i)) as [->|Hj]; [|apply G9]. rewrite G6, H7. destruct (t =? NULL); congruence.
Qed.

End Move.
