(* ===== verification/PrioSteps.v ===== *)
(** * The task queues of the server, all steps

    The invariant of Prio.v is kept by every step of every thread. *)
From S2P Require Import Prelude Words Prio.

(** The states that any number of threads reach by calls *)
Definition prio_reachable (num_priorities : Z) (s : prio) : Prop :=
  exists s0, GetPrioTaskArray num_priorities = Some s0 /\ prio_steps num_priorities s0 s.

(** ** All steps *)

Lemma lists_upd p f s p' : lists (upd_list p f s) p' = if decide (p' = p) then f (lists s p) else lists s p'.
Proof. done. Qed.

Lemma go_pcs i c s : pcs (go i c s) = put (pcs s) i c.
Proof. done. Qed.

Lemma seen_none q c : pc_prio c = None -> seen q c.
Proof. by destruct c. Qed.

(** The lock after a step, where a lock that is kept is not written *)
Definition lock_next (b b' : bool) (i : nat) (o : option nat) : option nat :=
  match b, b' with false, true => Some i | true, false => None | _, _ => o end.

Lemma lock_next_after (b b' : bool) i o : (b = true -> o = Some i) -> lock_next b b' i o = lock_after b b' i o.
Proof. destruct b, b'; simpl; auto. Qed.

Lemma head_mine s qs i p : prio_inv s qs -> here p (pcs s i) -> has_head (pcs s i) = true -> headlock (lists s p) = Some i.
Proof. intros HI Hc Hh. apply (lo_headlock _ _ _ (pi_list _ _ HI p)). auto using here_head. Qed.

Lemma tail_mine s qs i p : prio_inv s qs -> here p (pcs s i) -> has_tail (pcs s i) = true -> taillock (lists s p) = Some i.
Proof. intros HI Hc Hh. apply (lo_taillock _ _ _ (pi_list _ _ HI p)). auto using here_tail. Qed.

Lemma head_null s qs p : prio_inv s qs -> qhead (lists s p) = NULL <-> qs p = [].
Proof.
  intros HI. pose proof (lo_chain _ _ _ (pi_list _ _ HI p)) as Hc. pose proof (pi_queued _ _ HI) as Hq.
  destruct (qs p) as [|t q] eqn:E; [done|]. destruct Hc as [-> _]. split; [|done]. intros ->.
  assert (Ht : NULL ∈ qs p) by (rewrite E; apply list_elem_of_here). apply Hq in Ht. by rewrite (pi_null _ _ HI) in Ht.
Qed.

Lemma queued_not_null s qs p t : prio_inv s qs -> t ∈ qs p -> t <> NULL.
Proof. intros HI Ht ->. apply (pi_queued _ _ HI) in Ht. by rewrite (pi_null _ _ HI) in Ht. Qed.

Lemma held_not_null s qs i t : prio_inv s qs -> holding (pcs s i) = Some t -> t <> NULL.
Proof. intros HI Ht ->. apply (pi_held _ _ HI) in Ht. by rewrite (pi_null _ _ HI) in Ht. Qed.

Lemma head_value s qs p t :
  prio_inv s qs -> head (qs p) = Some t -> t = qhead (lists s p) /\ next_queue s t = default NULL (head (tail (qs p))).
Proof.
  intros HI Ht. pose proof (lo_chain _ _ _ (pi_list _ _ HI p)) as Hc. destruct (qs p) as [|t' q]; [done|]. simplify_eq/=.
  destruct Hc as [-> Hc]. split; [done|]. destruct q as [|t' q]; [done|]. by destruct Hc.
Qed.

Lemma next_not_null s qs i t p two : prio_inv s qs -> pcs s i = RemNext t p two -> t <> NULL.
Proof.
  intros HI Hp. pose proof (lo_seen _ _ _ (pi_list _ _ HI p) i) as Hs. rewrite Hp in Hs. specialize (Hs eq_refl). simpl in Hs.
  apply (queued_not_null s qs p); [done|]. by apply list.head_Some_elem_of.
Qed.

Lemma tail_value s qs i p t :
  prio_inv s qs -> pc_prio (pcs s i) = Some p -> has_tail (pcs s i) = true -> at_set_tail (pcs s i) = false ->
  qs p <> [] -> list.last (qs p) = Some t <-> t = qtail (lists s p).
Proof.
  intros HI Hc Ht Ha Hq. rewrite (lo_tail _ _ _ (pi_list _ _ HI p)); [split; congruence|done|].
  unfold tail_pc. rewrite (tail_mine s qs i p HI) by (by left || done). done.
Qed.

(** The counters that the assertions look at *)
Lemma counter_mine s qs i p n :
  prio_inv s qs -> here p (pcs s i) -> (n = Nenq -> has_tail (pcs s i) = true) -> (n <> Nenq -> has_head (pcs s i) = true) ->
  get_counter n (lists s p) = b2z (raised n (pcs s i)).
Proof.
  intros HI Hc Ht Hh. destruct (pi_list _ _ HI p) as [_ _ H1 H2 H3 _ _ _ _ _]. destruct n; simpl.
  - rewrite H1. unfold tail_pc. by rewrite (tail_mine s qs i p HI) by auto.
  - rewrite H2. unfold head_pc. by rewrite (head_mine s qs i p HI) by auto.
  - rewrite H3. unfold head_pc. by rewrite (head_mine s qs i p HI) by auto.
Qed.

(** What the thread with a lock is doing after a step *)
Definition pc_next (b b' : bool) (c' c0 : pc) : pc := if b' then c' else if b then Idle else c0.

(** A step at a list, with the places before and after *)
Lemma list_step s s' qs i p c c' q' :
  prio_inv s qs -> pcs s i = c -> pcs s' = put (pcs s) i c' -> here p c -> here p c' ->
  headlock (lists s' p) = lock_next (has_head c) (has_head c') i (headlock (lists s p)) ->
  (has_head c' = true -> has_head c = true \/ headlock (lists s p) = None) ->
  taillock (lists s' p) = lock_next (has_tail c) (has_tail c') i (taillock (lists s p)) ->
  (has_tail c' = true -> has_tail c = true \/ taillock (lists s p) = None) ->
  nenq (lists s' p) = nenq (lists s p) + b2z (raised Nenq c') - b2z (raised Nenq c) ->
  ndeq (lists s' p) = ndeq (lists s p) + b2z (raised Ndeq c') - b2z (raised Ndeq c) ->
  neqx (lists s' p) = neqx (lists s p) + b2z (raised Neqx c') - b2z (raised Neqx c) ->
  count (lists s' p) - Z.of_nat (length q') - b2z (overcounted c') + b2z (uncounted c') =
    count (lists s p) - Z.of_nat (length (qs p)) - b2z (overcounted c) + b2z (uncounted c) ->
  chain (next_queue s') q' (qhead (lists s' p)) ->
  (q' <> [] -> at_set_tail (pc_next (has_tail c) (has_tail c') c' (tail_pc s p)) = false ->
    list.last q' = Some (qtail (lists s' p))) ->
  (inserting (pc_next (has_tail c) (has_tail c') c' (tail_pc s p)) = true ->
    (removing (pc_next (has_head c) (has_head c') c' (head_pc s p)) = true -> length q' <> 1%nat) /\
    at_null_tail (pc_next (has_head c) (has_head c') c' (head_pc s p)) = false) ->
  (seen (qs p) c -> seen q' c') ->
  (pc_prio c <> Some p -> seen q' c) ->
  (forall j, j <> i -> pc_prio (pcs s j) = Some p -> seen (qs p) (pcs s j) -> seen q' (pcs s j)) ->
  list_ok s' p q'.
Proof.
  intros HI <- Hpcs Hc Hc' H1 H2 H3 H4 H5 H6 H7 H8 H9 H10 H11 H12 H13 H14.
  assert (Hseen : seen (qs p) (pcs s i)) by (destruct Hc as [Hc|Hc]; [by apply (lo_seen _ _ _ (pi_list _ _ HI p))|by apply seen_none]).
  rewrite lock_next_after in H1 by (by apply (head_mine s qs)). rewrite lock_next_after in H3 by (by apply (tail_mine s qs)).
  pose proof (pi_list _ _ HI p) as Hok. apply (list_ok_step s s' i p c' Hpcs Hc Hc' (qs p) q' Hok); try done; [..|auto].
  - by rewrite (tail_pc_step s s' i p c' Hpcs Hc Hc' (qs p) Hok).
  - by rewrite (tail_pc_step s s' i p c' Hpcs Hc Hc' (qs p) Hok), (head_pc_step s s' i p c' Hpcs Hc Hc' (qs p) Hok).
Qed.

(** A step that leaves the queues as they are: what it must satisfy, with the places
    before and after *)
Lemma quiet_step s s' qs i p c c' :
  prio_inv s qs -> pcs s i = c -> pcs s' = put (pcs s) i c' -> here p c -> here p c' -> c' <> Crash ->
  (forall p', p' <> p -> lists s' p' = lists s p') ->
  hist s' = hist s -> loc s' = loc s -> next_queue s' = next_queue s -> (forall j, j <> i -> rets s' j = rets s j) ->
  rets s' i ++ pending c' = rets s i ++ pending c -> holding c' = holding c -> (clear c' = true -> clear c = true) ->
  headlock (lists s' p) = lock_next (has_head c) (has_head c') i (headlock (lists s p)) ->
  (has_head c' = true -> has_head c = true \/ headlock (lists s p) = None) ->
  taillock (lists s' p) = lock_next (has_tail c) (has_tail c') i (taillock (lists s p)) ->
  (has_tail c' = true -> has_tail c = true \/ taillock (lists s p) = None) ->
  nenq (lists s' p) = nenq (lists s p) + b2z (raised Nenq c') - b2z (raised Nenq c) ->
  ndeq (lists s' p) = ndeq (lists s p) + b2z (raised Ndeq c') - b2z (raised Ndeq c) ->
  neqx (lists s' p) = neqx (lists s p) + b2z (raised Neqx c') - b2z (raised Neqx c) ->
  count (lists s' p) - b2z (overcounted c') + b2z (uncounted c') = count (lists s p) - b2z (overcounted c) + b2z (uncounted c) ->
  qhead (lists s' p) = qhead (lists s p) -> qtail (lists s' p) = qtail (lists s p) ->
  (at_set_tail c = true -> at_set_tail c' = true) ->
  (inserting c' = true -> inserting c = true) -> (removing c' = true -> removing c = true) ->
  (at_null_tail c' = true -> at_null_tail c = true) ->
  (seen (qs p) c -> seen (qs p) c') -> prio_inv s' qs.
Proof.
  intros HI <- Hpcs Hc Hc' Hcr Hl H1 H2 H3 H4 H5 H6 H7 H8 H9 H10 H11 H12 H13 H14 H15 H16 H17 H18 H19 H20 H21 H22.
  apply (inv_quiet s s' qs i p c' HI Hpcs Hc Hc' Hcr Hl); try done.
  assert (Hseen : seen (qs p) (pcs s i)) by (destruct Hc as [Hc|Hc]; [by apply (lo_seen _ _ _ (pi_list _ _ HI p))|by apply seen_none]).
  eapply (list_ok_quiet s s' i p c'); try done; [apply HI|..|auto].
  - rewrite H8. apply lock_next_after. by apply (head_mine s qs).
  - rewrite H10. apply lock_next_after. by apply (tail_mine s qs).
Qed.

Section Steps.

Context (num_priorities : Z).

Ltac decided :=
  repeat match goal with
  | |- context [bool_decide ?P] => let b := eval vm_compute in (bool_decide P) in change (bool_decide P) with b
  end.

Ltac suffix := cbn; repeat first [reflexivity|apply suffix_cons_r].

Ltac side :=
  intros; cbn -[put bool_decide] in *; rewrite ?put_eq, ?put_ne by done; decided; cbn -[put bool_decide]; try done; try lia;
  try (by rewrite app_nil_r); try (by left); try (by right); try (split; [done|]; solve [suffix|exists true; suffix|exists false; suffix]).

Ltac quiet HI Hp p :=
  lazymatch type of HI with
  | prio_inv ?s ?qs => exists qs; eapply (quiet_step s _ qs _ p _ _ HI Hp); [reflexivity|..]; side
  end.

Lemma insert_quiet s qs i :
  prio_inv s qs ->
  match pcs s i with
  | InsCountNins _ _ | InsTrylock _ _ | InsTrylock2 _ _ | InsUnlock _ _ | InsHead _ _ _ | InsTail _ _ _ | InsAdd _ _ _ | InsBitmap _ _ _ | InsCas _ _ _ _ => True
  | _ => False
  end -> exists qs', prio_inv (insert_next i s) qs'.
Proof.
  intros HI Hc. unfold insert_next. pose proof (lo_seen s) as Hseen. destruct (pcs s i) as [] eqn:Hp; try done; clear Hc Hseen.
  all: repeat case_match; try (by exists qs); try case_bool; try (match goal with b : bool |- _ => destruct b end); quiet HI Hp p.
  all: try (apply (head_null s qs p HI); lia).
  all: try (intros Hq; apply (head_null s qs p HI) in Hq; lia).
  all: try by apply (tail_value s qs i p); rewrite ?Hp.
Qed.

Lemma remove_quiet s qs i :
  prio_inv s qs ->
  match pcs s i with
  | RemTrylock _ | RemTrylock2 _ | RemUnlock _ | RemTask _ _ | RemNext _ _ _ | RemSub _ _ _ | RemBitmap _ _ _ | RemCas _ _ _ _ => True
  | _ => False
  end -> exists qs', prio_inv (remove_next i s) qs'.
Proof.
  intros HI Hc. unfold remove_next. destruct (pcs s i) as [] eqn:Hp; try done; clear Hc.
  all: repeat case_match; try (by exists qs); try (exfalso; eapply (next_not_null s qs i); [done..|lia]); try case_bool; try (match goal with b : bool |- _ => destruct b end); quiet HI Hp p.
  all: try (destruct (qs p) as [|t' q] eqn:Hq; [done|]; by destruct (head_value s qs p t' HI) as [-> _]; rewrite ?Hq).
  all: try (destruct (Z.eqb_spec t NULL); [exfalso; eapply (held_not_null s qs i t); rewrite ?Hp|]; done).
  all: try (split; [done|by eapply head_value]).
Qed.

(** The steps of the lock functions: no assertion fails. *)
Ltac asserted HI Hp p :=
  match type of HI with
  | prio_inv ?s ?qs =>
      match type of Hp with
      | pcs s ?i = _ =>
          try match goal with
          | |- context [do_act _ _ (_ ?n) _ _] =>
              let H := fresh "Hn" in
              assert (H : get_counter n (lists s p) = b2z (raised n (pcs s i)))
                by (apply (counter_mine s qs); rewrite ?Hp; side; congruence);
              rewrite Hp in H;
              match type of H with _ = ?x => let y := eval vm_compute in x in change x with y in H end;
              unfold do_act; rewrite !H
          end;
          unfold do_act; cbn -[put bool_decide]; decided; cbn -[put bool_decide]
      end
  end.

Lemma insert_enter_step s qs i t p two l :
  prio_inv s qs -> pcs s i = InsEnter t p two l -> exists qs', prio_inv (insert_next i s) qs'.
Proof.
  intros HI Hp. pose proof (lo_seen _ _ _ (pi_list _ _ HI p) i) as Hs. rewrite Hp in Hs. specialize (Hs eq_refl). simpl in Hs.
  unfold insert_next. rewrite Hp. leaves; try congruence; clear H.
  all: asserted HI Hp p.
  all: quiet HI Hp p.
Qed.

Lemma insert_leave_step s qs i t p l :
  prio_inv s qs -> pcs s i = InsLeave t p l -> exists qs', prio_inv (insert_next i s) qs'.
Proof.
  intros HI Hp. pose proof (lo_seen _ _ _ (pi_list _ _ HI p) i) as Hs. rewrite Hp in Hs. specialize (Hs eq_refl). simpl in Hs.
  unfold insert_next. rewrite Hp. leaves; try congruence.
  all: asserted HI Hp p.
  all: quiet HI Hp p.
Qed.

Lemma remove_enter_step s qs i p two l :
  prio_inv s qs -> pcs s i = RemEnter p two l -> exists qs', prio_inv (remove_next i s) qs'.
Proof.
  intros HI Hp. pose proof (lo_seen _ _ _ (pi_list _ _ HI p) i) as Hs. rewrite Hp in Hs. specialize (Hs eq_refl). simpl in Hs.
  unfold remove_next. rewrite Hp. leaves; try congruence; clear H.
  all: asserted HI Hp p.
  all: quiet HI Hp p.
Qed.

Lemma remove_leave_step s qs i t p l :
  prio_inv s qs -> pcs s i = RemLeave t p l -> exists qs', prio_inv (remove_next i s) qs'.
Proof.
  intros HI Hp. pose proof (lo_seen _ _ _ (pi_list _ _ HI p) i) as Hs. rewrite Hp in Hs. specialize (Hs eq_refl). simpl in Hs.
  unfold remove_next. rewrite Hp. leaves; try congruence.
  all: asserted HI Hp p.
  all: unfold removed, high_next; try (destruct (high s i) as [[byte bit]|]); try destruct (Z.eqb_spec t NULL) as [->|Ht].
  all: repeat (destruct (0 <? _)); try quiet HI Hp p.
  all: try (destruct (Z.eqb_spec t NULL); done).
Qed.

(** The locks that are taken depend on [count]; what that says of the list *)
Lemma count_removing s qs p :
  prio_inv s qs -> uncounted (tail_pc s p) = false -> count (lists s p) <> 1 ->
  (removing (head_pc s p) = true -> length (qs p) <> 1%nat) /\ at_null_tail (head_pc s p) = false.
Proof.
  intros HI Hu Hc. pose proof (lo_count _ _ _ (pi_list _ _ HI p)) as Hcnt. rewrite Hu in Hcnt. simpl in Hcnt. split.
  - intros Hr. assert (overcounted (head_pc s p) = false) as Ho by (by destruct (head_pc s p)). rewrite Ho in Hcnt. simpl in Hcnt. lia.
  - destruct (at_null_tail (head_pc s p)) eqn:Ha; [|done]. exfalso. apply Hc.
    unfold head_pc, holder in Ha, Hcnt. destruct (headlock (lists s p)) as [j|] eqn:Hl; [|done].
    apply (lo_headlock _ _ _ (pi_list _ _ HI p)) in Hl as [Hl _]. apply (lo_seen _ _ _ (pi_list _ _ HI p)) in Hl.
    destruct (pcs s j); try done. simpl in Hl, Hcnt. rewrite Hl in Hcnt. simpl in Hcnt. lia.
Qed.

Lemma tail_pc_mine s qs i p : prio_inv s qs -> here p (pcs s i) -> has_tail (pcs s i) = true -> tail_pc s p = pcs s i.
Proof. intros HI Hc Ht. unfold tail_pc. by rewrite (tail_mine s qs i p). Qed.

Lemma head_pc_mine s qs i p : prio_inv s qs -> here p (pcs s i) -> has_head (pcs s i) = true -> head_pc s p = pcs s i.
Proof. intros HI Hc Ht. unfold head_pc. by rewrite (head_mine s qs i p). Qed.

Lemma seen_mine s qs i p c : prio_inv s qs -> pcs s i = c -> pc_prio c = Some p -> seen (qs p) c.
Proof. intros HI <-. apply (pi_list _ _ HI p). Qed.

(** What the others have seen stays true when a task is added, *)
Lemma others_insert s qs i j p t :
  prio_inv s qs -> pc_prio (pcs s i) = Some p -> has_tail (pcs s i) = true ->
  inserting (pcs s i) = true \/ has_head (pcs s i) = true -> j <> i -> pc_prio (pcs s j) = Some p ->
  seen (qs p ++ [t]) (pcs s j).
Proof.
  intros HI Hi Ht Hone Hne Hj. pose proof (lo_seen _ _ _ (pi_list _ _ HI p) j Hj) as Hs.
  assert (Htj : has_tail (pcs s j) = false).
  { apply not_true_is_false. intros Htj. apply Hne. apply (tail_mine s qs i p HI) in Ht; [|by left].
    apply (tail_mine s qs j p HI) in Htj; [congruence|by left]. }
  destruct (has_head (pcs s j)) eqn:Hhj; [|by destruct (pcs s j)].
  assert (Hh : has_head (pcs s i) = false).
  { apply not_true_is_false. intros Hh. apply Hne. apply (head_mine s qs i p HI) in Hh; [|by left].
    apply (head_mine s qs j p HI) in Hhj; [congruence|by left]. }
  destruct Hone as [Hone|Hone]; [|congruence]. pose proof (lo_one _ _ _ (pi_list _ _ HI p)) as H1.
  rewrite (tail_pc_mine s qs i p), (head_pc_mine s qs j p) in H1 by (done || by left). destruct (H1 Hone) as [Hl Hn].
  destruct (pcs s j); try done; simpl in *; destruct (qs p) as [|t1 [|t2 q]]; simpl in *; try done; subst; try done.
  all: destruct Hs as [Hs ?]; simplify_eq; by specialize (Hl eq_refl).
Qed.

(** and when one is removed. *)
Lemma others_remove s qs i j p t q :
  prio_inv s qs -> pc_prio (pcs s i) = Some p -> has_head (pcs s i) = true ->
  removing (pcs s i) = true \/ has_tail (pcs s i) = true -> qs p = t :: q -> j <> i -> pc_prio (pcs s j) = Some p ->
  seen q (pcs s j).
Proof.
  intros HI Hi Hh Hone Hq Hne Hj. pose proof (lo_seen _ _ _ (pi_list _ _ HI p) j Hj) as Hs. rewrite Hq in Hs.
  assert (Hhj : has_head (pcs s j) = false).
  { apply not_true_is_false. intros Hhj. apply Hne. apply (head_mine s qs i p HI) in Hh; [|by left].
    apply (head_mine s qs j p HI) in Hhj; [congruence|by left]. }
  destruct (has_tail (pcs s j)) eqn:Htj; [|by destruct (pcs s j)].
  assert (Ht : has_tail (pcs s i) = false).
  { apply not_true_is_false. intros Ht. apply Hne. apply (tail_mine s qs i p HI) in Ht; [|by left].
    apply (tail_mine s qs j p HI) in Htj; [congruence|by left]. }
  destruct Hone as [Hone|Hone]; [|congruence]. pose proof (lo_one _ _ _ (pi_list _ _ HI p)) as H1.
  rewrite (tail_pc_mine s qs j p), (head_pc_mine s qs i p), Hq in H1 by (done || by left).
  assert (H2 : inserting (pcs s j) = true -> q <> []).
  { intros Hi2. destruct (H1 Hi2) as [H3 _]. specialize (H3 Hone). by destruct q. }
  destruct (pcs s j); try done; simpl in *; subst; try done; try (by apply H2; destruct two);
    try (destruct q; [exfalso; by apply H2; destruct two|done]).
  all: try (by apply H2).
  all: destruct q; try done; try (exfalso; by apply H2); try (intros _; by apply Hs).
Qed.

(** The list of a step without effect *)
Ltac listed HI Hp p :=
  lazymatch type of HI with
  | prio_inv ?s ?qs =>
      lazymatch type of Hp with
      | pcs s ?i = _ =>
          exists qs; eapply (inv_quiet s _ qs i p _ HI); [reflexivity|rewrite Hp; by left|by left|rewrite ?Hp; side..|];
          eapply (list_step s _ qs i p _ _ _ HI Hp); [reflexivity|..]; side;
          try (by apply (pi_list _ _ HI p))
      end
  end.

Lemma insert_count_step s qs i t p :
  prio_inv s qs -> pcs s i = InsCount t p -> exists qs', prio_inv (insert_next i s) qs'.
Proof.
  intros HI Hp. unfold insert_next. rewrite Hp. destruct (Z.eqb_spec (count (lists s p)) 1) as [Hc|Hc]; [quiet HI Hp p|].
  listed HI Hp p.
  - by apply (tail_value s qs i p); rewrite ?Hp.
  - apply count_removing; [done| |done]. by rewrite (tail_pc_mine s qs i p), ?Hp by (rewrite ?Hp; by left || done).
Qed.

Lemma remove_count_step s qs i p :
  prio_inv s qs -> pcs s i = RemCount p -> exists qs', prio_inv (remove_next i s) qs'.
Proof.
  intros HI Hp. unfold remove_next. rewrite Hp. destruct (Z.eqb_spec (count (lists s p)) 1) as [Hc|Hc]; [quiet HI Hp p|].
  listed HI Hp p.
  split; [|done]. intros _ Hl. pose proof (lo_count _ _ _ (pi_list _ _ HI p)) as Hcnt.
  rewrite (head_pc_mine s qs i p), Hp in Hcnt by (rewrite ?Hp; by left || done). destruct (tail_pc s p); simpl in *; try done; lia.
Qed.

Lemma insert_set_tail_step s qs i t p two :
  prio_inv s qs -> pcs s i = InsSetTail t p two -> exists qs', prio_inv (insert_next i s) qs'.
Proof.
  intros HI Hp. pose proof (seen_mine s qs i p _ HI Hp eq_refl) as Hs. simpl in Hs.
  unfold insert_next. rewrite Hp. destruct two; listed HI Hp p; auto.
Qed.

Lemma remove_set_tail_step s qs i t p two :
  prio_inv s qs -> pcs s i = RemSetTail t p two -> exists qs', prio_inv (remove_next i s) qs'.
Proof.
  intros HI Hp. pose proof (seen_mine s qs i p _ HI Hp eq_refl) as Hs. simpl in Hs.
  unfold remove_next. rewrite Hp. destruct two; listed HI Hp p; auto.
Qed.

(** A task is linked into the list. *)
Ltac inserted HI Hp p t :=
  lazymatch type of HI with
  | prio_inv ?s ?qs =>
      lazymatch type of Hp with
      | pcs s ?i = _ =>
          eexists; eapply (inv_insert s _ qs i p _ HI) with (t := t);
          [reflexivity|rewrite Hp; by left|by left|rewrite ?Hp; side; try (apply put_ne; congruence)..|];
          eapply (list_step s _ qs i p _ _ _ HI Hp); [reflexivity|..]; side;
          try (rewrite length_app; simpl; lia); try (intros; by rewrite last_snoc);
          try (eapply (others_insert s qs i); rewrite ?Hp; side)
      end
  end.

(** The task of an insertion is in no list. *)
Lemma insert_fresh s qs i p t :
  prio_inv s qs -> holding (pcs s i) = Some t -> clear (pcs s i) = true -> (t ∉ qs p) /\ t <> NULL /\ next_queue s t = NULL.
Proof.
  intros HI Hh Hcl. pose proof (held_not_null s qs i t HI Hh) as Hn. apply (pi_held _ _ HI) in Hh.
  split; [intros Ht; apply (pi_queued _ _ HI) in Ht; congruence|]. split; [done|by apply (pi_clear _ _ HI i)].
Qed.

Lemma insert_set_head_step s qs i t p two :
  prio_inv s qs -> pcs s i = InsSetHead t p two -> exists qs', prio_inv (insert_next i s) qs'.
Proof.
  intros HI Hp. pose proof (seen_mine s qs i p _ HI Hp eq_refl) as Hs. simpl in Hs.
  destruct (insert_fresh s qs i p t HI) as (_ & _ & Hn); [by rewrite Hp..|].
  unfold insert_next. rewrite Hp. destruct two; inserted HI Hp p t; by rewrite Hs.
Qed.

Lemma chain_snoc nx q h tl t :
  chain nx q h -> list.last q = Some tl -> NoDup q -> t ∉ q -> nx t = NULL -> chain (put nx tl t) (q ++ [t]) h.
Proof.
  revert h. induction q as [|t1 q IH]; intros h Hc Hl Hnd Hni Hnx; [done|]. destruct Hc as [-> Hc].
  apply list.NoDup_cons in Hnd as [Hn1 Hnd]. apply not_elem_of_cons in Hni as [Hne Hni]. simpl. split; [done|].
  destruct q as [|t2 q].
  - simplify_eq/=. rewrite put_eq, put_ne by done. done.
  - rewrite put_ne; [by apply IH|]. intros <-. apply Hn1. by apply list.last_Some_elem_of.
Qed.

Lemma insert_link_step s qs i t p two tl :
  prio_inv s qs -> pcs s i = InsLink t p two tl -> exists qs', prio_inv (insert_next i s) qs'.
Proof.
  intros HI Hp. pose proof (seen_mine s qs i p _ HI Hp eq_refl) as Hs. simpl in Hs.
  destruct (insert_fresh s qs i p t HI) as (Hni & Hnn & Hn); [by rewrite Hp..|].
  assert (Htl : tl ∈ qs p) by (by apply list.last_Some_elem_of).
  unfold insert_next. rewrite Hp. destruct (Z.eqb_spec tl NULL) as [He|_]; [by apply (queued_not_null s qs p tl) in He|].
  apply (pi_queued _ _ HI) in Htl. destruct two; inserted HI Hp p t.
  all: try (apply chain_snoc; try done; apply HI).
  all: try by destruct (qs p).
Qed.

Lemma remove_head_step s qs i p two :
  prio_inv s qs -> pcs s i = RemHead p two -> exists qs', prio_inv (remove_next i s) qs'.
Proof.
  intros HI Hp. unfold remove_next. rewrite Hp. destruct (Z.eqb_spec (qhead (lists s p)) NULL) as [He|He].
  - pose proof (proj1 (head_null s qs p HI) He) as Hq.
    eexists. eapply (inv_none s _ qs i p _ HI); [reflexivity|rewrite Hp; by left|by left|rewrite ?Hp; side..|].
    destruct two; (eapply (list_step s _ qs i p _ _ _ HI Hp); [reflexivity|..]; side; rewrite ?Hq; side);
      try (intros; rewrite <- Hq; by apply (pi_list _ _ HI p)).
  - assert (qs p <> []) by (by rewrite <- (head_null s qs p HI)). destruct two; quiet HI Hp p.
Qed.

(** A task is taken out of the list, whose only task it may be. *)
Ltac taken HI Hp p t0 q0 Hq :=
  lazymatch type of HI with
  | prio_inv ?s ?qs =>
      lazymatch type of Hp with
      | pcs s ?i = _ =>
          eexists; eapply (inv_remove s _ qs i p _ HI) with (t := t0) (q := q0);
          [reflexivity|rewrite Hp; by left|by left|rewrite ?Hp; side..|];
          eapply (list_step s _ qs i p _ _ _ HI Hp); [reflexivity|..]; side;
          try (rewrite Hq; simpl; lia);
          try (eapply (others_remove s qs i); rewrite ?Hp; side)
      end
  end.

Lemma remove_set_head_step s qs i t p two nx :
  prio_inv s qs -> pcs s i = RemSetHead t p two nx -> exists qs', prio_inv (remove_next i s) qs'.
Proof.
  intros HI Hp. pose proof (seen_mine s qs i p _ HI Hp eq_refl) as Hs. simpl in Hs.
  pose proof (lo_chain _ _ _ (pi_list _ _ HI p)) as Hc. pose proof (lo_tail _ _ _ (pi_list _ _ HI p)) as Htl.
  pose proof (lo_one _ _ _ (pi_list _ _ HI p)) as Hone. rewrite (head_pc_mine s qs i p), Hp in Hone by (rewrite ?Hp; by left || done).
  destruct (qs p) as [|t' q] eqn:Hq; [by destruct Hs|]. destruct Hs as [Ht Hnx]. simplify_eq/=. destruct Hc as [_ Hc].
  unfold remove_next. rewrite Hp. destruct q as [|t2 q]; simpl in *.
  - destruct two; taken HI Hp p t (@nil Z) Hq. destruct (Hone H) as [H1 _]. by specialize (H1 eq_refl).
  - destruct Hc as [Hc1 Hc2]. destruct (Z.eqb_spec t2 NULL) as [He|He].
    { exfalso. eapply (queued_not_null s qs p t2); [done| |done]. rewrite Hq. apply list_elem_of_further, list_elem_of_here. }
    destruct two; taken HI Hp p t (t2 :: q) Hq; apply Htl; try done.
    by rewrite (tail_pc_mine s qs i p), Hp by (rewrite ?Hp; by left || done).
Qed.

Lemma remove_clear_step s qs i t p two :
  prio_inv s qs -> pcs s i = RemClear t p two -> exists qs', prio_inv (remove_next i s) qs'.
Proof.
  intros HI Hp. unfold remove_next. rewrite Hp. exists qs.
  assert (Hl : loc s t = Held i) by (apply (pi_held _ _ HI); by rewrite Hp).
  eapply (inv_unlink s _ qs i p _ HI) with (t := t); [reflexivity|rewrite Hp; by left|by left|rewrite ?Hp; side..|].
  destruct two; (eapply (list_step s _ qs i p _ _ _ HI Hp); [reflexivity|..]; side); try (by apply (pi_list _ _ HI p));
    try (by apply (tail_value s qs i p); rewrite ?Hp).
  all: eapply chain_ext; [|apply (pi_list _ _ HI p)]; intros u Hu; apply put_ne; intros ->; apply (pi_queued _ _ HI) in Hu; congruence.
Qed.

Lemma next_inv s qs i :
  prio_inv s qs -> pcs s i <> Idle -> exists qs', prio_inv (next num_priorities i s) qs'.
Proof.
  intros HI Hi. pose proof (pi_crash _ _ HI i) as Hcr. pose proof (insert_quiet s qs i HI) as Hiq. pose proof (remove_quiet s qs i HI) as Hrq.
  unfold next. destruct (pcs s i) eqn:Hp; try done; clear Hi Hcr.
  all: eauto using insert_enter_step, insert_leave_step, remove_enter_step, remove_leave_step, insert_count_step, remove_count_step,
    insert_set_tail_step, remove_set_tail_step, insert_set_head_step, insert_link_step, remove_head_step, remove_set_head_step, remove_clear_step.
  - unfold high_step, high_next. repeat case_match.
    all: first [solve [quiet HI Hp 0]|quiet HI Hp (GET_POS_NUM byte bit)].
  - quiet HI Hp 0.
  - exists qs. eapply (inv_leave s _ qs i 0 _ HI) with (t := t); [reflexivity|rewrite Hp; by right|by right|rewrite ?Hp; side..|].
    eapply (list_step s _ qs i 0 _ _ _ HI Hp); [reflexivity|..]; side; by apply (pi_list _ _ HI 0).
Qed.

(** A task comes into the hands of a call. *)
Ltac comes HI Hp p t0 :=
  lazymatch type of HI with
  | prio_inv ?s ?qs =>
      lazymatch type of Hp with
      | pcs s ?i = _ =>
          exists qs; eapply (inv_take s _ qs i p _ HI) with (t := t0);
          [reflexivity|rewrite Hp; by right|by left|rewrite ?Hp; side..|];
          eapply (list_step s _ qs i p _ _ _ HI Hp); [reflexivity|..]; side; by apply (pi_list _ _ HI p)
      end
  end.

Lemma start_inv s qs i c :
  prio_inv s qs -> pcs s i = Idle -> allowed num_priorities c s -> exists qs', prio_inv (start num_priorities i c s) qs'.
Proof.
  intros HI Hp Ha. destruct c as [t p|t p|p|]; simpl in *.
  - destruct Ha as (Ho & Hn & Hok). rewrite Hok. destruct (Z.eqb_spec t NULL); [done|]. simpl. comes HI Hp p t.
  - destruct (Z.eqb_spec t NULL); simpl; [quiet HI Hp 0|]. destruct (prio_ok num_priorities p); simpl; [comes HI Hp p t|quiet HI Hp 0].
  - destruct (prio_ok num_priorities p); [quiet HI Hp p|quiet HI Hp 0].
  - quiet HI Hp 0.
Qed.

Lemma prio_init_inv s : GetPrioTaskArray num_priorities = Some s -> prio_inv s (fun _ => []).
Proof.
  unfold GetPrioTaskArray. intros. case_match; simplify_eq. constructor; try done.
  - intros p. constructor; try done; simpl; try (intros; by split; [|intros [??]]).
  - intros t p. simpl. split; [by intros ?%elem_of_nil|done].
  - intros p. constructor.
Qed.

Lemma reachable_inv s : prio_reachable num_priorities s -> exists qs, prio_inv s qs.
Proof.
  intros (s0 & H0 & Hs). assert (Hi : exists qs, prio_inv s0 qs) by (eexists; by apply prio_init_inv). clear H0.
  induction Hs as [|s s1 s2 [i Hst] Hs IH]; [done|]. apply IH. destruct Hi as [qs Hi].
  destruct Hst as [c Hc Ha|Hc Ha]; [by eapply start_inv|by eapply next_inv].
Qed.

(** ** What callers see *)

(** C15. The lists of tasks are linearizable.  In every state that any number of threads
    reach by calling the four operations, the operations that have taken effect, in
    that order, are a legal history of one FIFO queue for each priority; each thread's
    part of it is what its calls have returned, in order, followed by the operation
    that has taken effect and not returned yet; the links of the list in memory are
    the tasks of that queue, none twice and each in one list; and no assertion has
    failed and no NULL pointer was used, with one lock or two. *)
Theorem prio_linearizable s :
  prio_reachable num_priorities s ->
  exists qs, legal (hist s) (fun _ => []) = Some qs /\
    (forall i, by_thread i (hist s) = rets s i ++ pending (pcs s i)) /\
    (forall p, chain (next_queue s) (qs p) (qhead (lists s p)) /\ NoDup (qs p)) /\
    (forall t p, t ∈ qs p <-> loc s t = Queued p) /\
    (forall i, pcs s i <> Crash).
Proof.
  intros [qs HI]%reachable_inv. exists qs. split; [apply HI|]. split; [apply HI|].
  split; [intros p; split; [apply (pi_list _ _ HI p)|apply HI]|]. split; [apply HI|apply HI].
Qed.

(** When no call is under way, the locks are free, [count] is the length of the queue
    and [tail] its last task. *)
Theorem prio_quiescent s :
  prio_reachable num_priorities s -> (forall i, pcs s i = Idle) ->
  exists qs, legal (hist s) (fun _ => []) = Some qs /\ (forall i, rets s i = by_thread i (hist s)) /\
    forall p, count (lists s p) = Z.of_nat (length (qs p)) /\ (qs p <> [] -> list.last (qs p) = Some (qtail (lists s p))) /\
      headlock (lists s p) = None /\ taillock (lists s p) = None /\
      nenq (lists s p) = 0 /\ ndeq (lists s p) = 0 /\ neqx (lists s p) = 0.
Proof.
  intros [qs HI]%reachable_inv Hidle. exists qs. split; [apply HI|]. split.
  { intros i. by rewrite (pi_hist _ _ HI i), Hidle, app_nil_r. }
  intros p. destruct (pi_list _ _ HI p) as [H1 H2 H3 H4 H5 H6 H7 H8 H9 H10].
  assert (Hh : headlock (lists s p) = None).
  { destruct (headlock (lists s p)) as [i|]; [|done]. by destruct (proj1 (H1 i) eq_refl) as [Hx _]; rewrite Hidle in Hx. }
  assert (Ht : taillock (lists s p) = None).
  { destruct (taillock (lists s p)) as [i|]; [|done]. by destruct (proj1 (H2 i) eq_refl) as [Hx _]; rewrite Hidle in Hx. }
  assert (Hhp : head_pc s p = Idle) by (unfold head_pc; by rewrite Hh).
  assert (Htp : tail_pc s p = Idle) by (unfold tail_pc; by rewrite Ht).
  rewrite Hhp, Htp in *. simpl in *. split; [lia|]. split; [intros; by apply H8|done].
Qed.

End Steps.

(** ** Running threads *)

#[export] Instance place_eq_dec : EqDecision place.
Proof. solve_decision. Defined.

#[export] Instance pc_idle_dec (c : pc) : Decision (c = Idle).
Proof. destruct c; (by left) || (by right). Defined.

Section Running.

Context (num_priorities : Z).

(** Thread [i] calls, or takes [n] steps. *)
Inductive prio_move := Call (i : nat) (c : call) | Steps (i n : nat).

Definition allowed_bool (c : call) (s : prio) : bool :=
  match c with
  | InsertTask t p => bool_decide (loc s t = Outside) && negb (t =? NULL) && prio_ok num_priorities p
  | InsertTaskWithPriority t p => bool_decide (loc s t = Outside)
  | _ => true
  end.

Definition prio_do (s : option prio) (m : prio_move) : option prio :=
  match s, m with
  | Some s, Call i c =>
      if bool_decide (pcs s i = Idle) && allowed_bool c s then Some (start num_priorities i c s) else None
  | Some s, Steps i n => Some (Nat.iter n (next num_priorities i) s)
  | None, _ => None
  end.

Definition prio_run (ms : list prio_move) : option prio := foldl prio_do (GetPrioTaskArray num_priorities) ms.

Lemma prio_do_steps s m s' : prio_do (Some s) m = Some s' -> prio_steps num_priorities s s'.
Proof.
  destruct m as [i c|i n]; simpl.
  - destruct (bool_decide_reflect (pcs s i = Idle)) as [Hp|]; [|done]. simpl. destruct (allowed_bool c s) eqn:Ha; [|done]. intros [= <-].
    apply rtc_once. exists i. constructor; [done|]. destruct c; simpl in *; auto.
    + apply andb_true_iff in Ha as [Ha1 Ha2]. apply andb_true_iff in Ha1 as [Ha0 Ha1]. apply bool_decide_eq_true in Ha0.
      split; [done|]. split; [|done]. intros ->. done.
    + by apply bool_decide_eq_true in Ha.
  - intros [= <-]. induction n as [|n IH]; [apply rtc_refl|]. simpl. etrans; [apply IH|].
    set (s1 := Nat.iter n _ s). destruct (pcs s1 i) eqn:Hp.
    1, 2: by unfold next; rewrite Hp; apply rtc_refl.
    all: apply rtc_once; exists i; apply p_next; by rewrite Hp.
Qed.

Lemma prio_run_reachable ms s : prio_run ms = Some s -> prio_reachable num_priorities s.
Proof.
  revert s. induction ms as [|m ms IH] using rev_ind; intros s.
  - intros H. exists s. split; [done|apply rtc_refl].
  - unfold prio_run. rewrite foldl_app. simpl. destruct (foldl prio_do _ ms) as [s1|] eqn:H1; [|done]. intros H2.
    destruct (IH s1 H1) as (s0 & H0 & Hs). exists s0. split; [done|]. etrans; [exact Hs|by eapply prio_do_steps].
Qed.

End Running.
