(* ===== verification/PrioLost.v ===== *)
(** * A task that the bitmap does not show: TPCC/Server/core/priority.c

    RemoveHighestPriorityTask looks only into lists whose bit is set.  The bit is set by
    an insertion that finds [count] at 0 and reset by a removal that leaves it at 0; but
    these removals do not always have both locks, so that the reset can come after the
    set of a later insertion.  Then the list has a task and no bit, and stays so. *)
From S2P Require Import Prelude Words Prio PrioSteps.

(** ** Bits *)

Lemma one_bit n : n <> 0 -> Z.testbit 1 n = false.
Proof. intros Hn. apply (Z.pow2_bits_false 0). lia. Qed.

Lemma check_bit_false byte bit : 0 <= bit < 8 -> Z.testbit byte bit = false -> CHECK_BIT byte bit = 0.
Proof.
  intros Hb Ht. unfold CHECK_BIT. replace (Z.land byte (Z.shiftl 1 bit)) with 0; [done|].
  symmetry. apply Z.bits_inj'. intros n Hn. rewrite Z.land_spec, Z.shiftl_spec, Z.bits_0 by done.
  destruct (decide (n = bit)) as [->|Hne]; [by rewrite Ht|]. rewrite (one_bit (n - bit)) by lia. apply andb_false_r.
Qed.

Lemma check_bit_true byte bit : 0 <= bit < 8 -> CHECK_BIT byte bit = 0 -> Z.testbit byte bit = false.
Proof.
  intros Hb Hc. unfold CHECK_BIT in Hc. apply (f_equal (fun z => Z.testbit z bit)) in Hc.
  rewrite Z.mod_pow2_bits_low, Z.land_spec, Z.shiftl_spec, Z.sub_diag, Z.bits_0 in Hc by lia.
  simpl in Hc. by rewrite andb_true_r in Hc.
Qed.

Lemma set_bit_other byte k m : 0 <= m < 8 -> k <> m -> Z.testbit (SET_BIT byte k) m = Z.testbit byte m.
Proof.
  intros Hm Hk. unfold SET_BIT. rewrite Z.mod_pow2_bits_low, Z.lor_spec, Z.shiftl_spec by lia.
  rewrite (one_bit (m - k)) by lia. apply orb_false_r.
Qed.

Lemma reset_bit_false byte k m : 0 <= m < 8 -> Z.testbit byte m = false -> Z.testbit (RESET_BIT byte k) m = false.
Proof. intros Hm Hb. unfold RESET_BIT. by rewrite Z.mod_pow2_bits_low, Z.land_spec, Hb by lia. Qed.

Section Lost.

Context (num_priorities p t : Z).

(** The task is in its list and the bit of the list is not set. *)
Definition hidden (s : prio) : Prop := loc s t = Queued p /\ CHECK_BIT (bitmap s (GET_BYTE_NUM p)) (GET_BIT_NUM p) = 0.

(** The calls of the server: tasks are removed by RemoveHighestPriorityTask. *)
Inductive server_step (i : nat) (s : prio) : prio -> Prop :=
| ss_call c : pcs s i = Idle -> allowed num_priorities c s -> c <> RemoveTaskFromPriority p -> server_step i s (start num_priorities i c s)
| ss_next : pcs s i <> Idle -> pcs s i <> Crash -> server_step i s (next num_priorities i s).

Definition server_steps : prio -> prio -> Prop := rtc (fun s s' => exists i, server_step i s s').

(** ** The places that RemoveHighestPriorityTask looks at *)

Definition place_ok (byte bit : Z) : Prop := 0 <= byte /\ 0 <= bit < 8.

Definition high_ok (s : prio) : Prop :=
  forall i byte bit, pcs s i = HighBit byte bit \/ high s i = Some (byte, bit) -> place_ok byte bit.

Lemma do_act_frame i q a k s :
  exists c, pcs (do_act i q a k s) = put (pcs s) i c /\ (c = k \/ c = Crash) /\ hist (do_act i q a k s) = hist s /\
    loc (do_act i q a k s) = loc s /\ bitmap (do_act i q a k s) = bitmap s /\ high (do_act i q a k s) = high s.
Proof. destruct a; simpl; eexists; (split; [reflexivity|]); split; auto; case_match; auto. Qed.

(** What a step of thread [i] does to the places of its search *)
Lemma high_ok_step s s' i c' :
  high_ok s -> pcs s' = put (pcs s) i c' -> (forall j, j <> i -> high s' j = high s j) ->
  (forall byte bit, c' = HighBit byte bit \/ high s' i = Some (byte, bit) -> place_ok byte bit) -> high_ok s'.
Proof.
  intros Hs Hp Hh Hi j byte bit Hj. rewrite Hp in Hj. destruct (decide (j = i)) as [->|Hne].
  - rewrite put_eq in Hj. by apply Hi.
  - rewrite put_ne, Hh in Hj by done. by apply (Hs j).
Qed.

Lemma high_next_ok byte bit b k : place_ok byte bit -> high_next byte bit = HighBit b k -> place_ok b k.
Proof. unfold high_next, place_ok. intros Hp. repeat case_match; intros; simplify_eq; lia. Qed.

Definition not_high (c : pc) : Prop := match c with HighBit _ _ => False | _ => True end.

Lemma do_act_high i q a k s :
  not_high k -> exists c, pcs (do_act i q a k s) = put (pcs s) i c /\ not_high c /\ high (do_act i q a k s) = high s.
Proof. intros Hk. destruct (do_act_frame i q a k s) as (c & H1 & Hc & _ & _ & _ & H2). exists c. by destruct Hc as [->| ->]. Qed.

Lemma insert_next_high i s :
  insert_next i s = s \/ exists c, pcs (insert_next i s) = put (pcs s) i c /\ not_high c /\ high (insert_next i s) = high s.
Proof.
  unfold insert_next. destruct (pcs s i); try (by left).
  all: repeat case_match; try (by left); right;
    try (eexists; split; [reflexivity|]; split; [done|reflexivity]); try (by apply do_act_high).

Qed.

Lemma remove_next_high i s :
  remove_next i s = s \/
  exists c, pcs (remove_next i s) = put (pcs s) i c /\ (forall j, j <> i -> high (remove_next i s) j = high s j) /\
    (not_high c /\ (high (remove_next i s) i = None \/ high (remove_next i s) = high s) \/
     exists byte bit, high s i = Some (byte, bit) /\ c = high_next byte bit /\ high (remove_next i s) i = None).
Proof.
  unfold remove_next. destruct (pcs s i); try (by left).
  all: repeat case_match; try (by left); right;
    try (eexists; split; [reflexivity|]; split; [done|left; split; [done|by right]]);
    try match goal with |- context [do_act ?j ?q ?a ?k ?s0] => destruct (do_act_frame j q a k s0) as (c & H1 & Hc & _ & _ & _ & H2) end.
  all: try (exists c; split; [done|]; split; [intros; by rewrite H2|]; left; split; [by destruct Hc; subst|by right]).
  exists c. split; [done|]. split; [intros j Hj; simpl; by rewrite put_ne|]. simpl. rewrite put_eq.
  unfold removed in Hc. destruct Hc as [->| ->]; [|left; by split; [|left]].
  destruct (high s i) as [[byte bit]|]; [|left; by split; [|left]]. case_match; [right; eauto|left; by split; [|left]].
Qed.

Context (Hpos : 0 < num_priorities).

Lemma next_high_ok i s : high_ok s -> high_ok (next num_priorities i s).
Proof using Type.
  intros Hs.
  assert (Hsame : forall s' c, pcs s' = put (pcs s) i c -> not_high c -> high s' = high s -> high_ok s').
  { intros s' c H1 H2 H3. eapply (high_ok_step s); [done|done|by rewrite H3|]. intros byte bit [->|Hh]; [done|].
    rewrite H3 in Hh. apply (Hs i). auto. }
  assert (Hi : high_ok (insert_next i s)).
  { destruct (insert_next_high i s) as [->|(c & H1 & H2 & H3)]; eauto. }
  assert (Hr : high_ok (remove_next i s)).
  { destruct (remove_next_high i s) as [->|(c & H1 & H2 & H3)]; [done|]. eapply (high_ok_step s); [done|done|done|].
    intros byte bit Hb. destruct H3 as [[H3 H4]|(byte' & bit' & H3 & -> & H4)].
    - destruct Hb as [->|Hb]; [done|]. destruct H4 as [H4|H4]; [congruence|]. rewrite H4 in Hb. apply (Hs i). auto.
    - destruct Hb as [Hb|Hb]; [|congruence]. eapply high_next_ok; [|done]. apply (Hs i). auto. }
  unfold next. destruct (pcs s i) eqn:Hp; try done.
  - assert (Hok : place_ok byte bit) by (apply (Hs i); auto). unfold high_step.
    assert (Hn : forall b k, high_next byte bit = HighBit b k \/ high s i = Some (b, k) -> place_ok b k).
    { intros b k [Hb|Hb]; [by eapply high_next_ok|apply (Hs i); auto]. }
    repeat case_match; eapply (high_ok_step s); try done; simpl; intros; try (by rewrite put_ne); try (by apply Hn).
    destruct H1 as [|H1]; [done|]. rewrite put_eq in H1. by simplify_eq.
  - eapply Hsame; [reflexivity|done|done].
  - eapply Hsame; [reflexivity|done|done].
Qed.

Lemma start_high_ok i c s : high_ok s -> high_ok (start num_priorities i c s).
Proof using Hpos.
  intros Hs. assert (Ho : 0 <= num_bytes num_priorities - 1).
  { unfold num_bytes. pose proof (Z.quot_pos (num_priorities - 1) 8). lia. }
  destruct c; simpl; repeat case_match; eapply (high_ok_step s); try done; simpl; intros b k [|Hb]; simplify_eq;
    try (split; lia); apply (Hs i); auto.
Qed.

Lemma reachable_high_ok s : prio_reachable num_priorities s -> high_ok s.
Proof using Hpos.
  intros (s0 & H0 & Hs). assert (Hi : high_ok s0).
  { unfold GetPrioTaskArray in H0. case_match; simplify_eq. by intros i byte bit [|]. }
  clear H0. induction Hs as [|s s1 s2 [i Hst] Hs IH]; [done|]. apply IH. destruct Hst; [by apply start_high_ok|by apply next_high_ok].
Qed.

(** ** The task stays hidden *)

Definition queues (s : prio) : Z -> list Z := default (fun _ => []) (legal (hist s) (fun _ => [])).
Definition qlen (s : prio) : nat := length (queues s p).

(** What a thread may be doing when the task is hidden: nobody removes from the list, and
    who inserts into it has seen that it is not empty. *)
Definition pc_hidden (n : nat) (c : pc) : Prop :=
  match c with
  | InsSetTail _ q _ | InsAdd _ q _ => q = p -> (2 <= n)%nat
  | InsBitmap _ q _ | InsCas _ q _ _ => q <> p
  | RemTrylock q | RemCount q | RemTrylock2 q | RemUnlock q | RemEnter q _ _ | RemHead q _ | RemTask q _ | RemNext _ q _
  | RemSetHead _ q _ _ | RemSetTail _ q _ | RemClear _ q _ | RemSub _ q _ | RemBitmap _ q _ | RemCas _ q _ _
  | RemLeave _ q _ => q <> p
  | _ => True
  end.

Record lost (s : prio) : Prop := {
  lt_inv : exists qs, prio_inv s qs;
  lt_high : high_ok s;
  lt_loc : loc s t = Queued p;
  lt_bit : Z.testbit (bitmap s (GET_BYTE_NUM p)) (GET_BIT_NUM p) = false;
  lt_pc i : pc_hidden (qlen s) (pcs s i) }.

Lemma pc_hidden_mono n m c : (n <= m)%nat -> pc_hidden n c -> pc_hidden m c.
Proof using Type. destruct c; simpl; auto; lia. Qed.

(** The operations that are allowed while the task is hidden *)
Definition keeps (o : op) : Prop := match o with Insert _ _ => True | Remove q => q <> p end.

Lemma queues_effect s s' i o r :
  hist s' = hist s ++ [(i, (o, r))] -> is_Some (legal (hist s) (fun _ => [])) -> is_Some (legal (hist s') (fun _ => [])) ->
  queues s' p = if decide (op_prio o = p) then (spec (queues s p) o).2 else queues s p.
Proof using Type.
  unfold queues. intros -> [qs Hq] [qs' Hq']. rewrite Hq, Hq'. simpl.
  assert (Hr : forall h q0, legal (h ++ [(i, (o, r))]) q0 = Some qs' -> exists q1, legal h q0 = Some q1 /\
    qs' = put q1 (op_prio o) (spec (q1 (op_prio o)) o).2).
  { clear. induction h as [|[j [o' r']] h IH]; intros q0; simpl; [|case_match; [apply IH|done]].
    case_match; [|done]. intros [= <-]. eauto. }
  destruct (Hr _ _ Hq') as (q1 & H1 & ->). rewrite Hq in H1. simplify_eq. unfold put. repeat case_decide; subst; done.
Qed.

(** A step of thread [i] that keeps it hidden *)
Lemma lost_step s s' i c' :
  lost s -> (exists qs, prio_inv s' qs) -> high_ok s' -> pcs s' = put (pcs s) i c' -> loc s' t = loc s t ->
  (Z.testbit (bitmap s (GET_BYTE_NUM p)) (GET_BIT_NUM p) = false ->
   Z.testbit (bitmap s' (GET_BYTE_NUM p)) (GET_BIT_NUM p) = false) ->
  (hist s' = hist s /\ pc_hidden (qlen s) c' \/
   exists o r, hist s' = hist s ++ [(i, (o, r))] /\ keeps o /\ pc_hidden (if decide (op_prio o = p) then S (qlen s) else qlen s) c') ->
  lost s'.
Proof using Type.
  intros Hs Hinv Hh Hp Hl Hb He. destruct Hs as [[qs Hqs] H2 H3 H4 H5].
  assert (Hn : (qlen s <= qlen s')%nat /\ pc_hidden (qlen s') c').
  { destruct He as [[He Hc]|(o & r & He & Hk & Hc)].
    - unfold qlen, queues in *. rewrite He. done.
    - destruct Hinv as [qs' Hqs'].
      assert (Hq : qlen s' = if decide (op_prio o = p) then S (qlen s) else qlen s).
      { unfold qlen. rewrite (queues_effect s s' i o r He) by (eexists; (apply Hqs || apply Hqs')).
        case_decide; [|done]. destruct o; simpl in *; [rewrite length_app; simpl; lia|done]. }
      rewrite Hq. split; [case_decide; lia|done]. }
  destruct Hn as [Hn Hc]. constructor; auto; [congruence|]. intros j. rewrite Hp. unfold put. case_decide; [done|].
  by eapply pc_hidden_mono.
Qed.

Context (Hp0 : 0 <= p).

Lemma bit_range : 0 <= GET_BIT_NUM p < 8.
Proof using Hp0. unfold GET_BIT_NUM. pose proof (Z.rem_bound_pos p 8). lia. Qed.

Lemma same_byte q : q <> p -> GET_BYTE_NUM q = GET_BYTE_NUM p -> GET_BIT_NUM q <> GET_BIT_NUM p.
Proof using Type. unfold GET_BYTE_NUM, GET_BIT_NUM. intros Hne Hq Hr. pose proof (Z.quot_rem' q 8). pose proof (Z.quot_rem' p 8). lia. Qed.

Lemma get_pos byte bit : place_ok byte bit -> GET_POS_NUM byte bit = p -> byte = GET_BYTE_NUM p /\ bit = GET_BIT_NUM p.
Proof using Hp0.
  unfold place_ok, GET_POS_NUM, GET_BYTE_NUM, GET_BIT_NUM. intros Hb <-. rewrite Z.quot_div_nonneg, Z.rem_mod_nonneg by lia.
  Z.div_mod_to_equations. lia.
Qed.

Lemma qlen_queue s qs : prio_inv s qs -> qlen s = length (qs p).
Proof using Type. intros HI. unfold qlen, queues. by rewrite (pi_legal _ _ HI). Qed.

Lemma lost_nonempty s : lost s -> (1 <= qlen s)%nat.
Proof using Type.
  intros [[qs HI] _ Hl _ _]. rewrite (qlen_queue s qs HI). apply (pi_queued _ _ HI) in Hl. destruct (qs p); [by apply elem_of_nil in Hl|simpl; lia].
Qed.

(** The task is not in the hands of a thread. *)
Lemma lost_held s i u : lost s -> holding (pcs s i) = Some u -> t <> u.
Proof using Type. intros [[qs HI] _ Hl _ _] Hh ->. apply (pi_held _ _ HI) in Hh. congruence. Qed.

Lemma lost_other_bit s q b (f : Z -> Z -> Z) :
  lost s -> q <> p -> bitmap s (GET_BYTE_NUM q) = b ->
  (forall k, k <> GET_BIT_NUM p -> Z.testbit b (GET_BIT_NUM p) = false -> Z.testbit (f b k) (GET_BIT_NUM p) = false) ->
  Z.testbit (put (bitmap s) (GET_BYTE_NUM q) (f b (GET_BIT_NUM q)) (GET_BYTE_NUM p)) (GET_BIT_NUM p) = false.
Proof using Type.
  intros Hs Hq Hb Hf. unfold put. case_decide as He; [|apply Hs]. apply Hf; [by apply same_byte|]. rewrite <- Hb, <- He. apply Hs.
Qed.

Lemma lost_count s i u q two : lost s -> pcs s i = InsAdd u q two -> count (lists s q) = 0 -> q <> p.
Proof using Type.
  intros Hs Hp Hc ->. destruct Hs as [[qs HI] _ _ _ H5]. specialize (H5 i). rewrite Hp in H5. specialize (H5 eq_refl).
  rewrite (qlen_queue s qs HI) in H5. pose proof (lo_count _ _ _ (pi_list _ _ HI p)) as Hcnt.
  rewrite (tail_pc_mine s qs i p), Hp in Hcnt by (rewrite ?Hp; by left || done). simpl in Hcnt.
  destruct (overcounted (head_pc s p)); simpl in Hcnt; lia.
Qed.

(** A step without effect *)
Ltac still Hs := eapply (lost_step _ _ _ _ Hs); [done|done|reflexivity|try done|try done|left; split; [done|]]; simpl; auto.

(** An action of a lock function *)
Lemma lost_act s s' i q a k :
  lost s -> (exists qs, prio_inv s' qs) -> high_ok s' -> pcs s' = pcs (do_act i q a k s) -> hist s' = hist (do_act i q a k s) ->
  loc s' = loc (do_act i q a k s) -> bitmap s' = bitmap (do_act i q a k s) -> pc_hidden (qlen s) k -> lost s'.
Proof using Type.
  intros Hs Hinv Hh H1 H2 H3 H4 Hk. destruct (do_act_frame i q a k s) as (c & G1 & Hc & G2 & G3 & G4 & _).
  eapply (lost_step _ _ i c Hs); [done|done|congruence|congruence|congruence|left; split; [congruence|]]. by destruct Hc as [->| ->].
Qed.

(** The effect of an insertion *)
Ltac inserts Hs := eapply (lost_step _ _ _ _ Hs); [done|done|reflexivity|simpl; apply put_ne; auto|done|right]; do 2 eexists;
  split; [reflexivity|]; split; [done|]; simpl; intros; case_decide; [lia|done].

Lemma insert_lost i s :
  lost s -> (exists qs, prio_inv (insert_next i s) qs) -> high_ok (insert_next i s) -> lost (insert_next i s).
Proof using Hp0.
  intros Hs Hinv Hh. pose proof (lt_pc _ Hs i) as Hpc. pose proof (lost_held s i) as Hheld. pose proof (lost_nonempty s Hs) as Hne.
  pose proof (lost_count s i) as Hcnt. unfold insert_next in *. destruct (pcs s i) eqn:Hp; try done; simpl in Hpc, Hheld.
  all: repeat case_match; try done; try (by still Hs); try (by inserts Hs); try (by eapply lost_act).
  - still Hs. eapply Hcnt; [done|done|lia].
  - still Hs. intros _. eapply (lost_other_bit _ _ _ SET_BIT); [done|done|lia|]. intros k Hk Hb. by rewrite set_bit_other by (done || apply bit_range).
Qed.

Lemma removed_hidden n i u s : pc_hidden n (removed i u s).
Proof using Type. unfold removed, high_next. repeat case_match; done. Qed.

Lemma high_next_hidden n byte bit : pc_hidden n (high_next byte bit).
Proof using Type. unfold high_next. by repeat case_match. Qed.

(** The first task of another list is another one. *)
Lemma lost_first s i u q two nx : lost s -> pcs s i = RemSetHead u q two nx -> q <> p -> t <> u.
Proof using Type.
  intros [[qs HI] _ Hl _ _] Hp Hq ->. pose proof (seen_mine s qs i q _ HI Hp eq_refl) as [Hs _].
  apply list.head_Some_elem_of in Hs. apply (pi_queued _ _ HI) in Hs. congruence.
Qed.

(** The effect of a removal from another list *)
Ltac removes Hs := eapply (lost_step _ _ _ _ Hs); [done|done|reflexivity|simpl; try (apply put_ne; eauto)|done|right]; do 2 eexists;
  split; [reflexivity|]; split; [done|done].

Lemma remove_lost i s :
  lost s -> (exists qs, prio_inv (remove_next i s) qs) -> high_ok (remove_next i s) -> lost (remove_next i s).
Proof using Hp0.
  intros Hs Hinv Hh. pose proof (lt_pc _ Hs i) as Hpc. pose proof (lost_held s i) as Hheld.
  unfold remove_next in *. destruct (pcs s i) eqn:Hp; try done; simpl in Hpc, Hheld.
  all: repeat case_match; try done; try (by still Hs); try (by eapply lost_act).

  all: try (by removes Hs); try (by eapply lost_act; try done; apply removed_hidden).

  - eapply (lost_step _ _ _ _ Hs); [done|done|reflexivity|simpl; apply put_ne; by eapply lost_first|done|right].
    do 2 eexists. split; [reflexivity|]. by split.
  - eapply (lost_step _ _ _ _ Hs); [done|done|reflexivity|simpl; apply put_ne; by eapply lost_first|done|right].
    do 2 eexists. split; [reflexivity|]. by split.
  - still Hs. intros _. eapply (lost_other_bit _ _ _ RESET_BIT); [done|done|lia|]. intros k Hk Hb. by apply reset_bit_false; [apply bit_range|].
Qed.

Lemma next_lost i s : lost s -> pcs s i <> Idle -> lost (next num_priorities i s).
Proof using Hp0.
  intros Hs Hidle. pose proof Hs as [[qs HI] Hh Hl Hbit _]. pose proof (next_inv num_priorities s qs i HI Hidle) as Hinv.
  pose proof (next_high_ok i s Hh) as Hh'. pose proof (insert_lost i s Hs) as Hi. pose proof (remove_lost i s Hs) as Hr.
  pose proof (lost_held s i) as Hheld. unfold next in *. destruct (pcs s i) eqn:Hp; auto.
  - assert (Hok : place_ok byte bit) by (apply (Hh i); auto). unfold high_step in *.
    repeat case_match; still Hs; try apply high_next_hidden. intros Hpos'. destruct (get_pos byte bit Hok Hpos') as [-> ->].
    rewrite check_bit_false in *; [done|apply bit_range|done].
  - still Hs.
  - simpl in Hheld. eapply (lost_step _ _ _ _ Hs); [done|done|reflexivity| |done|left; by split]. simpl. apply put_ne.
    destruct (Z.eqb_spec t0 NULL) as [->|]; [|by apply Hheld]. intros ->. rewrite (pi_null _ _ HI) in Hl. done.
Qed.

Lemma start_lost i c s :
  lost s -> pcs s i = Idle -> allowed num_priorities c s -> c <> RemoveTaskFromPriority p -> lost (start num_priorities i c s).
Proof using Hpos.
  intros Hs Hp Ha Hc. pose proof Hs as [[qs HI] Hh Hl _ _]. destruct (start_inv num_priorities s qs i c HI Hp Ha) as [qs' HI'].
  pose proof (start_high_ok i c s Hh) as Hh'. assert (Hinv : exists qs, prio_inv (start num_priorities i c s) qs) by eauto. clear HI'.
  assert (Ht : forall u, loc s u = Outside -> t <> u) by (intros u Hu ->; congruence).
  destruct c as [u q|u q|q|]; simpl in *.
  - destruct Ha as (Ho & Hn & Hok). rewrite Hok in *. destruct (Z.eqb_spec u NULL); [done|]. simpl in *.
    eapply (lost_step _ _ _ _ Hs); [done|done|reflexivity|simpl; apply put_ne; auto|done|left; by split].
  - case_match; [still Hs|]. eapply (lost_step _ _ _ _ Hs); [done|done|reflexivity|simpl; apply put_ne; auto|done|left; by split].
  - case_match; still Hs. congruence.
  - still Hs.
Qed.

(** C18. A task whose bit is lost is never run.  When no call is under way, a task is in the
    list of priority [p] and the bit of [p] is not set, then whatever the threads of the
    server do next (insert any tasks with any priorities, in [p] too, and remove with
    RemoveHighestPriorityTask), the task stays in the list and the bit is not set. *)
Theorem hidden_forever s s' :
  prio_reachable num_priorities s -> (forall i, pcs s i = Idle) -> hidden s -> server_steps s s' -> hidden s'.
Proof using Hpos Hp0.
  intros Hr Hidle [Hl Hb] Hs.
  assert (Hlost : lost s).
  { constructor; [by eapply reachable_inv|by apply reachable_high_ok|done|by apply check_bit_true; [apply bit_range|]|].
    intros i. by rewrite Hidle. }
  assert (Hlost' : lost s').
  { clear Hr Hidle Hl Hb. induction Hs as [|s s1 s2 [i Hst] Hs IH]; [done|]. apply IH.
    destruct Hst; [by apply start_lost|by apply next_lost]. }
  split; [apply Hlost'|]. apply check_bit_false; [apply bit_range|apply Hlost'].
Qed.

End Lost.

(** ** How the bit is lost *)

(** Three insertions and two removals by five threads, on list 0 of 6.  Thread 2 finds the
    bit set, then thread 1 removes the task; thread 2 takes the head lock when [count]
    is 0, so that it has only that one; it removes the next task and, before it resets
    the bit, thread 4 inserts another and sets it. *)
Definition race : list prio_move :=
  [Call 0 (InsertTask 10 0); Steps 0 30; Call 2 RemoveHighestPriorityTask; Steps 2 8;
   Call 1 RemoveHighestPriorityTask; Steps 1 40; Steps 2 2; Call 3 (InsertTask 20 0); Steps 3 30; Steps 2 8;
   Call 4 (InsertTask 30 0); Steps 4 30; Steps 2 5].

Definition after_race : prio := default (mk_prio (fun _ => task_list_init) (fun _ => 0) (fun _ => NULL) (fun _ => Idle) (fun _ => None)
  (fun _ => Outside) [] (fun _ => [])) (prio_run 6 race).

Lemma after_race_reachable : prio_reachable 6 after_race.
Proof. 
  apply (prio_run_reachable 6 race). unfold after_race. assert (He : is_Some (prio_run 6 race)) by (vm_compute; eauto).
  by destruct He as [s ->].
Qed.

Lemma after_race_idle i : pcs after_race i = Idle.
Proof. do 5 (destruct i as [|i]; [vm_compute; reflexivity|]). vm_compute. reflexivity. Qed.

Example race_result :
  rets after_race 1 = [(Remove 0, 10)] /\ rets after_race 2 = [(Remove 0, 20)] /\ rets after_race 4 = [(Insert 30 0, 0)] /\
  count (lists after_race 0) = 1 /\ bitmap after_race 0 = 0 /\
  match prio_run 6 (race ++ [Call 1 RemoveHighestPriorityTask; Steps 1 8]) with Some s => pcs s 1 = ReturnTask NULL | None => False end.
Proof. vm_compute. done. Qed.

Lemma prio_linearizable_witness :
  exists qs, legal (hist after_race) (fun _ => []) = Some qs /\ qs 0 = [30] /\ forall i, pcs after_race i <> Crash.
Proof.
  destruct (prio_linearizable 6 after_race after_race_reachable) as (qs & H1 & _ & _ & _ & H2). exists qs. split; [done|]. split; [|done].
  assert (Hq : option_map (fun f => f 0) (legal (hist after_race) (fun _ => [])) = Some [30]) by (vm_compute; done).
  rewrite H1 in Hq. by injection Hq.
Defined.

Lemma hidden_forever_witness :
  prio_reachable 6 after_race /\ hidden 0 30 after_race /\ hidden 0 30 (start 6 1 RemoveHighestPriorityTask after_race).
Proof.
  assert (Hh : hidden 0 30 after_race) by (split; vm_compute; done).
  split; [apply after_race_reachable|]. split; [done|].
  apply (hidden_forever 6 0 30 ltac:(lia) ltac:(lia) after_race); [apply after_race_reachable|apply after_race_idle|done|].
  apply rtc_once. exists 1%nat. constructor; [apply after_race_idle|done|done].
Defined.
