(* ===== verification/TaskPool.v ===== *)
(** * The pool of tasks: TPCC/Server/mm/taskpool.c

    A free list of tasks behind a spin lock.  Any number of threads get and free tasks;
    a step is one access to shared memory, or one attempt at the lock.  What a thread
    does to the fields of a task that it has in hand is one step. *)
From Stdlib Require Import String.
From S2P Require Import Prelude Words Prio PrioSteps.

(** ** Tasks *)

(** task_t; the three times are in the units of the clock. *)
Record task := mk_task {
  connection : Z; priority : Z; transaction_id : Z; arguments : string;
  t_next_queue : Z; next_free : Z; free_gc : Z; next_gc : Z;
  stats_valid : Z; stats_aborts : Z; stats_commits : Z;
  enqueue_time : Z; start_time : Z; end_time : Z }.
#[export] Instance eta_task : Eta task := fun t =>
  mk_task (connection t) (priority t) (transaction_id t) (arguments t) (t_next_queue t) (next_free t) (free_gc t) (next_gc t)
    (stats_valid t) (stats_aborts t) (stats_commits t) (enqueue_time t) (start_time t) (end_time t).

Definition init_task (next : Z) : task := mk_task (-1) (-1) (-1) "" NULL next 0 NULL 0 0 0 0 0 0.

(** The fields that GetTask and FreeTask clear *)
Definition get_clear (t : task) : task :=
  t <| t_next_queue := NULL |> <| next_free := NULL |> <| free_gc := 0 |> <| next_gc := NULL |>
    <| stats_valid := 0 |> <| stats_aborts := 0 |> <| stats_commits := 0 |>.
Definition free_clear (t : task) : task :=
  get_clear (t <| connection := -1 |> <| priority := -1 |> <| transaction_id := -1 |> <| arguments := ""%string |>).

(** ** State *)

Inductive pool_pc :=
| PIdle
| PCrash
| GetHead                         (* GetTask: load of head without the lock *)
| GetTrylock
| GetHead2                        (* load of head with the lock *)
| GetTake                         (* task = head *)
| GetNext (t : Z)                 (* load of task->next_free *)
| GetSetHead (t nx : Z)
| GetTest (t : Z)                 (* load of head *)
| GetSetTail (t : Z)              (* tail = NULL *)
| GetUnlock (t : Z)               (* NULL: there was no task *)
| GetDec (t : Z)
| GetClear (t : Z)
| GetReturn (t : Z)
| FreeClear (t : Z)               (* FreeTask *)
| FreeLock (t : Z)
| FreeTail (t : Z)                (* load of tail *)
| FreeLink (t tl : Z)             (* tail->next_free = task *)
| FreeSetTail (t : Z)
| FreeSetTail0 (t : Z)            (* head = tail = task *)
| FreeSetHead (t : Z)
| FreeUnlock (t : Z)
| FreeInc (t : Z).

(** An operation on the list is [Insert] or [Remove] of Prio.v, with priority 0.
    [taking] and [giving] are the threads whose operation the counter does not show yet. *)
Record pool := mk_pool {
  phead : Z; ptail : Z; plock : option nat; num_free_tasks : Z; tasks : Z -> task;
  ppcs : nat -> pool_pc;
  ploc : Z -> place; phist : list (nat * (op * Z)); prets : nat -> list (op * Z); taking : gset nat; giving : gset nat }.
#[export] Instance eta_pool : Eta pool := fun s =>
  mk_pool (phead s) (ptail s) (plock s) (num_free_tasks s) (tasks s) (ppcs s) (ploc s) (phist s) (prets s) (taking s) (giving s).

Definition sizeof_task : Z := 368.
Definition task_at (array i : Z) : Z := array + sizeof_task * i.

(** The tasks of the array, from the [i]th on *)
Fixpoint init_tasks (array size : Z) (n : nat) (i : Z) (ts : Z -> task) : Z -> task :=
  match n with
  | O => ts
  | S n => init_tasks array size n (i + 1)
             (put ts (task_at array i) (init_task (if i =? size - 1 then NULL else task_at array (i + 1))))
  end.

(** [array] is what malloc returns; [None]: the pool is initialised already or the size
    is not positive. *)
Definition TaskPoolInit (init : bool) (array size : Z) (ts : Z -> task) : option pool :=
  if init || (size <=? 0) then None
  else Some (mk_pool (task_at array 0) (task_at array (size - 1)) None size (init_tasks array size (Z.to_nat size) 0 ts)
               (fun _ => PIdle)
               (fun a => if decide (a ∈ map (task_at array) (seqZ 0 size)) then Queued 0 else Outside)
               [] (fun _ => []) ∅ ∅).

(** ** Steps *)

Definition pgo (i : nat) (c : pool_pc) (s : pool) : pool := s <| ppcs := put (ppcs s) i c |>.
Definition peffect (i : nat) (o : op) (r : Z) (s : pool) : pool := s <| phist := phist s ++ [(i, (o, r))] |>.
Definition pmove (t : Z) (w : place) (s : pool) : pool := s <| ploc := put (ploc s) t w |>.
Definition preturn (i : nat) (o : op) (r : Z) (s : pool) : pool := s <| prets := put (prets s) i (prets s i ++ [(o, r)]) |>.
Definition upd_task (t : Z) (f : task -> task) (s : pool) : pool := s <| tasks := put (tasks s) t (f (tasks s t)) |>.

Definition get_next (i : nat) (s : pool) : pool :=
  match ppcs s i with
  | GetHead => if phead s =? NULL then pgo i (GetReturn NULL) (peffect i (Remove 0) NULL s) else pgo i GetTrylock s
  | GetTrylock => match plock s with Some _ => pgo i GetHead s | None => pgo i GetHead2 (s <| plock := Some i |>) end
  | GetHead2 => if phead s =? NULL then pgo i (GetUnlock NULL) s else pgo i GetTake s
  | GetTake => pgo i (GetNext (phead s)) s
  | GetNext t => if t =? NULL then pgo i PCrash s else pgo i (GetSetHead t (next_free (tasks s t))) s
  | GetSetHead t nx =>
      pgo i (GetTest t) (peffect i (Remove 0) t (pmove t (Held i) (s <| phead := nx |> <| taking := {[i]} ∪ taking s |>)))
  | GetTest t => pgo i (if phead s =? NULL then GetSetTail t else GetUnlock t) s
  | GetSetTail t => pgo i (GetUnlock t) (s <| ptail := NULL |>)
  | GetUnlock t => pgo i (if t =? NULL then GetHead else GetDec t) (s <| plock := None |>)
  | GetDec t => pgo i (GetClear t) (s <| num_free_tasks := num_free_tasks s - 1 |> <| taking := taking s ∖ {[i]} |>)
  | GetClear t => pgo i (GetReturn t) (upd_task t get_clear s)
  | GetReturn t => pgo i PIdle (preturn i (Remove 0) t (pmove t Outside s))
  | _ => s
  end.

Definition free_next (i : nat) (s : pool) : pool :=
  match ppcs s i with
  | FreeClear t => pgo i (FreeLock t) (upd_task t free_clear s)
  | FreeLock t => match plock s with Some _ => s | None => pgo i (FreeTail t) (s <| plock := Some i |>) end
  | FreeTail t => pgo i (if ptail s =? NULL then FreeSetTail0 t else FreeLink t (ptail s)) s
  | FreeLink t tl =>
      pgo i (FreeSetTail t) (peffect i (Insert t 0) 0 (pmove t (Queued 0)
        (upd_task tl (fun u => u <| next_free := t |>) (s <| giving := {[i]} ∪ giving s |>))))
  | FreeSetTail t => pgo i (FreeUnlock t) (s <| ptail := t |>)
  | FreeSetTail0 t => pgo i (FreeSetHead t) (s <| ptail := t |>)
  | FreeSetHead t =>
      pgo i (FreeUnlock t) (peffect i (Insert t 0) 0 (pmove t (Queued 0) (s <| phead := t |> <| giving := {[i]} ∪ giving s |>)))
  | FreeUnlock t => pgo i (FreeInc t) (s <| plock := None |>)
  | FreeInc t =>
      pgo i PIdle (preturn i (Insert t 0) 0 (s <| num_free_tasks := num_free_tasks s + 1 |> <| giving := giving s ∖ {[i]} |>))
  | _ => s
  end.

Definition pool_next (i : nat) (s : pool) : pool :=
  match ppcs s i with
  | FreeClear _ | FreeLock _ | FreeTail _ | FreeLink _ _ | FreeSetTail _ | FreeSetTail0 _ | FreeSetHead _ | FreeUnlock _ | FreeInc _ =>
      free_next i s
  | _ => get_next i s
  end.

(** The calls after the initialisation, [pool.init]; FreeTask of NULL does nothing. *)
Inductive pool_call := GetTask | FreeTask (t : Z).

Definition pool_start (i : nat) (c : pool_call) (s : pool) : pool :=
  match c with
  | GetTask => pgo i GetHead s
  | FreeTask t => if t =? NULL then s else pgo i (FreeClear t) (pmove t (Held i) s)
  end.

Definition GetNumFreeTasks (s : pool) : Z := num_free_tasks s.

(** A caller frees only a task that is in its hands. *)
Inductive pool_step (i : nat) (s : pool) : pool -> Prop :=
| pl_call c : ppcs s i = PIdle -> (forall t, c = FreeTask t -> ploc s t = Outside) -> pool_step i s (pool_start i c s)
| pl_next : ppcs s i <> PIdle -> ppcs s i <> PCrash -> pool_step i s (pool_next i s).

Definition pool_steps : pool -> pool -> Prop := rtc (fun s s' => exists i, pool_step i s s').

(** The tasks that the pool starts with *)
Definition pool_tasks (array size : Z) : list Z := map (task_at array) (seqZ 0 size).

Definition pool_reachable (array size : Z) (s : pool) : Prop :=
  exists ts s0, TaskPoolInit false array size ts = Some s0 /\ pool_steps s0 s.

(** ** What a thread's place says *)

Definition locked (c : pool_pc) : bool :=
  match c with
  | GetHead2 | GetTake | GetNext _ | GetSetHead _ _ | GetTest _ | GetSetTail _ | GetUnlock _
  | FreeTail _ | FreeLink _ _ | FreeSetTail _ | FreeSetTail0 _ | FreeSetHead _ | FreeUnlock _ => true
  | _ => false
  end.

Definition some_task (t : Z) : option Z := if t =? NULL then None else Some t.

Definition pholding (c : pool_pc) : option Z :=
  match c with
  | FreeClear t | FreeLock t | FreeTail t | FreeLink t _ | FreeSetTail0 t | FreeSetHead t => Some t
  | GetTest t | GetSetTail t | GetDec t | GetClear t => Some t
  | GetUnlock t | GetReturn t => some_task t
  | _ => None
  end.

Definition ppending (c : pool_pc) : list (op * Z) :=
  match c with
  | GetTest t | GetSetTail t | GetDec t | GetClear t | GetReturn t => [(Remove 0, t)]
  | GetUnlock t => if t =? NULL then [] else [(Remove 0, t)]
  | FreeSetTail t | FreeUnlock t | FreeInc t => [(Insert t 0, 0)]
  | _ => []
  end.

Definition in_taking (c : pool_pc) : bool :=
  match c with GetTest _ | GetSetTail _ | GetDec _ => true | GetUnlock t => negb (t =? NULL) | _ => false end.
Definition in_giving (c : pool_pc) : bool := match c with FreeSetTail _ | FreeUnlock _ | FreeInc _ => true | _ => false end.

(** The task in hand has no successor. *)
Definition cleared (c : pool_pc) : option Z :=
  match c with FreeLock t | FreeTail t | FreeLink t _ | FreeSetTail0 t | FreeSetHead t => Some t | _ => None end.

(** What the thread with the lock has seen of the queue *)
Definition pseen (q : list Z) (c : pool_pc) : Prop :=
  match c with
  | GetTake => q <> []
  | GetNext t => head q = Some t
  | GetSetHead t nx => head q = Some t /\ nx = default NULL (head (tail q))
  | FreeLink _ tl => list.last q = Some tl
  | FreeSetTail0 _ => q = []
  | _ => True
  end.

(** How the tail relates to the queue while a thread is at [c] *)
Definition tail_ok (q : list Z) (tl : Z) (c : pool_pc) : Prop :=
  match c with
  | GetTest _ => q <> [] -> list.last q = Some tl
  | GetSetTail _ => q = []
  | FreeSetTail t => list.last q = Some t
  | FreeSetHead t => q = [] /\ tl = t
  | _ => tl = default NULL (list.last q)
  end.

Definition pholder (o : option nat) (s : pool) : pool_pc := match o with Some i => ppcs s i | None => PIdle end.

(** ** The invariant *)

(** A set of threads after a step of thread [i] *)
Definition set_next (b b' : bool) (i : nat) (X : gset nat) : gset nat :=
  match b, b' with false, true => {[i]} ∪ X | true, false => X ∖ {[i]} | _, _ => X end.

Lemma set_next_elem b b' i X j :
  (i ∈ X <-> b = true) -> j ∈ set_next b b' i X <-> (if decide (j = i) then b' = true else j ∈ X).
Proof.
  intros Hi. unfold set_next. case_decide as Hj; subst; destruct b, b';
    rewrite ?elem_of_union, ?elem_of_difference, ?elem_of_singleton; intuition congruence.
Qed.

Lemma set_next_size b b' i X :
  (i ∈ X <-> b = true) -> Z.of_nat (size (set_next b b' i X)) = Z.of_nat (size X) + b2z b' - b2z b.
Proof.
  intros Hi. unfold set_next. destruct b, b'; simpl; try lia.
  - assert (Hs : {[i]} ⊆ X) by (apply singleton_subseteq_l; by apply Hi). pose proof (subseteq_size _ _ Hs) as Hle.
    rewrite size_difference, size_singleton in * by done. lia.
  - rewrite size_union, size_singleton by (apply disjoint_singleton_l; by rewrite Hi). lia.
Qed.

Section Pool.

Context (qs0 : Z -> list Z).

Record pool_inv (s : pool) (q : list Z) : Prop := {
  po_legal : exists qs, legal (phist s) qs0 = Some qs /\ qs 0 = q;
  po_hist i : by_thread i (phist s) = prets s i ++ ppending (ppcs s i);
  po_lock i : plock s = Some i <-> locked (ppcs s i) = true;
  po_chain : chain (fun t => next_free (tasks s t)) q (phead s);
  po_tail : tail_ok q (ptail s) (pholder (plock s) s);
  po_seen i : pseen q (ppcs s i);
  po_queued t : t ∈ q <-> ploc s t = Queued 0;
  po_nodup : NoDup q;
  po_held i t : ploc s t = Held i <-> pholding (ppcs s i) = Some t;
  po_null : ploc s NULL = Outside;
  po_clear i t : cleared (ppcs s i) = Some t -> next_free (tasks s t) = NULL;
  po_crash i : ppcs s i <> PCrash;
  po_taking i : i ∈ taking s <-> in_taking (ppcs s i) = true;
  po_giving i : i ∈ giving s <-> in_giving (ppcs s i) = true;
  po_num : num_free_tasks s = Z.of_nat (length q) + Z.of_nat (size (taking s)) - Z.of_nat (size (giving s)) }.

(** How a step changes where the tasks are *)
Inductive moved (i : nat) (l l' : Z -> place) (q q' : list Z) (h h' : option Z) : Prop :=
| m_same : l' = l -> q' = q -> h' = h -> moved i l l' q q' h h'
| m_take t : l' = put l t (Held i) -> q = t :: q' -> h = None -> h' = Some t -> moved i l l' q q' h h'
| m_come t : l' = put l t (Held i) -> q' = q -> l t = Outside -> t <> NULL -> h = None -> h' = Some t -> moved i l l' q q' h h'
| m_leave t : l' = put l t Outside -> q' = q -> h = some_task t -> h' = None -> moved i l l' q q' h h'
| m_queue t : l' = put l t (Queued 0) -> q' = q ++ [t] -> h = Some t -> h' = None -> moved i l l' q q' h h'.

Section Moved.

Context (s : pool) (q q' : list Z) (HI : pool_inv s q) (i : nat) (l' : Z -> place) (h' : option Z).
Context (Hm : moved i (ploc s) l' q q' (pholding (ppcs s i)) h').

Lemma moved_queued t : t ∈ q' <-> l' t = Queued 0.
Proof using All.
  pose proof (po_queued _ _ HI) as Hq. pose proof (po_held _ _ HI i) as Hh. pose proof (po_nodup _ _ HI) as Hnd.
  destruct Hm as [-> -> _|u -> E _ _|u -> -> Ho _ _ _|u -> -> E _|u -> -> E _]; unfold put.
  - done.
  - rewrite E in Hnd. apply list.NoDup_cons in Hnd as [Hn _]. case_decide as Hu; [subst; by split|].
    rewrite <- Hq, E, elem_of_cons. split; [by right|by intros [?|?]].
  - case_decide; [subst; rewrite Hq; split; congruence|done].
  - case_decide; [subst|done]. rewrite Hq. split; [|done]. intros Hx. unfold some_task in E. destruct (Z.eqb_spec u NULL); [subst; by rewrite (po_null _ _ HI) in Hx|].
    apply Hh in E. congruence.
  - rewrite elem_of_app, list_elem_of_singleton. case_decide; [subst; split; [done|by right]|]. rewrite Hq. split; [by intros [?|?]|by left].
Qed.

Lemma moved_nodup : NoDup q'.
Proof using All.
  pose proof (po_nodup _ _ HI) as Hnd. pose proof (po_queued _ _ HI) as Hq. pose proof (po_held _ _ HI i) as Hh.
  destruct Hm as [-> -> _|u -> E _ _|u -> -> Ho _ _ _|u -> -> E _|u -> -> E _]; try done.
  - rewrite E in Hnd. by apply list.NoDup_cons in Hnd as [_ ?].
  - apply list.NoDup_app. split; [done|]. split; [|apply NoDup_singleton]. intros t Ht ->%list_elem_of_singleton.
    apply Hq in Ht. apply Hh in E. congruence.
Qed.

Lemma moved_held j t : l' t = Held j <-> (if decide (j = i) then h' else pholding (ppcs s j)) = Some t.
Proof using All.
  pose proof (po_held _ _ HI) as Hh. pose proof (po_queued _ _ HI) as Hq. pose proof (po_null _ _ HI) as Hnull.
  assert (Hj : ploc s t = Held j <-> (if decide (j = i) then pholding (ppcs s i) else pholding (ppcs s j)) = Some t).
  { case_decide; [subst|]; apply Hh. }
  destruct Hm as [-> _ ->|u -> E E1 ->|u -> _ Ho Hn E1 ->|u -> _ E1 ->|u -> _ E1 ->]; [done|..]; unfold put;
    (destruct (decide (t = u)) as [->|Hne]; case_decide as Hji; try rewrite E1 in Hj; try (rewrite Hj; clear Hj); try (subst; split; congruence)).
  - rewrite <- Hh. assert (Hu : ploc s u = Queued 0) by (apply Hq; rewrite E; apply list_elem_of_here). rewrite Hu. split; congruence.
  - rewrite <- Hh, Ho. split; congruence.
  - rewrite <- Hh. unfold some_task in E1. destruct (Z.eqb_spec u NULL); [subst; rewrite Hnull; split; congruence|].
    apply Hh in E1. rewrite E1. split; congruence.
  - unfold some_task. destruct (Z.eqb_spec u NULL); split; congruence.
  - rewrite <- Hh. apply Hh in E1. rewrite E1. split; congruence.
Qed.

Lemma moved_null : l' NULL = Outside.
Proof using All.
  pose proof (po_null _ _ HI) as Hnull. pose proof (po_queued _ _ HI) as Hq. pose proof (po_held _ _ HI i) as Hh.
  destruct Hm as [-> _ _|u -> E _ _|u -> _ Ho Hn _ _|u -> _ E _|u -> _ E _]; try done; unfold put; case_decide as Hu; try done; subst; try done.
  - assert (Hx : ploc s NULL = Queued 0) by (apply Hq; apply list_elem_of_here). congruence.
  - apply Hh in E. congruence.
Qed.

End Moved.

Lemma pseen_unlocked q c : locked c = false -> pseen q c.
Proof using Type. by destruct c. Qed.

(** One step, with the places before and after *)
Lemma pool_inv_step s s' i c c' q q' :
  pool_inv s q -> ppcs s i = c -> ppcs s' = put (ppcs s) i c' -> c' <> PCrash ->
  (phist s' = phist s /\ q' = q /\ prets s' i ++ ppending c' = prets s i ++ ppending c \/
   exists o r, phist s' = phist s ++ [(i, (o, r))] /\ op_prio o = 0 /\ spec q o = (r, q') /\ prets s' i = prets s i /\
     ppending c = [] /\ ppending c' = [(o, r)]) ->
  (forall j, j <> i -> prets s' j = prets s j) ->
  plock s' = lock_next (locked c) (locked c') i (plock s) -> (locked c' = true -> locked c = true \/ plock s = None) ->
  (pseen q c -> pseen q' c') -> (q' <> q -> locked c = true) ->
  chain (fun t => next_free (tasks s' t)) q' (phead s') ->
  tail_ok q' (ptail s') (if locked c' then c' else if locked c then PIdle else pholder (plock s) s) ->
  moved i (ploc s) (ploc s') q q' (pholding c) (pholding c') ->
  (forall j t, j <> i -> cleared (ppcs s j) = Some t -> next_free (tasks s' t) = next_free (tasks s t)) ->
  (forall t, cleared c' = Some t -> next_free (tasks s' t) = NULL) ->
  taking s' = set_next (in_taking c) (in_taking c') i (taking s) ->
  giving s' = set_next (in_giving c) (in_giving c') i (giving s) ->
  num_free_tasks s' - Z.of_nat (length q') - b2z (in_taking c') + b2z (in_giving c') =
    num_free_tasks s - Z.of_nat (length q) - b2z (in_taking c) + b2z (in_giving c) ->
  pool_inv s' q'.
Proof using Type.
  intros HI <- Hp Hcr Hh Hr Hl Hlf Hseen Hlk Hc Ht Hm Hcl Hcl' Htk Hgv Hn.
  assert (Hlock : forall j, plock s' = Some j <-> locked (ppcs s' j) = true).
  { pose proof (po_lock _ _ HI) as H0. rewrite lock_next_after in Hl by apply H0. intros j. rewrite Hl, Hp. unfold lock_after, put.
    destruct (decide (j = i)) as [->|Hne].
    - destruct (locked c'); [done|]. destruct (locked (ppcs s i)) eqn:Hi; [done|]. rewrite H0. by rewrite Hi.
    - rewrite <- H0. destruct (locked c').
      + split; [congruence|]. intros Hj. destruct (Hlf eq_refl) as [Hi|]; [|congruence]. apply H0 in Hi. congruence.
      + destruct (locked (ppcs s i)) eqn:Hi; [|done]. apply H0 in Hi. rewrite Hi. split; [done|congruence]. }
  assert (Hholder : pholder (plock s') s' = if locked c' then c' else if locked (ppcs s i) then PIdle else pholder (plock s) s).
  { rewrite lock_next_after in Hl by apply HI. unfold pholder. rewrite Hl, Hp. unfold lock_after. destruct (locked c'); [by rewrite put_eq|].
    destruct (locked (ppcs s i)) eqn:Hi; [done|]. destruct (plock s) as [j|] eqn:Hj; [|done]. rewrite put_ne; [done|]. intros ->.
    apply (po_lock _ _ HI) in Hj. congruence. }
  assert (Hpc : forall j, ppcs s' j = if decide (j = i) then c' else ppcs s j) by (intros j; by rewrite Hp).
  constructor.
  - destruct (po_legal _ _ HI) as (qs & H1 & H2). destruct Hh as [(-> & -> & _)|(o & r & -> & Ho & Hs & _)]; [eauto|].
    eexists. rewrite (prio_legal_snoc _ _ qs i o r H1); [split; [done|]|]; rewrite Ho, H2, Hs; [apply put_eq|done].
  - intros j. rewrite Hpc. pose proof (po_hist _ _ HI j) as H0. case_decide as Hj; [subst|].
    + destruct Hh as [(-> & _ & ->)|(o & r & -> & _ & _ & -> & H1 & ->)]; [done|].
      rewrite prio_by_thread_snoc, decide_True, H0, H1, app_nil_r by done. done.
    + rewrite Hr by done. destruct Hh as [(-> & _)|(o & r & -> & _)]; [done|]. rewrite prio_by_thread_snoc, decide_False, app_nil_r by done. done.
  - done.
  - done.
  - by rewrite Hholder.
  - intros j. rewrite Hpc. case_decide as Hj; [apply Hseen, HI|]. destruct (decide (q' = q)) as [->|Hq]; [apply HI|].
    apply pseen_unlocked. apply not_true_is_false. intros Hlj. apply (po_lock _ _ HI) in Hlj. specialize (Hlk Hq). apply (po_lock _ _ HI) in Hlk. congruence.
  - by apply (moved_queued s q q' HI i (ploc s') (pholding c')).
  - by apply (moved_nodup s q q' HI i (ploc s') (pholding c')).
  - intros j t. rewrite Hpc. rewrite (moved_held s q q' HI i (ploc s') (pholding c') Hm j t). by case_decide.
  - by apply (moved_null s q q' HI i (ploc s') (pholding c')).
  - intros j t. rewrite Hpc. case_decide; [apply Hcl'|]. intros Hj. rewrite (Hcl j) by done. by apply (po_clear _ _ HI j).
  - intros j. rewrite Hpc. case_decide; [done|apply HI].
  - intros j. rewrite Hpc, Htk, set_next_elem by apply HI. case_decide; [done|apply HI].
  - intros j. rewrite Hpc, Hgv, set_next_elem by apply HI. case_decide; [done|apply HI].
  - pose proof (po_num _ _ HI). rewrite Htk, Hgv, !set_next_size by apply HI. lia.
Qed.

Lemma locked_tail s q i : pool_inv s q -> locked (ppcs s i) = true -> tail_ok q (ptail s) (ppcs s i).
Proof using Type. intros HI Hl. pose proof (po_tail _ _ HI) as Ht. apply (po_lock _ _ HI) in Hl. by rewrite Hl in Ht. Qed.

Lemma unlocked_tail s q : pool_inv s q -> plock s = None -> ptail s = default NULL (list.last q).
Proof using Type. intros HI Hl. pose proof (po_tail _ _ HI) as Ht. by rewrite Hl in Ht. Qed.

Lemma last_some (q : list Z) : q <> [] -> list.last q = Some (default NULL (list.last q)).
Proof using Type. intros Hq. apply last_is_Some in Hq as [t ->]. done. Qed.

Lemma phead_value s q : pool_inv s q -> phead s = default NULL (head q).
Proof using Type. intros HI. pose proof (po_chain _ _ HI) as Hc. destruct q; [done|by destruct Hc]. Qed.

Lemma pqueued_not_null s q t : pool_inv s q -> t ∈ q -> t <> NULL.
Proof using Type. intros HI Ht ->. apply (po_queued _ _ HI) in Ht. by rewrite (po_null _ _ HI) in Ht. Qed.

Lemma pheld_not_null s q i t : pool_inv s q -> pholding (ppcs s i) = Some t -> t <> NULL.
Proof using Type. intros HI Ht ->. apply (po_held _ _ HI) in Ht. by rewrite (po_null _ _ HI) in Ht. Qed.

Lemma phead_null s q : pool_inv s q -> phead s = NULL <-> q = [].
Proof using Type.
  intros HI. rewrite (phead_value s q HI). destruct q as [|t q]; [done|]. split; [|done]. simpl. intros ->.
  exfalso. eapply (pqueued_not_null s _ NULL HI); [apply list_elem_of_here|done].
Qed.

(** The fields of a task that a thread holds are its own. *)
Lemma held_frame s q i t x :
  pool_inv s q -> pholding (ppcs s i) = Some t ->
  (forall u, u ∈ q -> next_free (put (tasks s) t x u) = next_free (tasks s u)) /\
  (forall j u, j <> i -> cleared (ppcs s j) = Some u -> next_free (put (tasks s) t x u) = next_free (tasks s u)).
Proof using Type.
  intros HI Hh. apply (po_held _ _ HI) in Hh. split.
  - intros u Hu. rewrite put_ne; [done|]. intros ->. apply (po_queued _ _ HI) in Hu. congruence.
  - intros j u Hj Hu. rewrite put_ne; [done|]. intros ->. assert (Hj' : pholding (ppcs s j) = Some t) by (by destruct (ppcs s j)).
    apply (po_held _ _ HI) in Hj'. congruence.
Qed.

Ltac pside HI Hp :=
  intros; cbn -[put] in *; unfold some_task; repeat match goal with E : (?t =? NULL) = _ |- context [?t =? NULL] => rewrite E end;
  rewrite ?put_eq, ?put_ne by done; cbn -[put]; try done; try lia; try (by left); try (by right);
  try (left; by repeat split; rewrite ?app_nil_r); try (right; do 2 eexists; by repeat split); try (by apply m_same); try (by apply (po_chain _ _ HI));
  try (by apply (po_tail _ _ HI)); try (eapply (po_clear _ _ HI); rewrite Hp; done).

Ltac pstep_to HI Hp q1 :=
  lazymatch type of HI with
  | pool_inv ?s ?q => exists q1; eapply (pool_inv_step s _ _ _ _ q q1 HI Hp); [reflexivity|..]; pside HI Hp
  end.

Ltac pstep HI Hp := lazymatch type of HI with pool_inv ?s ?q => pstep_to HI Hp q end.

Lemma pool_get_inv s q i : pool_inv s q -> ppcs s i <> PIdle -> exists q', pool_inv (get_next i s) q'.
Proof using Type.
  intros HI Hidle. pose proof (po_seen _ _ HI i) as Hs. pose proof (locked_tail s q i HI) as Htl. pose proof (pheld_not_null s q i) as Hnn.
  pose proof (phead_value s q HI) as Hhd. pose proof (phead_null s q HI) as Hhn.
  unfold get_next. destruct (ppcs s i) eqn:Hp; try (by exists q); simpl in Hs, Htl.
  - destruct (Z.eqb_spec (phead s) NULL) as [He|He]; [|pstep HI Hp].
    apply Hhn in He as ->. pstep HI Hp.
  - destruct (plock s) eqn:Hl; pstep HI Hp. by apply unlocked_tail.
  - destruct (Z.eqb_spec (phead s) NULL) as [He|He]; pstep HI Hp. by intros ->.
  - pstep HI Hp. rewrite Hhd. by destruct q.
  - assert (Hn : t <> NULL) by (apply (pqueued_not_null s q t HI), list.head_Some_elem_of, Hs).
    apply Z.eqb_neq in Hn as E. rewrite E. pstep HI Hp. split; [done|]. pose proof (po_chain _ _ HI) as Hc.
    destruct q as [|t' [|t2 q]]; [done|..]; simplify_eq/=; destruct Hc as [_ Hc]; [done|by destruct Hc].
  - destruct q as [|t' q]; [by destruct Hs|]. destruct Hs as [Ht Hnx]. simplify_eq/=. pstep_to HI Hp q.
    + destruct (po_chain _ _ HI) as [_ Hc]. destruct q as [|t2 q]; [done|]. destruct Hc as [E Hc]. by split.
    + intros Hq. rewrite (last_some q Hq), Htl by done. by destruct q.
    + by eapply m_take.
  - assert (Hn : t <> NULL) by (by apply (Hnn t)). apply Z.eqb_neq in Hn as E.
    destruct (Z.eqb_spec (phead s) NULL) as [He|He]; pstep HI Hp; [by apply Hhn|].
    assert (Hq : q <> []) by (by intros ->; apply He). rewrite (last_some q Hq) in Htl. by specialize (Htl eq_refl Hq) as [=].
  - assert (Hn : t <> NULL) by (by apply (Hnn t)). apply Z.eqb_neq in Hn as E. pstep HI Hp. by rewrite Htl.
  - destruct (t =? NULL) eqn:E; pstep HI Hp; by apply Htl.
  - assert (Hn : t <> NULL) by (by apply (Hnn t)). apply Z.eqb_neq in Hn as E. pstep HI Hp.
  - assert (Hn : t <> NULL) by (by apply (Hnn t)). apply Z.eqb_neq in Hn as E.
    destruct (held_frame s q i t (get_clear (tasks s t)) HI) as [Hf1 Hf2]; [by rewrite Hp|]. pstep HI Hp; [|by eapply Hf2].
    eapply chain_ext; [|apply (po_chain _ _ HI)]. done.
  - pstep HI Hp. by eapply m_leave.
Qed.

Lemma free_inv s q i : pool_inv s q -> ppcs s i <> PIdle -> exists q', pool_inv (free_next i s) q'.
Proof using Type.
  intros HI Hidle. pose proof (po_seen _ _ HI i) as Hs. pose proof (locked_tail s q i HI) as Htl. pose proof (pheld_not_null s q i) as Hnn.
  unfold free_next. destruct (ppcs s i) eqn:Hp; try (by exists q); simpl in Hs, Htl.
  - destruct (held_frame s q i t (free_clear (tasks s t)) HI) as [Hf1 Hf2]; [by rewrite Hp|]. pstep HI Hp; [|by eapply Hf2|simplify_eq; by rewrite put_eq].
    eapply chain_ext; [|apply (po_chain _ _ HI)]. done.
  - destruct (plock s) eqn:Hl; [by exists q|]. pstep HI Hp. by apply unlocked_tail.
  - pose proof (last_some q) as Hlast. specialize (Htl eq_refl). rewrite <- Htl in Hlast.
    assert (Hq : ptail s <> NULL -> q <> []) by (intros Hx ->; by rewrite Htl in Hx).
    destruct (Z.eqb_spec (ptail s) NULL) as [He|He]; pstep HI Hp; [|auto]. destruct (decide (q = [])) as [|Hne]; [done|].
    exfalso. apply (pqueued_not_null s q (ptail s) HI); [|done]. by apply list.last_Some_elem_of, Hlast.
  - assert (Htq : tl ∈ q) by (by apply list.last_Some_elem_of). apply (po_queued _ _ HI) in Htq.
    assert (Hn : next_free (tasks s t) = NULL) by (eapply (po_clear _ _ HI); by rewrite Hp).
    assert (Ht : t ∉ q). { intros Ht. apply (po_queued _ _ HI) in Ht. assert (Hh : ploc s t = Held i) by (apply (po_held _ _ HI); by rewrite Hp). congruence. }
    pstep_to HI Hp (q ++ [t]); try (by rewrite last_snoc); try (rewrite length_app; simpl; lia); try (by eapply m_queue).
    + eapply (chain_ext (put (fun u => next_free (tasks s u)) tl t)); [intros u _; unfold put; by case_decide|].
      apply chain_snoc; try done; apply HI.
    + rewrite put_ne; [done|]. intros ->. assert (Hj : pholding (ppcs s j) = Some tl) by (by destruct (ppcs s j)).
      apply (po_held _ _ HI) in Hj. congruence.
  - pstep HI Hp. by rewrite Htl.
  - pstep HI Hp.
  - destruct (Htl eq_refl) as [-> Ht]. assert (Hn : next_free (tasks s t) = NULL) by (eapply (po_clear _ _ HI); by rewrite Hp).
    pstep_to HI Hp [t]. by eapply m_queue.
  - pstep HI Hp; by apply Htl.
  - pstep HI Hp.
Qed.

Lemma pool_next_inv s q i : pool_inv s q -> ppcs s i <> PIdle -> exists q', pool_inv (pool_next i s) q'.
Proof using Type.
  intros HI Hidle. pose proof (pool_get_inv s q i HI Hidle). pose proof (free_inv s q i HI Hidle). unfold pool_next. by destruct (ppcs s i).
Qed.

Lemma pool_start_inv s q i c :
  pool_inv s q -> ppcs s i = PIdle -> (forall t, c = FreeTask t -> ploc s t = Outside) -> exists q', pool_inv (pool_start i c s) q'.
Proof using Type.
  intros HI Hp Hc. destruct c as [|t]; simpl; [pstep HI Hp|]. destruct (Z.eqb_spec t NULL) as [|Hn]; [by exists q|].
  specialize (Hc t eq_refl). pstep HI Hp. by eapply m_come.
Qed.

End Pool.

(** ** The initialisation *)

Lemma task_at_inj array i j : task_at array i = task_at array j -> i = j.
Proof. unfold task_at, sizeof_task. lia. Qed.

Lemma init_tasks_other array size n i ts u :
  (forall k, i <= k < i + Z.of_nat n -> u <> task_at array k) -> init_tasks array size n i ts u = ts u.
Proof.
  revert i ts. induction n as [|n IH]; intros i ts Hu; [done|]. simpl. rewrite IH; [apply put_ne|]; [apply Hu; lia|].
  intros k Hk. apply Hu. lia.
Qed.

Lemma init_tasks_at array size n i ts k :
  i <= k < i + Z.of_nat n ->
  init_tasks array size n i ts (task_at array k) = init_task (if k =? size - 1 then NULL else task_at array (k + 1)).
Proof.
  revert i ts. induction n as [|n IH]; intros i ts Hk; [lia|]. simpl. destruct (decide (i = k)) as [->|Hne].
  - rewrite init_tasks_other; [by rewrite put_eq|]. intros k' Hk' He. apply task_at_inj in He. lia.
  - apply IH. lia.
Qed.

Lemma init_chain array size ts k n :
  k + Z.of_nat n = size -> 0 <= k ->
  chain (fun t => next_free (init_tasks array size (Z.to_nat size) 0 ts t)) (map (task_at array) (seqZ k (Z.of_nat n)))
    (if k =? size then NULL else task_at array k).
Proof.
  revert k. induction n as [|n IH]; intros k Hk H0.
  - replace (k =? size) with true by lia. done.
  - replace (k =? size) with false by lia. rewrite seqZ_cons by lia. simpl. split; [done|].
    rewrite init_tasks_at by lia. simpl. specialize (IH (k + 1) ltac:(lia) ltac:(lia)).
    replace (Z.pred (Z.of_nat (S n))) with (Z.of_nat n) by lia. replace (k =? size - 1) with (k + 1 =? size) by lia. exact IH.
Qed.

Definition init_queues (array size : Z) : Z -> list Z := put (fun _ => []) 0 (pool_tasks array size).

Lemma pool_init_inv array size ts s :
  0 < array -> TaskPoolInit false array size ts = Some s -> pool_inv (init_queues array size) s (pool_tasks array size).
Proof.
  intros Ha Hi. unfold TaskPoolInit in Hi. simpl in Hi. destruct (Z.leb_spec size 0) as [|Hsz]; [done|]. injection Hi as <-.
  assert (Hnn : NULL ∉ pool_tasks array size).
  { intros (k & Hk & Hin)%list_elem_of_fmap. apply elem_of_seqZ in Hin. unfold task_at, sizeof_task, NULL in Hk. lia. }
  constructor; simpl; try done.
  - eexists. split; [done|]. apply put_eq.
  - pose proof (init_chain array size ts 0 (Z.to_nat size)) as Hc. rewrite Z2Nat.id in Hc by lia.
    replace (0 =? size) with false in Hc by lia. apply Hc; lia.
  - destruct (Z.to_nat size) as [|n] eqn:En; [lia|]. assert (Hs : size = Z.of_nat (S n)) by lia. unfold pool_tasks.
    rewrite Hs, seqZ_S, map_app. simpl. rewrite last_snoc. simpl. f_equal. lia.
  - intros t. unfold pool_tasks. case_decide; split; done.
  - unfold pool_tasks. apply NoDup_fmap_2; [intros x y; apply task_at_inj|apply NoDup_seqZ].
  - intros i t. case_decide; split; done.
  - by rewrite decide_False.
  - unfold pool_tasks. rewrite length_map, length_seqZ. change (size = Z.of_nat (Z.to_nat size) + Z.of_nat 0 - Z.of_nat 0). lia.
Qed.

(** ** What callers see *)

Lemma pool_reachable_inv array size s :
  0 < array -> pool_reachable array size s -> exists q, pool_inv (init_queues array size) s q.
Proof.
  intros Ha (ts & s0 & H0 & Hs). assert (Hi : exists q, pool_inv (init_queues array size) s0 q) by (eexists; by eapply pool_init_inv).
  clear H0. induction Hs as [|s s1 s2 [i Hst] Hs IH]; [done|]. apply IH. destruct Hi as [q Hi].
  destruct Hst as [c Hc Ho|Hc _]; [by eapply pool_start_inv|by eapply pool_next_inv].
Qed.

(** C16. The pool of tasks is linearizable and loses no task.  In every state that any number of
    threads reach by getting and freeing tasks, the operations that have taken effect
    are a legal history of one FIFO queue that starts with all tasks of the array (a
    GetTask that returns NULL found the queue empty at some moment of the call); each
    thread has been answered what the history says; the free list in memory is the queue;
    no NULL pointer was used; a task is in the queue, in the hands of one call, or
    outside, and only in one of these; and the counter of free tasks is the length of
    the queue but for the operations that have not counted yet. *)
Theorem pool_linearizable array size s :
  0 < array -> pool_reachable array size s ->
  exists qs, legal (phist s) (init_queues array size) = Some qs /\
    (forall i, by_thread i (phist s) = prets s i ++ ppending (ppcs s i)) /\
    chain (fun t => next_free (tasks s t)) (qs 0) (phead s) /\ NoDup (qs 0) /\
    (forall t, t ∈ qs 0 <-> ploc s t = Queued 0) /\ (forall i t, ploc s t = Held i <-> pholding (ppcs s i) = Some t) /\
    (forall i, ppcs s i <> PCrash) /\
    num_free_tasks s = Z.of_nat (length (qs 0)) + Z.of_nat (base.size (taking s)) - Z.of_nat (base.size (giving s)) /\
    (forall i, (i ∈ taking s <-> in_taking (ppcs s i) = true) /\ (i ∈ giving s <-> in_giving (ppcs s i) = true)).
Proof.
  intros Ha [q HI]%pool_reachable_inv; [|done]. destruct (po_legal _ _ _ HI) as (qs & Hl & Hq). exists qs. rewrite Hq.
  split; [done|]. split; [apply HI|]. split; [apply HI|]. split; [apply HI|]. split; [apply HI|]. split; [apply HI|]. split; [apply HI|].
  split; [apply HI|]. intros i. split; apply HI.
Qed.

(** When no call is under way, GetNumFreeTasks returns the length of the list. *)
Corollary num_free_quiescent array size s :
  0 < array -> pool_reachable array size s -> (forall i, ppcs s i = PIdle) ->
  exists q, chain (fun t => next_free (tasks s t)) q (phead s) /\ GetNumFreeTasks s = Z.of_nat (length q).
Proof.
  intros Ha [q HI]%pool_reachable_inv Hidle; [|done]. exists q. split; [apply HI|]. unfold GetNumFreeTasks. rewrite (po_num _ _ _ HI).
  assert (Ht : taking s ≡ ∅). { intros i. rewrite (po_taking _ _ _ HI), Hidle, elem_of_empty. done. }
  assert (Hg : giving s ≡ ∅). { intros i. rewrite (po_giving _ _ _ HI), Hidle, elem_of_empty. done. }
  rewrite Ht, Hg, size_empty. lia.
Qed.

(** ** Running threads *)

#[export] Instance pool_idle_dec (c : pool_pc) : Decision (c = PIdle).
Proof. destruct c; (by left) || (by right). Defined.

Inductive pool_move := PoolCall (i : nat) (c : pool_call) | PoolSteps (i n : nat).

Definition pool_do (s : option pool) (m : pool_move) : option pool :=
  match s, m with
  | Some s, PoolCall i c =>
      if bool_decide (ppcs s i = PIdle) && match c with GetTask => true | FreeTask t => bool_decide (ploc s t = Outside) end
      then Some (pool_start i c s) else None
  | Some s, PoolSteps i n => Some (Nat.iter n (pool_next i) s)
  | None, _ => None
  end.

Lemma pool_do_steps s m s' : pool_do (Some s) m = Some s' -> pool_steps s s'.
Proof.
  destruct m as [i c|i n]; simpl.
  - destruct (bool_decide_reflect (ppcs s i = PIdle)) as [Hp|]; [|done]. simpl. intros Hc. apply rtc_once. exists i.
    destruct c as [|t]; simpl in *.
    + injection Hc as <-. by apply (pl_call i s GetTask).
    + case_bool_decide; [|done]. injection Hc as <-. apply (pl_call i s (FreeTask t)); [done|]. by intros u [= ->].
  - intros [= <-]. induction n as [|n IH]; [apply rtc_refl|]. simpl. etrans; [apply IH|]. generalize (Nat.iter n (pool_next i) s). intros s1.
    destruct (ppcs s1 i) eqn:Hp; [unfold pool_next, get_next; rewrite Hp; apply rtc_refl|unfold pool_next, get_next; rewrite Hp; apply rtc_refl|..].
    all: apply rtc_once; exists i; apply pl_next; by rewrite Hp.
Qed.

Definition pool_run (array size : Z) (ms : list pool_move) : option pool :=
  foldl pool_do (TaskPoolInit false array size (fun _ => init_task NULL)) ms.

Lemma pool_run_reachable array size ms s : pool_run array size ms = Some s -> pool_reachable array size s.
Proof.
  unfold pool_run. revert s. induction ms as [|m ms IH] using rev_ind; intros s; [intros H; eexists _, s; split; [exact H|apply rtc_refl]|].
  rewrite foldl_app. simpl. destruct (foldl pool_do _ ms) as [s1|] eqn:H1; [|done]. intros H2.
  destruct (IH s1 eq_refl) as (ts' & s0 & H0 & Hs). exists ts', s0. split; [done|]. etrans; [exact Hs|by eapply pool_do_steps].
Qed.

(** Two tasks at 1000 and 1368: thread 0 gets the first and thread 1 the second, thread 2
    gets none; thread 0 frees the first. *)
Definition two_tasks : list pool_move :=
  [PoolCall 0 GetTask; PoolSteps 0 5; PoolCall 1 GetTask; PoolSteps 1 3; PoolSteps 0 20; PoolSteps 1 20;
   PoolCall 2 GetTask; PoolSteps 2 2; PoolCall 0 (FreeTask 1000); PoolSteps 0 6].

Example two_tasks_result :
  option_map (fun s => (prets s 2%nat, num_free_tasks s, size (giving s))) (pool_run 1000 2 two_tasks) = Some ([(Remove 0, NULL)], 0, 1%nat).
Proof. vm_compute. reflexivity. Qed.

Lemma two_tasks_some : exists s, pool_run 1000 2 two_tasks = Some s /\ prets s 2%nat = [(Remove 0, NULL)].
Proof.
  pose proof two_tasks_result as H. destruct (pool_run 1000 2 two_tasks) as [s|]; [|discriminate H]. exists s. split; [reflexivity|]. by injection H.
Qed.

Lemma pool_linearizable_witness :
  exists s qs, pool_run 1000 2 two_tasks = Some s /\ legal (phist s) (init_queues 1000 2) = Some qs /\ prets s 2%nat = [(Remove 0, NULL)].
Proof.
  destruct two_tasks_some as (s & E & H1).
  destruct (pool_linearizable 1000 2 s ltac:(lia) (pool_run_reachable 1000 2 two_tasks s E)) as (qs & H & _).
  exists s, qs. split; [exact E|]. split; [exact H|exact H1].
Defined.
