(* ===== verification/Float.v ===== *)
(** * Single-precision numbers

    The [float] fields of the records of the server, as the bit patterns that memory
    holds, and the operations of C on them: binary32 with rounding to nearest, by
    SpecFloat of the Standard Library.  An operation that gives a NaN gives the
    default quiet one. *)
From Stdlib Require Import SpecFloat.
From S2P Require Import Prelude Words.

Definition PREC : Z := 24.
Definition EMAX : Z := 128.

(** ** Encoding *)

Definition f32_sign (b : Z) : bool := 2 ^ 31 <=? b.
Definition f32_exp (b : Z) : Z := (b / 2 ^ 23) mod 2 ^ 8.
Definition f32_frac (b : Z) : Z := b mod 2 ^ 23.

Definition f32_of_bits (b : Z) : spec_float :=
  let s := f32_sign b in
  if f32_exp b =? 255 then (if f32_frac b =? 0 then S754_infinity s else S754_nan)
  else
    let '(m, e) := if f32_exp b =? 0 then (f32_frac b, -149) else (f32_frac b + 2 ^ 23, f32_exp b - 150) in
    match m with Zpos m => S754_finite s m e | _ => S754_zero s end.

Definition pack (s : bool) (e m : Z) : Z := (if s then 2 ^ 31 else 0) + (e mod 2 ^ 8) * 2 ^ 23 + m mod 2 ^ 23.

Definition bits_of_f32 (x : spec_float) : Z :=
  match x with
  | S754_zero s => pack s 0 0
  | S754_infinity s => pack s 255 0
  | S754_nan => pack false 255 (2 ^ 22)
  | S754_finite s m e => if Zpos m <? 2 ^ 23 then pack s 0 (Zpos m) else pack s (e + 150) (Zpos m)
  end.

(** ** Operations *)

Definition fadd (a b : Z) : Z := bits_of_f32 (SFadd PREC EMAX (f32_of_bits a) (f32_of_bits b)).
Definition fsub (a b : Z) : Z := bits_of_f32 (SFsub PREC EMAX (f32_of_bits a) (f32_of_bits b)).
Definition fmul (a b : Z) : Z := bits_of_f32 (SFmul PREC EMAX (f32_of_bits a) (f32_of_bits b)).
Definition fdiv (a b : Z) : Z := bits_of_f32 (SFdiv PREC EMAX (f32_of_bits a) (f32_of_bits b)).

(** [a == b] *)
Definition feqb (a b : Z) : bool := SFeqb (f32_of_bits a) (f32_of_bits b).

(** The conversion of an integer *)
Definition f32_of_int (n : Z) : Z := bits_of_f32 (binary_normalize PREC EMAX n 0 false).

(** The conversion to [long], toward zero, of what is in its range *)
Definition long_of_f32 (b : Z) : option Z :=
  match f32_of_bits b with
  | S754_zero _ => Some 0
  | S754_finite s m e =>
      let n := Z.shiftl (Zpos m) e in
      if n <? 2 ^ 63 then Some (if s then - n else n) else None
  | _ => None
  end.

Example f32_constants : (f32_of_int 10, f32_of_int (-10), f32_of_int 30000, f32_of_int 0) = (0x41200000, 0xc1200000, 0x46ea6000, 0).
Proof. vm_compute. reflexivity. Qed.

(** 0.1 and 0.2, and their sum rounded *)
Example f32_rounding : fadd (fdiv (f32_of_int 1) (f32_of_int 10)) (fdiv (f32_of_int 2) (f32_of_int 10)) = 0x3e99999a.
Proof. vm_compute. reflexivity. Qed.

Example f32_range : (fmul 0x7f7fffff (f32_of_int 2), fdiv 0 0, fsub 1 1) = (0x7f800000, 0x7fc00000, 0).
Proof. vm_compute. reflexivity. Qed.

(** ** Patterns *)

Definition is_f32 (b : Z) : Prop := 0 <= b < 2 ^ 32.

Lemma pack_f32 s e m : is_f32 (pack s e m).
Proof.
  unfold pack, is_f32. pose proof (Z.mod_pos_bound e (2 ^ 8)). pose proof (Z.mod_pos_bound m (2 ^ 23)). destruct s; lia.
Qed.

Lemma bits_f32 x : is_f32 (bits_of_f32 x).
Proof. destruct x as [s|s| |s m e]; cbn [bits_of_f32]; try apply pack_f32. destruct (_ <? _); apply pack_f32. Qed.

Lemma fadd_f32 a b : is_f32 (fadd a b). Proof. apply bits_f32. Qed.
Lemma fsub_f32 a b : is_f32 (fsub a b). Proof. apply bits_f32. Qed.
Lemma fmul_f32 a b : is_f32 (fmul a b). Proof. apply bits_f32. Qed.
Lemma fdiv_f32 a b : is_f32 (fdiv a b). Proof. apply bits_f32. Qed.
Lemma f32_of_int_f32 n : is_f32 (f32_of_int n). Proof. apply bits_f32. Qed.

(** Every pattern but a NaN is that of the number it encodes. *)
Lemma f32_roundtrip b : is_f32 b -> f32_of_bits b <> S754_nan -> bits_of_f32 (f32_of_bits b) = b.
Proof.
  intros Hb. unfold f32_of_bits, f32_sign, f32_exp, f32_frac.
  assert (Hd : b = (if 2 ^ 31 <=? b then 2 ^ 31 else 0) + ((b / 2 ^ 23) mod 2 ^ 8) * 2 ^ 23 + b mod 2 ^ 23).
  { unfold is_f32 in Hb. destruct (Z.leb_spec (2 ^ 31) b).
    - replace (b / 2 ^ 23) with (b / 2 ^ 23 - 256 + 1 * 2 ^ 8) at 1 by lia. rewrite Z.mod_add by lia.
      rewrite Z.mod_small by (split; [apply Z.le_add_le_sub_r, Z.div_le_lower_bound; lia|]; assert (b / 2 ^ 23 < 512) by (apply Z.div_lt_upper_bound; lia); lia).
      pose proof (Z_div_mod_eq_full b (2 ^ 23)). lia.
    - rewrite (Z.mod_small (b / 2 ^ 23)) by (split; [apply Z.div_pos; lia|apply Z.div_lt_upper_bound; lia]).
      pose proof (Z_div_mod_eq_full b (2 ^ 23)). lia. }
  pose proof (Z.mod_pos_bound (b / 2 ^ 23) (2 ^ 8) ltac:(lia)) as He. pose proof (Z.mod_pos_bound b (2 ^ 23) ltac:(lia)) as Hm.
  set (s := 2 ^ 31 <=? b) in *. set (e := (b / 2 ^ 23) mod 2 ^ 8) in *. set (m := b mod 2 ^ 23) in *.
  assert (Hp : forall e' m', e' mod 2 ^ 8 = e -> m' mod 2 ^ 23 = m -> pack s e' m' = b).
  { intros e' m' H1 H2. unfold pack. rewrite H1, H2. by rewrite Hd. }
  clearbody s e m. destruct (Z.eqb_spec e 255) as [->|Hne].
  - destruct (Z.eqb_spec m 0) as [->|]; [|done]. intros _. by apply Hp.
  - intros _. destruct (Z.eqb_spec e 0) as [->|He0].
    + destruct m as [|p|p] eqn:Em; [by apply Hp| |lia]. cbn [bits_of_f32]. rewrite (proj2 (Z.ltb_lt _ _)) by lia.
      apply Hp; [done|]. apply Z.mod_small. lia.
    + destruct (m + 2 ^ 23) as [|p|p] eqn:Ep; [lia| |lia]. cbn [bits_of_f32]. rewrite (proj2 (Z.ltb_ge _ _)) by lia.
      apply Hp; [rewrite Z.mod_small by lia; lia|]. rewrite <- Ep. replace (m + 2 ^ 23) with (m + 1 * 2 ^ 23) by lia.
      rewrite Z.mod_add by lia. apply Z.mod_small. lia.
Qed.
