(* ===== verification/Messages.v ===== *)
(** * The messages between the client and the server

    A request is a line of text of 256 bytes.  The client writes it (createInstruction of
    TPCC/Client/Client.c) with sprintf; the server takes the priority and the kind of
    the transaction from it (server_runMethod of TPCC/Server/Server.c), and the worker
    the rest (worker_runMethod), with strtok_r, strtol and strtof of the C library,
    which are modelled here as far as the program uses them: numbers in base 10.

    This is the build without NEWQUAGLIA, which is the default. *)
From Stdlib Require Import String Ascii SpecFloat.
From S2P Require Import Prelude Words Float.
Local Open Scope char_scope.
Local Open Scope Z_scope.

(** ** The C library *)

(** strtok_r with the delimiters ";": the token, and where the next call goes on *)
Fixpoint skip_delims (s : string) : string :=
  match s with
  | String ";" s => skip_delims s
  | _ => s
  end.

Fixpoint span_token (s : string) : string * string :=
  match s with
  | EmptyString => (EmptyString, EmptyString)
  | String ";" s => (EmptyString, s)
  | String c s => let '(t, rest) := span_token s in (String c t, rest)
  end.

Definition strtok_r (s : string) : option (string * string) :=
  match skip_delims s with
  | EmptyString => None
  | s => Some (span_token s)
  end.

Definition code_of_char (c : ascii) : Z := Z.of_nat (nat_of_ascii c).
Definition is_digit (c : ascii) : bool := (48 <=? code_of_char c) && (code_of_char c <=? 57).
Definition digit_value (c : ascii) : Z := code_of_char c - 48.
Definition is_space (c : ascii) : bool := (code_of_char c =? 32) || ((9 <=? code_of_char c) && (code_of_char c <=? 13)).

Fixpoint skip_spaces (s : string) : string :=
  match s with
  | String c s' => if is_space c then skip_spaces s' else s
  | EmptyString => s
  end.

(** The sign, and what follows it *)
Definition take_sign (s : string) : bool * string :=
  match s with
  | String "-" s => (true, s)
  | String "+" s => (false, s)
  | _ => (false, s)
  end.

(** The digits at the front, appended to those of [acc] *)
Fixpoint read_digits (s : string) (acc : Z) : Z * string :=
  match s with
  | String c s' => if is_digit c then read_digits s' (10 * acc + digit_value c) else (acc, s)
  | EmptyString => (acc, s)
  end.

Definition LONG_MIN : Z := - 2 ^ 63.
Definition LONG_MAX : Z := 2 ^ 63 - 1.

Definition strtol (s : string) : Z :=
  let '(neg, s) := take_sign (skip_spaces s) in
  let n := (read_digits s 0).1 in
  Z.max LONG_MIN (Z.min LONG_MAX (if neg : bool then - n else n)).

(** %ld *)
Definition digit_char (d : Z) : ascii := ascii_of_nat (48 + Z.to_nat d).

Fixpoint print_digits (fuel : nat) (n : Z) (acc : string) : string :=
  match fuel with
  | O => acc
  | S fuel =>
      let acc := String (digit_char (n mod 10)) acc in
      if n <? 10 then acc else print_digits fuel (n / 10) acc
  end.

Definition print_abs (n : Z) : string := print_digits (S (Z.to_nat (Z.log2 n))) n EmptyString.
Definition print_ld (n : Z) : string := if n <? 0 then String "-" (print_abs (- n)) else print_abs n.

(** ** Numbers *)

Lemma code_digit d : 0 <= d < 10 -> code_of_char (digit_char d) = 48 + d.
Proof. intros Hd. unfold code_of_char, digit_char. rewrite nat_ascii_embedding by lia. lia. Qed.

Lemma digit_is_digit d : 0 <= d < 10 -> is_digit (digit_char d) = true.
Proof. intros Hd. unfold is_digit. rewrite code_digit by done. lia. Qed.

Lemma read_print fuel n acc :
  0 <= n < 2 ^ Z.of_nat fuel -> fuel <> O -> read_digits (print_digits fuel n acc) 0 = read_digits acc n.
Proof.
  revert n acc. induction fuel as [|fuel IH]; intros n acc Hn Hne; [done|].
  pose proof (Z.mod_pos_bound n 10). cbn [print_digits]. destruct (Z.ltb_spec n 10) as [Hs|Hs].
  - cbn [read_digits]. rewrite digit_is_digit by lia. unfold digit_value. rewrite code_digit by lia. rewrite Z.mod_small by lia. f_equal. lia.
  - destruct fuel as [|fuel]; [simpl in Hn; lia|]. rewrite IH; [| |done].
    + cbn [read_digits]. rewrite digit_is_digit by lia. unfold digit_value. rewrite code_digit by lia. f_equal. pose proof (Z.div_mod n 10). lia.
    + rewrite Nat2Z.inj_succ, Z.pow_succ_r in Hn by lia. split; [apply Z.div_pos; lia|apply Z.div_lt_upper_bound; lia].
Qed.

Lemma abs_fuel n : 0 <= n -> 0 <= n < 2 ^ Z.of_nat (S (Z.to_nat (Z.log2 n))).
Proof.
  intros Hn. split; [done|]. pose proof (Z.log2_nonneg n). rewrite Nat2Z.inj_succ, Z2Nat.id by done.
  destruct (decide (n = 0)) as [->|]; [done|]. apply Z.log2_spec. lia.
Qed.

Lemma read_abs n : 0 <= n -> (read_digits (print_abs n) 0) = (n, EmptyString).
Proof. intros Hn. unfold print_abs. rewrite read_print by (try apply abs_fuel; lia). done. Qed.

(** What is printed starts with a digit and has only digits. *)
Fixpoint all_chars (f : ascii -> bool) (s : string) : bool :=
  match s with EmptyString => true | String c s => f c && all_chars f s end.

Lemma print_digits_all fuel n acc :
  0 <= n -> all_chars is_digit acc = true -> all_chars is_digit (print_digits fuel n acc) = true.
Proof.
  revert n acc. induction fuel as [|fuel IH]; intros n acc Hn Ha; [done|]. pose proof (Z.mod_pos_bound n 10). cbn [print_digits].
  assert (Hd : all_chars is_digit (String (digit_char (n mod 10)) acc) = true) by (cbn [all_chars]; by rewrite digit_is_digit, Ha by lia).
  case_bool; [done|]. apply IH; [apply Z.div_pos; lia|done].
Qed.

Lemma print_digits_length fuel n acc : (String.length acc <= String.length (print_digits fuel n acc) <= fuel + String.length acc)%nat.
Proof.
  revert n acc. induction fuel as [|fuel IH]; intros n acc; cbn [print_digits]; [lia|]. case_bool; [simpl; lia|].
  specialize (IH (n / 10) (String (digit_char (n mod 10)) acc)). simpl in IH. lia.
Qed.

Lemma print_abs_cons n : 0 <= n -> exists c s, print_abs n = String c s /\ is_digit c = true /\ all_chars is_digit s = true.
Proof.
  intros Hn. pose proof (print_digits_all (S (Z.to_nat (Z.log2 n))) n EmptyString Hn eq_refl) as Ha.
  assert (Hl : (1 <= String.length (print_abs n))%nat).
  { unfold print_abs. cbn [print_digits]. case_bool; [simpl; lia|]. etrans; [|apply print_digits_length]. simpl. lia. }
  change (all_chars is_digit (print_abs n) = true) in Ha. destruct (print_abs n) as [|c s]; [simpl in Hl; lia|].
  cbn [all_chars] in Ha. apply andb_true_iff in Ha as [Hc Ha]. eauto.
Qed.

Lemma digit_not c : is_digit c = true -> is_space c = false /\ c <> "-" /\ c <> "+" /\ c <> ";".
Proof. unfold is_digit, is_space. intros Hd. split; [lia|]. repeat split; intros ->; vm_compute in Hd; done. Qed.

Lemma take_sign_digit c s : is_digit c = true -> take_sign (String c s) = (false, String c s).
Proof.
  intros Hd. destruct (digit_not c Hd) as (_ & H1 & H2 & _). clear Hd.
  destruct c as [[] [] [] [] [] [] [] []]; try done; exfalso; (by apply H1) || (by apply H2).
Qed.

(** A number that is printed with %ld is read back by strtol. *)
Theorem strtol_print_ld n : LONG_MIN <= n <= LONG_MAX -> strtol (print_ld n) = n.
Proof.
  intros Hn. unfold strtol, print_ld. destruct (Z.ltb_spec n 0) as [Hs|Hs].
  - cbn [skip_spaces]. change (is_space "-") with false. cbn iota. cbn [take_sign]. rewrite read_abs by lia. simpl. unfold LONG_MIN, LONG_MAX in *. lia.
  - destruct (print_abs_cons n Hs) as (c & s & E & Hc & _). rewrite E. destruct (digit_not c Hc) as (Hsp & _).
    cbn [skip_spaces]. rewrite Hsp, take_sign_digit, <- E, read_abs by done. simpl. unfold LONG_MIN, LONG_MAX in *. lia.
Qed.

(** ** Fields *)

Definition not_delim (c : ascii) : bool := negb (Ascii.eqb c ";").

(** A field of a message: not empty, and without the delimiter *)
Definition field (t : string) : Prop := t <> EmptyString /\ all_chars not_delim t = true.

(** What sprintf writes for a format with ";" between the conversions *)
Fixpoint fields (l : list string) : string :=
  match l with
  | [] => EmptyString
  | [t] => t
  | t :: l => (t ++ String ";" (fields l))%string
  end.

Lemma span_delim c s : not_delim c = true -> span_token (String c s) = let '(t, rest) := span_token s in (String c t, rest).
Proof. intros Hc. destruct c as [[] [] [] [] [] [] [] []]; try done. Qed.

Lemma skip_field c s : not_delim c = true -> skip_delims (String c s) = String c s.
Proof. intros Hc. destruct c as [[] [] [] [] [] [] [] []]; try done. Qed.

Lemma append_cons c s s' : (String c s ++ s' = String c (s ++ s'))%string.
Proof. done. Qed.

Lemma span_field t rest : all_chars not_delim t = true -> span_token (t ++ String ";" rest) = (t, rest) /\ span_token t = (t, EmptyString).
Proof.
  induction t as [|c t IH]; [done|]. cbn [all_chars]. intros [Hc Ht]%andb_true_iff. destruct (IH Ht) as [H1 H2].
  rewrite append_cons, !span_delim, H1, H2 by done. done.
Qed.

Lemma strtok_fields t l : field t -> strtok_r (fields (t :: l)) = Some (t, fields l).
Proof.
  intros [Hn Ha]. destruct t as [|c t]; [done|]. assert (Hc : not_delim c = true) by (cbn [all_chars] in Ha; by apply andb_true_iff in Ha as [? _]).
  unfold strtok_r. destruct l as [|t' l]; cbn [fields].
  - rewrite skip_field by done. f_equal. by apply (span_field _ EmptyString).
  - rewrite append_cons, skip_field by done. f_equal. rewrite <- append_cons. by apply span_field.
Qed.

Lemma strtok_none : strtok_r (fields []) = None.
Proof. done. Qed.

Lemma digits_field c s : is_digit c = true -> all_chars is_digit s = true -> field (String c s).
Proof.
  intros Hc Hs. split; [done|]. assert (Hd : forall c, is_digit c = true -> not_delim c = true).
  { intros c' Hd. destruct (digit_not c' Hd) as (_ & _ & _ & Hne). unfold not_delim. by apply negb_true_iff, Ascii.eqb_neq. }
  cbn [all_chars]. rewrite Hd by done. simpl. clear Hc. induction s as [|c' s IH]; [done|]. cbn [all_chars] in *.
  apply andb_true_iff in Hs as [Hc' Hs]. by rewrite Hd, IH.
Qed.

Lemma print_field n : field (print_ld n).
Proof.
  unfold print_ld. case_bool.
  - destruct (print_abs_cons (- n)) as (c & s & -> & Hc & Hs); [lia|]. destruct (digits_field c s Hc Hs) as [_ Hf]. split; [done|].
    cbn [all_chars] in *. by rewrite Hf.
  - destruct (print_abs_cons n) as (c & s & -> & Hc & Hs); [lia|]. by apply digits_field.
Qed.

(** ** Amounts *)

(** The digits after the point, appended to [n], with their number *)
Definition read_fraction (s : string) (n : Z) : Z * Z * string :=
  match s with
  | String "." s' => let '(n', rest) := read_digits s' n in (n', Z.of_nat (String.length s') - Z.of_nat (String.length rest), rest)
  | _ => (n, 0, s)
  end.

(** The exponent of a decimal number *)
Definition read_exponent (s : string) : Z :=
  match s with
  | String "e" s | String "E" s =>
      let '(neg, s) := take_sign s in
      let n := (read_digits s 0).1 in if neg : bool then - n else n
  | _ => 0
  end.

Definition round_ratio (neg : bool) (num den : Z) : Z :=
  match num, den with
  | Zpos a, Zpos b =>
      let x := bits_of_f32 (SFdiv PREC EMAX (S754_finite false a 0) (S754_finite false b 0)) in
      if neg then x + 2 ^ 31 else x
  | _, _ => if neg then 2 ^ 31 else 0
  end.

(** The forms that strtof reads and this model does not: hexadecimal numbers, infinity
    and NaN *)
Definition special (s : string) : bool :=
  match s with
  | String "0" (String "x" _) | String "0" (String "X" _) | String "i" _ | String "I" _ | String "n" _ | String "N" _ => true
  | _ => false
  end.

(** strtof: the single-precision number nearest to the decimal one *)
Definition strtof (s : string) : option Z :=
  let '(neg, s) := take_sign (skip_spaces s) in
  if special s then None
  else
    let '(n, rest) := read_digits s 0 in
    let '(n, k, rest) := read_fraction rest n in
    let e := read_exponent rest - k in
    Some (if 0 <=? e then round_ratio neg (n * 10 ^ e) 1 else round_ratio neg n (10 ^ (- e))).

(** The quotient rounded to the nearest integer, halves to the even one *)
Definition round_half_even (a b : Z) : Z :=
  let q := a / b in
  let r := a mod b in
  if (2 * r <? b) || ((2 * r =? b) && Z.even q) then q else q + 1.

Definition six_digits (n : Z) : string :=
  String (digit_char (n / 100000 mod 10)) (String (digit_char (n / 10000 mod 10)) (String (digit_char (n / 1000 mod 10))
    (String (digit_char (n / 100 mod 10)) (String (digit_char (n / 10 mod 10)) (String (digit_char (n mod 10)) EmptyString))))).

(** %f of a number of single precision: the decimal number with six digits after the
    point nearest to it *)
Definition print_f (b : Z) : string :=
  match f32_of_bits b with
  | S754_nan => if f32_sign b then "-nan"%string else "nan"%string
  | S754_infinity s => if s then "-inf"%string else "inf"%string
  | S754_zero s => if s then "-0.000000"%string else "0.000000"%string
  | S754_finite s m e =>
      let n := if 0 <=? e then Zpos m * 2 ^ e * 10 ^ 6 else round_half_even (Zpos m * 10 ^ 6) (2 ^ (- e)) in
      ((if s then "-" else "") ++ print_abs (n / 10 ^ 6) ++ String "." (six_digits (n mod 10 ^ 6)))%string
  end.

Example strtof_values :
  map strtof ["0.1"; " -3.25e1"; "16777217"; "abc"; "1e39"; "1e-46"]%string =
  [Some 0x3dcccccd; Some 0xc2020000; Some 0x4b800000; Some 0; Some 0x7f800000; Some 0].
Proof. vm_compute. reflexivity. Qed.

Example print_f_values : (print_f 0x3dcccccd, print_f 0xc2020000, print_f 0x4b800000) = ("0.100000", "-32.500000", "16777216.000000")%string.
Proof. vm_compute. reflexivity. Qed.

(** ** The client *)

Definition MSG_LENGTH : nat := 256.

(** The line that createInstruction writes for the transaction [tx_id], which it has
    chosen with a random double; [rand] is what the calls of rand() return after that.
    [None]: it writes nothing. *)
Definition createInstruction (tx_id : Z) (rand : nat -> Z) : option string :=
  let prio := 0 in
  let id_w := 1 in
  if tx_id =? 1 then
    let id_d := Z.rem (rand 0%nat) 10 + 1 in
    let id_c := Z.rem (rand 1%nat) 3000 + 1 in
    Some (fields [print_ld prio; print_ld tx_id; print_ld id_w; print_ld id_d; print_ld id_c])
  else if tx_id =? 2 then
    let id_d := Z.rem (rand 0%nat) 10 + 1 in
    let id_c := Z.rem (rand 1%nat) 3000 + 1 in
    let app := Z.rem (rand 2%nat) 499900 + 100 in
    let h_am := f32_of_int (Z.quot app 100) in
    Some (fields [print_ld prio; print_ld tx_id; print_ld id_w; print_ld id_d; print_ld id_c; " "%string; print_f h_am])
  else if tx_id =? 3 then
    let id_d := Z.rem (rand 0%nat) 10 + 1 in
    let id_c := Z.rem (rand 1%nat) 3000 + 1 in
    Some (fields [print_ld prio; print_ld tx_id; print_ld id_w; print_ld id_d; print_ld id_c])
  else if tx_id =? 4 then
    let id_d := Z.rem (rand 0%nat) 10 + 1 in
    let tr := Z.rem (rand 1%nat) 10 + 10 in
    Some (fields [print_ld prio; print_ld tx_id; print_ld id_w; print_ld id_d; print_ld tr])
  else if tx_id =? 5 then
    let car := Z.rem (rand 0%nat) 10 + 1 in
    Some (fields [print_ld prio; print_ld tx_id; print_ld id_w; print_ld car])
  else None.

Definition zero_char : ascii := ascii_of_nat 0.

(** sendbuf: zeros, with the line at the front *)
Definition sendbuf (s : string) : list ascii :=
  String.list_ascii_of_string s ++ repeat zero_char (MSG_LENGTH - String.length s).

(** ** The server *)

(** The string at the front of a buffer; [None]: it has no end in the buffer. *)
Fixpoint c_string (l : list ascii) : option string :=
  match l with
  | [] => None
  | c :: l => if Ascii.eqb c zero_char then Some EmptyString
              else match c_string l with Some s => Some (String c s) | None => None end
  end.

(** What server_runMethod does with what it has received: it copies behind the end of
    the task's arguments, it frees the task (whose priority it may have stored before), or
    it inserts it. *)
Inductive received := Overrun | Refused (args : string) (prio : option Z) | Accepted (args : string) (prio txid : Z).

Definition clamp_priority (num_priorities prio : Z) : Z :=
  if prio <? 0 then 0 else if num_priorities <=? prio then num_priorities - 1 else prio.
Definition clamp_txid (txid : Z) : Z := if txid <? 1 then 1 else if 6 <? txid then 6 else txid.

Definition server_parse (num_priorities : Z) (recvbuf : list ascii) : received :=
  match c_string recvbuf with
  | None => Overrun
  | Some s =>
      match strtok_r s with
      | None => Refused s None
      | Some (token, saveptr) =>
          let prio := clamp_priority num_priorities (strtol token) in
          match strtok_r saveptr with
          | None => Refused s (Some prio)
          | Some (token, _) => Accepted s prio (clamp_txid (strtol token))
          end
      end
  end.

(** ** The worker *)

(** The calls of the manager *)
Inductive manager_call :=
| NEWORDER (W_ID D_ID C_ID : Z)
| PAYMENT (W_ID D_ID C_ID H_AM : Z) (c_last : string)
| ORDSTATUS (W_ID D_ID C_ID : Z)
| STOCKLEVEL (W_ID D_ID TR : Z)
| DELIVERY (W_ID CAR : Z).

(** What worker_runMethod does: it calls the manager and counts the transaction, or it
    does nothing; [Unread]: the amount is in a form outside of strtof above. *)
Inductive work := Run (c : manager_call) | Nothing | Unread.

(** The next token as a number *)
Definition next_long (s : string) (k : Z -> string -> work) : work :=
  match strtok_r s with
  | None => Nothing
  | Some (token, s) => k (strtol token) s
  end.

Definition worker_parse (arguments : string) : work :=
  match strtok_r arguments with
  | None => Nothing
  | Some (_, s) =>
      next_long s (fun id_op s =>
        if id_op =? 1 then
          next_long s (fun W_ID s => next_long s (fun D_ID s => next_long s (fun C_ID s => Run (NEWORDER W_ID D_ID C_ID))))
        else if id_op =? 2 then
          next_long s (fun W_ID s => next_long s (fun D_ID s => next_long s (fun C_ID s =>
            match strtok_r s with
            | None => Nothing
            | Some (c_last, s) =>
                match strtok_r s with
                | None => Nothing
                | Some (token, _) =>
                    match strtof token with
                    | Some H_AM => Run (PAYMENT W_ID D_ID C_ID H_AM c_last)
                    | None => Unread
                    end
                end
            end)))
        else if id_op =? 3 then
          next_long s (fun W_ID s => next_long s (fun D_ID s => next_long s (fun C_ID s => Run (ORDSTATUS W_ID D_ID C_ID))))
        else if id_op =? 4 then
          next_long s (fun W_ID s => next_long s (fun D_ID s => next_long s (fun TR s => Run (STOCKLEVEL W_ID D_ID TR))))
        else if id_op =? 5 then
          next_long s (fun W_ID s => next_long s (fun CAR s => Run (DELIVERY W_ID CAR)))
        else Nothing)
  end.

(** ** The round trip *)

Lemma c_string_sendbuf s : all_chars (fun c => negb (Ascii.eqb c zero_char)) s = true -> (String.length s < MSG_LENGTH)%nat -> c_string (sendbuf s) = Some s.
Proof.
  unfold sendbuf. intros Ha Hl. replace (MSG_LENGTH - String.length s)%nat with (S (MSG_LENGTH - String.length s - 1)) by lia. clear Hl.
  generalize (MSG_LENGTH - String.length s - 1)%nat. intros n. induction s as [|c s IH]; [done|].
  cbn [all_chars] in Ha. apply andb_true_iff in Ha as [Hc Ha]. apply negb_true_iff in Hc. cbn [String.list_ascii_of_string app c_string].
  change (String.list_ascii_of_string (String c s) ++ repeat zero_char (S n)) with (c :: (String.list_ascii_of_string s ++ repeat zero_char (S n))).
  cbn [c_string]. by rewrite Hc, IH.
Qed.

(** No byte of a field ends the line. *)
Definition plain (t : string) : Prop := field t /\ all_chars (fun c => negb (Ascii.eqb c zero_char)) t = true.

Lemma plain_digits s : all_chars is_digit s = true -> all_chars (fun c => negb (Ascii.eqb c zero_char)) s = true.
Proof.
  induction s as [|c s IH]; [done|]. cbn [all_chars]. intros [Hc Hs]%andb_true_iff. rewrite IH by done. rewrite andb_true_r.
  apply negb_true_iff, Ascii.eqb_neq. intros ->. by vm_compute in Hc.
Qed.

Lemma print_plain n : plain (print_ld n).
Proof.
  split; [apply print_field|]. unfold print_ld. case_bool.
  - destruct (print_abs_cons (- n)) as (c & s & -> & Hc & Hs); [lia|]. cbn [all_chars]. rewrite (plain_digits s Hs). apply (plain_digits (String c "")).
    cbn [all_chars]. by rewrite Hc.
  - destruct (print_abs_cons n) as (c & s & -> & Hc & Hs); [lia|]. apply plain_digits. cbn [all_chars]. by rewrite Hc.
Qed.

Lemma all_chars_app f s s' : all_chars f (s ++ s')%string = all_chars f s && all_chars f s'.
Proof. induction s as [|c s IH]; [done|]. rewrite append_cons. cbn [all_chars]. by rewrite IH, andb_assoc. Qed.

Lemma fields_plain l : Forall plain l -> all_chars (fun c => negb (Ascii.eqb c zero_char)) (fields l) = true.
Proof.
  induction 1 as [|t l Ht Hl IH]; [done|]. destruct l as [|t' l]; [apply Ht|]. cbn [fields] in *. rewrite all_chars_app.
  destruct Ht as [_ ->]. cbn [all_chars]. by rewrite IH.
Qed.

Lemma fields_length l k : Forall (fun t => (String.length t <= k)%nat) l -> (String.length (fields l) <= length l * S k)%nat.
Proof.
  assert (Happ : forall s s', String.length (s ++ s')%string = (String.length s + String.length s')%nat).
  { intros s s'. induction s as [|c s IH]; [done|]. rewrite append_cons. simpl. by rewrite IH. }
  induction 1 as [|t l Ht Hl IH]; [done|]. destruct l as [|t' l]; [simpl; lia|]. cbn [fields]. rewrite Happ. cbn [fields] in IH. simpl in *. lia.
Qed.

Lemma print_length n : 0 <= n <= 5000 -> (String.length (print_ld n) <= 14)%nat.
Proof.
  intros Hn. unfold print_ld. replace (n <? 0) with false by lia. unfold print_abs. pose proof (print_digits_length (S (Z.to_nat (Z.log2 n))) n EmptyString) as Hl.
  assert (Hlog : Z.log2 n <= 12) by (etrans; [apply (Z.log2_le_mono n 5000); lia|done]).
  pose proof (Z.log2_nonneg n). change (String.length EmptyString) with O in Hl. lia.
Qed.

(** The amounts that the client sends, one by one *)
Lemma amount_roundtrip n :
  1 <= n <= 5000 ->
  strtof (print_f (f32_of_int n)) = Some (f32_of_int n) /\ plain (print_f (f32_of_int n)) /\ (String.length (print_f (f32_of_int n)) <= 14)%nat.
Proof.
  assert (Hall : forallb (fun n => let t := print_f (f32_of_int n) in
    match strtof t with Some x => x =? f32_of_int n | None => false end && negb (String.eqb t EmptyString) && all_chars not_delim t &&
      all_chars (fun c => negb (Ascii.eqb c zero_char)) t && (String.length t <=? 14)%nat) (seqZ 1 5000) = true) by (vm_compute; reflexivity).
  intros Hn. rewrite forallb_forall in Hall. specialize (Hall n). cbv zeta in Hall.
  repeat rewrite andb_true_iff in Hall. destruct Hall as ((((H1 & H2) & H3) & H4) & H5).
  { apply list_elem_of_In, elem_of_seqZ. lia. }
  split; [|split; [split; [split|]|]]; try done.
  - destruct (strtof _); [|done]. apply Z.eqb_eq in H1. by subst.
  - apply negb_true_iff in H2. by apply String.eqb_neq in H2.
  - by apply Nat.leb_le in H5.
Qed.

Lemma blank_plain : plain " ".
Proof. done. Qed.

(** The call that the client means *)
Definition intended (tx_id : Z) (rand : nat -> Z) : manager_call :=
  let d k := Z.rem (rand k) 10 + 1 in
  if tx_id =? 1 then NEWORDER 1 (d 0%nat) (Z.rem (rand 1%nat) 3000 + 1)
  else if tx_id =? 2 then PAYMENT 1 (d 0%nat) (Z.rem (rand 1%nat) 3000 + 1) (f32_of_int (Z.quot (Z.rem (rand 2%nat) 499900 + 100) 100)) " "
  else if tx_id =? 3 then ORDSTATUS 1 (d 0%nat) (Z.rem (rand 1%nat) 3000 + 1)
  else if tx_id =? 4 then STOCKLEVEL 1 (d 0%nat) (Z.rem (rand 1%nat) 10 + 10)
  else DELIVERY 1 (d 0%nat).

(** A line with a priority and a kind, as the server reads it *)
Lemma server_parse_fields num_priorities tx l :
  0 < num_priorities -> 1 <= tx <= 6 -> Forall (fun t => plain t /\ (String.length t <= 14)%nat) l -> (length l <= 5)%nat ->
  (String.length (fields (print_ld 0 :: print_ld tx :: l)) < MSG_LENGTH)%nat /\
  server_parse num_priorities (sendbuf (fields (print_ld 0 :: print_ld tx :: l))) = Accepted (fields (print_ld 0 :: print_ld tx :: l)) 0 tx.
Proof.
  intros Hn Htx Hl H5.
  assert (Hall : Forall (fun t => plain t /\ (String.length t <= 14)%nat) (print_ld 0 :: print_ld tx :: l)).
  { do 2 (constructor; [split; [apply print_plain|apply print_length; lia]|]). done. }
  assert (Hlen : (String.length (fields (print_ld 0 :: print_ld tx :: l)) < MSG_LENGTH)%nat).
  { pose proof (fields_length (print_ld 0 :: print_ld tx :: l) 14) as Hx. unfold MSG_LENGTH. simpl length in Hx.
    eapply Nat.le_lt_trans; [apply Hx; eapply list.Forall_impl; [exact Hall|by intros ? [_ ?]]|lia]. }
  split; [done|]. unfold server_parse. rewrite c_string_sendbuf; [|apply fields_plain; eapply list.Forall_impl; [exact Hall|by intros ? [? _]]|done].
  rewrite strtok_fields by apply print_field. rewrite strtok_fields by apply print_field. rewrite !strtol_print_ld by (unfold LONG_MIN, LONG_MAX; lia).
  unfold clamp_priority, clamp_txid. f_equal; repeat case_bool; lia.
Qed.

(** A line of the client, as the server and the worker read it *)
Lemma client_message tx_id rand num_priorities msg :
  1 <= tx_id <= 5 -> (forall k, 0 <= rand k) -> 0 < num_priorities -> createInstruction tx_id rand = Some msg ->
  (String.length msg < MSG_LENGTH)%nat /\
  server_parse num_priorities (sendbuf msg) = Accepted msg 0 tx_id /\ worker_parse msg = Run (intended tx_id rand).
Proof.
  intros Htx Hr Hnum Hmsg.
  assert (Hb : forall k m, 0 < m -> 0 <= Z.rem (rand k) m < m) by (intros k m Hm; apply Z.rem_bound_pos; [apply Hr|done]).
  pose proof (Hb 0%nat 10). pose proof (Hb 1%nat 3000). pose proof (Hb 1%nat 10). pose proof (Hb 2%nat 499900).
  assert (Hp : forall n, 0 <= n <= 5000 -> plain (print_ld n) /\ (String.length (print_ld n) <= 14)%nat).
  { intros n Hn. split; [apply print_plain|by apply print_length]. }
  assert (Hq : 1 <= Z.quot (Z.rem (rand 2%nat) 499900 + 100) 100 <= 5000).
  { rewrite Z.quot_div_nonneg by lia. Z.div_mod_to_equations. lia. }
  assert (Htx' : tx_id = 1 \/ tx_id = 2 \/ tx_id = 3 \/ tx_id = 4 \/ tx_id = 5) by lia. clear Htx Hr Hb.
  revert Hmsg. unfold createInstruction, intended. cbv zeta.
  destruct Htx' as [->|[->|[->|[->| ->]]]]; cbn [Z.eqb Pos.eqb]; match goal with |- Some ?x = Some msg -> _ => intros Hm; assert (x = msg) as <- by congruence; clear Hm end.
  all: match goal with |- context [fields (print_ld 0 :: print_ld ?tx :: ?l)] =>
         destruct (server_parse_fields num_priorities tx l) as [Hlen Hsrv]; [done|done| |simpl; lia|split; [exact Hlen|split; [exact Hsrv|]]] end.
  1, 3, 5, 7, 9: repeat (constructor; [first [apply Hp; lia|by split; [apply blank_plain|simpl; lia]|split; by apply amount_roundtrip]|]); constructor.
  all: unfold worker_parse, next_long; repeat (rewrite strtok_fields by (apply print_field || apply blank_plain || by apply amount_roundtrip));
    repeat (rewrite strtol_print_ld by (unfold LONG_MIN, LONG_MAX; lia)); cbn [Z.eqb Pos.eqb]; try done.
  by rewrite (proj1 (amount_roundtrip _ Hq)).
Qed.

Lemma createInstruction_some tx_id rand : 1 <= tx_id <= 5 -> is_Some (createInstruction tx_id rand).
Proof. intros Htx. unfold createInstruction. cbv zeta. repeat case_bool; eauto; lia. Qed.

(** C17. What the client writes is what the server and the worker read.  The line for each of
    the five transactions fits into the buffer; the server takes priority 0 and the
    kind of the transaction from it and copies it whole into the task; and the worker
    calls the manager with the numbers that the client has drawn, the amount included. *)
Theorem message_roundtrip tx_id rand num_priorities :
  1 <= tx_id <= 5 -> (forall k, 0 <= rand k) -> 0 < num_priorities ->
  exists msg, createInstruction tx_id rand = Some msg /\ (String.length msg < MSG_LENGTH)%nat /\
    server_parse num_priorities (sendbuf msg) = Accepted msg 0 tx_id /\ worker_parse msg = Run (intended tx_id rand).
Proof.
  intros Htx Hr Hn. destruct (createInstruction_some tx_id rand Htx) as [msg E]. exists msg. split; [done|]. by apply client_message.
Qed.

(** Whatever is received, the priority and the kind that the server stores are in range,
    so that InsertTask takes the task. *)
Theorem server_parse_bounds num_priorities buf args prio txid :
  0 < num_priorities -> server_parse num_priorities buf = Accepted args prio txid ->
  0 <= prio < num_priorities /\ 1 <= txid <= 6.
Proof.
  intros Hn. unfold server_parse. repeat case_match; try done. intros [= <- <- <-].
  unfold clamp_priority, clamp_txid. repeat case_bool; lia.
Qed.

(** Requests that the server accepts and no worker carries out or counts *)
Example accepted_and_dropped :
  map (fun s => (server_parse 6 (sendbuf s), worker_parse s)) ["0;6;1;1;1;10;10"; "0;1;1;1"; "3;0"]%string =
  [(Accepted "0;6;1;1;1;10;10" 0 6, Nothing); (Accepted "0;1;1;1" 0 1, Nothing); (Accepted "3;0" 3 1, Nothing)].
Proof. vm_compute. reflexivity. Qed.

Example long_line : server_parse 6 (repeat "1" 256) = Overrun.
Proof. vm_compute. reflexivity. Qed.

Lemma message_roundtrip_witness :
  let rand (k : nat) := 1804289383 + Z.of_nat k in
  0 < 6 /\ exists msg, createInstruction 2 rand = Some msg /\ worker_parse msg = Run (PAYMENT 1 4 2385 (f32_of_int 1503) " ").
Proof.
  split; [lia|]. destruct (message_roundtrip 2 (fun k => 1804289383 + Z.of_nat k) 6) as (msg & H1 & _ & _ & H2); [lia|lia|lia|].
  exists msg. split; [exact H1|]. rewrite H2. vm_compute. reflexivity.
Defined.
