(* ===== verification/Server.v ===== *)
(** * The server: Server.c, stm_threadpool.c and scheduler.c

    Server threads receive requests, put each into a task of the pool and insert the
    task into the queue of its priority; workers remove tasks, run them and mark them;
    the server thread that inserted a task frees it afterwards, from a list of its own
    (gc_insert, gc_clean).

    The pool and the queues are here what TaskPool.v and PrioSteps.v show of them: an
    operation takes effect in one step, on FIFO queues ([spec] of Prio.v), and
    RemoveHighestPriorityTask may miss tasks (PrioLost.v).  A step of a thread is one of
    these operations, or one access to the flags that threads share.  Ghost components
    record which requests were accepted and which were run. *)
From Stdlib Require Import String Ascii.
From S2P Require Import Prelude Words Prio TaskPool Messages.
Local Open Scope Z_scope.

(** ** State *)

(** Where gc_clean returns to *)
Inductive cleaned := ToGet (buf : list ascii) | ToLoop | ToFinal.

(** A server thread: server_threadpool_thread, server_runMethod, gc_clean *)
Inductive server_pc :=
| SLoop                                   (* while (thread->txs) *)
| SRecv
| SGet (buf : list ascii)                 (* GetTask *)
| SInsert (buf : list ascii) (t : Z)      (* gc_insert *)
| SCopy (buf : list ascii) (t : Z)        (* strcpy *)
| SParse (buf : list ascii) (t : Z)
| SEnqueue (t : Z)                        (* InsertTask *)
| SNext                                   (* txs--, the period of gc_clean *)
| SClean (prev cur : Z) (k : cleaned)     (* at [cur], behind [prev] *)
| SFinal                                  (* while (thread->gc_head != NULL) *)
| SDone
| SCrash (t : Z).                         (* it has copied past the end of the task *)

(** [inbox]: what the calls of recv will put into the buffer; [None]: an error *)
Record server := mk_server { s_pc : server_pc; txs : Z; gc_i : Z; gc_head : Z; inbox : list (option (list ascii)) }.
#[export] Instance eta_server : Eta server := fun s => mk_server (s_pc s) (txs s) (gc_i s) (gc_head s) (inbox s).

(** A worker: worker_threadpool_thread *)
Inductive worker_pc :=
| WSchedule                               (* schedule() *)
| WRun (t : Z)                            (* worker_runMethod *)
| WValid (t : Z)                          (* task->stats_valid = 1 *)
| WFree (t : Z).                          (* task->free_gc = 1 *)

(** Where a task of the pool is *)
Inductive use := Filling | InQueue (p : Z) | Running (j : nat) | Marking (j : nat) | Finished.
Inductive splace := SOutside | SFree | STaken (i : nat) | SListed (i : nat) (u : use).

Record sys := mk_sys {
  heap : Z -> task; free : list Z; queues : Z -> list Z;
  servers : nat -> server; workers : nat -> worker_pc; txs_completed : Z; calls : list manager_call;
  sloc : Z -> splace; gc_list : nat -> list Z; accepted : list (nat * string); waiting : list (Z * (nat * string)); run : list (nat * string) }.
#[export] Instance eta_sys : Eta sys := fun s =>
  mk_sys (heap s) (free s) (queues s) (servers s) (workers s) (txs_completed s) (calls s) (sloc s) (gc_list s) (accepted s) (waiting s) (run s).

Section Server.

(** [unread]: the call for a request whose amount is of a form that [strtof] of
    Messages.v does not cover *)
Context (num_priorities : Z) (unread : string -> manager_call).

(** Defines.common.mk *)
Definition GC_PERIOD : Z := 1.

(** ** Steps of a server thread *)

Definition set_server (i : nat) (f : server -> server) (s : sys) : sys := s <| servers := put (servers s) i (f (servers s i)) |>.
Definition sgo (i : nat) (c : server_pc) (s : sys) : sys := set_server i (fun v => v <| s_pc := c |>) s.
Definition set_heap (t : Z) (f : task -> task) (s : sys) : sys := s <| heap := put (heap s) t (f (heap s t)) |>.
Definition place_task (t : Z) (w : splace) (s : sys) : sys := s <| sloc := put (sloc s) t w |>.

Definition GetTask (s : sys) : Z * sys := let '(t, q) := spec (free s) (Remove 0) in (t, s <| free := q |>).
Definition FreeTask (t : Z) (s : sys) : sys := set_heap t free_clear (s <| free := (spec (free s) (Insert t 0)).2 |>).
Definition InsertTask (t : Z) (s : sys) : sys :=
  let p := priority (heap s t) in s <| queues := put (queues s) p (spec (queues s p) (Insert t p)).2 |>.

Definition gc_insert (i : nat) (t : Z) (s : sys) : sys :=
  set_server i (fun v => v <| gc_head := t |>)
    (set_heap t (fun u => u <| next_gc := gc_head (servers s i) |>) (s <| gc_list := put (gc_list s) i (t :: gc_list s i) |>)).

(** gc_clean starts at the head of the list. *)
Definition gc_clean (i : nat) (k : cleaned) (s : sys) : sys := sgo i (SClean NULL (gc_head (servers s i)) k) s.

(** One turn of its loop; StatsUpdate only reads the task. *)
Definition clean_turn (i : nat) (prev cur : Z) (k : cleaned) (s : sys) : sys :=
  if negb (free_gc (heap s cur) =? 0) then
    let nx := next_gc (heap s cur) in
    let s' := if prev =? NULL then set_server i (fun v => v <| gc_head := nx |>) s
              else set_heap prev (fun u => u <| next_gc := nx |>) s in
    sgo i (SClean prev nx k)
      (place_task cur SFree (FreeTask cur (s' <| gc_list := put (gc_list s) i (base.filter (fun t => t <> cur) (gc_list s i)) |>)))
  else sgo i (SClean cur (next_gc (heap s cur)) k) s.

Definition return_to (k : cleaned) : server_pc :=
  match k with ToGet buf => SGet buf | ToLoop => SLoop | ToFinal => SFinal end.

(** server_runMethod *)
Definition server_runMethod (i : nat) (s : sys) : sys :=
  let v := servers s i in
  match s_pc v with
  | SRecv =>
      match inbox v with
      | [] => s
      | m :: rest =>
          set_server i (fun v => v <| inbox := rest |> <| s_pc := match m with Some buf => SGet buf | None => SNext end |>) s
      end
  | SGet buf =>
      let '(t, s') := GetTask s in
      if t =? NULL then gc_clean i (ToGet buf) s
      else sgo i (SInsert buf t) (place_task t (STaken i) (set_heap t get_clear s'))
  | SInsert buf t => sgo i (SCopy buf t) (place_task t (SListed i Filling) (gc_insert i t s))
  | SCopy buf t =>
      match c_string buf with
      | None => sgo i (SCrash t) s
      | Some a => sgo i (SParse buf t) (set_heap t (fun u => u <| arguments := a |>) s)
      end
  | SParse buf t =>
      match server_parse num_priorities buf with
      | Overrun => sgo i (SCrash t) s
      | Refused _ prio =>
          sgo i SNext (place_task t (SListed i Finished)
            (set_heap t (fun u => u <| priority := default (priority u) prio |> <| free_gc := 1 |>) s))
      | Accepted _ prio txid =>
          sgo i (SEnqueue t) (set_heap t (fun u => u <| priority := prio |> <| transaction_id := txid |>) s)
      end
  | SEnqueue t =>
      let a := arguments (heap s t) in
      sgo i SNext (place_task t (SListed i (InQueue (priority (heap s t))))
        (InsertTask t (s <| accepted := accepted s ++ [(i, a)] |> <| waiting := (t, (i, a)) :: waiting s |>)))
  | _ => s
  end.

(** server_threadpool_thread and the calls that it makes *)
Definition server_next (i : nat) (s : sys) : sys :=
  let v := servers s i in
  match s_pc v with
  | SLoop => sgo i (if txs v =? 0 then SFinal else SRecv) s
  | SRecv | SGet _ | SInsert _ _ | SCopy _ _ | SParse _ _ | SEnqueue _ => server_runMethod i s
  | SNext =>
      let s' := set_server i (fun v => v <| txs := txs v - 1 |>) s in
      if GC_PERIOD <=? gc_i v then gc_clean i ToLoop (set_server i (fun v => v <| gc_i := 1 |>) s')
      else sgo i SLoop (set_server i (fun v => v <| gc_i := gc_i v + 1 |>) s')
  | SClean prev cur k => if cur =? NULL then sgo i (return_to k) s else clean_turn i prev cur k s
  | SFinal => if gc_head v =? NULL then sgo i SDone s else gc_clean i ToFinal s
  | SDone | SCrash _ => s
  end.

(** ** Steps of a worker *)

Definition wgo (j : nat) (c : worker_pc) (s : sys) : sys := s <| workers := put (workers s) j c |>.

(** schedule() has removed [t] from the queue of [p]. *)
Definition schedule (j : nat) (t p : Z) (s : sys) : sys :=
  wgo j (WRun t) (s <| queues := put (queues s) p (spec (queues s p) (Remove p)).2 |>).

Definition call_of (a : string) : option manager_call :=
  match worker_parse a with Run c => Some c | Unread => Some (unread a) | Nothing => None end.

Definition worker_runMethod (t : Z) (s : sys) : sys :=
  match call_of (arguments (heap s t)) with
  | Some c => s <| txs_completed := txs_completed s + 1 |> <| calls := calls s ++ [c] |>
  | None => s
  end.

Definition user_of (s : sys) (t : Z) : nat := match sloc s t with SListed i _ => i | _ => O end.

Definition worker_next (j : nat) (s : sys) : sys :=
  match workers s j with
  | WSchedule => s
  | WRun t =>
      wgo j (WValid t) (place_task t (SListed (user_of s t) (Marking j))
        (worker_runMethod t (s <| waiting := base.filter (fun x => x.1 <> t) (waiting s) |> <| run := run s ++ [(user_of s t, arguments (heap s t))] |>)))
  | WValid t => wgo j (WFree t) (set_heap t (fun u => u <| stats_valid := 1 |>) s)
  | WFree t =>
      wgo j WSchedule (place_task t (SListed (user_of s t) Finished) (set_heap t (fun u => u <| free_gc := 1 |>) s))
  end.

Inductive sys_step (s : sys) : sys -> Prop :=
| ss_server i : sys_step s (server_next i s)
| ss_schedule j t p :
    workers s j = WSchedule -> (spec (queues s p) (Remove p)).1 = t -> t <> NULL ->
    sys_step s (schedule j t p (place_task t (SListed (user_of s t) (Running j)) s))
| ss_worker j : sys_step s (worker_next j s).

Definition sys_steps : sys -> sys -> Prop := rtc sys_step.

(** The threads start with the tasks of the pool free ([pool] are their addresses). *)
Definition server_init (requests : list (option (list ascii))) : server :=
  mk_server SLoop (Z.of_nat (length requests)) 1 NULL requests.

Definition sys_init (pool : list Z) (ts : Z -> task) (requests : nat -> list (option (list ascii))) : sys :=
  mk_sys ts pool (fun _ => []) (fun i => server_init (requests i)) (fun _ => WSchedule) 0 []
    (fun t => if decide (t ∈ pool) then SFree else SOutside) (fun _ => []) [] [] [].

(** ** Where the tasks are *)

Definition in_use (w : splace) : option use := match w with SListed _ u => Some u | _ => None end.
Definition lister (w : splace) : option nat := match w with SListed i _ => Some i | _ => None end.
Definition filling (c : server_pc) : option Z := match c with SCopy _ t | SParse _ t | SEnqueue t | SCrash t => Some t | _ => None end.
Definition taking (c : server_pc) : option Z := match c with SInsert _ t => Some t | _ => None end.
Definition running (c : worker_pc) : option Z := match c with WRun t => Some t | _ => None end.
Definition marking (c : worker_pc) : option Z := match c with WValid t | WFree t => Some t | _ => None end.

Record places (s : sys) : Prop := {
  pc_null : sloc s NULL = SOutside;
  pc_free t : t ∈ free s <-> sloc s t = SFree;
  pc_queue t p : t ∈ queues s p <-> in_use (sloc s t) = Some (InQueue p);
  pc_running t j : running (workers s j) = Some t <-> in_use (sloc s t) = Some (Running j);
  pc_marking t j : marking (workers s j) = Some t <-> in_use (sloc s t) = Some (Marking j);
  pc_taking t i : taking (s_pc (servers s i)) = Some t <-> sloc s t = STaken i;
  pc_filling t i : filling (s_pc (servers s i)) = Some t <-> sloc s t = SListed i Filling;
  pc_list t i : t ∈ gc_list s i <-> lister (sloc s t) = Some i;
  pc_nodup_free : NoDup (free s);
  pc_nodup_queue p : NoDup (queues s p);
  pc_nodup_list i : NoDup (gc_list s i) }.

(** A step that moves [t] to [w] *)
Lemma places_move s s' t w :
  places s -> sloc s' = put (sloc s) t w -> t <> NULL ->
  (forall u, u <> t -> u ∈ free s' <-> u ∈ free s) -> (t ∈ free s' <-> w = SFree) ->
  (forall u p, u <> t -> u ∈ queues s' p <-> u ∈ queues s p) -> (forall p, t ∈ queues s' p <-> in_use w = Some (InQueue p)) ->
  (forall u j, u <> t -> running (workers s' j) = Some u <-> running (workers s j) = Some u) ->
  (forall j, running (workers s' j) = Some t <-> in_use w = Some (Running j)) ->
  (forall u j, u <> t -> marking (workers s' j) = Some u <-> marking (workers s j) = Some u) ->
  (forall j, marking (workers s' j) = Some t <-> in_use w = Some (Marking j)) ->
  (forall u i, u <> t -> taking (s_pc (servers s' i)) = Some u <-> taking (s_pc (servers s i)) = Some u) ->
  (forall i, taking (s_pc (servers s' i)) = Some t <-> w = STaken i) ->
  (forall u i, u <> t -> filling (s_pc (servers s' i)) = Some u <-> filling (s_pc (servers s i)) = Some u) ->
  (forall i, filling (s_pc (servers s' i)) = Some t <-> w = SListed i Filling) ->
  (forall u i, u <> t -> u ∈ gc_list s' i <-> u ∈ gc_list s i) -> (forall i, t ∈ gc_list s' i <-> lister w = Some i) ->
  NoDup (free s') -> (forall p, NoDup (queues s' p)) -> (forall i, NoDup (gc_list s' i)) -> places s'.
Proof using Type.
  intros [G1 G2 G3 G4 G5 G6 G7 G8 G9 G10 G11] Hl Ht F1 F2 Q1 Q2 R1 R2 M1 M2 T1 T2 L1 L2 C1 C2 N1 N2 N3.
  constructor; try done; rewrite Hl; [by rewrite put_ne|..].
  - intros u. destruct (decide (u = t)) as [->|Hne]; [by rewrite put_eq|rewrite put_ne by done; rewrite F1 by done; apply G2].
  - intros u p. destruct (decide (u = t)) as [->|Hne]; [by rewrite put_eq|rewrite put_ne by done; rewrite Q1 by done; apply G3].
  - intros u j. destruct (decide (u = t)) as [->|Hne]; [by rewrite put_eq|rewrite put_ne by done; rewrite R1 by done; apply G4].
  - intros u j. destruct (decide (u = t)) as [->|Hne]; [by rewrite put_eq|rewrite put_ne by done; rewrite M1 by done; apply G5].
  - intros u i. destruct (decide (u = t)) as [->|Hne]; [by rewrite put_eq|rewrite put_ne by done; rewrite T1 by done; apply G6].
  - intros u i. destruct (decide (u = t)) as [->|Hne]; [by rewrite put_eq|rewrite put_ne by done; rewrite L1 by done; apply G7].
  - intros u i. destruct (decide (u = t)) as [->|Hne]; [by rewrite put_eq|rewrite put_ne by done; rewrite C1 by done; apply G8].
Qed.

(** A step that moves no task *)
Lemma places_same s s' :
  places s -> sloc s' = sloc s -> free s' = free s -> queues s' = queues s -> gc_list s' = gc_list s ->
  (forall j, running (workers s' j) = running (workers s j)) -> (forall j, marking (workers s' j) = marking (workers s j)) ->
  (forall i, taking (s_pc (servers s' i)) = taking (s_pc (servers s i))) ->
  (forall i, filling (s_pc (servers s' i)) = filling (s_pc (servers s i))) -> places s'.
Proof using Type.
  intros [G1 G2 G3 G4 G5 G6 G7 G8 G9 G10 G11] H1 H2 H3 H4 H5 H6 H7 H8.
  constructor; rewrite ?H1, ?H2, ?H3, ?H4; try done; intros; rewrite ?H5, ?H6, ?H7, ?H8; done.
Qed.

(** ** The lists of the server threads *)

Definition nexts (s : sys) (t : Z) : Z := next_gc (heap s t).

Record lists_ok (s : sys) : Prop := {
  lk_chain i : chain (nexts s) (gc_list s i) (gc_head (servers s i));
  lk_flag t u : in_use (sloc s t) = Some u -> free_gc (heap s t) <> 0 <-> u = Finished;
  lk_taken t i : sloc s t = STaken i -> free_gc (heap s t) = 0;
  lk_clean i prev cur k : s_pc (servers s i) = SClean prev cur k ->
    exists l1 l2, gc_list s i = l1 ++ l2 /\ chain (nexts s) l2 cur /\ prev = default NULL (list.last l1) }.

(** ** The requests *)

Definition is_waiting (w : splace) : bool := match w with SListed _ (InQueue _) | SListed _ (Running _) => true | _ => false end.

Record requests_ok (s : sys) : Prop := {
  rk_perm : accepted s ≡ₚ run s ++ (waiting s).*2;
  rk_args t i a : (t, (i, a)) ∈ waiting s -> arguments (heap s t) = a /\ lister (sloc s t) = Some i;
  rk_waiting t : t ∈ (waiting s).*1 <-> is_waiting (sloc s t) = true;
  rk_nodup : NoDup (waiting s).*1;
  rk_calls : calls s = omap call_of (run s).*2;
  rk_count : txs_completed s = Z.of_nat (length (calls s)) }.

Record sys_inv (s : sys) : Prop := { sy_places : places s; sy_lists : lists_ok s; sy_requests : requests_ok s }.

(** ** Steps and the lists *)

Lemma lists_step s s' i :
  lists_ok s ->
  (forall j, j <> i -> servers s' j = servers s j /\ gc_list s' j = gc_list s j) ->
  (forall j u, j <> i -> u ∈ gc_list s j -> nexts s' u = nexts s u) ->
  chain (nexts s') (gc_list s' i) (gc_head (servers s' i)) ->
  (forall prev cur k, s_pc (servers s' i) = SClean prev cur k ->
    exists l1 l2, gc_list s' i = l1 ++ l2 /\ chain (nexts s') l2 cur /\ prev = default NULL (list.last l1)) ->
  (forall t u, in_use (sloc s' t) = Some u -> free_gc (heap s' t) <> 0 <-> u = Finished) ->
  (forall t j, sloc s' t = STaken j -> free_gc (heap s' t) = 0) -> lists_ok s'.
Proof using Type.
  intros [K1 K2 K3 K4] Hj Hn Hc Hcl Hf Ht. constructor; try done.
  - intros j. destruct (decide (j = i)) as [->|Hne]; [done|]. destruct (Hj j Hne) as [-> ->].
    eapply chain_ext; [|apply K1]. intros u Hu. by apply (Hn j).
  - intros j prev cur k Hp. destruct (decide (j = i)) as [->|Hne]; [by eapply Hcl|]. destruct (Hj j Hne) as [E ->]. rewrite E in Hp.
    destruct (K4 j prev cur k Hp) as (l1 & l2 & E1 & E2 & E3). exists l1, l2. split; [done|]. split; [|done].
    eapply chain_ext; [|exact E2]. intros u Hu. apply (Hn j); [done|]. rewrite E1. apply elem_of_app. by right.
Qed.

Lemma requests_same s s' :
  requests_ok s -> accepted s' = accepted s -> run s' = run s -> waiting s' = waiting s -> calls s' = calls s ->
  txs_completed s' = txs_completed s -> (forall t, is_waiting (sloc s' t) = is_waiting (sloc s t)) ->
  (forall t, is_waiting (sloc s t) = true -> lister (sloc s' t) = lister (sloc s t)) ->
  (forall t, is_waiting (sloc s t) = true -> arguments (heap s' t) = arguments (heap s t)) -> requests_ok s'.
Proof using Type.
  intros [R1 R2 R3 R4 R5 R6] H1 H2 H3 H4 H5 H6 Hl H7. constructor; rewrite ?H1, ?H2, ?H3, ?H4, ?H5; try done.
  - intros t i a Ha. assert (Hw : is_waiting (sloc s t) = true) by (apply R3; by apply (list_elem_of_fmap_2 fst) in Ha). rewrite H7, Hl by done. by apply R2.
  - intros t. by rewrite H6.
Qed.

(** What a clean-up has passed and what is before it *)
Definition clean_ok (s : sys) (i : nat) (c : server_pc) : Prop :=
  match c with
  | SClean prev cur _ => exists l1 l2, gc_list s i = l1 ++ l2 /\ chain (nexts s) l2 cur /\ prev = default NULL (list.last l1)
  | _ => True
  end.

(** A step of a server thread that moves no task *)
Lemma server_quiet s s' i v :
  sys_inv s -> (forall j, j <> i -> servers s' j = servers s j) -> servers s' i = v -> sloc s' = sloc s -> free s' = free s -> queues s' = queues s ->
  gc_list s' = gc_list s -> workers s' = workers s -> accepted s' = accepted s -> run s' = run s -> waiting s' = waiting s ->
  calls s' = calls s -> txs_completed s' = txs_completed s -> gc_head v = gc_head (servers s i) ->
  taking (s_pc v) = taking (s_pc (servers s i)) -> filling (s_pc v) = filling (s_pc (servers s i)) -> clean_ok s i (s_pc v) ->
  (forall u, next_gc (heap s' u) = next_gc (heap s u) /\ free_gc (heap s' u) = free_gc (heap s u)) ->
  (forall u, filling (s_pc (servers s i)) <> Some u -> arguments (heap s' u) = arguments (heap s u)) -> sys_inv s'.
Proof using Type.
  intros [HP HL HR] Hs Hv H1 H2 H3 H4 H5 H6 H7 H8 H9 H10 Hh Ht Hf Hc Hn Ha. constructor.
  - apply (places_same s); try done; intros j; rewrite ?H5; try done; (destruct (decide (j = i)) as [->|Hj]; [by rewrite Hv|by rewrite Hs]).
  - pose proof HL as [K1 K2 K3 K4]. assert (Hnx : forall l h, chain (nexts s) l h -> chain (nexts s') l h).
    { intros l h. apply chain_ext. intros u _. apply Hn. }
    apply (lists_step s s' i HL).
    + intros j Hj. by rewrite Hs, H4.
    + intros j u _ _. apply Hn.
    + rewrite Hv, H4, Hh. apply Hnx, K1.
    + intros prev cur k. rewrite Hv, H4. intros E. rewrite E in Hc. destruct Hc as (l1 & l2 & E1 & E2 & E3). eauto 6.
    + intros t u. rewrite H1. destruct (Hn t) as [_ ->]. apply K2.
    + intros t j. rewrite H1. destruct (Hn t) as [_ ->]. apply K3.
  - apply (requests_same s s'); try done; [by rewrite H1|by rewrite H1|]. intros t Hw. apply Ha. intros E. apply (pc_filling _ HP) in E. by rewrite E in Hw.
Qed.

(** The step is [s'], and the thread is at [i]. *)
Ltac quiet HI Hp i :=
  lazymatch type of HI with
  | sys_inv ?s => eapply (server_quiet s _ i _ HI); [intros; cbn -[put]; rewrite ?put_ne by done; done|reflexivity|try reflexivity..]; cbn -[put];
      rewrite ?put_eq; cbn -[put]; rewrite ?Hp; try done
  end.

Lemma clean_start s i : sys_inv s -> exists l1 l2, gc_list s i = l1 ++ l2 /\ chain (nexts s) l2 (gc_head (servers s i)) /\ NULL = default NULL (list.last l1).
Proof using Type. intros [_ [K1 _ _ _] _]. exists [], (gc_list s i). done. Qed.

Lemma quiet_inv s i :
  sys_inv s ->
  match s_pc (servers s i) with SLoop | SRecv | SNext | SFinal | SDone | SCrash _ => True | _ => False end -> sys_inv (server_next i s).
Proof using Type.
  intros HI Hc. unfold server_next, server_runMethod. destruct (s_pc (servers s i)) eqn:Hp; try done; clear Hc.
  - quiet HI Hp i; by case_bool.
  - destruct (inbox (servers s i)) as [|m rest] eqn:Hi; [done|]. quiet HI Hp i; by destruct m.
  - case_bool; unfold gc_clean; quiet HI Hp i. by apply clean_start.
  - case_bool; unfold gc_clean; quiet HI Hp i. by apply clean_start.
Qed.

(** A change of one task *)
Lemma set_same {A} (f : task -> A) (h : Z -> task) t x u : f x = f (h t) -> f (put h t x u) = f (h u).
Proof using Type. intros E. unfold put. case_decide; by subst. Qed.

Lemma set_other {A} (f : task -> A) (h : Z -> task) t x u : Some t <> Some u -> f (put h t x u) = f (h u).
Proof using Type. intros E. rewrite put_ne; [done|congruence]. Qed.

Lemma fill_inv s i buf t :
  sys_inv s -> s_pc (servers s i) = SCopy buf t \/ (exists a p x, s_pc (servers s i) = SParse buf t /\ server_parse num_priorities buf = Accepted a p x) \/
    s_pc (servers s i) = SParse buf t /\ server_parse num_priorities buf = Overrun -> sys_inv (server_next i s).
Proof using Type.
  intros HI Hp. unfold server_next, server_runMethod. destruct Hp as [Hp|[(a & p & x & Hp & E)|[Hp E]]]; rewrite Hp; [destruct (c_string buf)|rewrite E..];
    quiet HI Hp i; intros u; rewrite ?(set_same next_gc), ?(set_same free_gc), ?(set_same arguments) by done; try done.
  intros Hf. by apply (set_other arguments).
Qed.

(** What [places_move] asks for: the other tasks stay, and the task is where it was, but
    for the sets of the thread's step. *)
Ltac moved HP Ht Hp :=
  intros; cbn -[put base.filter]; unfold put; repeat case_decide; subst; rewrite ?Hp; cbn -[base.filter];
  rewrite ?(pc_free _ HP), ?(pc_queue _ HP), ?(pc_running _ HP), ?(pc_marking _ HP), ?(pc_taking _ HP), ?(pc_filling _ HP), ?(pc_list _ HP), ?Ht;
  cbn -[base.filter]; first [done|split; congruence|apply HP|idtac].

(** *** A task is taken from the pool *)

Lemma server_take_inv s i buf : sys_inv s -> s_pc (servers s i) = SGet buf -> sys_inv (server_next i s).
Proof using Type.
  intros HI Hp. unfold server_next, server_runMethod. rewrite Hp. unfold GetTask. cbn [spec]. destruct (free s) as [|t q] eqn:Hf.
  - cbn -[put]. quiet HI Hp i. by apply clean_start.
  - pose proof HI as [HP HL HR]. assert (Ht : sloc s t = SFree) by (apply (pc_free _ HP); rewrite Hf; apply list_elem_of_here).
    assert (Hn : t <> NULL) by (intros ->; rewrite (pc_null _ HP) in Ht; done). destruct (Z.eqb_spec t NULL) as [|_]; [done|].
    pose proof (pc_nodup_free _ HP) as Hnd. rewrite Hf in Hnd. apply list.NoDup_cons in Hnd as [Htq Hnd].
    constructor.
    + eapply (places_move s _ t (STaken i) HP); [reflexivity|done|..]; moved HP Ht Hp.
      by rewrite <- (pc_free _ HP), Hf, elem_of_cons; split; [right|intros [?|?]].
    + pose proof HL as [K1 K2 K3 K4]. assert (Hlist : forall j, t ∉ gc_list s j) by (intros j; rewrite (pc_list _ HP), Ht; done).
      assert (Hnx : forall j u, u ∈ gc_list s j -> next_gc (put (heap s) t (get_clear (heap s t)) u) = next_gc (heap s u)).
      { intros j u Hu. rewrite put_ne; [done|]. intros ->. by apply (Hlist j). }
      eapply (lists_step s _ i HL).
      * intros j Hj. simpl. by rewrite put_ne.
      * intros j u Hj. apply Hnx.
      * simpl. rewrite put_eq. eapply chain_ext; [|apply K1]. intros u. apply Hnx.
      * simpl. by rewrite put_eq.
      * intros u x. simpl. unfold put. case_decide; [done|apply K2].
      * intros u j. simpl. unfold put. case_decide; [done|apply K3].
    + eapply (requests_same s); try done; intros u; simpl; unfold put; case_decide; subst; rewrite ?Ht; done.
Qed.

(** *** It is put into the list *)

Lemma insert_inv s i buf t : sys_inv s -> s_pc (servers s i) = SInsert buf t -> sys_inv (server_next i s).
Proof using Type.
  intros HI Hp. unfold server_next, server_runMethod. rewrite Hp. pose proof HI as [HP HL HR].
  assert (Ht : sloc s t = STaken i) by (apply (pc_taking _ HP); by rewrite Hp).
  assert (Hn : t <> NULL) by (intros ->; rewrite (pc_null _ HP) in Ht; done).
  assert (Hlist : forall j, t ∉ gc_list s j) by (intros j; rewrite (pc_list _ HP), Ht; done).
  constructor.
  - eapply (places_move s _ t (SListed i Filling) HP); [reflexivity|done|..]; moved HP Ht Hp.
    all: try (rewrite elem_of_cons, (pc_list _ HP); split; [intros [?|?]; done|by right]).
    all: try (constructor; [apply Hlist|apply HP]). split; [done|intros _; apply list_elem_of_here].
  - pose proof HL as [K1 K2 K3 K4].
    assert (Hnx : forall j u, u ∈ gc_list s j -> next_gc (put (heap s) t (heap s t <| next_gc := gc_head (servers s i) |>) u) = next_gc (heap s u)).
    { intros j u Hu. rewrite put_ne; [done|]. intros ->. by apply (Hlist j). }
    eapply (lists_step s _ i HL).
    + intros j Hj. simpl. by rewrite !put_ne.
    + intros j u Hj. apply Hnx.
    + simpl. rewrite !put_eq. split; [done|]. unfold nexts. simpl. rewrite put_eq. simpl. eapply chain_ext; [|apply K1]. intros u. apply Hnx.
    + simpl. by rewrite !put_eq.
    + intros u x. simpl. unfold put. case_decide; [subst; intros [= <-]; simpl; rewrite (K3 t i Ht); split; [done|congruence]|apply K2].
    + intros u j. simpl. unfold put. case_decide; [done|apply K3].
  - eapply (requests_same s); try done; intros u; simpl; unfold put; case_decide; subst; rewrite ?Ht; done.
Qed.

(** *** It is inserted into a queue, or refused *)

Lemma enqueue_inv s i t : sys_inv s -> s_pc (servers s i) = SEnqueue t -> sys_inv (server_next i s).
Proof using Type.
  intros HI Hp. unfold server_next, server_runMethod. rewrite Hp. pose proof HI as [HP HL HR].
  assert (Ht : sloc s t = SListed i Filling) by (apply (pc_filling _ HP); by rewrite Hp).
  assert (Hn : t <> NULL) by (intros ->; rewrite (pc_null _ HP) in Ht; done).
  assert (Hq : forall p, t ∉ queues s p) by (intros p; rewrite (pc_queue _ HP), Ht; done).
  constructor.
  - eapply (places_move s _ t (SListed i (InQueue (priority (heap s t)))) HP); [reflexivity|done|..]; moved HP Ht Hp.
    + rewrite elem_of_app, list_elem_of_singleton, (pc_queue _ HP). split; [by intros [?|?]|by left].
    + split; [done|intros _; apply elem_of_app; right; by apply list_elem_of_singleton].
    + apply list.NoDup_app. split; [apply HP|]. split; [|apply NoDup_singleton]. by intros u Hu ->%list_elem_of_singleton; apply (Hq (priority (heap s t))).
  - pose proof HL as [K1 K2 K3 K4]. eapply (lists_step s _ i HL); simpl.
    + intros j Hj. by rewrite put_ne.
    + done.
    + rewrite put_eq. apply K1.
    + by rewrite put_eq.
    + intros u x. unfold put. case_decide; [subst; intros [= <-]|apply K2]. rewrite (K2 t Filling) by (by rewrite Ht). done.
    + intros u j. unfold put. case_decide; [done|apply K3].
  - destruct HR as [R1 R2 R3 R4 R5 R6]. assert (Hw : t ∉ (waiting s).*1) by (rewrite R3, Ht; done). constructor; simpl; try done.
    + rewrite R1. solve_Permutation.
    + intros u k a [[= -> -> ->]|Hu]%elem_of_cons; [by rewrite put_eq|]. rewrite put_ne; [by apply R2|]. intros ->. by apply (list_elem_of_fmap_2 fst) in Hu.
    + intros u. rewrite elem_of_cons, R3. unfold put. case_decide; [subst; simpl; split; [done|by left]|]. split; [by intros [?|?]|by right].
    + by apply list.NoDup_cons.
Qed.

Lemma refuse_inv s i buf t a o :
  sys_inv s -> s_pc (servers s i) = SParse buf t -> server_parse num_priorities buf = Refused a o -> sys_inv (server_next i s).
Proof using Type.
  intros HI Hp E. unfold server_next, server_runMethod. rewrite Hp, E. pose proof HI as [HP HL HR].
  assert (Ht : sloc s t = SListed i Filling) by (apply (pc_filling _ HP); by rewrite Hp).
  assert (Hn : t <> NULL) by (intros ->; rewrite (pc_null _ HP) in Ht; done).
  constructor.
  - eapply (places_move s _ t (SListed i Finished) HP); [reflexivity|done|..]; moved HP Ht Hp.
  - pose proof HL as [K1 K2 K3 K4]. 
    assert (Hnx : forall u, next_gc (put (heap s) t (heap s t <| priority := default (priority (heap s t)) o |> <| free_gc := 1 |>) u) = next_gc (heap s u)) by (intros u; by apply set_same).
    eapply (lists_step s _ i HL); simpl.
    + intros j Hj. by rewrite put_ne.
    + intros j u _ _. apply Hnx.
    + rewrite put_eq. eapply chain_ext; [|apply K1]. intros u _. apply Hnx.
    + by rewrite put_eq.
    + intros u x. unfold put. case_decide; [subst; intros [= <-]; done|apply K2].
    + intros u j. unfold put. case_decide; [done|apply K3].
  - eapply (requests_same s); try done; intros u; simpl; unfold put; case_decide; subst; rewrite ?Ht; done.
Qed.

(** *** The clean-up *)

(** The list without one of its tasks *)
Lemma filter_out (l1 l2 : list Z) t :
  NoDup (l1 ++ t :: l2) -> base.filter (fun u => u <> t) (l1 ++ t :: l2) = l1 ++ l2.
Proof using Type.
  intros Hnd. apply list.NoDup_app in Hnd as (Hn1 & Hd & Hn2). apply list.NoDup_cons in Hn2 as [Hn2 _].
  assert (Hkeep : forall l : list Z, t ∉ l -> base.filter (fun u => u <> t) l = l).
  { induction l as [|u l IH]; [done|]. intros [Hu Hl]%not_elem_of_cons. rewrite list.filter_cons_True by congruence. by rewrite IH. }
  rewrite list.filter_app, list.filter_cons_False by (by intros []). rewrite (Hkeep l2) by done. rewrite Hkeep; [done|].
  intros Ht. apply (Hd t Ht). apply list_elem_of_here.
Qed.

(** A task is unlinked from a chain: [prev] is the last before it. *)
Lemma chain_unlink nx nx' l1 l2 t h :
  chain nx (l1 ++ t :: l2) h -> NoDup (l1 ++ t :: l2) ->
  (forall u, u ∈ l1 ++ l2 -> list.last l1 <> Some u -> nx' u = nx u) -> (forall u, list.last l1 = Some u -> nx' u = nx t) ->
  chain nx' (l1 ++ l2) (match l1 with [] => nx t | _ => h end) /\ chain nx' l2 (nx t).
Proof using Type.
  intros Hc Hnd Hn Hl. assert (H2 : chain nx' l2 (nx t)).
  { assert (Hc2 : chain nx l2 (nx t)).
    { clear -Hc. revert h Hc. induction l1 as [|u l1 IH]; intros h Hc; [by destruct Hc|]. destruct Hc as [_ Hc]. by eapply IH. }
    eapply chain_ext; [|exact Hc2]. intros u Hu. apply Hn; [apply elem_of_app; by right|]. intros Hlu.
    apply list.last_Some_elem_of in Hlu. apply list.NoDup_app in Hnd as (_ & Hd & _). apply (Hd u Hlu). by apply list_elem_of_further. }
  split; [|done]. destruct l1 as [|u l1]; [done|]. simpl in *. destruct Hc as [-> Hc]. split; [done|].
  revert u Hc Hnd Hn Hl. induction l1 as [|u' l1 IH]; intros u Hc Hnd Hn Hl; simpl in *.
  - by rewrite (Hl u eq_refl).
  - destruct Hc as [Hu Hc]. apply list.NoDup_cons in Hnd as [Hnu Hnd]. rewrite Hn; [|apply list_elem_of_here|].
    + split; [done|]. apply IH; try done. intros v Hv. apply Hn. by apply list_elem_of_further.
    + intros Hlu. apply Hnu. apply (elem_of_app (u' :: l1)). left. apply list.last_Some_elem_of. exact Hlu.
Qed.

Lemma places_unlink s s' i t :
  places s -> sloc s t = SListed i Finished -> t <> NULL -> sloc s' = put (sloc s) t SFree -> free s' = free s ++ [t] ->
  queues s' = queues s -> workers s' = workers s -> (forall j, taking (s_pc (servers s' j)) = taking (s_pc (servers s j))) ->
  (forall j, filling (s_pc (servers s' j)) = filling (s_pc (servers s j))) ->
  gc_list s' = put (gc_list s) i (base.filter (fun u => u <> t) (gc_list s i)) -> places s'.
Proof using Type.
  intros HP Ht Hn H1 H2 H3 H4 H5 H6 H7. assert (Hf : t ∉ free s) by (by rewrite (pc_free _ HP), Ht).
  eapply (places_move s _ t SFree HP); [done|done|..]; rewrite ?H2, ?H3, ?H4, ?H7; intros; rewrite ?H5, ?H6; moved HP Ht Hf.
  - rewrite elem_of_app, list_elem_of_singleton, (pc_free _ HP). split; [by intros [?|?]|by left].
  - split; [done|intros _]. apply elem_of_app. right. by apply list_elem_of_singleton.
  - rewrite list_elem_of_filter, (pc_list _ HP). split; [by intros []|done].
  - rewrite list_elem_of_filter. split; [by intros []|done].
  - apply list.NoDup_app. split; [apply HP|]. split; [|apply NoDup_singleton]. by intros u Hu ->%list_elem_of_singleton.
  - apply list.NoDup_filter, HP.
Qed.

Lemma lists_unlink s s' i t l1 l2 prev k :
  places s -> lists_ok s -> sloc s t = SListed i Finished -> gc_list s i = l1 ++ t :: l2 -> prev = default NULL (list.last l1) ->
  sloc s' = put (sloc s) t SFree -> gc_list s' = put (gc_list s) i (base.filter (fun u => u <> t) (gc_list s i)) ->
  (forall j, j <> i -> servers s' j = servers s j) -> s_pc (servers s' i) = SClean prev (nexts s t) k ->
  gc_head (servers s' i) = (match l1 with [] => nexts s t | _ => gc_head (servers s i) end) ->
  (forall u, u <> t -> list.last l1 <> Some u -> nexts s' u = nexts s u) ->
  (forall u, list.last l1 = Some u -> nexts s' u = nexts s t) ->
  (forall u, u <> t -> free_gc (heap s' u) = free_gc (heap s u)) -> lists_ok s'.
Proof using Type.
  intros HP HL Ht E1 E3 H1 H2 H3 H4 H5 H6 H7 H8. pose proof (pc_nodup_list _ HP i) as Hnd. rewrite E1 in Hnd.
  pose proof (filter_out l1 l2 t Hnd) as Hfil. rewrite <- E1 in Hfil.
  assert (Hmine : forall u j, j <> i -> u ∈ gc_list s j -> u <> t /\ list.last l1 <> Some u).
  { intros u j Hj Hu. apply (pc_list _ HP) in Hu. split; [intros ->; rewrite Ht in Hu; by injection Hu|]. intros El. apply list.last_Some_elem_of in El.
    assert (Hi : u ∈ gc_list s i) by (rewrite E1; apply elem_of_app; by left). apply (pc_list _ HP) in Hi. congruence. }
  destruct (chain_unlink (nexts s) (nexts s') l1 l2 t (gc_head (servers s i))) as [C1 C2]; [rewrite <- E1; apply HL|done| |done|].
  { intros u Hu Hlu. apply H6; [|done]. intros ->. apply list.NoDup_app in Hnd as (_ & Hd & Hn2). apply list.NoDup_cons in Hn2 as [Hn2 _].
    apply elem_of_app in Hu as [Hu|Hu]; [apply (Hd t Hu), list_elem_of_here|done]. }
  pose proof HL as [K1 K2 K3 K4]. eapply (lists_step s _ i HL).
  - intros j Hj. by rewrite H2, H3, put_ne.
  - intros j u Hj Hu. destruct (Hmine u j Hj Hu). by apply H6.
  - rewrite H2, put_eq, Hfil, H5. exact C1.
  - intros prev' cur' k'. rewrite H2, put_eq, Hfil, H4. intros [= <- <- _]. eauto.
  - intros u x. rewrite H1. unfold put. case_decide; [done|]. rewrite H8 by done. apply K2.
  - intros u j. rewrite H1. unfold put. case_decide; [done|]. rewrite H8 by done. apply K3.
Qed.

Lemma clean_inv s i prev cur k : sys_inv s -> s_pc (servers s i) = SClean prev cur k -> sys_inv (server_next i s).
Proof using Type.
  intros HI Hp. unfold server_next, server_runMethod. rewrite Hp. pose proof HI as [HP HL HR]. destruct (lk_clean _ HL i prev cur k Hp) as (l1 & l2 & E1 & E2 & E3).
  destruct (Z.eqb_spec cur NULL) as [->|Hn]; [quiet HI Hp i; by destruct k|].
  destruct l2 as [|t l2]; [done|]. destruct E2 as [-> E2].
  unfold clean_turn. destruct (Z.eqb_spec (free_gc (heap s t)) 0) as [Hf|Hf]; simpl negb; cbv iota.
  { quiet HI Hp i. exists (l1 ++ [t]), l2. split; [by rewrite <- app_assoc|]. split; [done|]. by rewrite last_snoc. }
  assert (Ht : sloc s t = SListed i Finished).
  { assert (Hl : t ∈ gc_list s i) by (rewrite E1; apply elem_of_app; right; apply list_elem_of_here). apply (pc_list _ HP) in Hl.
    destruct (sloc s t) as [| | |i' u] eqn:El; try done. injection Hl as ->. f_equal. by apply (lk_flag _ HL t); [rewrite El|]. }
  assert (Hnt : t <> NULL) by done.
  pose proof (pc_nodup_list _ HP i) as Hnd. rewrite E1 in Hnd. pose proof (filter_out l1 l2 t Hnd) as Hfil. rewrite <- E1 in Hfil.
  assert (Hpt : prev <> t).
  { intros ->. apply list.NoDup_app in Hnd as (_ & Hd & _). destruct (list.last l1) as [u|] eqn:El; simpl in E3; [|done].
    subst u. apply list.last_Some_elem_of in El. apply (Hd _ El), list_elem_of_here. }
  assert (Hfree : t ∉ free s) by (by rewrite (pc_free _ HP), Ht).
  assert (Hlast : forall u, list.last l1 = Some u -> u = prev) by (intros u El; by rewrite El in E3).
  destruct (Z.eqb_spec prev NULL) as [Hpr|Hpr]; constructor.
  1, 4: eapply (places_unlink s _ i t HP Ht Hnt); try reflexivity; intros j; simpl; unfold put; repeat case_decide; subst; rewrite ?Hp; done.
  2, 4: eapply (requests_same s); try done; intros u; simpl; unfold put; repeat case_decide; subst; rewrite ?Ht; done.
  - assert (l1 = []) as ->.
    { destruct (list.last l1) as [u|] eqn:El; [|by apply list.last_None in El]. exfalso. specialize (Hlast u eq_refl). subst u prev.
      apply list.last_Some_elem_of in El. assert (Hi : NULL ∈ gc_list s i) by (rewrite E1; apply elem_of_app; left; simpl in *; congruence).
      apply (pc_list _ HP) in Hi. by rewrite (pc_null _ HP) in Hi. }
    eapply (lists_unlink s _ i t [] l2 prev k HP HL Ht E1 E3); try reflexivity; unfold nexts; simpl; rewrite ?put_eq; try done.
    + intros j Hj. by rewrite !put_ne.
    + intros u Hu _. by rewrite put_ne.
    + intros u Hu. by rewrite put_ne.
  - eapply (lists_unlink s _ i t l1 l2 prev k HP HL Ht E1 E3); try reflexivity; unfold nexts; simpl; rewrite ?put_eq; try done.
    + intros j Hj. by rewrite !put_ne.
    + by destruct l1.
    + intros u Hu Hlu. rewrite !put_ne; try done. intros ->. apply Hlu. rewrite E3. destruct (list.last l1); [done|by subst prev].
    + intros u El. rewrite (Hlast u El), put_ne, put_eq by done. done.
    + intros u Hu. rewrite put_ne by done. by apply set_same.
Qed.

(** ** Steps of a worker *)

Lemma schedule_inv s j t p :
  sys_inv s -> workers s j = WSchedule -> (spec (queues s p) (Remove p)).1 = t -> t <> NULL ->
  sys_inv (schedule j t p (place_task t (SListed (user_of s t) (Running j)) s)).
Proof using Type.
  intros HI Hp Hq Hn. pose proof HI as [HP HL HR]. simpl in Hq. destruct (queues s p) as [|t' q] eqn:E; simpl in Hq; subst; [done|].
  assert (Hin : in_use (sloc s t) = Some (InQueue p)) by (apply (pc_queue _ HP); rewrite E; apply list_elem_of_here).
  destruct (sloc s t) as [| | |i u] eqn:Ht; try done. simpl in Hin. injection Hin as ->.
  assert (Hu : user_of s t = i) by (unfold user_of; by rewrite Ht). rewrite Hu.
  pose proof (pc_nodup_queue _ HP p) as Hnd. rewrite E in Hnd. apply list.NoDup_cons in Hnd as [Htq Hnd].
  assert (Hout : (spec (queues s p) (Remove p)).2 = q) by (by rewrite E).
  constructor.
  - eapply (places_move s _ t (SListed i (Running j)) HP); [reflexivity|done|..]; cbn -[put spec]; rewrite ?Hout; moved HP Ht Hp.
    rewrite <- (pc_queue _ HP), E, elem_of_cons. split; [by right|by intros [?|?]].
  - pose proof HL as [K1 K2 K3 K4]. eapply (lists_step s _ i HL); try done; simpl.
    + apply K1.
    + apply K4.
    + intros u x. unfold put. case_decide; [subst; intros [= <-]|apply K2]. rewrite (K2 t (InQueue p)) by (by rewrite Ht). done.
    + intros u k. unfold put. case_decide; [done|apply K3].
  - eapply (requests_same s); try done; intros u; simpl; unfold put; case_decide; subst; rewrite ?Ht; done.
Qed.

(** The place of a task that a worker has *)
Lemma user_place s t u : in_use (sloc s t) = Some u -> sloc s t = SListed (user_of s t) u.
Proof using Type. unfold user_of. destruct (sloc s t); try done. by intros [= ->]. Qed.

(** A worker moves the task that it has from [u] to [u']. *)
Lemma worker_places s s' j t u u' c :
  places s -> sloc s t = SListed (user_of s t) u -> sloc s' = put (sloc s) t (SListed (user_of s t) u') ->
  workers s' = put (workers s) j c -> free s' = free s -> queues s' = queues s -> gc_list s' = gc_list s ->
  (forall i, s_pc (servers s' i) = s_pc (servers s i)) ->
  (u = Running j /\ running (workers s j) = Some t \/ u = Marking j /\ marking (workers s j) = Some t) ->
  (u' = Marking j /\ marking c = Some t \/ u' = Finished /\ marking c = None) -> running c = None -> places s'.
Proof using Type.
  intros HP Ht H1 H2 H3 H4 H5 H6 Hu Hu' Hc.
  assert (Hn : t <> NULL) by (intros ->; rewrite (pc_null _ HP) in Ht; done).
  assert (Hr : forall v k, v <> t -> running (workers s' k) = Some v <-> running (workers s k) = Some v).
  { intros v k Hv. rewrite H2. unfold put. case_decide; [subst k; rewrite Hc|done]. split; [done|]. intros E.
    destruct Hu as [[_ E']|[_ E']]; [congruence|]. by destruct (workers s j). }
  assert (Hm : forall v k, v <> t -> marking (workers s' k) = Some v <-> marking (workers s k) = Some v).
  { intros v k Hv. rewrite H2. unfold put. case_decide; [subst k|done].
    transitivity False; [split; [|done]; destruct Hu' as [[_ E']|[_ E']]; congruence|]. split; [done|]. intros E.
    destruct Hu as [[_ E']|[_ E']]; [by destruct (workers s j)|congruence]. }
  assert (Hk : forall k, k <> j -> (u <> Running k /\ u <> Marking k) /\ u' <> Running k /\ u' <> Marking k).
  { intros k Hk. destruct Hu as [[-> _]|[-> _]], Hu' as [[-> _]|[-> _]]; split_and!; congruence. }
  assert (Hq : forall p, u <> InQueue p /\ u' <> InQueue p /\ u <> Filling /\ u' <> Filling).
  { intros p. destruct Hu as [[-> _]|[-> _]], Hu' as [[-> _]|[-> _]]; done. }
  eapply (places_move s s' t (SListed (user_of s t) u') HP H1 Hn); rewrite ?H3, ?H4, ?H5; intros; rewrite ?H6; try done; try apply HP; try by (apply Hr || apply Hm).
  - by rewrite (pc_free _ HP), Ht.
  - rewrite (pc_queue _ HP), Ht. simpl. destruct (Hq p) as (? & ? & _). split; congruence.
  - rewrite H2. unfold put. case_decide as E; [subst; rewrite Hc|].
    + split; [done|]. by destruct Hu' as [[-> _]|[-> _]].
    + rewrite (pc_running _ HP), Ht. simpl. destruct (Hk _ E) as [[] []]. split; congruence.
  - rewrite H2. unfold put. case_decide as E; [subst|].
    + destruct Hu' as [[-> ->]|[-> ->]]; done.
    + rewrite (pc_marking _ HP), Ht. simpl. destruct (Hk _ E) as [[] []]. split; congruence.
  - by rewrite (pc_taking _ HP), Ht.
  - rewrite (pc_filling _ HP), Ht. destruct (Hq 0) as (_ & _ & ? & ?). split; congruence.
  - by rewrite (pc_list _ HP), Ht.
Qed.

(** The lists, when a worker changes the flags of its task *)
Lemma worker_lists s s' t u u' :
  lists_ok s -> sloc s t = SListed (user_of s t) u -> sloc s' = put (sloc s) t (SListed (user_of s t) u') ->
  servers s' = servers s -> gc_list s' = gc_list s -> (forall v, next_gc (heap s' v) = next_gc (heap s v)) ->
  (forall v, v <> t -> free_gc (heap s' v) = free_gc (heap s v)) -> (free_gc (heap s' t) <> 0 <-> u' = Finished) -> lists_ok s'.
Proof using Type.
  intros HL Ht H1 H2 H3 H4 H5 H6. pose proof HL as [K1 K2 K3 K4].
  assert (Hc : forall l h, chain (nexts s) l h -> chain (nexts s') l h) by (intros l h; apply chain_ext; intros v _; apply H4).
  constructor; rewrite ?H2, ?H3.
  - intros i. apply Hc, K1.
  - intros v x. rewrite H1. unfold put. case_decide; [subst; by intros [= <-]|]. rewrite H5 by done. apply K2.
  - intros v i. rewrite H1. unfold put. case_decide; [done|]. rewrite H5 by done. apply K3.
  - intros i prev cur k E. destruct (K4 i prev cur k E) as (l1 & l2 & E1 & E2 & E3). eauto 6.
Qed.

(** The requests, when the task of one has been run *)
Lemma run_requests s t :
  requests_ok s -> is_waiting (sloc s t) = true ->
  accepted s ≡ₚ (run s ++ [(user_of s t, arguments (heap s t))]) ++ (base.filter (fun x => x.1 <> t) (waiting s)).*2 /\ NoDup (base.filter (fun x => x.1 <> t) (waiting s)).*1.
Proof using Type.
  intros [R1 R2 R3 R4 _ _] Hw. apply R3 in Hw. apply list_elem_of_fmap in Hw as ([t' [i a]] & -> & Hin). simpl in *.
  destruct (R2 _ _ _ Hin) as [-> Hi]. assert (user_of s t' = i) as -> by (unfold user_of; revert Hi; by destruct (sloc s t'); intros [=]). rewrite R1. clear R1 R2 R3. split.
  - rewrite <- app_assoc. f_equiv. induction (waiting s) as [|[t a'] l IH]; [by apply elem_of_nil in Hin|]. simpl in R4. apply list.NoDup_cons in R4 as [Hn R4].
    apply elem_of_cons in Hin as [[= <- <-]|Hin].
    + rewrite list.filter_cons_False by (by intros []). simpl. f_equiv. clear IH R4.
      induction l as [|[t a'] l IH]; [done|]. simpl in Hn. apply not_elem_of_cons in Hn as [H1 H2]. rewrite list.filter_cons_True by (simpl; congruence). simpl. f_equiv. by apply IH.
    + assert (t <> t') by (intros ->; apply Hn; by apply (list_elem_of_fmap_2 fst) in Hin). rewrite list.filter_cons_True by done. simpl.
      rewrite (IH R4 Hin). simpl. apply Permutation_swap.
  - revert R4. clear Hin. induction (waiting s) as [|[t a'] l IH]; [done|]. simpl. intros [Hn R4]%list.NoDup_cons.
    destruct (decide (t <> t')) as [E|E]; [rewrite list.filter_cons_True by done|rewrite list.filter_cons_False by done; by apply IH].
    simpl. apply list.NoDup_cons. split; [|by apply IH]. intros Hin. apply Hn. apply list_elem_of_fmap in Hin as (x & -> & Hx). apply list_elem_of_filter in Hx as [_ Hx].
    by apply list_elem_of_fmap_2.
Qed.

Lemma requests_ran s s' t u :
  requests_ok s -> is_waiting (sloc s t) = true -> sloc s' = put (sloc s) t u -> is_waiting u = false -> heap s' = heap s ->
  accepted s' = accepted s -> waiting s' = base.filter (fun x => x.1 <> t) (waiting s) -> run s' = run s ++ [(user_of s t, arguments (heap s t))] ->
  calls s' = calls s ++ option_list (call_of (arguments (heap s t))) ->
  txs_completed s' = txs_completed s + Z.of_nat (length (option_list (call_of (arguments (heap s t))))) -> requests_ok s'.
Proof using Type.
  intros HR Hw H1 Hu H2 H3 H4 H5 H6 H7. destruct (run_requests s t HR Hw) as [Hr1 Hr2]. destruct HR as [R1 R2 R3 R4 R5 R6].
  constructor; rewrite ?H1, ?H2, ?H3, ?H4, ?H5, ?H6, ?H7; try done.
  - intros v i a [Hv Hv']%list_elem_of_filter. rewrite put_ne by done. by apply R2.
  - intros v. unfold put. case_decide as Ev; [subst v; rewrite Hu; split; [|done]|rewrite <- R3].
    + intros ([v b] & -> & [Hv _]%list_elem_of_filter)%list_elem_of_fmap. done.
    + rewrite !list_elem_of_fmap. split; intros (x & -> & Hx); exists x; (split; [done|]); [by apply list_elem_of_filter in Hx as [_ ?]|by apply list_elem_of_filter].
  - rewrite R5, fmap_app, list.omap_app. simpl. by destruct (call_of _).
  - rewrite R6, length_app. lia.
Qed.

Lemma worker_inv s j : sys_inv s -> sys_inv (worker_next j s).
Proof using Type.
  intros HI. unfold worker_next. pose proof HI as [HP HL HR]. destruct (workers s j) as [|t|t|t] eqn:Hp; [done|..].
  - assert (Ht : in_use (sloc s t) = Some (Running j)) by (apply (pc_running _ HP); by rewrite Hp). apply user_place in Ht.
    unfold worker_runMethod. constructor.
    + eapply (worker_places s _ j t (Running j) (Marking j) (WValid t) HP Ht); try (by destruct (call_of _)); [left; by rewrite Hp|by left|done].
    + eapply (worker_lists s _ t (Running j) (Marking j) HL Ht); try (by destruct (call_of _)); simpl.
      pose proof (lk_flag _ HL t (Running j)) as Hk. rewrite Ht in Hk. specialize (Hk eq_refl). destruct (call_of _); simpl; by rewrite Hk.
    + eapply (requests_ran s _ t (SListed (user_of s t) (Marking j)) HR); try (by destruct (call_of _)); try (by rewrite Ht);
        cbn -[call_of]; try destruct (call_of _); simpl; rewrite ?app_nil_r; try done; lia.
  - assert (Ht : in_use (sloc s t) = Some (Marking j)) by (apply (pc_marking _ HP); by rewrite Hp).
    apply user_place in Ht. constructor.
    + eapply (places_same s); try done; intros k; simpl; unfold put; case_decide; subst; by rewrite ?Hp.
    + pose proof HL as [K1 K2 K3 K4].
      assert (Hc : forall l h, chain (nexts s) l h -> chain (nexts (wgo j (WFree t) (set_heap t (fun u => u <| stats_valid := 1 |>) s))) l h).
      { intros l h. apply chain_ext. intros v _. by apply set_same. }
      constructor; simpl; intros *.
      * apply Hc, K1.
      * rewrite (set_same free_gc) by done. apply K2.
      * rewrite (set_same free_gc) by done. apply K3.
      * intros E. destruct (K4 _ _ _ _ E) as (l1 & l2 & E1 & E2 & E3). eauto 6.
    + eapply (requests_same s); try done. intros u _. by apply set_same.
  - assert (Ht : in_use (sloc s t) = Some (Marking j)) by (apply (pc_marking _ HP); by rewrite Hp). apply user_place in Ht. constructor.
    + eapply (worker_places s _ j t (Marking j) Finished WSchedule HP Ht); try done; [right; by rewrite Hp|by right].
    + eapply (worker_lists s _ t (Marking j) Finished HL Ht); try done; simpl; intros *; [by apply set_same|by intros; rewrite put_ne|by rewrite put_eq].
    + eapply (requests_same s); try done; intros u; simpl; unfold put; case_decide; subst; rewrite ?Ht; done.
Qed.

(** ** All steps *)

Lemma server_inv s i : sys_inv s -> sys_inv (server_next i s).
Proof using Type.
  intros HI. destruct (s_pc (servers s i)) eqn:Hp.
  3: by eapply server_take_inv. 3: by eapply insert_inv. 3: eapply fill_inv; [done|by left].
  3: { destruct (server_parse num_priorities buf) eqn:E; [|by eapply refuse_inv|]; eapply fill_inv; try done; right; [by right|left; eauto]. }
  3: by eapply enqueue_inv. 4: by eapply clean_inv.
  all: apply quiet_inv; [done|by rewrite Hp].
Qed.

Lemma sys_step_inv s s' : sys_inv s -> sys_step s s' -> sys_inv s'.
Proof using Type. intros HI [i|j t p H1 H2 H3|j]; [by apply server_inv|by apply schedule_inv|by apply worker_inv]. Qed.

Lemma sys_init_inv pool ts requests : NoDup pool -> NULL ∉ pool -> sys_inv (sys_init pool ts requests).
Proof using Type.
  intros Hnd Hn. constructor; [constructor|constructor|constructor]; simpl; try done; intros *; try (case_decide; done); try apply elem_of_nil.
  - case_decide; set_solver.
  - case_decide; set_solver.
  - constructor.
  - constructor.
  - by intros ?%elem_of_nil.
  - case_decide; set_solver.
  - constructor.
Qed.

(** ** What is received and what is accepted *)

Definition accepts (buf : list ascii) : option string :=
  match server_parse num_priorities buf with Accepted a _ _ => Some a | _ => None end.
Definition wanted (m : option (list ascii)) : option string := m ≫= accepts.
Definition by_server (i : nat) (l : list (nat * string)) : list string := (base.filter (fun x => x.1 = i) l).*2.

(** The request that a server thread has received and not inserted yet *)
Definition in_hand (h : Z -> task) (c : server_pc) : list string :=
  match c with
  | SGet buf | SInsert buf _ | SCopy buf _ | SParse buf _ | SClean _ _ (ToGet buf) => option_list (accepts buf)
  | SEnqueue t => [arguments (h t)]
  | _ => []
  end.

Definition busy (c : server_pc) : Z :=
  match c with
  | SGet _ | SInsert _ _ | SCopy _ _ | SParse _ _ | SEnqueue _ | SNext | SCrash _ | SClean _ _ (ToGet _) => 1
  | _ => 0
  end.
Definition ended (c : server_pc) : bool := match c with SFinal | SDone | SClean _ _ ToFinal => true | _ => false end.

Record thread_ok (req : list (option (list ascii))) (v : server) (acc : list string) (h : Z -> task) : Prop := {
  tk_taken : exists past, req = past ++ inbox v /\ omap wanted past = acc ++ in_hand h (s_pc v);
  tk_txs : txs v = Z.of_nat (length (inbox v)) + busy (s_pc v);
  tk_ended : ended (s_pc v) = true -> txs v = 0;
  tk_done : s_pc v = SDone -> gc_head v = NULL;
  tk_copied buf t : s_pc v = SParse buf t -> c_string buf = Some (arguments (h t)) }.

Definition intake (requests : nat -> list (option (list ascii))) (s : sys) : Prop :=
  forall i, thread_ok (requests i) (servers s i) (by_server i (accepted s)) (heap s).

Lemma thread_frame req v acc h h' :
  thread_ok req v acc h -> (forall t, filling (s_pc v) = Some t -> arguments (h' t) = arguments (h t)) -> thread_ok req v acc h'.
Proof using Type.
  intros [T1 T2 T3 T4 T5] Hh. constructor; try done.
  - destruct T1 as (past & E1 & E2). exists past. split; [done|]. rewrite E2. f_equal. destruct (s_pc v); try done. simpl. by rewrite Hh.
  - intros buf t E. rewrite Hh by (by rewrite E). by apply T5.
Qed.

(** A step of the thread that leaves the request in its hands *)
Lemma thread_step req v acc h v' h' :
  thread_ok req v acc h -> inbox v' = inbox v -> in_hand h' (s_pc v') = in_hand h (s_pc v) -> txs v' - busy (s_pc v') = txs v - busy (s_pc v) ->
  (ended (s_pc v') = true -> txs v' = 0) -> (s_pc v' = SDone -> gc_head v' = NULL) ->
  (forall buf t, s_pc v' = SParse buf t -> c_string buf = Some (arguments (h' t))) -> thread_ok req v' acc h'.
Proof using Type. intros [T1 T2 T3 T4 T5] H1 H2 H3 H4 H5 H6. constructor; rewrite ?H1, ?H2; try done. lia. Qed.

Lemma intake_own requests s i :
  thread_ok (requests i) (servers s i) (by_server i (accepted s)) (heap s) ->
  let s' := server_next i s in thread_ok (requests i) (servers s' i) (by_server i (accepted s')) (heap s').
Proof using Type.
  intros HT. pose proof HT as [T1 T2 T3 T4 T5]. cbn zeta. unfold server_next, server_runMethod. destruct (s_pc (servers s i)) as [| |buf|buf t|buf t|buf t|t| |prev cur k| | |t] eqn:Hp.
  - eapply (thread_step _ _ _ _ _ _ HT); cbn -[put]; rewrite put_eq; cbn; rewrite ?Hp; try done; destruct (Z.eqb_spec (txs (servers s i)) 0); done.
  - destruct (inbox (servers s i)) as [|m rest] eqn:Hi; [done|]. simpl. rewrite put_eq. destruct T1 as (past & E1 & E2).
    constructor; simpl; [|rewrite T2; destruct m; simpl; lia|by destruct m..].
    exists (past ++ [m]). split; [by rewrite <- app_assoc|]. rewrite list.omap_app, E2. simpl in *. rewrite app_nil_r. f_equal.
    destruct m as [buf|]; simpl; [|done]. by destruct (accepts buf).
  - unfold GetTask. destruct (spec _ _) as [t q]. destruct (Z.eqb_spec t NULL);
      eapply (thread_step _ _ _ _ _ _ HT); cbn -[put]; rewrite put_eq; cbn; rewrite ?Hp; done.
  - eapply (thread_step _ _ _ _ _ _ HT); cbn -[put]; rewrite !put_eq; cbn; rewrite ?Hp; done.
  - destruct (c_string buf) as [a|] eqn:E; eapply (thread_step _ _ _ _ _ _ HT); cbn -[put]; rewrite !put_eq; cbn; rewrite ?Hp; try done.
    + intros b u [= <- <-]. by rewrite put_eq.
    + unfold in_hand, accepts, server_parse. by rewrite E.
  - specialize (T5 buf t eq_refl).
    assert (Ha : forall a, server_parse num_priorities buf = a -> accepts buf = match a with Accepted a _ _ => Some a | _ => None end) by (by intros a <-).
    destruct (server_parse num_priorities buf) as [|a o|a p x] eqn:E; eapply (thread_step _ _ _ _ _ _ HT); cbn -[put]; rewrite !put_eq; cbn; rewrite ?Hp; try done;
      unfold in_hand; rewrite (Ha _ eq_refl); try done. rewrite put_eq. simpl. revert E. unfold server_parse. rewrite T5. repeat case_match; try done. intros [= <- _ _]. done.
  - destruct T1 as (past & E1 & E2). cbn -[put]. rewrite put_eq. constructor; cbn; rewrite ?T2; try done. exists past. split; [done|].
    rewrite E2. unfold by_server. rewrite list.filter_app, fmap_app. rewrite list.filter_cons_True by done. simpl. by rewrite app_nil_r.
  - case_bool; eapply (thread_step _ _ _ _ _ _ HT); cbn -[put]; rewrite !put_eq; cbn; rewrite ?Hp; try done; simpl; lia.
  - destruct (Z.eqb_spec cur NULL).
    + eapply (thread_step _ _ _ _ _ _ HT); cbn -[put]; rewrite !put_eq; cbn; rewrite ?Hp; destruct k; done.
    + assert (Hx : forall h v, inbox v = inbox (servers s i) -> txs v = txs (servers s i) -> (exists pr cu, s_pc v = SClean pr cu k) ->
        thread_ok (requests i) v (by_server i (accepted s)) h).
      { intros h v H1 H2 (pr & cu & H3). eapply (thread_step _ _ _ _ _ _ HT); rewrite ?H1, ?H2, ?H3, ?Hp; done. }
      unfold clean_turn. destruct (negb _); [destruct (Z.eqb_spec prev NULL)|]; apply Hx; cbn -[put]; rewrite ?put_eq; eauto.
  - destruct (Z.eqb_spec (gc_head (servers s i)) NULL); eapply (thread_step _ _ _ _ _ _ HT); cbn -[put]; rewrite !put_eq; cbn; rewrite ?Hp; done.
  - exact HT.
  - exact HT.
Qed.

(** The other threads: the task that one of them fills is not touched. *)
Lemma server_others s i k :
  sys_inv s -> k <> i ->
  let s' := server_next i s in
  servers s' k = servers s k /\ by_server k (accepted s') = by_server k (accepted s) /\
  forall t, filling (s_pc (servers s k)) = Some t -> arguments (heap s' t) = arguments (heap s t).
Proof using Type.
  intros HI Hk. pose proof HI as [HP HL _].
  assert (Hsame : forall h t u x, (forall v, h v = heap s v) -> arguments x = arguments (heap s t) -> arguments (put h t x u) = arguments (heap s u)).
  { intros h t u x Hh E. unfold put. case_decide; [by subst|by rewrite Hh]. }
  assert (Hmine : forall t u, filling (s_pc (servers s k)) = Some u -> lister (sloc s t) = Some i -> t <> u).
  { intros t u Hf Ht ->. apply (pc_filling _ HP) in Hf. rewrite Hf in Ht. by injection Ht. }
  assert (Hfill : forall t, filling (s_pc (servers s i)) = Some t -> lister (sloc s t) = Some i).
  { intros t Ht. apply (pc_filling _ HP) in Ht. by rewrite Ht. }
  cbn zeta. unfold server_next, server_runMethod. destruct (s_pc (servers s i)) as [| |buf|buf t|buf t|buf t|t| |prev cur c| | |t] eqn:Hp; try done.
  all: try (cbn -[put]; by rewrite !put_ne by done).
  - destruct (inbox _); [done|]. cbn -[put]. by rewrite put_ne by done.
  - unfold GetTask. cbn [spec]. destruct (free s) as [|t q] eqn:Hq; [by cbn -[put]; rewrite put_ne by done|].
    destruct (t =? NULL); cbn -[put]; rewrite put_ne by done; split_and!; try done. intros u Hf. apply Hsame; done.
  - cbn -[put]. rewrite !put_ne by done. split_and!; try done. intros u Hf. by apply Hsame.
  - destruct (c_string buf); cbn -[put]; rewrite put_ne by done; split_and!; try done. intros u Hf. rewrite put_ne; [done|]. by apply not_eq_sym, Hmine, Hfill.
  - destruct (server_parse _ _); cbn -[put]; rewrite put_ne by done; split_and!; try done; intros u Hf; (rewrite put_ne; [done|]; by apply not_eq_sym, Hmine, Hfill).
  - cbn -[put]. rewrite put_ne by done. split_and!; try done. unfold by_server. rewrite list.filter_app, list.filter_cons_False by done. by rewrite app_nil_r.
  - case_bool; cbn -[put]; rewrite !put_ne by done; done.
  - destruct (Z.eqb_spec cur NULL) as [|Hn]; [by cbn -[put]; rewrite put_ne by done|].
    destruct (lk_clean _ HL i prev cur c Hp) as (l1 & l2 & E1 & E2 & E3). unfold clean_turn.
    destruct (Z.eqb_spec (free_gc (heap s cur)) 0) as [Hf|Hf]; simpl negb; cbv iota; [by cbn -[put]; rewrite put_ne by done|].
    destruct l2 as [|t l2]; [done|]. destruct E2 as [-> _].
    assert (Ht : lister (sloc s t) = Some i) by (apply (pc_list _ HP); rewrite E1; apply elem_of_app; right; apply list_elem_of_here).
    destruct (prev =? NULL); cbn -[put]; rewrite ?put_ne by done; split_and!; try done; intros u Hu; rewrite put_ne by (by apply not_eq_sym, Hmine); [done|].
    by apply Hsame.
  - case_bool; cbn -[put]; by rewrite put_ne by done.
Qed.

Lemma intake_init pool ts requests : intake requests (sys_init pool ts requests).
Proof using Type. intros i. constructor; simpl; try done; [by exists []|lia]. Qed.

Lemma intake_step requests s s' : sys_inv s -> intake requests s -> sys_step s s' -> intake requests s'.
Proof using Type.
  intros HI HT Hs. destruct Hs as [i|j t p H1 H2 H3|j]; intros k.
  - destruct (decide (k = i)) as [->|Hk]; [by apply intake_own|]. destruct (server_others s i k HI Hk) as (-> & -> & Hh).
    by eapply thread_frame.
  - apply HT.
  - unfold worker_next. destruct (workers s j) as [|t|t|t]; [apply HT|..].
    + unfold worker_runMethod. destruct (call_of _); apply HT.
    + eapply thread_frame; [apply HT|]. intros u _. by apply set_same.
    + eapply thread_frame; [apply HT|]. intros u _. by apply set_same.
Qed.

Lemma run_intake pool ts requests s :
  NoDup pool -> NULL ∉ pool -> sys_steps (sys_init pool ts requests) s -> sys_inv s /\ intake requests s.
Proof using Type.
  intros Hnd Hn Hs. pose proof (sys_init_inv pool ts requests Hnd Hn) as Hi. pose proof (intake_init pool ts requests) as Ht.
  revert Hs Hi Ht. generalize (sys_init pool ts requests). clear Hnd Hn pool ts. induction 1 as [|s1 s2 s3 H12 H23 IH]; [done|].
  intros Hi Ht. apply IH; [by eapply sys_step_inv|by eapply intake_step].
Qed.

(** No step takes a task out of the system. *)
Lemma step_outside s s' t : sys_step s s' -> sloc s t <> SOutside -> sloc s' t <> SOutside.
Proof using Type.
  intros Hs Ht. assert (Hp : forall u w, w <> SOutside -> put (sloc s) u w t <> SOutside) by (intros u w Hw; unfold put; by case_decide).
  destruct Hs as [i|j u p H1 H2 H3|j]; [unfold server_next, server_runMethod|by apply Hp|unfold worker_next].
  - destruct (s_pc (servers s i)) as [| |buf|buf u|buf u|buf u|u| |prev cur c| | |u]; try done; try (by apply Hp).
    + by destruct (inbox _).
    + unfold GetTask. destruct (spec _ _) as [u q]. destruct (u =? NULL); [done|by apply Hp].
    + by destruct (c_string buf).
    + destruct (server_parse _ _); [done|by apply Hp|done].
    + by case_bool.
    + destruct (cur =? NULL); [done|]. unfold clean_turn. destruct (negb _); [|done]. destruct (prev =? NULL); by apply Hp.
    + by case_bool.
  - destruct (workers s j) as [|u|u|u]; try done; [|by apply Hp]. unfold worker_runMethod. destruct (call_of _); by apply Hp.
Qed.

Lemma run_outside pool ts requests s t : sys_steps (sys_init pool ts requests) s -> t ∈ pool -> sloc s t <> SOutside.
Proof using Type.
  intros Hs Ht. assert (H0 : sloc (sys_init pool ts requests) t <> SOutside) by (simpl; by case_decide).
  revert Hs H0. generalize (sys_init pool ts requests). induction 1 as [|s1 s2 s3 H12 H23 IH]; [done|].
  intros H0. apply IH. by eapply step_outside.
Qed.

(** C13. At every moment, with any number of server threads and workers: each request that
    has been accepted has been run once, or waits in one task, whose arguments are the
    request, in a queue or with a worker; the transactions called are those of the
    requests run, and txs_completed counts them; each thread has accepted the
    requests that it was sent in their order; and each task of the pool is free,
    or just taken, or in the list of the thread that will free it. *)
Theorem served_once pool ts requests s :
  NoDup pool -> NULL ∉ pool -> sys_steps (sys_init pool ts requests) s ->
  accepted s ≡ₚ run s ++ (waiting s).*2 /\ NoDup (waiting s).*1 /\
  (forall t i a, (t, (i, a)) ∈ waiting s ->
    arguments (heap s t) = a /\ ((exists p, t ∈ queues s p) \/ exists j, workers s j = WRun t)) /\
  calls s = omap call_of (run s).*2 /\ txs_completed s = Z.of_nat (length (calls s)) /\
  (forall i, by_server i (accepted s) `prefix_of` omap wanted (requests i)) /\
  (forall t, t ∈ pool -> t ∈ free s \/ (exists i, taking (s_pc (servers s i)) = Some t) \/ exists i, t ∈ gc_list s i).
Proof using Type.
  intros Hnd Hn Hs. destruct (run_intake pool ts requests s Hnd Hn Hs) as [[HP HL [R1 R2 R3 R4 R5 R6]] HT].
  split_and!; try done.
  - intros t i a Hin. split; [by eapply R2|]. assert (Hw : is_waiting (sloc s t) = true) by (apply R3; by apply (list_elem_of_fmap_2 fst) in Hin).
    destruct (sloc s t) as [| | |k []] eqn:E; try done; [left; exists p; by rewrite (pc_queue _ HP), E|right; exists j].
    assert (Hr : running (workers s j) = Some t) by (by rewrite (pc_running _ HP), E). destruct (workers s j); try done. by injection Hr as ->.
  - intros i. destruct (HT i) as [(past & -> & E) _ _ _ _]. rewrite list.omap_app, E, <- app_assoc. eexists. reflexivity.
  - intros t Ht. apply (run_outside _ _ _ _ _ Hs) in Ht. rewrite (pc_free _ HP). setoid_rewrite (pc_taking _ HP). setoid_rewrite (pc_list _ HP).
    destruct (sloc s t) as [| |i|i u]; [done|eauto..].
Qed.

(** The requests of a thread that has ended *)
Lemma served_done pool ts requests s i :
  NoDup pool -> NULL ∉ pool -> sys_steps (sys_init pool ts requests) s -> s_pc (servers s i) = SDone ->
  by_server i (run s) ≡ₚ omap wanted (requests i).
Proof using Type.
  intros Hnd Hn Hs Hd. destruct (run_intake pool ts requests s Hnd Hn Hs) as [[HP HL [R1 R2 R3 R4 R5 R6]] HT].
  destruct (HT i) as [(past & -> & E) T2 T3 T4 _]. rewrite Hd in *. rewrite T3 in T2 by done.
  assert (inbox (servers s i) = []) as -> by (destruct (inbox (servers s i)); [done|simpl in T2; lia]).
  rewrite app_nil_r, E. simpl. rewrite app_nil_r. unfold by_server. rewrite R1, list.filter_app, fmap_app.
  assert (base.filter (fun x => x.1 = i) (waiting s).*2 = []) as ->; [|simpl; by rewrite app_nil_r].
  assert (Hl : gc_list s i = []).
  { pose proof (lk_chain _ HL i) as Hc. rewrite T4 in Hc by done. destruct (gc_list s i) as [|t l] eqn:El; [done|]. destruct Hc as [Ht _]. subst t.
    assert (Hm : NULL ∈ gc_list s i) by (rewrite El; apply list_elem_of_here). apply (pc_list _ HP) in Hm. by rewrite (pc_null _ HP) in Hm. }
  apply elem_of_nil_inv. intros [k a] [Hk ([t y] & Hy & Hin)%list_elem_of_fmap]%list_elem_of_filter. simpl in Hk, Hy. subst y i.
  destruct (R2 _ _ _ Hin) as [_ Hl']. rewrite <- (pc_list _ HP), Hl in Hl'. by apply elem_of_nil in Hl'.
Qed.

(** The requests of a client process: for each transaction, its kind and the numbers drawn *)
Definition sent (txs : list (Z * (nat -> Z))) : list (option (list ascii)) :=
  map (fun tx => option_map sendbuf (createInstruction tx.1 tx.2)) txs.

Lemma sent_calls txs :
  0 < num_priorities -> Forall (fun tx : Z * (nat -> Z) => 1 <= tx.1 <= 5 /\ forall k, 0 <= tx.2 k) txs ->
  omap call_of (omap wanted (sent txs)) = map (fun tx => intended tx.1 tx.2) txs.
Proof using Type.
  intros Hn. induction 1 as [|[tx rand] txs [Htx Hr] _ IH]; [done|]. simpl in Htx, Hr. destruct (createInstruction_some tx rand Htx) as [msg E].
  destruct (client_message tx rand num_priorities msg Htx Hr Hn E) as (_ & H1 & H2). cbn [sent map fst snd]. rewrite E. cbn [option_map].
  assert (Hw : wanted (Some (sendbuf msg)) = Some msg) by (unfold wanted, accepts; simpl; by rewrite H1).
  assert (Hc : call_of msg = Some (intended tx rand)) by (unfold call_of; by rewrite H2).
  cbn [omap list_omap]. rewrite Hw. cbn [omap list_omap]. rewrite Hc. f_equal. exact IH.
Qed.

(** C14. From the client to the manager: once the server thread of a client has ended,
    the workers have called for it exactly the transactions that the client meant, with
    the numbers that it drew, each once. *)
Theorem clients_served pool ts requests s i txs :
  NoDup pool -> NULL ∉ pool -> 0 < num_priorities -> sys_steps (sys_init pool ts requests) s ->
  requests i = sent txs -> Forall (fun tx => 1 <= tx.1 <= 5 /\ forall k, 0 <= tx.2 k) txs -> s_pc (servers s i) = SDone ->
  omap call_of (by_server i (run s)) ≡ₚ map (fun tx => intended tx.1 tx.2) txs.
Proof using Type.
  intros Hnd Hn Hp Hs Hr Htx Hd. rewrite (served_done pool ts requests s i Hnd Hn Hs Hd), Hr. by rewrite sent_calls.
Qed.

End Server.

(** ** An execution *)

Inductive move := MServer (i : nat) | MSchedule (j : nat) (p : Z) | MWorker (j : nat).

Definition do_move (num_priorities : Z) (unread : string -> manager_call) (s : sys) (m : move) : sys :=
  match m with
  | MServer i => server_next num_priorities i s
  | MSchedule j p =>
      match workers s j, (spec (queues s p) (Remove p)).1 with
      | WSchedule, t => if t =? NULL then s else schedule j t p (place_task t (SListed (user_of s t) (Running j)) s)
      | _, _ => s
      end
  | MWorker j => worker_next unread j s
  end.

Lemma do_moves_steps num_priorities unread s ms : sys_steps num_priorities unread s (foldl (do_move num_priorities unread) s ms).
Proof.
  revert s. induction ms as [|m ms IH]; intros s; [apply rtc_refl|]. simpl. destruct m as [i|j p|j].
  - eapply rtc_l; [apply ss_server|apply IH].
  - cbn [do_move]. destruct (workers s j) eqn:E; try apply IH. destruct (Z.eqb_spec (spec (queues s p) (Remove p)).1 NULL); [apply IH|].
    eapply rtc_l; [by apply ss_schedule|apply IH].
  - eapply rtc_l; [apply ss_worker|apply IH].
Qed.

(** Two threads, two workers and a pool of two tasks: the first thread is sent four
    requests, one of which is empty and one an error; a client sends two to the second. *)
Definition demo_txs : list (Z * (nat -> Z)) := [(1, fun k => 804289383 + 11 * Z.of_nat k); (5, fun k => 846930886)].

Definition demo_requests (i : nat) : list (option (list ascii)) :=
  match i with
  | O => [Some (sendbuf "0;1;1;2;3;4;5"); Some (sendbuf ""); None; Some (sendbuf "2;4;1;7")]
  | S O => sent demo_txs
  | _ => []
  end.

Definition demo_moves (n : nat) : list move :=
  concat (repeat (repeat (MServer 0) 3 ++ repeat (MServer 1) 2 ++ [MSchedule 0 0; MSchedule 1 2; MSchedule 1 0; MWorker 0; MWorker 1; MWorker 0]) n).

Definition demo_unread (a : string) : manager_call := PAYMENT 0 0 0 0 a.

Definition demo (n : nat) : sys := foldl (do_move 3 demo_unread) (sys_init [1; 2] (fun _ => init_task NULL) demo_requests) (demo_moves n).

Definition seen (s : sys) := (s_pc (servers s 0%nat), s_pc (servers s 1%nat), free s, run s, calls s).

(** The last request has too few fields: no transaction is called for it. *)
Lemma demo_seen :
  seen (demo 18) =
    (SDone, SDone, [1; 2],
     [(0%nat, "0;1;1;2;3;4;5"); (1%nat, "0;1;1;4;1395"); (1%nat, "0;5;1;7"); (0%nat, "2;4;1;7")]%string,
     [NEWORDER 1 2 3; NEWORDER 1 4 1395; DELIVERY 1 7]).
Proof. vm_compute. reflexivity. Qed.

Lemma demo_ended : s_pc (servers (demo 18) 1%nat) = SDone.
Proof. pose proof demo_seen as E. unfold seen in E. congruence. Qed.

Lemma demo_pool : NoDup [1; 2] /\ NULL ∉ [1; 2].
Proof. split; apply (bool_decide_unpack _); vm_compute; exact I. Qed.

Lemma demo_sent : Forall (fun tx : Z * (nat -> Z) => 1 <= tx.1 <= 5 /\ forall k, 0 <= tx.2 k) demo_txs.
Proof. repeat constructor; simpl; try lia. Qed.

(** In the middle of the execution *)
Lemma served_once_witness : accepted (demo 6) ≡ₚ run (demo 6) ++ (waiting (demo 6)).*2.
Proof.
  eapply (served_once 3 demo_unread [1; 2] _ demo_requests (demo 6)); [apply demo_pool|apply demo_pool|apply do_moves_steps].
Defined.

Lemma clients_served_witness :
  omap (call_of demo_unread) (by_server 1 (run (demo 18))) ≡ₚ map (fun tx => intended tx.1 tx.2) demo_txs.
Proof.
  eapply (clients_served 3 demo_unread [1; 2] _ demo_requests (demo 18) 1);
    [apply demo_pool|apply demo_pool|done|apply do_moves_steps|reflexivity|apply demo_sent|apply demo_ended].
Defined.
