(* ===== verification/Kill.v ===== *)
(** * Killing transactions: the modular contention manager

    stm.c with CM_MODULAR (and encounter-time locking): a transaction that finds a lock
    owned by another may kill the other, by a compare-and-swap on its status word, and
    steal the lock.  This file has the contention managers and, as a step relation with
    one access to shared memory per step, what threads do with status words and locks;
    what is read and written under the locks is left out, and validation may succeed or
    fail at any time.

    A lock is [Unlocked] with a version or [Owned] by an entry of a write set; LockWord.v
    has the encoding.  An entry is named by its thread, the number of the array that it
    is in, and its index: an array that has been given to the garbage collector is not
    used again while a thread may still hold a pointer into it (Gc.v).  An entry stands
    for the list of entries that cover the same lock, of which the first is in the lock
    word.  There are no irrevocable transactions. *)
From S2P Require Import Prelude Words LockWord.
Import ModularStatus.
Local Open Scope Z_scope.

(** ** Contention managers *)

Definition KILL_SELF : Z := 0x00.
Definition KILL_OTHER : Z := 0x01.
Definition DELAY_RESTART : Z := 0x04.

(** What they look at: the address of the descriptor, the start of the first attempt and
    the numbers of entries. *)
Record cm_tx := mk_cm_tx { cm_addr : Z; cm_start : Z; cm_writes : Z; cm_reads : Z }.

Definition cm_aggressive (me other : cm_tx) : Z := KILL_OTHER.
Definition cm_suicide (me other : cm_tx) : Z := KILL_SELF.
Definition cm_delay (me other : cm_tx) : Z := Z.lor KILL_SELF DELAY_RESTART.

Definition cm_timestamp (me other : cm_tx) : Z :=
  if cm_start me <? cm_start other then KILL_OTHER
  else if (cm_start me =? cm_start other) && (cm_addr me <? cm_addr other) then KILL_OTHER
  else Z.lor KILL_SELF DELAY_RESTART.

Definition cm_work (tx : cm_tx) : Z := w64 (w64 (Z.shiftl (cm_writes tx) 1) + cm_reads tx).

Definition cm_karma (me other : cm_tx) : Z :=
  if cm_work me <? cm_work other then KILL_OTHER
  else if (cm_work me =? cm_work other) && (cm_addr me <? cm_addr other) then KILL_OTHER
  else KILL_SELF.

(** ** State *)

Record entry := mk_entry { e_thread : nat; e_array : nat; e_index : nat }.
#[export] Instance entry_eq : EqDecision entry.
Proof. solve_decision. Defined.

Inductive lockval := Unlocked (version : Z) | Owned (e : entry) (write : bool).
#[export] Instance lockval_eq : EqDecision lockval.
Proof. solve_decision. Defined.

(** stm_read_invisible, stm_read_visible, stm_write *)
Inductive mode := Invisible | Visible | Writing.

(** [a] is the lock of the access, [t] a status word that was read. *)
Inductive kpc :=
| KIdle
| KUpdate                                     (* stm_prepare: UPDATE_STATUS *)
| KUpdate2 (t : Z)
| KRun
| KCheck (a : Z) (m : mode)                   (* have we been killed? *)
| KLoad (a : Z) (m : mode)                    (* restart: load of the lock *)
| KStatus (a : Z) (m : mode) (e : entry) (w : bool)        (* t = w->tx->status *)
| KReload (a : Z) (m : mode) (e : entry) (w : bool) (t : Z)
| KRecheck (a : Z) (m : mode) (e : entry) (w : bool) (t : Z)
| KDecide (a : Z) (m : mode) (e : entry) (w : bool) (t : Z)
| KKillCas (a : Z) (m : mode) (e : entry) (w : bool) (t : Z)   (* stm_kill *)
| KKillWait (a : Z) (m : mode) (e : entry) (t : Z)
| KKillSpin (a : Z) (m : mode) (e : entry) (c : Z)
| KVersion (a : Z) (m : mode) (e : entry) (w : bool)       (* load of w->version *)
| KSteal (a : Z) (e : entry) (w : bool) (v : Z)            (* of an invisible read *)
| KFill (a : Z) (m : mode) (l : lockval) (v : Z)           (* acquire: w->version = version *)
| KTake (a : Z) (m : mode) (l : lockval) (v : Z)
| KUpgrade (a : Z) (l : lockval)
| KExtend (a : Z) (m : mode) (l : lockval) (v : Z) (j : nat) (* stm_allocate_ws_entries *)
| KCommit                                     (* stm_commit *)
| KCommitCas (t : Z)
| KCommitFailed
| KCommitting
| KInstall (j : nat) (ts : Z)
| KRollback                                   (* stm_rollback *)
| KRollbackCas (t : Z)
| KRollbackFailed
| KRelease (j : nat) (v : Z)                  (* back to w->version, then to status [v] *)
| KDrop (j : nat)                             (* stm_drop *)
| KDropCas (j : nat) (l : lockval)
| KRealloc
| KSet (v : Z)                                (* SET_STATUS *)
| KSet2 (v t : Z)
| KCrash.                                     (* an assertion has failed *)

(** Ghost: [base], the version that the last commit gave to a lock; [starts], the number
    of UPDATE_STATUS; [fates], for a thread and a count, the status that the
    transaction took when it ceased to be active; [extended], a write set has grown. *)
Record kstate := mk_kstate {
  status : nat -> Z; locks : Z -> lockval; e_version : entry -> Z; e_lock : entry -> Z;
  array : nat -> nat; nb_entries : nat -> nat; size : nat -> nat; has_writes : nat -> Z; kpcs : nat -> kpc;
  base : Z -> Z; starts : nat -> Z; fates : list (nat * Z * Z); extended : bool }.
#[export] Instance eta_kstate : Eta kstate := fun s =>
  mk_kstate (status s) (locks s) (e_version s) (e_lock s) (array s) (nb_entries s) (size s) (has_writes s) (kpcs s)
    (base s) (starts s) (fates s) (extended s).

Definition mine (i : nat) (s : kstate) (j : nat) : entry := mk_entry i (array s i) j.

(** ** Steps *)

Definition kgo (i : nat) (c : kpc) (s : kstate) : kstate := s <| kpcs := put (kpcs s) i c |>.
Definition set_lock (a : Z) (l : lockval) (s : kstate) : kstate := s <| locks := put (locks s) a l |>.

(** A compare-and-swap on the status word of [o], which has the value [t]; stm_kill and
    stm_rollback, which subtract TX_ACTIVE, do it to words with this status. *)
Definition leave (o : nat) (t v : Z) (s : kstate) : kstate :=
  s <| status := put (status s) o (w64 (t + (v - GET_STATUS t))) |> <| fates := fates s ++ [(o, GET_STATUS_COUNTER t, v)] |>.

(** What an access does with the lock word that it has loaded; an invisible read takes a
    lock that is only read-locked as not locked. *)
Definition conflict (i : nat) (a : Z) (m : mode) (l : lockval) (s : kstate) : kpc :=
  match l with
  | Unlocked v => match m with Invisible => KRun | _ => KFill a m l v end
  | Owned e w =>
      if match m with Invisible => negb w | _ => false end then KRun
      else if decide (e_thread e = i /\ e_array e = array s i /\ (e_index e < nb_entries s i)%nat)
      then match m with Writing => if w then KRun else KUpgrade a l | _ => KRun end
      else KStatus a m e w
  end.

(** stm_kill, for a status [t] of the other *)
Definition stm_kill (a : Z) (m : mode) (e : entry) (w : bool) (t : Z) : kpc :=
  if (GET_STATUS t =? TX_ABORTED) || (GET_STATUS t =? TX_COMMITTED) || (GET_STATUS t =? TX_KILLED) then KLoad a m
  else if (GET_STATUS t =? TX_ABORTING) || (GET_STATUS t =? TX_COMMITTING) then KKillWait a m e t
  else if IS_ACTIVE t then KKillCas a m e w t else KCrash.

Definition kill_next (i : nat) (s : kstate) : kstate :=
  match kpcs s i with
  | KKillWait a m e t => if status s (e_thread e) =? t then s else kgo i (KLoad a m) s
  | KKillCas a m e w t =>
      if status s (e_thread e) =? t then kgo i (KVersion a m e w) (leave (e_thread e) t TX_KILLED s)
      else kgo i (KKillSpin a m e (GET_STATUS_COUNTER t)) s
  | KKillSpin a m e c =>
      let t := status s (e_thread e) in
      if negb (GET_STATUS t =? TX_ABORTED) && negb (GET_STATUS t =? TX_COMMITTED) && negb (GET_STATUS t =? TX_KILLED)
         && (GET_STATUS_COUNTER t =? c) then s
      else kgo i (KLoad a m) s
  | _ => s
  end.

(** stm_allocate_ws_entries(tx, 1) *)
Definition extend_next (i : nat) (s : kstate) : kstate :=
  match kpcs s i with
  | KExtend a m l v j =>
      if (j <? nb_entries s i)%nat then
        let e := mk_entry i (S (array s i)) j in
        kgo i (KExtend a m l v (S j))
          (set_lock (e_lock s (mine i s j)) (Owned e true)
             (s <| e_version := put (e_version s) e (e_version s (mine i s j)) |> <| e_lock := put (e_lock s) e (e_lock s (mine i s j)) |>))
      else kgo i (KFill a m l v) (s <| array := put (array s) i (S (array s i)) |> <| size := put (size s) i (2 * size s i)%nat |>)
  | _ => s
  end.

(** An access: from stm_read_invisible, stm_read_visible and stm_write.  [d] is what the
    contention manager says, that the other is to be killed, and for a store that has
    found the lock free or stolen it, that the version of the lock is no reason to abort. *)
Definition access_next (i : nat) (d : bool) (s : kstate) : kstate :=
  match kpcs s i with
  | KCheck a m => kgo i (if GET_STATUS (status s i) =? TX_KILLED then KRollback else KLoad a m) s
  | KLoad a m => kgo i (conflict i a m (locks s a) s) s
  | KStatus a m e w => kgo i (KReload a m e w (status s (e_thread e))) s
  | KReload a m e w t =>
      kgo i (if decide (locks s a = Owned e w) then KRecheck a m e w t else conflict i a m (locks s a) s) s
  | KRecheck a m e w t =>
      kgo i (if negb (t =? status s (e_thread e)) then KLoad a m
             else if GET_STATUS t =? TX_KILLED then KVersion a m e w else KDecide a m e w t) s
  | KDecide a m e w t =>
      kgo i (if GET_STATUS (status s i) =? TX_KILLED then KRollback
             else if negb d then KRollback
             else stm_kill a m e w t) s
  | KKillWait _ _ _ _ | KKillCas _ _ _ _ _ | KKillSpin _ _ _ _ => kill_next i s
  | KVersion a m e w =>
      let v := e_version s e in kgo i (match m with Invisible => KSteal a e w v | _ => KFill a m (Owned e w) v end) s
  | KSteal a e w v =>
      if decide (locks s a = Owned e w) then kgo i (conflict i a Invisible (Unlocked v) s) (set_lock a (Unlocked v) s)
      else kgo i (KLoad a Invisible) s
  | KFill a m l v =>
      if match m with Writing => negb d | _ => false end then kgo i KRollback s
      else if (nb_entries s i =? size s i)%nat then kgo i (KExtend a m l v 0) (s <| extended := true |>)
      else kgo i (KTake a m l v) (s <| e_version := put (e_version s) (mine i s (nb_entries s i)) v |>)
  | KTake a m l v =>
      if decide (locks s a = l) then
        let e := mine i s (nb_entries s i) in
        kgo i KRun (set_lock a (Owned e (match m with Writing => true | _ => false end))
          (s <| e_lock := put (e_lock s) e a |> <| nb_entries := put (nb_entries s) i (S (nb_entries s i)) |>
             <| has_writes := put (has_writes s) i (has_writes s i + match m with Writing => 1 | _ => 0 end) |>))
      else kgo i (KLoad a m) s
  | KUpgrade a l =>
      if decide (locks s a = l) then
        kgo i KRun (set_lock a (match l with Owned e _ => Owned e true | _ => l end)
          (s <| has_writes := put (has_writes s) i (has_writes s i + 1) |>))
      else kgo i KRollback s
  | KExtend _ _ _ _ _ => extend_next i s
  | _ => s
  end.

(** stm_commit.  [d] is the validation, [ts] the commit timestamp. *)
Definition commit_next (i : nat) (d : bool) (ts : Z) (s : kstate) : kstate :=
  match kpcs s i with
  | KCommit =>
      let t := status s i in
      kgo i (if negb (IS_ACTIVE t) then KCrash else if GET_STATUS t =? TX_KILLED then KCommitFailed else KCommitCas t) s
  | KCommitCas t =>
      if status s i =? t then kgo i KCommitting (leave i t TX_COMMITTING s) else kgo i KCommitFailed s
  | KCommitFailed => kgo i (if GET_STATUS (status s i) =? TX_KILLED then KRollback else KCrash) s
  | KCommitting =>
      kgo i (if (nb_entries s i =? 0)%nat then KSet TX_COMMITTED
             else if has_writes s i =? 0 then KRelease 0 TX_COMMITTED
             else if d then KInstall 0 ts else KRollback) s
  | KInstall j ts =>
      if (j <? nb_entries s i)%nat then
        let a := e_lock s (mine i s j) in
        kgo i (KInstall (S j) ts) (set_lock a (Unlocked ts) (s <| base := put (base s) a ts |>))
      else kgo i (KSet TX_COMMITTED) s
  | _ => s
  end.

(** stm_rollback, until it releases the locks *)
Definition rollback_next (i : nat) (s : kstate) : kstate :=
  match kpcs s i with
  | KRollback =>
      let t := status s i in
      kgo i (if negb (IS_ACTIVE t) then KCrash else if GET_STATUS t =? TX_KILLED then KRollbackFailed
             else if GET_STATUS t =? TX_ACTIVE then KRollbackCas t else KRelease 0 TX_ABORTED) s
  | KRollbackCas t =>
      if status s i =? t then kgo i (KRelease 0 TX_ABORTED) (leave i t TX_ABORTING s) else kgo i KRollbackFailed s
  | KRollbackFailed => kgo i (if GET_STATUS (status s i) =? TX_KILLED then KDrop 0 else KCrash) s
  | _ => s
  end.

(** stm_drop *)
Definition drop_next (i : nat) (s : kstate) : kstate :=
  match kpcs s i with
  | KDrop j =>
      if (j <? nb_entries s i)%nat then
        let l := locks s (e_lock s (mine i s j)) in
        kgo i (match l with Owned e _ => if decide (e = mine i s j) then KDropCas j l else KDrop (S j) | _ => KDrop (S j) end) s
      else kgo i (if (nb_entries s i =? 0)%nat then KSet TX_ABORTED else KRealloc) s
  | KDropCas j l =>
      let e := mine i s j in
      kgo i (KDrop (S j)) (if decide (locks s (e_lock s e) = l) then set_lock (e_lock s e) (Unlocked (e_version s e)) s else s)
  | KRealloc =>
      (* the number of entries is reset by stm_prepare; nothing reads it before *)
      kgo i (KSet TX_ABORTED) (s <| array := put (array s) i (S (array s i)) |> <| nb_entries := put (nb_entries s) i O |>)
  | _ => s
  end.

(** UPDATE_STATUS of stm_prepare; the release of locks with their old versions and
    SET_STATUS, at the end of stm_rollback and stm_commit *)
Definition end_next (i : nat) (d : bool) (ts : Z) (s : kstate) : kstate :=
  match kpcs s i with
  | KUpdate => kgo i (KUpdate2 (status s i)) s
  | KUpdate2 t => kgo i KRun (s <| status := put (status s) i (UPDATE_STATUS t TX_ACTIVE) |> <| starts := put (starts s) i (starts s i + 1) |>)
  | KRelease j v =>
      if (j <? nb_entries s i)%nat then
        let e := mine i s j in kgo i (KRelease (S j) v) (set_lock (e_lock s e) (Unlocked (e_version s e)) s)
      else kgo i (KSet v) s
  | KCommit | KCommitCas _ | KCommitFailed | KCommitting | KInstall _ _ => commit_next i d ts s
  | KRollback | KRollbackCas _ | KRollbackFailed => rollback_next i s
  | KDrop _ | KDropCas _ _ | KRealloc => drop_next i s
  | KSet v => kgo i (KSet2 v (status s i)) s
  | KSet2 v t => kgo i KIdle (s <| status := put (status s) i (SET_STATUS t v) |>)
  | _ => s
  end.

Definition k_next (i : nat) (d : bool) (ts : Z) (s : kstate) : kstate :=
  match kpcs s i with
  | KUpdate | KUpdate2 _ | KCommit | KCommitCas _ | KCommitFailed | KCommitting | KInstall _ _ | KRollback | KRollbackCas _
  | KRollbackFailed | KRelease _ _ | KDrop _ | KDropCas _ _ | KRealloc | KSet _ | KSet2 _ _ => end_next i d ts s
  | _ => access_next i d s
  end.

(** What the program does: it begins a transaction, or in one accesses, commits or aborts. *)
Inductive k_call := Begin | Access (a : Z) (m : mode) | Commit | Abort.

Definition k_start (i : nat) (c : k_call) (s : kstate) : kstate :=
  match kpcs s i, c with
  | KIdle, Begin => kgo i KUpdate (s <| nb_entries := put (nb_entries s) i O |> <| has_writes := put (has_writes s) i 0 |>)
  | KRun, Access a Invisible => kgo i (KLoad a Invisible) s
  | KRun, Access a m => kgo i (KCheck a m) s
  | KRun, Commit => kgo i KCommit s
  | KRun, Abort => kgo i KRollback s
  | _, _ => s
  end.

Inductive k_step (s : kstate) : kstate -> Prop :=
| ks_call i c : k_step s (k_start i c s)
| ks_next i d ts : k_step s (k_next i d ts s).

Definition k_steps : kstate -> kstate -> Prop := rtc k_step.

Definition k_init (size0 : nat) (versions : Z -> Z) : kstate :=
  mk_kstate (fun _ => TX_IDLE) (fun a => Unlocked (versions a)) (fun _ => 0) (fun _ => 0)
    (fun _ => O) (fun _ => O) (fun _ => size0) (fun _ => 0) (fun _ => KIdle) versions (fun _ => 0) [] false.

(** ** Status words *)

(** The word of the [c]th transaction with the status [v] *)
Definition st (c v : Z) : Z := c * 2 ^ 4 + v.
Definition is_count (c : Z) : Prop := 0 <= c < 2 ^ 60.
Definition is_status (v : Z) : Prop := 0 <= v < 2 ^ 4.

Lemma st_word c v : is_count c -> is_status v -> is_word (st c v).
Proof. unfold is_count, is_status, is_word, word_size, st. lia. Qed.

Lemma get_st c v : is_status v -> GET_STATUS (st c v) = v.
Proof.
  intros Hv. unfold GET_STATUS. change STATUS_MASK with (Z.ones 4). rewrite Z.land_ones by lia. unfold st. rewrite Z.add_comm, Z.mod_add by lia.
  by apply Z.mod_small.
Qed.

Lemma count_st c v : is_status v -> GET_STATUS_COUNTER (st c v) = c.
Proof.
  intros Hv. unfold GET_STATUS_COUNTER, STATUS_BITS, st. rewrite Z.shiftr_div_pow2 by lia. rewrite Z.div_add_l by lia. rewrite Z.div_small by done. lia.
Qed.

Lemma set_st c v v' : is_count c -> is_status v -> is_status v' -> SET_STATUS (st c v) v' = st c v'.
Proof.
  intros Hc Hv Hv'. unfold SET_STATUS. change STATUS_MASK with (Z.ones 4). rewrite land_wnot_ones; [|by apply st_word|lia].
  unfold st at 1 2. rewrite (Z.add_comm _ v), Z.mod_add, (Z.mod_small v) by (done || lia). replace (v + c * 2 ^ 4 - v) with (c * 2 ^ 4) by lia.
  by rewrite lor_low by (done || lia).
Qed.

Lemma update_st c v v' : is_count (c + 1) -> 0 <= c -> is_status v -> is_status v' -> UPDATE_STATUS (st c v) v' = st (c + 1) v'.
Proof.
  intros Hc H0 Hv Hv'. unfold UPDATE_STATUS, INC_STATUS_COUNTER. fold (GET_STATUS_COUNTER (st c v)). rewrite count_st by done.
  unfold is_count in Hc. rewrite (w64_id (c + 1)) by (unfold is_word, word_size; lia). unfold STATUS_BITS. rewrite Z.shiftl_mul_pow2 by lia.
  rewrite w64_id by (unfold is_word, word_size; lia). by rewrite lor_low by (done || lia).
Qed.

Lemma leave_st c v v' : is_count c -> is_status v -> is_status v' -> w64 (st c v + (v' - GET_STATUS (st c v))) = st c v'.
Proof.
  intros Hc Hv Hv'. rewrite get_st by done. replace (st c v + (v' - v)) with (st c v') by (unfold st; lia). apply w64_id. by apply st_word.
Qed.

Lemma st_inj c v c' v' : is_status v -> is_status v' -> st c v = st c' v' -> c = c' /\ v = v'.
Proof. unfold is_status, st. lia. Qed.

(** ** Contention managers *)

(** Of two transactions in conflict the managers timestamp and karma let exactly one kill the other. *)
Lemma cm_timestamp_order t t' :
  cm_addr t <> cm_addr t' -> cm_timestamp t t' = KILL_OTHER <-> cm_timestamp t' t <> KILL_OTHER.
Proof. intros Ha. unfold cm_timestamp. repeat case_bool; simpl; try lia; split; try done; lia. Qed.

Lemma cm_karma_order t t' : cm_addr t <> cm_addr t' -> cm_karma t t' = KILL_OTHER <-> cm_karma t' t <> KILL_OTHER.
Proof. intros Ha. unfold cm_karma. repeat case_bool; simpl; try lia; split; try done; lia. Qed.
