(* ===== verification/KillSafe.v ===== *)
(** * Killing transactions: what is safe, and where it ends

    The invariant of the step relation of Kill.v and the theorems: a transaction ceases
    to be active once, a killed one does not commit, and one that commits has all its
    locks; but a killed transaction whose write set grows takes stolen locks back. *)
From S2P Require Import Prelude Words LockWord Kill.
Import ModularStatus.
Local Open Scope Z_scope.

(** ** Threads *)

Definition rank (v : Z) : Z :=
  if v =? TX_ACTIVE then 0 else if (v =? TX_COMMITTING) || (v =? TX_ABORTING) || (v =? TX_KILLED) then 1 else 2.

(** The status that a thread can have, by its program counter *)
Definition allowed (c : kpc) : list Z :=
  match c with
  | KIdle | KUpdate | KUpdate2 _ => [TX_IDLE; TX_COMMITTED; TX_ABORTED]
  | KCommitFailed | KRollbackFailed | KDrop _ | KDropCas _ _ | KRealloc => [TX_KILLED]
  | KCommitting | KInstall _ _ => [TX_COMMITTING]
  | KRollback => [TX_ACTIVE; TX_KILLED; TX_COMMITTING]
  | KRelease _ v => if v =? TX_COMMITTED then [TX_COMMITTING] else [TX_ABORTING; TX_COMMITTING]
  | KSet v | KSet2 v _ => if v =? TX_COMMITTED then [TX_COMMITTING] else [TX_ABORTING; TX_COMMITTING; TX_KILLED]
  | KCrash | KExtend _ _ _ _ _ => []
  | _ => [TX_ACTIVE; TX_KILLED]
  end.

Definition may_be_active (c : kpc) : bool :=
  match c with
  | KIdle | KUpdate | KUpdate2 _ | KCommitFailed | KRollbackFailed | KDrop _ | KDropCas _ _ | KRealloc | KCommitting | KInstall _ _
  | KRelease _ _ | KSet _ | KSet2 _ _ | KCrash | KExtend _ _ _ _ _ => false
  | _ => true
  end.

(** The entries whose locks the thread has not released yet *)
Definition holds (c : kpc) (k : nat) : Prop :=
  match c with
  | KIdle | KUpdate | KUpdate2 _ | KSet _ | KSet2 _ _ | KRealloc => False
  | KInstall j _ | KRelease j _ | KDrop j | KDropCas j _ => (j <= k)%nat
  | _ => True
  end.

Definition own (s : kstate) (i : nat) (e : entry) : Prop :=
  e_thread e = i /\ e_array e = array s i /\ (e_index e < nb_entries s i)%nat.

(** [t] is or was the status word of [o]. *)
Definition was (s : kstate) (o : nat) (t : Z) : Prop :=
  exists c v, t = st c v /\ is_status v /\
    (c < starts s o \/ c = starts s o /\ (status s o = t \/ rank v < rank (GET_STATUS (status s o)))).

(** The entry is in use for the lock [a], or its array has been given up. *)
Definition current (s : kstate) (e : entry) (a : Z) : Prop :=
  (e_array e < array s (e_thread e))%nat \/
  e_array e = array s (e_thread e) /\ (e_index e < nb_entries s (e_thread e))%nat /\ e_lock s e = a.

Definition checked (s : kstate) (e : entry) (a t : Z) : Prop :=
  status s (e_thread e) = t -> rank (GET_STATUS t) <= 1 /\ current s e a.

(** Its transaction has been killed; [v] is its version. *)
Definition dead (s : kstate) (e : entry) (a : Z) (P : Prop) : Prop :=
  (e_array e < array s (e_thread e))%nat \/
  e_array e = array s (e_thread e) /\ (e_index e < nb_entries s (e_thread e))%nat /\ e_lock s e = a /\
    GET_STATUS (status s (e_thread e)) = TX_KILLED /\ P.

Definition takes (s : kstate) (i : nat) (a : Z) (l : lockval) (v : Z) : Prop :=
  match l with
  | Unlocked v' => v = v'
  | Owned e _ => dead s e a (v = e_version s e) /\ e_thread e <> i
  end.

(** How a transaction ends *)
Definition final (v : Z) : Prop := v = TX_COMMITTED \/ v = TX_ABORTED.

Lemma final_committed : final TX_COMMITTED.
Proof. by left. Qed.
Lemma final_aborted : final TX_ABORTED.
Proof. by right. Qed.
#[local] Hint Resolve final_committed final_aborted : core.

(** What thread [i] knows *)
Definition know (s : kstate) (i : nat) (c : kpc) : Prop :=
  match c with
  | KUpdate => nb_entries s i = O
  | KUpdate2 t => nb_entries s i = O /\ t = status s i
  | KRelease _ v | KSet v => final v
  | KSet2 v t => final v /\ t = status s i
  | KStatus a _ e _ => (e_array e <= array s (e_thread e))%nat /\ e_thread e <> i
  | KReload a _ e _ t => (e_array e <= array s (e_thread e))%nat /\ was s (e_thread e) t /\ e_thread e <> i
  | KRecheck a _ e _ t => was s (e_thread e) t /\ checked s e a t /\ e_thread e <> i
  | KDecide a _ e _ t =>
      was s (e_thread e) t /\ checked s e a t /\ e_thread e <> i /\ GET_STATUS t ∈ [TX_ACTIVE; TX_COMMITTING; TX_ABORTING]
  | KKillCas a _ e _ t => was s (e_thread e) t /\ checked s e a t /\ e_thread e <> i /\ GET_STATUS t = TX_ACTIVE
  | KVersion a _ e _ => dead s e a True /\ e_thread e <> i
  | KSteal a e _ v => dead s e a (v = e_version s e) /\ e_thread e <> i
  | KFill a _ l v => takes s i a l v
  | KTake a _ l v => takes s i a l v /\ e_version s (mine i s (nb_entries s i)) = v
  | KUpgrade a l => exists e, l = Owned e false /\ own s i e
  | KCommitCas t | KRollbackCas t => t = st (starts s i) TX_ACTIVE
  | KDropCas j l => (j < nb_entries s i)%nat /\ exists w, l = Owned (mine i s j) w
  | _ => True
  end.

Definition setting (c : kpc) : bool := match c with KSet _ | KSet2 _ _ => true | _ => false end.

Record thread_inv (s : kstate) (i : nat) : Prop := {
  ti_starts : 0 <= starts s i;
  ti_status : exists v, status s i = st (starts s i) v /\ v ∈ allowed (kpcs s i);
  ti_empty : setting (kpcs s i) = true -> GET_STATUS (status s i) = TX_KILLED -> nb_entries s i = O;
  ti_know : know s i (kpcs s i) }.

(** ** Locks *)

Record locks_inv (s : kstate) : Prop := {
  li_owned a e w : locks s a = Owned e w ->
    own s (e_thread e) e /\ e_lock s e = a /\ e_version s e = base s a /\ holds (kpcs s (e_thread e)) (e_index e);
  li_unlocked a v : locks s a = Unlocked v -> v = base s a;
  li_held i k : (k < nb_entries s i)%nat -> holds (kpcs s i) k -> GET_STATUS (status s i) <> TX_KILLED ->
    exists w, locks s (e_lock s (mine i s k)) = Owned (mine i s k) w;
  li_drop i j l w : kpcs s i = KDropCas j l -> locks s (e_lock s (mine i s j)) = Owned (mine i s j) w -> l = Owned (mine i s j) w }.

(** ** How the transactions ended *)

Record fates_inv (s : kstate) : Prop := {
  fi_nodup : NoDup (fates s).*1;
  fi_past i c v : (i, c, v) ∈ fates s -> c < starts s i \/ c = starts s i /\ GET_STATUS (status s i) <> TX_ACTIVE }.

Record k_inv (s : kstate) : Prop := {
  k_threads i : thread_inv s i; k_locks : locks_inv s; k_fates : fates_inv s }.

(** ** Threads and the steps of others *)

Lemma allowed_status c v : v ∈ allowed c -> is_status v.
Proof. destruct c; simpl; repeat case_bool; rewrite ?elem_of_cons, ?elem_of_nil; unfold is_status; intros H; repeat destruct H as [->|H]; done. Qed.

Lemma active_allowed c : TX_ACTIVE ∈ allowed c <-> may_be_active c = true.
Proof.
  destruct c; simpl; repeat case_bool; rewrite ?elem_of_cons, ?elem_of_nil; split; intros H; try done; try (by left); repeat destruct H as [H|H]; done.
Qed.

(** What may happen to the transaction of [o] *)
Inductive evolves (s s' : kstate) (o : nat) : Prop :=
| ev_same : status s' o = status s o -> starts s' o = starts s o -> array s' o = array s o -> (nb_entries s o <= nb_entries s' o)%nat -> evolves s s' o
| ev_status v' : array s' o = array s o -> nb_entries s' o = nb_entries s o ->
    (starts s' o = starts s o /\ rank (GET_STATUS (status s o)) < rank v' \/ starts s' o = starts s o + 1) ->
    status s' o = st (starts s' o) v' -> is_status v' ->
    (GET_STATUS (status s o) = TX_KILLED -> nb_entries s o = O) -> evolves s s' o
| ev_array : status s' o = status s o -> starts s' o = starts s o -> array s' o = S (array s o) -> evolves s s' o
| ev_clear : status s' o = status s o -> starts s' o = starts s o -> array s' o = array s o -> rank (GET_STATUS (status s o)) = 2 -> evolves s s' o.

(** The entries that are in use keep what is in them. *)
Definition entries_kept (s s' : kstate) : Prop :=
  forall e, own s (e_thread e) e -> e_lock s' e = e_lock s e /\ e_version s' e = e_version s e.

Lemma evolves_array s s' o : evolves s s' o -> (array s o <= array s' o)%nat.
Proof. intros []; lia. Qed.

Lemma was_stable s s' o t : evolves s s' o -> was s o t -> was s' o t.
Proof.
  intros He (c & v & -> & Hv & Hc). exists c, v. split; [done|]. split; [done|].
  destruct He as [H1 H2 _ _|v' _ _ H3 H4 H5 _|H1 H2 _|H1 H2 _]; rewrite ?H1, ?H2; try done.
  destruct H3 as [[H3 H6]| ->]; [|left; lia]. rewrite H3 in *. destruct Hc as [Hc|[-> Hc]]; [by left|right]. split; [done|]. right.
  rewrite H4, get_st by done. destruct Hc as [Hc|Hc]; [|lia]. rewrite Hc, get_st in H6 by done. done.
Qed.

Lemma checked_stable s s' e a t :
  (forall o, evolves s s' o) -> entries_kept s s' -> was s (e_thread e) t -> checked s e a t -> checked s' e a t.
Proof.
  intros He Hk Hw Hc Ht. pose proof (He (e_thread e)) as Ho.
  assert (Hin : status s (e_thread e) = t -> (array s (e_thread e) <= array s' (e_thread e))%nat ->
    (nb_entries s (e_thread e) <= nb_entries s' (e_thread e))%nat \/ array s' (e_thread e) = S (array s (e_thread e)) ->
    rank (GET_STATUS t) <= 1 /\ current s' e a).
  { intros E Ha Hn. destruct (Hc E) as [Hr [Hcu|(Hc1 & Hc2 & Hc3)]]; (split; [done|]); unfold current; [left; lia|].
    destruct (decide (array s' (e_thread e) = array s (e_thread e))) as [Ea|Ea]; [|left; lia].
    destruct (Hk e) as [-> _]; [by split|]. right. split_and!; [congruence| |done]. destruct Hn as [Hn|Hn]; lia. }
  destruct Ho as [H1 H2 H3 H4|v' H1 H2 H3 H4 H5 H6|H1 H2 H3|H1 H2 H3 H4].
  - apply Hin; [congruence|lia|by left].
  - exfalso. destruct Hw as (c & v & -> & Hv & Hw). rewrite H4 in Ht. apply st_inj in Ht as [E1 E2]; [|done|done]. subst v'.
    destruct H3 as [[H3 H7]|H3]; [|lia]. destruct Hw as [Hw|[_ [Hw|Hw]]]; [lia| |lia]. rewrite Hw, get_st in H7 by done. lia.
  - apply Hin; [congruence|lia|by right].
  - exfalso. destruct (Hc ltac:(congruence)) as [Hr _]. rewrite <- Ht, H1 in Hr. lia.
Qed.

Lemma dead_stable s s' e a (P P' : Prop) :
  evolves s s' (e_thread e) -> entries_kept s s' -> (own s (e_thread e) e -> P -> P') -> dead s e a P -> dead s' e a P'.
Proof.
  intros He Hk HP [Hd|(H1 & H2 & H3 & H4 & H5)]; [left; apply evolves_array in He; lia|]. assert (Ho : own s (e_thread e) e) by done.
  destruct (Hk e Ho) as [Hl _]. destruct He as [E1 E2 E3 E4|v' E1 E2 E3 E4 E5 E6|E1 E2 E3|E1 E2 E3 E4].
  - right. rewrite E1, E3, Hl. split_and!; try done; [lia|auto].
  - specialize (E6 H4). lia.
  - left. lia.
  - rewrite H4 in E4. done.
Qed.

Lemma takes_stable s s' i a l v :
  (forall o, evolves s s' o) -> entries_kept s s' -> array s' i = array s i -> nb_entries s' i = nb_entries s i ->
  takes s i a l v -> takes s' i a l v.
Proof.
  intros He Hk Ha Hn. destruct l as [v'|e w]; [done|]. simpl. intros [Hd Ho]. split; [|done].
  apply (dead_stable s s' e a (v = e_version s e)); try done. intros Hown ->. symmetry. by apply Hk.
Qed.

Lemma know_stable s s' i c :
  (forall o, evolves s s' o) -> entries_kept s s' -> array s' i = array s i -> nb_entries s' i = nb_entries s i -> starts s' i = starts s i ->
  e_version s' (mine i s (nb_entries s i)) = e_version s (mine i s (nb_entries s i)) ->
  (status s' i = status s i \/ may_be_active c = true) -> know s i c -> know s' i c.
Proof.
  intros He Hk Ha Hn Hst Hv Hs. assert (Ho : forall e, own s' i e <-> own s i e) by (intros e; unfold own; by rewrite Ha, Hn).
  assert (Hm : forall j, mine i s' j = mine i s j) by (intros j; unfold mine; by rewrite Ha).
  destruct c; simpl; rewrite ?Ho, ?Hn, ?Hm, ?Hst; try done.
  all: try (intros ->; by destruct Hs as [->|Hs]).
  all: try (intros [? ->]; by destruct Hs as [->|Hs]).
  all: intros Hkn; destruct_and?; split_and?; try done; eauto 3 using was_stable, checked_stable, takes_stable.
  all: try (eapply dead_stable; [done|done| |done]; intros; subst; symmetry; by apply Hk).
  all: try (pose proof (evolves_array _ _ _ (He (e_thread e))); lia).
  - by apply (dead_stable s s' e a True).
  - by rewrite Hv.
  - destruct Hkn as (e & -> & He'). exists e. by rewrite Ho.
Qed.

(** ** Invariants of the other threads *)

(** A step of thread [i], seen by thread [j] *)
Record beside (s s' : kstate) (j : nat) : Prop := {
  be_pc : kpcs s' j = kpcs s j;
  be_array : array s' j = array s j;
  be_nb : nb_entries s' j = nb_entries s j;
  be_starts : starts s' j = starts s j;
  be_version : e_version s' (mine j s (nb_entries s j)) = e_version s (mine j s (nb_entries s j));
  be_status : status s' j = status s j \/ status s j = st (starts s j) TX_ACTIVE /\ status s' j = st (starts s j) TX_KILLED }.

Lemma thread_beside s s' j :
  (forall o, evolves s s' o) -> entries_kept s s' -> beside s s' j -> thread_inv s j -> thread_inv s' j.
Proof.
  intros He Hk [B1 B2 B3 B4 B5 B6] [T1 (v & T2 & T3) T4 T5].
  assert (Hact : status s j = st (starts s j) TX_ACTIVE -> may_be_active (kpcs s j) = true).
  { intros E. rewrite E in T2. apply st_inj in T2 as [_ <-]; [|done|by eapply allowed_status]. by apply active_allowed. }
  constructor; rewrite ?B1, ?B3, ?B4.
  - done.
  - destruct B6 as [->|[E1 ->]]; [eauto|]. exists TX_KILLED. split; [done|]. specialize (Hact E1). apply active_allowed in Hact.
    revert Hact. destruct (kpcs s j); simpl; rewrite ?elem_of_cons; auto; repeat case_bool; rewrite ?elem_of_cons, ?elem_of_nil; intros H; repeat destruct H as [H|H]; done.
  - intros Hs. destruct B6 as [->|[E1 _]]; [by apply T4|]. specialize (Hact E1). by destruct (kpcs s j).
  - eapply know_stable; try done. destruct B6 as [E|[E _]]; [by left|right; auto].
Qed.

Lemma k_frame i s s' :
  k_inv s -> (forall o, evolves s s' o) -> entries_kept s s' -> (forall j, j <> i -> beside s s' j) ->
  thread_inv s' i -> locks_inv s' -> fates_inv s' -> k_inv s'.
Proof.
  intros [T _ _] He Hk Hb Hi HL HF. constructor; [|done|done]. intros j. destruct (decide (j = i)) as [->|Hj]; [done|].
  eapply thread_beside; eauto.
Qed.

Lemma k_evolves_refl s s' o :
  status s' o = status s o -> starts s' o = starts s o -> array s' o = array s o -> nb_entries s' o = nb_entries s o -> evolves s s' o.
Proof. intros. apply ev_same; try done. lia. Qed.

Lemma status_form s i : thread_inv s i -> status s i = st (starts s i) (GET_STATUS (status s i)) /\ GET_STATUS (status s i) ∈ allowed (kpcs s i).
Proof. intros [_ (v & E & Hv) _ _]. pose proof (allowed_status _ _ Hv). rewrite E, get_st by done. done. Qed.

Lemma rank_active v : v ∈ [TX_ACTIVE; TX_KILLED] -> rank v <= 1.
Proof. rewrite !elem_of_cons, elem_of_nil. by intros [->|[->|[]]]. Qed.

(** *** Steps that change nothing but the program counter *)

Lemma k_quiet i c s :
  k_inv s -> GET_STATUS (status s i) ∈ allowed c -> know s i c ->
  (setting c = true -> GET_STATUS (status s i) = TX_KILLED -> nb_entries s i = O) ->
  (forall k, (k < nb_entries s i)%nat -> GET_STATUS (status s i) <> TX_KILLED -> holds c k -> holds (kpcs s i) k) ->
  (forall a k w, locks s a = Owned (mine i s k) w -> (k < nb_entries s i)%nat -> holds (kpcs s i) k -> holds c k) ->
  match c with KDropCas j l => l = locks s (e_lock s (mine i s j)) | _ => True end -> k_inv (kgo i c s).
Proof.
  intros HI Hal Hkn Hset HD HC Hdr. pose proof HI as [HT HL HF]. eapply (k_frame i s _ HI).
  - intros o. by apply k_evolves_refl.
  - done.
  - intros j Hj. constructor; try done; [simpl; by rewrite put_ne|by left].
  - pose proof (HT i) as Hi. destruct (status_form _ _ Hi) as [Ef _]. constructor; simpl; rewrite ?put_eq; try done; [apply Hi|eauto].
  - destruct HL as [L1 L2 L3 L4]. constructor; simpl; [|done| |].
    + intros a e w E. destruct (L1 a e w E) as (H1 & H2 & H3 & H4). split_and!; try done. unfold put. case_decide as Ei; [|done].
      destruct e as [i' g k]; simpl in *. subst i'. destruct H1 as (_ & Hg & Hk). simpl in Hg, Hk. eapply (HC a k w); [|done|done].
      rewrite E. unfold mine. by rewrite Hg.
    + intros j k Hk Hh Hs. apply L3; try done. revert Hh. unfold put. case_decide as Ej; [|done]. subst j. by apply HD.
    + intros j k l w. unfold put. case_decide as Ej; [subst j; intros ->; by subst l|apply L4].
  - by destruct HF as [F1 F2].
Qed.

(** The same for a thread that runs or has decided to end *)
Lemma k_quiet_all i c s :
  k_inv s -> GET_STATUS (status s i) ∈ allowed c -> know s i c -> setting c = false -> (forall k, holds (kpcs s i) k <-> holds c k) ->
  match c with KDropCas j l => False | _ => True end -> k_inv (kgo i c s).
Proof.
  intros HI H1 H2 H3 H4 H5. apply k_quiet; try done; [by rewrite H3|intros k _ _; by rewrite H4|intros a k w _ _; by rewrite H4|by destruct c].
Qed.

Lemma conflict_own s a e w : locks_inv s -> locks s a = Owned e w -> own s (e_thread e) e.
Proof. intros HL E. by apply (li_owned _ HL a e w). Qed.

(** What thread [i] knows after it has loaded a lock *)
Lemma conflict_know s i a m l :
  (match l with Owned e _ => own s (e_thread e) e | _ => True end) -> know s i (conflict i a m l s).
Proof.
  intros He. destruct l as [v|e w]; simpl; [by destruct m|].
  destruct (match m with Invisible => negb w | _ => false end); [done|]. case_decide as Ho.
  - destruct m; try done. destruct w; [done|]. simpl. by exists e.
  - simpl. split; [destruct He as (_ & -> & _); done|]. intros E. apply Ho. rewrite E in He. exact He.
Qed.

Lemma conflict_running i a m l s : allowed (conflict i a m l s) = [TX_ACTIVE; TX_KILLED] /\ (forall k, holds (conflict i a m l s) k).
Proof. unfold conflict. repeat case_match; done. Qed.

Lemma conflict_quiet i a m l s :
  k_inv s -> GET_STATUS (status s i) ∈ [TX_ACTIVE; TX_KILLED] -> (forall k, holds (kpcs s i) k) ->
  (match l with Owned e _ => own s (e_thread e) e | _ => True end) -> k_inv (kgo i (conflict i a m l s) s).
Proof.
  intros HI Hs Hh Hl. destruct (conflict_running i a m l s) as [H1 H2]. apply k_quiet_all; [done|by rewrite H1|by apply conflict_know| | |].
  - unfold conflict. repeat case_match; done.
  - intros k. split; [intros _; apply H2|intros _; apply Hh].
  - unfold conflict. repeat case_match; done.
Qed.

(** *** The status word of another transaction *)

Lemma rank_cases c v : v ∈ allowed c -> (exists k, holds c k) -> rank v <= 1.
Proof.
  intros Hv [k Hk]. revert Hv. destruct c; simpl in *; try done; repeat case_bool; rewrite ?elem_of_cons, ?elem_of_nil;
    intros Hv; repeat destruct Hv as [->|Hv]; done.
Qed.

Lemma was_now s o : thread_inv s o -> was s o (status s o).
Proof.
  intros Ho. destruct (status_form _ _ Ho) as [E Hv]. pose proof (allowed_status _ _ Hv). exists (starts s o), (GET_STATUS (status s o)).
  split; [done|]. split; [done|]. right. split; [done|by left].
Qed.

(** The status has been read while the lock was owned. *)
Lemma checked_now s a e w t :
  k_inv s -> locks s a = Owned e w -> checked s e a t.
Proof.
  intros [HT HL _] E Ht. destruct (li_owned _ HL a e w E) as ((H1 & H2 & H3) & H4 & H5 & H6). split.
  - rewrite <- Ht. destruct (status_form _ _ (HT (e_thread e))) as [_ Hv]. eapply rank_cases; [exact Hv|eauto].
  - right. done.
Qed.

Lemma low_rank v : rank v <= 1 -> v = TX_ACTIVE \/ v = TX_COMMITTING \/ v = TX_ABORTING \/ v = TX_KILLED.
Proof.
  unfold rank. destruct (Z.eqb_spec v TX_ACTIVE), (Z.eqb_spec v TX_COMMITTING), (Z.eqb_spec v TX_ABORTING), (Z.eqb_spec v TX_KILLED); simpl; auto; lia.
Qed.

Lemma to_rollback v : v ∈ [TX_ACTIVE; TX_KILLED] -> v ∈ allowed KRollback.
Proof. simpl. rewrite !elem_of_cons, elem_of_nil. intros [->|[->|[]]]; auto. Qed.

(** *** Accesses *)

Lemma access_quiet i d s :
  k_inv s ->
  match kpcs s i with
  | KCheck _ _ | KLoad _ _ | KStatus _ _ _ _ | KReload _ _ _ _ _ | KRecheck _ _ _ _ _ | KDecide _ _ _ _ _ | KKillWait _ _ _ _
  | KKillSpin _ _ _ _ | KVersion _ _ _ _ => True
  | _ => False
  end -> k_inv (access_next i d s).
Proof.
  intros HI Hc. pose proof HI as [HT HL HF]. pose proof (HT i) as Hi. destruct (status_form _ _ Hi) as [_ Hs]. pose proof (ti_know _ _ Hi) as Hkn.
  assert (Hcon : forall a, match locks s a with Owned e _ => own s (e_thread e) e | _ => True end).
  { intros a. destruct (locks s a) as [|e w] eqn:E; [done|]. by eapply conflict_own. }
  unfold access_next, kill_next, extend_next, stm_kill. destruct (kpcs s i) eqn:Hp; try done; simpl in Hs, Hkn.
  - case_bool; apply k_quiet_all; rewrite ?Hp; try done. by apply to_rollback.
  - apply conflict_quiet; rewrite ?Hp; try done. by apply Hcon.
  - apply k_quiet_all; rewrite ?Hp; try done. simpl. split; [apply Hkn|]. split; [apply was_now, HT|apply Hkn].
  - destruct Hkn as (K1 & K2 & K3). case_decide as E.
    + apply k_quiet_all; rewrite ?Hp; try done. simpl. split; [done|]. split; [by eapply checked_now|done].
    + apply conflict_quiet; rewrite ?Hp; try done. by apply Hcon.
  - destruct Hkn as (K1 & K2 & K3). destruct (Z.eqb_spec t (status s (e_thread e))) as [E|E]; simpl negb; cbv iota.
    + destruct (K2 (eq_sym E)) as [Hr Hcu]. destruct (Z.eqb_spec (GET_STATUS t) TX_KILLED) as [Ek|Ek]; apply k_quiet_all; rewrite ?Hp; try done; simpl.
      * split; [|done]. destruct Hcu as [Hcu|(H1 & H2 & H3)]; [by left|right]. rewrite <- E. done.
      * split_and!; try done. rewrite !elem_of_cons. apply low_rank in Hr as [->|[->|[->|Hr]]]; auto; done.
    + apply k_quiet_all; rewrite ?Hp; done.
  - destruct Hkn as (K1 & K2 & K3 & K4). rewrite !elem_of_cons, elem_of_nil in K4.
    case_bool; [apply k_quiet_all; rewrite ?Hp; try done; by apply to_rollback|].
    destruct d; simpl negb; cbv iota; [|apply k_quiet_all; rewrite ?Hp; try done; by apply to_rollback].
    unfold IS_ACTIVE. destruct K4 as [E|[E|[E|[]]]]; rewrite E; simpl; apply k_quiet_all; rewrite ?Hp; done.
  - case_bool; [done|apply k_quiet_all; rewrite ?Hp; done].
  - case_match; [done|apply k_quiet_all; rewrite ?Hp; done].
  - destruct Hkn as [K1 K2]. assert (Hd : dead s e a (e_version s e = e_version s e)).
    { destruct K1 as [K1|(H1 & H2 & H3 & H4 & _)]; [by left|by right]. }
    destruct m; apply k_quiet_all; rewrite ?Hp; done.
Qed.

(** *** A transaction ceases to be active *)

Lemma leave_eq s o t v :
  is_count (starts s o) -> is_status v -> t = st (starts s o) TX_ACTIVE ->
  leave o t v s = s <| status := put (status s) o (st (starts s o) v) |> <| fates := fates s ++ [(o, starts s o, v)] |>.
Proof. intros Hc Hv ->. unfold leave. by rewrite leave_st, count_st by done. Qed.

Lemma leave_fates s s' o v :
  fates_inv s -> status s o = st (starts s o) TX_ACTIVE -> is_status v -> v <> TX_ACTIVE ->
  status s' = put (status s) o (st (starts s o) v) -> starts s' = starts s -> fates s' = fates s ++ [(o, starts s o, v)] -> fates_inv s'.
Proof.
  intros [F1 F2] Ho Hv Hn H1 H2 H3. constructor; rewrite ?H2, ?H3.
  - rewrite fmap_app. apply list.NoDup_app. split; [done|]. split; [|apply NoDup_singleton]. intros [i c] Hin Heq%list_elem_of_singleton. injection Heq as -> ->.
    apply list_elem_of_fmap in Hin as ([[i' c'] v'] & [= <- <-] & Hin). destruct (F2 _ _ _ Hin) as [Hlt|[_ Hne]]; [lia|]. apply Hne. by rewrite Ho, get_st.
  - intros i c v' Hin. rewrite H1. apply elem_of_app in Hin as [Hin|Hin].
    + destruct (F2 _ _ _ Hin) as [Hlt|[-> Hne]]; [by left|]. right. split; [done|]. unfold put. case_decide; [subst|done]. by rewrite get_st.
    + apply list_elem_of_singleton in Hin as [= -> -> ->]. right. split; [done|]. by rewrite put_eq, get_st.
Qed.

Lemma leave_evolves s s' o v :
  status s o = st (starts s o) TX_ACTIVE -> is_status v -> rank v = 1 -> status s' = put (status s) o (st (starts s o) v) ->
  starts s' = starts s -> array s' = array s -> nb_entries s' = nb_entries s -> forall j, evolves s s' j.
Proof.
  intros Ho Hv Hr H1 H2 H3 H4 j. destruct (decide (j = o)) as [->|Hj].
  - eapply (ev_status s s' o v); rewrite ?H1, ?H2, ?H3, ?H4, ?put_eq, ?Ho, ?get_st; try done. left. by rewrite Hr.
  - apply k_evolves_refl; rewrite ?H1, ?H2, ?H3, ?H4, ?put_ne by done; done.
Qed.

(** The locks, when only a status changes and thread [i] goes to [c] *)
Lemma leave_locks s s' i o v c :
  locks_inv s -> status s o = st (starts s o) TX_ACTIVE -> is_status v -> status s' = put (status s) o (st (starts s o) v) ->
  locks s' = locks s -> e_version s' = e_version s -> e_lock s' = e_lock s -> array s' = array s -> nb_entries s' = nb_entries s -> base s' = base s ->
  kpcs s' = put (kpcs s) i c -> (forall k, holds (kpcs s i) k <-> holds c k) -> (forall j l, c <> KDropCas j l) -> locks_inv s'.
Proof.
  intros [L1 L2 L3 L4] Ho Hv H1 H2 H3 H4 H5 H6 H7 H8 Hh Hd.
  assert (Hhold : forall j k, holds (kpcs s' j) k <-> holds (kpcs s j) k) by (intros j k; rewrite H8; unfold put; case_decide; [subst; by rewrite Hh|done]).
  constructor; unfold own, mine; rewrite ?H2, ?H3, ?H4, ?H5, ?H6, ?H7.
  - intros a e w E. rewrite Hhold. by apply (L1 a e w).
  - done.
  - intros j k Hk Hk' Hs. apply L3; [done|by apply Hhold|]. intros E. apply Hs. rewrite H1. unfold put. case_decide; [|done]. subst.
    rewrite Ho, get_st in E by done. done.
  - intros j k l w. rewrite H8. unfold put. case_decide; [intros E; by apply Hd in E|apply L4].
Qed.

Definition bounded (s : kstate) : Prop := forall i, starts s i < 2 ^ 60.

Lemma kill_inv i d s a m e w t : bounded s -> k_inv s -> kpcs s i = KKillCas a m e w t -> k_inv (access_next i d s).
Proof.
  intros Hb HI Hp. pose proof HI as [HT HL HF]. pose proof (HT i) as Hi. destruct (status_form _ _ Hi) as [_ Hs]. pose proof (ti_know _ _ Hi) as Hkn.
  unfold access_next, kill_next, extend_next, stm_kill. rewrite Hp in *. simpl in Hs, Hkn. destruct Hkn as (K1 & K2 & K3 & K4).
  destruct (Z.eqb_spec (status s (e_thread e)) t) as [E|E]; [|apply k_quiet_all; rewrite ?Hp; done].
  set (o := e_thread e) in *. destruct (status_form _ _ (HT o)) as [Ef _]. rewrite E, K4 in Ef.
  destruct (K2 E) as [_ Hcu]. assert (Hc : is_count (starts s o)) by (split; [apply HT|apply Hb]).
  rewrite leave_eq by done. rewrite Ef in E. eapply (k_frame i s _ HI); [by eapply (leave_evolves s _ o TX_KILLED)|done| | | |].
  - intros j Hj. constructor; try done; [simpl; by rewrite put_ne|]. simpl. destruct (decide (j = o)) as [->|Hjo]; [right; by rewrite put_eq|left; by rewrite put_ne].
  - constructor; simpl; rewrite ?put_eq; try done; [apply Hi| |].
    + rewrite put_ne by congruence. destruct (status_form _ _ Hi) as [Ei _]. eauto.
    + simpl. split; [|done]. destruct Hcu as [Hcu|(H1 & H2 & H3)]; [by left|right]. split_and!; try done. simpl. fold o. by rewrite put_eq, get_st.
  - eapply (leave_locks s _ i o TX_KILLED (KVersion a m e w)); try done. by rewrite Hp.
  - by eapply (leave_fates s _ o TX_KILLED).
Qed.

(** *** A lock changes hands *)

Lemma dead_owned s a e w P :
  locks_inv s -> locks s a = Owned e w -> dead s e a P -> GET_STATUS (status s (e_thread e)) = TX_KILLED /\ P.
Proof.
  intros HL E [Hd|(_ & _ & _ & H4 & H5)]; [|done]. destruct (conflict_own s a e w HL E) as (_ & H2 & _). lia.
Qed.

Lemma takes_base s i a l v :
  locks_inv s -> locks s a = l -> takes s i a l v ->
  v = base s a /\ forall e w, l = Owned e w -> e_thread e <> i /\ GET_STATUS (status s (e_thread e)) = TX_KILLED.
Proof.
  intros HL E Ht. destruct l as [v'|e w]; simpl in Ht; [subst; split; [by apply (li_unlocked _ HL)|done]|]. destruct Ht as [Hd Hn].
  destruct (dead_owned s a e w _ HL E Hd) as [Hk ->]. destruct (li_owned _ HL a e w E) as (_ & _ & -> & _). split; [done|]. by intros ? ? [= <- <-].
Qed.

(** The lock [a] gets its version back; the owner has been killed. *)
Lemma steal_locks s s' i a e w :
  locks_inv s -> locks s a = Owned e w -> GET_STATUS (status s (e_thread e)) = TX_KILLED -> (forall k, holds (kpcs s i) k) ->
  locks s' = put (locks s) a (Unlocked (base s a)) -> status s' = status s -> array s' = array s -> nb_entries s' = nb_entries s ->
  e_lock s' = e_lock s -> e_version s' = e_version s -> base s' = base s -> kpcs s' = put (kpcs s) i KRun -> locks_inv s'.
Proof.
  intros [L1 L2 L3 L4] E Hkill Hh H1 H2 H3 H4 H5 H6 H7 H8.
  assert (Hhold : forall j k, holds (kpcs s' j) k <-> holds (kpcs s j) k) by (intros j k; rewrite H8; unfold put; case_decide; [by subst|done]).
  constructor; unfold own, mine; rewrite ?H1, ?H2, ?H3, ?H4, ?H5, ?H6, ?H7.
  - intros a' e' w'. rewrite Hhold. unfold put. case_decide; [done|]. apply L1.
  - intros a' v'. unfold put. case_decide; [intros [= <-]; by subst|apply L2].
  - intros j k Hk Hj Hst. rewrite Hhold in Hj. destruct (L3 j k Hk Hj Hst) as [w' Hw]. exists w'. unfold put. case_decide as Ea; [|done].
    unfold mine in Hw. rewrite Ea, E in Hw. injection Hw as He _. by rewrite He in Hkill.
  - intros j k l w'. rewrite H8. unfold put. case_decide; [done|]. case_decide; [done|apply L4].
Qed.

Lemma steal_inv i d s a e w v : k_inv s -> kpcs s i = KSteal a e w v -> k_inv (access_next i d s).
Proof.
  intros HI Hp. pose proof HI as [HT HL HF]. pose proof (HT i) as Hi. destruct (status_form _ _ Hi) as [Ei Hs]. pose proof (ti_know _ _ Hi) as Hkn.
  unfold access_next, kill_next, extend_next, stm_kill. rewrite Hp in *. simpl in Hs, Hkn. case_decide as E; [|apply k_quiet_all; rewrite ?Hp; done].
  destruct (takes_base s i a (Owned e w) v HL E Hkn) as [Hv Hk]. destruct (Hk e w eq_refl) as [Hne Hkill]. simpl conflict.
  eapply (k_frame i s _ HI); [intros o; by apply k_evolves_refl|done| | | |by destruct HF].
  - intros j Hj. constructor; try done; [simpl; by rewrite put_ne|by left].
  - constructor; simpl; rewrite ?put_eq; try done; [apply Hi|eauto].
  - eapply (steal_locks s _ i a e w); try done; [by rewrite Hp|]. simpl. by rewrite Hv.
Qed.

(** The lock [a] goes to the next entry of thread [i]. *)
Lemma take_locks s s' i a l w :
  locks_inv s -> locks s a = l -> (forall e w, l = Owned e w -> e_thread e <> i /\ GET_STATUS (status s (e_thread e)) = TX_KILLED) ->
  e_version s (mine i s (nb_entries s i)) = base s a -> (forall k, holds (kpcs s i) k) ->
  locks s' = put (locks s) a (Owned (mine i s (nb_entries s i)) w) -> e_lock s' = put (e_lock s) (mine i s (nb_entries s i)) a ->
  nb_entries s' = put (nb_entries s) i (S (nb_entries s i)) -> status s' = status s -> array s' = array s -> e_version s' = e_version s ->
  base s' = base s -> kpcs s' = put (kpcs s) i KRun -> locks_inv s'.
Proof.
  intros [L1 L2 L3 L4] E Hl Hv Hh H1 H2 H3 H4 H5 H6 H7 H8. set (e := mine i s (nb_entries s i)) in *.
  assert (Hother : forall e', own s (e_thread e') e' -> e' <> e) by (intros e' (_ & _ & Hx) ->; simpl in Hx; lia).
  assert (Hhold : forall j k, holds (kpcs s' j) k <-> holds (kpcs s j) k) by (intros j k; rewrite H8; unfold put; case_decide; [by subst|done]).
  constructor; rewrite ?H1, ?H2, ?H3, ?H4, ?H6, ?H7.
  - intros a' e' w'. rewrite Hhold. unfold put at 1. case_decide as Ea.
    + intros [= <- _]. subst a'. unfold own. rewrite H3, H5. simpl. rewrite !put_eq. split_and!; try done. lia.
    + intros Hw. destruct (L1 a' e' w' Hw) as (G & G3 & G4 & G5). rewrite put_ne by (by apply Hother). split_and!; try done.
      destruct G as (G1 & G2 & Gk). unfold own. rewrite H3, H5. split_and!; try done. unfold put. case_decide as Eo; [rewrite Eo in Gk; lia|done].
  - intros a' v'. unfold put. case_decide; [done|apply L2].
  - intros j k Hk Hj Hst. rewrite Hhold in Hj. replace (mine j s' k) with (mine j s k) by (unfold mine; by rewrite H5).
    destruct (decide (mine j s k = e)) as [Ee|Ee]; [rewrite Ee, !put_eq; eauto|]. rewrite (put_ne (e_lock s)) by done.
    assert (Hk2 : (k < nb_entries s j)%nat).
    { revert Hk. unfold put. case_decide as Ej; [subst j|done]. intros Hk. destruct (decide (k = nb_entries s i)) as [->|]; [done|lia]. }
    destruct (L3 j k Hk2 Hj Hst) as [w' Hw]. exists w'. unfold put. case_decide as Ea; [|done].
    rewrite Ea, E in Hw. destruct (Hl _ _ Hw) as [_ Hkl]. done.
  - intros j k l' w'. rewrite H8. unfold mine. rewrite H5. fold (mine j s k). unfold put at 1. case_decide as Ej; [done|].
    assert (Ee : mine j s k <> e) by (intros Ee; injection Ee; congruence). rewrite (put_ne (e_lock s)) by done. unfold put. case_decide as Ea; [|apply L4].
    intros _ [= Ee' _]. congruence.
Qed.

Lemma acquire_inv i d s a m l v : k_inv s -> kpcs s i = KTake a m l v -> k_inv (access_next i d s).
Proof.
  intros HI Hp. pose proof HI as [HT HL HF]. pose proof (HT i) as Hi. destruct (status_form _ _ Hi) as [Ei Hs]. pose proof (ti_know _ _ Hi) as Hkn.
  unfold access_next, kill_next, extend_next, stm_kill. rewrite Hp in *. simpl in Hs, Hkn. case_decide as E; [|apply k_quiet_all; rewrite ?Hp; done]. destruct Hkn as [Hkn Hver].
  destruct (takes_base s i a l v HL E Hkn) as [Hv Hk].
  eapply (k_frame i s _ HI); [| | | | |by destruct HF].
  - intros o. apply ev_same; try done. simpl. unfold put. case_decide; subst; lia.
  - intros e' (_ & _ & Hx). simpl. rewrite put_ne; [done|]. intros ->. simpl in Hx. lia.
  - intros j Hj. constructor; try done; [simpl; by rewrite put_ne|simpl; by rewrite put_ne|by left].
  - constructor; simpl; rewrite ?put_eq; try done; [apply Hi|eauto].
  - eapply (take_locks s _ i a l); try done; [by rewrite Hver|by rewrite Hp].
Qed.

Lemma fill_quiet i d s a m l v :
  k_inv s -> kpcs s i = KFill a m l v -> extended (access_next i d s) = false -> k_inv (access_next i d s).
Proof.
  intros HI Hp. pose proof HI as [HT HL HF]. pose proof (HT i) as Hi. destruct (status_form _ _ Hi) as [Ei Hs]. pose proof (ti_know _ _ Hi) as Hkn.
  unfold access_next, kill_next, extend_next, stm_kill. rewrite Hp in *. simpl in Hs, Hkn.
  destruct (match m with Writing => negb d | _ => false end); [intros _; apply k_quiet_all; rewrite ?Hp; try done; by apply to_rollback|].
  case_match; [done|intros _]. set (e := mine i s (nb_entries s i)).
  assert (Hother : forall e', own s (e_thread e') e' -> e' <> e) by (intros e' (_ & _ & Hx) ->; simpl in Hx; lia).
  eapply (k_frame i s _ HI); [intros o; by apply k_evolves_refl| | | | |by destruct HF].
  - intros e' He'. simpl. by rewrite put_ne by (by apply Hother).
  - intros j Hj. constructor; try done; [simpl; by rewrite put_ne| |by left]. simpl. rewrite put_ne; [done|]. intros Ee. by injection Ee.
  - constructor; simpl; rewrite ?put_eq; try done; [apply Hi|eauto|]. split; [|apply put_eq].
    apply (takes_stable s); try done; [intros o; by apply k_evolves_refl|]. intros e' He'. simpl. by rewrite put_ne by (by apply Hother).
  - destruct HL as [L1 L2 L3 L4].
    assert (Hhold : forall j k, holds (put (kpcs s) i (KTake a m l v) j) k <-> holds (kpcs s j) k) by (intros j k; unfold put; case_decide; [subst; by rewrite Hp|done]).
    constructor; simpl.
    + intros a' e' w' Hw. rewrite Hhold. destruct (L1 a' e' w' Hw) as (H1 & H2 & H3 & H4). by rewrite put_ne by (by apply Hother).
    + done.
    + intros j k Hk Hh. rewrite Hhold in Hh. by apply L3.
    + intros j k l' w'. unfold put. case_decide; [done|apply L4].
Qed.

Lemma upgrade_inv i d s a l : k_inv s -> kpcs s i = KUpgrade a l -> k_inv (access_next i d s).
Proof.
  intros HI Hp. pose proof HI as [HT HL HF]. pose proof (HT i) as Hi. destruct (status_form _ _ Hi) as [Ei Hs]. pose proof (ti_know _ _ Hi) as Hkn.
  unfold access_next, kill_next, extend_next, stm_kill. rewrite Hp in *. simpl in Hs, Hkn. case_decide as E; [|apply k_quiet_all; rewrite ?Hp; try done; by apply to_rollback].
  destruct Hkn as (e & -> & He).
  eapply (k_frame i s _ HI); [intros o; by apply k_evolves_refl|done| | | |by destruct HF].
  - intros j Hj. constructor; try done; [simpl; by rewrite put_ne|by left].
  - constructor; simpl; rewrite ?put_eq; try done; [apply Hi|eauto].
  - destruct HL as [L1 L2 L3 L4].
    assert (Hhold : forall j k, holds (put (kpcs s) i KRun j) k <-> holds (kpcs s j) k) by (intros j k; unfold put; case_decide; [subst; by rewrite Hp|done]).
    constructor; simpl.
    + intros a' e' w'. rewrite Hhold. unfold put. case_decide; [|apply L1]. subst a'. intros [= <- <-]. by apply (L1 a e false).
    + intros a' v'. unfold put. case_decide; [done|apply L2].
    + intros j k Hk Hh Hst. rewrite Hhold in Hh. destruct (L3 j k Hk Hh Hst) as [w' Hw]. unfold put. case_decide as Ea; [|by exists w'].
      exists true. unfold mine in *. simpl in Hw, Ea. rewrite Ea, E in Hw. by injection Hw as ->.
    + intros j k l' w'. unfold put. case_decide as Ej; [done|]. case_decide as Ea; [|apply L4]. intros _ [= Ee _]. destruct He as (Het & _).
      rewrite Ee in Het. by destruct Ej.
Qed.

Lemma access_inv i d s :
  bounded s -> k_inv s -> match kpcs s i with
    | KUpdate | KUpdate2 _ | KCommit | KCommitCas _ | KCommitFailed | KCommitting | KInstall _ _ | KRollback | KRollbackCas _
    | KRollbackFailed | KRelease _ _ | KDrop _ | KDropCas _ _ | KRealloc | KSet _ | KSet2 _ _ => False | _ => True end ->
  extended (access_next i d s) = false -> k_inv (access_next i d s).
Proof.
  intros Hb HI Hc He. destruct (kpcs s i) eqn:Hp; try done; try (by apply access_quiet; [|rewrite Hp]); try (unfold access_next, kill_next, extend_next, stm_kill; by rewrite Hp).
  - by eapply kill_inv.
  - by eapply steal_inv.
  - by eapply fill_quiet.
  - by eapply acquire_inv.
  - by eapply upgrade_inv.
  - destruct (status_form _ _ (k_threads _ HI i)) as [_ Hs]. rewrite Hp in Hs. by apply elem_of_nil in Hs.
Qed.

(** *** The end of a transaction *)

Lemma active_killed v : v ∈ [TX_ACTIVE; TX_KILLED] -> v <> TX_KILLED -> v = TX_ACTIVE.
Proof. rewrite !elem_of_cons, elem_of_nil. by intros [->|[->|[]]]. Qed.

Lemma is_active_low v c : is_status v -> rank v <= 1 -> IS_ACTIVE (st c v) = true.
Proof. intros Hv Hr. unfold IS_ACTIVE. rewrite get_st by done. by apply low_rank in Hr as [->|[->|[->| ->]]]. Qed.

Lemma end_quiet i d ts s :
  k_inv s ->
  match kpcs s i with
  | KUpdate | KCommit | KCommitFailed | KCommitting | KRollback | KRollbackFailed | KDrop _ | KSet _ => True
  | KInstall j _ | KRelease j _ => (nb_entries s i <= j)%nat
  | _ => False
  end -> k_inv (end_next i d ts s).
Proof.
  intros HI Hc. pose proof HI as [HT HL HF]. pose proof (HT i) as Hi. destruct (status_form _ _ Hi) as [Ei Hs]. pose proof (ti_know _ _ Hi) as Hkn.
  pose proof (allowed_status _ _ Hs) as Hst.
  unfold end_next, commit_next, rollback_next, drop_next. destruct (kpcs s i) eqn:Hp; try done; simpl in Hs, Hkn.
  - apply k_quiet_all; rewrite ?Hp; done.
  - rewrite Ei at 1. rewrite is_active_low by (done || by apply rank_active). simpl negb. cbv iota.
    case_bool; apply k_quiet_all; rewrite ?Hp; try done; simpl; [by apply list_elem_of_singleton|]. rewrite Ei. f_equal. by apply active_killed.
  - apply list_elem_of_singleton in Hs as Hk. rewrite Hk. simpl. apply k_quiet_all; rewrite ?Hp; try done. rewrite Hk. simpl. rewrite !elem_of_cons. auto.
  - apply list_elem_of_singleton in Hs as Hk. destruct (Nat.eqb_spec (nb_entries s i) 0) as [E|E]; [|case_bool; [|destruct d]].
    + apply k_quiet; rewrite ?Hp; try done; simpl; try done; intros; lia.
    + apply k_quiet_all; rewrite ?Hp; try done; simpl; try done. intros k. split; [intros _; lia|done].
    + apply k_quiet_all; rewrite ?Hp; try done; simpl; try done. intros k. split; [intros _; lia|done].
    + apply k_quiet_all; rewrite ?Hp; try done. rewrite Hk. simpl. rewrite !elem_of_cons. auto.
  - apply list_elem_of_singleton in Hs as Hk. destruct (Nat.ltb_spec j (nb_entries s i)); [lia|]. apply k_quiet; rewrite ?Hp, ?Hk; try done; simpl; try done; [by apply list_elem_of_singleton|].
    intros; lia.
  - assert (Hr : rank (GET_STATUS (status s i)) <= 1) by (eapply (rank_cases KRollback); [done|by exists O]).
    rewrite Ei at 1. rewrite is_active_low by done. simpl negb. cbv iota. rewrite !elem_of_cons, elem_of_nil in Hs.
    destruct Hs as [E|[E|[E|[]]]]; rewrite E; simpl; apply k_quiet_all; rewrite ?Hp, ?E; try done; simpl; rewrite ?elem_of_cons; auto.
    + rewrite Ei. by rewrite E.
    + intros k. split; [intros _; lia|done].
  - apply list_elem_of_singleton in Hs as Hk. rewrite Hk. simpl. apply k_quiet_all; rewrite ?Hp; try done. intros k. simpl. split; [intros _; lia|done].
  - destruct (Nat.ltb_spec j (nb_entries s i)); [lia|]. apply k_quiet; rewrite ?Hp; try done; simpl; [| |intros; lia].
    + revert Hs. case_bool; rewrite ?elem_of_cons; [done|]. intros [->|[->|?]]; auto.
    + intros _ E. revert Hs. rewrite E. case_bool; rewrite ?elem_of_cons, ?elem_of_nil; intros Hx; repeat destruct Hx as [Hx|Hx]; done.
  - apply list_elem_of_singleton in Hs as Hk. destruct (Nat.ltb_spec j (nb_entries s i)) as [Hj|Hj].
    + assert (Hnext : forall l, locks s (e_lock s (mine i s j)) = l -> (forall w, l <> Owned (mine i s j) w) -> k_inv (kgo i (KDrop (S j)) s)).
      { intros l El Hl. apply k_quiet; rewrite ?Hp, ?Hk; try done; try (by apply list_elem_of_singleton); simpl. intros a k w Ew Hkn' Hjk.
        destruct (decide (k = j)) as [->|]; [|lia]. destruct (li_owned _ HL a _ w Ew) as (_ & Ha & _). exfalso. rewrite Ha, Ew in El. by apply (Hl w). }
      destruct (locks s (e_lock s (mine i s j))) as [v|e w] eqn:El; [by apply (Hnext (Unlocked v))|]. case_decide as Ee; [|apply (Hnext (Owned e w)); [done|congruence]].
      apply k_quiet; rewrite ?Hp, ?Hk; try done; try (by apply list_elem_of_singleton); simpl. split; [done|]. exists w. by rewrite Ee.
    + destruct (Nat.eqb_spec (nb_entries s i) 0) as [E|E]; apply k_quiet; rewrite ?Hp, ?Hk; try done; try (by apply list_elem_of_singleton); simpl; try done; try (intros; lia).
      rewrite !elem_of_cons. auto.
  - apply k_quiet; rewrite ?Hp; try done. intros _. apply (ti_empty _ _ Hi). by rewrite Hp.
Qed.

(** The thread's own compare-and-swap, to commit or to abort *)
Lemma own_leave_inv i s t v c :
  bounded s -> k_inv s -> t = st (starts s i) TX_ACTIVE -> status s i = t -> GET_STATUS (status s i) ∈ [TX_ACTIVE; TX_KILLED] ->
  is_status v -> rank v = 1 -> v ∈ allowed c -> (forall s', know s' i c) -> setting c = false -> (forall k, holds (kpcs s i) k <-> holds c k) ->
  (forall j l, c <> KDropCas j l) -> k_inv (kgo i c (leave i t v s)).
Proof.
  intros Hb HI Ht E Hs Hv Hr Hal Hkn Hset Hh Hd. pose proof HI as [HT HL HF]. pose proof (HT i) as Hi.
  assert (Hc : is_count (starts s i)) by (split; [apply HT|apply Hb]). assert (Ho : status s i = st (starts s i) TX_ACTIVE) by congruence.
  assert (Hva : v <> TX_ACTIVE) by (intros ->; done).
  rewrite leave_eq by done. eapply (k_frame i s _ HI); [by eapply (leave_evolves s _ i v)|done| | | |].
  - intros j Hj. constructor; try done; [simpl; by rewrite put_ne|]. left. simpl. by rewrite put_ne.
  - constructor; simpl; rewrite ?put_eq; [apply Hi|eauto|by rewrite Hset|apply Hkn].
  - by eapply (leave_locks s _ i i v c).
  - by eapply (leave_fates s _ i v).
Qed.

Lemma commit_cas_inv i d ts s t : bounded s -> k_inv s -> kpcs s i = KCommitCas t -> k_inv (end_next i d ts s).
Proof.
  intros Hb HI Hp. pose proof (k_threads _ HI i) as Hi. destruct (status_form _ _ Hi) as [Ei Hs]. pose proof (ti_know _ _ Hi) as Hkn.
  unfold end_next, commit_next, rollback_next, drop_next. rewrite Hp in *. simpl in Hs, Hkn. destruct (Z.eqb_spec (status s i) t) as [E|E].
  - apply own_leave_inv; rewrite ?Hp; try done. by apply list_elem_of_singleton.
  - apply k_quiet_all; rewrite ?Hp; try done. apply list_elem_of_singleton.
    destruct (decide (GET_STATUS (status s i) = TX_KILLED)) as [|Hn]; [done|]. exfalso. apply E. rewrite Ei, Hkn. f_equal. by apply active_killed.
Qed.

Lemma rollback_cas_inv i d ts s t : bounded s -> k_inv s -> kpcs s i = KRollbackCas t -> k_inv (end_next i d ts s).
Proof.
  intros Hb HI Hp. pose proof (k_threads _ HI i) as Hi. destruct (status_form _ _ Hi) as [Ei Hs]. pose proof (ti_know _ _ Hi) as Hkn.
  unfold end_next, commit_next, rollback_next, drop_next. rewrite Hp in *. simpl in Hs, Hkn. destruct (Z.eqb_spec (status s i) t) as [E|E].
  - apply own_leave_inv; rewrite ?Hp; try done; [simpl; rewrite !elem_of_cons; auto|intros s'; exact final_aborted|]. intros k. simpl. split; [intros _; lia|done].
  - apply k_quiet_all; rewrite ?Hp; try done. apply list_elem_of_singleton.
    destruct (decide (GET_STATUS (status s i) = TX_KILLED)) as [|Hn]; [done|]. exfalso. apply E. rewrite Ei, Hkn. f_equal. by apply active_killed.
Qed.

(** *** A lock is released by its owner *)

Lemma release_locks s s' i j c v w :
  locks_inv s -> (j < nb_entries s i)%nat -> locks s (e_lock s (mine i s j)) = Owned (mine i s j) w ->
  (forall k, holds c k <-> (S j <= k)%nat) -> (forall k, holds (kpcs s i) k <-> (j <= k)%nat) -> (forall j' l, c <> KDropCas j' l) ->
  locks s' = put (locks s) (e_lock s (mine i s j)) (Unlocked v) -> base s' (e_lock s (mine i s j)) = v ->
  (forall a, a <> e_lock s (mine i s j) -> base s' a = base s a) -> status s' = status s -> array s' = array s -> nb_entries s' = nb_entries s ->
  e_lock s' = e_lock s -> e_version s' = e_version s -> kpcs s' = put (kpcs s) i c -> locks_inv s'.
Proof.
  intros [L1 L2 L3 L4] Hj E Hc Ho Hd H1 H2 H3 H4 H5 H6 H7 H8 H9. set (a0 := e_lock s (mine i s j)) in *.
  constructor; unfold own, mine; rewrite ?H1, ?H4, ?H5, ?H6, ?H7, ?H8, ?H9.
  - intros a e w'. unfold put. case_decide as Ea; [done|]. intros Hw. destruct (L1 a e w' Hw) as (G & G2 & G3 & G4). rewrite H3 by done.
    split_and!; try done; try apply G. case_decide as Ei; [|done]. apply Hc. rewrite Ei in G4. apply Ho in G4.
    destruct (decide (e_index e = j)) as [Ej|]; [|lia]. exfalso. apply Ea. rewrite <- G2. unfold a0. f_equal.
    destruct G as (_ & Gb & _), e as [i' g k]. simpl in *. unfold mine. congruence.
  - intros a v'. unfold put. case_decide as Ea; [intros [= <-]; by rewrite Ea|]. rewrite H3 by done. apply L2.
  - intros j' k Hk Hh Hst. fold (mine j' s k). assert (Hne : mine j' s k <> mine i s j).
    { intros Em. injection Em as -> _ ->. rewrite put_eq in Hh. apply Hc in Hh. lia. }
    assert (Hh' : holds (kpcs s j') k).
    { revert Hh. unfold put. case_decide as Ei; [|done]. rewrite Hc, Ei, Ho. lia. }
    destruct (L3 j' k Hk Hh' Hst) as [w' Hw]. exists w'. unfold put. case_decide as Ea; [|done]. rewrite Ea, E in Hw. exfalso. apply Hne. congruence.
  - intros j' k l w'. fold (mine j' s k). unfold put. case_decide as Ei; [intros Ec; by apply Hd in Ec|]. case_decide; [done|apply L4].
Qed.

Lemma release_frame i s s' c :
  k_inv s -> locks_inv s' -> status s' = status s -> starts s' = starts s -> array s' = array s -> nb_entries s' = nb_entries s ->
  e_lock s' = e_lock s -> e_version s' = e_version s -> kpcs s' = put (kpcs s) i c -> fates s' = fates s ->
  GET_STATUS (status s i) ∈ allowed c -> (forall s', know s' i c) -> setting c = false -> k_inv s'.
Proof.
  intros HI HL H1 H2 H3 H4 H5 H6 H7 H8 Hal Hkn Hset. pose proof (k_threads _ HI i) as Hi. destruct (status_form _ _ Hi) as [Ei _].
  eapply (k_frame i s _ HI); [intros o; by apply k_evolves_refl; rewrite ?H1, ?H2, ?H3, ?H4| | | |done|].
  - intros e _. by rewrite H5, H6.
  - intros j Hj. constructor; rewrite ?H1, ?H2, ?H3, ?H4, ?H6, ?H7; try done; [by rewrite put_ne|by left].
  - constructor; rewrite ?H1, ?H2, ?H4, ?H7, ?put_eq; [apply Hi|eauto|by rewrite Hset|apply Hkn].
  - destruct (k_fates _ HI) as [F1 F2]. constructor; rewrite ?H1, ?H2, ?H8; done.
Qed.

(** A lock that is still to be released is the thread's own. *)
Lemma own_lock s i j :
  k_inv s -> (j < nb_entries s i)%nat -> holds (kpcs s i) j -> GET_STATUS (status s i) <> TX_KILLED ->
  exists w, locks s (e_lock s (mine i s j)) = Owned (mine i s j) w /\ e_version s (mine i s j) = base s (e_lock s (mine i s j)).
Proof.
  intros HI Hj Hh Hs. pose proof (k_locks _ HI) as HL. destruct (li_held _ HL i j Hj Hh Hs) as [w Hw]. exists w. split; [done|].
  by destruct (li_owned _ HL _ _ _ Hw) as (_ & _ & -> & _).
Qed.

Lemma install_inv i d ts' s j ts : k_inv s -> kpcs s i = KInstall j ts -> k_inv (end_next i d ts' s).
Proof.
  intros HI Hp. destruct (Nat.ltb_spec j (nb_entries s i)) as [Hj|Hj]; [|apply end_quiet; [done|by rewrite Hp]].
  destruct (status_form _ _ (k_threads _ HI i)) as [_ Hs]. rewrite Hp in Hs. apply list_elem_of_singleton in Hs.
  destruct (own_lock s i j HI Hj) as (w & Hw & _); [by rewrite Hp; simpl|by rewrite Hs|].
  unfold end_next, commit_next, rollback_next, drop_next. rewrite Hp. rewrite (proj2 (Nat.ltb_lt _ _) Hj).
  eapply (release_frame i s _ (KInstall (S j) ts) HI); try done; [|by apply list_elem_of_singleton].
  eapply (release_locks s _ i j (KInstall (S j) ts)); try done; [apply HI|by rewrite Hp|simpl; by rewrite put_eq|]. intros a Ha. simpl. by rewrite put_ne.
Qed.

Lemma release_inv i d ts s j v : k_inv s -> kpcs s i = KRelease j v -> k_inv (end_next i d ts s).
Proof.
  intros HI Hp. destruct (Nat.ltb_spec j (nb_entries s i)) as [Hj|Hj]; [|apply end_quiet; [done|by rewrite Hp]].
  destruct (status_form _ _ (k_threads _ HI i)) as [_ Hs]. rewrite Hp in Hs.
  destruct (own_lock s i j HI Hj) as (w & Hw & Hv); [by rewrite Hp; simpl| |].
  { intros E. revert Hs. rewrite E. simpl. case_bool; rewrite ?elem_of_cons, ?elem_of_nil; intros Hx; repeat destruct Hx as [Hx|Hx]; done. }
  unfold end_next, commit_next, rollback_next, drop_next. rewrite Hp. rewrite (proj2 (Nat.ltb_lt _ _) Hj).
  pose proof (ti_know _ _ (k_threads _ HI i)) as Hkn. rewrite Hp in Hkn.
  eapply (release_frame i s _ (KRelease (S j) v) HI); try done.
  eapply (release_locks s _ i j (KRelease (S j) v)); try done; [apply HI|by rewrite Hp].
Qed.

Lemma drop_cas_inv i d ts s j l : k_inv s -> kpcs s i = KDropCas j l -> k_inv (end_next i d ts s).
Proof.
  intros HI Hp. pose proof HI as [HT HL HF]. destruct (status_form _ _ (HT i)) as [_ Hs]. pose proof (ti_know _ _ (HT i)) as Hkn.
  unfold end_next, commit_next, rollback_next, drop_next. rewrite Hp in *. simpl in Hkn. destruct Hkn as (Hj & w & El). apply list_elem_of_singleton in Hs. case_decide as E.
  - rewrite El in E. destruct (li_owned _ HL _ _ _ E) as (_ & _ & Hv & _).
    eapply (release_frame i s _ (KDrop (S j)) HI); try done; [|by apply list_elem_of_singleton].
    eapply (release_locks s _ i j (KDrop (S j))); try done. by rewrite Hp.
  - apply k_quiet; rewrite ?Hp, ?Hs; try done; [by apply list_elem_of_singleton|]. simpl. intros a k w' Ew Hk Hjk.
    destruct (decide (k = j)) as [->|]; [|lia]. exfalso. destruct (li_owned _ HL _ _ _ Ew) as (_ & Ha & _). simpl in Ha.
    apply E. rewrite <- Ha in Ew. rewrite Ew. symmetry. by eapply (li_drop _ HL i j l).
Qed.

(** *** A new write set, and a new status *)

Lemma realloc_inv i d ts s : k_inv s -> kpcs s i = KRealloc -> k_inv (end_next i d ts s).
Proof.
  intros HI Hp. pose proof HI as [HT HL HF]. pose proof (HT i) as Hi. destruct (status_form _ _ Hi) as [Ei Hs].
  unfold end_next, commit_next, rollback_next, drop_next. rewrite Hp in *. apply list_elem_of_singleton in Hs.
  assert (Hnone : forall a e w, locks s a = Owned e w -> e_thread e <> i).
  { intros a e w E Ee. destruct (li_owned _ HL a e w E) as (_ & _ & _ & Hh). by rewrite Ee, Hp in Hh. }
  eapply (k_frame i s _ HI); [|done| | | |by destruct HF].
  - intros o. destruct (decide (o = i)) as [->|Ho]; [apply ev_array; simpl; by rewrite ?put_eq|apply k_evolves_refl; simpl; by rewrite ?put_ne].
  - intros j Hj. constructor; simpl; rewrite ?put_ne by done; try done. by left.
  - constructor; simpl; rewrite ?put_eq; simpl; try done; [apply Hi|]. exists TX_KILLED. rewrite Hs in Ei. split; [exact Ei|]. simpl. rewrite !elem_of_cons. auto.
  - destruct HL as [L1 L2 L3 L4]. constructor; simpl; [|done| |].
    + intros a e w E. pose proof (Hnone a e w E) as Hne. destruct (L1 a e w E) as (G & G2 & G3 & G4). unfold own. simpl. by rewrite !put_ne.
    + intros j k. unfold mine. simpl. unfold put. case_decide as Ej; [lia|]. apply L3.
    + intros j k l w. unfold mine. simpl. unfold put. case_decide as Ej; [done|]. apply L4.
Qed.

(** A status word is replaced by a later one. *)
Lemma status_locks s s' i c v :
  locks_inv s -> (forall k, (k < nb_entries s i)%nat -> holds c k -> False) -> (forall k, ~ holds (kpcs s i) k) -> (forall j l, c <> KDropCas j l) ->
  status s' = put (status s) i v -> locks s' = locks s -> e_version s' = e_version s -> e_lock s' = e_lock s -> array s' = array s ->
  nb_entries s' = nb_entries s -> base s' = base s -> kpcs s' = put (kpcs s) i c -> locks_inv s'.
Proof.
  intros [L1 L2 L3 L4] Hc Hh Hd H1 H2 H3 H4 H5 H6 H7 H8.
  constructor; unfold own, mine; rewrite ?H1, ?H2, ?H3, ?H4, ?H5, ?H6, ?H7, ?H8.
  - intros a e w E. destruct (L1 a e w E) as (G & G2 & G3 & G4). split_and!; try done; try apply G. unfold put. case_decide as Ei; [|done].
    rewrite Ei in G4. by apply Hh in G4.
  - done.
  - intros j k Hk. unfold put. case_decide as Ej; [subst j; intros Hx; by destruct (Hc k Hk Hx)|]. by apply L3.
  - intros j k l w. unfold put. case_decide; [intros E; by apply Hd in E|]. apply L4.
Qed.

Lemma set_inv i d ts s v t : bounded s -> k_inv s -> kpcs s i = KSet2 v t -> k_inv (end_next i d ts s).
Proof.
  intros Hb HI Hp. pose proof HI as [HT HL HF]. pose proof (HT i) as Hi. destruct (status_form _ _ Hi) as [Ei Hs]. pose proof (ti_know _ _ Hi) as Hkn.
  pose proof (allowed_status _ _ Hs) as Hst. pose proof (ti_empty _ _ Hi) as Hem.
  assert (Hc : is_count (starts s i)) by (split; [apply HT|apply Hb]).
  unfold end_next, commit_next, rollback_next, drop_next. rewrite Hp in *. simpl in Hkn, Hem. destruct Hkn as [Hv ->].
  assert (Hvs : is_status v /\ rank v = 2 /\ v ∈ allowed KIdle) by (destruct Hv as [->| ->]; split_and!; try done; simpl; rewrite !elem_of_cons; auto).
  destruct Hvs as (Hvs & Hrv & Hal).
  assert (Hr : rank (GET_STATUS (status s i)) < 2).
  { revert Hs. simpl. case_bool; rewrite ?elem_of_cons, ?elem_of_nil; intros Hx; repeat destruct Hx as [->|Hx]; done. }
  assert (Enew : SET_STATUS (status s i) v = st (starts s i) v) by (rewrite Ei; by apply set_st). rewrite Enew.
  eapply (k_frame i s _ HI); [|done| | | |].
  - intros o. destruct (decide (o = i)) as [->|Ho]; [|apply k_evolves_refl; simpl; by rewrite ?put_ne].
    eapply (ev_status _ _ _ v); simpl; rewrite ?put_eq; try done; [left; lia|by apply Hem].
  - intros j Hj. constructor; simpl; rewrite ?put_ne by done; try done. by left.
  - constructor; simpl; rewrite ?put_eq; try done; [apply Hi|eauto].
  - eapply (status_locks s _ i KIdle); try done; intros k; rewrite Hp; by intros [].
  - destruct HF as [F1 F2]. constructor; simpl; [done|]. intros j k w Hin. destruct (F2 j k w Hin) as [Hlt|[-> Hne]]; [by left|right].
    split; [done|]. unfold put. case_decide; [|done]. rewrite get_st by done. by destruct Hv as [->| ->].
Qed.

Lemma update_inv i d ts s t : bounded (end_next i d ts s) -> k_inv s -> kpcs s i = KUpdate2 t -> k_inv (end_next i d ts s).
Proof.
  intros Hb HI Hp. pose proof HI as [HT HL HF]. pose proof (HT i) as Hi. destruct (status_form _ _ Hi) as [Ei Hs]. pose proof (ti_know _ _ Hi) as Hkn.
  pose proof (allowed_status _ _ Hs) as Hst. pose proof (ti_starts _ _ Hi) as H0. specialize (Hb i). revert Hb.
  unfold end_next, commit_next, rollback_next, drop_next. rewrite Hp in *. simpl in Hkn. destruct Hkn as [Hn ->]. simpl. rewrite put_eq. intros Hb.
  assert (Hr : rank (GET_STATUS (status s i)) = 2).
  { revert Hs. simpl. rewrite ?elem_of_cons, ?elem_of_nil; intros Hx; repeat destruct Hx as [->|Hx]; done. }
  assert (Enew : UPDATE_STATUS (status s i) TX_ACTIVE = st (starts s i + 1) TX_ACTIVE) by (rewrite Ei; apply update_st; try done; unfold is_count; lia).
  rewrite Enew. eapply (k_frame i s _ HI); [|done| | | |].
  - intros o. destruct (decide (o = i)) as [->|Ho]; [|apply k_evolves_refl; simpl; by rewrite ?put_ne].
    eapply (ev_status _ _ _ TX_ACTIVE); simpl; rewrite ?put_eq; try done. by right.
  - intros j Hj. constructor; simpl; rewrite ?put_ne by done; try done. by left.
  - constructor; simpl; rewrite ?put_eq; try done; [lia|]. exists TX_ACTIVE. split; [done|]. simpl. rewrite !elem_of_cons. auto.
  - eapply (status_locks s _ i KRun); try done; [intros k; lia|]. intros k. rewrite Hp. by intros [].
  - destruct HF as [F1 F2]. constructor; simpl; [done|]. intros j k w Hin. destruct (F2 j k w Hin) as [Hlt|[-> Hne]]; unfold put; case_decide; subst; try (left; lia). by right.
Qed.

Lemma end_inv i d ts s : bounded (end_next i d ts s) -> bounded s -> k_inv s ->
  match kpcs s i with
  | KUpdate | KUpdate2 _ | KCommit | KCommitCas _ | KCommitFailed | KCommitting | KInstall _ _ | KRollback | KRollbackCas _
  | KRollbackFailed | KRelease _ _ | KDrop _ | KDropCas _ _ | KRealloc | KSet _ | KSet2 _ _ => True | _ => False end -> k_inv (end_next i d ts s).
Proof.
  intros Hb' Hb HI Hc. destruct (kpcs s i) eqn:Hp; try done; try (by apply end_quiet; [|rewrite Hp]).
  - by eapply update_inv.
  - by eapply commit_cas_inv.
  - by eapply install_inv.
  - by eapply rollback_cas_inv.
  - by eapply release_inv.
  - by eapply drop_cas_inv.
  - by eapply realloc_inv.
  - by eapply set_inv.
Qed.

(** *** What the program starts *)

Lemma begin_inv i s : k_inv s -> kpcs s i = KIdle -> k_inv (k_start i Begin s).
Proof.
  intros HI Hp. pose proof HI as [HT HL HF]. pose proof (HT i) as Hi. destruct (status_form _ _ Hi) as [Ei Hs].
  unfold k_start. rewrite Hp in *.
  assert (Hr : rank (GET_STATUS (status s i)) = 2).
  { revert Hs. simpl. rewrite ?elem_of_cons, ?elem_of_nil; intros Hx; repeat destruct Hx as [->|Hx]; done. }
  assert (Hnone : forall a e w, locks s a = Owned e w -> e_thread e <> i).
  { intros a e w E Ee. destruct (li_owned _ HL a e w E) as (_ & _ & _ & Hh). by rewrite Ee, Hp in Hh. }
  eapply (k_frame i s _ HI); [|done| | | |by destruct HF].
  - intros o. destruct (decide (o = i)) as [->|Ho]; [by apply ev_clear|apply k_evolves_refl; simpl; by rewrite ?put_ne].
  - intros j Hj. constructor; simpl; rewrite ?put_ne by done; try done. by left.
  - constructor; simpl; rewrite ?put_eq; simpl; rewrite ?put_eq; try done; [apply Hi|eauto].
  - destruct HL as [L1 L2 L3 L4]. constructor; simpl; [|done| |].
    + intros a e w E. pose proof (Hnone a e w E) as Hne. destruct (L1 a e w E) as (G & G2 & G3 & G4). unfold own. simpl. by rewrite !put_ne.
    + intros j k. unfold put. case_decide as Ej; [lia|]. apply L3.
    + intros j k l w. unfold put. case_decide; [done|]. apply L4.
Qed.

Lemma start_quiet i c s : k_inv s -> k_inv (k_start i c s).
Proof.
  intros HI. destruct (status_form _ _ (k_threads _ HI i)) as [_ Hs]. destruct (kpcs s i) eqn:Hp; try (by unfold k_start; rewrite Hp).
  - destruct c; try (by unfold k_start; rewrite Hp). by apply begin_inv.
  - unfold k_start. rewrite Hp. destruct c as [|a []| |]; try done; apply k_quiet_all; rewrite ?Hp; try done. by apply to_rollback.
Qed.

(** ** All states *)

Lemma k_step_mono s s' : k_step s s' -> (forall i, starts s i <= starts s' i) /\ (extended s = true -> extended s' = true).
Proof.
  intros Hs. assert (Hput : forall i j n, starts s i <= n -> starts s j <= put (starts s) i n j) by (intros i j n Hn; unfold put; case_decide; subst; lia).
  destruct Hs as [i c|i d ts].
  - unfold k_start. destruct (kpcs s i), c; try done; by destruct m.
  - unfold k_next, access_next, end_next, kill_next, extend_next, stm_kill, commit_next, rollback_next, drop_next. destruct (kpcs s i) eqn:Hp; try done; repeat case_match; try done; simpl; (split; [|done]); intros; apply Hput; lia.
Qed.

Lemma k_step_inv s s' : bounded s' -> extended s' = false -> k_inv s -> k_step s s' -> k_inv s'.
Proof.
  intros Hb He HI Hs. destruct (k_step_mono s s' Hs) as [Hm _].
  assert (Hb0 : bounded s) by (intros j; specialize (Hb j); specialize (Hm j); lia).
  destruct Hs as [i c|i d ts]; [by apply start_quiet|]. unfold k_next in *.
  destruct (kpcs s i) eqn:Hp; try (apply end_inv; [done|done|done|by rewrite Hp]); apply access_inv; try done; by rewrite Hp.
Qed.

Lemma k_init_inv size0 versions : k_inv (k_init size0 versions).
Proof.
  constructor.
  - intros i. constructor; simpl; try done. exists TX_IDLE. split; [done|]. rewrite !elem_of_cons. auto.
  - constructor; simpl; try done. by intros a v [= <-].
  - constructor; simpl; [constructor|]. intros i c v Hin. by apply elem_of_nil in Hin.
Qed.

Lemma k_steps_inv s0 s : k_steps s0 s -> k_inv s0 -> bounded s -> extended s = false -> k_inv s.
Proof.
  intros Hs HI. revert s Hs. refine (rtc_ind_r _ s0 _ _); [done|]. intros s1 s2 _ H12 IH Hb He. destruct (k_step_mono _ _ H12) as [Hm Hx].
  apply (k_step_inv s1 s2); try done. apply IH; [intros j; specialize (Hb j); specialize (Hm j); lia|].
  destruct (extended s1); [by rewrite Hx in He|done].
Qed.

(** C19. With any contention manager, any number of threads and any interleaving, as long
    as no write set grows and no counter wraps around: a transaction that is committing
    owns all the locks that it has not released yet; a transaction ceases to be active
    once, so that one that was killed does not commit and is killed by one thread
    only; a lock has the version of its last commit, in the lock word or in the entry of
    its owner, also when it was stolen; and no assertion fails. *)
Theorem kill_safe size0 versions s :
  k_steps (k_init size0 versions) s -> bounded s -> extended s = false ->
  (forall i j ts k, kpcs s i = KInstall j ts -> (j <= k < nb_entries s i)%nat ->
    exists w, locks s (e_lock s (mine i s k)) = Owned (mine i s k) w) /\
  NoDup (fates s).*1 /\
  (forall i, kpcs s i = KCommitting \/ (exists j ts, kpcs s i = KInstall j ts) -> GET_STATUS (status s i) = TX_COMMITTING) /\
  (forall a, match locks s a with Unlocked v => v = base s a | Owned e _ => own s (e_thread e) e /\ e_version s e = base s a end) /\
  (forall i, kpcs s i <> KCrash).
Proof.
  intros Hs Hb He. pose proof (k_steps_inv _ _ Hs (k_init_inv size0 versions) Hb He) as HI. pose proof HI as [HT HL HF].
  split_and!.
  - intros i j ts k Hp [Hj Hk]. destruct (status_form _ _ (HT i)) as [_ Hal]. rewrite Hp in Hal. apply list_elem_of_singleton in Hal.
    apply (li_held _ HL i k Hk); [by rewrite Hp|by rewrite Hal].
  - apply HF.
  - intros i Hp. destruct (status_form _ _ (HT i)) as [_ Hal]. destruct Hp as [Hp|(j & ts & Hp)]; rewrite Hp in Hal; by apply list_elem_of_singleton in Hal.
  - intros a. destruct (locks s a) as [v|e w] eqn:E; [by apply (li_unlocked _ HL)|]. by destruct (li_owned _ HL a e w E) as (? & _ & ? & _).
  - intros i Hp. destruct (status_form _ _ (HT i)) as [_ Hal]. rewrite Hp in Hal. by apply elem_of_nil in Hal.
Qed.

(** ** Executions *)

(** [MCall]: what a program does; [MSteps]: so many steps of a thread *)
Inductive k_move := MCall (i : nat) (c : k_call) | MSteps (i n : nat).

Definition k_do (s : kstate) (m : k_move) : kstate :=
  match m with
  | MCall i c => k_start i c s
  | MSteps i n => Nat.iter n (k_next i true 7) s
  end.

Lemma k_do_steps s ms : k_steps s (foldl k_do s ms).
Proof.
  revert s. induction ms as [|m ms IH]; intros s; [apply rtc_refl|]. simpl. transitivity (k_do s m); [|apply IH].
  destruct m as [i c|i n]; [apply rtc_once, ks_call|]. simpl. clear IH. induction n as [|n IHn]; [apply rtc_refl|].
  simpl. eapply rtc_r; [exact IHn|apply ks_next].
Qed.

(** Thread 0 owns lock 10, is killed by thread 1, which takes the lock, and does not know it
    yet; thread 0 goes on to lock 11. *)
Definition killing : list k_move :=
  [MCall 0 Begin; MSteps 0 2; MCall 0 (Access 10 Writing); MSteps 0 4; MCall 1 Begin; MSteps 1 2;
   MCall 0 (Access 11 Writing); MSteps 0 1;
   MCall 1 (Access 10 Writing); MSteps 1 10].

Lemma k_next_starts i d ts s j : starts (k_next i d ts s) j <= starts s j + 1.
Proof.
  assert (Hput : starts s j <= starts s j + 1 /\ put (starts s) i (starts s i + 1) j <= starts s j + 1) by (unfold put; case_decide; subst; lia).
  destruct Hput as [H1 H2]. unfold k_next, access_next, end_next, kill_next, extend_next, stm_kill, commit_next, rollback_next, drop_next. destruct (kpcs s i) eqn:Hp; try exact H1; repeat case_match; try exact H1; exact H2.
Qed.

Definition k_length (ms : list k_move) : Z := foldr (fun m n => match m with MSteps _ k => Z.of_nat k + n | _ => n end) 0 ms.

Lemma k_do_starts ms s j : starts (foldl k_do s ms) j <= starts s j + k_length ms.
Proof.
  revert s. induction ms as [|m ms IH]; intros s; simpl; [lia|]. specialize (IH (k_do s m)). destruct m as [i c|i n].
  - destruct (k_step_mono s (k_start i c s) (ks_call s i c)) as [_ _]. assert (starts (k_do s (MCall i c)) j = starts s j); [|lia].
    simpl. unfold k_start. destruct (kpcs s i), c; try done; by destruct m.
  - assert (Hn : starts (k_do s (MSteps i n)) j <= starts s j + Z.of_nat n); [|lia]. simpl. clear IH. induction n as [|n IHn]; simpl; [lia|].
    pose proof (k_next_starts i true 7 (Nat.iter n (k_next i true 7) s) j). lia.
Qed.

Lemma k_run_bounded size0 versions ms : k_length ms < 2 ^ 60 -> bounded (foldl k_do (k_init size0 versions) ms).
Proof. intros Hl j. pose proof (k_do_starts ms (k_init size0 versions) j). simpl in *. lia. Qed.

(** The killer commits. *)
Definition killed : kstate := foldl k_do (k_init 4 (fun _ => 3)) (killing ++ [MCall 1 Commit; MSteps 1 3]).

Lemma killed_looks : kpcs killed 1%nat = KInstall 0 7 /\ extended killed = false /\ fates killed = [(0%nat, 1, TX_KILLED); (1%nat, 1, TX_COMMITTING)].
Proof. repeat (split; [vm_compute; reflexivity|]). vm_compute. reflexivity. Qed.

Lemma killed_reachable : k_steps (k_init 4 (fun _ => 3)) killed /\ bounded killed.
Proof. unfold killed. split; [apply k_do_steps|]. apply k_run_bounded. vm_compute. reflexivity. Qed.

Lemma killed_nb : nb_entries killed 1%nat = 1%nat.
Proof. vm_compute. reflexivity. Qed.

(** With an array for one entry, the killed thread makes room for lock 11 before the other commits. *)
Definition grown : kstate := foldl k_do (k_init 1 (fun _ => 3)) (killing ++ [MSteps 0 3; MCall 1 Commit; MSteps 1 3]).

Lemma grown_reachable : k_steps (k_init 1 (fun _ => 3)) grown /\ bounded grown.
Proof. unfold grown. split; [apply k_do_steps|]. apply k_run_bounded. vm_compute. reflexivity. Qed.

Lemma grown_looks :
  kpcs grown 1%nat = KInstall 0 7 /\ e_lock grown (mine 1 grown 0) = 10 /\ locks grown 10 = Owned (mk_entry 0 1 0) true /\
  GET_STATUS (status grown 0%nat) = TX_KILLED /\ GET_STATUS (status grown 1%nat) = TX_COMMITTING.
Proof. repeat (split; [vm_compute; reflexivity|]). vm_compute. reflexivity. Qed.

(** C20. When the write set of a killed transaction grows, this is lost: the extension
    stores the new addresses of the entries into the lock words without looking at them,
    and so takes back a lock that was stolen.  A transaction can be installing its
    values under a lock that a killed transaction has in its hands. *)
Theorem growth_takes_lock_back :
  exists s i j, k_steps (k_init 1 (fun _ => 3)) s /\ bounded s /\ kpcs s i = KInstall 0 7 /\
    GET_STATUS (status s i) = TX_COMMITTING /\ GET_STATUS (status s j) = TX_KILLED /\
    exists e, locks s (e_lock s (mine i s 0)) = Owned e true /\ e_thread e = j /\ i <> j.
Proof.
  destruct grown_looks as (E1 & E2 & E3 & E4 & E5), grown_reachable as [R1 R2]. revert E1 E2 E3 E4 E5 R1 R2.
  generalize grown as s. intros s E1 E2 E3 E4 E5 R1 R2. exists s, 1%nat, 0%nat. split_and!; [done..|].
  exists (mk_entry 0 1 0). rewrite E2, E3. done.
Qed.

Lemma kill_safe_witness :
  kpcs killed 1%nat = KInstall 0 7 /\ exists w, locks killed (e_lock killed (mine 1 killed 0)) = Owned (mine 1 killed 0) w.
Proof.
  destruct killed_looks as (E1 & E2 & _). split; [exact E1|].
  destruct (kill_safe 4 (fun _ => 3) killed) as [H _]; [apply killed_reachable|apply killed_reachable|exact E2|].
  apply (H 1%nat 0%nat 7 0%nat E1). rewrite killed_nb. lia.
Defined.
