(* ===== verification/Queue.v ===== *)
(** * The queue of TPCC/lib/queue.c

    A circular buffer that grows: the sequential functions, with the theorem that
    they implement a list.  An array is the list of its words; [malloc_elements]
    stands for [malloc] of the array (what it holds is not initialised, [None] is
    NULL), so the capacity of a queue is at most what an array can have and the
    arithmetic on indices does not overflow. *)
From S2P Require Import Prelude Words.

Record queue := mk_queue { pop : Z; push : Z; capacity : Z; elements : list Z; lastDelivery : Z }.
#[export] Instance eta_queue : Eta queue := fun q =>
  mk_queue (pop q) (push q) (capacity q) (elements q) (lastDelivery q).

Definition QUEUE_GROWTH_FACTOR : Z := 2.

(** [elements[i]]; indices out of range are never used (see [queue_wf]). *)
Definition elem (l : list Z) (i : Z) : Z := nth (zidx i) l 0.

(** [for (src = ...; src < end; src++, dst++) newElements[dst] = elements[src];]
    with [n] the number of turns *)
Fixpoint copy_elements (n : nat) (src dst : Z) (elements newElements : list Z) : list Z :=
  match n with
  | O => newElements
  | S n => copy_elements n (src + 1) (dst + 1) elements (<[zidx dst := elem elements src]> newElements)
  end.

Section Queue.

Context (malloc_elements : Z -> option (list Z)).

Definition queue_alloc (initCapacity junk : Z) : option queue :=
  let capacity := if initCapacity <? 2 then 2 else initCapacity in
  match malloc_elements capacity with
  | None => None
  | Some l => Some (mk_queue (capacity - 1) 0 capacity l junk)
  end.

Definition queue_isEmpty (q : queue) : bool := Z.rem (pop q + 1) (capacity q) =? push q.

Definition queue_clear (q : queue) : queue := q <| pop := capacity q - 1 |> <| push := 0 |>.

(** The elements of a queue that grows, moved to the beginning of the new array;
    the second component is [dst]. *)
Definition queue_move (q : queue) (newElements : list Z) : list Z * Z :=
  if pop q <? push q
  then (copy_elements (Z.to_nat (push q - (pop q + 1))) (pop q + 1) 0 (elements q) newElements,
        Z.max 0 (push q - (pop q + 1)))
  else
    let n := Z.max 0 (capacity q - (pop q + 1)) in
    (copy_elements (Z.to_nat (push q)) 0 n (elements q)
       (copy_elements (Z.to_nat n) (pop q + 1) 0 (elements q) newElements),
     n + push q).

(** [None] is a failure of the assertion [pop != push]. *)
Definition queue_push (q : queue) (dataPtr : Z) : option (bool * queue) :=
  if pop q =? push q then None
  else
    let newPush := Z.rem (push q + 1) (capacity q) in
    if newPush =? pop q then
      let newCapacity := capacity q * QUEUE_GROWTH_FACTOR in
      match malloc_elements newCapacity with
      | None => Some (false, q)
      | Some newElements =>
          let '(l, dst) := queue_move q newElements in
          Some (true, mk_queue (newCapacity - 1) (dst + 1) newCapacity (<[zidx dst := dataPtr]> l)
                        (lastDelivery q))
      end
    else
      Some (true, q <| elements := <[zidx (push q) := dataPtr]> (elements q) |> <| push := newPush |>).

(** NULL is 0. *)
Definition queue_pop (q : queue) : Z * queue :=
  let newPop := Z.rem (pop q + 1) (capacity q) in
  if newPop =? push q then (0, q)
  else (elem (elements q) newPop, q <| pop := newPop |>).

Definition queue_front (q : queue) : Z :=
  let newPop := Z.rem (pop q + 1) (capacity q) in
  if newPop =? push q then 0 else elem (elements q) newPop.

(** [rnd]: the results of [random_generate], in turn *)
Fixpoint shuffle_loop (n : nat) (base numElement cap : Z) (rnd : nat -> N) (k : nat) (l : list Z) : list Z :=
  match n with
  | O => l
  | S n =>
      let i1 := Z.rem (base + Z.rem (Z.of_N (rnd k)) numElement) cap in
      let i2 := Z.rem (base + Z.rem (Z.of_N (rnd (S k))) numElement) cap in
      let tmp := elem l i1 in
      shuffle_loop n base numElement cap rnd (S (S k)) (<[zidx i2 := tmp]> (<[zidx i1 := elem l i2]> l))
  end.

Definition queue_shuffle (q : queue) (rnd : nat -> N) : queue :=
  let numElement := if pop q <? push q then push q - (pop q + 1)
                    else capacity q - (pop q - push q + 1) in
  q <| elements := shuffle_loop (Z.to_nat numElement) (pop q + 1) numElement (capacity q) rnd 0 (elements q) |>.

(** ** The list that a queue is *)

Record queue_wf (q : queue) : Prop := {
  wf_cap : 2 <= capacity q; wf_pop : 0 <= pop q < capacity q; wf_push : 0 <= push q < capacity q;
  wf_ne : pop q <> push q; wf_elements : Z.of_nat (length (elements q)) = capacity q }.

(** The number of elements *)
Definition size (q : queue) : Z := (push q - (pop q + 1)) mod capacity q.

(** The [k]-th place *)
Definition place (q : queue) (k : nat) : Z := (pop q + 1 + Z.of_nat k) mod capacity q.

Definition contents (q : queue) : list Z := (fun k => elem (elements q) (place q k)) <$> seq 0 (Z.to_nat (size q)).

Context (Hmalloc : forall n l, malloc_elements n = Some l -> Z.of_nat (length l) = n).

Lemma rem_mod a b : 0 <= a -> 0 < b -> Z.rem a b = a mod b.
Proof. intros. by apply Z.rem_mod_nonneg. Qed.

Lemma mod_wrap a b : 0 <= a < 2 * b -> a mod b = if a <? b then a else a - b.
Proof.
  intros Ha. destruct (Z.ltb_spec a b); [apply Z.mod_small; lia|].
  symmetry. apply (Z.mod_unique _ _ 1); lia.
Qed.

Lemma mod_neg a b : 0 < b -> - b <= a < b -> a mod b = if a <? 0 then a + b else a.
Proof.
  intros Hb Ha. destruct (Z.ltb_spec a 0).
  - symmetry. apply (Z.mod_unique _ _ (-1)); lia.
  - apply Z.mod_small. lia.
Qed.

Lemma size_eq q :
  queue_wf q -> size q = if pop q <? push q then push q - (pop q + 1) else capacity q - (pop q - push q + 1).
Proof.
  intros [H1 H2 H3 H4 H5]. unfold size. rewrite mod_neg by lia.
  destruct (Z.ltb_spec (push q - (pop q + 1)) 0), (Z.ltb_spec (pop q) (push q)); lia.
Qed.

Lemma size_range q : queue_wf q -> 0 <= size q <= capacity q - 2.
Proof.
  intros Hq. rewrite size_eq by done. destruct Hq as [H1 H2 H3 H4 H5].
  destruct (Z.ltb_spec (pop q) (push q)); lia.
Qed.

Lemma place_range q k : queue_wf q -> 0 <= place q k < capacity q.
Proof. intros [H1 H2 H3 H4 H5]. apply Z.mod_pos_bound. lia. Qed.

Lemma place_eq q k :
  queue_wf q -> Z.of_nat k < capacity q ->
  place q k = if pop q + 1 + Z.of_nat k <? capacity q then pop q + 1 + Z.of_nat k
              else pop q + 1 + Z.of_nat k - capacity q.
Proof. intros [H1 H2 H3 H4 H5] Hk. apply mod_wrap. lia. Qed.

Lemma place_inj q j k :
  queue_wf q -> Z.of_nat j < capacity q -> Z.of_nat k < capacity q -> place q j = place q k -> j = k.
Proof.
  intros Hq Hj Hk. rewrite !place_eq by done. destruct Hq as [H1 H2 H3 H4 H5].
  repeat case_bool; lia.
Qed.

(** The element after the last one is at [push]. *)
Lemma place_push q : queue_wf q -> place q (Z.to_nat (size q)) = push q.
Proof.
  intros Hq. pose proof (size_range q Hq). rewrite place_eq by (done || lia).
  rewrite Z2Nat.id by lia. rewrite size_eq by done. destruct Hq as [H1 H2 H3 H4 H5].
  repeat case_bool; lia.
Qed.

Lemma contents_length q : length (contents q) = Z.to_nat (size q).
Proof. unfold contents. by rewrite length_fmap, length_seq. Qed.

Lemma contents_lookup q k :
  (k < Z.to_nat (size q))%nat -> contents q !! k = Some (elem (elements q) (place q k)).
Proof. intros Hk. unfold contents. rewrite list_lookup_fmap, lookup_seq_lt by done. done. Qed.

(** A queue with these elements in these places *)
Lemma contents_ext q l :
  queue_wf q -> Z.to_nat (size q) = length l ->
  (forall k x, l !! k = Some x -> elem (elements q) (place q k) = x) -> contents q = l.
Proof.
  intros Hq Hlen H. apply list_eq_same_length with (length l); [done|by rewrite contents_length|].
  intros k x y Hk Hx Hy. rewrite contents_lookup in Hx by lia. injection Hx as <-. symmetry. symmetry. by apply H.
Qed.

Lemma elem_insert l i j x :
  0 <= i < Z.of_nat (length l) -> 0 <= j < Z.of_nat (length l) ->
  elem (<[zidx i := x]> l) j = if i =? j then x else elem l j.
Proof.
  intros Hi Hj. unfold elem, zidx. destruct (Z.eqb_spec i j) as [->|Hne].
  - rewrite nth_lookup, list_lookup_insert_eq by lia. done.
  - rewrite !nth_lookup, list_lookup_insert_ne by lia. done.
Qed.

Lemma isEmpty_spec q : queue_wf q -> queue_isEmpty q = bool_decide (contents q = []).
Proof.
  intros Hq. unfold queue_isEmpty. pose proof (size_range q Hq). pose proof (contents_length q) as Hc.
  destruct Hq as [H1 H2 H3 H4 H5] eqn:E. rewrite rem_mod, mod_wrap by lia.
  assert (Hs : size q = 0 <-> contents q = []).
  { split; [intros Hz; apply length_zero_iff_nil; lia|]. intros Hn. rewrite Hn in Hc. simpl in Hc. lia. }
  rewrite size_eq in * by done. destruct (decide (contents q = [])) as [Hn|Hn].
  - rewrite bool_decide_true by done. apply Hs in Hn. apply Z.eqb_eq. revert Hn. repeat case_bool; lia.
  - rewrite bool_decide_false by done. apply Z.eqb_neq. intros Heq. apply Hn, Hs. revert Heq. repeat case_bool; lia.
Qed.

(** ** Pushing *)

Lemma copy_length n src dst l l' : length (copy_elements n src dst l l') = length l'.
Proof. revert src dst l'. induction n as [|n IH]; intros src dst l'; [done|]. simpl. by rewrite IH, length_insert. Qed.

Lemma copy_spec n src dst l l' j :
  0 <= dst -> dst + Z.of_nat n <= Z.of_nat (length l') -> 0 <= j < Z.of_nat (length l') ->
  elem (copy_elements n src dst l l') j =
    if (dst <=? j) && (j <? dst + Z.of_nat n) then elem l (src + (j - dst)) else elem l' j.
Proof.
  revert src dst l'. induction n as [|n IH]; intros src dst l' Hd Hn Hj; cbn [copy_elements].
  - destruct (Z.leb_spec dst j), (Z.ltb_spec j (dst + Z.of_nat 0)); simpl; done || lia.
  - rewrite IH, elem_insert by (rewrite ?length_insert; lia).
    destruct (Z.leb_spec (dst + 1) j), (Z.ltb_spec j (dst + 1 + Z.of_nat n)), (Z.eqb_spec dst j),
      (Z.leb_spec dst j), (Z.ltb_spec j (dst + Z.of_nat (S n))); simpl; try lia; try done.
    + f_equal. lia.
    + f_equal. lia.
Qed.

Lemma move_spec q l' :
  queue_wf q -> size q < Z.of_nat (length l') ->
  let '(l, dst) := queue_move q l' in
  dst = size q /\ length l = length l' /\
  forall k, (k < Z.to_nat (size q))%nat -> elem l (Z.of_nat k) = elem (elements q) (place q k).
Proof.
  intros Hq Hl. pose proof (size_range q Hq) as Hr. pose proof (size_eq q Hq) as Hs.
  assert (Hp : forall k, (k < Z.to_nat (size q))%nat -> place q k =
    if pop q + 1 + Z.of_nat k <? capacity q then pop q + 1 + Z.of_nat k
    else pop q + 1 + Z.of_nat k - capacity q) by (intros; apply place_eq; done || lia).
  destruct Hq as [H1 H2 H3 H4 H5]. unfold queue_move. destruct (Z.ltb_spec (pop q) (push q)).
  - split; [lia|]. split; [apply copy_length|]. intros k Hk. rewrite copy_spec, Hp by lia.
    rewrite (proj2 (Z.ltb_lt (pop q + 1 + Z.of_nat k) _)) by lia.
    rewrite (proj2 (Z.leb_le _ _)), (proj2 (Z.ltb_lt _ _)) by lia. simpl. f_equal. lia.
  - split; [lia|]. split; [by rewrite !copy_length|]. intros k Hk.
    rewrite copy_spec, copy_spec, Hp by (rewrite ?copy_length; lia).
    destruct (Z.ltb_spec (pop q + 1 + Z.of_nat k) (capacity q)).
    + rewrite (proj2 (Z.leb_gt (Z.max 0 (capacity q - (pop q + 1))) _)) by lia. simpl.
      rewrite (proj2 (Z.leb_le _ _)), (proj2 (Z.ltb_lt _ _)) by lia. simpl. f_equal. lia.
    + rewrite (proj2 (Z.leb_le _ _)), (proj2 (Z.ltb_lt _ _)) by lia. simpl. f_equal. lia.
Qed.

Lemma push_spec q d :
  queue_wf q ->
  exists b q', queue_push q d = Some (b, q') /\
    ((b = true /\ queue_wf q' /\ contents q' = contents q ++ [d]) \/
     (b = false /\ q' = q /\ size q = capacity q - 2 /\ malloc_elements (2 * capacity q) = None)).
Proof.
  intros Hq. pose proof Hq as [H1 H2 H3 H4 H5]. pose proof (size_range q Hq) as Hr.
  pose proof (size_eq q Hq) as Hs. unfold queue_push. rewrite (proj2 (Z.eqb_neq _ _)) by done.
  rewrite rem_mod, mod_wrap by lia.
  destruct (Z.eqb_spec (if push q + 1 <? capacity q then push q + 1 else push q + 1 - capacity q) (pop q)) as [Hg|Hg].
  - assert (Hsz : size q = capacity q - 2) by (revert Hg Hs; repeat case_bool; lia).
    unfold QUEUE_GROWTH_FACTOR. rewrite (Z.mul_comm _ 2). destruct (malloc_elements (2 * capacity q)) as [l'|] eqn:Hm.
    2: { exists false, q. split; [done|]. by right. }
    apply Hmalloc in Hm. pose proof (move_spec q l' Hq ltac:(lia)) as Hmv.
    destruct (queue_move q l') as [l dst]. destruct Hmv as (-> & Hl & He). eexists true, _. split; [done|]. left.
    set (q' := mk_queue _ _ _ _ _).
    assert (Hq' : queue_wf q') by (constructor; simpl; rewrite ?length_insert; lia).
    assert (Hsz' : size q' = size q + 1).
    { rewrite size_eq by done. simpl. destruct (Z.ltb_spec (2 * capacity q - 1) (size q + 1)); lia. }
    assert (Hpl : forall k, Z.of_nat k < 2 * capacity q -> place q' k = Z.of_nat k).
    { intros k Hk. rewrite place_eq by done. simpl. case_bool; lia. }
    split; [done|]. split; [done|]. apply contents_ext; [done|rewrite length_app, contents_length; simpl; lia|].
    intros k x Hk. rewrite Hpl.
    2: { apply lookup_lt_Some in Hk. rewrite length_app, contents_length in Hk. simpl in Hk. lia. }
    simpl. rewrite elem_insert.
    + destruct (decide (k < length (contents q))%nat) as [Hlt|Hge].
      * rewrite lookup_app_l in Hk by done. rewrite contents_length in Hlt. rewrite contents_lookup in Hk by done.
        injection Hk as <-. rewrite (proj2 (Z.eqb_neq _ _)) by lia. by apply He.
      * pose proof (lookup_lt_Some _ _ _ Hk) as Hb. rewrite length_app in Hb. simpl in Hb.
        assert (Hkl : k = length (contents q)) by lia. rewrite Hkl, lookup_last_app in Hk.
        rewrite contents_length in Hkl. rewrite (proj2 (Z.eqb_eq _ _)) by lia. congruence.
    + lia.
    + apply lookup_lt_Some in Hk. rewrite length_app, contents_length in Hk. simpl in Hk. lia.
  - eexists true, _. split; [done|]. left. set (q' := q <| elements := _ |> <| push := _ |>).
    assert (Hq' : queue_wf q').
    { constructor; simpl; rewrite ?length_insert; try done; case_bool; lia. }
    assert (Hsz' : size q' = size q + 1).
    { rewrite !size_eq by done. simpl. revert Hg. repeat case_bool; lia. }
    assert (Hpl : forall k, place q' k = place q k) by done.
    split; [done|]. split; [done|]. apply contents_ext; [done|rewrite length_app, contents_length; simpl; lia|].
    intros k x Hk. rewrite Hpl. simpl. pose proof (place_range q k Hq). rewrite elem_insert by lia.
    destruct (decide (k < length (contents q))%nat) as [Hlt|Hge].
    + rewrite lookup_app_l in Hk by done. rewrite contents_length in Hlt. rewrite contents_lookup in Hk by done.
      injection Hk as <-. rewrite (proj2 (Z.eqb_neq _ _)); [done|]. rewrite <- (place_push q Hq).
      intros Heq. apply place_inj in Heq; done || lia.
    + pose proof (lookup_lt_Some _ _ _ Hk) as Hb. rewrite length_app in Hb. simpl in Hb.
      assert (Hkl : k = length (contents q)) by lia. rewrite Hkl, lookup_last_app in Hk.
      rewrite Hkl, contents_length, place_push, Z.eqb_refl by done. congruence.
Qed.

(** ** Popping, clearing, shuffling *)

Lemma contents_cons q :
  queue_wf q -> 0 < size q ->
  let q' := q <| pop := Z.rem (pop q + 1) (capacity q) |> in
  queue_wf q' /\ contents q = elem (elements q) (Z.rem (pop q + 1) (capacity q)) :: contents q'.
Proof.
  intros Hq Hs. cbv zeta. pose proof Hq as [H1 H2 H3 H4 H5]. rewrite rem_mod by lia.
  set (p := (pop q + 1) mod capacity q). assert (Hp : p = place q 0) by (unfold p, place; f_equal; lia).
  set (q' := q <| pop := p |>). pose proof (size_range q Hq) as Hr. pose proof (size_eq q Hq) as Hse.
  assert (Hpe := place_eq q 0 Hq ltac:(lia)). rewrite <- Hp in Hpe. simpl in Hpe.
  assert (Hq' : queue_wf q').
  { constructor; simpl; try done; rewrite Hpe; revert Hse; repeat case_bool; lia. }
  assert (Hs' : size q' = size q - 1).
  { rewrite size_eq by done. simpl. rewrite Hpe. revert Hse. repeat case_bool; lia. }
  split; [done|]. apply contents_ext; [done|simpl; rewrite contents_length; lia|].
  intros [|k] x Hx; simpl in Hx; [by rewrite <- Hp; simplify_eq|].
  assert (Hk : (k < Z.to_nat (size q'))%nat).
  { rewrite <- contents_length. by apply lookup_lt_Some in Hx. }
  rewrite contents_lookup in Hx by done. injection Hx as <-. change (elements q') with (elements q). f_equal.
  rewrite !place_eq by (done || simpl; lia). simpl. rewrite Hpe. repeat case_bool; lia.
Qed.

Lemma newPop_push q : queue_wf q -> (Z.rem (pop q + 1) (capacity q) =? push q) = bool_decide (contents q = []).
Proof. apply isEmpty_spec. Qed.

Lemma pop_spec q :
  queue_wf q ->
  queue_wf (queue_pop q).2 /\ queue_front q = hd 0 (contents q) /\
  (queue_pop q).1 = hd 0 (contents q) /\ contents (queue_pop q).2 = tail (contents q).
Proof.
  intros Hq. unfold queue_pop, queue_front. rewrite newPop_push by done. case_bool_decide as Hc; simpl.
  - by rewrite Hc.
  - destruct (contents_cons q Hq) as [Hq' He].
    { pose proof (size_range q Hq). pose proof (contents_length q) as Hl.
      destruct (decide (size q = 0)) as [Hz|]; [|lia]. rewrite Hz in Hl. by apply length_zero_iff_nil in Hl. }
    by rewrite He.
Qed.

Lemma empty_spec c l j :
  2 <= c -> Z.of_nat (length l) = c -> queue_wf (mk_queue (c - 1) 0 c l j) /\ contents (mk_queue (c - 1) 0 c l j) = [].
Proof.
  intros Hc Hl. assert (Hq : queue_wf (mk_queue (c - 1) 0 c l j)) by (constructor; simpl; lia). split; [done|].
  apply length_zero_iff_nil. rewrite contents_length, size_eq by done. simpl. case_bool; lia.
Qed.

Lemma alloc_spec c junk q : queue_alloc c junk = Some q -> queue_wf q /\ contents q = [].
Proof.
  unfold queue_alloc. set (c' := if c <? 2 then 2 else c). assert (2 <= c') by (unfold c'; case_bool; lia).
  destruct (malloc_elements c') eqn:Hm; [|done]. intros [= <-]. apply empty_spec; [done|by apply Hmalloc].
Qed.

Lemma clear_spec q : queue_wf q -> queue_wf (queue_clear q) /\ contents (queue_clear q) = [].
Proof. intros [H1 H2 H3 H4 H5]. by apply (empty_spec (capacity q) (elements q) (lastDelivery q)). Qed.

(** Exchanging two elements *)
Lemma swap_perm {A} (l : list A) i j x y :
  l !! i = Some x -> l !! j = Some y -> <[j := x]> (<[i := y]> l) ≡ₚ l.
Proof.
  intros Hi Hj. symmetry. apply Permutation_inj. rewrite !length_insert. split; [done|].
  exists (fun k => if decide (k = i) then j else if decide (k = j) then i else k). split.
  - intros a b. repeat case_decide; congruence.
  - intros k. pose proof (lookup_lt_Some _ _ _ Hi). pose proof (lookup_lt_Some _ _ _ Hj).
    destruct (decide (k = i)) as [->|Hki].
    + by rewrite list_lookup_insert_eq by (rewrite length_insert; lia).
    + destruct (decide (k = j)) as [->|Hkj].
      * destruct (decide (i = j)) as [->|]; [done|].
        rewrite list_lookup_insert_ne, list_lookup_insert_eq by done. done.
      * by rewrite !list_lookup_insert_ne by done.
Qed.

Lemma contents_put q k x :
  queue_wf q -> (k < Z.to_nat (size q))%nat ->
  contents (q <| elements := <[zidx (place q k) := x]> (elements q) |>) = <[k := x]> (contents q).
Proof.
  intros Hq Hk. pose proof (size_range q Hq). pose proof Hq as [H1 H2 H3 H4 H5].
  assert (Hq' : queue_wf (q <| elements := <[zidx (place q k) := x]> (elements q) |>)).
  { constructor; simpl; rewrite ?length_insert; done. }
  apply contents_ext; [done|rewrite length_insert, contents_length; done|].
  intros j y Hj. pose proof (lookup_lt_Some _ _ _ Hj) as Hlt. rewrite length_insert, contents_length in Hlt.
  change (place _ j) with (place q j). simpl. pose proof (place_range q k Hq). pose proof (place_range q j Hq).
  rewrite elem_insert by lia. destruct (decide (j = k)) as [->|Hne].
  - rewrite Z.eqb_refl. rewrite list_lookup_insert_eq in Hj by (rewrite contents_length; lia). congruence.
  - rewrite list_lookup_insert_ne in Hj by done. rewrite contents_lookup in Hj by done. injection Hj as <-.
    rewrite (proj2 (Z.eqb_neq _ _)); [done|]. intros Heq. apply place_inj in Heq; done || lia.
Qed.

Lemma shuffle_loop_spec n q rnd k :
  queue_wf q -> 0 < size q ->
  let q' := q <| elements := shuffle_loop n (pop q + 1) (size q) (capacity q) rnd k (elements q) |> in
  queue_wf q' /\ contents q' ≡ₚ contents q.
Proof.
  intros Hq Hs. cbv zeta. revert q k Hq Hs. induction n as [|n IH]; intros q k Hq Hs; cbn [shuffle_loop].
  { by destruct q. }
  pose proof Hq as [H1 H2 H3 H4 H5]. pose proof (size_range q Hq).
  assert (Hidx : forall m, exists j, (j < Z.to_nat (size q))%nat /\
    Z.rem (pop q + 1 + Z.rem (Z.of_N (rnd m)) (size q)) (capacity q) = place q j).
  { intros m. rewrite (rem_mod (Z.of_N (rnd m))) by lia. pose proof (Z.mod_pos_bound (Z.of_N (rnd m)) (size q) Hs).
    exists (Z.to_nat (Z.of_N (rnd m) mod size q)). split; [lia|]. rewrite rem_mod by lia. unfold place. by rewrite Z2Nat.id by lia. }
  destruct (Hidx k) as (i & Hi & ->), (Hidx (S k)) as (j & Hj & ->).
  set (x := elem (elements q) (place q i)). set (y := elem (elements q) (place q j)).
  set (q1 := q <| elements := <[zidx (place q i) := y]> (elements q) |>).
  set (q2 := q1 <| elements := <[zidx (place q1 j) := x]> (elements q1) |>).
  assert (Hq1 : queue_wf q1) by (constructor; simpl; rewrite ?length_insert; done).
  assert (Hq2 : queue_wf q2) by (constructor; simpl; rewrite ?length_insert; done).
  destruct (IH q2 (S (S k)) Hq2 Hs) as [Hw Hp]. split; [exact Hw|]. etransitivity; [exact Hp|].
  unfold q2. rewrite contents_put by done. unfold q1 at 1. rewrite contents_put by done.
  apply swap_perm; by apply contents_lookup.
Qed.

Lemma shuffle_spec q rnd :
  queue_wf q -> queue_wf (queue_shuffle q rnd) /\ contents (queue_shuffle q rnd) ≡ₚ contents q.
Proof.
  intros Hq. unfold queue_shuffle. rewrite <- size_eq by done.
  destruct (decide (size q = 0)) as [Hz|Hz].
  - rewrite Hz. simpl. by destruct q.
  - apply shuffle_loop_spec; [done|]. pose proof (size_range q Hq). lia.
Qed.

(** ** Refinement *)

Inductive queue_op := Push (d : Z) | Pop | Front | IsEmpty | Clear | Shuffle (rnd : nat -> N).

(** The result of an operation; [None] is a failed assertion. *)
Definition queue_do (o : queue_op) (q : queue) : option (Z * queue) :=
  match o with
  | Push d => match queue_push q d with Some (b, q') => Some (c_bool b, q') | None => None end
  | Pop => Some (queue_pop q)
  | Front => Some (queue_front q, q)
  | IsEmpty => Some (c_bool (queue_isEmpty q), q)
  | Clear => Some (0, queue_clear q)
  | Shuffle rnd => Some (0, queue_shuffle q rnd)
  end.

Fixpoint queue_run (ops : list queue_op) (q : queue) : option (list Z * queue) :=
  match ops with
  | [] => Some ([], q)
  | o :: ops =>
      match queue_do o q with
      | None => None
      | Some (r, q) => match queue_run ops q with Some (rs, q) => Some (r :: rs, q) | None => None end
      end
  end.

(** What the operations do to the list, and return.  A push may fail when there is
    no memory; a shuffle leaves any permutation. *)
Inductive list_do : queue_op -> list Z -> Z -> list Z -> Prop :=
| l_push d l : list_do (Push d) l 1 (l ++ [d])
| l_full d l : malloc_elements (2 * (Z.of_nat (length l) + 2)) = None -> list_do (Push d) l 0 l
| l_pop l : list_do Pop l (hd 0 l) (tail l)
| l_front l : list_do Front l (hd 0 l) l
| l_isEmpty l : list_do IsEmpty l (c_bool (bool_decide (l = []))) l
| l_clear l : list_do Clear l 0 []
| l_shuffle rnd l l' : l' ≡ₚ l -> list_do (Shuffle rnd) l 0 l'.

Inductive list_run : list queue_op -> list Z -> list Z -> list Z -> Prop :=
| lr_nil l : list_run [] l [] l
| lr_cons o ops l r l1 rs l2 : list_do o l r l1 -> list_run ops l1 rs l2 -> list_run (o :: ops) l (r :: rs) l2.

Lemma queue_do_spec o q :
  queue_wf q ->
  exists r q', queue_do o q = Some (r, q') /\ queue_wf q' /\ list_do o (contents q) r (contents q').
Proof.
  intros Hq. destruct o as [d| | | | |rnd]; simpl.
  - destruct (push_spec q d Hq) as (b & q' & -> & [(-> & Hq' & Hc)|(-> & -> & Hs & Hm)]); eexists _, _;
      (split; [done|]; split; [done|]); [rewrite Hc; constructor|constructor].
    pose proof (size_range q Hq). rewrite contents_length, <- Hm. f_equal. lia.
  - destruct (pop_spec q Hq) as (Hq' & _ & Hr & Hc). destruct (queue_pop q) as [r q']. simpl in *. subst r.
    eexists _, _. split; [done|]. split; [done|]. rewrite Hc. constructor.
  - destruct (pop_spec q Hq) as (_ & -> & _). eexists _, _. split; [done|]. split; [done|]. constructor.
  - rewrite isEmpty_spec by done. eexists _, _. split; [done|]. split; [done|]. constructor.
  - destruct (clear_spec q Hq) as [Hq' Hc]. eexists _, _. split; [done|]. split; [done|]. rewrite Hc. constructor.
  - destruct (shuffle_spec q rnd Hq) as [Hq' Hc]. eexists _, _. split; [done|]. split; [done|]. by constructor.
Qed.

(** C38. The queue implements a list.  Any sequence of operations on a new queue runs
    without failing an assertion, and its results and final contents are those
    of the same operations on a list that begins empty: pushes append, pops and
    fronts give the first element, or NULL when there is none, a shuffle
    permutes.  A push that returns FALSE, which it only does when there is no
    memory for a larger array, changes nothing. *)
Theorem queue_refines initCapacity junk q ops :
  queue_alloc initCapacity junk = Some q ->
  exists rs q', queue_run ops q = Some (rs, q') /\ queue_wf q' /\ list_run ops [] rs (contents q').
Proof.
  intros [Hq Hc]%alloc_spec. rewrite <- Hc. clear Hc. revert q Hq.
  induction ops as [|o ops IH]; intros q Hq; simpl.
  - eexists _, _. split; [done|]. split; [done|]. constructor.
  - destruct (queue_do_spec o q Hq) as (r & q1 & -> & Hq1 & Hd). destruct (IH q1 Hq1) as (rs & q2 & -> & Hq2 & Hr).
    eexists _, _. split; [done|]. split; [done|]. by econstructor.
Qed.

End Queue.

(** A queue that grows twice while its elements are in the middle of the array *)
Definition demo_malloc (n : Z) : option (list Z) := if (0 <=? n) && (n <=? 8) then Some (replicate (Z.to_nat n) 99) else None.

Definition demo_ops : list queue_op :=
  [Push 1; Pop; Push 2; Push 3; Push 4; Front; Push 5; Push 6; Pop; Push 7; Push 8; Push 9; IsEmpty;
   Shuffle (fun k => N.of_nat (S k))].

Lemma queue_refines_witness :
  (exists rs q', queue_run demo_malloc demo_ops (mk_queue 1 0 2 [99; 99] 0) = Some (rs, q') /\ queue_wf q' /\
     list_run demo_malloc demo_ops [] rs (contents q')) /\
  fst <$> queue_run demo_malloc demo_ops (mk_queue 1 0 2 [99; 99] 0) = Some [1; 1; 1; 1; 1; 2; 1; 1; 2; 1; 1; 0; 0; 0].
Proof.
  split; [|by vm_compute]. apply (queue_refines demo_malloc) with (initCapacity := -1) (junk := 0); [|done].
  intros n l. unfold demo_malloc. destruct (Z.leb_spec 0 n), (Z.leb_spec n 8); try done. intros [= <-].
  rewrite length_replicate. lia.
Defined.
