(* ===== verification/Mt.v ===== *)
(** * The random numbers of the server

    TPCC/lib/mt19937ar.c and random.c: the Mersenne Twister.  The array [mt] holds
    [unsigned long] words of which 32 bits are used; an access outside of it has
    no result.  [Stream] is the reference: the sequence that the recurrence of the
    generator defines, of which each word is used once. *)
From S2P Require Import Prelude Words.

(** ** The functions of mt19937ar.c *)

Definition MT_N : nat := 624.
Definition MT_M : nat := 397.
Definition MATRIX_A : Z := 0x9908b0df.
Definition UPPER_MASK : Z := 0x80000000.
Definition LOWER_MASK : Z := 0x7fffffff.

Definition low32 (x : Z) : Z := Z.land x 0xffffffff.

(** [mt[i] = v] *)
Definition put (mt : list Z) (i : nat) (v : Z) : option (list Z) :=
  if (i <? length mt)%nat then Some (<[i := v]> mt) else None.

(** [for (mti = i; mti < i + n; mti++)] of [init_genrand] *)
Fixpoint init_loop (mt : list Z) (i n : nat) : option (list Z) :=
  match n with
  | O => Some mt
  | S n =>
      p ← mt !! (i - 1)%nat;
      mt ← put mt i (low32 (w64 (1812433253 * Z.lxor p (Z.shiftr p 30) + Z.of_nat i)));
      init_loop mt (S i) n
  end.

(** The arrays have [N] words; [mtiPtr] is the second result. *)
Definition init_genrand (mt : list Z) (s : Z) : option (list Z * nat) :=
  mt ← put mt 0 (low32 s);
  mt ← init_loop mt 1 (MT_N - 1);
  Some (mt, MT_N).

(** [i++; if (i>=N) { mt[0] = mt[N-1]; i=1; }] *)
Definition wrap_index (mt : list Z) (i : nat) : option (list Z * nat) :=
  if (MT_N <=? S i)%nat then
    v ← mt !! (MT_N - 1)%nat; mt ← put mt 0 v; Some (mt, 1%nat)
  else Some (mt, S i).

Fixpoint array_loop1 (key : list Z) (k : nat) (mt : list Z) (i j : nat) : option (list Z * nat) :=
  match k with
  | O => Some (mt, i)
  | S k =>
      p ← mt !! (i - 1)%nat; q ← mt !! i; u ← key !! j;
      mt ← put mt i (low32 (w64 (Z.lxor q (w64 (Z.lxor p (Z.shiftr p 30) * 1664525)) + u + Z.of_nat j)));
      '(mt, i) ← wrap_index mt i;
      array_loop1 key k mt i (if (length key <=? S j)%nat then O else S j)
  end.

Fixpoint array_loop2 (k : nat) (mt : list Z) (i : nat) : option (list Z * nat) :=
  match k with
  | O => Some (mt, i)
  | S k =>
      p ← mt !! (i - 1)%nat; q ← mt !! i;
      mt ← put mt i (low32 (w64 (Z.lxor q (w64 (Z.lxor p (Z.shiftr p 30) * 1566083941)) - Z.of_nat i)));
      '(mt, i) ← wrap_index mt i;
      array_loop2 k mt i
  end.

(** [init_key] with its length [key_length] *)
Definition init_by_array (mt : list Z) (init_key : list Z) : option (list Z * nat) :=
  '(mt, _) ← init_genrand mt 19650218;
  '(mt, i) ← array_loop1 init_key (max MT_N (length init_key)) mt 1 0;
  '(mt, _) ← array_loop2 (MT_N - 1) mt i;
  mt ← put mt 0 0x80000000;
  Some (mt, S MT_N).

Definition mag01 (y : Z) : Z := if Z.land y 1 =? 0 then 0 else MATRIX_A.

(** [y = (a&UPPER_MASK)|(b&LOWER_MASK)], then [c ^ (y >> 1) ^ mag01[y & 0x1UL]] *)
Definition twist (a b c : Z) : Z :=
  let y := Z.lor (Z.land a UPPER_MASK) (Z.land b LOWER_MASK) in
  Z.lxor (Z.lxor c (Z.shiftr y 1)) (mag01 y).

(** [mt[k] = mt[far] ^ ...] with the neighbour [next] *)
Definition gen_word (mt : list Z) (k next far : nat) : option (list Z) :=
  a ← mt !! k; b ← mt !! next; c ← mt !! far;
  put mt k (twist a b c).

(** The loops for [kk < N-M] and [kk < N-1] *)
Fixpoint gen_loop1 (mt : list Z) (kk n : nat) : option (list Z) :=
  match n with
  | O => Some mt
  | S n => mt ← gen_word mt kk (kk + 1) (kk + MT_M); gen_loop1 mt (S kk) n
  end.

Fixpoint gen_loop2 (mt : list Z) (kk n : nat) : option (list Z) :=
  match n with
  | O => Some mt
  | S n => mt ← gen_word mt kk (kk + 1) (kk - (MT_N - MT_M)); gen_loop2 mt (S kk) n
  end.

Definition gen_block (mt : list Z) : option (list Z) :=
  mt ← gen_loop1 mt 0 (MT_N - MT_M);
  mt ← gen_loop2 mt (MT_N - MT_M) (MT_M - 1);
  gen_word mt (MT_N - 1) 0 (MT_M - 1).

Definition temper (y : Z) : Z :=
  let y := Z.lxor y (Z.shiftr y 11) in
  let y := Z.lxor y (Z.land (w64 (Z.shiftl y 7)) 0x9d2c5680) in
  let y := Z.lxor y (Z.land (w64 (Z.shiftl y 15)) 0xefc60000) in
  Z.lxor y (Z.shiftr y 18).

Definition genrand_int32 (mt : list Z) (mti : nat) : option (Z * (list Z * nat)) :=
  '(mt, mti) ←
    (if (MT_N <=? mti)%nat then
       '(mt, _) ← (if (mti =? MT_N + 1)%nat then init_genrand mt 5489 else Some (mt, mti));
       mt ← gen_block mt;
       Some (mt, O)
     else Some (mt, mti));
  y ← mt !! mti;
  Some (temper y, (mt, S mti)).

Definition genrand_int31 (mt : list Z) (mti : nat) : option (Z * (list Z * nat)) :=
  '(y, st) ← genrand_int32 mt mti; Some (Z.shiftr y 1, st).

(** ** random.c *)

Record random := mk_random { rnd_mt : list Z; rnd_mti : nat }.

Definition RANDOM_DEFAULT_SEED : Z := 0.

(** [junk] is what the allocated structure holds. *)
Definition random_seed (r : random) (seed : Z) : option random :=
  '(mt, mti) ← init_genrand (rnd_mt r) seed; Some (mk_random mt mti).

Definition random_alloc (junk : list Z) : option random :=
  random_seed (mk_random junk MT_N) RANDOM_DEFAULT_SEED.

Definition Prandom_alloc := random_alloc.

Definition random_generate (r : random) : option (Z * random) :=
  '(y, (mt, mti)) ← genrand_int32 (rnd_mt r) (rnd_mti r); Some (y, mk_random mt mti).

Fixpoint random_calls (n : nat) (r : random) : option (list Z * random) :=
  match n with
  | O => Some ([], r)
  | S n => '(y, r) ← random_generate r; '(ys, r) ← random_calls n r; Some (y :: ys, r)
  end.

(** The values that the authors of the generator publish: the default seed, and
    their test of [init_by_array] with the index that the original leaves. *)
Example mt_default_output :
  (fst <$> random_calls 5 (mk_random (replicate MT_N 0) (S MT_N))) =
  Some [3499211612; 581869302; 3890346734; 3586334585; 545404204].
Proof. vm_compute. reflexivity. Qed.

Example mt_array_output :
  ('(mt, _) ← init_by_array (replicate MT_N 0) [0x123; 0x234; 0x345; 0x456];
   fst <$> random_calls 5 (mk_random mt MT_N)) =
  Some [1067595299; 955945823; 477289528; 4107218783; 4228976476].
Proof. vm_compute. reflexivity. Qed.

(** ** The recurrence *)

(** The word that follows those of [l] *)
Definition next_word (l : list Z) : Z :=
  twist (l !!! (length l - MT_N)%nat) (l !!! (length l - MT_N + 1)%nat) (l !!! (length l - MT_N + MT_M)%nat).

Fixpoint grow (n : nat) (l : list Z) : list Z :=
  match n with O => l | S n => let l' := grow n l in l' ++ [next_word l'] end.

(** The sequence that starts with the words of [mt] *)
Definition stream (mt : list Z) (k : nat) : Z := grow k mt !!! k.

Lemma length_grow n l : length (grow n l) = (n + length l)%nat.
Proof. induction n as [|n IH]; cbn; [done|]. rewrite length_app, IH. cbn. lia. Qed.

Lemma grow_stable n m l k : (k < length l + n)%nat -> (n <= m)%nat -> grow m l !!! k = grow n l !!! k.
Proof.
  intros Hk Hm. induction Hm as [|m Hm IH]; [done|]. cbn. rewrite lookup_total_app_l; [done|]. rewrite length_grow. lia.
Qed.

Lemma stream_start mt k : (k < length mt)%nat -> stream mt k = mt !!! k.
Proof. intros Hk. unfold stream. rewrite (grow_stable 0 k); [done|lia|lia]. Qed.

Lemma stream_next mt k :
  length mt = MT_N -> stream mt (k + MT_N) = twist (stream mt k) (stream mt (k + 1)) (stream mt (k + MT_M)).
Proof.
  intros Hl. assert (HN : MT_N = 624%nat) by done. assert (HM : MT_M = 397%nat) by done.
  unfold stream at 1. rewrite (grow_stable (S k) (k + MT_N)) by lia. cbn.
  rewrite lookup_total_app_r by (rewrite length_grow; lia). rewrite length_grow, Hl. replace (k + MT_N - (k + MT_N))%nat with O by lia.
  cbn. unfold next_word. rewrite length_grow, Hl. replace (k + MT_N - MT_N)%nat with k by lia.
  unfold stream. f_equal; symmetry; apply grow_stable; lia.
Qed.

(** ** 32 bits *)

Definition is32 (x : Z) : Prop := 0 <= x < 2 ^ 32.

Lemma is32_bits x : 0 <= x -> (forall i, 32 <= i -> Z.testbit x i = false) -> is32 x.
Proof.
  intros Hx Hb. split; [done|]. destruct (decide (x = 0)) as [->|Hn]; [lia|].
  apply Z.log2_lt_pow2; [lia|]. destruct (Z.lt_ge_cases (Z.log2 x) 32) as [|Hge]; [done|].
  specialize (Hb _ Hge). rewrite Z.bit_log2 in Hb by lia. done.
Qed.

Lemma is32_high x i : is32 x -> 32 <= i -> Z.testbit x i = false.
Proof.
  intros [Hx Hlt] Hi. destruct (decide (x = 0)) as [->|Hn]; [apply Z.bits_0|].
  apply Z.bits_above_log2; [done|]. assert (Z.log2 x < 32) by (by apply Z.log2_lt_pow2; [lia|]). lia.
Qed.

Lemma is32_lxor x y : is32 x -> is32 y -> is32 (Z.lxor x y).
Proof.
  intros Hx Hy. apply is32_bits.
  - apply Z.lxor_nonneg. destruct Hx, Hy. lia.
  - intros i Hi. by rewrite Z.lxor_spec, !is32_high.
Qed.

Lemma is32_land x y : 0 <= x -> is32 y -> is32 (Z.land x y).
Proof.
  intros Hx Hy. apply is32_bits.
  - apply Z.land_nonneg. by left.
  - intros i Hi. rewrite Z.land_spec, (is32_high y) by done. apply andb_false_r.
Qed.

Lemma is32_lor x y : is32 x -> is32 y -> is32 (Z.lor x y).
Proof.
  intros Hx Hy. apply is32_bits.
  - apply Z.lor_nonneg. destruct Hx, Hy. lia.
  - intros i Hi. by rewrite Z.lor_spec, !is32_high.
Qed.

Lemma is32_shiftr x n : 0 <= n -> is32 x -> is32 (Z.shiftr x n).
Proof.
  intros Hn Hx. apply is32_bits; [apply Z.shiftr_nonneg, Hx|].
  intros i Hi. rewrite Z.shiftr_spec by lia. apply is32_high; [done|lia].
Qed.

Lemma is32_low32 x : 0 <= x -> is32 (low32 x).
Proof. intros Hx. by apply is32_land. Qed.

Lemma is32_twist a b c : is32 a -> is32 b -> is32 c -> is32 (twist a b c).
Proof.
  intros Ha Hb Hc. unfold twist, mag01. assert (H1 : is32 (Z.land a UPPER_MASK)) by (by apply is32_land; [apply Ha|]).
  assert (H2 : is32 (Z.land b LOWER_MASK)) by (by apply is32_land; [apply Hb|]).
  apply is32_lxor; [|by destruct (_ =? 0)]. apply is32_lxor; [done|]. apply is32_shiftr; [done|]. by apply is32_lor.
Qed.

Lemma is32_temper y : is32 y -> is32 (temper y).
Proof.
  intros Hy. unfold temper. assert (Hm : forall x m, is32 m -> is32 (Z.land (w64 x) m)).
  { intros x m Hm. apply is32_land; [apply w64_word|done]. }
  cbv zeta. repeat (apply is32_lxor || apply is32_shiftr || apply Hm); done.
Qed.

(** ** The generator follows the recurrence *)

Section Follows.

Context (X : nat -> Z).
Hypothesis Hrec : forall k, X (k + MT_N) = twist (X k) (X (k + 1)) (X (k + MT_M)).

(** The words before [kk] are of the next block. *)
Definition block (mt : list Z) (b kk : nat) : Prop :=
  length mt = MT_N /\
  forall j, (j < MT_N)%nat -> mt !! j = Some (X (if (j <? kk)%nat then b + MT_N + j else b + j)).

Lemma block_old mt b kk j : block mt b kk -> (kk <= j < MT_N)%nat -> mt !! j = Some (X (b + j)).
Proof. intros [_ Hb] Hj. rewrite Hb by lia. by rewrite (proj2 (Nat.ltb_ge _ _)) by lia. Qed.

Lemma block_new mt b kk j : block mt b kk -> (j < kk)%nat -> (j < MT_N)%nat -> mt !! j = Some (X (b + MT_N + j)).
Proof. intros [_ Hb] Hj Hn. rewrite Hb by lia. by rewrite (proj2 (Nat.ltb_lt _ _)) by lia. Qed.

Lemma gen_word_block mt b kk next far :
  block mt b kk -> (kk < MT_N)%nat ->
  mt !! next = Some (X (b + kk + 1)) -> mt !! far = Some (X (b + kk + MT_M)) ->
  exists mt', gen_word mt kk next far = Some mt' /\ block mt' b (S kk).
Proof.
  intros Hb Hk Hn Hf. unfold gen_word. rewrite (block_old mt b kk kk Hb) by lia. cbn. rewrite Hn. cbn. rewrite Hf. cbn.
  unfold put. destruct Hb as [Hl Hb]. rewrite Hl, (proj2 (Nat.ltb_lt _ _)) by lia. eexists. split; [done|]. split; [by rewrite length_insert|].
  intros j Hj. destruct (decide (j = kk)) as [->|Hne].
  - rewrite list_lookup_insert_eq by lia. rewrite (proj2 (Nat.ltb_lt kk (S kk))) by lia.
    f_equal. rewrite <- Hrec. f_equal. lia.
  - rewrite list_lookup_insert_ne by done. rewrite Hb by done. f_equal. f_equal.
    destruct (Nat.ltb_spec j kk), (Nat.ltb_spec j (S kk)); lia.
Qed.

Lemma gen_loop1_block n : forall mt b kk,
  block mt b kk -> (kk + n <= MT_N - MT_M)%nat ->
  exists mt', gen_loop1 mt kk n = Some mt' /\ block mt' b (kk + n).
Proof.
  assert (HN : MT_N = 624%nat) by done. assert (HM : MT_M = 397%nat) by done.
  induction n as [|n IH]; intros mt b kk Hb Hk; cbn [gen_loop1]; [exists mt; by rewrite Nat.add_0_r|].
  destruct (gen_word_block mt b kk (kk + 1) (kk + MT_M) Hb) as (mt1 & -> & Hb1); [lia| | |].
  - rewrite (block_old _ _ _ _ Hb) by lia. f_equal. f_equal. lia.
  - rewrite (block_old _ _ _ _ Hb) by lia. f_equal. f_equal. lia.
  - cbn. destruct (IH mt1 b (S kk) Hb1) as (mt2 & Hr & Hb2); [lia|]. exists mt2. split; [done|].
    by replace (kk + S n)%nat with (S kk + n)%nat by lia.
Qed.

Lemma gen_loop2_block n : forall mt b kk,
  block mt b kk -> (MT_N - MT_M <= kk)%nat -> (kk + n <= MT_N - 1)%nat ->
  exists mt', gen_loop2 mt kk n = Some mt' /\ block mt' b (kk + n).
Proof.
  assert (HN : MT_N = 624%nat) by done. assert (HM : MT_M = 397%nat) by done.
  induction n as [|n IH]; intros mt b kk Hb Hk Hn; cbn [gen_loop2]; [exists mt; by rewrite Nat.add_0_r|].
  destruct (gen_word_block mt b kk (kk + 1) (kk - (MT_N - MT_M)) Hb) as (mt1 & -> & Hb1); [lia| | |].
  - rewrite (block_old _ _ _ _ Hb) by lia. f_equal. f_equal. lia.
  - rewrite (block_new _ _ _ _ Hb) by lia. f_equal. f_equal. lia.
  - cbn. destruct (IH mt1 b (S kk) Hb1) as (mt2 & Hr & Hb2); [lia..|]. exists mt2. split; [done|].
    by replace (kk + S n)%nat with (S kk + n)%nat by lia.
Qed.

Lemma gen_block_next mt b :
  block mt b 0 -> exists mt', gen_block mt = Some mt' /\ block mt' (b + MT_N) 0.
Proof.
  assert (HN : MT_N = 624%nat) by done. assert (HM : MT_M = 397%nat) by done.
  intros Hb. unfold gen_block.
  destruct (gen_loop1_block (MT_N - MT_M) mt b 0 Hb) as (mt1 & -> & Hb1); [lia|]. cbn [mbind option_bind].
  destruct (gen_loop2_block (MT_M - 1) mt1 b (MT_N - MT_M) Hb1) as (mt2 & -> & Hb2); [lia..|]. cbn [mbind option_bind].
  replace (MT_N - MT_M + (MT_M - 1))%nat with (MT_N - 1)%nat in Hb2 by lia.
  destruct (gen_word_block mt2 b (MT_N - 1) 0 (MT_M - 1) Hb2) as (mt3 & Hr & Hb3); [lia| | |].
  - rewrite (block_new _ _ _ _ Hb2) by lia. f_equal. f_equal. lia.
  - rewrite (block_new _ _ _ _ Hb2) by lia. f_equal. f_equal. lia.
  - exists mt3. split; [done|]. destruct Hb3 as [Hl Hb3]. split; [done|]. intros j Hj. rewrite Hb3 by done.
    rewrite (proj2 (Nat.ltb_lt _ _)) by lia. rewrite (proj2 (Nat.ltb_ge _ _)) by lia. done.
Qed.

(** [k] words of the sequence have been used. *)
Definition at_word (r : random) (k : nat) : Prop :=
  exists b, block (rnd_mt r) b 0 /\ (rnd_mti r <= MT_N)%nat /\ (b + rnd_mti r)%nat = k.

Lemma generate_word r k :
  at_word r k -> exists r', random_generate r = Some (temper (X k), r') /\ at_word r' (S k).
Proof.
  assert (HN : MT_N = 624%nat) by done.
  destruct r as [mt i]. intros (b & Hb & Hi & Hk). cbn [rnd_mt rnd_mti] in *. unfold random_generate, genrand_int32. cbn [rnd_mt rnd_mti].
  destruct (Nat.leb_spec MT_N i) as [Hge|Hlt].
  - rewrite (proj2 (Nat.eqb_neq i (MT_N + 1))) by lia. cbn [mbind option_bind].
    destruct (gen_block_next mt b Hb) as (mt1 & -> & Hb1). cbn [mbind option_bind].
    rewrite (block_old _ _ _ _ Hb1) by lia. cbn [mbind option_bind]. eexists. split.
    + f_equal. f_equal. f_equal. f_equal. lia.
    + exists (b + MT_N)%nat. cbn. split_and!; [done|lia|lia].
  - cbn [mbind option_bind]. rewrite (block_old _ _ _ _ Hb) by lia. cbn [mbind option_bind]. eexists. split.
    + f_equal. f_equal. f_equal. f_equal. lia.
    + exists b. cbn. split_and!; [done|lia|lia].
Qed.

Lemma calls_words n : forall r k,
  at_word r k -> exists r', random_calls n r = Some ((fun i => temper (X i)) <$> seq k n, r') /\ at_word r' (k + n).
Proof.
  induction n as [|n IH]; intros r k Hr; cbn [random_calls]; [exists r; by rewrite Nat.add_0_r|].
  destruct (generate_word r k Hr) as (r1 & -> & Hr1). cbn [mbind option_bind].
  destruct (IH r1 (S k) Hr1) as (r2 & -> & Hr2). cbn. exists r2. split; [done|].
  by replace (k + S n)%nat with (S k + n)%nat by lia.
Qed.

End Follows.

(** ** Seeding *)

Lemma init_loop_words n : forall mt i,
  length mt = MT_N -> (0 < i)%nat -> (i + n <= MT_N)%nat -> (forall j v, (j < i)%nat -> mt !! j = Some v -> is32 v) ->
  exists mt', init_loop mt i n = Some mt' /\ length mt' = MT_N /\ (forall j v, (j < i + n)%nat -> mt' !! j = Some v -> is32 v).
Proof.
  induction n as [|n IH]; intros mt i Hl Hi Hn Hw; cbn [init_loop].
  - exists mt. by rewrite Nat.add_0_r.
  - destruct (lookup_lt_is_Some_2 mt (i - 1)) as [p Hp]; [lia|]. rewrite Hp. cbn [mbind option_bind].
    unfold put. rewrite Hl, (proj2 (Nat.ltb_lt _ _)) by lia. cbn [mbind option_bind].
    destruct (IH (<[i := low32 (w64 (1812433253 * Z.lxor p (Z.shiftr p 30) + Z.of_nat i))]> mt) (S i)) as (mt' & Hr & Hl' & Hw').
    + by rewrite length_insert.
    + lia.
    + lia.
    + intros j v Hj Hv. destruct (decide (j = i)) as [->|Hne].
      * rewrite list_lookup_insert_eq in Hv by lia. injection Hv as <-. apply is32_low32, w64_word.
      * rewrite list_lookup_insert_ne in Hv by done. eapply Hw; [|done]. lia.
    + exists mt'. split_and!; [done|done|]. intros j v Hj. apply Hw'. lia.
Qed.

Lemma seed_words r seed :
  length (rnd_mt r) = MT_N -> 0 <= seed ->
  exists mt, random_seed r seed = Some (mk_random mt MT_N) /\ length mt = MT_N /\ Forall is32 mt.
Proof.
  intros Hl Hs. unfold random_seed, init_genrand, put. rewrite Hl. cbn [Nat.ltb Nat.leb MT_N mbind option_bind].
  change (0 <? MT_N)%nat with true. cbn [mbind option_bind].
  destruct (init_loop_words (MT_N - 1) (<[0%nat := low32 seed]> (rnd_mt r)) 1) as (mt & -> & Hl' & Hw); [by rewrite length_insert|lia| | |].
  - by vm_compute; lia.
  - intros j v Hj Hv. replace j with O in Hv by lia.
    rewrite list_lookup_insert_eq in Hv by (rewrite Hl; apply Nat.ltb_lt; reflexivity). injection Hv as <-. by apply is32_low32.
  - cbn. exists mt. split_and!; [done|done|]. apply list.Forall_lookup. intros j v Hv. eapply Hw; [|done].
    apply lookup_lt_Some in Hv. rewrite Hl' in Hv. exact Hv.
Qed.

Lemma stream_is32 mt k : length mt = MT_N -> Forall is32 mt -> is32 (stream mt k).
Proof.
  intros Hl Hf. induction k as [k IH] using lt_wf_ind. assert (HN : MT_N = 624%nat) by done. assert (HM : MT_M = 397%nat) by done.
  destruct (decide (k < MT_N)%nat) as [Hk|Hk].
  - rewrite stream_start by lia. eapply Forall_lookup_1; [exact Hf|]. apply list_lookup_lookup_total_lt. lia.
  - replace k with (k - MT_N + MT_N)%nat by lia. rewrite stream_next by done. apply is32_twist; apply IH; lia.
Qed.

(** C40. From its seed on, the generator never accesses a word outside of its array,
    and its n-th value is the n-th new word of the sequence that the recurrence
    x(k+624) = twist x(k) x(k+1) x(k+397) defines from the seeded words, tempered;
    it has 32 bits. *)
Theorem generator_reference (r : random) seed n :
  length (rnd_mt r) = MT_N -> 0 <= seed ->
  exists mt, random_seed r seed = Some (mk_random mt MT_N) /\ length mt = MT_N /\
    exists r', random_calls n (mk_random mt MT_N) =
        Some ((fun k => temper (stream mt k)) <$> seq MT_N n, r') /\
      (forall k, stream mt (k + MT_N) = twist (stream mt k) (stream mt (k + 1)) (stream mt (k + MT_M))) /\
      (forall k, is32 (temper (stream mt k))).
Proof.
  intros Hl Hs. destruct (seed_words r seed Hl Hs) as (mt & Hr & Hl' & Hw). exists mt. split_and!; [done|done|].
  destruct (calls_words (stream mt) (fun k => stream_next mt k Hl') n (mk_random mt MT_N) MT_N) as (r' & Hc & _).
  - exists O. cbn [rnd_mt rnd_mti]. split_and!; [split; [done|]|done|done].
    intros j Hj. rewrite list_lookup_lookup_total_lt by lia. by rewrite <- stream_start by lia.
  - exists r'. split_and!; [done|by intros k; apply stream_next|].
    intros k. by apply is32_temper, stream_is32.
Qed.

Lemma generator_reference_witness :
  let r := mk_random (replicate MT_N 0) 0 in
  length (rnd_mt r) = MT_N /\ 0 <= 42 /\
  exists mt, random_seed r 42 = Some (mk_random mt MT_N) /\ length mt = MT_N /\
    exists r', random_calls 3 (mk_random mt MT_N) =
        Some ((fun k => temper (stream mt k)) <$> seq MT_N 3, r') /\
      (forall k, stream mt (k + MT_N) = twist (stream mt k) (stream mt (k + 1)) (stream mt (k + MT_M))) /\
      (forall k, is32 (temper (stream mt k))).
Proof.
  assert (Hl : length (rnd_mt (mk_random (replicate MT_N 0) 0)) = MT_N) by (vm_compute; reflexivity).
  split; [exact Hl|]. split; [lia|]. apply (generator_reference (mk_random (replicate MT_N 0) 0) 42 3 Hl). lia.
Defined.

(** ** [init_by_array]

    It leaves the index at [N + 1], which makes the first call of [genrand_int32]
    seed the array again: the key has no effect. *)

Lemma put_length mt i v mt' : put mt i v = Some mt' -> length mt' = length mt.
Proof. unfold put. case_match; [|done]. intros [= <-]. apply length_insert. Qed.

Lemma init_loop_same n : forall mt1 mt2 i,
  length mt1 = length mt2 -> (0 < i)%nat -> (i + n = length mt1)%nat -> take i mt1 = take i mt2 ->
  init_loop mt1 i n = init_loop mt2 i n.
Proof.
  induction n as [|n IH]; intros mt1 mt2 i Hl Hi Hn Ht; cbn [init_loop].
  - rewrite !take_ge in Ht by lia. by rewrite Ht.
  - assert (Hp : mt1 !! (i - 1)%nat = mt2 !! (i - 1)%nat).
    { rewrite <- (lookup_take_lt mt1 i) by lia. rewrite Ht. apply lookup_take_lt. lia. }
    rewrite Hp. destruct (mt2 !! (i - 1)%nat) as [p|]; [|done]. cbn [mbind option_bind]. unfold put. rewrite <- Hl.
    rewrite (proj2 (Nat.ltb_lt _ _)) by lia. cbn [mbind option_bind]. apply IH.
    + by rewrite !length_insert.
    + lia.
    + rewrite length_insert. lia.
    + apply list_eq. intros j. destruct (decide (j < S i)%nat) as [Hj|Hj].
      * rewrite !lookup_take_lt by done. destruct (decide (j = i)) as [->|Hne].
        -- rewrite !list_lookup_insert_eq by lia. done.
        -- rewrite !list_lookup_insert_ne by done. rewrite <- (lookup_take_lt mt1 i), <- (lookup_take_lt mt2 i) by lia. by rewrite Ht.
      * rewrite !lookup_take_ge by lia. done.
Qed.

Lemma init_same mt1 mt2 s : length mt1 = MT_N -> length mt2 = MT_N -> init_genrand mt1 s = init_genrand mt2 s.
Proof.
  intros H1 H2. unfold init_genrand, put. rewrite H1, H2. change (0 <? MT_N)%nat with true. cbn [mbind option_bind].
  rewrite (init_loop_same (MT_N - 1) (<[0%nat:=low32 s]> mt1) (<[0%nat:=low32 s]> mt2) 1); [done|by rewrite !length_insert, H1|lia| |].
  - rewrite length_insert, H1. vm_compute. reflexivity.
  - destruct mt1 as [|x1 l1], mt2 as [|x2 l2]; done.
Qed.

Lemma init_length mt s mt' mti : length mt = MT_N -> 0 <= s -> init_genrand mt s = Some (mt', mti) -> length mt' = MT_N.
Proof.
  intros Hl Hs Hi. destruct (seed_words (mk_random mt 0) s Hl Hs) as (mt2 & Hr & Hl2 & _).
  unfold random_seed in Hr. cbn [rnd_mt] in Hr. rewrite Hi in Hr. cbn in Hr. by injection Hr as -> _.
Qed.

Lemma wrap_length mt i mt' i' : wrap_index mt i = Some (mt', i') -> length mt' = length mt.
Proof.
  unfold wrap_index. case_match; [|by intros [= <- _]]. intros (v & _ & (mt1 & Hp & Hs)%bind_Some)%bind_Some.
  injection Hs as <- _. by eapply put_length.
Qed.

Lemma loop1_length key k : forall mt i j mt' i', array_loop1 key k mt i j = Some (mt', i') -> length mt' = length mt.
Proof.
  induction k as [|k IH]; intros mt i j mt' i'; cbn [array_loop1]; [by intros [= <- _]|].
  intros (p & _ & (q & _ & (u & _ & (mt1 & Hp & ([mt2 i2] & Hw & Hr)%bind_Some)%bind_Some)%bind_Some)%bind_Some)%bind_Some.
  apply IH in Hr. apply wrap_length in Hw. apply put_length in Hp. congruence.
Qed.

Lemma loop2_length k : forall mt i mt' i', array_loop2 k mt i = Some (mt', i') -> length mt' = length mt.
Proof.
  induction k as [|k IH]; intros mt i mt' i'; cbn [array_loop2]; [by intros [= <- _]|].
  intros (p & _ & (q & _ & (mt1 & Hp & ([mt2 i2] & Hw & Hr)%bind_Some)%bind_Some)%bind_Some)%bind_Some.
  apply IH in Hr. apply wrap_length in Hw. apply put_length in Hp. congruence.
Qed.

Lemma array_length mt key mt' mti :
  length mt = MT_N -> init_by_array mt key = Some (mt', mti) -> length mt' = MT_N /\ mti = S MT_N.
Proof.
  intros Hl ([mt1 i1] & H1 & ([mt2 i2] & H2 & ([mt3 i3] & H3 & (mt4 & H4 & H5)%bind_Some)%bind_Some)%bind_Some)%bind_Some.
  injection H5 as <- <-. apply init_length in H1; [|done|lia]. apply loop1_length in H2. apply loop2_length in H3. apply put_length in H4.
  split; congruence.
Qed.

(** Any two keys give the same random numbers. *)
Lemma array_key_ignored mt1 mt2 key1 key2 r1 r2 i1 i2 :
  length mt1 = MT_N -> length mt2 = MT_N ->
  init_by_array mt1 key1 = Some (r1, i1) -> init_by_array mt2 key2 = Some (r2, i2) ->
  genrand_int32 r1 i1 = genrand_int32 r2 i2.
Proof.
  intros H1 H2 (Hl1 & ->)%array_length (Hl2 & ->)%array_length; [|done..]. unfold genrand_int32.
  change (MT_N <=? S MT_N)%nat with true. change (S MT_N =? MT_N + 1)%nat with true. by rewrite (init_same r1 r2).
Qed.
