(* ===== verification/Objects.v ===== *)
(** * Programs over shared objects

    The code of a data structure reads and writes fields of objects through the
    macros TM_SHARED_READ and TM_SHARED_WRITE (TPCC/lib/tm.h), which are plain
    accesses in a sequential build and [stm_load] and [stm_store] in a
    transactional one.  Such code is written once, as an [oprog], and has two
    meanings: [run], on a heap of objects with fields, where an access to what is
    not an object has no result; and [to_tx], as the body of a transaction over
    the words of memory.  [run_to_tx] says that they agree when the objects lie
    apart in memory; so what is proved with [run] holds of the transactions that
    execute concurrently (CtlCorrect.v). *)
From S2P Require Import Prelude Words LockWord Machine Tx Ctl CtlHist.

Inductive oprog (A : Type) :=
| ORet (a : A)
| OLoad (o : Z) (f : nat) (k : Z -> oprog A)
| OStore (o : Z) (f : nat) (v : Z) (k : oprog A)
| OStore2 (o : Z) (f : nat) (v x : Z) (k : oprog A)   (* stm_store2: the part of the word in the mask x *)
| OTouch (o : Z) (k : oprog A)       (* TM_FREE: the store with an empty mask to the first word *)
| OAbort (k : oprog A)               (* TM_RESTART *)
| OFail.
Arguments ORet {A} a.
Arguments OLoad {A} o f k.
Arguments OStore {A} o f v k.
Arguments OStore2 {A} o f v x k.
Arguments OTouch {A} o k.
Arguments OAbort {A} k.
Arguments OFail {A}.

Fixpoint obind {A B} (p : oprog A) (q : A -> oprog B) : oprog B :=
  match p with
  | ORet a => q a
  | OLoad o f k => OLoad o f (fun v => obind (k v) q)
  | OStore o f v k => OStore o f v (obind k q)
  | OStore2 o f v x k => OStore2 o f v x (obind k q)
  | OTouch o k => OTouch o (obind k q)
  | OAbort k => OAbort (obind k q)
  | OFail => OFail
  end.

Declare Scope obj_scope.
Delimit Scope obj_scope with obj.
Notation "'let@' x := p 'in' q" := (obind p (fun x => q))
  (at level 10, x name, p at level 100, q at level 200) : obj_scope.
Notation "'do@' p ; q" := (obind p (fun _ => q))
  (at level 10, p at level 100, q at level 200) : obj_scope.

(** [TM_SHARED_READ(o->f)] and [TM_SHARED_WRITE(o->f, v)] *)
Definition ldf (o : Z) (f : nat) : oprog Z := OLoad o f ORet.
Definition stf (o : Z) (f : nat) (v : Z) : oprog unit := OStore o f v (ORet tt).
Definition touch (o : Z) : oprog unit := OTouch o (ORet tt).

(** ** The heap of objects *)

Fixpoint run {A} (p : oprog A) (h : gmap Z (list Z)) : option (A * gmap Z (list Z)) :=
  match p with
  | ORet a => Some (a, h)
  | OLoad o f k =>
      match h !! o with
      | Some ob => match ob !! f with Some v => run (k v) h | None => None end
      | None => None
      end
  | OStore o f v k =>
      match h !! o with
      | Some ob => if (f <? length ob)%nat then run k (<[o := <[f := w64 v]> ob]> h) else None
      | None => None
      end
  | OStore2 o f v x k =>
      match h !! o with
      | Some ob =>
          match ob !! f with
          | Some w => run k (<[o := <[f := wmerge w (w64 v) (w64 x)]> ob]> h)
          | None => None
          end
      | None => None
      end
  | OTouch o k => match h !! o with Some (_ :: _) => run k h | _ => None end
  | OAbort _ | OFail => None
  end.

(** The program comes to a TM_RESTART. *)
Fixpoint restarts {A} (p : oprog A) (h : gmap Z (list Z)) : bool :=
  match p with
  | ORet _ | OFail => false
  | OLoad o f k =>
      match h !! o with
      | Some ob => match ob !! f with Some v => restarts (k v) h | None => false end
      | None => false
      end
  | OStore o f v k =>
      match h !! o with
      | Some ob => (f <? length ob)%nat && restarts k (<[o := <[f := w64 v]> ob]> h)
      | None => false
      end
  | OStore2 o f v x k =>
      match h !! o with
      | Some ob =>
          match ob !! f with
          | Some w => restarts k (<[o := <[f := wmerge w (w64 v) (w64 x)]> ob]> h)
          | None => false
          end
      | None => false
      end
  | OTouch o k => match h !! o with Some (_ :: _) => restarts k h | _ => false end
  | OAbort _ => true
  end.

Lemma run_obind {A B} (p : oprog A) (q : A -> oprog B) h :
  run (obind p q) h = match run p h with Some (a, h') => run (q a) h' | None => None end.
Proof.
  revert h. induction p as [a|o f k IH|o f v k IH|o f v x k IH|o k IH|k IH|]; intros h; simpl; try done.
  - destruct (h !! o) as [ob|]; [|done]. destruct (ob !! f); [apply IH|done].
  - destruct (h !! o) as [ob|]; [|done]. destruct (_ <? _)%nat; [apply IH|done].
  - destruct (h !! o) as [ob|]; [|done]. destruct (ob !! f); [apply IH|done].
  - destruct (h !! o) as [[|]|]; [done|apply IH|done].
Qed.

Lemma restarts_obind {A B} (p : oprog A) (q : A -> oprog B) h :
  restarts (obind p q) h = restarts p h || match run p h with Some (a, h') => restarts (q a) h' | None => false end.
Proof.
  revert h. induction p as [a|o f k IH|o f v k IH|o f v x k IH|o k IH|k IH|]; intros h; simpl; try done.
  - destruct (h !! o) as [ob|]; [|done]. destruct (ob !! f); [apply IH|done].
  - destruct (h !! o) as [ob|]; [|done]. destruct (_ <? _)%nat; [apply IH|done].
  - destruct (h !! o) as [ob|]; [|done]. destruct (ob !! f); [apply IH|done].
  - destruct (h !! o) as [[|]|]; [done|apply IH|done].
Qed.

Lemma run_bind_ok {A B} (p : oprog A) (q : A -> oprog B) h a h' :
  run p h = Some (a, h') -> run (obind p q) h = run (q a) h'.
Proof. intros Hp. by rewrite run_obind, Hp. Qed.

Lemma run_assoc {A B C} (p : oprog A) (q : A -> oprog B) (r : B -> oprog C) h :
  run (obind (obind p q) r) h = run (obind p (fun a => obind (q a) r)) h.
Proof. rewrite !run_obind. destruct (run p h) as [[a h']|]; [|done]. by rewrite run_obind. Qed.

Lemma run_ldf {A} (q : Z -> oprog A) o f h ob v :
  h !! o = Some ob -> ob !! f = Some v -> run (obind (ldf o f) q) h = run (q v) h.
Proof. intros Ho Hv. simpl. by rewrite Ho, Hv. Qed.

Lemma run_stf {A} (q : unit -> oprog A) o f v h ob :
  h !! o = Some ob -> (f < length ob)%nat ->
  run (obind (stf o f v) q) h = run (q tt) (<[o := <[f := w64 v]> ob]> h).
Proof. intros Ho Hf. simpl. by rewrite Ho, (proj2 (Nat.ltb_lt _ _) Hf). Qed.

(** ** Transactions *)

Definition field_addr (o : Z) (f : nat) : Z := w64 (o + 8 * Z.of_nat f).

Fixpoint to_tx (p : oprog Z) : txbody :=
  match p with
  | ORet a => TRet a
  | OLoad o f k => TLoad (field_addr o f) (fun v => to_tx (k v))
  | OStore o f v k => TStore (field_addr o f) v (to_tx k)
  | OStore2 o f v x k => TStore2 (field_addr o f) v x (to_tx k)
  | OTouch o k => TStore2 o 0 0 (to_tx k)
  | OAbort k => TAbort (to_tx k)
  | OFail => TFail
  end.

(** The objects are words apart from each other. *)
Record layout (h : gmap Z (list Z)) : Prop := {
  lo_range : forall o ob, h !! o = Some ob -> 0 < o /\ o + 8 * Z.of_nat (length ob) <= 2 ^ 64;
  lo_apart : forall o ob o' ob', h !! o = Some ob -> h !! o' = Some ob' -> o <> o' ->
    o + 8 * Z.of_nat (length ob) <= o' \/ o' + 8 * Z.of_nat (length ob') <= o;
  lo_aligned : forall o ob, h !! o = Some ob -> o mod 8 = 0 }.

(** The memory holds the objects. *)
Definition holds (h : gmap Z (list Z)) (m : mem) : Prop :=
  forall o ob f v, h !! o = Some ob -> ob !! f = Some v -> m (field_addr o f) = v.

Lemma field_addr_eq h o ob f :
  layout h -> h !! o = Some ob -> (f < length ob)%nat ->
  field_addr o f = o + 8 * Z.of_nat f /\ w64 (field_addr o f) = field_addr o f.
Proof.
  intros Hl Ho Hf. destruct (lo_range h Hl o ob Ho) as [H0 H1].
  assert (Hw : field_addr o f = o + 8 * Z.of_nat f) by (apply w64_id; unfold is_word, word_size; lia).
  split; [done|]. apply w64_idemp.
Qed.

Lemma layout_store h o ob ob' :
  layout h -> h !! o = Some ob -> length ob' = length ob -> layout (<[o := ob']> h).
Proof.
  intros [Hr Ha Hal] Ho Hlen.
  assert (Hold : forall x y, <[o := ob']> h !! x = Some y -> exists y', h !! x = Some y' /\ length y' = length y).
  { intros x y. destruct (decide (x = o)) as [->|Hne].
    - rewrite lookup_insert_eq. intros [= <-]. by exists ob.
    - rewrite lookup_insert_ne by done. by exists y. }
  constructor.
  - intros x y (y' & Hx & <-)%Hold. by apply Hr.
  - intros x y x' y' (z & Hx & <-)%Hold (z' & Hx' & <-)%Hold Hne. by eapply Ha.
  - intros x y (y' & Hx & _)%Hold. by eapply Hal.
Qed.

Lemma holds_store h m o ob f v :
  layout h -> holds h m -> h !! o = Some ob -> (f < length ob)%nat ->
  holds (<[o := <[f := v]> ob]> h) (upd m (field_addr o f) v).
Proof.
  intros Hl Hh Ho Hf. intros x y g u Hx Hy. destruct (field_addr_eq h o ob f Hl Ho Hf) as [Hfa _].
  destruct (decide (x = o)) as [->|Hne].
  - rewrite lookup_insert_eq in Hx. injection Hx as <-. destruct (decide (g = f)) as [->|Hgf].
    + rewrite list_lookup_insert_eq in Hy by done. injection Hy as <-. apply upd_same.
    + rewrite list_lookup_insert_ne in Hy by done. rewrite upd_other; [by eapply Hh|].
      destruct (field_addr_eq h o ob g Hl Ho) as [Hga _]; [by apply lookup_lt_Some in Hy|]. lia.
  - rewrite lookup_insert_ne in Hx by done. rewrite upd_other; [by eapply Hh|].
    pose proof (lookup_lt_Some _ _ _ Hy).
    destruct (field_addr_eq h x y g Hl Hx) as [Hga _]; [done|].
    destruct (lo_apart h Hl x y o ob Hx Ho Hne); lia.
Qed.

Lemma store_at h m o ob f v :
  layout h -> holds h m -> is_mem m -> h !! o = Some ob -> (f < length ob)%nat ->
  layout (<[o := <[f := w64 v]> ob]> h) /\
  holds (<[o := <[f := w64 v]> ob]> h) (upd m (w64 (field_addr o f)) (w64 v)) /\
  is_mem (upd m (w64 (field_addr o f)) (w64 v)).
Proof.
  intros Hl Hh Hm Ho Hf. destruct (field_addr_eq h o ob f Hl Ho Hf) as [_ ->]. split_and!.
  - eapply layout_store; [done|done|]. apply length_insert.
  - by apply holds_store.
  - intros a. unfold upd. case_decide; [apply w64_word|apply Hm].
Qed.

(** The store with an empty mask leaves the memory as it is. *)
Lemma touch_mem m a : is_mem m -> upd m (w64 a) (wmerge (m (w64 a)) (w64 0) (w64 0)) = m.
Proof.
  intros Hm. change (w64 0) with 0. rewrite wmerge_0 by (apply Hm || done).
  apply FunctionalExtensionality.functional_extensionality. intros b. unfold upd. by case_decide; subst.
Qed.

Lemma wmerge_at h m o ob f w v x :
  layout h -> holds h m -> is_mem m -> h !! o = Some ob -> ob !! f = Some w ->
  m (w64 (field_addr o f)) = w /\
  layout (<[o := <[f := wmerge w (w64 v) (w64 x)]> ob]> h) /\
  holds (<[o := <[f := wmerge w (w64 v) (w64 x)]> ob]> h) (upd m (w64 (field_addr o f)) (wmerge w (w64 v) (w64 x))) /\
  is_mem (upd m (w64 (field_addr o f)) (wmerge w (w64 v) (w64 x))).
Proof.
  intros Hl Hh Hm Ho Hw. pose proof (lookup_lt_Some _ _ _ Hw) as Hf.
  destruct (field_addr_eq h o ob f Hl Ho Hf) as [_ ->]. pose proof (Hh o ob f w Ho Hw) as Hmw.
  split_and!; [done| | |].
  - eapply layout_store; [done|done|]. apply length_insert.
  - by apply holds_store.
  - intros a. unfold upd. case_decide; [|apply Hm]. apply is_word_wmerge; [rewrite <- Hmw; apply Hm|apply w64_word..].
Qed.

Lemma dom_store {V} (h : gmap Z V) o (ob ob' : V) : h !! o = Some ob -> dom (<[o := ob']> h) = dom h.
Proof. intros Ho. apply dom_insert_lookup_L. by rewrite Ho. Qed.

(** The two meanings agree. *)
Lemma run_to_tx p h m r h' :
  run p h = Some (r, h') -> layout h -> holds h m -> is_mem m ->
  exists m', seq_run (to_tx p) m = SDone r m' /\ layout h' /\ holds h' m' /\ is_mem m' /\ dom h' = dom h.
Proof.
  revert h m. induction p as [a|o f k IH|o f v k IH|o f v x k IH|o k IH|k IH|]; intros h m Hr Hl Hh Hm; simpl in *; try done.
  - injection Hr as <- <-. by exists m.
  - destruct (h !! o) as [ob|] eqn:Ho; [|done]. destruct (ob !! f) as [v|] eqn:Hv; [|done].
    destruct (field_addr_eq h o ob f Hl Ho) as [_ Hw]; [by apply lookup_lt_Some in Hv|].
    rewrite Hw, (Hh o ob f v Ho Hv). by eapply IH.
  - destruct (h !! o) as [ob|] eqn:Ho; [|done]. destruct (Nat.ltb_spec f (length ob)) as [Hf|]; [|done].
    destruct (store_at h m o ob f v Hl Hh Hm Ho Hf) as (Hl1 & Hh1 & Hm1).
    destruct (IH _ _ Hr Hl1 Hh1 Hm1) as (m' & Hb & Hl' & Hh' & Hm' & Hd).
    exists m'. split_and!; try done. rewrite Hd. by eapply dom_store.
  - destruct (h !! o) as [ob|] eqn:Ho; [|done]. destruct (ob !! f) as [w|] eqn:Hw; [|done].
    destruct (wmerge_at h m o ob f w v x Hl Hh Hm Ho Hw) as (-> & Hl1 & Hh1 & Hm1).
    destruct (IH _ _ Hr Hl1 Hh1 Hm1) as (m' & Hb & Hl' & Hh' & Hm' & Hd).
    exists m'. split_and!; try done. rewrite Hd. by eapply dom_store.
  - destruct (h !! o) as [[|x ob]|] eqn:Ho; [done| |done]. rewrite touch_mem by done. by apply IH.
Qed.

Lemma restarts_to_tx p h m :
  restarts p h = true -> layout h -> holds h m -> is_mem m -> seq_run (to_tx p) m = SAborted.
Proof.
  revert h m. induction p as [a|o f k IH|o f v k IH|o f v x k IH|o k IH|k IH|]; intros h m Hr Hl Hh Hm; simpl in *; try done.
  - destruct (h !! o) as [ob|] eqn:Ho; [|done]. destruct (ob !! f) as [v|] eqn:Hv; [|done].
    destruct (field_addr_eq h o ob f Hl Ho) as [_ Hw]; [by apply lookup_lt_Some in Hv|].
    rewrite Hw, (Hh o ob f v Ho Hv). by eapply IH.
  - destruct (h !! o) as [ob|] eqn:Ho; [|done]. destruct (Nat.ltb_spec f (length ob)) as [Hf|]; [|done].
    destruct (store_at h m o ob f v Hl Hh Hm Ho Hf) as (Hl1 & Hh1 & Hm1). by eapply IH.
  - destruct (h !! o) as [ob|] eqn:Ho; [|done]. destruct (ob !! f) as [w|] eqn:Hw; [|done].
    destruct (wmerge_at h m o ob f w v x Hl Hh Hm Ho Hw) as (-> & Hl1 & Hh1 & Hm1). by eapply IH.
  - destruct (h !! o) as [[|x ob]|] eqn:Ho; [done| |done]. rewrite touch_mem by done. by eapply IH.
Qed.
