(* ===== verification/RBTree.v ===== *)
(** * Red-black trees: the functions of TPCC/lib/rbtree.c

    The maps of the TPC-C server (MAP_USE_RBTREE).  Each function exists twice in
    the source, with the same text on direct and on transactional accesses
    (LDF, STF and TX_LDF, TX_STF); here it is one program of Objects.v, which
    [run] executes directly and [to_tx] as a transaction, and the second name is
    an abbreviation.  A loop runs with a bound on its turns. *)
From S2P Require Import Prelude Words Objects.
Open Scope obj_scope.

(** ** Data *)

(** [node_t] is an object with six fields, [rbtree_t] one whose first field is
    [root]; the field [compare] is the parameter of the functions below. *)
Definition f_k : nat := 0.
Definition f_v : nat := 1.
Definition f_p : nat := 2.
Definition f_l : nat := 3.
Definition f_r : nat := 4.
Definition f_c : nat := 5.
Definition f_root : nat := 0.

Definition RED : Z := 0.
Definition BLACK : Z := 1.


(** ** Accessors *)

Definition parentOf (n : Z) : oprog Z := if n =? NULL then ORet NULL else ldf n f_p.
Definition leftOf (n : Z) : oprog Z := if n =? NULL then ORet NULL else ldf n f_l.
Definition rightOf (n : Z) : oprog Z := if n =? NULL then ORet NULL else ldf n f_r.
Definition colorOf (n : Z) : oprog Z := if n =? NULL then ORet BLACK else ldf n f_c.
Definition setColor (n c : Z) : oprog unit := if n =? NULL then ORet tt else stf n f_c c.

Definition when (b : bool) (p : oprog unit) : oprog unit := if b then p else ORet tt.

(** ** Rotations *)

Definition rotateLeft (s x : Z) : oprog unit :=
  let@ r := ldf x f_r in
  let@ rl := ldf r f_l in
  do@ stf x f_r rl;
  do@ when (negb (rl =? NULL)) (stf rl f_p x);
  let@ xp := ldf x f_p in
  do@ stf r f_p xp;
  do@ (if xp =? NULL then stf s f_root r
       else let@ xpl := ldf xp f_l in
            if xpl =? x then stf xp f_l r else stf xp f_r r);
  do@ stf r f_l x;
  stf x f_p r.

Definition rotateRight (s x : Z) : oprog unit :=
  let@ l := ldf x f_l in
  let@ lr := ldf l f_r in
  do@ stf x f_l lr;
  do@ when (negb (lr =? NULL)) (stf lr f_p x);
  let@ xp := ldf x f_p in
  do@ stf l f_p xp;
  do@ (if xp =? NULL then stf s f_root l
       else let@ xpr := ldf xp f_r in
            if xpr =? x then stf xp f_r l else stf xp f_l l);
  do@ stf l f_r x;
  stf x f_p l.

(** ** Insertion *)

Definition grandparentOf (x : Z) : oprog Z := let@ p := parentOf x in parentOf p.

(** One turn of the loop of [fixAfterInsertion] when the parent of [x] is red: the
    new [x] *)
Definition fixAfterInsertion_turn (s x : Z) : oprog Z :=
  let@ p := parentOf x in
  let@ g := grandparentOf x in
  let@ gl := leftOf g in
  if p =? gl then
    let@ g := grandparentOf x in
    let@ y := rightOf g in
    let@ c := colorOf y in
    if c =? RED then
      do@ (let@ p := parentOf x in setColor p BLACK);
      do@ setColor y BLACK;
      do@ (let@ g := grandparentOf x in setColor g RED);
      grandparentOf x
    else
      let@ x := (let@ p := parentOf x in
                 let@ pr := rightOf p in
                 if x =? pr then
                   let@ x := parentOf x in do@ rotateLeft s x; ORet x
                 else ORet x) in
      do@ (let@ p := parentOf x in setColor p BLACK);
      do@ (let@ g := grandparentOf x in setColor g RED);
      do@ (let@ g := grandparentOf x in
           when (negb (g =? NULL)) (let@ g := grandparentOf x in rotateRight s g));
      ORet x
  else
    let@ g := grandparentOf x in
    let@ y := leftOf g in
    let@ c := colorOf y in
    if c =? RED then
      do@ (let@ p := parentOf x in setColor p BLACK);
      do@ setColor y BLACK;
      do@ (let@ g := grandparentOf x in setColor g RED);
      grandparentOf x
    else
      let@ x := (let@ p := parentOf x in
                 let@ pl := leftOf p in
                 if x =? pl then
                   let@ x := parentOf x in do@ rotateRight s x; ORet x
                 else ORet x) in
      do@ (let@ p := parentOf x in setColor p BLACK);
      do@ (let@ g := grandparentOf x in setColor g RED);
      do@ (let@ g := grandparentOf x in
           when (negb (g =? NULL)) (let@ g := grandparentOf x in rotateLeft s g));
      ORet x.

(** [while (x != NULL && x != LDNODE(s, root))] *)
Fixpoint fixAfterInsertion_loop (fuel : nat) (s x : Z) : oprog unit :=
  match fuel with
  | O => OFail
  | S fuel =>
      if x =? NULL then ORet tt
      else
        let@ root := ldf s f_root in
        if x =? root then ORet tt
        else
          let@ xp := ldf x f_p in
          let@ c := ldf xp f_c in
          if negb (c =? RED) then ORet tt
          else let@ x := fixAfterInsertion_turn s x in fixAfterInsertion_loop fuel s x
  end.

Definition fixAfterInsertion (fuel : nat) (s x : Z) : oprog unit :=
  do@ stf x f_c RED;
  do@ fixAfterInsertion_loop fuel s x;
  let@ ro := ldf s f_root in
  let@ c := ldf ro f_c in
  when (negb (c =? BLACK)) (stf ro f_c BLACK).

Section Compare.

(** [s->compare] *)
Context (compare : Z -> Z -> Z).

(** [while (p != NULL)] *)
Fixpoint lookup_loop (fuel : nat) (p k : Z) : oprog Z :=
  match fuel with
  | O => OFail
  | S fuel =>
      if p =? NULL then ORet NULL
      else
        let@ pk := ldf p f_k in
        let cmp := compare k pk in
        if cmp =? 0 then ORet p
        else let@ p := (if cmp <? 0 then ldf p f_l else ldf p f_r) in lookup_loop fuel p k
  end.

Definition lookup (fuel : nat) (s k : Z) : oprog Z :=
  let@ p := ldf s f_root in lookup_loop fuel p k.

(** The new node [n] becomes the child [f] of [t]. *)
Definition insert_at (fuel : nat) (s k v n t : Z) (f : nat) : oprog Z :=
  do@ stf n f_l NULL;
  do@ stf n f_r NULL;
  do@ stf n f_k k;
  do@ stf n f_v v;
  do@ stf n f_p t;
  do@ stf t f n;
  do@ fixAfterInsertion fuel s n;
  ORet NULL.

(** [for (;;)] *)
Fixpoint insert_loop (fuel : nat) (s k v n t : Z) : oprog Z :=
  match fuel with
  | O => OFail
  | S fuel' =>
      let@ tk := ldf t f_k in
      let cmp := compare k tk in
      if cmp =? 0 then ORet t
      else if cmp <? 0 then
        let@ tl := ldf t f_l in
        if negb (tl =? NULL) then insert_loop fuel' s k v n tl else insert_at fuel s k v n t f_l
      else
        let@ tr := ldf t f_r in
        if negb (tr =? NULL) then insert_loop fuel' s k v n tr else insert_at fuel s k v n t f_r
  end.

Definition insert (fuel : nat) (s k v n : Z) : oprog Z :=
  let@ t := ldf s f_root in
  if t =? NULL then
    if n =? NULL then ORet NULL
    else
      do@ stf n f_l NULL;
      do@ stf n f_r NULL;
      do@ stf n f_p NULL;
      do@ stf n f_k k;
      do@ stf n f_v v;
      do@ stf n f_c BLACK;
      do@ stf s f_root n;
      ORet NULL
  else insert_loop fuel s k v n t.

(** ** Deletion *)

(** [while (LDNODE(p, l) != NULL)] *)
Fixpoint leftmost (fuel : nat) (p : Z) : oprog Z :=
  match fuel with
  | O => OFail
  | S fuel => let@ l := ldf p f_l in if negb (l =? NULL) then let@ p := ldf p f_l in leftmost fuel p else ORet p
  end.

(** [while (p != NULL && ch == LDNODE(p, r))] *)
Fixpoint climb (fuel : nat) (p ch : Z) : oprog Z :=
  match fuel with
  | O => OFail
  | S fuel =>
      if p =? NULL then ORet p
      else let@ r := ldf p f_r in
           if ch =? r then let@ p' := ldf p f_p in climb fuel p' p else ORet p
  end.

Definition successor (fuel : nat) (t : Z) : oprog Z :=
  if t =? NULL then ORet NULL
  else
    let@ r := ldf t f_r in
    if negb (r =? NULL) then let@ p := ldf t f_r in leftmost fuel p
    else let@ p := ldf t f_p in climb fuel p t.

(** A turn of the loop of [fixAfterDeletion], when the sibling [sib] is no longer
    red; [x] is the left child, or the right child. *)
Definition fixAfterDeletion_left (s x sib : Z) : oprog Z :=
  let@ sl := leftOf sib in
  let@ cl := colorOf sl in
  let@ both := (if cl =? BLACK then
                  let@ sr := rightOf sib in let@ cr := colorOf sr in ORet (cr =? BLACK)
                else ORet false) in
  if both : bool then do@ setColor sib RED; parentOf x
  else
    let@ sr := rightOf sib in
    let@ cr := colorOf sr in
    let@ sib := (if cr =? BLACK then
                   do@ (let@ sl := leftOf sib in setColor sl BLACK);
                   do@ setColor sib RED;
                   do@ rotateRight s sib;
                   let@ p := parentOf x in rightOf p
                 else ORet sib) in
    do@ (let@ p := parentOf x in let@ c := colorOf p in setColor sib c);
    do@ (let@ p := parentOf x in setColor p BLACK);
    do@ (let@ sr := rightOf sib in setColor sr BLACK);
    do@ (let@ p := parentOf x in rotateLeft s p);
    ldf s f_root.

Definition fixAfterDeletion_right (s x sib : Z) : oprog Z :=
  let@ sr := rightOf sib in
  let@ cr := colorOf sr in
  let@ both := (if cr =? BLACK then
                  let@ sl := leftOf sib in let@ cl := colorOf sl in ORet (cl =? BLACK)
                else ORet false) in
  if both : bool then do@ setColor sib RED; parentOf x
  else
    let@ sl := leftOf sib in
    let@ cl := colorOf sl in
    let@ sib := (if cl =? BLACK then
                   do@ (let@ sr := rightOf sib in setColor sr BLACK);
                   do@ setColor sib RED;
                   do@ rotateLeft s sib;
                   let@ p := parentOf x in leftOf p
                 else ORet sib) in
    do@ (let@ p := parentOf x in let@ c := colorOf p in setColor sib c);
    do@ (let@ p := parentOf x in setColor p BLACK);
    do@ (let@ sl := leftOf sib in setColor sl BLACK);
    do@ (let@ p := parentOf x in rotateRight s p);
    ldf s f_root.

(** One turn of the loop of [fixAfterDeletion] *)
Definition fixAfterDeletion_turn (s x : Z) : oprog Z :=
  let@ p := parentOf x in
  let@ pl := leftOf p in
  if x =? pl then
    let@ sib := (let@ p := parentOf x in rightOf p) in
    let@ c := colorOf sib in
    let@ sib := (if c =? RED then
                   do@ setColor sib BLACK;
                   do@ (let@ p := parentOf x in setColor p RED);
                   do@ (let@ p := parentOf x in rotateLeft s p);
                   let@ p := parentOf x in rightOf p
                 else ORet sib) in
    fixAfterDeletion_left s x sib
  else
    let@ sib := (let@ p := parentOf x in leftOf p) in
    let@ c := colorOf sib in
    let@ sib := (if c =? RED then
                   do@ setColor sib BLACK;
                   do@ (let@ p := parentOf x in setColor p RED);
                   do@ (let@ p := parentOf x in rotateRight s p);
                   let@ p := parentOf x in leftOf p
                 else ORet sib) in
    fixAfterDeletion_right s x sib.

(** [while (x != LDNODE(s,root) && COLOR_OF(x) == BLACK)]: the [x] at the end *)
Fixpoint fixAfterDeletion_loop (fuel : nat) (s x : Z) : oprog Z :=
  match fuel with
  | O => OFail
  | S fuel =>
      let@ root := ldf s f_root in
      if x =? root then ORet x
      else
        let@ c := colorOf x in
        if negb (c =? BLACK) then ORet x
        else let@ x := fixAfterDeletion_turn s x in fixAfterDeletion_loop fuel s x
  end.

Definition fixAfterDeletion (fuel : nat) (s x : Z) : oprog unit :=
  let@ x := fixAfterDeletion_loop fuel s x in
  if x =? NULL then ORet tt
  else let@ c := ldf x f_c in when (negb (c =? BLACK)) (stf x f_c BLACK).

(** The node with two children takes the element of its successor, which is
    unlinked instead of it. *)
Definition delete_choose (fuel : nat) (p : Z) : oprog Z :=
  let@ l := ldf p f_l in
  let@ r := (if negb (l =? NULL) then ldf p f_r else ORet NULL) in
  if negb (l =? NULL) && negb (r =? NULL) then
    let@ q := successor fuel p in
    do@ (let@ k := ldf q f_k in stf p f_k k);
    do@ (let@ v := ldf q f_v in stf p f_v v);
    ORet q
  else ORet p.

(** [p] has no more than one child: its replacement takes its place. *)
Definition delete_replace (fuel : nat) (s p replacement : Z) : oprog unit :=
  do@ (let@ pp := ldf p f_p in stf replacement f_p pp);
  let@ pp := ldf p f_p in
  do@ (if pp =? NULL then stf s f_root replacement
       else let@ ppl := ldf pp f_l in
            if p =? ppl then stf pp f_l replacement else stf pp f_r replacement);
  do@ stf p f_l NULL;
  do@ stf p f_r NULL;
  do@ stf p f_p NULL;
  let@ c := ldf p f_c in
  when (c =? BLACK) (fixAfterDeletion fuel s replacement).

(** [p] has no children and is unlinked. *)
Definition delete_unlink (p : Z) : oprog unit :=
  let@ pp := ldf p f_p in
  if negb (pp =? NULL) then
    do@ (let@ ppl := ldf pp f_l in
         if p =? ppl then stf pp f_l NULL
         else let@ ppr := ldf pp f_r in when (p =? ppr) (stf pp f_r NULL));
    stf p f_p NULL
  else ORet tt.

(** [p] has no more than one child. *)
Definition delete_last (fuel : nat) (s p : Z) : oprog Z :=
  let@ l := ldf p f_l in
  let@ replacement := (if negb (l =? NULL) then ldf p f_l else ldf p f_r) in
  if negb (replacement =? NULL) then
    do@ delete_replace fuel s p replacement;
    ORet p
  else
    let@ pp := ldf p f_p in
    if pp =? NULL then do@ stf s f_root NULL; ORet p
    else
      let@ c := ldf p f_c in
      do@ when (c =? BLACK) (fixAfterDeletion fuel s p);
      do@ delete_unlink p;
      ORet p.

Definition delete_node (fuel : nat) (s p : Z) : oprog Z :=
  let@ p := delete_choose fuel p in delete_last fuel s p.

(** ** The interface *)

(** [rbtree_alloc] on the object that malloc returned; the field [compare] is left
    out. *)
Definition rbtree_alloc (s : Z) : oprog unit := stf s f_root NULL.

(** [TM_FREE], and [free] in the sequential functions: the object is accessed a
    last time.  It stays in the heap of the model: that nobody uses it afterwards
    is what the theorems say of the nodes of the tree. *)
Definition releaseNode (n : Z) : oprog unit := touch n.

Fixpoint freeNode (fuel : nat) (n : Z) : oprog unit :=
  match fuel with
  | O => OFail
  | S fuel =>
      if n =? NULL then ORet tt
      else
        do@ (let@ l := ldf n f_l in freeNode fuel l);
        do@ (let@ r := ldf n f_r in freeNode fuel r);
        releaseNode n
  end.

Definition rbtree_free (fuel : nat) (s : Z) : oprog unit :=
  do@ (let@ root := ldf s f_root in freeNode fuel root);
  touch s.

(** [n] is what [getNode] obtains. *)
Definition rbtree_insert (fuel : nat) (s key val n : Z) : oprog Z :=
  let@ ex := insert fuel s key val n in
  do@ when (negb (ex =? NULL)) (releaseNode n);
  ORet (c_bool (ex =? NULL)).

Definition rbtree_delete (fuel : nat) (s key : Z) : oprog Z :=
  let@ node := lookup fuel s key in
  let@ node := (if negb (node =? NULL) then delete_node fuel s node else ORet node) in
  do@ when (negb (node =? NULL)) (releaseNode node);
  ORet (c_bool (negb (node =? NULL))).

Definition rbtree_update (fuel : nat) (s key val n : Z) : oprog Z :=
  let@ ex := insert fuel s key val n in
  if negb (ex =? NULL) then
    do@ stf ex f_v val;
    do@ releaseNode n;
    ORet 1
  else ORet 0.

Definition rbtree_get (fuel : nat) (s key : Z) : oprog Z :=
  let@ n := lookup fuel s key in
  if negb (n =? NULL) then ldf n f_v else ORet NULL.

Definition rbtree_contains (fuel : nat) (s key : Z) : oprog Z :=
  let@ n := lookup fuel s key in ORet (c_bool (negb (n =? NULL))).

End Compare.

(** [compareKeysDefault]: the difference of the keys as signed words *)
Definition compareKeysDefault (a b : Z) : Z :=
  let signed w := if w <? 2 ^ 63 then w else w - 2 ^ 64 in signed (w64 (a - b)).

(** The transactional functions have the same text. *)
Definition TMparentOf := parentOf.
Definition TMleftOf := leftOf.
Definition TMrightOf := rightOf.
Definition TMcolorOf := colorOf.
Definition TMsetColor := setColor.
Definition TMrotateLeft := rotateLeft.
Definition TMrotateRight := rotateRight.
Definition TMfixAfterInsertion := fixAfterInsertion.
Definition TMlookup := lookup.
Definition TMinsert := insert.
Definition TMsuccessor := successor.
Definition TMfixAfterDeletion := fixAfterDeletion.
Definition TMdelete := delete_node.
(** It fills in a block that is not shared yet with direct stores. *)
Definition TMrbtree_alloc := rbtree_alloc.
Definition TMreleaseNode := releaseNode.
Definition TMrbtree_insert := rbtree_insert.
Definition TMrbtree_delete := rbtree_delete.
Definition TMrbtree_update := rbtree_update.
Definition TMrbtree_get := rbtree_get.
Definition TMrbtree_contains := rbtree_contains.
