(* ===== verification/RBShape.v ===== *)
(** * Red-black trees: the tree that a heap holds

    [tree_in] says that nodes of the heap form a tree with parent pointers, [ctx]
    is the rest of a tree around one of its subtrees.  The rotations are shown to
    turn the tree they should. *)
From S2P Require Import Prelude Words Objects RBTree.
Open Scope obj_scope.

Inductive color := Red | Black.

#[export] Instance color_eq_dec : EqDecision color.
Proof. solve_decision. Defined.

Definition cv (c : color) : Z := match c with Red => RED | Black => BLACK end.

(** A node has its address, its key and its value. *)
Inductive tree := E | T (c : color) (l : tree) (a k v : Z) (r : tree).

#[export] Instance tree_eq_dec : EqDecision tree.
Proof. solve_decision. Defined.

Definition root_of (t : tree) : Z := match t with E => NULL | T _ _ a _ _ _ => a end.

Definition color_of (t : tree) : color := match t with E => Black | T c _ _ _ _ _ => c end.

Fixpoint addrs (t : tree) : list Z :=
  match t with E => [] | T _ l a _ _ r => a :: addrs l ++ addrs r end.

Definition node (k v p l r : Z) (c : color) : list Z := [k; v; p; l; r; cv c].

(** The tree [t], whose root has the parent [p] *)
Fixpoint tree_in (h : gmap Z (list Z)) (p : Z) (t : tree) : Prop :=
  match t with
  | E => True
  | T c l a k v r =>
      h !! a = Some (node k v p (root_of l) (root_of r) c) /\ is_word k /\ is_word v /\
      tree_in h a l /\ tree_in h a r
  end.

(** ** Contexts *)

(** The hole is the left child, or the right child, of the node. *)
Inductive frame := FL (c : color) (a k v : Z) (r : tree) | FR (c : color) (l : tree) (a k v : Z).

Definition ctx := list frame.

Definition fcolor (f : frame) : color := match f with FL c _ _ _ _ => c | FR c _ _ _ _ => c end.

Definition paint (c : color) (t : tree) : tree :=
  match t with E => E | T _ l a k v r => T c l a k v r end.

Definition fpaint (c : color) (f : frame) : frame :=
  match f with FL _ a k v r => FL c a k v r | FR _ l a k v => FR c l a k v end.

Definition fill (f : frame) (t : tree) : tree :=
  match f with FL c a k v r => T c t a k v r | FR c l a k v => T c l a k v t end.

Fixpoint plug (x : ctx) (t : tree) : tree :=
  match x with [] => t | f :: x => plug x (fill f t) end.

Definition faddr (f : frame) : Z := match f with FL _ a _ _ _ => a | FR _ _ a _ _ => a end.

Definition parent (x : ctx) : Z := match x with [] => NULL | f :: _ => faddr f end.

Definition faddrs (f : frame) : list Z :=
  match f with FL _ a _ _ r => a :: addrs r | FR _ l a _ _ => a :: addrs l end.

Fixpoint caddrs (x : ctx) : list Z := match x with [] => [] | f :: x => faddrs f ++ caddrs x end.

(** The context, around a tree with the root [ch] *)
Fixpoint ctx_in (h : gmap Z (list Z)) (ch : Z) (x : ctx) : Prop :=
  match x with
  | [] => True
  | FL c a k v r :: x =>
      h !! a = Some (node k v (parent x) ch (root_of r) c) /\ is_word k /\ is_word v /\
      tree_in h a r /\ ctx_in h a x
  | FR c l a k v :: x =>
      h !! a = Some (node k v (parent x) (root_of l) ch c) /\ is_word k /\ is_word v /\
      tree_in h a l /\ ctx_in h a x
  end.

Lemma tree_in_plug h x t :
  tree_in h NULL (plug x t) <-> ctx_in h (root_of t) x /\ tree_in h (parent x) t.
Proof.
  revert t. induction x as [|f x IH]; intros t; simpl; [tauto|].
  rewrite IH. destruct f; simpl; tauto.
Qed.

Lemma addrs_plug x t : addrs (plug x t) ≡ₚ caddrs x ++ addrs t.
Proof.
  revert t. induction x as [|f x IH]; intros t; simpl; [done|]. rewrite IH.
  destruct f; simpl; solve_Permutation.
Qed.

(** The root of the tree when the hole holds a tree with the root [ch] *)
Fixpoint top (ch : Z) (x : ctx) : Z :=
  match x with [] => ch | f :: x => top (faddr f) x end.

Lemma root_plug x t : root_of (plug x t) = top (root_of t) x.
Proof. revert t. induction x as [|f x IH]; intros t; [done|]. simpl. rewrite IH. by destruct f. Qed.

(** ** What does not change *)

Lemma tree_in_frame h h' p t :
  tree_in h p t -> (forall a, a ∈ addrs t -> h' !! a = h !! a) -> tree_in h' p t.
Proof.
  revert p. induction t as [|c l IHl a k v r IHr]; intros p; simpl; [done|].
  intros (Ha & Hk & Hv & Hl & Hr) Hf. split_and!; try done.
  - rewrite Hf by (by left). done.
  - apply IHl; [done|]. intros b Hb. apply Hf. right. apply elem_of_app. by left.
  - apply IHr; [done|]. intros b Hb. apply Hf. right. apply elem_of_app. by right.
Qed.

Lemma ctx_in_frame h h' ch x :
  ctx_in h ch x -> (forall a, a ∈ caddrs x -> h' !! a = h !! a) -> ctx_in h' ch x.
Proof.
  revert ch. induction x as [|f x IH]; intros ch; simpl; [done|].
  assert (Hsub : forall t, (forall a, a ∈ caddrs (f :: x) -> h' !! a = h !! a) ->
    (forall b, b ∈ addrs t -> b ∈ faddrs f) -> forall b, b ∈ addrs t -> h' !! b = h !! b).
  { intros t Hf Ht b Hb. apply Hf. simpl. apply elem_of_app. left. by apply Ht. }
  assert (Hin : forall (Hf : forall a, a ∈ caddrs (f :: x) -> h' !! a = h !! a) b, b ∈ caddrs x -> h' !! b = h !! b).
  { intros Hf b Hb. apply Hf. simpl. apply elem_of_app. by right. }
  assert (Ha : forall (Hf : forall a, a ∈ caddrs (f :: x) -> h' !! a = h !! a), h' !! faddr f = h !! faddr f).
  { intros Hf. apply Hf. simpl. apply elem_of_app. left. destruct f; by left. }
  destruct f as [c a k v r|c l a k v]; simpl in *; intros (H1 & Hk & Hv & H2 & H3) Hf;
    (split_and!; [by rewrite Ha|done|done| |apply IH; auto]);
    (apply (tree_in_frame h); [done|]; apply Hsub; [done|]; intros b Hb; by right).
Qed.

(** ** A tree in the object [s] *)

(** Node addresses are words other than NULL, and no node occurs twice. *)
Definition is_addr (a : Z) : Prop := 0 < a < 2 ^ 64.

Definition well_placed (l : list Z) : Prop := NoDup l /\ Forall is_addr l.

(** [rest] is the field [compare]. *)
Record rb_at (h : gmap Z (list Z)) (s : Z) (rest : list Z) (t : tree) : Prop := {
  rb_root : h !! s = Some (root_of t :: rest);
  rb_tree : tree_in h NULL t;
  rb_placed : well_placed (s :: addrs t) }.

(** Only the nodes of the tree and the object itself have changed. *)
Definition only (h h' : gmap Z (list Z)) (s : Z) (l : list Z) : Prop :=
  forall a, a <> s -> a ∉ l -> h' !! a = h !! a.

Lemma only_refl h s l : only h h s l.
Proof. done. Qed.

Lemma only_trans h1 h2 h3 s l : only h1 h2 s l -> only h2 h3 s l -> only h1 h3 s l.
Proof. intros H1 H2 a Ha Hl. by rewrite H2, H1. Qed.

Lemma only_perm h1 h2 s l l' : l ≡ₚ l' -> only h1 h2 s l -> only h1 h2 s l'.
Proof. intros Hp H a Ha Hl. apply H; [done|]. by rewrite Hp. Qed.

Lemma well_placed_perm l l' : l ≡ₚ l' -> well_placed l -> well_placed l'.
Proof.
  intros Hp [Hn Hf]. split; [by rewrite <- Hp|]. rewrite list.Forall_forall in *. intros a Ha. apply Hf. by rewrite Hp.
Qed.

Lemma w64_addr a : is_addr a -> w64 a = a.
Proof. intros [??]. apply w64_id. unfold is_word, word_size. lia. Qed.

Lemma cv_word c : w64 (cv c) = cv c.
Proof. by destruct c. Qed.

Lemma cv_red c : (cv c =? RED) = bool_decide (c = Red).
Proof. by destruct c. Qed.

Lemma cv_black c : (cv c =? BLACK) = bool_decide (c = Black).
Proof. by destruct c. Qed.

(** ** Separation

    A list of addresses as pieces: single addresses, and the lists of addresses of
    subtrees that are not known any further *)

Inductive piece := One (a : Z) | Many (l : list Z).

Fixpoint flat (ps : list piece) : list Z :=
  match ps with [] => [] | One a :: ps => a :: flat ps | Many l :: ps => l ++ flat ps end.

Fixpoint away (a : Z) (ps : list piece) : Prop :=
  match ps with [] => True | One b :: ps => a <> b /\ away a ps | Many l :: ps => (a ∉ l) /\ away a ps end.

Fixpoint clear_of (l : list Z) (ps : list piece) : Prop :=
  match ps with [] => True | One b :: ps => (b ∉ l) /\ clear_of l ps | Many _ :: ps => clear_of l ps end.

(** What [well_placed] says of the single addresses *)
Fixpoint separate (ps : list piece) : Prop :=
  match ps with
  | [] => True
  | One a :: ps => is_addr a /\ away a ps /\ separate ps
  | Many l :: ps => Forall is_addr l /\ clear_of l ps /\ separate ps
  end.

Lemma not_in_away a ps : a ∉ flat ps -> away a ps.
Proof.
  induction ps as [|[b|l] ps IH]; [done|cbn|cbn].
  - rewrite not_elem_of_cons. tauto.
  - rewrite not_elem_of_app. tauto.
Qed.

Lemma disjoint_clear l ps : (forall a, a ∈ l -> a ∉ flat ps) -> clear_of l ps.
Proof.
  induction ps as [|[b|l'] ps IH]; [done|cbn|cbn]; intros H.
  - split; [intros Hb; apply (H b Hb); by left|]. apply IH. intros a Ha Hn. apply (H a Ha). by right.
  - apply IH. intros a Ha Hn. apply (H a Ha), elem_of_app. by right.
Qed.

Lemma well_placed_separate ps : well_placed (flat ps) -> separate ps.
Proof.
  intros [Hn Hf]. induction ps as [|[a|l] ps IH]; [done|cbn in *..].
  - apply list.NoDup_cons in Hn as [Ha Hn]. apply list.Forall_cons in Hf as [Haa Hf].
    split_and!; [done|by apply not_in_away|by apply IH].
  - apply list.NoDup_app in Hn as (_ & Hd & Hn). apply list.Forall_app in Hf as [Hl Hf].
    split_and!; [done|by apply disjoint_clear|by apply IH].
Qed.

Ltac pieces l :=
  lazymatch l with
  | ?a :: ?l => let q := pieces l in constr:(One a :: q)
  | [] => constr:(@nil piece)
  | (?a :: ?l1) ++ ?l2 => let q := pieces (l1 ++ l2) in constr:(One a :: q)
  | [] ++ ?l2 => pieces l2
  | (?l0 ++ ?l1) ++ ?l2 => pieces (l0 ++ l1 ++ l2)
  | ?l1 ++ ?l2 => let q := pieces l2 in constr:(Many l1 :: q)
  | ?l => constr:([Many l])
  end.

(** All that [H : well_placed l] says, as facts about single addresses *)
Ltac apart H :=
  cbn [caddrs faddrs addrs] in H;
  lazymatch type of H with
  | well_placed ?l =>
      let q := pieces l in
      let E := fresh "E" in
      assert (E : l = flat q) by (cbn [flat]; repeat first [progress cbn [app] | rewrite <- app_assoc | rewrite app_nil_r]; reflexivity);
      rewrite E in H; clear E; apply well_placed_separate in H;
      cbn [separate away clear_of] in H; destruct_and? H
  end.

Lemma addr_ne a : is_addr a -> a <> NULL.
Proof. unfold is_addr, NULL. lia. Qed.

Lemma root_ne t a : a ∉ addrs t -> is_addr a -> root_of t <> a.
Proof.
  destruct t as [|c l b k v r]; simpl; [unfold is_addr, NULL; lia|]. intros Hn _ ->. apply Hn. by left.
Qed.

Lemma w64_null : w64 NULL = NULL.
Proof. done. Qed.

Lemma setColor_stf a c : is_addr a -> setColor a c = stf a f_c c.
Proof. intros Ha. unfold setColor. by rewrite (proj2 (Z.eqb_neq a NULL) (addr_ne a Ha)). Qed.

(** Run a program on a known part of the heap. *)
Ltac steps :=
  repeat first
    [ progress simpl
    | match goal with
      | |- context [<[?a := _]> _ !! ?a] => rewrite lookup_insert_eq
      | |- context [<[?a := _]> _ !! ?b] => rewrite (lookup_insert_ne _ a b) by congruence
      | H : ?h !! ?a = Some _ |- context [?h !! ?a] => rewrite H
      | H : is_addr ?a |- context [w64 ?a] => rewrite (w64_addr a H)
      | |- context [w64 NULL] => rewrite w64_null
      | |- context [w64 (cv ?c)] => rewrite (cv_word c)
      | |- context [w64 RED] => change (w64 RED) with (cv Red)
      | |- context [w64 BLACK] => change (w64 BLACK) with (cv Black)
      | |- context [?a =? ?a] => rewrite (Z.eqb_refl a)
      | H : is_addr ?a |- context [?a =? NULL] => rewrite (proj2 (Z.eqb_neq a NULL) (addr_ne a H))
      | |- context [?a =? ?b] => rewrite (proj2 (Z.eqb_neq a b)) by
          first [congruence | apply root_ne; assumption | apply not_eq_sym, root_ne; assumption]
      end ].

(** A part of the tree that no store touched *)
Ltac keep :=
  first [eapply tree_in_frame; [eassumption|] | eapply ctx_in_frame; [eassumption|]];
  let b := fresh "b" in let Hb := fresh "Hb" in
  intros b Hb; repeat (rewrite lookup_insert_ne; [|by intros ->]); reflexivity.

Ltac outside Ho Hperm :=
  let z := fresh "z" in let Hz := fresh "Hz" in let Hn := fresh "Hnz" in
  intros z Hz Hn; rewrite <- (Ho z Hz Hn); rewrite <- Hperm in Hn;
  cbn [caddrs faddrs addrs app] in Hn;
  repeat first [rewrite not_elem_of_app in Hn | rewrite not_elem_of_cons in Hn]; destruct_and? Hn;
  repeat (rewrite lookup_insert_ne by congruence); reflexivity.

(** Close the goal of a symbolic execution. *)
Ltac settle Hw Hperm Ho :=
  eexists; split; [reflexivity|];
  constructor; cbn [tree_in ctx_in top parent faddr root_of] in *;
    [ steps; done
    | split_and?; first [done | by steps | keep]
    | split_and?; first [done | by steps | keep]
    | eapply well_placed_perm; [|exact Hw]; cbn [caddrs faddrs addrs app]; solve_Permutation
    | rewrite <- Hperm; cbn [caddrs faddrs addrs app]; solve_Permutation
    | outside Ho Hperm ].

Ltac open_focus Hf :=
  let Hs := fresh "Hs" in let Hx := fresh "Hx" in let Ht := fresh "Ht" in let Hw := fresh "Hw" in
  let Hn := fresh "Hn" in let Hperm := fresh "Hperm" in let Ho := fresh "Ho" in
  destruct Hf as [Hs Hx Ht Hw Hperm Ho]; pose proof Hw as Hn;
  cbn [tree_in ctx_in root_of parent faddr top] in Hs, Hx, Ht; destruct_and? Ht; destruct_and? Hx;
  apart Hn.

(** ** A tree with a hole *)

Section Focus.

(** The heap when the operation began, the nodes of the tree, its object *)
Context (h0 : gmap Z (list Z)) (A : list Z) (s : Z) (rest : list Z).

Record at_focus (h : gmap Z (list Z)) (x : ctx) (t : tree) : Prop := {
  fo_root : h !! s = Some (top (root_of t) x :: rest);
  fo_ctx : ctx_in h (root_of t) x;
  fo_tree : tree_in h (parent x) t;
  fo_placed : well_placed (s :: caddrs x ++ addrs t);
  fo_nodes : caddrs x ++ addrs t ≡ₚ A;
  fo_only : only h0 h s A }.

Lemma rb_focus h x t :
  at_focus h x t <-> rb_at h s rest (plug x t) /\ addrs (plug x t) ≡ₚ A /\ only h0 h s A.
Proof.
  pose proof (addrs_plug x t) as Hp. split.
  - intros [H1 H2 H3 H4 H5 H6]. split_and!; [|by rewrite Hp|done].
    constructor; [by rewrite root_plug|by apply tree_in_plug|].
    eapply well_placed_perm; [|exact H4]. by rewrite Hp.
  - intros ([H1 H2 H3] & H5 & H6). rewrite root_plug in H1. apply tree_in_plug in H2 as [H2 H4].
    constructor; try done; [|by rewrite <- Hp]. eapply well_placed_perm; [|exact H3]. by rewrite Hp.
Qed.

(** The same tree with the hole elsewhere *)
Lemma refocus h x t x' t' : plug x t = plug x' t' -> at_focus h x t -> at_focus h x' t'.
Proof. intros He. rewrite !rb_focus. by rewrite He. Qed.

Lemma focus_addr h x t a : at_focus h x t -> a ∈ caddrs x ++ addrs t -> is_addr a.
Proof.
  intros Hf Ha. destruct (fo_placed _ _ _ Hf) as [_ Hp]. rewrite list.Forall_forall in Hp. apply Hp. by right.
Qed.

Lemma top_in ch x : x <> [] -> top ch x ∈ caddrs x.
Proof.
  revert ch. induction x as [|f x IH]; intros ch Hx; [done|]. cbn. apply elem_of_app.
  destruct x as [|g x]; [left; destruct f; by left|]. right. by apply IH.
Qed.

(** A node below another one *)
Lemma focus_below h f x c l a k v r :
  at_focus h (f :: x) (T c l a k v r) ->
  a <> NULL /\ a <> top (faddr f) x /\ h !! s = Some (top (faddr f) x :: rest) /\
  h !! a = Some (node k v (faddr f) (root_of l) (root_of r) c) /\
  exists ob, h !! faddr f = Some ob /\ ob !! f_c = Some (cv (fcolor f)).
Proof.
  intros Hf. pose proof (fo_placed _ _ _ Hf) as [Hn Hp]. split_and!.
  - apply addr_ne. eapply focus_addr; [exact Hf|]. apply elem_of_app. right. by left.
  - intros He. apply list.NoDup_cons in Hn as [_ Hn]. apply list.NoDup_app in Hn as (_ & Hd & _).
    apply (Hd a); [|by left]. rewrite He. by apply (top_in a (f :: x)).
  - apply (fo_root _ _ _ Hf).
  - apply (fo_tree _ _ _ Hf).
  - pose proof (fo_ctx _ _ _ Hf) as Hx. destruct f; destruct Hx as (Ho & _); by eexists.
Qed.

Lemma rotateLeft_focus h x c l a k v c' rl b k' v' rr :
  at_focus h x (T c l a k v (T c' rl b k' v' rr)) ->
  exists h', run (rotateLeft s a) h = Some (tt, h') /\
    at_focus h' x (T c' (T c l a k v rl) b k' v' rr).
Proof.
  intros Hf. destruct rl as [|cd dl d kd vd dr], x as [|[c0 a0 k0 v0 r0|c0 l0 a0 k0 v0] x];
    open_focus Hf; unfold rotateLeft, when; steps; settle Hw Hperm Ho.
Qed.

Lemma rotateRight_focus h x c l a k v c' rl b k' v' rr :
  at_focus h x (T c' (T c l a k v rl) b k' v' rr) ->
  exists h', run (rotateRight s b) h = Some (tt, h') /\
    at_focus h' x (T c l a k v (T c' rl b k' v' rr)).
Proof.
  intros Hf. destruct rl as [|cd dl d kd vd dr], x as [|[c0 a0 k0 v0 r0|c0 l0 a0 k0 v0] x];
    open_focus Hf; unfold rotateRight, when; steps; settle Hw Hperm Ho.
Qed.

(** A store to a field of the root of the focus that is no pointer *)
Lemma setColor_focus c' h x c l a k v r :
  at_focus h x (T c l a k v r) ->
  exists h', run (setColor a (cv c')) h = Some (tt, h') /\ at_focus h' x (T c' l a k v r).
Proof.
  intros Hf. destruct x as [|[c0 a0 k0 v0 r0|c0 l0 a0 k0 v0] x];
    open_focus Hf; unfold setColor; steps; settle Hw Hperm Ho.
Qed.

Lemma setBlack h x c l a k v r :
  at_focus h x (T c l a k v r) ->
  exists h', run (setColor a BLACK) h = Some (tt, h') /\ at_focus h' x (T Black l a k v r).
Proof. apply (setColor_focus Black). Qed.

Lemma setRed h x c l a k v r :
  at_focus h x (T c l a k v r) ->
  exists h', run (setColor a RED) h = Some (tt, h') /\ at_focus h' x (T Red l a k v r).
Proof. apply (setColor_focus Red). Qed.

End Focus.

(** ** Tactics for the functions of the tree *)

(** The nodes of the heap that are in the focus *)
Ltac look Hf :=
  let Hs := fresh "Hs" in let Hx := fresh "Hx" in let Ht := fresh "Ht" in
  pose proof (fo_root _ _ _ _ _ _ _ Hf) as Hs; pose proof (fo_ctx _ _ _ _ _ _ _ Hf) as Hx;
  pose proof (fo_tree _ _ _ _ _ _ _ Hf) as Ht;
  cbn [tree_in ctx_in root_of parent faddr top paint fill fpaint app] in Hs, Hx, Ht; destruct_and? Ht; destruct_and? Hx.

(** Look at the tree [t] at [x] instead. *)
Ltac refocus_at Hf x t F :=
  lazymatch type of Hf with
  | at_focus ?h0 ?A ?s ?rest ?h _ _ =>
      assert (F : at_focus h0 A s rest h x t) by (refine (refocus _ _ _ _ _ _ _ _ _ _ Hf); reflexivity)
  end.

(** Run the operation with the specification [L] on the tree [t] at [x]. *)
Ltac act Hf L x t F :=
  let h1 := fresh "h" in let R := fresh "R" in let F0 := fresh "F" in
  refocus_at Hf x t F0;
  apply L in F0; destruct F0 as (h1 & R & F); cbn [cv] in R;
  rewrite ?run_assoc, (run_bind_ok _ _ _ _ _ R); clear R; look F; steps.

Ltac finish F := eexists; split; [reflexivity|]; refine (refocus _ _ _ _ _ _ _ _ _ _ F); reflexivity.
