(* ===== verification/RBPure.v ===== *)
(** * Red-black trees: the trees as values

    The invariant that makes a tree red-black, for trees and for the contexts of
    RBShape.v, the list of the elements in order, and what the turn of a loop does
    to the tree around its node. *)
From S2P Require Import Prelude Words Objects RBTree RBShape.

(** ** Colors *)

Definition sibling (f : frame) : tree := match f with FL _ _ _ _ r => r | FR _ l _ _ _ => l end.

Definition pcolor (x : ctx) : color := match x with [] => Black | f :: _ => fcolor f end.

(** [n] black nodes on every path from the root to a leaf, no red node with a red
    child *)
Fixpoint rb (n : nat) (t : tree) : Prop :=
  match t with
  | E => n = O
  | T Red l _ _ _ r => color_of l = Black /\ color_of r = Black /\ rb n l /\ rb n r
  | T Black l _ _ _ r => match n with O => False | S m => rb m l /\ rb m r end
  end.

(** The same of a context around a tree with [n] black nodes on its paths; the
    root of the whole tree is not red. *)
Fixpoint rbx (n : nat) (x : ctx) : Prop :=
  match x with
  | [] => True
  | f :: x =>
      rb n (sibling f) /\
      match fcolor f with
      | Red => color_of (sibling f) = Black /\ pcolor x = Black /\ x <> [] /\ rbx n x
      | Black => rbx (S n) x
      end
  end.

Lemma rb_plug n x t :
  rb n t -> rbx n x -> (color_of t = Red -> pcolor x = Black) -> exists m, rb m (plug x t).
Proof.
  revert n t. induction x as [|f x IH]; intros n t Ht Hx Hc; [by exists n|]. cbn [rbx] in Hx.
  destruct Hx as [Hs Hx]. destruct f as [c a k v r|c l a k v], c; cbn in *; destr.
  - apply (IH n); cbn; auto. destruct (color_of t); [by discriminate Hc|]. done.
  - by apply (IH (S n)).
  - apply (IH n); cbn; auto. destruct (color_of t); [by discriminate Hc|]. done.
  - by apply (IH (S n)).
Qed.

(** The invariant says nothing about keys and values. *)
Lemma rb_same x t t' :
  color_of t = color_of t' -> (forall n, rb n t -> rb n t') -> forall n, rb n (plug x t) -> rb n (plug x t').
Proof.
  revert t t'. induction x as [|f x IH]; intros t t' Hc H n; [apply H|]. apply IH; [by destruct f|].
  clear n. intros n. destruct f as [[] a k v r|[] l a k v]; cbn; rewrite ?Hc; try (destruct n as [|n]; [done|]);
    intros; destr; split_and!; auto.
Qed.

Lemma rb_black n t : rb n t -> exists m, rb m (paint Black t).
Proof. destruct t as [|[] l a k v r]; intros H; [by exists n|exists (S n); cbn in *; tauto|by exists n]. Qed.

(** The whole tree *)
Definition red_black (t : tree) : Prop := color_of t = Black /\ exists n, rb n t.

(** A tree in its place in a red-black tree *)
Definition zipped (x : ctx) (t : tree) : Prop :=
  exists n, rb n t /\ rbx n x /\ (color_of t = Red -> pcolor x = Black /\ x <> []).

Lemma zip_root t : red_black t -> zipped [] t.
Proof. intros [Hc [n Hn]]. exists n. rewrite Hc. by split_and!. Qed.

Lemma zip_left x c l a k v r : zipped x (T c l a k v r) -> zipped (FL c a k v r :: x) l.
Proof.
  intros [n (Ht & Hx & Hc)]. destruct c; cbn in *.
  - destruct Ht as (Hl & Hr & Ht & Hs), Hc as [Hp Hn]; [done|]. exists n. rewrite Hl. by split_and!.
  - destruct n as [|n]; [done|]. destruct Ht as [Ht Hs]. exists n. cbn. by split_and!.
Qed.

Lemma zip_right x c l a k v r : zipped x (T c l a k v r) -> zipped (FR c l a k v :: x) r.
Proof.
  intros [n (Ht & Hx & Hc)]. destruct c; cbn in *.
  - destruct Ht as (Hl & Hr & Hs & Ht), Hc as [Hp Hn]; [done|]. exists n. rewrite Hr. by split_and!.
  - destruct n as [|n]; [done|]. destruct Ht as [Hs Ht]. exists n. cbn. by split_and!.
Qed.

(** ** Size and height *)

Fixpoint size (t : tree) : nat := match t with E => O | T _ l _ _ _ r => S (size l + size r) end.

Fixpoint height (t : tree) : nat := match t with E => O | T _ l _ _ _ r => S (Nat.max (height l) (height r)) end.

Definition red_one (t : tree) : nat := match color_of t with Red => 1 | Black => 0 end.

Lemma rb_height n t : rb n t -> (height t <= 2 * n + red_one t)%nat.
Proof.
  revert n. induction t as [|[] l IHl a k v r IHr]; intros n; unfold red_one in *; cbn; [lia| |].
  - intros (Hl & Hr & H1%IHl & H2%IHr). rewrite Hl, Hr in *. lia.
  - destruct n as [|n]; [done|]. intros [H1%IHl H2%IHr].
    destruct (color_of l), (color_of r); lia.
Qed.

Lemma rb_size n t : rb n t -> (2 ^ n <= S (size t))%nat.
Proof.
  revert n. induction t as [|[] l IHl a k v r IHr]; intros n; cbn [rb size].
  - intros ->. cbn. lia.
  - intros (_ & _ & H1%IHl & H2%IHr). lia.
  - destruct n as [|n]; [done|]. intros [H1%IHl H2%IHr]. rewrite Nat.pow_succ_r'. lia.
Qed.

(** The height of a tree of [size] nodes is logarithmic. *)
Lemma red_black_height t : red_black t -> (height t <= 2 * Nat.log2 (S (size t)))%nat.
Proof.
  intros [Hc [n Hn]]. pose proof (rb_height n t Hn) as H1. pose proof (rb_size n t Hn) as H2.
  unfold red_one in H1. rewrite Hc in H1.
  pose proof (Nat.log2_le_mono _ _ H2) as H3. rewrite Nat.log2_pow2 in H3 by lia. lia.
Qed.

(** ** Elements *)

Fixpoint inorder (t : tree) : list (Z * Z) :=
  match t with E => [] | T _ l _ k v r => inorder l ++ (k, v) :: inorder r end.

(** What precedes and what follows the hole *)
Fixpoint lefts (x : ctx) : list (Z * Z) :=
  match x with
  | [] => []
  | FL _ _ _ _ _ :: x => lefts x
  | FR _ l _ k v :: x => lefts x ++ inorder l ++ [(k, v)]
  end.

Fixpoint rights (x : ctx) : list (Z * Z) :=
  match x with
  | [] => []
  | FL _ _ k v r :: x => (k, v) :: inorder r ++ rights x
  | FR _ _ _ _ _ :: x => rights x
  end.

Lemma inorder_plug x t : inorder (plug x t) = lefts x ++ inorder t ++ rights x.
Proof.
  revert t. induction x as [|f x IH]; intros t; cbn; [by rewrite app_nil_r|]. rewrite IH.
  destruct f; cbn; rewrite <- ?app_assoc; cbn; rewrite <- ?app_assoc; done.
Qed.

Lemma inorder_paint c t : inorder (paint c t) = inorder t.
Proof. by destruct t. Qed.

(** ** The turn of [fixAfterInsertion] *)

(** What becomes of the tree [t] in the frames [f1] and [f2] *)
Definition ins_turn (f1 f2 : frame) (t : tree) : ctx * tree :=
  if decide (color_of (sibling f2) = Red)
  then ([], match f2 with
            | FL _ g k v u => T Red (fill (fpaint Black f1) t) g k v (paint Black u)
            | FR _ u g k v => T Red (paint Black u) g k v (fill (fpaint Black f1) t)
            end)
  else match f2, f1, t with
       | FL _ g kg vg u, FL _ p kp vp pr, _ => ([FL Black p kp vp (T Red pr g kg vg u)], t)
       | FL _ g kg vg u, FR cp pl p kp vp, T _ l a k v r =>
           ([FL Black a k v (T Red r g kg vg u)], T cp pl p kp vp l)
       | FR _ u g kg vg, FR _ pl p kp vp, _ => ([FR Black (T Red u g kg vg pl) p kp vp], t)
       | FR _ u g kg vg, FL cp p kp vp pr, T _ l a k v r =>
           ([FR Black (T Red u g kg vg l) a k v], T cp r p kp vp pr)
       | _, _, E => ([f1; f2], t)
       end.

Lemma ins_turn_inorder f1 f2 t y :
  inorder (plug ((ins_turn f1 f2 t).1 ++ y) (ins_turn f1 f2 t).2) = inorder (plug (f1 :: f2 :: y) t).
Proof.
  rewrite !inorder_plug. unfold ins_turn. case_decide.
  - destruct f2, f1; cbn; rewrite ?inorder_paint, <- ?app_assoc; cbn; rewrite <- ?app_assoc; done.
  - destruct f2, f1, t; cbn; rewrite <- ?app_assoc; cbn; rewrite <- ?app_assoc; cbn; rewrite <- ?app_assoc; done.
Qed.

Lemma ins_turn_shorter f1 f2 t : t <> E -> (length (ins_turn f1 f2 t).1 <= 1)%nat.
Proof. intros He. unfold ins_turn. case_decide; [cbn; lia|]. destruct f2, f1, t; cbn; done || lia. Qed.

Lemma ins_turn_rb n f1 f2 t y :
  t <> E -> color_of t = Red -> rb n t -> rbx n (f1 :: f2 :: y) -> fcolor f1 = Red ->
  let r := ins_turn f1 f2 t in
  r.2 <> E /\ color_of r.2 = Red /\ exists m, rb m r.2 /\ rbx m (r.1 ++ y) /\
    ((r.1 = []) \/ (pcolor (r.1 ++ y) = Black /\ r.1 <> [])).
Proof.
  intros He Hc Ht Hx Hf r. cbn [rbx] in Hx. rewrite Hf in Hx. destruct Hx as (Hs & Hsc & Hg & _ & Hsg & Hx).
  cbn [pcolor] in Hg. rewrite Hg in Hx. subst r. unfold ins_turn. case_decide as Hu.
  - split; [by destruct f2|]. split; [by destruct f2|]. exists (S n).
    destruct f2 as [? ? ? ? u|? u], f1, u as [|[]]; cbn in *; destr; subst; try done; split_and!; auto; tauto.
  - destruct (color_of (sibling f2)) eqn:Hcu; [done|].
    destruct f2, f1, t as [|[] ? ? ? ? ?]; cbn in *; try done; subst; destr;
      (split; [done|]; split; [done|]); exists n; split_and!; auto.
Qed.
