(* ===== verification/RBOrder.v ===== *)
(** * Red-black trees: keys in order

    What the functions of rbtree.c need of the field [compare], the elements of a
    tree in order, and the maps they stand for. *)
From stdpp Require Import sorting.
From S2P Require Import Prelude Words Objects RBTree RBShape RBPure.

(** ** Comparing keys *)

(** [compare] orders the keys that are [valid]. *)
Class KeyOrder (compare : Z -> Z -> Z) (valid : Z -> Prop) : Prop := {
  ko_word a : valid a -> is_word a;
  ko_eq a b : valid a -> valid b -> compare a b = 0 <-> a = b;
  ko_flip a b : valid a -> valid b -> 0 < compare a b <-> compare b a < 0;
  ko_trans a b c : valid a -> valid b -> valid c -> compare a b < 0 -> compare b c < 0 -> compare a c < 0 }.

(** Keys below [2^63]: their difference as signed words has the right sign. *)
#[export] Instance default_order : KeyOrder compareKeysDefault (fun k => 0 <= k < 2 ^ 63).
Proof.
  assert (Hc : forall a b, 0 <= a < 2 ^ 63 -> 0 <= b < 2 ^ 63 -> compareKeysDefault a b = a - b).
  { intros a b Ha Hb. unfold compareKeysDefault, w64, word_size. destruct (Z.ltb_spec a b) as [Hab|Hab].
    - rewrite <- (Z.mod_add _ 1) by done. rewrite Z.mod_small by lia. rewrite (proj2 (Z.ltb_ge _ _)); lia.
    - rewrite Z.mod_small by lia. rewrite (proj2 (Z.ltb_lt _ _)); lia. }
  split.
  - unfold is_word, word_size. lia.
  - intros a b Ha Hb. rewrite Hc by done. lia.
  - intros a b Ha Hb. rewrite !Hc by done. lia.
  - intros a b c Ha Hb Hd. rewrite !Hc by done. lia.
Qed.

Section Order.

Context (compare : Z -> Z -> Z) (valid : Z -> Prop) `{!KeyOrder compare valid}.

Definition sorted (l : list (Z * Z)) : Prop :=
  StronglySorted (fun p q => compare p.1 q.1 < 0) l /\ Forall (fun p => valid p.1) l.

(** All keys of the list are below [q], or above it. *)
Definition before (q : Z) (l : list (Z * Z)) : Prop := Forall (fun p => compare p.1 q < 0) l.
Definition after (q : Z) (l : list (Z * Z)) : Prop := Forall (fun p => compare q p.1 < 0) l.

Lemma sorted_app l1 l2 :
  sorted (l1 ++ l2) <-> sorted l1 /\ sorted l2 /\ (forall p q, p ∈ l1 -> q ∈ l2 -> compare p.1 q.1 < 0).
Proof.
  unfold sorted. rewrite StronglySorted_app, list.Forall_app. split; [intros ((?&?&?)&?&?)|intros ((?&?)&(?&?)&?)]; split_and!; auto.
Qed.

Lemma sorted_mid l1 q v l2 :
  sorted (l1 ++ (q, v) :: l2) <-> sorted (l1 ++ l2) /\ valid q /\ before q l1 /\ after q l2.
Proof.
  change ((q, v) :: l2) with ([(q, v)] ++ l2). rewrite !sorted_app. unfold before, after.
  rewrite !list.Forall_forall. split.
  - intros (H1 & (H2 & H3 & H4) & H5). destruct H2 as [_ H2%list.Forall_cons]. split_and!; try tauto.
    + intros p r Hp Hr. apply H5; [done|]. by right.
    + intros p Hp. apply (H5 p (q, v)); [done|by left].
    + intros p Hp. apply (H4 (q, v) p); [by left|done].
  - intros ((H1 & H2 & H3) & Hq & H4 & H5). split_and!; try done.
    + split; [constructor; [constructor|constructor]|by constructor].
    + intros p r ->%list_elem_of_singleton Hr. by apply H5.
    + intros p r Hp [->|Hr]%elem_of_cons; [by apply H4|by apply H3].
Qed.

(** The parts of a tree around a node *)
Lemma sorted_node x c l a k v r q :
  sorted (inorder (plug x (T c l a k v r))) -> valid q -> before q (lefts x) -> after q (rights x) ->
  valid k /\
  (compare q k < 0 -> after q (rights (FL c a k v r :: x))) /\
  (compare k q < 0 -> before q (lefts (FR c l a k v :: x))).
Proof.
  rewrite inorder_plug. cbn [inorder lefts rights]. rewrite <- app_assoc. cbn [app].
  rewrite (app_assoc (lefts x)). intros Hs Hq Hb Ha. pose proof (proj1 (sorted_mid _ _ _ _) Hs) as (Hs2 & Hk & Hkb & Hka).
  apply list.Forall_app in Hkb as [Hlx Hll], Hka as [Hrr Hrx].
  destruct Hs2 as [_ Hv]. rewrite !list.Forall_app in Hv. destruct Hv as [[Hvl Hvll] [Hvr Hvrr]].
  split; [done|]. unfold before, after in *. split; intros Hc.
  - constructor; [done|]. apply list.Forall_app. split; [|done]. rewrite list.Forall_forall in *.
    intros p Hp. apply (ko_trans q k p.1); auto.
  - rewrite list.Forall_app. split; [done|]. apply list.Forall_app. split; [|by constructor].
    rewrite list.Forall_forall in *. intros p Hp. apply (ko_trans p.1 k q); auto.
Qed.

(** ** The map that a list of elements stands for *)

Definition map_of (l : list (Z * Z)) : gmap Z Z := list_to_map l.

Lemma compare_irrefl a : valid a -> ~ compare a a < 0.
Proof. intros Ha. rewrite (proj2 (ko_eq a a Ha Ha) eq_refl). lia. Qed.

Lemma before_not_in q l : valid q -> before q l -> q ∉ l.*1.
Proof.
  intros Hq Hb ([q' v] & -> & Hin)%list_elem_of_fmap. unfold before in Hb. rewrite list.Forall_forall in Hb.
  by apply (compare_irrefl q' Hq), (Hb (q', v)).
Qed.

Lemma after_not_in q l : valid q -> after q l -> q ∉ l.*1.
Proof.
  intros Hq Hb ([q' v] & -> & Hin)%list_elem_of_fmap. unfold after in Hb. rewrite list.Forall_forall in Hb.
  by apply (compare_irrefl q' Hq), (Hb (q', v)).
Qed.

Lemma sorted_nodup l : sorted l -> NoDup l.*1.
Proof.
  induction l as [|[q v] l IH]; [constructor|]. intros Hs. apply (sorted_mid []) in Hs as (Hs & Hq & _ & Ha).
  constructor; [by apply after_not_in|by apply IH].
Qed.

Lemma map_mid l1 q v l2 : sorted (l1 ++ (q, v) :: l2) -> map_of (l1 ++ (q, v) :: l2) = <[q := v]> (map_of (l1 ++ l2)).
Proof.
  intros Hs. unfold map_of. rewrite (list_to_map_proper _ ((q, v) :: l1 ++ l2)); [done|by apply sorted_nodup|].
  by rewrite Permutation_middle.
Qed.

Lemma map_of_none l1 l2 q : valid q -> before q l1 -> after q l2 -> map_of (l1 ++ l2) !! q = None.
Proof.
  intros Hq H1 H2. apply not_elem_of_list_to_map_1. rewrite fmap_app, not_elem_of_app.
  split; [by apply before_not_in|by apply after_not_in].
Qed.

Lemma map_of_some l1 q v l2 : sorted (l1 ++ (q, v) :: l2) -> map_of (l1 ++ (q, v) :: l2) !! q = Some v.
Proof. intros Hs. rewrite map_mid by done. apply lookup_insert_eq. Qed.

Lemma map_of_delete l1 q v l2 : sorted (l1 ++ (q, v) :: l2) -> map_of (l1 ++ l2) = delete q (map_of (l1 ++ (q, v) :: l2)).
Proof.
  intros Hs. rewrite map_mid by done. apply sorted_mid in Hs as (_ & Hq & H1 & H2).
  rewrite delete_insert_eq. symmetry. apply delete_id. by apply map_of_none.
Qed.

Lemma map_of_size l : sorted l -> base.size (map_of l) = length l.
Proof.
  induction l as [|[q v] l IH]; intros Hs; [done|]. change ((q, v) :: l) with ([] ++ (q, v) :: l).
  rewrite map_mid by done.
  apply (sorted_mid []) in Hs as (Hs & Hq & H1 & H2). cbn [app length].
  rewrite map_size_insert_None by (apply (map_of_none []); done). by rewrite IH.
Qed.

(** ** Searching *)

(** Where the key [q] is or should be *)
Fixpoint find (q : Z) (x : ctx) (t : tree) : ctx * tree :=
  match t with
  | E => (x, E)
  | T c l a k v r =>
      if compare q k =? 0 then (x, t)
      else if compare q k <? 0 then find q (FL c a k v r :: x) l
      else find q (FR c l a k v :: x) r
  end.

Lemma find_plug q t : forall x, plug (find q x t).1 (find q x t).2 = plug x t.
Proof.
  induction t as [|c l IHl a k v r IHr]; intros x; cbn; [done|]. repeat case_match; cbn; [done|apply IHl|apply IHr].
Qed.

Lemma find_zip q t : forall x, zipped x t -> zipped (find q x t).1 (find q x t).2.
Proof.
  induction t as [|c l IHl a k v r IHr]; intros x Hz; cbn; [done|]. repeat case_match; cbn; [done|..].
  - by apply IHl, zip_left.
  - by apply IHr, zip_right.
Qed.

Lemma find_length q t : forall x, (length (find q x t).1 <= length x + height t)%nat.
Proof.
  induction t as [|c l IHl a k v r IHr]; intros x; cbn; [lia|]. repeat case_match; cbn; [lia|..].
  - etransitivity; [apply IHl|]. cbn. lia.
  - etransitivity; [apply IHr|]. cbn. lia.
Qed.

Lemma find_place q t : forall x,
  sorted (inorder (plug x t)) -> valid q -> before q (lefts x) -> after q (rights x) ->
  before q (lefts (find q x t).1) /\ after q (rights (find q x t).1) /\
  match (find q x t).2 with E => True | T _ _ _ k _ _ => k = q end.
Proof.
  induction t as [|c l IHl a k v r IHr]; intros x Hs Hq Hb Ha; [by cbn|].
  destruct (sorted_node x c l a k v r q Hs Hq Hb Ha) as (Hk & H1 & H2). cbn [find].
  destruct (Z.eqb_spec (compare q k) 0) as [He|Hne].
  - split_and!; [done|done|]. cbn. symmetry. by apply ko_eq.
  - destruct (Z.ltb_spec (compare q k) 0) as [Hlt|Hge].
    + apply IHl; auto.
    + apply IHr; auto. apply H2, ko_flip; [done|done|lia].
Qed.

(** The search from the root *)
Lemma find_root q t :
  sorted (inorder t) -> valid q ->
  let f := find q [] t in
  plug f.1 f.2 = t /\ (length f.1 <= height t)%nat /\
  match f.2 with
  | E => map_of (inorder t) !! q = None /\ before q (lefts f.1) /\ after q (rights f.1)
  | T _ l _ k v r => k = q /\ map_of (inorder t) !! q = Some v
  end.
Proof.
  intros Hs Hq f. pose proof (find_plug q t [] : plug f.1 f.2 = t) as Hp.
  destruct (find_place q t [] Hs Hq) as (Hb & Ha & Hk); [constructor|constructor|]. fold f in Hb, Ha, Hk.
  pose proof (find_length q t []) as Hl. fold f in Hl. split; [done|]. split; [done|].
  rewrite <- Hp in *. rewrite inorder_plug in *. destruct f.2 as [|c l a k v r].
  - split_and!; [|done|done]. by apply map_of_none.
  - subst k. split; [done|]. cbn [inorder] in *. rewrite <- app_assoc in *. cbn [app] in *. rewrite app_assoc in *.
    by apply map_of_some.
Qed.

End Order.
