(* ===== verification/RBInsert.v ===== *)
(** * Red-black trees: insertion

    A turn of the loop of [fixAfterInsertion] does what [ins_turn] says; the loop
    ends, and leaves a red-black tree with the same elements. *)
From S2P Require Import Prelude Words Objects RBTree RBShape RBPure.
Open Scope obj_scope.

#[local] Opaque rotateLeft rotateRight setColor.

Section Insert.

Context (h0 : gmap Z (list Z)) (A : list Z) (s : Z) (rest : list Z).

Local Abbreviation at_focus := (at_focus h0 A s rest).

(** The uncle is red. *)
Ltac recolored Hf xp tp xu tu y tg :=
  let F1 := fresh "F" in let F2 := fresh "F" in let F3 := fresh "F" in
  act Hf setBlack xp tp F1; act F1 setBlack xu tu F2; act F2 setRed y tg F3; finish F3.

(** The uncle is black; the rotation [rot] at the grandparent *)
Ltac rotated Hf rot xp tp y tg tg' :=
  let F1 := fresh "F" in let F2 := fresh "F" in let F3 := fresh "F" in
  act Hf setBlack xp tp F1; act F1 setRed y tg F2; act F2 (rot h0 A s rest) y tg' F3; finish F3.

Lemma ins_turn_focus h f1 f2 y l a k v r :
  let t := T Red l a k v r in
  at_focus h (f1 :: f2 :: y) t -> fcolor f1 = Red ->
  exists h', run (fixAfterInsertion_turn s a) h = Some (root_of (ins_turn f1 f2 t).2, h') /\
    at_focus h' ((ins_turn f1 f2 t).1 ++ y) (ins_turn f1 f2 t).2.
Proof.
  intros t Hf Hc. subst t. unfold fixAfterInsertion_turn, grandparentOf, parentOf, leftOf, rightOf, colorOf, when.
  destruct f2 as [cg g kg vg u|cg u g kg vg], f1 as [cp p kp vp pr|cp pl p kp vp]; cbn in Hc; subst cp;
    destruct u as [|[] ul ua uk uv ur]; pose proof Hf as Hf'; open_focus Hf'; steps.
  - rotated Hf rotateRight_focus (FL cg g kg vg E :: y) (T Red (T Red l a k v r) p kp vp pr) y
      (T cg (T Black (T Red l a k v r) p kp vp pr) g kg vg E) (T Red (T Black (T Red l a k v r) p kp vp pr) g kg vg E).
  - recolored Hf (FL cg g kg vg (T Red ul ua uk uv ur) :: y) (T Red (T Red l a k v r) p kp vp pr) (FR cg (T Black (T Red l a k v r) p kp vp pr) g kg vg :: y) (T Red ul ua uk uv ur) y
      (T cg (T Black (T Red l a k v r) p kp vp pr) g kg vg (T Black ul ua uk uv ur)).
  - rotated Hf rotateRight_focus (FL cg g kg vg (T Black ul ua uk uv ur) :: y) (T Red (T Red l a k v r) p kp vp pr) y
      (T cg (T Black (T Red l a k v r) p kp vp pr) g kg vg (T Black ul ua uk uv ur)) (T Red (T Black (T Red l a k v r) p kp vp pr) g kg vg (T Black ul ua uk uv ur)).
  - act Hf (rotateLeft_focus h0 A s rest) (FL cg g kg vg E :: y) (T Red pl p kp vp (T Red l a k v r)) F0.
    rotated F0 rotateRight_focus (FL cg g kg vg E :: y) (T Red (T Red pl p kp vp l) a k v r) y
      (T cg (T Black (T Red pl p kp vp l) a k v r) g kg vg E) (T Red (T Black (T Red pl p kp vp l) a k v r) g kg vg E).
  - recolored Hf (FL cg g kg vg (T Red ul ua uk uv ur) :: y) (T Red pl p kp vp (T Red l a k v r)) (FR cg (T Black pl p kp vp (T Red l a k v r)) g kg vg :: y) (T Red ul ua uk uv ur) y
      (T cg (T Black pl p kp vp (T Red l a k v r)) g kg vg (T Black ul ua uk uv ur)).
  - act Hf (rotateLeft_focus h0 A s rest) (FL cg g kg vg (T Black ul ua uk uv ur) :: y) (T Red pl p kp vp (T Red l a k v r)) F0.
    rotated F0 rotateRight_focus (FL cg g kg vg (T Black ul ua uk uv ur) :: y) (T Red (T Red pl p kp vp l) a k v r) y
      (T cg (T Black (T Red pl p kp vp l) a k v r) g kg vg (T Black ul ua uk uv ur)) (T Red (T Black (T Red pl p kp vp l) a k v r) g kg vg (T Black ul ua uk uv ur)).
  - act Hf (rotateRight_focus h0 A s rest) (FR cg E g kg vg :: y) (T Red (T Red l a k v r) p kp vp pr) F0.
    rotated F0 rotateLeft_focus (FR cg E g kg vg :: y) (T Red l a k v (T Red r p kp vp pr)) y
      (T cg E g kg vg (T Black l a k v (T Red r p kp vp pr))) (T Red E g kg vg (T Black l a k v (T Red r p kp vp pr))).
  - recolored Hf (FR cg (T Red ul ua uk uv ur) g kg vg :: y) (T Red (T Red l a k v r) p kp vp pr) (FL cg g kg vg (T Black (T Red l a k v r) p kp vp pr) :: y) (T Red ul ua uk uv ur) y
      (T cg (T Black ul ua uk uv ur) g kg vg (T Black (T Red l a k v r) p kp vp pr)).
  - act Hf (rotateRight_focus h0 A s rest) (FR cg (T Black ul ua uk uv ur) g kg vg :: y) (T Red (T Red l a k v r) p kp vp pr) F0.
    rotated F0 rotateLeft_focus (FR cg (T Black ul ua uk uv ur) g kg vg :: y) (T Red l a k v (T Red r p kp vp pr)) y
      (T cg (T Black ul ua uk uv ur) g kg vg (T Black l a k v (T Red r p kp vp pr))) (T Red (T Black ul ua uk uv ur) g kg vg (T Black l a k v (T Red r p kp vp pr))).
  - rotated Hf rotateLeft_focus (FR cg E g kg vg :: y) (T Red pl p kp vp (T Red l a k v r)) y
      (T cg E g kg vg (T Black pl p kp vp (T Red l a k v r))) (T Red E g kg vg (T Black pl p kp vp (T Red l a k v r))).
  - recolored Hf (FR cg (T Red ul ua uk uv ur) g kg vg :: y) (T Red pl p kp vp (T Red l a k v r)) (FL cg g kg vg (T Black pl p kp vp (T Red l a k v r)) :: y) (T Red ul ua uk uv ur) y
      (T cg (T Black ul ua uk uv ur) g kg vg (T Black pl p kp vp (T Red l a k v r))).
  - rotated Hf rotateLeft_focus (FR cg (T Black ul ua uk uv ur) g kg vg :: y) (T Red pl p kp vp (T Red l a k v r)) y
      (T cg (T Black ul ua uk uv ur) g kg vg (T Black pl p kp vp (T Red l a k v r))) (T Red (T Black ul ua uk uv ur) g kg vg (T Black pl p kp vp (T Red l a k v r))).
Qed.

Lemma fix_loop_focus fuel : forall h x l a k v r n,
  let t := T Red l a k v r in
  at_focus h x t -> rb n t -> rbx n x -> (length x < fuel)%nat ->
  exists h' x' t' n', run (fixAfterInsertion_loop fuel s a) h = Some (tt, h') /\
    at_focus h' x' t' /\ t' <> E /\ rb n' t' /\ rbx n' x' /\ (color_of t' = Red -> pcolor x' = Black) /\
    inorder (plug x' t') = inorder (plug x t).
Proof.
  induction fuel as [|fuel IH]; intros h x l a k v r n t Hf Ht Hx Hlen; [lia|]. subst t.
  cbn [fixAfterInsertion_loop]. destruct x as [|f1 x].
  { exists h, [], (T Red l a k v r), n. split; [|done]. pose proof Hf as Hf'. open_focus Hf'. by steps. }
  destruct (focus_below _ _ _ _ _ _ _ _ _ _ _ _ _ Hf) as (Ha & Hne & Hroot & Hp & ob & Hob & Hc).
  rewrite (proj2 (Z.eqb_neq _ _) Ha). erewrite run_ldf by (done || exact Hroot).
  rewrite (proj2 (Z.eqb_neq _ _) Hne). erewrite run_ldf by (exact Hp || done).
  erewrite run_ldf by done. change RED with (cv Red). rewrite cv_red.
  destruct (fcolor f1) eqn:Hfc.
  2: { exists h, (f1 :: x), (T Red l a k v r), n. split_and!; done. }
  rewrite bool_decide_true by done. cbn [negb].
  assert (exists f2 y, x = f2 :: y) as (f2 & y & ->).
  { cbn [rbx] in Hx. rewrite Hfc in Hx. destruct Hx as (_ & _ & _ & Hx & _). destruct x as [|f2 y]; [done|]. by exists f2, y. }
  destruct (ins_turn_focus h f1 f2 y l a k v r Hf Hfc) as (h1 & Hr & Hf1).
  pose proof (ins_turn_rb n f1 f2 (T Red l a k v r) y ltac:(done) eq_refl Ht Hx Hfc) as (He1 & Hc1 & m & Ht1 & Hx1 & _).
  pose proof (ins_turn_inorder f1 f2 (T Red l a k v r) y) as Hin.
  pose proof (ins_turn_shorter f1 f2 (T Red l a k v r) ltac:(done)) as Hsh.
  destruct (ins_turn f1 f2 (T Red l a k v r)) as [x1 [|c1 l1 a1 k1 v1 r1]]; cbn [fst snd] in *; [done|].
  cbn in Hc1. subst c1. rewrite (run_bind_ok _ _ _ _ _ Hr). cbn [root_of].
  destruct (IH h1 (x1 ++ y) l1 a1 k1 v1 r1 m Hf1 Ht1 Hx1) as (h2 & x2 & t2 & n2 & Hr2 & Hf2 & He2 & Ht2 & Hx2 & Hc2 & Hi2).
  { rewrite length_app. cbn in Hlen. lia. }
  exists h2, x2, t2, n2. split_and!; try done. by rewrite Hi2.
Qed.

(** The new node is in the tree and red: the rest of [fixAfterInsertion]. *)
Lemma fix_insertion_focus fuel h x l a k v r n :
  let t := T Red l a k v r in
  at_focus h x t -> rb n t -> rbx n x -> (length x < fuel)%nat ->
  exists h' t',
    run (do@ fixAfterInsertion_loop fuel s a;
         let@ ro := ldf s f_root in
         let@ c := ldf ro f_c in
         when (negb (c =? BLACK)) (stf ro f_c BLACK)) h = Some (tt, h') /\
    at_focus h' [] t' /\ red_black t' /\ inorder t' = inorder (plug x t).
Proof.
  intros t Hf Ht Hx Hlen. subst t.
  destruct (fix_loop_focus fuel h x l a k v r n Hf Ht Hx Hlen) as (h1 & x1 & t1 & n1 & Hr & Hf1 & He1 & Ht1 & Hx1 & Hc1 & Hi).
  rewrite (run_bind_ok _ _ _ _ _ Hr). rewrite <- Hi. clear Hr Hi.
  destruct (rb_plug n1 x1 t1 Ht1 Hx1 Hc1) as [m Hm].
  assert (Hne : plug x1 t1 <> E).
  { revert He1. clear. revert t1. induction x1 as [|f x1 IH]; intros t1 He; [done|]. apply IH. by destruct f. }
  apply (refocus _ _ _ _ _ x1 t1 [] (plug x1 t1) eq_refl) in Hf1.
  destruct (plug x1 t1) as [|c2 l2 a2 k2 v2 r2]; [done|].
  pose proof (rb_black m _ Hm) as [m' Hb]. look Hf1.
  assert (Ha : is_addr a2) by (eapply focus_addr; [exact Hf1|by left]).
  steps. unfold when. change BLACK with (cv Black). rewrite cv_black. destruct c2.
  - rewrite bool_decide_false by done. cbn [negb].
    destruct (setBlack _ _ _ _ _ _ _ _ _ _ _ _ Hf1) as (h2 & Hr2 & Hf2).
    rewrite (setColor_stf _ _ Ha) in Hr2.
    exists h2, (T Black l2 a2 k2 v2 r2). split_and!; try done. split; [done|by exists m'].
  - exists h1, (T Black l2 a2 k2 v2 r2). split_and!; try done. split; [done|by exists m].
Qed.

End Insert.
