(* ===== verification/RBMap.v ===== *)
(** * Red-black trees: search and insertion as operations on a map *)
From S2P Require Import Prelude Words Objects RBTree RBShape RBPure RBOrder RBInsert.
Open Scope obj_scope.

Section Map.

Context (compare : Z -> Z -> Z) (valid : Z -> Prop) `{!KeyOrder compare valid}.
Context (h0 : gmap Z (list Z)) (A : list Z) (s : Z) (rest : list Z).

Local Abbreviation at_focus := (at_focus h0 A s rest).
Local Abbreviation find := (find compare).

(** ** Search *)

Lemma focus_node h x c l a k v r :
  at_focus h x (T c l a k v r) ->
  a <> NULL /\ h !! a = Some (node k v (parent x) (root_of l) (root_of r) c).
Proof.
  intros Hf. split; [|apply (fo_tree _ _ _ _ _ _ _ Hf)].
  eapply addr_ne, focus_addr; [exact Hf|]. apply elem_of_app. right. by left.
Qed.

Lemma lookup_loop_focus q fuel : forall h x t,
  at_focus h x t -> (height t < fuel)%nat ->
  run (lookup_loop compare fuel (root_of t) q) h = Some (root_of (find q x t).2, h).
Proof.
  induction fuel as [|fuel IH]; intros h x t Hf Hh; [lia|]. cbn [lookup_loop].
  destruct t as [|c l a k v r]; [done|]. cbn [height] in Hh. destruct (focus_node _ _ _ _ _ _ _ _ Hf) as [Ha Hn].
  cbn [root_of RBOrder.find]. rewrite (proj2 (Z.eqb_neq _ _) Ha). erewrite run_ldf by done. repeat case_match; [done|..].
  - erewrite run_ldf by done. apply IH; [|lia]. by eapply refocus; [|exact Hf].
  - erewrite run_ldf by done. apply IH; [|lia]. by eapply refocus; [|exact Hf].
Qed.

Lemma lookup_focus q fuel h t :
  at_focus h [] t -> (height t < fuel)%nat ->
  run (lookup compare fuel s q) h = Some (root_of (find q [] t).2, h).
Proof.
  intros Hf Hh. unfold lookup. erewrite run_ldf by (apply (fo_root _ _ _ _ _ _ _ Hf) || done).
  by apply lookup_loop_focus.
Qed.

(** ** Insertion *)

(** The field of the parent that holds the child *)
Definition fdir (f : frame) : nat := match f with FL _ _ _ _ _ => f_l | FR _ _ _ _ _ => f_r end.

Lemma insert_loop_focus q w n fuel : forall h x t,
  at_focus h x t -> t <> E -> (length x + 2 * height t < fuel)%nat ->
  match find q x t with
  | (_, T _ _ a _ _ _) => run (insert_loop compare fuel s q w n (root_of t)) h = Some (a, h)
  | (f :: y, E) => exists fuel', (S (length y) < fuel')%nat /\
      run (insert_loop compare fuel s q w n (root_of t)) h = run (insert_at fuel' s q w n (faddr f) (fdir f)) h
  | ([], E) => False
  end.
Proof.
  induction fuel as [|fuel IH]; intros h x t Hf Ht Hh; [lia|]. destruct t as [|c l a k v r]; [done|]. cbn [height] in Hh.
  destruct (focus_node _ _ _ _ _ _ _ _ Hf) as [Ha Hn]. cbn [root_of RBOrder.find insert_loop].
  erewrite run_ldf by done. destruct (compare q k =? 0); [by destruct x|]. destruct (compare q k <? 0).
  - erewrite run_ldf by done. destruct l as [|cl ll la lk lv lr] eqn:El.
    + cbn. exists (S fuel). split; [lia|done].
    + rewrite <- El in *. assert (Hf' : at_focus h (FL c a k v r :: x) l) by (by eapply refocus; [|exact Hf]).
      specialize (IH h _ l Hf' ltac:(by subst)).
      assert (Hla : root_of l <> NULL) by (subst; by apply (focus_node _ _ _ _ _ _ _ _ Hf')).
      rewrite (proj2 (Z.eqb_neq _ _) Hla). apply IH. cbn [length]. lia.
  - erewrite run_ldf by done. destruct r as [|cr rl ra rk rv rr] eqn:Er.
    + cbn. exists (S fuel). split; [lia|done].
    + rewrite <- Er in *. assert (Hf' : at_focus h (FR c l a k v :: x) r) by (by eapply refocus; [|exact Hf]).
      specialize (IH h _ r Hf' ltac:(by subst)).
      assert (Hra : root_of r <> NULL) by (subst; by apply (focus_node _ _ _ _ _ _ _ _ Hf')).
      rewrite (proj2 (Z.eqb_neq _ _) Hra). apply IH. cbn [length]. lia.
Qed.

(** [getNode] returned an object that is not a node of the tree. *)
Record fresh (h : gmap Z (list Z)) (n : Z) : Prop := {
  fr_addr : is_addr n;
  fr_new : n ∉ s :: A;
  fr_obj : exists ob, h !! n = Some ob /\ length ob = 6%nat }.

(** The new node is linked and red. *)
Lemma link_focus h f y n q w :
  at_focus h (f :: y) E -> fresh h n -> is_word q -> is_word w ->
  exists h',
    run (do@ stf n f_l NULL; do@ stf n f_r NULL; do@ stf n f_k q; do@ stf n f_v w; do@ stf n f_p (faddr f);
         do@ stf (faddr f) (fdir f) n; stf n f_c RED) h = Some (tt, h') /\
    RBShape.at_focus h0 (n :: A) s rest h' (f :: y) (T Red E n q w E).
Proof.
  intros Hf [Ha Hnew (ob & Hob & Hlen)] Hq Hw.
  destruct ob as [|o0 [|o1 [|o2 [|o3 [|o4 [|o5 [|]]]]]]]; try done.
  assert (Hwp : well_placed (s :: n :: caddrs (f :: y))).
  { destruct (fo_placed _ _ _ _ _ _ _ Hf) as [Hnd Hfa]. cbn [addrs] in *. rewrite app_nil_r in *. rewrite list.Forall_cons in Hfa.
    pose proof (fo_nodes _ _ _ _ _ _ _ Hf) as Hp. cbn [addrs] in Hp. rewrite app_nil_r in Hp. rewrite <- Hp in Hnew.
    apply not_elem_of_cons in Hnew as [Hns Hnx]. apply list.NoDup_cons in Hnd as [Hsx Hnd]. split.
    - constructor; [|by constructor]. rewrite not_elem_of_cons. by split; [apply not_eq_sym|].
    - rewrite !list.Forall_cons. tauto. }
  assert (Hwo : only h0 h s (n :: A)).
  { intros a Has Han. apply (fo_only _ _ _ _ _ _ _ Hf a Has). intros Hin. apply Han. by right. }
  assert (Hwn : n :: caddrs (f :: y) ++ addrs E ≡ₚ n :: A) by (f_equiv; apply (fo_nodes _ _ _ _ _ _ _ Hf)).
  pose proof Hwp as Hap. destruct f as [c a k0 v r|c l a k0 v]; open_focus Hf; apart Hap; cbn [faddr fdir];
    steps; rewrite (w64_id q Hq), (w64_id w Hw); settle Hwp Hwn Hwo.
Qed.

Lemma insert_at_focus fuel h f y n q w :
  at_focus h (f :: y) E -> zipped (f :: y) E -> fresh h n -> is_word q -> is_word w -> (S (length y) < fuel)%nat ->
  exists h' t',
    run (insert_at fuel s q w n (faddr f) (fdir f)) h = Some (NULL, h') /\
    RBShape.at_focus h0 (n :: A) s rest h' [] t' /\ red_black t' /\
    inorder t' = lefts (f :: y) ++ (q, w) :: rights (f :: y).
Proof.
  intros Hf [m (Hm & Hx & _)] Hn Hq Hw Hl. unfold insert_at, fixAfterInsertion. cbn in Hm. subst m.
  destruct (link_focus h f y n q w Hf Hn Hq Hw) as (h1 & Hr & Hf1).
  destruct (fix_insertion_focus _ _ _ _ fuel h1 (f :: y) E n q w E O Hf1) as (h2 & t2 & Hr2 & Hf2 & Ht2 & Hi2).
  { done. }
  { exact Hx. }
  { exact Hl. }
  exists h2, t2. split_and!; [|done|done|by rewrite Hi2, inorder_plug].
  pose proof (run_bind_ok _ (fun _ => do@ (do@ fixAfterInsertion_loop fuel s n;
    let@ ro := ldf s f_root in let@ c := ldf ro f_c in when (negb (c =? BLACK)) (stf ro f_c BLACK)); ORet NULL) _ _ _ Hr) as E1.
  cbv beta in E1. rewrite (run_bind_ok _ _ _ _ _ Hr2) in E1. exact E1.
Qed.

(** The first node *)
Lemma first_focus h n q w :
  at_focus h [] E -> fresh h n -> is_word q -> is_word w ->
  exists h',
    run (do@ stf n f_l NULL; do@ stf n f_r NULL; do@ stf n f_p NULL; do@ stf n f_k q; do@ stf n f_v w;
         do@ stf n f_c BLACK; stf s f_root n) h = Some (tt, h') /\
    RBShape.at_focus h0 (n :: A) s rest h' [] (T Black E n q w E).
Proof.
  intros Hf [Ha Hnew (ob & Hob & Hlen)] Hq Hw.
  destruct ob as [|o0 [|o1 [|o2 [|o3 [|o4 [|o5 [|]]]]]]]; try done.
  pose proof (fo_nodes _ _ _ _ _ _ _ Hf) as HA. cbn in HA. apply Permutation_nil in HA. subst A.
  assert (Hns : n <> s) by (intros ->; apply Hnew; by left).
  destruct (fo_placed _ _ _ _ _ _ _ Hf) as [_ [Hsa _]%list.Forall_cons].
  assert (Hwp : well_placed [s; n]).
  { split; [|rewrite !list.Forall_cons; split_and!; [done|done|constructor]]. apply list.NoDup_cons. rewrite list_elem_of_singleton. split; [congruence|]. apply NoDup_singleton. }
  assert (Hwo : only h0 h s [n]).
  { intros a Has Han. apply (fo_only _ _ _ _ _ _ _ Hf); [done|apply not_elem_of_nil]. }
  assert (Hwn : n :: caddrs [] ++ [] ≡ₚ [n]) by done.
  open_focus Hf. steps. rewrite (w64_id q Hq), (w64_id w Hw). settle Hwp Hwn Hwo.
Qed.

(** A store to the value of a node *)
Lemma setVal_focus h x c l a k v r w :
  at_focus h x (T c l a k v r) -> is_word w ->
  exists h', run (stf a f_v w) h = Some (tt, h') /\ at_focus h' x (T c l a k w r).
Proof.
  intros Hf Hw. destruct x as [|[c0 a0 k0 v0 r0|c0 l0 a0 k0 v0] x];
    open_focus Hf; steps; rewrite (w64_id w Hw); settle Hw0 Hperm Ho.
Qed.

End Map.

(** ** The operations *)

Section Operations.

Context (compare : Z -> Z -> Z) (valid : Z -> Prop) `{!KeyOrder compare valid}.

(** The object [s] is a red-black tree that holds the map [M] in the nodes [N]. *)
Definition map_at (h : gmap Z (list Z)) (s : Z) (rest N : list Z) (M : gmap Z Z) : Prop :=
  exists t, rb_at h s rest t /\ red_black t /\ sorted compare valid (inorder t) /\
    addrs t ≡ₚ N /\ map_of (inorder t) = M.

(** The turns of the loops *)
Definition enough (fuel : nat) (M : gmap Z Z) : Prop := (4 * Nat.log2 (S (base.size M)) < fuel)%nat.

Lemma length_inorder t : length (inorder t) = RBPure.size t.
Proof. induction t as [|c l IHl a k v r IHr]; cbn; [done|]. rewrite length_app. cbn. lia. Qed.

Lemma map_at_height h s rest N M fuel :
  enough fuel M -> map_at h s rest N M ->
  exists t, at_focus h N s rest h [] t /\ red_black t /\ sorted compare valid (inorder t) /\
    map_of (inorder t) = M /\ (2 * height t < fuel)%nat.
Proof.
  intros He (t & Ht & Hrb & Hs & HN & HM). exists t. split_and!; try done.
  - apply rb_focus. by split_and!.
  - pose proof (red_black_height t Hrb). unfold enough in He.
    rewrite <- HM, (map_of_size compare valid _ Hs), length_inorder in He. lia.
Qed.

Lemma focus_map_at h0 N s rest h t M :
  at_focus h0 N s rest h [] t -> red_black t -> sorted compare valid (inorder t) -> map_of (inorder t) = M ->
  map_at h s rest N M /\ only h0 h s N.
Proof.
  intros (Ht & HN & Ho)%rb_focus Hrb Hs HM. split; [|done]. by exists t.
Qed.

Lemma insert_map fuel h s rest N M q w n :
  map_at h s rest N M -> enough fuel M -> valid q -> is_word w -> fresh N s h n ->
  match M !! q with
  | None => exists h', run (insert compare fuel s q w n) h = Some (NULL, h') /\
      map_at h' s rest (n :: N) (<[q := w]> M) /\ only h h' s (n :: N)
  | Some _ => exists a t x c l v r, run (insert compare fuel s q w n) h = Some (a, h) /\ a <> NULL /\
      plug x (T c l a q v r) = t /\ at_focus h N s rest h [] t /\ red_black t /\
      sorted compare valid (inorder t) /\ map_of (inorder t) = M
  end.
Proof.
  intros Hm He Hq Hw Hn. destruct (map_at_height _ _ _ _ _ _ He Hm) as (t & Hf & Hrb & Hs & HM & Hh).
  pose proof (find_root compare valid q t Hs Hq) as Hfind. cbv zeta in Hfind.
  pose proof (find_zip compare q t [] (zip_root t Hrb)) as Hz.
  pose proof (ko_word q Hq) as Hqw.
  unfold insert. erewrite run_ldf by (apply (fo_root _ _ _ _ _ _ _ Hf) || done). cbn [top].
  destruct t as [|c l a k v r] eqn:Et.
  - cbn [RBOrder.find fst snd] in Hfind. destruct Hfind as (_ & _ & Hnone & _). rewrite HM in Hnone. rewrite Hnone.
    cbn [root_of]. rewrite Z.eqb_refl. rewrite (proj2 (Z.eqb_neq _ _) (addr_ne _ (fr_addr _ _ _ _ Hn))).
    destruct (first_focus h N s rest h n q w Hf Hn Hqw Hw) as (h1 & Hr & Hf1).
    exists h1. split.
    + pose proof (run_bind_ok _ (fun _ => ORet NULL) _ _ _ Hr) as E1. exact E1.
    + apply (focus_map_at _ _ _ _ _ _ _ Hf1).
      * split; [done|]. by exists 1%nat.
      * apply (sorted_mid compare valid [] q w []). split_and!; [done|done|constructor|constructor].
      * subst M. done.
  - rewrite <- Et in *. assert (Hroot : root_of t <> NULL) by (subst; by apply (focus_node _ _ _ _ _ _ _ _ _ _ _ _ Hf)).
    rewrite (proj2 (Z.eqb_neq _ _) Hroot).
    assert (Hte : t <> E) by (by subst).
    pose proof (insert_loop_focus compare h N s rest q w n fuel h [] t Hf Hte) as Hloop. cbn [length] in Hloop.
    specialize (Hloop ltac:(lia)).
    destruct (find compare q [] t) as [x' t'] eqn:Efind. cbn [fst snd] in *. destruct Hfind as (Hp & Hl & Hcase).
    destruct t' as [|c' l' a' k' v' r'].
    + destruct Hcase as (Hnone & Hb & Ha). rewrite HM in Hnone. rewrite Hnone.
      destruct x' as [|f y]; [done|]. destruct Hloop as (fuel' & Hfuel & ->).
      destruct (insert_at_focus h N s rest fuel' h f y n q w) as (h1 & t1 & Hr & Hf1 & Hrb1 & Hi1); try done.
      { by eapply refocus; [|exact Hf]. }
      exists h1. split; [done|]. apply (focus_map_at _ _ _ _ _ _ _ Hf1 Hrb1).
      * rewrite Hi1. apply sorted_mid. split_and!; try done. rewrite <- Hp, inorder_plug in Hs. exact Hs.
      * rewrite Hi1, (map_mid compare valid).
        -- rewrite <- HM, <- Hp, inorder_plug. done.
        -- apply sorted_mid. split_and!; try done. rewrite <- Hp, inorder_plug in Hs. exact Hs.
    + destruct Hcase as (-> & Hsome). rewrite HM in Hsome. rewrite Hsome.
      exists a', t, x', c', l', v', r'. split_and!; try done.
      * by destruct x'.
      * eapply (focus_node h N s rest h x'). eapply refocus; [|exact Hf]. by rewrite Hp.
Qed.

End Operations.
