(* ===== verification/RBFix.v ===== *)
(** * Red-black trees: what the turn of fixAfterDeletion does to the frames

    A tree that is one black node short stays as it is while the frames around it
    change.  [fix_turn] gives the frames and says whether the tree as a whole is
    repaired. *)
From S2P Require Import Prelude Words Objects RBTree RBShape RBPure.

(** A red sibling becomes the grandparent. *)
Definition red_step (f : frame) : frame * ctx :=
  match f with
  | FL c p kp vp (T Red sl b kb vb sr) => (FL Red p kp vp sl, [FL Black b kb vb sr])
  | FR c (T Red sl b kb vb sr) p kp vp => (FR Red sr p kp vp, [FR Black sl b kb vb])
  | _ => (f, [])
  end.

(** The sibling is black; true if the lack is made up for, false if it is the
    parent that lacks a black node now. *)
Definition black_step (f : frame) : ctx * bool :=
  match f with
  | FL c p kp vp (T cs sl b kb vb sr) =>
      if decide (color_of sl = Black /\ color_of sr = Black) then ([FL c p kp vp (T Red sl b kb vb sr)], false)
      else if decide (color_of sr = Black)
      then match sl with
           | T _ sll d kd vd slr => ([FL Black p kp vp sll; FL c d kd vd (T Black slr b kb vb sr)], true)
           | E => ([f], true)
           end
      else ([FL Black p kp vp sl; FL c b kb vb (paint Black sr)], true)
  | FR c (T cs sl b kb vb sr) p kp vp =>
      if decide (color_of sr = Black /\ color_of sl = Black) then ([FR c (T Red sl b kb vb sr) p kp vp], false)
      else if decide (color_of sl = Black)
      then match sr with
           | T _ srl d kd vd srr => ([FR Black srr p kp vp; FR c (T Black sl b kb vb srl) d kd vd], true)
           | E => ([f], true)
           end
      else ([FR Black sr p kp vp; FR c (paint Black sl) b kb vb], true)
  | _ => ([f], false)
  end.

(** The frames around the tree, the frames above them, whether all is done *)
Definition fix_turn (f : frame) : ctx * ctx * bool :=
  let '(f1, up) := red_step f in let '(z, done) := black_step f1 in (z, up, done).

(** ** The elements *)

Lemma plug_app y x t : plug (y ++ x) t = plug x (plug y t).
Proof. revert t. induction y as [|f y IH]; intros t; [done|]. apply IH. Qed.

Lemma lefts_app y x : lefts (y ++ x) = lefts x ++ lefts y.
Proof. induction y as [|[] y IH]; cbn; rewrite ?IH, ?app_nil_r, ?app_assoc; done. Qed.

Lemma rights_app y x : rights (y ++ x) = rights y ++ rights x.
Proof. induction y as [|[] y IH]; cbn; rewrite ?IH, ?app_assoc; rewrite <- ?app_assoc; done. Qed.

Definition sides (x : ctx) : list (Z * Z) * list (Z * Z) := (lefts x, rights x).

Lemma sides_inv y y' : sides y = sides y' -> lefts y = lefts y' /\ rights y = rights y'.
Proof. unfold sides. by intros [= H1 H2]. Qed.

Lemma red_step_sides f : sides ((red_step f).1 :: (red_step f).2) = sides [f].
Proof.
  destruct f as [c a k v [|[] sl b kb vb sr]|c [|[] sl b kb vb sr] a k v]; unfold sides; cbn;
    rewrite ?app_nil_r, <- ?app_assoc; cbn; rewrite <- ?app_assoc; done.
Qed.

Lemma black_step_sides f : sides (black_step f).1 = sides [f].
Proof.
  destruct f as [c a k v [|cs sl b kb vb sr]|c [|cs sl b kb vb sr] a k v]; unfold sides; cbn; try done;
    repeat case_decide; cbn; try done.
  - destruct sl as [|? sll d kd vd slr]; cbn; rewrite ?app_nil_r, <- ?app_assoc; cbn; rewrite <- ?app_assoc; done.
  - rewrite inorder_paint; rewrite ?app_nil_r, <- ?app_assoc; done.
  - destruct sr as [|? srl d kd vd srr]; cbn; rewrite ?app_nil_r, <- ?app_assoc; cbn; rewrite <- ?app_assoc; done.
  - rewrite inorder_paint, ?app_nil_r, <- ?app_assoc; cbn; rewrite <- ?app_assoc; done.
Qed.

Lemma sides_app y y' x : sides y = sides y' -> sides (y ++ x) = sides (y' ++ x).
Proof. unfold sides. rewrite !lefts_app, !rights_app. by intros [= -> ->]. Qed.

Lemma sides_app_r y y' x : sides y = sides y' -> sides (x ++ y) = sides (x ++ y').
Proof. unfold sides. rewrite !lefts_app, !rights_app. by intros [= -> ->]. Qed.

Lemma fix_turn_sides f y : let '(z, up, _) := fix_turn f in sides (z ++ up ++ y) = sides (f :: y).
Proof.
  unfold fix_turn. pose proof (red_step_sides f) as Hr. destruct (red_step f) as [f1 up]. cbn [fst snd] in Hr.
  pose proof (black_step_sides f1) as Hb. destruct (black_step f1) as [z d]. cbn [fst snd] in Hb.
  change (f :: y) with ([f] ++ y). rewrite <- (sides_app _ _ y Hr). rewrite app_assoc. apply sides_app.
  change (f1 :: up) with ([f1] ++ up). by apply sides_app.
Qed.

(** ** The balance *)

(** The tree has [n] black nodes on its paths, but for a red root that is to be
    painted. *)
Definition short (n : nat) (t : tree) : Prop :=
  match color_of t with Black => rb n t | Red => rb (S n) (paint Black t) end.

Lemma rbx_root_black n x t : x <> [] -> rbx n x -> color_of (plug x t) = Black.
Proof.
  revert n t. induction x as [|f x IH]; intros n t Hn Hx; [done|]. cbn [rbx] in Hx. destruct Hx as [_ Hx].
  destruct x as [|g x]; [|destruct (fcolor f); [destruct Hx as (_ & _ & _ & Hx)|]; by eapply (IH _ (fill f t))].
  cbn. destruct f as [[]|[]]; cbn in *; try done; tauto.
Qed.

Lemma red_step_rb n f y :
  rbx (S n) (f :: y) ->
  let '(f1, up) := red_step f in
  rbx (S n) (f1 :: up ++ y) /\ color_of (sibling f1) = Black /\ (length up <= 1)%nat /\
  (up = [] /\ f1 = f \/ fcolor f1 = Red).
Proof.
  destruct f as [c a k v [|[] sl b kb vb sr]|c [|[] sl b kb vb sr] a k v]; cbn; intros Hx; try tauto;
    destruct c; destr; try done; split_and!; first [done | lia | by left | by right].
Qed.

Lemma black_step_rb n f y u :
  rbx (S n) (f :: y) -> color_of (sibling f) = Black -> rb n u -> color_of u = Black ->
  let '(z, done) := black_step f in
  z <> [] /\
  if done : bool then rbx n (z ++ y)
  else exists g m, z = [g] /\ faddr g = faddr f /\ fcolor g = fcolor f /\ rbx (S m) y /\ short m (fill g u).
Proof.
  intros Hx Hs Hu Hc.
  destruct f as [c p kp vp [|cs sl b kb vb sr]|c [|cs sl b kb vb sr] p kp vp]; cbn in *; try (by destruct Hx); subst cs; cbn in Hx;
    destruct Hx as [[Hl Hr] Hx]; repeat case_decide; destr.
  - split; [done|]. destruct c; destr.
    + eexists _, n. by split_and!.
    + eexists _, (S n). by split_and!.
  - destruct sl as [|[] sll d kd vd slr]; cbn in *; [naive_solver| |naive_solver]. destr. split; [done|]. destruct c; destr; by split_and!.
  - split; [done|]. destruct sr as [|[] srl d kd vd srr]; cbn in *; try done. destr. destruct c; destr; by split_and!.
  - split; [done|]. destruct c; destr.
    + eexists _, n. by split_and!.
    + eexists _, (S n). by split_and!.
  - destruct sr as [|[] srl d kd vd srr]; cbn in *; [naive_solver| |naive_solver]. destr. split; [done|]. destruct c; destr; by split_and!.
  - split; [done|]. destruct sl as [|[] sll d kd vd slr]; cbn in *; try done. destr. destruct c; destr; by split_and!.
Qed.

Lemma fix_turn_rb n f y u :
  rbx (S n) (f :: y) -> rb n u -> color_of u = Black ->
  let '(z, up, done) := fix_turn f in
  z <> [] /\ (length up <= 1)%nat /\
  if done : bool then rbx n (z ++ up ++ y)
  else exists g m, z = [g] /\ faddr g = faddr f /\ rbx (S m) (up ++ y) /\ short m (fill g u) /\ (up = [] \/ fcolor g = Red).
Proof.
  intros Hx Hu Hc. unfold fix_turn. pose proof (red_step_rb n f y Hx) as Hr.
  destruct (red_step f) as [f1 up] eqn:Er. destruct Hr as (Hx1 & Hs1 & Hl & Hup).
  pose proof (black_step_rb n f1 (up ++ y) u Hx1 Hs1 Hu Hc) as Hb. destruct (black_step f1) as [z d].
  destruct Hb as [Hz Hb]. split; [done|]. split; [done|]. destruct d; [done|].
  destruct Hb as (g & m & -> & Hga & Hgc & Hy & Hsh). exists g, m. split_and!; try done.
  - rewrite Hga. clear -Er. destruct f as [c a k v [|[] sl b kb vb sr]|c [|[] sl b kb vb sr] a k v]; by injection Er as <- <-.
  - destruct Hup as [[-> _]|Hred]; [by left|right; congruence].
Qed.
