(* ===== verification/RBDelete.v ===== *)
(** * Red-black trees: the loop of fixAfterDeletion

    A turn does to the heap what [fix_turn] says; the loop ends and leaves a tree
    that is red-black once the node to delete is taken out. *)
From S2P Require Import Prelude Words Objects RBTree RBShape RBPure RBFix.
Open Scope obj_scope.

#[local] Opaque rotateLeft rotateRight setColor colorOf.

Section Delete.

Context (h0 : gmap Z (list Z)) (A : list Z) (s : Z) (rest : list Z).

Local Abbreviation at_focus := (at_focus h0 A s rest).

(** ** Colors of nodes that may be missing *)

Lemma colorOf_node a : is_addr a -> colorOf a = ldf a f_c.
Proof. intros Ha. with_strategy transparent [colorOf] unfold colorOf. by rewrite (proj2 (Z.eqb_neq a NULL) (addr_ne a Ha)). Qed.

Lemma run_colorOf {B} (q : Z -> oprog B) h p t :
  tree_in h p t -> Forall is_addr (addrs t) ->
  run (obind (colorOf (root_of t)) q) h = run (q (cv (color_of t))) h.
Proof.
  destruct t as [|c l a k v r]; cbn [root_of color_of].
  - intros _ _. by with_strategy transparent [colorOf] unfold colorOf.
  - intros (Hn & _) [Ha _]%list.Forall_cons. rewrite (colorOf_node a Ha). by erewrite run_ldf by done.
Qed.

(** Run the program, reading colors too. *)
Ltac colors :=
  repeat first
    [ progress steps
    | rewrite run_assoc
    | match goal with
      | Ht : tree_in ?h _ ?t, Ha : Forall is_addr (addrs ?t) |- context [run (obind (colorOf (root_of ?t)) _) ?h] =>
          rewrite (run_colorOf _ h _ t Ht Ha)
      | Ha : is_addr ?a |- context [run (obind (colorOf ?a) _) _] => rewrite (colorOf_node a Ha)
      | |- context [cv ?c =? BLACK] => rewrite (cv_black c)
      | |- context [cv ?c =? RED] => rewrite (cv_red c)
      | H : color_of ?t = _ |- context [color_of ?t] => rewrite H
      end ].

Lemma root_addr h x t : at_focus h x t -> t <> E -> is_addr (root_of t).
Proof.
  intros Hf Ht. destruct t as [|c l a k v r]; [done|]. eapply focus_addr; [exact Hf|]. apply elem_of_app. right. by left.
Qed.

(** Open the focus and run up to the first store. *)
Ltac ready Hf :=
  let Hf' := fresh "Hf" in pose proof Hf as Hf'; open_focus Hf'; colors;
  repeat (rewrite bool_decide_true by done || rewrite bool_decide_false by done); colors;
  repeat (rewrite decide_True by done || rewrite decide_False by naive_solver); cbn [fst snd app paint].

Lemma left_focus h c p kp vp cs sl b kb vb sr y ct tl a tk tv tr :
  let f := FL c p kp vp (T cs sl b kb vb sr) in
  let t := T ct tl a tk tv tr in
  at_focus h (f :: y) t ->
  exists h', run (fixAfterDeletion_left s a b) h =
      Some (if (black_step f).2 then top a ((black_step f).1 ++ y) else p, h') /\
    at_focus h' ((black_step f).1 ++ y) t.
Proof.
  intros f t Hf. subst f t. unfold fixAfterDeletion_left, parentOf, leftOf, rightOf. cbn [black_step].
  destruct (color_of sr) eqn:Hfar.
  - destruct sr as [|[] fl d kd vd fr]; try done.
    destruct (color_of sl) eqn:Hnear; ready Hf;
      act Hf (setColor_focus h0 A s rest c) (FR c (T ct tl a tk tv tr) p kp vp :: y) (T cs sl b kb vb (T Red fl d kd vd fr)) F1;
      act F1 setBlack y (T c (T ct tl a tk tv tr) p kp vp (T c sl b kb vb (T Red fl d kd vd fr))) F2;
      act F2 setBlack (FR c sl b kb vb :: (FR Black (T ct tl a tk tv tr) p kp vp :: y)) (T Red fl d kd vd fr) F3;
      act F3 (rotateLeft_focus h0 A s rest) y (T Black (T ct tl a tk tv tr) p kp vp (T c sl b kb vb (T Black fl d kd vd fr))) F4; finish F4.
  - destruct (color_of sl) eqn:Hnear.
    + destruct sl as [|[] fl d kd vd fr]; try done. ready Hf.
      act Hf setBlack (FL cs b kb vb sr :: (FR c (T ct tl a tk tv tr) p kp vp :: y)) (T Red fl d kd vd fr) F1.
      act F1 setRed (FR c (T ct tl a tk tv tr) p kp vp :: y) (T cs (T Black fl d kd vd fr) b kb vb sr) F2.
      act F2 (rotateRight_focus h0 A s rest) (FR c (T ct tl a tk tv tr) p kp vp :: y) (T Red (T Black fl d kd vd fr) b kb vb sr) F3. colors.
      act F3 (setColor_focus h0 A s rest c) (FR c (T ct tl a tk tv tr) p kp vp :: y) (T Black fl d kd vd (T Red fr b kb vb sr)) F4.
      act F4 setBlack y (T c (T ct tl a tk tv tr) p kp vp (T c fl d kd vd (T Red fr b kb vb sr))) F5.
      act F5 setBlack (FR c fl d kd vd :: (FR Black (T ct tl a tk tv tr) p kp vp :: y)) (T Red fr b kb vb sr) F6.
      act F6 (rotateLeft_focus h0 A s rest) y (T Black (T ct tl a tk tv tr) p kp vp (T c fl d kd vd (T Black fr b kb vb sr))) F7. finish F7.
    + ready Hf. act Hf setRed (FR c (T ct tl a tk tv tr) p kp vp :: y) (T cs sl b kb vb sr) F1. finish F1.
Qed.

Lemma right_focus h c p kp vp cs sl b kb vb sr y ct tl a tk tv tr :
  let f := FR c (T cs sl b kb vb sr) p kp vp in
  let t := T ct tl a tk tv tr in
  at_focus h (f :: y) t ->
  exists h', run (fixAfterDeletion_right s a b) h =
      Some (if (black_step f).2 then top a ((black_step f).1 ++ y) else p, h') /\
    at_focus h' ((black_step f).1 ++ y) t.
Proof.
  intros f t Hf. subst f t. unfold fixAfterDeletion_right, parentOf, leftOf, rightOf. cbn [black_step].
  destruct (color_of sl) eqn:Hfar.
  - destruct sl as [|[] fl d kd vd fr]; try done.
    destruct (color_of sr) eqn:Hnear; ready Hf;
      act Hf (setColor_focus h0 A s rest c) (FL c p kp vp (T ct tl a tk tv tr) :: y) (T cs (T Red fl d kd vd fr) b kb vb sr) F1;
      act F1 setBlack y (T c (T c (T Red fl d kd vd fr) b kb vb sr) p kp vp (T ct tl a tk tv tr)) F2;
      act F2 setBlack (FL c b kb vb sr :: (FL Black p kp vp (T ct tl a tk tv tr) :: y)) (T Red fl d kd vd fr) F3;
      act F3 (rotateRight_focus h0 A s rest) y (T Black (T c (T Black fl d kd vd fr) b kb vb sr) p kp vp (T ct tl a tk tv tr)) F4; finish F4.
  - destruct (color_of sr) eqn:Hnear.
    + destruct sr as [|[] fl d kd vd fr]; try done. ready Hf.
      act Hf setBlack (FR cs sl b kb vb :: (FL c p kp vp (T ct tl a tk tv tr) :: y)) (T Red fl d kd vd fr) F1.
      act F1 setRed (FL c p kp vp (T ct tl a tk tv tr) :: y) (T cs sl b kb vb (T Black fl d kd vd fr)) F2.
      act F2 (rotateLeft_focus h0 A s rest) (FL c p kp vp (T ct tl a tk tv tr) :: y) (T Red sl b kb vb (T Black fl d kd vd fr)) F3. colors.
      act F3 (setColor_focus h0 A s rest c) (FL c p kp vp (T ct tl a tk tv tr) :: y) (T Black (T Red sl b kb vb fl) d kd vd fr) F4.
      act F4 setBlack y (T c (T c (T Red sl b kb vb fl) d kd vd fr) p kp vp (T ct tl a tk tv tr)) F5.
      act F5 setBlack (FL c d kd vd fr :: (FL Black p kp vp (T ct tl a tk tv tr) :: y)) (T Red sl b kb vb fl) F6.
      act F6 (rotateRight_focus h0 A s rest) y (T Black (T c (T Black sl b kb vb fl) d kd vd fr) p kp vp (T ct tl a tk tv tr)) F7. finish F7.
    + ready Hf. act Hf setRed (FL c p kp vp (T ct tl a tk tv tr) :: y) (T cs sl b kb vb sr) F1. finish F1.
Qed.

(** The sibling, and the sibling after it has become the grandparent, exist. *)
Definition has_siblings (f : frame) : Prop :=
  match sibling f with
  | E => False
  | T Red l _ _ _ r => match f with FL _ _ _ _ _ => l <> E | FR _ _ _ _ _ => r <> E end
  | T Black _ _ _ _ _ => True
  end.

Lemma rbx_siblings n f y : rbx (S n) (f :: y) -> has_siblings f.
Proof.
  intros [Hs _]. unfold has_siblings. destruct (sibling f) as [|[] l a k v r]; cbn in Hs; [done| |done].
  destruct Hs as (_ & _ & Hl & Hr). destruct f; [by destruct l|by destruct r].
Qed.

#[local] Opaque fixAfterDeletion_left fixAfterDeletion_right.

Lemma turn_focus h f y ct tl a tk tv tr :
  let t := T ct tl a tk tv tr in
  let '(z, up, d) := fix_turn f in
  at_focus h (f :: y) t -> has_siblings f ->
  exists h', run (fixAfterDeletion_turn s a) h =
      Some (if d : bool then top a (z ++ up ++ y) else faddr f, h') /\
    at_focus h' (z ++ up ++ y) t.
Proof.
  intros t. subst t.
  assert (Hgoal : at_focus h (f :: y) (T ct tl a tk tv tr) -> has_siblings f ->
    let g := (red_step f).1 in let up := (red_step f).2 in
    exists h', run (fixAfterDeletion_turn s a) h =
      Some (if (black_step g).2 then top a ((black_step g).1 ++ up ++ y) else faddr g, h') /\
    at_focus h' ((black_step g).1 ++ up ++ y) (T ct tl a tk tv tr)).
  2: { unfold fix_turn. assert (Hg : faddr (red_step f).1 = faddr f).
       { destruct f as [c p kp vp [|[] sl b kb vb sr]|c [|[] sl b kb vb sr] p kp vp]; done. }
       rewrite <- Hg. destruct (red_step f) as [g up]. cbn [fst snd] in *. destruct (black_step g) as [z d]. exact Hgoal. }
  intros Hf Hs. unfold fixAfterDeletion_turn, parentOf, leftOf, rightOf.
  destruct f as [c p kp vp [|[] sl b kb vb sr]|c [|[] sl b kb vb sr] p kp vp]; cbn in Hs; try done; cbn [red_step fst snd app faddr].
  - destruct sl as [|c2 sl2 b2 kb2 vb2 sr2]; [done|]. pose proof Hf as Hf'. open_focus Hf'. colors.
    act Hf setBlack (FR c (T ct tl a tk tv tr) p kp vp :: y) (T Red (T c2 sl2 b2 kb2 vb2 sr2) b kb vb sr) F1. act F1 setRed y (T c (T ct tl a tk tv tr) p kp vp (T Black (T c2 sl2 b2 kb2 vb2 sr2) b kb vb sr)) F2.
    act F2 (rotateLeft_focus h0 A s rest) y (T Red (T ct tl a tk tv tr) p kp vp (T Black (T c2 sl2 b2 kb2 vb2 sr2) b kb vb sr)) F3.
    refocus_at F3 (FL Red p kp vp (T c2 sl2 b2 kb2 vb2 sr2) :: FL Black b kb vb sr :: y) (T ct tl a tk tv tr) F4.
    apply left_focus in F4. exact F4.
  - pose proof Hf as Hf'. open_focus Hf'. colors. apply left_focus. exact Hf.
  - destruct sr as [|c2 sl2 b2 kb2 vb2 sr2]; [done|]. pose proof Hf as Hf'. open_focus Hf'. colors.
    act Hf setBlack (FL c p kp vp (T ct tl a tk tv tr) :: y) (T Red sl b kb vb (T c2 sl2 b2 kb2 vb2 sr2)) F1. act F1 setRed y (T c (T Black sl b kb vb (T c2 sl2 b2 kb2 vb2 sr2)) p kp vp (T ct tl a tk tv tr)) F2.
    act F2 (rotateRight_focus h0 A s rest) y (T Red (T Black sl b kb vb (T c2 sl2 b2 kb2 vb2 sr2)) p kp vp (T ct tl a tk tv tr)) F3.
    refocus_at F3 (FR Red (T c2 sl2 b2 kb2 vb2 sr2) p kp vp :: FR Black sl b kb vb :: y) (T ct tl a tk tv tr) F4.
    apply right_focus in F4. exact F4.
  - pose proof Hf as Hf'. open_focus Hf'. colors. apply right_focus. exact Hf.
Qed.

(** ** The loop *)

(** The end of [fixAfterDeletion] *)
Definition paint_end (x : Z) : oprog unit :=
  if x =? NULL then ORet tt
  else let@ c := ldf x f_c in when (negb (c =? BLACK)) (stf x f_c BLACK).

Lemma paint_focus h x c l a k v r :
  at_focus h x (T c l a k v r) ->
  exists h', run (paint_end a) h = Some (tt, h') /\ at_focus h' x (T Black l a k v r).
Proof.
  intros Hf. assert (Ha : is_addr a) by by eapply (root_addr _ _ _ Hf). pose proof (fo_tree _ _ _ _ _ _ _ Hf) as (Hn & _).
  unfold paint_end. rewrite (proj2 (Z.eqb_neq _ _) (addr_ne a Ha)). erewrite run_ldf by done. rewrite cv_black. destruct c.
  - rewrite bool_decide_false by done. cbn [negb when]. rewrite <- (setColor_stf a BLACK Ha). by apply (setBlack h0 A s rest) in Hf.
  - rewrite bool_decide_true by done. by exists h.
Qed.

(** The node to delete, which stands for the leaf that takes its place *)
Context (d kd vd : Z).

Local Abbreviation ph := (T Black E d kd vd E).

Lemma color_plug x t t' : color_of t = color_of t' -> color_of (plug x t) = color_of (plug x t').
Proof. revert t t'. induction x as [|f x IH]; intros t t' Hc; [done|]. apply IH. by destruct f. Qed.

Lemma plug_not_E x t : t <> E -> plug x t <> E.
Proof. revert t. induction x as [|f x IH]; intros t Ht; [done|]. apply IH. by destruct f. Qed.

Lemma paint_inner h x inner :
  at_focus h x (plug inner ph) -> inner <> [] ->
  exists h' inner', run (paint_end (root_of (plug inner ph))) h = Some (tt, h') /\
    at_focus h' x (plug inner' ph) /\ inner' <> [] /\ sides inner' = sides inner /\
    plug inner' E = paint Black (plug inner E).
Proof.
  intros Hf Hi. destruct (exists_last Hi) as (i & g & ->). rewrite !plug_app in *. cbn [plug] in *.
  destruct g as [c l a k v|c r a k v]; cbn [fill root_of] in *;
    destruct (paint_focus _ _ _ _ _ _ _ _ Hf) as (h1 & Hr & Hf1).
  - exists h1, (i ++ [FL Black l a k v]). rewrite !plug_app. split_and!; try done; [by destruct i|].
    unfold sides. by rewrite !lefts_app, !rights_app.
  - exists h1, (i ++ [FR Black r a k v]). rewrite !plug_app. split_and!; try done; [by destruct i|].
    unfold sides. by rewrite !lefts_app, !rights_app.
Qed.

Lemma paint_black t : color_of (paint Black t) = Black.
Proof. by destruct t. Qed.

Lemma short_black n t : short n t -> exists m, rb m (paint Black t).
Proof. unfold short. destruct (color_of t); [by exists (S n)|apply rb_black]. Qed.

#[local] Opaque fixAfterDeletion_turn.

Definition turns_left (x : ctx) (t : tree) : nat := match color_of t with Red => O | Black => length x end.

Lemma delete_loop_focus fuel : forall h x inner n,
  at_focus h x (plug inner ph) -> (inner = [] -> x <> []) -> short n (plug inner E) -> rbx (S n) x ->
  (turns_left x (plug inner ph) < fuel)%nat ->
  exists h' z,
    run (obind (fixAfterDeletion_loop fuel s (root_of (plug inner ph))) paint_end) h = Some (tt, h') /\
    at_focus h' z ph /\ z <> [] /\ red_black (plug z E) /\ sides z = sides (inner ++ x).
Proof.
  induction fuel as [|fuel IH]; intros h x inner n Hf Hix Hsh Hx Hfuel; [lia|].
  assert (Hcol : color_of (plug inner ph) = color_of (plug inner E)) by by apply color_plug.
  cbn [fixAfterDeletion_loop]. rewrite run_assoc. erewrite run_ldf by (apply (fo_root _ _ _ _ _ _ _ Hf) || done).
  destruct x as [|f y].
  { cbn [top]. rewrite Z.eqb_refl. assert (Hi : inner <> []) by (intros Hi; by apply Hix).
    destruct (paint_inner _ _ _ Hf Hi) as (h1 & i1 & Hr & Hf1 & Hi1 & Hs1 & He1).
    exists h1, i1. split_and!; try done.
    - refine (refocus _ _ _ _ _ _ _ _ _ _ Hf1). by rewrite <- plug_app, app_nil_r.
    - rewrite He1. split; [apply paint_black|]. by eapply short_black.
    - by rewrite app_nil_r. }
  destruct (plug inner ph) as [|c l a k v r] eqn:Et; [by apply plug_not_E in Et|].
  destruct (focus_below _ _ _ _ _ _ _ _ _ _ _ _ _ Hf) as (Ha & Hne & Hroot & Hp & ob & Hob & Hc).
  cbn [root_of top]. rewrite (proj2 (Z.eqb_neq _ _) Hne). rewrite run_assoc.
  rewrite (colorOf_node a) by (by eapply (root_addr _ _ _ Hf)). erewrite run_ldf by done.
  rewrite cv_black. cbn [color_of] in Hcol. destruct c.
  { rewrite bool_decide_false by done. cbn [negb]. rewrite <- Et in Hf.
    assert (Hi : inner <> []) by (intros ->; by injection Et).
    destruct (paint_inner _ _ _ Hf Hi) as (h1 & i1 & Hr & Hf1 & Hi1 & Hs1 & He1). rewrite Et in Hr.
    exists h1, (i1 ++ f :: y). split_and!; [done| |by destruct i1| |by apply sides_app].
    - refine (refocus _ _ _ _ _ _ _ _ _ _ Hf1). by rewrite plug_app.
    - rewrite plug_app, He1. split; [by eapply rbx_root_black|]. unfold short in Hsh. rewrite <- Hcol in Hsh.
      eapply rb_plug; [exact Hsh|exact Hx|]. by destruct (plug inner E). }
  rewrite bool_decide_true by done. cbn [negb]. rewrite run_assoc.
  assert (Hu : rb n (plug inner E)) by (unfold short in Hsh; by rewrite <- Hcol in Hsh).
  pose proof (fix_turn_rb n f y _ Hx Hu (eq_sym Hcol)) as Hrb. pose proof (fix_turn_sides f y) as Hsd.
  pose proof (turn_focus h f y Black l a k v r) as Ht. cbv zeta in Ht.
  destruct (fix_turn f) as [[z up] []]; destruct Hrb as (Hz & Hup & Hrb).
  - destruct Ht as (h1 & Hr1 & Hf1); [done|by eapply rbx_siblings|]. rewrite (run_bind_ok _ _ _ _ _ Hr1).
    destruct fuel as [|fuel]; [cbn in Hfuel; lia|]. cbn [fixAfterDeletion_loop]. rewrite run_assoc.
    erewrite run_ldf by (apply (fo_root _ _ _ _ _ _ _ Hf1) || done). cbn [root_of]. rewrite Z.eqb_refl.
    apply (refocus _ _ _ _ _ _ _ [] (plug (inner ++ z ++ up ++ y) ph)) in Hf1.
    2: { cbn [plug]. by rewrite (plug_app inner), Et. }
    assert (Hroot1 : root_of (plug (inner ++ z ++ up ++ y) ph) = top a (z ++ up ++ y)) by (by rewrite plug_app, Et, root_plug).
    assert (Hne1 : inner ++ z ++ up ++ y <> []) by (by destruct inner, z).
    destruct (paint_inner _ _ _ Hf1 Hne1) as (h2 & i2 & Hr2 & Hf2 & Hi2 & Hs2 & He2). rewrite Hroot1 in Hr2.
    exists h2, i2. split_and!; [done| |done| |].
    + refine (refocus _ _ _ _ _ _ _ _ _ _ Hf2). done.
    + rewrite He2. split; [apply paint_black|]. destruct (rb_plug n (z ++ up ++ y) (plug inner E)) as [m Hm]; [done|done|by rewrite <- Hcol|].
      rewrite plug_app. by eapply rb_black.
    + rewrite Hs2. by apply sides_app_r.
  - destruct Hrb as (g & m & -> & Hga & Hup1 & Hsh1 & Hred).
    destruct Ht as (h1 & Hr1 & Hf1); [done|by eapply rbx_siblings|]. rewrite (run_bind_ok _ _ _ _ _ Hr1).
    assert (Hpl : forall t, plug (inner ++ [g]) t = fill g (plug inner t)) by (intros; by rewrite plug_app).
    destruct (IH h1 (up ++ y) (inner ++ [g]) m) as (h2 & z2 & Hr2 & Hf2 & Hz2 & Hrb2 & Hs2).
    + refine (refocus _ _ _ _ _ _ _ _ _ _ Hf1). rewrite Hpl, Et. done.
    + by destruct inner.
    + by rewrite Hpl.
    + done.
    + unfold turns_left in *. rewrite Hpl, Et. cbn [color_of length] in Hfuel.
      destruct Hred as [->|Hred]; [|destruct g; cbn in *; subst; lia]. destruct g as [[]|[]]; cbn; lia.
    + exists h2, z2. rewrite Hpl, Et in Hr2. split_and!; try done.
      * rewrite <- Hr2. do 3 f_equal. rewrite <- Hga. by destruct g.
      * rewrite Hs2, <- app_assoc. by apply sides_app_r.
Qed.

Lemma fix_deletion_focus fuel h x :
  at_focus h x ph -> x <> [] -> rbx 1 x -> (length x < fuel)%nat ->
  exists h' z, run (fixAfterDeletion fuel s d) h = Some (tt, h') /\ at_focus h' z ph /\ z <> [] /\
    red_black (plug z E) /\ sides z = sides x.
Proof.
  intros Hf Hx Hrb Hl. destruct (delete_loop_focus fuel h x [] 0 Hf) as (h1 & z & Hr & H1); [done|done|done|done|].
  exists h1, z. split; [exact Hr|exact H1].
Qed.

End Delete.
