(* ===== verification/RBErase.v ===== *)
(** * Red-black trees: deletion as an operation on a map *)
From S2P Require Import Prelude Words Objects RBTree RBShape RBPure RBOrder RBMap RBFix RBDelete.
Open Scope obj_scope.

Section Erase.

Context (h0 : gmap Z (list Z)) (A : list Z) (s : Z) (rest : list Z).

Local Abbreviation at_focus := (at_focus h0 A s rest).

(** The node [d] is out of the tree [t], and still an object. *)
Record taken (h' : gmap Z (list Z)) (d : Z) (x : ctx) (t : tree) : Prop := {
  tk_focus : RBShape.at_focus h' (caddrs x ++ addrs t) s rest h' x t;
  tk_nodes : d :: caddrs x ++ addrs t ≡ₚ A;
  tk_only : only h0 h' s A;
  tk_object : exists ob, h' !! d = Some ob /\ length ob = 6%nat }.

Lemma well_placed_drop d l l' : d :: l' ≡ₚ l -> well_placed l -> well_placed l'.
Proof.
  intros Hp Hw. apply (well_placed_perm _ (d :: l')) in Hw; [|done]. destruct Hw as [Hn Hf].
  apply list.NoDup_cons in Hn as [_ Hn]. apply list.Forall_cons in Hf as [_ Hf]. by split.
Qed.

(** Close the goal of a symbolic execution that takes [d] out. *)
Ltac settle_taken d Hw Hperm Ho :=
  eexists; split; [reflexivity|];
  constructor;
  [ constructor; cbn [tree_in ctx_in top parent faddr root_of] in *;
    [ steps; done
    | split_and?; first [done | by steps | keep]
    | split_and?; first [done | by steps | keep]
    | eapply (well_placed_drop d); [|exact Hw]; cbn [caddrs faddrs addrs app]; solve_Permutation
    | reflexivity
    | apply only_refl ]
  | rewrite <- Hperm; cbn [caddrs faddrs addrs app]; solve_Permutation
  | outside Ho Hperm
  | steps; eexists; split; [reflexivity|done] ].

Lemma unlink_focus h f x c d k v :
  at_focus h (f :: x) (T c E d k v E) ->
  exists h', run (delete_unlink d) h = Some (tt, h') /\ taken h' d (f :: x) E.
Proof.
  intros Hf. destruct f as [c0 a0 k0 v0 r0|c0 l0 a0 k0 v0]; open_focus Hf; unfold delete_unlink, when; steps; settle_taken d Hw Hperm Ho.
Qed.

Lemma unlink_root h c d k v :
  at_focus h [] (T c E d k v E) ->
  exists h', run (stf s f_root NULL) h = Some (tt, h') /\ taken h' d [] E.
Proof. intros Hf. open_focus Hf. steps. settle_taken d Hw Hperm Ho. Qed.

(** The only child [t'] of a node takes its place. *)
Definition only_child (t t' : tree) : Prop :=
  match t with
  | E => False
  | T _ l _ _ _ r => t' <> E /\ (l = t' /\ r = E \/ l = E /\ r = t')
  end.

Lemma replace_focus fuel h x t c b kb vb n :
  (0 < fuel)%nat -> at_focus h x t -> rb n t -> only_child t (T c E b kb vb E) ->
  exists h', run (delete_replace fuel s (root_of t) b) h = Some (tt, h') /\
    taken h' (root_of t) x (T Black E b kb vb E).
Proof.
  intros Hfuel Hf Hrb Hc. destruct fuel as [|fuel]; [lia|].
  destruct t as [|ct l d k v r]; [done|]. cbn in Hc.
  assert (ct = Black /\ c = Red) as [-> ->].
  { destruct ct; [|split; [done|]]; destruct Hc as (_ & [[-> ->]|[-> ->]]); cbn in Hrb; destruct c; destr; subst; try done.
    all: destruct n; cbn in *; destr; subst; try done. }
  unfold delete_replace, fixAfterDeletion, when. cbn [root_of fixAfterDeletion_loop].
  destruct Hc as (_ & [[-> ->]|[-> ->]]), x as [|[c0 a0 k0 v0 r0|c0 l0 a0 k0 v0] x]; open_focus Hf; steps;
    try (match goal with |- context [?u =? ?w] => destruct (u =? w) end; unfold colorOf; steps);
    settle_taken d Hw Hperm Ho.
Qed.

(** A node that has not two children is taken out. *)
Definition taken_out (h' : gmap Z (list Z)) (d : Z) (es : list (Z * Z)) : Prop :=
  exists t, taken h' d [] t /\ red_black t /\ inorder t = es.

Lemma taken_plug h' d x t : taken h' d x t -> taken h' d [] (plug x t).
Proof.
  intros [H1 H2 H3 H4]. assert (Hp : caddrs x ++ addrs t ≡ₚ addrs (plug x t)) by (by rewrite addrs_plug).
  constructor; try done.
  - apply rb_focus in H1 as (H1 & H5 & H6). apply rb_focus. split_and!; [exact H1|done|apply only_refl].
  - cbn [caddrs app]. by rewrite <- Hp.
Qed.

Lemma plug_red_black n x t : rb n t -> rbx n x -> color_of t = Black -> red_black (plug x t).
Proof.
  intros Ht Hx Hc. split.
  - destruct x as [|f x]; [done|]. by eapply rbx_root_black.
  - eapply rb_plug; [exact Ht|exact Hx|]. by rewrite Hc.
Qed.

Lemma rb_single n t t' :
  rb n t -> only_child t t' -> n = 1%nat /\ exists b kb vb, t' = T Red E b kb vb E.
Proof.
  destruct t as [|[] l d k v r]; [done|..]; intros Hrb (Ht' & [[-> ->]|[-> ->]]); cbn in Hrb.
  - destruct t' as [|[] ? ? ? ? ?], n; cbn in *; destr; done.
  - destruct t' as [|[] ? ? ? ? ?], n; cbn in *; destr; done.
  - destruct n as [|n]; [done|]. destruct Hrb as [Hrb ->].
    destruct t' as [|[] [] b kb vb []]; cbn in Hrb; destr; try done; subst; try done. eauto 6.
  - destruct n as [|n]; [done|]. destruct Hrb as [-> Hrb].
    destruct t' as [|[] [] b kb vb []]; cbn in Hrb; destr; try done; subst; try done. eauto 6.
Qed.

(** What [delete_last] does with a node without children *)
Definition delete_leaf (fuel : nat) (d : Z) : oprog Z :=
  let@ pp := ldf d f_p in
  if pp =? NULL then do@ stf s f_root NULL; ORet d
  else
    let@ c := ldf d f_c in
    do@ when (c =? BLACK) (fixAfterDeletion fuel s d);
    do@ delete_unlink d;
    ORet d.

Lemma leaf_focus fuel h x c d k v :
  at_focus h x (T c E d k v E) -> zipped x (T c E d k v E) -> (length x < fuel)%nat ->
  exists h', run (delete_leaf fuel d) h = Some (d, h') /\ taken_out h' d (lefts x ++ rights x).
Proof.
  intros Hf [n (Hrb & Hx & Hcol)] Hfuel. destruct (focus_node _ _ _ _ _ _ _ _ _ _ _ _ Hf) as [Hd Hn].
  unfold delete_leaf. erewrite run_ldf by done. destruct x as [|f x].
  - cbn [parent]. rewrite Z.eqb_refl. destruct (unlink_root _ _ _ _ _ Hf) as (h1 & Hr & Htk).
    exists h1. split; [by rewrite (run_bind_ok _ _ _ _ _ Hr)|]. exists E. split_and!; try done. split; [done|by exists O].
  - assert (Hp : parent (f :: x) <> NULL).
    { eapply addr_ne, focus_addr; [exact Hf|]. cbn. apply elem_of_app. left. apply elem_of_app. left. destruct f; left. }
    rewrite (proj2 (Z.eqb_neq _ _) Hp). erewrite run_ldf by done. change BLACK with (cv Black). rewrite cv_black.
    destruct c.
    + rewrite bool_decide_false by done. cbn [when]. rewrite (run_bind_ok (ORet tt) _ h tt h eq_refl).
      destruct (unlink_focus _ _ _ _ _ _ _ Hf) as (h1 & Hr & Htk). rewrite (run_bind_ok _ _ _ _ _ Hr).
      exists h1. split; [done|]. exists (plug (f :: x) E). split_and!; [by apply taken_plug| |by rewrite inorder_plug].
      cbn in Hrb. destruct Hrb as (_ & _ & -> & _). by apply (plug_red_black 0).
    + rewrite bool_decide_true by done. cbn [when]. destruct n as [|[|n]]; [done| |by destruct Hrb].
      destruct (fix_deletion_focus _ _ _ _ _ _ _ fuel h (f :: x) Hf) as (h1 & z & Hr & Hf1 & Hz & Hrb1 & Hs1); [done|done|done|].
      rewrite (run_bind_ok _ _ _ _ _ Hr). destruct z as [|g z]; [done|].
      destruct (unlink_focus _ _ _ _ _ _ _ Hf1) as (h2 & Hr2 & Htk). rewrite (run_bind_ok _ _ _ _ _ Hr2).
      exists h2. split; [done|]. exists (plug (g :: z) E). split_and!; [by apply taken_plug|done|].
      rewrite inorder_plug. by destruct (sides_inv _ _ Hs1) as [-> ->].
Qed.

Lemma child_focus fuel h x t t' :
  at_focus h x t -> zipped x t -> only_child t t' -> (0 < fuel)%nat ->
  root_of t' <> NULL /\
  exists h', run (delete_replace fuel s (root_of t) (root_of t')) h = Some (tt, h') /\
    taken_out h' (root_of t) (lefts x ++ inorder t' ++ rights x).
Proof.
  intros Hf [n (Hrb & Hx & Hcol)] Hoc Hfuel. destruct (rb_single _ _ _ Hrb Hoc) as (-> & b & kb & vb & ->). cbn [root_of].
  destruct t as [|c l d k v r]; [done|]. split.
  { eapply addr_ne, focus_addr; [exact Hf|]. apply elem_of_app. right. destruct Hoc as (_ & [[-> ->]|[-> ->]]); cbn; right; left. }
  destruct (replace_focus fuel h x (T c l d k v r) Red b kb vb 1) as (h1 & Hr & Htk); [lia|done|done|done|].
  exists h1. split; [done|].
  exists (plug x (T Black E b kb vb E)). split_and!; [by apply taken_plug|by apply (plug_red_black 1)|].
  by rewrite inorder_plug.
Qed.

Lemma last_focus fuel h x c l d k v r :
  at_focus h x (T c l d k v r) -> zipped x (T c l d k v r) -> l = E \/ r = E -> (length x < fuel)%nat ->
  exists h', run (delete_last fuel s d) h = Some (d, h') /\
    taken_out h' d (lefts x ++ (inorder l ++ inorder r) ++ rights x).
Proof.
  intros Hf Hz Hlr Hfuel. destruct (focus_node _ _ _ _ _ _ _ _ _ _ _ _ Hf) as [Hd Hn].
  unfold delete_last. erewrite run_ldf by done. destruct l as [|cl ll la lk lv lr]; [destruct r as [|cr rl ra rk rv rr]|].
  - erewrite (run_ldf _ d f_r) by done. by apply (leaf_focus fuel h x c d k v).
  - erewrite (run_ldf _ d f_r) by done.
    destruct (child_focus fuel h x _ (T cr rl ra rk rv rr) Hf Hz) as (Hne & h1 & Hr & Ht); [split; [done|by right]|lia|].
    rewrite (proj2 (Z.eqb_neq _ _) Hne). cbn [negb]. rewrite (run_bind_ok _ _ _ _ _ Hr). by exists h1.
  - destruct Hlr as [Hlr| ->]; [done|].
    destruct (child_focus fuel h x _ (T cl ll la lk lv lr) Hf Hz) as (Hne & h1 & Hr & Ht); [split; [done|by left]|lia|].
    rewrite (proj2 (Z.eqb_neq _ _) Hne). cbn [negb]. erewrite (run_ldf _ d f_l) by done.
    rewrite (proj2 (Z.eqb_neq _ _) Hne). cbn [negb]. rewrite (run_bind_ok _ _ _ _ _ Hr). exists h1. split; [done|]. cbn [inorder] in *.
    by rewrite app_nil_r.
Qed.

(** ** The successor *)

(** The leftmost node of a tree *)
Fixpoint lmost (x : ctx) (t : tree) : ctx * tree :=
  match t with
  | T c ((T _ _ _ _ _ _) as l) a k v r => lmost (FL c a k v r :: x) l
  | _ => (x, t)
  end.

Lemma lmost_plug t : forall x, plug (lmost x t).1 (lmost x t).2 = plug x t.
Proof. induction t as [|c l IHl a k v r _]; intros x; [done|]. destruct l; [done|]. apply IHl. Qed.

Lemma lmost_zip t : forall x, zipped x t -> zipped (lmost x t).1 (lmost x t).2.
Proof.
  induction t as [|c l IHl a k v r _]; intros x Hz; [done|]. destruct l; [done|]. by apply IHl, zip_left.
Qed.

Lemma lmost_app t : forall x, lmost x t = ((lmost [] t).1 ++ x, (lmost [] t).2).
Proof.
  induction t as [|c l IHl a k v r _]; intros x; [done|]. destruct l as [|cl ll la lk lv lr]; [done|].
  cbn [lmost] in *. rewrite IHl, (IHl [_]). cbn [fst snd]. by rewrite <- app_assoc.
Qed.

Lemma lmost_down c l a k v r : l <> E -> lmost [] (T c l a k v r) = ((lmost [] l).1 ++ [FL c a k v r], (lmost [] l).2).
Proof. intros Hl. rewrite <- (lmost_app l [FL c a k v r]). by destruct l. Qed.

Lemma tree_E_dec t : t = E \/ t <> E.
Proof. destruct t; [by left|by right]. Qed.

Lemma lmost_lefts t : lefts (lmost [] t).1 = [].
Proof.
  induction t as [|c l IHl a k v r _]; [done|]. destruct (tree_E_dec l) as [->|Hl]; [done|].
  rewrite lmost_down by done. cbn [fst]. by rewrite lefts_app, IHl.
Qed.

Lemma lmost_length t : (length (lmost [] t).1 <= height t)%nat.
Proof.
  induction t as [|c l IHl a k v r _]; [done|]. destruct (tree_E_dec l) as [->|Hl]; [cbn; lia|].
  rewrite lmost_down by done. cbn [fst]. rewrite length_app. cbn [height length] in *. lia.
Qed.

Lemma lmost_node t : t <> E -> exists c a k v r, (lmost [] t).2 = T c E a k v r.
Proof.
  induction t as [|c l IHl a k v r _]; intros Ht; [done|]. destruct (tree_E_dec l) as [->|Hl]; [by repeat eexists|].
  rewrite lmost_down by done. by apply IHl.
Qed.

Lemma leftmost_focus fuel : forall h x t,
  at_focus h x t -> t <> E -> (height t <= fuel)%nat ->
  run (leftmost fuel (root_of t)) h = Some (root_of (lmost x t).2, h).
Proof.
  induction fuel as [|fuel IH]; intros h x t Hf Ht Hh; destruct t as [|c l a k v r]; [done|cbn in Hh; lia|done|].
  destruct (focus_node _ _ _ _ _ _ _ _ _ _ _ _ Hf) as [Ha Hn]. cbn [leftmost root_of]. erewrite run_ldf by done.
  destruct l as [|cl ll la lk lv lr]; [done|].
  refocus_at Hf (FL c a k v r :: x) (T cl ll la lk lv lr) Hl.
  destruct (focus_node _ _ _ _ _ _ _ _ _ _ _ _ Hl) as [Hla _]. cbn [root_of]. rewrite (proj2 (Z.eqb_neq _ _) Hla). cbn [negb].
  erewrite run_ldf by done. cbn [lmost]. apply (IH h _ (T cl ll la lk lv lr) Hl); [done|]. cbn [height] in *. lia.
Qed.

Lemma setKey_focus h x c l a k v r w :
  at_focus h x (T c l a k v r) -> is_word w ->
  exists h', run (stf a f_k w) h = Some (tt, h') /\ at_focus h' x (T c l a w v r).
Proof.
  intros Hf Hw. destruct x as [|[c0 a0 k0 v0 r0|c0 l0 a0 k0 v0] x];
    open_focus Hf; steps; rewrite (w64_id w Hw); settle Hw0 Hperm Ho.
Qed.

Lemma choose_focus fuel h x c l a k v r :
  at_focus h x (T c l a k v r) -> zipped x (T c l a k v r) -> (height r <= fuel)%nat ->
  exists h' x' c' l' d k' v' r',
    run (delete_choose fuel a) h = Some (d, h') /\ at_focus h' x' (T c' l' d k' v' r') /\
    zipped x' (T c' l' d k' v' r') /\ (l' = E \/ r' = E) /\ (length x' <= S (length x + height r))%nat /\
    lefts x' ++ (inorder l' ++ inorder r') ++ rights x' = lefts x ++ (inorder l ++ inorder r) ++ rights x.
Proof.
  intros Hf Hz Hh. destruct (focus_node _ _ _ _ _ _ _ _ _ _ _ _ Hf) as [Ha Hn].
  unfold delete_choose. erewrite run_ldf by done. destruct l as [|cl ll la lk lv lr] eqn:El.
  { cbn [root_of]. rewrite Z.eqb_refl. cbn [negb andb]. rewrite (run_bind_ok (ORet NULL) _ h NULL h eq_refl).
    exists h, x, c, E, a, k, v, r. split_and!; try done; [by left|lia]. }
  rewrite <- El in *. refocus_at Hf (FL c a k v r :: x) l Hfl.
  assert (Hla : root_of l <> NULL) by (subst l; by destruct (focus_node _ _ _ _ _ _ _ _ _ _ _ _ Hfl)).
  rewrite (proj2 (Z.eqb_neq _ _) Hla). cbn [negb andb]. erewrite run_ldf by done. destruct r as [|cr rl ra rk rv rr] eqn:Er.
  { cbn [root_of]. rewrite Z.eqb_refl. cbn [negb andb]. exists h, x, c, l, a, k, v, E. split_and!; try done; [by right|lia]. }
  rewrite <- Er in *. assert (Hre : r <> E) by (by subst r). refocus_at Hf (FR c l a k v :: x) r Hfr.
  assert (Hra : root_of r <> NULL) by (subst r; by destruct (focus_node _ _ _ _ _ _ _ _ _ _ _ _ Hfr)).
  rewrite (proj2 (Z.eqb_neq _ _) Hra). cbn [negb].
  destruct (lmost_node r Hre) as (cb & b & kb & vb & rb & Hb). pose proof (lmost_plug r []) as Hpl.
  pose proof (leftmost_focus fuel h _ r Hfr Hre Hh) as Hleft. rewrite lmost_app, Hb in Hleft. cbn [fst snd root_of] in Hleft.
  set (y := (lmost [] r).1) in *. rewrite Hb in Hpl. cbn [plug] in Hpl.
  assert (Hsucc : run (successor fuel a) h = Some (b, h)).
  { unfold successor. rewrite (proj2 (Z.eqb_neq _ _) Ha). erewrite run_ldf by done. rewrite (proj2 (Z.eqb_neq _ _) Hra).
    cbn [negb]. by erewrite run_ldf by done. }
  rewrite (run_bind_ok _ _ _ _ _ Hsucc).
  assert (Hat : forall h k v, at_focus h x (T c l a k v r) -> at_focus h (y ++ FR c l a k v :: x) (T cb E b kb vb rb)).
  { intros h' k' v' Hf'. refine (refocus _ _ _ _ _ _ _ _ _ _ Hf'). rewrite plug_app, Hpl. done. }
  destruct (fo_tree _ _ _ _ _ _ _ (Hat _ _ _ Hf)) as (Hbn & Hkb & Hvb & _).
  rewrite run_assoc. erewrite run_ldf by done. destruct (setKey_focus _ _ _ _ _ _ _ _ kb Hf Hkb) as (h1 & Hr1 & Hf1).
  rewrite (run_bind_ok _ _ _ _ _ Hr1). destruct (fo_tree _ _ _ _ _ _ _ (Hat _ _ _ Hf1)) as (Hbn1 & _).
  rewrite run_assoc. erewrite run_ldf by done.
  destruct (setVal_focus _ _ _ _ _ _ _ _ _ _ _ _ vb Hf1 Hvb) as (h2 & Hr2 & Hf2). rewrite (run_bind_ok _ _ _ _ _ Hr2).
  exists h2, (y ++ FR c l a kb vb :: x), cb, E, b, kb, vb, rb. split_and!; [done|by apply Hat| |by left| |].
  - assert (Hz2 : zipped x (T c l a kb vb r)) by exact Hz. apply zip_right in Hz2. apply lmost_zip in Hz2.
    by rewrite lmost_app, Hb in Hz2.
  - rewrite length_app. cbn. pose proof (lmost_length r). fold y in H. lia.
  - rewrite lefts_app, rights_app. pose proof (lmost_lefts r) as Hly. fold y in Hly. rewrite Hly, app_nil_r.
    assert (Hir : inorder r = (kb, vb) :: inorder rb ++ rights y) by (by rewrite <- Hpl, inorder_plug, Hly).
    rewrite Hir. cbn. rewrite <- !app_assoc. cbn. by rewrite <- !app_assoc.
Qed.

End Erase.
