(* ===== verification/RBOps.v ===== *)
(** * Red-black trees: the interface refines a finite map

    Each function of the interface of rbtree.c, run on a heap that holds a tree,
    ends within a number of turns that is logarithmic in the size of the map,
    returns what the same operation on a finite map returns, and leaves a
    red-black tree that holds the map that operation leaves; no object but the
    tree's is written to. *)
From S2P Require Import Prelude Words LockWord Machine Tx Ctl CtlHist Objects RBTree RBShape RBPure RBOrder RBInsert RBMap RBFix RBDelete RBErase.
Open Scope obj_scope.

(** ** Operations and what they promise *)

(** [n] is the object that [getNode] obtains. *)
Inductive map_op :=
| Insert (key val n : Z)
| Delete (key : Z)
| Update (key val n : Z)
| Get (key : Z)
| Contains (key : Z).

Definition spec_op (o : map_op) (M : gmap Z Z) : Z * gmap Z Z :=
  match o with
  | Insert q w _ => match M !! q with Some _ => (0, M) | None => (1, <[q := w]> M) end
  | Delete q => match M !! q with Some _ => (1, delete q M) | None => (0, M) end
  | Update q w _ => match M !! q with Some _ => (1, <[q := w]> M) | None => (0, <[q := w]> M) end
  | Get q => (default NULL (M !! q), M)
  | Contains q => (c_bool (bool_decide (is_Some (M !! q))), M)
  end.

(** The new object, if the operation uses one *)
Definition op_node (o : map_op) : list Z :=
  match o with Insert _ _ n | Update _ _ n => [n] | _ => [] end.

Definition run_op (compare : Z -> Z -> Z) (fuel : nat) (s : Z) (o : map_op) : oprog Z :=
  match o with
  | Insert q w n => rbtree_insert compare fuel s q w n
  | Delete q => rbtree_delete compare fuel s q
  | Update q w n => rbtree_update compare fuel s q w n
  | Get q => rbtree_get compare fuel s q
  | Contains q => rbtree_contains compare fuel s q
  end.

Section Ops.

Context (compare : Z -> Z -> Z) (valid : Z -> Prop) `{!KeyOrder compare valid}.

Local Abbreviation map_at := (map_at compare valid).

(** What an operation needs: valid keys, values that are words, a new object *)
Definition op_ok (h : gmap Z (list Z)) (s : Z) (N : list Z) (o : map_op) : Prop :=
  match o with
  | Insert q w n | Update q w n => valid q /\ is_word w /\ fresh N s h n
  | Delete q | Get q | Contains q => valid q
  end.

Lemma lookup_map fuel h s rest N M q :
  map_at h s rest N M -> enough fuel M -> valid q ->
  exists t, at_focus h N s rest h [] t /\ red_black t /\ sorted compare valid (inorder t) /\ map_of (inorder t) = M /\
  exists x u, plug x u = t /\ zipped x u /\ run (lookup compare fuel s q) h = Some (root_of u, h) /\
  (2 * height t < fuel)%nat /\ (length x <= height t)%nat /\
  match u with E => M !! q = None | T _ l _ k v r => k = q /\ M !! q = Some v end.
Proof.
  intros Hm He Hq. destruct (map_at_height _ _ _ _ _ _ _ _ He Hm) as (t & Hf & Hrb & Hs & HM & Hh).
  exists t. split_and!; try done. pose proof (find_root compare valid q t Hs Hq) as Hfind. cbv zeta in Hfind.
  pose proof (find_zip compare q t [] (zip_root t Hrb)) as Hz.
  pose proof (lookup_focus compare _ _ _ _ q fuel h t Hf ltac:(lia)) as Hr.
  destruct (find compare q [] t) as [x u]. cbn [fst snd] in *. destruct Hfind as (Hp & Hl & Hc).
  exists x, u. split_and!; try done. rewrite HM in Hc. by destruct u as [|? ? ? ? ? ?]; [destruct Hc|].
Qed.

Lemma map_same h s rest N M t :
  at_focus h N s rest h [] t -> red_black t -> sorted compare valid (inorder t) -> map_of (inorder t) = M ->
  map_at h s rest N M /\ only h h s N.
Proof. intros Hf Hrb Hs HM. by apply (focus_map_at compare valid _ _ _ _ _ _ _ Hf). Qed.
Lemma height_plug x t : (length x + height t <= height (plug x t))%nat.
Proof.
  revert t. induction x as [|f x IH]; intros t; [done|]. cbn [plug length]. etransitivity; [|apply IH]. destruct f; cbn; lia.
Qed.

Lemma run_touch h n : (exists ob, h !! n = Some ob /\ length ob = 6%nat) -> run (touch n) h = Some (tt, h).
Proof. intros (ob & Ho & Hl). destruct ob; [done|]. cbn. by rewrite Ho. Qed.

(** ** Deletion *)

Lemma delete_map fuel h s rest N M q :
  map_at h s rest N M -> enough fuel M -> valid q ->
  match M !! q with
  | None => run (rbtree_delete compare fuel s q) h = Some (0, h)
  | Some _ => exists h' d N', run (rbtree_delete compare fuel s q) h = Some (1, h') /\
      map_at h' s rest N' (delete q M) /\ N ≡ₚ d :: N' /\ only h h' s N
  end.
Proof.
  intros Hm He Hq. destruct (lookup_map _ _ _ _ _ _ _ Hm He Hq) as (t & Hf & Hrb & Hs & HM & x & u & Hp & Hz & Hr & Hh & Hx & Hu).
  unfold rbtree_delete. rewrite (run_bind_ok _ _ _ _ _ Hr). destruct u as [|c l a k v r].
  { rewrite Hu. done. }
  destruct Hu as [-> Hu]. rewrite Hu. subst t. pose proof (height_plug x (T c l a q v r)) as Hhp. cbn [height] in Hhp.
  refocus_at Hf x (T c l a q v r) Hfx. destruct (focus_node _ _ _ _ _ _ _ _ _ _ _ _ Hfx) as [Ha _].
  cbn [root_of]. rewrite (proj2 (Z.eqb_neq _ _) Ha). cbn [negb].
  destruct (choose_focus _ _ _ _ fuel h x c l a q v r Hfx Hz) as (h1 & x1 & c1 & l1 & d & k1 & v1 & r1 & Hr1 & Hf1 & Hz1 & Hlr & Hx1 & Hi1); [lia|].
  destruct (last_focus _ _ _ _ fuel h1 x1 c1 l1 d k1 v1 r1 Hf1 Hz1 Hlr) as (h2 & Hr2 & t2 & [Hf2 Hn2 Ho2 Hob2] & Hrb2 & Hi2); [lia|].
  assert (Hd : d <> NULL) by (by destruct (focus_node _ _ _ _ _ _ _ _ _ _ _ _ Hf1)).
  assert (Hdel : run (delete_node fuel s a) h = Some (d, h2)).
  { unfold delete_node. rewrite (run_bind_ok _ _ _ _ _ Hr1). exact Hr2. }
  rewrite (run_bind_ok _ _ _ _ _ Hdel). rewrite (proj2 (Z.eqb_neq _ _) Hd). cbn [negb when].
  rewrite (run_bind_ok _ _ _ _ _ (run_touch _ _ Hob2)). exists h2, d, (addrs t2).
  apply rb_focus in Hf2 as (Ht2 & _ & _). cbn [caddrs app plug] in *.
  rewrite inorder_plug in Hs, HM. cbn [inorder] in Hs, HM. rewrite <- app_assoc in Hs, HM. cbn [app] in Hs, HM.
  rewrite app_assoc in Hs, HM. pose proof (proj1 (sorted_mid compare valid _ _ _ _) Hs) as (Hs2 & _).
  rewrite <- app_assoc, app_assoc, <- app_assoc in Hs2.
  assert (Hi : inorder t2 = (lefts x ++ inorder l) ++ inorder r ++ rights x).
  { rewrite Hi2, Hi1. by rewrite <- !app_assoc. }
  split_and!; [done| |done|done]. exists t2. split_and!; try done.
  - rewrite Hi. by rewrite <- app_assoc.
  - rewrite Hi, <- HM. by apply (map_of_delete compare valid).
Qed.

(** ** All operations *)

Lemma op_refines fuel h s rest N M o :
  map_at h s rest N M -> enough fuel M -> op_ok h s N o ->
  exists h' N', run (run_op compare fuel s o) h = Some ((spec_op o M).1, h') /\
    map_at h' s rest N' (spec_op o M).2 /\ only h h' s (op_node o ++ N) /\
    (forall a, a ∈ N' -> a ∈ op_node o ++ N).
Proof.
  intros Hm He Ho. destruct o as [q w n|q|q w n|q|q]; cbn [run_op spec_op op_ok op_node app] in *.
  - destruct Ho as (Hq & Hw & Hn). pose proof (insert_map compare valid fuel h s rest N M q w n Hm He Hq Hw Hn) as Hi.
    unfold rbtree_insert. destruct (M !! q) as [v|].
    + destruct Hi as (a & t & x & c & l & v' & r & Hr & Ha & _). rewrite (run_bind_ok _ _ _ _ _ Hr).
      rewrite (proj2 (Z.eqb_neq _ _) Ha). cbn [negb when]. rewrite (run_bind_ok _ _ _ _ _ (run_touch _ _ (fr_obj _ _ _ _ Hn))).
      exists h, N. split_and!; try done. intros b Hb. by right.
    + destruct Hi as (h1 & Hr & Hm1 & Ho1). rewrite (run_bind_ok _ _ _ _ _ Hr). by exists h1, (n :: N).
  - pose proof (delete_map fuel h s rest N M q Hm He Ho) as Hd. destruct (M !! q) as [v|].
    + destruct Hd as (h1 & d & N1 & Hr & Hm1 & Hp & Ho1). exists h1, N1. split_and!; [done|done|done|].
      intros b Hb. rewrite Hp. by right.
    + by exists h, N.
  - destruct Ho as (Hq & Hw & Hn). pose proof (insert_map compare valid fuel h s rest N M q w n Hm He Hq Hw Hn) as Hi.
    unfold rbtree_update. destruct (M !! q) as [v|].
    + destruct Hi as (a & t & x & c & l & v' & r & Hr & Ha & Hp & Hf & Hrb & Hs & HM). rewrite (run_bind_ok _ _ _ _ _ Hr).
      rewrite (proj2 (Z.eqb_neq _ _) Ha). cbn [negb]. subst t. refocus_at Hf x (T c l a q v' r) Hfx.
      destruct (setVal_focus _ _ _ _ _ _ _ _ _ _ _ _ w Hfx Hw) as (h1 & Hr1 & Hf1). rewrite (run_bind_ok _ _ _ _ _ Hr1).
      assert (Hn1 : h1 !! n = h !! n).
      { apply (fo_only _ _ _ _ _ _ _ Hf1); intros Hin; apply (fr_new _ _ _ _ Hn); [|by right]. subst. left. }
      pose proof (fr_obj _ _ _ _ Hn) as Hob. rewrite <- Hn1 in Hob. rewrite (run_bind_ok _ _ _ _ _ (run_touch _ _ Hob)).
      exists h1, N. refocus_at Hf1 (@nil frame) (plug x (T c l a q w r)) Hf2. rewrite inorder_plug in Hs, HM. cbn [inorder] in Hs, HM.
      rewrite <- app_assoc in Hs, HM. cbn [app] in Hs, HM. rewrite app_assoc in Hs, HM.
      pose proof (proj1 (sorted_mid compare valid _ _ _ _) Hs) as Hs2.
      assert (Hs3 : sorted compare valid ((lefts x ++ inorder l) ++ (q, w) :: inorder r ++ rights x)) by (by apply sorted_mid).
      assert (Hi : inorder (plug x (T c l a q w r)) = (lefts x ++ inorder l) ++ (q, w) :: inorder r ++ rights x).
      { rewrite inorder_plug. cbn. by rewrite <- !app_assoc. }
      destruct (focus_map_at compare valid _ _ _ _ _ _ (<[q := w]> M) Hf2) as [Hm1 Ho1].
      * destruct Hrb as [Hc [m Hrb]]. split; [by rewrite <- Hc; apply color_plug|]. exists m. exact (rb_same x (T c l a q v' r) (T c l a q w r) eq_refl (fun _ H => H) m Hrb).
      * by rewrite Hi.
      * rewrite Hi, <- HM, !(map_mid compare valid) by done. by rewrite insert_insert_eq.
      * split_and!; [done|done| |].
        -- intros b Hb Hnb. apply Ho1; [done|]. intros Hin. apply Hnb. by right.
        -- intros b Hb. by right.
    + destruct Hi as (h1 & Hr & Hm1 & Ho1). rewrite (run_bind_ok _ _ _ _ _ Hr). by exists h1, (n :: N).
  - destruct (lookup_map _ _ _ _ _ _ _ Hm He Ho) as (t & Hf & Hrb & Hs & HM & x & u & Hp & _ & Hr & _ & _ & Hu).
    unfold rbtree_get. rewrite (run_bind_ok _ _ _ _ _ Hr). exists h, N.
    destruct (map_same _ _ _ _ _ _ Hf Hrb Hs HM) as [Hm' Ho']. destruct u as [|c l a k v r].
    + rewrite Hu. by split_and!.
    + destruct Hu as [-> Hu]. rewrite Hu. subst t. refocus_at Hf x (T c l a q v r) Hfx.
      destruct (focus_node _ _ _ _ _ _ _ _ _ _ _ _ Hfx) as [Ha Hn]. cbn [root_of]. rewrite (proj2 (Z.eqb_neq _ _) Ha). cbn [negb].
      split_and!; [|done|done|done]. cbn. by rewrite Hn.
  - destruct (lookup_map _ _ _ _ _ _ _ Hm He Ho) as (t & Hf & Hrb & Hs & HM & x & u & Hp & _ & Hr & _ & _ & Hu).
    unfold rbtree_contains. rewrite (run_bind_ok _ _ _ _ _ Hr). exists h, N. destruct u as [|c l a k v r].
    + rewrite Hu. by split_and!.
    + destruct Hu as [-> Hu]. rewrite Hu. subst t. refocus_at Hf x (T c l a q v r) Hfx.
      destruct (focus_node _ _ _ _ _ _ _ _ _ _ _ _ Hfx) as [Ha Hn]. cbn [root_of]. rewrite (proj2 (Z.eqb_neq _ _) Ha).
      by split_and!.
Qed.

(** ** Sequences of operations *)

Fixpoint spec_ops (os : list map_op) (M : gmap Z Z) : list Z * gmap Z Z :=
  match os with
  | [] => ([], M)
  | o :: os => let '(r, M1) := spec_op o M in let '(rs, M2) := spec_ops os M1 in (r :: rs, M2)
  end.

Fixpoint run_ops (fuel : nat) (s : Z) (os : list map_op) (h : gmap Z (list Z)) : option (list Z * gmap Z (list Z)) :=
  match os with
  | [] => Some ([], h)
  | o :: os =>
      match run (run_op compare fuel s o) h with
      | Some (r, h1) => match run_ops fuel s os h1 with Some (rs, h2) => Some (r :: rs, h2) | None => None end
      | None => None
      end
  end.
(** What a sequence of operations needs: valid keys, words, and as many new
    objects, apart from each other and from the tree *)
Definition op_static (o : map_op) : Prop :=
  match o with
  | Insert q w _ | Update q w _ => valid q /\ is_word w
  | Delete q | Get q | Contains q => valid q
  end.

Definition nodes_of (os : list map_op) : list Z := concat (op_node <$> os).

Record ops_ok (h : gmap Z (list Z)) (s : Z) (N : list Z) (os : list map_op) : Prop := {
  oo_static : Forall op_static os;
  oo_nodes : NoDup (nodes_of os);
  oo_fresh : forall n, n ∈ nodes_of os -> fresh N s h n }.

Lemma ops_ok_perm h s N os os' : os ≡ₚ os' -> ops_ok h s N os -> ops_ok h s N os'.
Proof.
  intros Hp [H1 H2 H3]. assert (Hn : nodes_of os ≡ₚ nodes_of os').
  { unfold nodes_of. clear -Hp. induction Hp as [|o l l' _ IH|o o' l|l l' l'' _ IH1 _ IH2]; cbn; [done|by rewrite IH| |by rewrite IH1].
    rewrite !app_assoc. f_equiv. apply Permutation_app_comm. }
  constructor; [by rewrite <- Hp|by rewrite <- Hn|]. intros n Hin. apply H3. by rewrite Hn.
Qed.

Lemma ops_ok_head h s N o os : ops_ok h s N (o :: os) -> op_ok h s N o.
Proof.
  intros [[H1 _]%list.Forall_cons _ H3]. destruct o; cbn in *; try done; destruct H1; split_and!; try done; apply H3; left.
Qed.

Lemma ops_ok_tail h h' s N N' o os :
  ops_ok h s N (o :: os) -> only h h' s (op_node o ++ N) -> (forall a, a ∈ N' -> a ∈ op_node o ++ N) ->
  ops_ok h' s N' os.
Proof.
  unfold nodes_of. intros [[_ H1]%list.Forall_cons H2 H3] Ho HN. cbn in H2, H3. apply list.NoDup_app in H2 as (_ & Hd & H2).
  split; [done|done|]. intros n Hn. destruct (H3 n) as [Ha Hnew Hob]; [apply elem_of_app; by right|].
  assert (Hnn : n ∉ op_node o ++ N).
  { rewrite not_elem_of_app. split; [intros Hin; by apply (Hd n)|]. intros Hin. apply Hnew. by right. }
  apply not_elem_of_cons in Hnew as [Hns _]. constructor; [done| |].
  - rewrite not_elem_of_cons. split; [done|]. intros Hin. by apply Hnn, HN.
  - by rewrite (Ho n Hns Hnn).
Qed.

Lemma spec_op_size o M : (base.size (spec_op o M).2 <= S (base.size M))%nat.
Proof.
  assert (Hi : forall q w, (base.size (<[q := w]> M) <= S (base.size M))%nat).
  { intros q w. rewrite map_size_insert. destruct (M !! q); cbn; lia. }
  destruct o as [q w n|q|q w n|q|q]; cbn; try lia; destruct (M !! q) eqn:Hq; cbn; try lia; try apply Hi.
  rewrite map_size_delete, Hq. cbn. lia.
Qed.

Definition enough_for (fuel : nat) (M : gmap Z Z) (n : nat) : Prop := (4 * Nat.log2 (S (base.size M + n)) < fuel)%nat.

Lemma enough_for_step fuel M n o : enough_for fuel M (S n) -> enough fuel M /\ enough_for fuel (spec_op o M).2 n.
Proof.
  unfold enough_for, enough. intros He. pose proof (spec_op_size o M) as Hs. split.
  - pose proof (Nat.log2_le_mono (S (base.size M)) (S (base.size M + S n))). lia.
  - pose proof (Nat.log2_le_mono (S (base.size (spec_op o M).2 + n)) (S (base.size M + S n))). lia.
Qed.

Lemma ops_refine fuel s rest os : forall h N M,
  map_at h s rest N M -> enough_for fuel M (length os) -> ops_ok h s N os ->
  exists h' N', run_ops fuel s os h = Some ((spec_ops os M).1, h') /\
    map_at h' s rest N' (spec_ops os M).2 /\ only h h' s (nodes_of os ++ N).
Proof.
  induction os as [|o os IH]; intros h N M Hm He Ho; cbn [run_ops spec_ops].
  - exists h, N. by split_and!.
  - destruct (enough_for_step _ _ _ o He) as [He1 He2].
    destruct (op_refines fuel h s rest N M o Hm He1 (ops_ok_head _ _ _ _ _ Ho)) as (h1 & N1 & Hr & Hm1 & Ho1 & Hn1).
    pose proof (ops_ok_tail _ _ _ _ _ _ _ Ho Ho1 Hn1) as Ho2. destruct (spec_op o M) as [r M1]. cbn [fst snd] in *.
    destruct (IH h1 N1 M1 Hm1 He2 Ho2) as (h2 & N2 & Hr2 & Hm2 & Ho3). rewrite Hr, Hr2.
    destruct (spec_ops os M1) as [rs M2]. cbn [fst snd] in *. exists h2, N2. split_and!; [done|done|].
    unfold nodes_of. cbn. intros b Hb Hnb. rewrite !not_elem_of_app in Hnb. destruct Hnb as [[Hb1 Hb2] Hb3].
    rewrite Ho3; [apply Ho1; [done|]|done|].
    + rewrite not_elem_of_app. by split.
    + rewrite not_elem_of_app. split; [done|]. intros Hin. apply Hn1, elem_of_app in Hin as [Hin|Hin]; done.
Qed.

End Ops.

Lemma alloc_map compare valid `{!KeyOrder compare valid} h s o0 rest :
  is_addr s -> h !! s = Some (o0 :: rest) ->
  exists h', run (rbtree_alloc s) h = Some (tt, h') /\ map_at compare valid h' s rest [] ∅ /\ only h h' s [].
Proof.
  intros Hs Ho. cbn. rewrite Ho. cbn. rewrite w64_null. eexists. split; [done|]. split.
  - exists E. split_and!; try done.
    + constructor; cbn; [apply lookup_insert_eq|done|]. split; [apply NoDup_singleton|].
      apply list.Forall_cons. by split; [|constructor].
    + split; [done|by exists O].
    + split; constructor.
  - intros a Ha _. by rewrite lookup_insert_ne.
Qed.

(** ** The theorems *)

Section Theorems.

Context (compare : Z -> Z -> Z) (valid : Z -> Prop) `{!KeyOrder compare valid}.

(** C10. Every operation of the interface, on any heap that holds a red-black tree,
    ends within a number of turns logarithmic in the size of the map, returns what
    the operation on the map returns, and leaves a red-black tree that holds the
    map that it leaves; the new tree uses only the old nodes and the new object,
    and no other object changes. *)
Theorem rbtree_op_refines fuel h s rest N M o :
  map_at compare valid h s rest N M -> enough fuel M -> op_ok valid h s N o ->
  exists h' N', run (run_op compare fuel s o) h = Some ((spec_op o M).1, h') /\
    map_at compare valid h' s rest N' (spec_op o M).2 /\
    (forall a, a <> s -> a ∉ op_node o ++ N -> h' !! a = h !! a) /\
    (forall a, a ∈ N' -> a ∈ op_node o ++ N).
Proof.
  intros Hm He Ho. destruct (op_refines compare valid fuel h s rest N M o Hm He Ho) as (h1 & N1 & Hr & Hm1 & Ho1 & Hn1).
  by exists h1, N1.
Qed.

(** From [rbtree_alloc] on, any sequence of operations on distinct new objects
    returns the results of the same operations on a map that is empty at first. *)
Theorem rbtree_refines_map fuel h s o0 rest os :
  is_addr s -> h !! s = Some (o0 :: rest) -> ops_ok valid h s [] os ->
  (4 * Nat.log2 (S (length os)) < fuel)%nat ->
  exists h0 h', run (rbtree_alloc s) h = Some (tt, h0) /\
    run_ops compare fuel s os h0 = Some ((spec_ops os ∅).1, h') /\
    (exists N', map_at compare valid h' s rest N' (spec_ops os ∅).2) /\
    (forall a, a <> s -> a ∉ nodes_of os -> h' !! a = h !! a).
Proof.
  intros Hs Hh Ho Hf. destruct (alloc_map compare valid h s o0 rest Hs Hh) as (h0 & Hr & Hm & Ho0).
  destruct (ops_refine compare valid fuel s rest os h0 [] ∅ Hm) as (h1 & N1 & Hr1 & Hm1 & Ho1); [exact Hf| |].
  - destruct Ho as [H1 H2 H3]. constructor; [done|done|]. intros n Hn. destruct (H3 n Hn) as [Ha Hnew Hob].
    constructor; [done|done|]. rewrite (Ho0 n); [done| |apply not_elem_of_nil]. intros ->. apply Hnew. by left.
  - exists h0, h1. split_and!; [done|done|by exists N1|]. intros a Ha Hn. rewrite Ho1; [apply Ho0; [done|apply not_elem_of_nil]|done|].
    by rewrite app_nil_r.
Qed.

End Theorems.

(** ** A sequence of operations *)

Definition demo_obj (i : Z) : Z := 8000 + 64 * i.

Definition demo_heap : gmap Z (list Z) :=
  <[8000 := [7; 0]]> (list_to_map ((fun i => (demo_obj i, replicate 6 9)) <$> [1; 2; 3; 4; 5; 6; 7; 8])).

Definition demo_ops : list map_op :=
  [Insert 40 1 (demo_obj 1); Insert 20 2 (demo_obj 2); Insert 10 3 (demo_obj 3); Insert 30 4 (demo_obj 4);
   Insert 25 5 (demo_obj 5); Insert 20 6 (demo_obj 6); Update 30 7 (demo_obj 7); Get 30; Delete 20; Contains 20;
   Delete 40; Delete 40; Update 50 8 (demo_obj 8); Get 25; Get 50].

Lemma demo_ops_ok : ops_ok (fun k => 0 <= k < 2 ^ 63) demo_heap 8000 [] demo_ops.
Proof.
  constructor.
  - repeat (apply list.Forall_cons; split; [cbn; unfold is_word, word_size; lia|]). constructor.
  - apply (bool_decide_unpack _). vm_compute. exact I.
  - intros n Hn. assert (Hf : Forall (fun n => is_addr n /\ (n ∉ [8000]) /\ exists ob, demo_heap !! n = Some ob /\ length ob = 6%nat) (nodes_of demo_ops)).
    { repeat (apply list.Forall_cons; split; [split_and!; [unfold is_addr, demo_obj; lia|by apply (bool_decide_unpack _); vm_compute|by eexists]|]). constructor. }
    rewrite list.Forall_forall in Hf. destruct (Hf n Hn) as (H1 & H2 & H3). by constructor.
Qed.

Lemma rbtree_refines_map_witness :
  (spec_ops demo_ops ∅).1 = [1; 1; 1; 1; 1; 0; 1; 7; 1; 0; 1; 0; 0; 5; 8] /\
  exists h0 h', run (rbtree_alloc 8000) demo_heap = Some (tt, h0) /\
    run_ops compareKeysDefault 17 8000 demo_ops h0 = Some ((spec_ops demo_ops ∅).1, h') /\
    (exists N', map_at compareKeysDefault (fun k => 0 <= k < 2 ^ 63) h' 8000 [0] N' (spec_ops demo_ops ∅).2) /\
    (forall a, a <> 8000 -> a ∉ nodes_of demo_ops -> h' !! a = demo_heap !! a).
Proof.
  split; [vm_compute; reflexivity|].
  apply (rbtree_refines_map compareKeysDefault (fun k => 0 <= k < 2 ^ 63) 17 demo_heap 8000 7 [0] demo_ops).
  - unfold is_addr. lia.
  - reflexivity.
  - exact demo_ops_ok.
  - cbn. lia.
Defined.

(** The program itself, run on the heap *)
Example demo_run :
  (fst <$> (match run (rbtree_alloc 8000) demo_heap with
            | Some (_, h0) => run_ops compareKeysDefault 17 8000 demo_ops h0
            | None => None
            end)) = Some [1; 1; 1; 1; 1; 0; 1; 7; 1; 0; 1; 0; 0; 5; 8].
Proof. vm_compute. reflexivity. Qed.

Definition demo_heap0 : gmap Z (list Z) := <[8000 := [0; 0]]> demo_heap.

Lemma rbtree_op_refines_witness :
  let o := Insert 40 1 (demo_obj 1) in
  (spec_op o ∅).1 = 1 /\
  exists h' N', run (run_op compareKeysDefault 1 8000 o) demo_heap0 = Some ((spec_op o ∅).1, h') /\
    map_at compareKeysDefault (fun k => 0 <= k < 2 ^ 63) h' 8000 [0] N' (spec_op o ∅).2 /\
    (forall a, a <> 8000 -> a ∉ op_node o ++ [] -> h' !! a = demo_heap0 !! a) /\
    (forall a, a ∈ N' -> a ∈ op_node o ++ []).
Proof.
  split; [reflexivity|].
  apply (rbtree_op_refines compareKeysDefault (fun k => 0 <= k < 2 ^ 63) 1 demo_heap0 8000 [0] [] ∅ (Insert 40 1 (demo_obj 1))).
  - exists E. split_and!; try done.
    + constructor; [reflexivity|done|]. split; [apply NoDup_singleton|]. apply list.Forall_cons. split; [unfold is_addr; lia|constructor].
    + split; [done|by exists O].
    + split; constructor.
  - cbn. unfold enough. rewrite map_size_empty. cbn. lia.
  - unfold op_ok, is_word, word_size. split; [lia|]. split; [lia|].
    constructor; [unfold is_addr, demo_obj; lia| |eexists; split; [vm_compute; reflexivity|reflexivity]].
    apply (bool_decide_unpack _). vm_compute. exact I.
Defined.
