(* ===== verification/Serial.v ===== *)
(** * Requests that run as transactions

    The threads of a program each run a list of requests as transactions.  When
    all have ended, whatever the interleaving of their steps, the results are
    those of an interleaving of whole requests.  The state the requests work on is
    abstract: [rep] says which memories represent it, [step] what a request does. *)
From S2P Require Import Prelude Words LockWord Machine Tx Ctl CtlHist CtlInv CtlStep CtlLogic CtlAssert CtlExtend CtlBody CtlCommit CtlRun CtlCorrect.

(** ** Interleavings of the threads' lists *)

Inductive interleaving {A : Type} : list (list A) -> list (nat * A) -> Prop :=
| int_nil ls : Forall (fun l => l = []) ls -> interleaving ls []
| int_cons ls i a l sched :
    ls !! i = Some (a :: l) -> interleaving (<[i := l]> ls) sched -> interleaving ls ((i, a) :: sched).

Lemma concat_head {A} (ls : list (list A)) i a l :
  ls !! i = Some (a :: l) -> concat ls ≡ₚ a :: concat (<[i := l]> ls).
Proof.
  revert i. induction ls as [|l' ls IH]; intros [|i]; cbn; [done..| |].
  - by intros [= ->].
  - intros Hi. rewrite (IH i Hi). by rewrite Permutation_middle.
Qed.

Lemma interleaving_perm {A} (ls : list (list A)) sched : interleaving ls sched -> concat ls ≡ₚ sched.*2.
Proof.
  induction 1 as [ls Hf|ls i a l sched Hi _ IH].
  - induction Hf as [|l ls -> _ IHf]; [done|]. exact IHf.
  - cbn. by rewrite (concat_head _ _ _ _ Hi), IH.
Qed.

Lemma list_choice {A} n (P : nat -> A -> Prop) :
  (forall i, (i < n)%nat -> exists x, P i x) -> exists l, length l = n /\ forall i x, l !! i = Some x -> P i x.
Proof.
  induction n as [|n IH]; intros H; [by exists []|]. destruct IH as (l & Hl & Hp); [intros i Hi; apply H; lia|].
  destruct (H n) as [x Hx]; [lia|]. exists (l ++ [x]). split; [rewrite length_app; cbn; lia|].
  intros i y [Hi|[Hi Hy]]%lookup_app_Some; [by apply Hp|]. apply list_lookup_singleton_Some in Hy as [H0 <-].
  by replace i with n by lia.
Qed.

(** ** From the serial order to an interleaving *)

Section Serial.

Context {A : Type} (body : A -> txbody).

(** The records of a thread that ran [as_] with results [vs] *)
Definition recs (i : nat) (p : list (A * Z)) : list rec := (fun av => mk_rec i (body av.1) av.2) <$> p.

Lemma recs_interleave order : forall (ls : list (list (A * Z))),
  (forall c, c ∈ order -> (rc_tid c < length ls)%nat) ->
  (forall i l, ls !! i = Some l -> mine i order = recs i l) ->
  exists sched, interleaving ls sched /\
    order = (fun '(i, av) => mk_rec i (body (fst av)) (snd av)) <$> sched.
Proof.
  induction order as [|c order IH]; intros ls Hlt Hm.
  - exists []. split; [|done]. constructor. apply list.Forall_lookup. intros i l Hi. specialize (Hm i l Hi). cbn in Hm.
    by destruct l.
  - destruct (lookup_lt_is_Some_2 ls (rc_tid c)) as [l Hl]; [apply Hlt; by left|].
    pose proof (Hm _ _ Hl) as Hc. rewrite mine_cons_eq in Hc. destruct l as [|av l]; [done|].
    cbn in Hc. injection Hc as Hc Hrest.
    destruct (IH (<[rc_tid c := l]> ls)) as (sched & Hs & ->).
    + intros c' Hc'. rewrite length_insert. apply Hlt. by right.
    + intros i l' Hi. destruct (decide (i = rc_tid c)) as [->|Hne].
      * rewrite list_lookup_insert_eq in Hi by (by eapply lookup_lt_Some). by injection Hi as <-.
      * rewrite list_lookup_insert_ne in Hi by done. specialize (Hm i l' Hi). by rewrite mine_cons_ne in Hm by done.
    + exists ((rc_tid c, av) :: sched). split; [by econstructor|]. cbn. by rewrite <- Hc.
Qed.

End Serial.

(** ** Requests *)

(** Attributes of the transaction, and the request *)
Definition req_program {A} (body : A -> txbody) (rs : list (option stm_tx_attr * A)) : program :=
  (fun ar => (ar.1, body ar.2)) <$> rs.

(** Requests one after the other: each gives the result expected. *)
Fixpoint steps {A St} (step : A -> St -> option (Z * St)) (l : list (A * Z)) (x : St) : option St :=
  match l with
  | [] => Some x
  | (a, r) :: l =>
      match step a x with Some (r', x') => if r' =? r then steps step l x' else None | None => None end
  end.

(** [rep rest x m]: the memory [m] represents [x], and the requests [rest] can run
    from here. *)
Class Represented {A St} (body : A -> txbody) (step : A -> St -> option (Z * St))
    (rep : list A -> St -> mem -> Prop) : Prop := {
  rp_mem rest x m : rep rest x m -> is_mem m;
  rp_perm rest rest' x m : rest ≡ₚ rest' -> rep rest x m -> rep rest' x m;
  rp_step a rest x m r m' : rep (a :: rest) x m -> seq_body (body a) m = Some (r, m') ->
    exists x', step a x = Some (r, x') /\ rep rest x' m' }.

Section Requests.

Context {A St : Type} (body : A -> txbody) (step : A -> St -> option (Z * St)) (rep : list A -> St -> mem -> Prop).
Context `{!Represented body step rep}.

Lemma records_recs i rs vs : records i (req_program body rs) vs = recs body i (zip rs.*2 vs).
Proof.
  unfold records, recs, req_program. revert vs. induction rs as [|[a o] rs IH]; intros [|v vs]; cbn; [done..|]. f_equal. apply IH.
Qed.

Lemma seq_exec_steps sched : forall x m m',
  rep (sched.*2.*1) x m ->
  seq_exec ((fun '(i, av) => mk_rec i (body (fst av)) (snd av)) <$> sched) m = Some m' ->
  exists x', steps step sched.*2 x = Some x' /\ rep [] x' m'.
Proof.
  induction sched as [|[i [a r]] sched IH]; intros x m m' Hp Hs; cbn in *.
  - injection Hs as <-. by exists x.
  - destruct (seq_body (body a) m) as [[r' m1]|] eqn:Hb; [|done].
    destruct (Z.eqb_spec r' r) as [->|]; [|done].
    destruct (rp_step _ _ _ _ _ _ Hp Hb) as (x1 & Hst & Hp1). rewrite Hst, Z.eqb_refl. by eapply IH.
Qed.

Lemma serial_requests C fuel reqs ext_step s0 s ts x :
  let progs := req_program body <$> reqs in
  setup C progs ext_step s0 -> reachable C fuel progs ext_step s0 s ts -> all_done ts ->
  rep (concat reqs).*2 x (words s0) ->
  exists results sched x',
    Forall2 (fun rs vs => length rs = length vs) reqs results /\
    (forall i vs, results !! i = Some vs -> exists tx, ts !! i = Some (Ret (Ok (Some <$> vs), tx))) /\
    interleaving (zip_with (fun rs vs => zip rs.*2 vs) reqs results) sched /\
    steps step sched.*2 x = Some x' /\ rep [] x' (words s).
Proof.
  intros progs Hsu Hr Hd Hp.
  destruct (reach_serial _ _ _ _ _ Hsu _ _ Hr) as (order & m & Hex & Hin & Hth & Hmem).
  pose proof (reach_length _ _ _ _ _ _ _ Hr) as Hlen. unfold progs in Hlen. rewrite length_fmap in Hlen.
  assert (Hres : exists results, length results = length reqs /\ forall i vs, results !! i = Some vs ->
    exists rs tx, reqs !! i = Some rs /\ ts !! i = Some (Ret (Ok (Some <$> vs), tx)) /\ length rs = length vs /\
      mine i order = recs body i (zip rs.*2 vs)).
  { apply list_choice. intros i Hi. destruct (lookup_lt_is_Some_2 ts i) as [q Hq]; [by rewrite Hlen|].
    destruct (Forall_lookup_1 _ _ _ _ Hd Hq) as (rs & tx & ->). destruct (Hth i rs tx Hq) as (p & vs & Hpi & -> & Hlv & Hmi).
    unfold progs in Hpi. rewrite list_lookup_fmap in Hpi. apply fmap_Some in Hpi as (os & Hos & ->).
    exists vs, os, tx. unfold req_program in Hlv at 1. rewrite length_fmap in Hlv. split_and!; [done|done|done|].
    by rewrite Hmi, records_recs. }
  destruct Hres as (results & Hlr & Hres).
  assert (Hlens : Forall2 (fun rs vs => length rs = length vs) reqs results).
  { apply Forall2_same_length_lookup_2; [done|]. intros i rs vs Hrs Hvs. destruct (Hres i vs Hvs) as (rs' & tx & Hrs' & _ & Hl' & _). congruence. }
  destruct (recs_interleave body order (zip_with (fun rs vs => zip rs.*2 vs) reqs results)) as (sched & Hs & ->).
  { intros c Hc. rewrite length_zip_with, Hlr, Nat.min_id. rewrite list.Forall_forall in Hin.
    destruct (Hin c Hc) as (p & a & Hpi & _). unfold progs in Hpi. rewrite list_lookup_fmap in Hpi.
    apply fmap_Some in Hpi as (os & Hos & _). by eapply lookup_lt_Some. }
  { intros i l Hi. apply lookup_zip_with_Some in Hi as (rs & vs & -> & Hrs & Hvs).
    destruct (Hres i vs Hvs) as (rs' & tx & Hrs' & _ & _ & Hmi). congruence. }
  assert (Hperm : (concat reqs).*2 ≡ₚ sched.*2.*1).
  { rewrite <- (interleaving_perm _ _ Hs). clear -Hlens. induction Hlens as [|rs vs reqs results Hl _ IH]; [done|].
    cbn. rewrite !fmap_app, IH. by rewrite fst_zip by (by rewrite length_fmap, Hl). }
  destruct (seq_exec_steps sched x (words s0) m) as (x' & Hst & Hp'); [by eapply rp_perm|done|].
  exists results, sched, x'. split_and!; [done| |done|done|].
  - intros i vs Hi. destruct (Hres i vs Hi) as (rs & tx & _ & Hts & _). by exists tx.
  - assert (words s = m) as ->; [|done]. apply FunctionalExtensionality.functional_extensionality. by apply Hmem.
Qed.

End Requests.
