(* ===== verification/RBTrans.v ===== *)
(** * Red-black trees: transactions on a shared map

    The threads of a program run operations on one tree as transactions.  When all
    have ended, whatever the interleaving of their steps, their results are those
    of an interleaving of whole operations on a finite map, and the memory holds a
    red-black tree with the map that is left. *)
From S2P Require Import Prelude Words LockWord Machine Tx Ctl CtlHist CtlInv CtlStep CtlLogic CtlAssert CtlExtend CtlBody CtlCommit CtlRun CtlCorrect CtlDemo Serial Objects RBTree RBShape RBPure RBOrder RBMap RBOps.

(** ** The tree as transactions *)

Section Trans.

Context (compare : Z -> Z -> Z) (valid : Z -> Prop) `{!KeyOrder compare valid}.

Definition op_body (fuel : nat) (s : Z) (o : map_op) : txbody := to_tx (run_op compare fuel s o).

(** A thread's operations, each with the attributes of its transaction *)
Definition tree_program (fuel : nat) (s : Z) : list (option stm_tx_attr * map_op) -> program :=
  req_program (op_body fuel s).

(** The memory holds a tree with the map, and what the operations need. *)
Definition tree_rep (fuel : nat) (s : Z) (rest : list Z) (os : list map_op) (M : gmap Z Z) (m : mem) : Prop :=
  exists h N, map_at compare valid h s rest N M /\ enough_for fuel M (length os) /\ ops_ok valid h s N os /\
    layout h /\ holds h m /\ is_mem m.

Instance tree_represented fuel s rest :
  Represented (op_body fuel s) (fun o M => Some (spec_op o M)) (tree_rep fuel s rest).
Proof.
  split.
  - intros os M m (h & N & H). apply H.
  - intros os os' M m Hp (h & N & Hm & He & Ho & H). exists h, N. split_and!; try apply H; [done| |].
    + by rewrite <- Hp.
    + by eapply ops_ok_perm.
  - intros o os M m r m' (h & N & Hm & He & Ho & Hl & Hh & Hmem) Hb. cbn [length] in He.
    destruct (enough_for_step _ _ _ o He) as [He1 He2].
    destruct (op_refines compare valid fuel h s rest N M o Hm He1 (ops_ok_head _ _ _ _ _ _ Ho)) as (h1 & N1 & Hr & Hm1 & Ho1 & Hn1).
    pose proof (ops_ok_tail _ _ _ _ _ _ _ _ Ho Ho1 Hn1) as Ho2.
    destruct (run_to_tx _ _ _ _ _ Hr Hl Hh Hmem) as (m1 & Hb1 & Hl1 & Hh1 & Hmem1 & _).
    rewrite seq_body_run in Hb. unfold op_body in Hb. rewrite Hb1 in Hb. injection Hb as <- <-.
    exists (spec_op o M).2. split; [by destruct (spec_op o M)|]. by exists h1, N1.
Qed.

Lemma steps_spec_ops l : forall M M', steps (fun o M => Some (spec_op o M)) l M = Some M' -> spec_ops l.*1 M = (l.*2, M').
Proof.
  induction l as [|[o r] l IH]; intros M M' Hs; cbn in *; [by injection Hs as ->|].
  destruct (spec_op o M) as [r' M1]. destruct (Z.eqb_spec r' r) as [->|]; [|done]. by rewrite (IH _ _ Hs).
Qed.

(** C4. The operations of transactions on one tree are linearizable: whatever the
    interleaving of the threads, when all have returned there is an order of all
    their operations, which keeps the order of each thread, such that every thread
    got the results that these operations on a finite map give in that order, and
    the memory holds a red-black tree with the map that they leave. *)
Theorem rbtree_transactions C fuelC fuel ops ext_step s0 s ts h obj rest N M :
  let progs := tree_program fuel obj <$> ops in
  setup C progs ext_step s0 -> reachable C fuelC progs ext_step s0 s ts -> all_done ts ->
  map_at compare valid h obj rest N M -> layout h -> holds h (words s0) ->
  ops_ok valid h obj N (concat ops).*2 -> enough_for fuel M (length (concat ops)) ->
  exists results sched M' h' N',
    Forall2 (fun os rs => length os = length rs) ops results /\
    (forall i rs, results !! i = Some rs -> exists tx, ts !! i = Some (Ret (Ok (Some <$> rs), tx))) /\
    interleaving (zip_with (fun os rs => zip os.*2 rs) ops results) sched /\
    spec_ops (sched.*2.*1) M = (sched.*2.*2, M') /\
    map_at compare valid h' obj rest N' M' /\ holds h' (words s).
Proof.
  intros progs Hsu Hr Hd Hm Hl Hh Ho He.
  destruct (serial_requests (op_body fuel obj) _ (tree_rep fuel obj rest) C fuelC ops ext_step s0 s ts M Hsu Hr Hd)
    as (results & sched & M' & Hlens & Hres & Hs & Hst & (h' & N' & Hm' & _ & _ & _ & Hh' & _)).
  { exists h, N. split_and!; try done; [|by apply Hsu]. by rewrite length_fmap. }
  exists results, sched, M', h', N'. split_and!; try done. by apply steps_spec_ops.
Qed.

End Trans.

(** ** Two threads on one tree *)

Definition tree_ops : list (list (option stm_tx_attr * map_op)) :=
  [ [(None, Insert 5 50 8128); (None, Get 7)];
    [(None, Insert 7 70 8256); (None, Delete 5)] ].

Definition tree_progs : list program := tree_program compareKeysDefault 9 8000 <$> tree_ops.

(** The memory is all zero, so it holds an empty tree and two new objects. *)
Definition tree_heap : gmap Z (list Z) :=
  <[8000 := [0; 0]]> (<[8128 := replicate 6 0]> {[8256 := replicate 6 0]}).

Definition tree_end : stm_state * list (prog loc ext thread_result) :=
  play demo_ext (concat (replicate 900 [0%nat; 1%nat])) (stm_init demo_start)
    (start_threads demo_config 20 tree_progs).

Lemma tree_setup : setup demo_config tree_progs ext_spec demo_start.
Proof.
  constructor.
  - constructor; [done|done| |done]. apply Nat2Z.inj_le. by compute.
  - by repeat constructor.
  - intros a. split; done.
  - done.
Qed.

Lemma tree_reachable : reachable demo_config 20 tree_progs ext_spec demo_start tree_end.1 tree_end.2.
Proof.
  unfold reachable. rewrite <- surjective_pairing.
  apply (play_pool demo_ext ext_spec demo_good demo_ext_ok). by left.
Qed.

Lemma tree_results : exists tx0 tx1, tree_end.2 = [Ret (Ok [Some 1; Some 0], tx0); Ret (Ok [Some 1; Some 1], tx1)].
Proof. eexists _, _. vm_compute. reflexivity. Qed.

Lemma tree_done : all_done tree_end.2.
Proof.
  destruct tree_results as (tx0 & tx1 & ->).
  constructor; [by eexists _, _|]. constructor; [by eexists _, _|constructor].
Qed.

Lemma tree_heap_cases o ob :
  tree_heap !! o = Some ob -> o = 8000 /\ ob = [0; 0] \/ (o = 8128 \/ o = 8256) /\ ob = replicate 6 0.
Proof.
  unfold tree_heap. rewrite !lookup_insert_Some, lookup_singleton_Some. intuition congruence.
Qed.

Lemma tree_layout : layout tree_heap.
Proof.
  constructor.
  - intros o ob [[-> ->]|[[-> | ->] ->]]%tree_heap_cases; simpl; lia.
  - intros o ob o' ob' [[-> ->]|[[-> | ->] ->]]%tree_heap_cases [[-> ->]|[[-> | ->] ->]]%tree_heap_cases Hne; simpl; lia.
  - intros o ob [[-> ->]|[[-> | ->] ->]]%tree_heap_cases; reflexivity.
Qed.

Lemma tree_holds : holds tree_heap (words demo_start).
Proof.
  intros o ob f v Ho Hf. assert (Hz : Forall (fun v => v = 0) ob).
  { apply tree_heap_cases in Ho as [[-> ->]|[_ ->]]; by repeat constructor. }
  rewrite list.Forall_lookup in Hz. symmetry. by eapply Hz.
Qed.

Lemma tree_empty : map_at compareKeysDefault (fun k => 0 <= k < 2 ^ 63) tree_heap 8000 [0] [] ∅.
Proof.
  exists E. split_and!; try done.
  - constructor; [reflexivity|done|]. split; [apply NoDup_singleton|]. apply list.Forall_cons. split; [unfold is_addr; lia|constructor].
  - split; [done|by exists O].
  - split; constructor.
Qed.

Lemma tree_ops_ok : ops_ok (fun k => 0 <= k < 2 ^ 63) tree_heap 8000 [] (concat tree_ops).*2.
Proof.
  constructor.
  - repeat (apply list.Forall_cons; split; [cbn; unfold is_word, word_size; lia|]). constructor.
  - apply (bool_decide_unpack _). vm_compute. exact I.
  - intros n Hn. assert (Hn2 : n = 8128 \/ n = 8256).
    { cbn in Hn. apply elem_of_cons in Hn as [->|Hn]; [by left|]. apply list_elem_of_singleton in Hn. by right. }
    destruct Hn2 as [-> | ->]; (constructor; [unfold is_addr; lia|by apply (bool_decide_unpack _); vm_compute|]);
      (eexists; split; [vm_compute; reflexivity|reflexivity]).
Qed.

Lemma rbtree_transactions_witness :
  (exists tx0 tx1, tree_end.2 = [Ret (Ok [Some 1; Some 0], tx0); Ret (Ok [Some 1; Some 1], tx1)]) /\
  exists results sched M' h' N',
    Forall2 (fun os rs => length os = length rs) tree_ops results /\
    (forall i rs, results !! i = Some rs -> exists tx, tree_end.2 !! i = Some (Ret (Ok (Some <$> rs), tx))) /\
    interleaving (zip_with (fun os rs => zip os.*2 rs) tree_ops results) sched /\
    spec_ops (sched.*2.*1) ∅ = (sched.*2.*2, M') /\
    map_at compareKeysDefault (fun k => 0 <= k < 2 ^ 63) h' 8000 [0] N' M' /\ holds h' (words tree_end.1).
Proof.
  split; [exact tree_results|].
  apply (rbtree_transactions compareKeysDefault (fun k => 0 <= k < 2 ^ 63) demo_config 20 9 tree_ops ext_spec demo_start
    tree_end.1 tree_end.2 tree_heap 8000 [0] [] ∅).
  - exact tree_setup.
  - exact tree_reachable.
  - exact tree_done.
  - exact tree_empty.
  - exact tree_layout.
  - exact tree_holds.
  - exact tree_ops_ok.
  - unfold enough_for. rewrite map_size_empty. cbn. lia.
Defined.
