(* ===== verification/RBVerify.v ===== *)
(** * Red-black trees: the integrity check

    [rbtree_verify] walks the tree in order, comparing each key with the next one,
    and computes the black height.  It accepts every tree of the implementation;
    it also accepts trees that are not balanced.  What it prints is left out. *)
From S2P Require Import Prelude Words Objects RBTree RBShape RBPure RBOrder RBMap RBFix RBErase RBOps.
Open Scope obj_scope.

(** ** The code *)

(** [child != NULL && child->p != its]: the access *)
Definition check_parent (child : Z) : oprog unit :=
  if child =? NULL then ORet tt else let@ _p := ldf child f_p in ORet tt.

Fixpoint verifyRedBlack (fuel : nat) (root : Z) : oprog Z :=
  match fuel with
  | O => OFail
  | S fuel =>
      if root =? NULL then ORet 1
      else
        let@ l := ldf root f_l in
        let@ height_left := verifyRedBlack fuel l in
        let@ r := ldf root f_r in
        let@ height_right := verifyRedBlack fuel r in
        if (height_left =? 0) || (height_right =? 0) then ORet 0
        else
          do@ check_parent l;
          do@ check_parent r;
          let@ c := ldf root f_c in
          if c =? RED then
            let@ cl := (if negb (l =? NULL) then ldf l f_c else ORet BLACK) in
            if negb (cl =? BLACK) then ORet 0
            else
              let@ cr := (if negb (r =? NULL) then ldf r f_c else ORet BLACK) in
              if negb (cr =? BLACK) then ORet 0 else ORet height_left
          else if negb (c =? BLACK) then ORet 0
          else ORet (height_left + 1)
  end.

Definition firstEntry (fuel : nat) (s : Z) : oprog Z :=
  let@ p := ldf s f_root in
  if negb (p =? NULL) then leftmost fuel p else ORet p.

(** [while (its != NULL)]: -3 if a key is not below the next one *)
Fixpoint verify_walk (compare : Z -> Z -> Z) (turns fuel : nat) (its : Z) : oprog Z :=
  match turns with
  | O => OFail
  | S turns =>
      if its =? NULL then ORet 0
      else
        do@ (let@ child := ldf its f_l in check_parent child);
        do@ (let@ child := ldf its f_r in check_parent child);
        let@ nxt := successor fuel its in
        if nxt =? NULL then ORet 0
        else
          let@ k1 := ldf its f_k in
          let@ k2 := ldf nxt f_k in
          if 0 <=? compare k1 k2 then ORet (-3) else verify_walk compare turns fuel nxt
  end.

Definition rbtree_verify (compare : Z -> Z -> Z) (turns fuel : nat) (s : Z) : oprog Z :=
  let@ root := ldf s f_root in
  if root =? NULL then ORet 1
  else
    let@ p := ldf root f_p in
    if negb (p =? NULL) then ORet (-1)
    else
      let@ its := firstEntry fuel s in
      let@ r := verify_walk compare turns fuel its in
      if r =? 0 then verifyRedBlack fuel root else ORet r.

(** ** The black height *)

(** What [verifyRedBlack] computes *)
Fixpoint verified (t : tree) : Z :=
  match t with
  | E => 1
  | T c l _ _ _ r =>
      if (verified l =? 0) || (verified r =? 0) then 0
      else match c with
           | Red => if decide (color_of l = Black /\ color_of r = Black) then verified l else 0
           | Black => verified l + 1
           end
  end.

Lemma verified_rb n t : rb n t -> verified t = Z.of_nat n + 1.
Proof.
  revert n. induction t as [|[] l IHl a k v r IHr]; intros n; cbn [rb verified].
  - by intros ->.
  - intros (Hl & Hr & H1 & H2). rewrite (IHl n H1), (IHr n H2).
    rewrite (proj2 (Z.eqb_neq _ _)) by lia. cbn [orb]. by rewrite decide_True.
  - destruct n as [|n]; [done|]. intros [H1 H2]. rewrite (IHl n H1), (IHr n H2).
    rewrite (proj2 (Z.eqb_neq _ _)) by lia. cbn [orb]. lia.
Qed.

Section Verify.

Context (compare : Z -> Z -> Z) (valid : Z -> Prop) `{!KeyOrder compare valid}.
Context (h0 : gmap Z (list Z)) (A : list Z) (s : Z) (rest : list Z).

Local Abbreviation at_focus := (at_focus h0 A s rest).

(** A subtree that may be empty *)
Lemma focus_root h x t :
  at_focus h x t ->
  (t = E /\ root_of t = NULL) \/ (root_of t <> NULL /\ exists k v l r, h !! root_of t = Some (node k v (parent x) l r (color_of t))).
Proof.
  intros Hf. destruct t as [|c l a k v r]; [by left|right]. destruct (focus_node _ _ _ _ _ _ _ _ _ _ _ _ Hf) as [Ha Hn].
  split; [done|]. by eexists _, _, _, _.
Qed.

Lemma run_check_parent h x t : at_focus h x t -> run (check_parent (root_of t)) h = Some (tt, h).
Proof.
  intros Hf. unfold check_parent. destruct (focus_root _ _ _ Hf) as [[_ ->]|(Hne & k & v & l & r & Hn)]; [done|].
  rewrite (proj2 (Z.eqb_neq _ _) Hne). by erewrite run_ldf by done.
Qed.

Lemma run_child_color h x t :
  at_focus h x t ->
  run (if negb (root_of t =? NULL) then ldf (root_of t) f_c else ORet BLACK) h = Some (cv (color_of t), h).
Proof.
  intros Hf. destruct (focus_root _ _ _ Hf) as [[-> ->]|(Hne & k & v & l & r & Hn)]; [done|].
  rewrite (proj2 (Z.eqb_neq _ _) Hne). cbn. by rewrite Hn.
Qed.

Lemma verifyRedBlack_focus fuel : forall h x t,
  at_focus h x t -> (height t < fuel)%nat ->
  run (verifyRedBlack fuel (root_of t)) h = Some (verified t, h).
Proof.
  induction fuel as [|fuel IH]; intros h x t Hf Hh; [lia|]. cbn [verifyRedBlack]. destruct t as [|c l a k v r]; [done|].
  cbn [height] in Hh. destruct (focus_node _ _ _ _ _ _ _ _ _ _ _ _ Hf) as [Ha Hn]. cbn [root_of verified].
  refocus_at Hf (FL c a k v r :: x) l Hl. refocus_at Hf (FR c l a k v :: x) r Hr.
  rewrite (proj2 (Z.eqb_neq _ _) Ha). erewrite run_ldf by done.
  rewrite (run_bind_ok _ _ _ _ _ (IH h _ l Hl ltac:(lia))). erewrite run_ldf by done.
  rewrite (run_bind_ok _ _ _ _ _ (IH h _ r Hr ltac:(lia))). destruct ((verified l =? 0) || (verified r =? 0)); [done|].
  rewrite (run_bind_ok _ _ _ _ _ (run_check_parent _ _ _ Hl)), (run_bind_ok _ _ _ _ _ (run_check_parent _ _ _ Hr)).
  erewrite run_ldf by done. change RED with (cv Red). rewrite cv_red. destruct c; [|done].
  rewrite bool_decide_true by done. rewrite (run_bind_ok _ _ _ _ _ (run_child_color _ _ _ Hl)), cv_black.
  destruct (color_of l) eqn:Hcl; [by rewrite decide_False by (intros [? ?]; congruence)|].
  rewrite bool_decide_true by done. cbn [negb]. rewrite (run_bind_ok _ _ _ _ _ (run_child_color _ _ _ Hr)), cv_black.
  destruct (color_of r) eqn:Hcr; [by rewrite decide_False by (intros [? ?]; congruence)|by rewrite decide_True].
Qed.

(** ** The walk *)

(** The next node above, for a node without a right child *)
Fixpoint next_up (x : ctx) (t : tree) : option (ctx * tree) :=
  match x with
  | [] => None
  | FL c a k v r :: x => Some (x, T c t a k v r)
  | FR c l a k v :: x => next_up x (T c l a k v t)
  end.

Definition next (x : ctx) (t : tree) : option (ctx * tree) :=
  match t with
  | T c l a k v ((T _ _ _ _ _ _) as r) => Some (lmost (FR c l a k v :: x) r)
  | _ => next_up x t
  end.

Lemma climb_focus fuel : forall h x t,
  at_focus h x t -> t <> E -> (length x < fuel)%nat ->
  run (climb fuel (parent x) (root_of t)) h = Some (match next_up x t with Some (_, t') => root_of t' | None => NULL end, h).
Proof.
  induction fuel as [|fuel IH]; intros h x t Hf Ht Hh; [lia|]. destruct x as [|f x]; [done|]. cbn [length] in Hh.
  cbn [climb parent]. destruct f as [c a k v r|c l a k v]; cbn [faddr next_up].
  - refocus_at Hf x (T c t a k v r) Hfx. destruct (focus_node _ _ _ _ _ _ _ _ _ _ _ _ Hfx) as [Ha Hn].
    rewrite (proj2 (Z.eqb_neq _ _) Ha). erewrite run_ldf by done.
    destruct t as [|ct tl b tk tv tr]; [done|]. pose proof Hf as Hf'. open_focus Hf'. cbn [root_of]. steps. done.
  - refocus_at Hf x (T c l a k v t) Hfx. destruct (focus_node _ _ _ _ _ _ _ _ _ _ _ _ Hfx) as [Ha Hn].
    rewrite (proj2 (Z.eqb_neq _ _) Ha). erewrite run_ldf by done. rewrite Z.eqb_refl. erewrite run_ldf by done.
    by apply (IH h x (T c l a k v t)); [|done|lia].
Qed.

Lemma successor_focus fuel h x c l a k v r :
  at_focus h x (T c l a k v r) -> (length x < fuel)%nat -> (height r <= fuel)%nat ->
  run (successor fuel a) h =
    Some (match next x (T c l a k v r) with Some (_, t') => root_of t' | None => NULL end, h).
Proof.
  intros Hf Hx Hr. destruct (focus_node _ _ _ _ _ _ _ _ _ _ _ _ Hf) as [Ha Hn]. unfold successor.
  rewrite (proj2 (Z.eqb_neq _ _) Ha). erewrite run_ldf by done. destruct r as [|cr rl ra rk rv rr].
  - cbn [root_of]. rewrite Z.eqb_refl. cbn [negb]. erewrite run_ldf by done. by apply (climb_focus fuel h x (T c l a k v E)).
  - refocus_at Hf (FR c l a k v :: x) (T cr rl ra rk rv rr) Hfr.
    destruct (focus_node _ _ _ _ _ _ _ _ _ _ _ _ Hfr) as [Hra _]. cbn [root_of]. rewrite (proj2 (Z.eqb_neq _ _) Hra). cbn [negb].
    erewrite run_ldf by done. cbn [next]. rewrite (leftmost_focus _ _ _ _ fuel h _ (T cr rl ra rk rv rr) Hfr) by done.
    by destruct (lmost _ _).
Qed.
(** What comes after a node, in order *)
Definition afterwards (x : ctx) (t : tree) : list (Z * Z) :=
  match t with E => rights x | T _ _ _ _ _ r => inorder r ++ rights x end.

Lemma next_up_after x : forall t,
  match next_up x t with
  | Some (x', T c l a k v r) => plug x' (T c l a k v r) = plug x t /\ rights x = (k, v) :: afterwards x' (T c l a k v r)
  | Some (_, E) => False
  | None => rights x = []
  end.
Proof.
  induction x as [|[c a k v r|c l a k v] x IH]; intros t; cbn; [done|done|]. apply (IH (T c l a k v t)).
Qed.

Lemma next_after x c l a k v r :
  match next x (T c l a k v r) with
  | Some (x', T c' l' a' k' v' r') =>
      plug x' (T c' l' a' k' v' r') = plug x (T c l a k v r) /\
      afterwards x (T c l a k v r) = (k', v') :: afterwards x' (T c' l' a' k' v' r')
  | Some (_, E) => False
  | None => afterwards x (T c l a k v r) = []
  end.
Proof.
  destruct (tree_E_dec r) as [->|Hr]; [apply (next_up_after x (T c l a k v E))|].
  assert (Hnext : next x (T c l a k v r) = Some (lmost (FR c l a k v :: x) r)) by (by destruct r). rewrite Hnext.
  destruct (lmost_node r Hr) as (cb & b & kb & vb & br & Hb). pose proof (lmost_plug r (FR c l a k v :: x)) as Hp.
  pose proof (lmost_lefts r) as Hll. pose proof (lmost_plug r []) as Hpr. rewrite Hb in Hpr.
  assert (Hir : inorder r = (kb, vb) :: inorder br ++ rights (lmost [] r).1).
  { transitivity (inorder (plug (lmost [] r).1 (T cb E b kb vb br))); [by rewrite Hpr|]. by rewrite inorder_plug, Hll. }
  rewrite lmost_app in Hp |- *. rewrite Hb in Hp |- *. cbn [fst snd] in *. split; [exact Hp|]. cbn [afterwards].
  rewrite Hir, rights_app. cbn. by rewrite <- app_assoc.
Qed.

Lemma node_before x c l a k v r : inorder (plug x (T c l a k v r)) = (lefts x ++ inorder l) ++ (k, v) :: afterwards x (T c l a k v r).
Proof. rewrite inorder_plug. cbn. by rewrite <- !app_assoc. Qed.

Lemma verify_walk_focus turns fuel : forall h x c l a k v r,
  at_focus h x (T c l a k v r) -> sorted compare valid (inorder (plug x (T c l a k v r))) ->
  (height (plug x (T c l a k v r)) <= fuel)%nat -> (length (afterwards x (T c l a k v r)) < turns)%nat ->
  run (verify_walk compare turns fuel a) h = Some (0, h).
Proof.
  induction turns as [|turns IH]; intros h x c l a k v r Hf Hs Hh Ht; [lia|]. cbn [verify_walk].
  destruct (focus_node _ _ _ _ _ _ _ _ _ _ _ _ Hf) as [Ha Hn]. rewrite (proj2 (Z.eqb_neq _ _) Ha).
  refocus_at Hf (FL c a k v r :: x) l Hl. refocus_at Hf (FR c l a k v :: x) r Hr.
  rewrite run_assoc. erewrite run_ldf by done. rewrite (run_bind_ok _ _ _ _ _ (run_check_parent _ _ _ Hl)).
  rewrite run_assoc. erewrite run_ldf by done. rewrite (run_bind_ok _ _ _ _ _ (run_check_parent _ _ _ Hr)).
  pose proof (height_plug x (T c l a k v r)) as Hhp. cbn [height] in Hhp.
  pose proof (successor_focus fuel h x c l a k v r Hf ltac:(lia) ltac:(lia)) as Hsucc.
  rewrite (run_bind_ok _ _ _ _ _ Hsucc). pose proof (next_after x c l a k v r) as Hnx.
  destruct (next x (T c l a k v r)) as [[x' [|c' l' a' k' v' r']]|]; [done| |done]. destruct Hnx as [Hp Hafter].
  assert (Hf' : at_focus h x' (T c' l' a' k' v' r')) by (by refine (refocus _ _ _ _ _ _ _ _ _ _ Hf)).
  destruct (focus_node _ _ _ _ _ _ _ _ _ _ _ _ Hf') as [Ha' Hn']. cbn [root_of]. rewrite (proj2 (Z.eqb_neq _ _) Ha').
  erewrite run_ldf by done. erewrite run_ldf by done. pose proof Hs as Hs2. rewrite node_before, Hafter in Hs2.
  apply sorted_mid in Hs2 as (_ & _ & _ & Hk). apply list.Forall_cons in Hk as [Hk _]. cbn in Hk.
  rewrite (proj2 (Z.leb_gt _ _)) by done. apply (IH h x' c' l' a' k' v' r' Hf'); [by rewrite Hp|by rewrite Hp|].
  rewrite Hafter in Ht. cbn [length] in Ht. lia.
Qed.

Lemma verify_focus turns fuel h t n :
  at_focus h [] t -> rb n t -> sorted compare valid (inorder t) -> (height t < fuel)%nat -> (RBPure.size t < turns)%nat ->
  run (rbtree_verify compare turns fuel s) h = Some (if decide (t = E) then 1 else Z.of_nat n + 1, h).
Proof.
  intros Hf Hrb Hs Hh Ht. unfold rbtree_verify. erewrite run_ldf by (apply (fo_root _ _ _ _ _ _ _ Hf) || done). cbn [top].
  destruct t as [|c l a k v r] eqn:Et; [done|]. rewrite <- Et in *. assert (Hne : t <> E) by (by rewrite Et).
  rewrite decide_False by done.
  assert (Hroot : root_of t <> NULL) by (subst; by destruct (focus_node _ _ _ _ _ _ _ _ _ _ _ _ Hf)).
  rewrite (proj2 (Z.eqb_neq _ _) Hroot).
  assert (Hp : run (ldf (root_of t) f_p) h = Some (NULL, h)).
  { subst. destruct (focus_node _ _ _ _ _ _ _ _ _ _ _ _ Hf) as [_ Hn]. cbn. by rewrite Hn. }
  rewrite (run_bind_ok _ _ _ _ _ Hp). rewrite Z.eqb_refl. cbn [negb].
  pose proof (leftmost_focus _ _ _ _ fuel h [] t Hf Hne ltac:(lia)) as Hlm.
  assert (Hfirst : run (firstEntry fuel s) h = Some (root_of (lmost [] t).2, h)).
  { unfold firstEntry. erewrite run_ldf by (apply (fo_root _ _ _ _ _ _ _ Hf) || done). cbn [top].
    by rewrite (proj2 (Z.eqb_neq _ _) Hroot). }
  rewrite (run_bind_ok _ _ _ _ _ Hfirst). destruct (lmost_node t Hne) as (cb & b & kb & vb & rb' & Hb).
  pose proof (lmost_plug t []) as Hpl. pose proof (lmost_lefts t) as Hll. rewrite Hb in *. cbn [root_of].
  set (y := (lmost [] t).1) in *. assert (Hfy : at_focus h y (T cb E b kb vb rb')) by (by refine (refocus _ _ _ _ _ _ _ _ _ _ Hf)).
  assert (Hwalk : run (verify_walk compare turns fuel b) h = Some (0, h)).
  { apply (verify_walk_focus turns fuel h y cb E b kb vb rb' Hfy); [by rewrite Hpl|rewrite Hpl; cbn; lia|].
    pose proof (node_before y cb E b kb vb rb') as Hnb. rewrite Hpl, Hll in Hnb. cbn [plug] in Hnb.
    pose proof (length_inorder t) as Hlen. rewrite Hnb in Hlen. cbn [inorder app length afterwards] in *. lia. }
  rewrite (run_bind_ok _ _ _ _ _ Hwalk). cbn. rewrite (verifyRedBlack_focus fuel h [] t Hf Hh). by rewrite (verified_rb n t Hrb).
Qed.

End Verify.

(** ** Disposal *)

Lemma free_focus h0 A s rest fuel : forall h x t,
  at_focus h0 A s rest h x t -> (height t < fuel)%nat -> run (freeNode fuel (root_of t)) h = Some (tt, h).
Proof.
  induction fuel as [|fuel IH]; intros h x t Hf Hh; [lia|]. cbn [freeNode]. destruct t as [|c l a k v r]; [done|].
  cbn [height] in Hh. destruct (focus_node _ _ _ _ _ _ _ _ _ _ _ _ Hf) as [Ha Hn]. cbn [root_of].
  refocus_at Hf (FL c a k v r :: x) l Hl. refocus_at Hf (FR c l a k v :: x) r Hr.
  rewrite (proj2 (Z.eqb_neq _ _) Ha). rewrite run_assoc. erewrite run_ldf by done.
  rewrite (run_bind_ok _ _ _ _ _ (IH h _ l Hl ltac:(lia))). rewrite run_assoc. erewrite run_ldf by done.
  rewrite (run_bind_ok _ _ _ _ _ (IH h _ r Hr ltac:(lia))). cbn. by rewrite Hn.
Qed.

(** Every node is released, and none is accessed that is not in the tree. *)
Lemma free_map compare valid `{!KeyOrder compare valid} fuel h s rest N M :
  map_at compare valid h s rest N M -> enough fuel M -> run (rbtree_free fuel s) h = Some (tt, h).
Proof.
  intros Hm He. destruct (map_at_height _ _ _ _ _ _ _ _ He Hm) as (t & Hf & _ & _ & _ & Hh).
  pose proof (fo_root _ _ _ _ _ _ _ Hf) as Hs. unfold rbtree_free. rewrite run_assoc. erewrite run_ldf by (exact Hs || done).
  cbn [top]. rewrite (run_bind_ok _ _ _ _ _ (free_focus _ _ _ _ fuel h [] t Hf ltac:(lia))). cbn. by rewrite Hs.
Qed.

(** ** The theorems *)

(** [rbtree_verify] accepts every tree that the implementation can build: it
    returns 1 for the empty tree and otherwise one more than the number of black
    nodes on each path, which is logarithmic in the number of keys. *)
Theorem rbtree_verify_accepts compare valid `{!KeyOrder compare valid} turns fuel h s rest N M :
  map_at compare valid h s rest N M -> (base.size M < turns)%nat -> enough fuel M ->
  exists n, run (rbtree_verify compare turns fuel s) h = Some (n, h) /\ 1 <= n <= Z.of_nat (Nat.log2 (S (base.size M))) + 1.
Proof.
  intros Hm Ht He. destruct (map_at_height _ _ _ _ _ _ _ _ He Hm) as (t & Hf & [Hc [n Hrb]] & Hs & HM & Hh).
  pose proof (rb_size n t Hrb) as Hsz. apply Nat.log2_le_mono in Hsz. rewrite Nat.log2_pow2 in Hsz by lia.
  assert (Hsize : base.size M = RBPure.size t) by (by rewrite <- HM, (map_of_size compare valid _ Hs), length_inorder).
  rewrite Hsize in *. eexists. split.
  - apply (verify_focus compare valid _ _ _ _ turns fuel h t n Hf Hrb Hs); [lia|done].
  - destruct (decide (t = E)); lia.
Qed.

(** Three black nodes in a row: on the left two of them below the root, on the
    right none *)
Definition unbalanced : gmap Z (list Z) :=
  <[800 := [808; 0]]> (<[808 := [30; 0; 0; 864; 0; 1]]> (<[864 := [20; 0; 808; 920; 0; 1]]> {[920 := [10; 0; 864; 0; 0; 1]]})).

(** [rbtree_verify] returns a black height also for a tree that is not red-black:
    paths with different numbers of black nodes are only reported on the output. *)
Theorem verify_accepts_unbalanced :
  (run (rbtree_verify compareKeysDefault 4 8 800) unbalanced) = Some (4, unbalanced) /\
  let t := T Black (T Black (T Black E 920 10 0 E) 864 20 0 E) 808 30 0 E in
  rb_at unbalanced 800 [0] t /\ ~ red_black t.
Proof.
  split; [vm_compute; reflexivity|]. split.
  - constructor; [reflexivity|cbn; split_and!; try done|]. split; [|repeat (apply list.Forall_cons; split; [unfold is_addr; lia|]); constructor].
    apply (bool_decide_unpack _). vm_compute. exact I.
  - intros [_ [n Hn]]. destruct n as [|[|[|[|]]]]; cbn in Hn; destr; done.
Qed.

Lemma rbtree_verify_accepts_witness :
  exists n, run (rbtree_verify compareKeysDefault 2 5 8000) (<[8000 := [8064; 0]]> (<[8064 := [40; 1; 0; 0; 0; 1]]> ∅)) =
      Some (n, <[8000 := [8064; 0]]> (<[8064 := [40; 1; 0; 0; 0; 1]]> ∅)) /\
    1 <= n <= Z.of_nat (Nat.log2 (S (base.size (<[40 := 1]> ∅ : gmap Z Z)))) + 1.
Proof.
  apply (rbtree_verify_accepts compareKeysDefault (fun k => 0 <= k < 2 ^ 63) 2 5 _ 8000 [0] [8064] (<[40 := 1]> ∅)).
  - exists (T Black E 8064 40 1 E). split_and!; [|split; [done|by exists 1%nat]| |done|done].
    + constructor; [reflexivity|cbn; split_and!; done|]. split; [|repeat (apply list.Forall_cons; split; [unfold is_addr; lia|]); constructor].
      apply (bool_decide_unpack _). vm_compute. exact I.
    + split; [repeat constructor|]. apply list.Forall_cons. split; [cbn; lia|constructor].
  - rewrite map_size_insert_None by done. rewrite map_size_empty. lia.
  - unfold enough. rewrite map_size_insert_None by done. rewrite map_size_empty. cbn. lia.
Defined.
