(* ===== verification/SList.v ===== *)
(** * The sorted list of TPCC/lib/list.c

    A linked list whose head is part of the list object, in the order of [compare],
    built without duplicates (LIST_NO_DUPLICATES).  As for the red-black trees, a
    function is one program of Objects.v that stands for the direct version and
    for the transactional one.  The latter reads the data of nodes, which no one writes
    after the insertion, and in its assertion the size, with direct accesses, and fills
    in new nodes with direct stores; here they are accesses like the others.  The
    theorem says that the list object implements a list of
    data that is kept sorted. *)
From stdpp Require Import sorting.
From S2P Require Import Prelude Words Objects RBTree RBShape RBPure RBOrder.
Open Scope obj_scope.

(** ** The functions *)

(** [list_node_t], which is also how [list_t] begins *)
Definition f_data : nat := 0.
Definition f_next : nat := 1.
Definition f_compare : nat := 2.
Definition f_size : nat := 3.

(** [((long)a - (long)b)], as for the keys of a tree *)
Definition compareDataPtrAddresses : Z -> Z -> Z := compareKeysDefault.

(** An iterator is the address of the node it has passed. *)
Definition list_iter_reset (s : Z) : Z := s.

Definition list_iter_hasNext (it : Z) : oprog Z :=
  let@ next := ldf it f_next in ORet (c_bool (negb (next =? NULL))).

(** The new iterator and the data *)
Definition list_iter_next (it : Z) : oprog (Z * Z) :=
  let@ next := ldf it f_next in
  let@ d := ldf next f_data in
  ORet (next, d).

(** [n] is what malloc returns. *)
Definition allocNode (n data : Z) : oprog Z :=
  if n =? NULL then ORet NULL
  else do@ stf n f_data data; do@ stf n f_next NULL; ORet n.

(** [compare] is the value of the function pointer, or of the default. *)
Definition list_alloc (s compare : Z) : oprog Z :=
  if s =? NULL then ORet NULL
  else
    do@ stf s f_data NULL;
    do@ stf s f_next NULL;
    do@ stf s f_size 0;
    do@ stf s f_compare compare;
    ORet s.

Definition freeNode (n : Z) : oprog unit := touch n.

(** The recursive call comes first: the nodes are freed from the last one. *)
Fixpoint freeList (fuel : nat) (n : Z) : oprog unit :=
  match fuel with
  | O => OFail
  | S fuel =>
      if n =? NULL then ORet tt
      else let@ next := ldf n f_next in do@ freeList fuel next; freeNode n
  end.

Definition list_free (fuel : nat) (s : Z) : oprog unit :=
  let@ first := ldf s f_next in do@ freeList fuel first; touch s.

Definition list_isEmpty (s : Z) : oprog Z :=
  let@ first := ldf s f_next in ORet (c_bool (first =? NULL)).

Definition list_getSize (s : Z) : oprog Z := ldf s f_size.

Section Code.

Context (compare : Z -> Z -> Z).

Fixpoint find_loop (fuel : nat) (prev node data : Z) : oprog Z :=
  match fuel with
  | O => OFail
  | S fuel =>
      if node =? NULL then ORet prev
      else
        let@ d := ldf node f_data in
        if 0 <=? compare d data then ORet prev
        else let@ next := ldf node f_next in find_loop fuel node next data
  end.

Definition findPrevious (fuel : nat) (s data : Z) : oprog Z :=
  let@ first := ldf s f_next in find_loop fuel s first data.

Definition list_find (fuel : nat) (s data : Z) : oprog Z :=
  let@ prev := findPrevious fuel s data in
  let@ node := ldf prev f_next in
  if node =? NULL then ORet NULL
  else
    let@ d := ldf node f_data in
    if negb (compare d data =? 0) then ORet NULL else ldf node f_data.

(** [n] is what malloc returns. *)
Definition list_insert (fuel : nat) (s data n : Z) : oprog Z :=
  let@ prev := findPrevious fuel s data in
  let@ curr := ldf prev f_next in
  let@ dup :=
    (if curr =? NULL then ORet false
     else let@ d := ldf curr f_data in ORet (compare d data =? 0)) in
  if dup : bool then ORet 0
  else
    let@ node := allocNode n data in
    if node =? NULL then ORet 0
    else
      do@ stf node f_next curr;
      do@ stf prev f_next node;
      let@ size := ldf s f_size in
      do@ stf s f_size (size + 1);
      ORet 1.

Definition list_remove (fuel : nat) (s data : Z) : oprog Z :=
  let@ prev := findPrevious fuel s data in
  let@ node := ldf prev f_next in
  let@ found :=
    (if node =? NULL then ORet false
     else let@ d := ldf node f_data in ORet (compare d data =? 0)) in
  if found : bool then
    let@ next := ldf node f_next in
    do@ stf prev f_next next;
    do@ stf node f_next NULL;
    do@ freeNode node;
    let@ size := ldf s f_size in
    do@ stf s f_size (size - 1);
    let@ size := ldf s f_size in
    if size <? 2 ^ 63 then ORet 1 else OFail      (* assert(listPtr->size >= 0) *)
  else ORet 0.

Definition list_clear (fuel : nat) (s : Z) : oprog unit :=
  let@ first := ldf s f_next in
  do@ freeList fuel first;
  do@ stf s f_next NULL;
  stf s f_size 0.

End Code.

(** The other names: [P_MALLOC] and [P_FREE] are malloc and free. *)
Definition TMlist_iter_reset := list_iter_reset.
Definition TMlist_iter_hasNext := list_iter_hasNext.
Definition TMlist_iter_next := list_iter_next.
Definition PallocNode := allocNode.
Definition TMallocNode := allocNode.
Definition Plist_alloc := list_alloc.
Definition TMlist_alloc := list_alloc.
Definition PfreeNode := freeNode.
Definition TMfreeNode := freeNode.
Definition PfreeList := freeList.
Definition TMfreeList := freeList.
Definition Plist_free := list_free.
Definition TMlist_free := list_free.
Definition TMlist_isEmpty := list_isEmpty.
Definition TMlist_getSize := list_getSize.
Definition TMfindPrevious := findPrevious.
Definition TMlist_find := list_find.
Definition Plist_insert := list_insert.
Definition TMlist_insert := list_insert.
Definition Plist_remove := list_remove.
Definition TMlist_remove := list_remove.
Definition Plist_clear := list_clear.

(** ** The list that a heap holds *)

(** A node has its address, its data, and the words that follow. *)
Local Abbreviation cell := (Z * Z * list Z)%type.

Definition addr (c : cell) : Z := c.1.1.
Definition data (c : cell) : Z := c.1.2.

Definition first (cs : list cell) (q : Z) : Z := match cs with [] => q | c :: _ => addr c end.

(** The nodes are linked, the last one to [q]. *)
Fixpoint chain (h : gmap Z (list Z)) (cs : list cell) (q : Z) : Prop :=
  match cs with
  | [] => True
  | (a, d, rest) :: cs => h !! a = Some (d :: first cs q :: rest) /\ chain h cs q
  end.

Definition node (ad : Z * Z) : cell := (ad.1, ad.2, []).

(** The object [s] with the nodes [ns], each with its address and its data *)
Record list_at (h : gmap Z (list Z)) (s cmp : Z) (ns : list (Z * Z)) : Prop := {
  la_chain : chain h ((s, NULL, [cmp; Z.of_nat (length ns)]) :: (node <$> ns)) NULL;
  la_nodup : NoDup (s :: ns.*1);
  la_addr : Forall is_addr (s :: ns.*1);
  la_data : Forall is_word ns.*2 }.

Lemma first_app l1 l2 q : first (l1 ++ l2) q = first l1 (first l2 q).
Proof. by destruct l1. Qed.

Lemma chain_app h l1 l2 q : chain h (l1 ++ l2) q <-> chain h l1 (first l2 q) /\ chain h l2 q.
Proof.
  induction l1 as [|[[a d] rest] l1 IH]; cbn; [tauto|]. rewrite IH, first_app. tauto.
Qed.

Lemma chain_frame h h' l q : (forall c, c ∈ l -> h' !! addr c = h !! addr c) -> chain h l q -> chain h' l q.
Proof.
  induction l as [|[[a d] rest] l IH]; cbn; [done|]. intros Hf [Ha Hc]. split.
  - rewrite <- Ha. apply (Hf (a, d, rest)). by left.
  - apply IH; [|done]. intros c Hin. apply Hf. by right.
Qed.

(** ** The list of data *)

Section Spec.

Context (compare : Z -> Z -> Z).

Definition below (q : Z) (d : Z) : bool := compare d q <? 0.

(** The elements that [findPrevious] passes, and the others *)
Fixpoint passed (q : Z) (ds : list Z) : list Z :=
  match ds with [] => [] | d :: ds => if below q d then d :: passed q ds else [] end.

Fixpoint left_over (q : Z) (ds : list Z) : list Z :=
  match ds with [] => [] | d :: ds' => if below q d then left_over q ds' else ds end.

Definition hit (q : Z) (ds : list Z) : bool :=
  match left_over q ds with d :: _ => compare d q =? 0 | [] => false end.

(** What the operations are to do *)
Inductive list_op :=
| LInsert (d n : Z)
| LRemove (d : Z)
| LFind (d : Z)
| LEmpty
| LSize.

Definition spec_list (o : list_op) (ds : list Z) : Z * list Z :=
  match o with
  | LInsert d _ => if hit d ds then (0, ds) else (1, passed d ds ++ d :: left_over d ds)
  | LRemove d => if hit d ds then (1, passed d ds ++ tail (left_over d ds)) else (0, ds)
  | LFind d => (if hit d ds then default NULL (head (left_over d ds)) else NULL, ds)
  | LEmpty => (c_bool (bool_decide (ds = [])), ds)
  | LSize => (Z.of_nat (length ds), ds)
  end.

Definition run_list (fuel : nat) (s : Z) (o : list_op) : oprog Z :=
  match o with
  | LInsert d n => list_insert compare fuel s d n
  | LRemove d => list_remove compare fuel s d
  | LFind d => list_find compare fuel s d
  | LEmpty => list_isEmpty s
  | LSize => list_getSize s
  end.

Lemma passed_left_over q ds : passed q ds ++ left_over q ds = ds.
Proof. induction ds as [|d ds IH]; cbn; [done|]. destruct (below q d); [|done]. cbn. by rewrite IH. Qed.

End Spec.

(** ** Where [findPrevious] stops *)

Fixpoint last_addr (p : Z) (l : list (Z * Z)) : Z :=
  match l with [] => p | (a, _) :: l => last_addr a l end.

Lemma last_cell s d0 r0 pre : exists l0 d rest,
  (s, d0, r0) :: (node <$> pre) = l0 ++ [(last_addr s pre, d, rest)] /\ (pre = [] -> d = d0 /\ rest = r0).
Proof.
  revert s d0 r0. induction pre as [|[a d] pre IH]; intros s d0 r0; cbn.
  - by exists [], d0, r0.
  - destruct (IH a d []) as (l0 & d' & rest & He & _). exists ((s, d0, r0) :: l0), d', rest.
    split; [|done]. change (((s, d0, r0) :: ((a, d, []) :: (node <$> pre))) = ((s, d0, r0) :: (l0 ++ [(last_addr a pre, d', rest)]))). by rewrite He.
Qed.

Lemma addrs_node l : addr <$> (node <$> l) = l.*1.
Proof. rewrite <- list_fmap_compose. done. Qed.

Lemma relink h l0 p d rest q q' :
  chain h (l0 ++ [(p, d, rest)]) q -> p ∉ (addr <$> l0) ->
  chain (<[p := d :: q' :: rest]> h) (l0 ++ [(p, d, rest)]) q'.
Proof.
  rewrite !chain_app. cbn. intros [Hc _] Hp. split; [|by rewrite lookup_insert_eq].
  eapply chain_frame; [|exact Hc]. intros c Hin. rewrite lookup_insert_ne; [done|]. intros ->. apply Hp.
  by apply list_elem_of_fmap_2.
Qed.

Lemma chain_store h cs q a ob : chain h cs q -> a ∉ (addr <$> cs) -> chain (<[a := ob]> h) cs q.
Proof.
  intros Hc Ha. eapply chain_frame; [|exact Hc]. intros c Hin. rewrite lookup_insert_ne; [done|]. intros ->. apply Ha.
  by apply list_elem_of_fmap_2.
Qed.

Lemma chain_rest h s d rest rest' cs q :
  chain h ((s, d, rest) :: cs) q -> s ∉ (addr <$> cs) ->
  chain (<[s := d :: first cs q :: rest']> h) ((s, d, rest') :: cs) q.
Proof. cbn. intros [_ Hc] Hs. split; [apply lookup_insert_eq|]. by apply chain_store. Qed.

(** The field is one of the object. *)
Ltac in_object := apply Nat.ltb_lt; reflexivity.

Section Run.

Context (compare : Z -> Z -> Z).

Lemma find_loop_run fuel : forall h ns prev q,
  chain h (node <$> ns) NULL -> Forall is_addr ns.*1 -> (length ns < fuel)%nat ->
  run (find_loop compare fuel prev (first (node <$> ns) NULL) q) h =
  Some (last_addr prev (take (length (passed compare q ns.*2)) ns), h).
Proof.
  induction fuel as [|fuel IH]; intros h ns prev q Hc Ha Hl; [lia|]. cbn [find_loop].
  destruct ns as [|[a d] ns]; cbn [fmap list_fmap first node addr fst snd] in *; [done|].
  cbn [chain node fst snd] in Hc. destruct Hc as [Ho Hc]. apply list.Forall_cons in Ha as [Ha Has].
  rewrite (proj2 (Z.eqb_neq _ _)) by (by apply addr_ne). erewrite run_ldf by done.
  cbn [passed]. unfold below. destruct (Z.leb_spec 0 (compare d q)) as [Hge|Hlt].
  - rewrite (proj2 (Z.ltb_ge _ _)) by done. done.
  - rewrite (proj2 (Z.ltb_lt _ _)) by done. erewrite run_ldf by done.
    cbn [length] in Hl. rewrite (IH h ns a q Hc Has) by lia. done.
Qed.

(** The list, cut where [findPrevious] stops *)
Record cut (h : gmap Z (list Z)) (s cmp : Z) (q : Z) (pre post : list (Z * Z)) : Prop := {
  ct_at : list_at h s cmp (pre ++ post);
  ct_pre : pre.*2 = passed compare q (pre ++ post).*2;
  ct_post : post.*2 = left_over compare q (pre ++ post).*2 }.

Lemma findPrevious_run fuel h s cmp ns q :
  list_at h s cmp ns -> (length ns < fuel)%nat ->
  exists pre post, ns = pre ++ post /\ cut h s cmp q pre post /\
    run (findPrevious compare fuel s q) h = Some (last_addr s pre, h).
Proof.
  intros Hl Hf. set (k := length (passed compare q ns.*2)). exists (take k ns), (drop k ns).
  assert (Hns : take k ns ++ drop k ns = ns) by apply take_drop.
  assert (Hd : passed compare q ns.*2 ++ left_over compare q ns.*2 = ns.*2) by apply passed_left_over.
  split_and!; [done| |].
  - constructor; rewrite Hns; [done| |].
    + rewrite fmap_take. transitivity (take k (passed compare q ns.*2 ++ left_over compare q ns.*2)); [by rewrite Hd|].
      apply take_app_length.
    + rewrite fmap_drop. transitivity (drop k (passed compare q ns.*2 ++ left_over compare q ns.*2)); [by rewrite Hd|].
      apply drop_app_length.
  - destruct Hl as [[Hs Hc] Hn [_ Ha]%list.Forall_cons _]. unfold findPrevious. erewrite run_ldf by done.
    by apply find_loop_run.
Qed.

(** The node before the cut, its link, and the parts of the chain *)
Lemma cut_prev h s cmp q pre post :
  cut h s cmp q pre post ->
  exists l0 d rest, (s, NULL, [cmp; Z.of_nat (length (pre ++ post))]) :: (node <$> pre) = l0 ++ [(last_addr s pre, d, rest)] /\
    h !! last_addr s pre = Some (d :: first (node <$> post) NULL :: rest) /\
    chain h (l0 ++ [(last_addr s pre, d, rest)]) (first (node <$> post) NULL) /\ chain h (node <$> post) NULL /\
    (last_addr s pre ∉ (addr <$> l0)) /\ (last_addr s pre ∉ post.*1) /\ is_addr (last_addr s pre).
Proof.
  intros [[Hc Hn Ha _] _ _]. destruct (last_cell s NULL [cmp; Z.of_nat (length (pre ++ post))] pre) as (l0 & d & rest & He & _).
  exists l0, d, rest. rewrite fmap_app in Hc.
  rewrite app_comm_cons in Hc.
  rewrite He in Hc. pose proof Hc as Hc2. apply chain_app in Hc as [Hc1 Hpost].
  pose proof (proj1 (chain_app _ _ _ _) Hc1) as [_ Hlast]. cbn in Hlast.
  pose proof (f_equal (fmap addr) He) as Hadd. rewrite fmap_cons, addrs_node, fmap_app in Hadd. cbn [addr fst fmap list_fmap] in Hadd.
  rewrite fmap_app, app_comm_cons, Hadd in Hn, Ha. apply list.NoDup_app in Hn as (Hn1 & Hd & _).
  apply list.NoDup_app in Hn1 as (_ & Hd1 & _). split_and!; try done; try apply Hlast.
  - intros Hin. apply (Hd1 _ Hin). by apply list_elem_of_singleton.
  - apply Hd. apply elem_of_app. right. by apply list_elem_of_singleton.
  - rewrite !list.Forall_app in Ha. by destruct Ha as [[_ [Ha _]%list.Forall_cons] _].
Qed.

(** The size word, once the chain is right *)
Lemma set_size h s cmp ns m :
  chain h ((s, NULL, [cmp; m]) :: (node <$> ns)) NULL -> NoDup (s :: ns.*1) -> Forall is_addr (s :: ns.*1) ->
  Forall is_word ns.*2 ->
  let h' := <[s := [NULL; first (node <$> ns) NULL; cmp; Z.of_nat (length ns)]]> h in list_at h' s cmp ns.
Proof.
  intros Hc Hn Ha Hd. cbv zeta. constructor; try done.
  apply (chain_rest h s NULL [cmp; m]); [done|]. rewrite addrs_node. by apply list.NoDup_cons in Hn as [Hn _].
Qed.

Lemma last_addr_in s pre post : last_addr s pre ∈ s :: (pre ++ post).*1.
Proof.
  revert s. induction pre as [|[a d] pre IH]; intros s; cbn; [by left|]. right. apply IH.
Qed.

Lemma first_word post : Forall is_addr post.*1 -> is_word (first (node <$> post) NULL).
Proof.
  destruct post as [|[a d] post]; cbn; [done|]. intros [Ha _]%list.Forall_cons.
  unfold is_addr, is_word, word_size in *. lia.
Qed.

(** A new node, as malloc returns it *)
Record new_node (h : gmap Z (list Z)) (s : Z) (ns : list (Z * Z)) (n : Z) : Prop := {
  nn_addr : is_addr n;
  nn_new : n ∉ s :: ns.*1;
  nn_obj : exists ob, h !! n = Some ob /\ length ob = 2%nat }.

Definition only_list (h h' : gmap Z (list Z)) (s : Z) (A : list Z) : Prop :=
  forall a, a <> s -> a ∉ A -> h' !! a = h !! a.

(** The link out of the cut, which the first node of the rest answers *)
Lemma run_hit {B} (g : bool -> oprog B) h q post :
  chain h (node <$> post) NULL -> Forall is_addr post.*1 ->
  run (obind (if first (node <$> post) NULL =? NULL then ORet false
              else obind (ldf (first (node <$> post) NULL) f_data) (fun d => ORet (compare d q =? 0))) g) h =
  run (g (match post.*2 with d :: _ => compare d q =? 0 | [] => false end)) h.
Proof.
  destruct post as [|[a d] post]; cbn [fmap list_fmap first node addr fst snd]; [done|].
  intros [Ho _] [Ha _]%list.Forall_cons. rewrite (proj2 (Z.eqb_neq _ _)) by (by apply addr_ne).
  rewrite run_assoc. by erewrite run_ldf by done.
Qed.

Lemma cut_hit h s cmp q pre post :
  cut h s cmp q pre post -> match post.*2 with d :: _ => compare d q =? 0 | [] => false end = hit compare q (pre ++ post).*2.
Proof. intros [_ _ Hp]. unfold hit. by rewrite <- Hp. Qed.

Lemma insert_run fuel h s cmp ns q n :
  list_at h s cmp ns -> (length ns < fuel)%nat -> Z.of_nat (length ns) + 1 < 2 ^ 63 -> is_word q -> new_node h s ns n ->
  exists h' ns', run (list_insert compare fuel s q n) h = Some ((spec_list compare (LInsert q n) ns.*2).1, h') /\
    list_at h' s cmp ns' /\ ns'.*2 = (spec_list compare (LInsert q n) ns.*2).2 /\ only_list h h' s (n :: ns.*1) /\
    (forall a, a ∈ ns'.*1 -> a ∈ n :: ns.*1).
Proof.
  intros Hl Hf Hsz Hq Hn. destruct (findPrevious_run fuel h s cmp ns q Hl Hf) as (pre & post & -> & Hcut & Hr).
  destruct (cut_prev _ _ _ _ _ _ Hcut) as (l0 & d & rest & He & Hp & Hc1 & Hc2 & Hnl & Hnp & Hpa).
  pose proof (cut_hit _ _ _ _ _ _ Hcut) as Hh. destruct Hl as [Hc Hnd Ha Hd].
  pose proof Ha as [Hsa Ha2]%list.Forall_cons. rewrite fmap_app in Ha2. apply list.Forall_app in Ha2 as [_ Hpost].
  set (curr := first (node <$> post) NULL) in *.
  assert (Hcw : is_word curr) by (by apply first_word).
  unfold list_insert. rewrite (run_bind_ok _ _ _ _ _ Hr). erewrite run_ldf by done.
  unfold curr at 1. rewrite run_hit by done. rewrite Hh. cbn [spec_list]. destruct (hit compare q (pre ++ post).*2).
  { exists h, (pre ++ post). split_and!; try done. intros a Hin. by right. }
  destruct Hn as [Hna Hnew (ob & Hob & Hlen)]. destruct ob as [|x [|y [|]]]; try done.
  unfold allocNode. rewrite (proj2 (Z.eqb_neq n NULL)) by (by apply addr_ne).
  assert (Halloc : run (do@ stf n f_data q; do@ stf n f_next NULL; ORet n) h = Some (n, <[n := [q; NULL]]> h)).
  { cbn. rewrite Hob. cbn. rewrite lookup_insert_eq. cbn. by rewrite insert_insert_eq, (w64_id q) by done. }
  rewrite (run_bind_ok _ _ _ _ _ Halloc). rewrite (proj2 (Z.eqb_neq n NULL)) by (by apply addr_ne).
  rewrite (run_stf _ n f_next curr _ [q; NULL]) by first [apply lookup_insert_eq | in_object]. cbn [insert list_insert f_data f_next].
  rewrite insert_insert_eq, (w64_id curr) by done.
  set (h1 := <[n := [q; curr]]> h).
  assert (Hnn : n <> last_addr s pre) by (intros ->; by apply Hnew, last_addr_in).
  assert (Hp1 : h1 !! last_addr s pre = Some (d :: curr :: rest)) by (by unfold h1; rewrite lookup_insert_ne).
  rewrite (run_stf _ _ _ _ _ _ Hp1) by in_object. cbn [insert list_insert]. rewrite (w64_addr n) by done.
  set (h2 := <[last_addr s pre := d :: n :: rest]> h1).
  assert (Hnew' : (n ∉ (addr <$> (l0 ++ [(last_addr s pre, d, rest)]))) /\ (n ∉ post.*1)).
  { rewrite <- He, fmap_cons, addrs_node. rewrite fmap_app, app_comm_cons, not_elem_of_app in Hnew. exact Hnew. }
  destruct Hnew' as [Hnw1 Hnw2].
  assert (Hfull : chain h2 ((s, NULL, [cmp; Z.of_nat (length (pre ++ post))]) :: (node <$> (pre ++ (n, q) :: post))) NULL).
  { rewrite fmap_app, app_comm_cons, He. apply chain_app. split.
    - apply (relink _ _ _ _ _ curr); [|done]. by apply chain_store.
    - cbn [fmap list_fmap node fst snd chain]. split.
      + unfold h2. rewrite lookup_insert_ne by done. apply lookup_insert_eq.
      + apply chain_store; [|by rewrite addrs_node]. apply chain_store; [done|]. by rewrite addrs_node. }
  pose proof Hfull as [Hs2 _]. erewrite run_ldf by done. rewrite (run_stf _ _ _ _ _ _ Hs2) by in_object.
  cbn [insert list_insert f_size run]. rewrite w64_id by (unfold is_word, word_size; lia).
  replace (Z.of_nat (length (pre ++ post)) + 1) with (Z.of_nat (length (pre ++ (n, q) :: post))) by (rewrite !length_app; cbn; lia).
  eexists _, (pre ++ (n, q) :: post). split_and!; [done| | | |].
  - eapply set_size; [exact Hfull| | |].
    + rewrite fmap_app, fmap_cons. cbn [fst]. rewrite <- Permutation_middle, <- fmap_app.
      rewrite Permutation_swap. by apply list.NoDup_cons.
    + rewrite fmap_app, fmap_cons. cbn [fst]. rewrite <- Permutation_middle, <- fmap_app. rewrite Permutation_swap. by constructor.
    + rewrite fmap_app, fmap_cons. cbn [snd]. rewrite <- Permutation_middle, <- fmap_app. by constructor.
  - rewrite !fmap_app, fmap_cons. cbn [snd]. rewrite <- fmap_app. by rewrite <- (ct_pre _ _ _ _ _ _ Hcut), <- (ct_post _ _ _ _ _ _ Hcut).
  - intros a Has Han. apply not_elem_of_cons in Han as [Han Hans]. rewrite lookup_insert_ne by done.
    unfold h2. rewrite lookup_insert_ne; [unfold h1; by rewrite lookup_insert_ne|]. intros Heq.
    pose proof (last_addr_in s pre post) as Hin. rewrite Heq in Hin. by apply elem_of_cons in Hin as [Hin|Hin].
  - intros a. rewrite fmap_app, fmap_cons. cbn [fst]. by rewrite <- Permutation_middle, <- fmap_app.
Qed.

Lemma remove_run fuel h s cmp ns q :
  list_at h s cmp ns -> (length ns < fuel)%nat -> Z.of_nat (length ns) < 2 ^ 63 ->
  exists h' ns', run (list_remove compare fuel s q) h = Some ((spec_list compare (LRemove q) ns.*2).1, h') /\
    list_at h' s cmp ns' /\ ns'.*2 = (spec_list compare (LRemove q) ns.*2).2 /\ only_list h h' s ns.*1 /\
    (forall a, a ∈ ns'.*1 -> a ∈ ns.*1).
Proof.
  intros Hl Hf Hsz. destruct (findPrevious_run fuel h s cmp ns q Hl Hf) as (pre & post & -> & Hcut & Hr).
  destruct (cut_prev _ _ _ _ _ _ Hcut) as (l0 & d & rest & He & Hp & Hc1 & Hc2 & Hnl & Hnp & Hpa).
  pose proof (cut_hit _ _ _ _ _ _ Hcut) as Hh. destruct Hl as [Hc Hnd Ha Hd].
  pose proof Ha as [Hsa Ha2]%list.Forall_cons. rewrite fmap_app in Ha2. apply list.Forall_app in Ha2 as [_ Hpost].
  unfold list_remove. rewrite (run_bind_ok _ _ _ _ _ Hr). erewrite run_ldf by done.
  rewrite run_hit by done. rewrite Hh. cbn [spec_list]. destruct (hit compare q (pre ++ post).*2).
  2:{ exists h, (pre ++ post). by split_and!. }
  destruct post as [|[x dx] post]; [done|]. cbn [fmap list_fmap first node addr fst snd] in *.
  pose proof Hpost as [Hxa Hpost2]%list.Forall_cons. destruct Hc2 as [Hx Hc2].
  apply not_elem_of_cons in Hnp as [Hpx Hnp].
  assert (Hxp : (x ∉ post.*1) /\ (x ∉ (addr <$> (l0 ++ [(last_addr s pre, d, rest)])))).
  { rewrite <- He, fmap_cons, addrs_node. rewrite fmap_app, fmap_cons in Hnd. cbn [fst] in Hnd.
    rewrite app_comm_cons in Hnd. apply list.NoDup_app in Hnd as (_ & Hdis & [Hx1 _]%list.NoDup_cons).
    split; [done|]. intros Hin. apply (Hdis x Hin). by left. }
  destruct Hxp as [Hxp Hxl].
  erewrite run_ldf by done. set (next := first (node <$> post) NULL) in *.
  assert (Hnw : is_word next) by (by apply first_word).
  rewrite (run_stf _ _ _ _ _ _ Hp) by in_object. cbn [insert list_insert f_next]. rewrite (w64_id next) by done.
  set (h1 := <[last_addr s pre := d :: next :: rest]> h).
  assert (Hx1 : h1 !! x = Some [dx; next]) by (unfold h1; rewrite lookup_insert_ne by congruence; done).
  rewrite (run_stf _ _ _ _ _ _ Hx1) by in_object. cbn [insert list_insert f_next]. rewrite w64_null.
  set (h2 := <[x := [dx; NULL]]> h1).
  assert (Htouch : run (freeNode x) h2 = Some (tt, h2)) by (cbn; unfold h2; by rewrite lookup_insert_eq).
  rewrite (run_bind_ok _ _ _ _ _ Htouch).
  assert (Hfull : chain h2 ((s, NULL, [cmp; Z.of_nat (length (pre ++ (x, dx) :: post))]) :: (node <$> (pre ++ post))) NULL).
  { rewrite fmap_app, app_comm_cons, He. apply chain_app. split.
    - apply chain_store; [|done]. by eapply relink.
    - apply chain_store; [|by rewrite addrs_node]. apply chain_store; [done|]. by rewrite addrs_node. }
  assert (Hlen : Z.of_nat (length (pre ++ (x, dx) :: post)) = Z.of_nat (length (pre ++ post)) + 1).
  { rewrite !length_app. cbn. lia. }
  pose proof Hfull as [Hs2 _]. erewrite run_ldf by done. rewrite (run_stf _ _ _ _ _ _ Hs2) by in_object.
  cbn [insert list_insert f_size]. erewrite run_ldf by (apply lookup_insert_eq || done).
  rewrite Hlen in *. rewrite w64_id by (unfold is_word, word_size; lia).
  replace (Z.of_nat (length (pre ++ post)) + 1 - 1) with (Z.of_nat (length (pre ++ post))) by lia.
  rewrite (proj2 (Z.ltb_lt _ _)) by lia. cbn [run].
  assert (Hsub : forall {B} (f : Z * Z -> B), f <$> (pre ++ (x, dx) :: post) ≡ₚ f (x, dx) :: (f <$> (pre ++ post))).
  { intros B f. rewrite !fmap_app, fmap_cons. by rewrite Permutation_middle. }
  pose proof (Hsub _ fst) as Hs1. pose proof (Hsub _ snd) as Hs3. cbn [fst snd] in Hs1, Hs3.
  eexists _, (pre ++ post). split_and!; [done| | | |].
  - eapply set_size; [exact Hfull| | |].
    + rewrite Hs1, Permutation_swap in Hnd. by apply list.NoDup_cons in Hnd as [_ Hnd].
    + rewrite Hs1, Permutation_swap in Ha. by apply list.Forall_cons in Ha as [_ Ha].
    + rewrite Hs3 in Hd. by apply list.Forall_cons in Hd as [_ Hd].
  - rewrite <- (ct_pre _ _ _ _ _ _ Hcut), <- (ct_post _ _ _ _ _ _ Hcut). by rewrite fmap_app.
  - intros a Has Han. rewrite lookup_insert_ne by done. rewrite Hs1 in Han. apply not_elem_of_cons in Han as [Hax Han].
    unfold h2. rewrite lookup_insert_ne by done. unfold h1. rewrite lookup_insert_ne; [done|]. intros Heq.
    pose proof (last_addr_in s pre post) as Hin. rewrite Heq in Hin. by apply elem_of_cons in Hin as [Hin|Hin].
  - intros a Hin. rewrite Hs1. by right.
Qed.

Lemma find_run fuel h s cmp ns q :
  list_at h s cmp ns -> (length ns < fuel)%nat ->
  run (list_find compare fuel s q) h = Some ((spec_list compare (LFind q) ns.*2).1, h).
Proof.
  intros Hl Hf. destruct (findPrevious_run fuel h s cmp ns q Hl Hf) as (pre & post & -> & Hcut & Hr).
  destruct (cut_prev _ _ _ _ _ _ Hcut) as (l0 & d & rest & _ & Hp & _ & Hc2 & _).
  pose proof (cut_hit _ _ _ _ _ _ Hcut) as Hh. destruct Hl as [_ _ [_ Ha]%list.Forall_cons _].
  rewrite fmap_app in Ha. apply list.Forall_app in Ha as [_ Hpost].
  unfold list_find. rewrite (run_bind_ok _ _ _ _ _ Hr). erewrite run_ldf by done. cbn [spec_list].
  rewrite <- (ct_post _ _ _ _ _ _ Hcut). destruct post as [|[x dx] post]; cbn [fmap list_fmap first node addr fst snd] in *.
  - by rewrite <- Hh.
  - destruct Hc2 as [Hx _]. apply list.Forall_cons in Hpost as [Hxa _].
    rewrite (proj2 (Z.eqb_neq _ _)) by (by apply addr_ne). erewrite run_ldf by done. rewrite <- Hh.
    cbn [fst snd]. destruct (compare dx q =? 0); cbn [negb]; [|done]. cbn [fst] in Hx. cbn. by rewrite Hx.
Qed.

(** *** Walking along the list *)

(** The iterator has passed the nodes [pre]. *)
Lemma iter_run h s cmp pre post :
  list_at h s cmp (pre ++ post) ->
  run (list_iter_hasNext (last_addr (list_iter_reset s) pre)) h = Some (c_bool (bool_decide (post <> [])), h) /\
  (forall x d post', post = (x, d) :: post' ->
     run (list_iter_next (last_addr (list_iter_reset s) pre)) h = Some ((last_addr (list_iter_reset s) (pre ++ [(x, d)]), d), h)).
Proof.
  intros Hl. unfold list_iter_reset, list_iter_hasNext, list_iter_next.
  destruct (last_cell s NULL [cmp; Z.of_nat (length (pre ++ post))] pre) as (l0 & d & rest & He & _).
  destruct Hl as [Hc _ [_ Ha]%list.Forall_cons _]. rewrite fmap_app, app_comm_cons, He in Hc.
  apply chain_app in Hc as [[_ [Hp _]]%chain_app Hpost]. rewrite fmap_app in Ha. apply list.Forall_app in Ha as [_ Ha]. split.
  - erewrite run_ldf by done. destruct post as [|[x y] post]; cbn; [done|].
    cbn in Ha. apply list.Forall_cons in Ha as [Hx _]. by rewrite (proj2 (Z.eqb_neq _ _)) by (by apply addr_ne).
  - intros x y post' ->. erewrite run_ldf by done. destruct Hpost as [Hx _]. cbn [first fmap list_fmap node addr fst snd].
    cbn [fst snd] in Hx. erewrite run_ldf by done. cbn. f_equal. f_equal. f_equal. clear. revert s.
    induction pre as [|[a b] pre IH]; intros s; [done|]. apply IH.
Qed.

(** *** Disposal *)

Lemma freeList_run fuel : forall h ns, chain h (node <$> ns) NULL -> Forall is_addr ns.*1 -> (length ns < fuel)%nat ->
  run (freeList fuel (first (node <$> ns) NULL)) h = Some (tt, h).
Proof.
  induction fuel as [|fuel IH]; intros h ns Hc Ha Hf; [lia|]. cbn [freeList].
  destruct ns as [|[a d] ns]; cbn [fmap list_fmap first node addr fst snd chain] in *; [done|].
  destruct Hc as [Ho Hc]. apply list.Forall_cons in Ha as [Ha Has]. rewrite (proj2 (Z.eqb_neq _ _)) by (by apply addr_ne).
  erewrite run_ldf by done. cbn [length] in Hf. rewrite (run_bind_ok _ _ _ _ _ (IH h ns Hc Has ltac:(lia))). cbn. by rewrite Ho.
Qed.

Lemma free_run fuel h s cmp ns :
  list_at h s cmp ns -> (length ns < fuel)%nat -> run (list_free fuel s) h = Some (tt, h).
Proof.
  intros [[Hs Hc] _ [_ Ha]%list.Forall_cons _] Hf. unfold list_free. erewrite run_ldf by done.
  rewrite (run_bind_ok _ _ _ _ _ (freeList_run fuel h ns Hc Ha Hf)). cbn. by rewrite Hs.
Qed.

Lemma clear_run fuel h s cmp ns :
  list_at h s cmp ns -> (length ns < fuel)%nat -> exists h', run (list_clear fuel s) h = Some (tt, h') /\ list_at h' s cmp [] /\
    only_list h h' s [].
Proof.
  intros [[Hs Hc] Hn Ha _] Hf. apply list.Forall_cons in Ha as [Hsa Ha]. unfold list_clear. erewrite run_ldf by done.
  rewrite (run_bind_ok _ _ _ _ _ (freeList_run fuel h ns Hc Ha Hf)).
  rewrite (run_stf _ _ _ _ _ _ Hs) by in_object. cbn. rewrite lookup_insert_eq. cbn. eexists. split; [done|]. split.
  - constructor; cbn; [|apply NoDup_singleton|by constructor|constructor]. by rewrite lookup_insert_eq.
  - intros a Has _. by rewrite !lookup_insert_ne.
Qed.

Lemma alloc_run h s cmp ob :
  is_addr s -> is_word cmp -> h !! s = Some ob -> length ob = 4%nat ->
  exists h', run (list_alloc s cmp) h = Some (s, h') /\ list_at h' s cmp [] /\ only_list h h' s [].
Proof.
  intros Hs Hc Ho Hl. destruct ob as [|a [|b [|c [|d [|]]]]]; try done. unfold list_alloc.
  rewrite (proj2 (Z.eqb_neq _ _)) by (by apply addr_ne). cbn. rewrite Ho. cbn. rewrite !lookup_insert_eq. cbn. eexists. split; [done|]. rewrite !insert_insert_eq. split.
  - constructor; cbn; [|apply NoDup_singleton|by constructor|constructor]. by rewrite lookup_insert_eq, (w64_id cmp).
  - intros x Hx _. by rewrite lookup_insert_ne.
Qed.

(** *** All operations *)

Definition list_op_new (o : list_op) : list Z := match o with LInsert _ n => [n] | _ => [] end.

Definition list_op_ok (h : gmap Z (list Z)) (s : Z) (ns : list (Z * Z)) (o : list_op) : Prop :=
  match o with LInsert d n => is_word d /\ new_node h s ns n | _ => True end.

Lemma list_op_run fuel h s cmp ns o :
  list_at h s cmp ns -> (length ns < fuel)%nat -> Z.of_nat (length ns) + 1 < 2 ^ 63 -> list_op_ok h s ns o ->
  exists h' ns', run (run_list compare fuel s o) h = Some ((spec_list compare o ns.*2).1, h') /\
    list_at h' s cmp ns' /\ ns'.*2 = (spec_list compare o ns.*2).2 /\
    only_list h h' s (list_op_new o ++ ns.*1) /\ (forall a, a ∈ ns'.*1 -> a ∈ list_op_new o ++ ns.*1).
Proof.
  intros Hl Hf Hsz Ho. destruct o as [d n|d|d| |]; cbn [run_list list_op_new app].
  - destruct Ho as [Hd Hn]. by apply insert_run.
  - apply remove_run; [done|done|lia].
  - exists h, ns. rewrite (find_run fuel h s cmp ns d Hl Hf). by split_and!.
  - exists h, ns. pose proof (la_chain _ _ _ _ Hl) as [Hs _]. unfold list_isEmpty. erewrite run_ldf by done.
    split_and!; [|done..]. cbn. destruct ns as [|[a x] ns]; cbn; [done|].
    pose proof (la_addr _ _ _ _ Hl) as [_ [Ha _]%list.Forall_cons]%list.Forall_cons. cbn in Ha.
    by rewrite (proj2 (Z.eqb_neq _ _)) by (by apply addr_ne).
  - exists h, ns. pose proof (la_chain _ _ _ _ Hl) as [Hs _]. unfold list_getSize. cbn. rewrite Hs. cbn.
    rewrite length_fmap. by split_and!.
Qed.

End Run.

(** ** What the sorted list means *)

Section Meaning.

Context (compare : Z -> Z -> Z) (valid : Z -> Prop) `{!KeyOrder compare valid}.

Definition increasing (ds : list Z) : Prop := StronglySorted (fun a b => compare a b < 0) ds /\ Forall valid ds.

Lemma increasing_cut q ds :
  increasing ds -> valid q ->
  Forall (fun d => compare d q < 0) (passed compare q ds) /\
  Forall (fun d => compare d q = 0 \/ compare q d < 0) (left_over compare q ds) /\
  increasing (passed compare q ds) /\ increasing (left_over compare q ds).
Proof.
  intros [Hs Hv] Hq. induction Hs as [|d ds Hs IH Hd]; cbn; [by repeat constructor|].
  apply list.Forall_cons in Hv as [Hvd Hv]. specialize (IH Hv). unfold below. destruct (Z.ltb_spec (compare d q) 0) as [Hlt|Hge].
  - destruct IH as (H1 & H2 & [H3 H4] & H5). split_and!; [by constructor|done| |done].
    split; [|by constructor]. constructor; [done|]. rewrite <- (passed_left_over compare q ds) in Hd. by apply list.Forall_app in Hd as [Hd _].
  - split_and!; [constructor| |split; constructor|split; by constructor].
    assert (Hqd : compare d q = 0 \/ compare q d < 0).
    { destruct (decide (compare d q = 0)) as [|Hn]; [by left|right]. apply (ko_flip d q); [done|done|lia]. }
    constructor; [done|]. rewrite list.Forall_forall in *. intros e He. right. destruct Hqd as [H0|H0].
    + apply (ko_eq d q) in H0; [|done|done]. subst d. by apply Hd.
    + apply (ko_trans q d e); auto.
Qed.

Lemma increasing_app l1 l2 :
  increasing (l1 ++ l2) <-> increasing l1 /\ increasing l2 /\ (forall a b, a ∈ l1 -> b ∈ l2 -> compare a b < 0).
Proof. unfold increasing. rewrite StronglySorted_app, list.Forall_app. tauto. Qed.

(** The elements equal to [q] *)
Lemma hit_iff q ds : increasing ds -> valid q -> hit compare q ds = true <-> q ∈ ds.
Proof.
  intros Hs Hq. destruct (increasing_cut q ds Hs Hq) as (Hp & Hl & _ & [Hls Hlv]). unfold hit.
  rewrite <- (passed_left_over compare q ds) at 2. rewrite elem_of_app.
  assert (Hnp : q ∉ passed compare q ds).
  { intros Hin. rewrite list.Forall_forall in Hp. specialize (Hp q Hin). by apply (compare_irrefl compare valid q Hq). }
  destruct (left_over compare q ds) as [|d l]; [split; [done|]; intros [|Hin%elem_of_nil]; done|].
  apply list.Forall_cons in Hl as [Hd Hl]. apply list.Forall_cons in Hlv as [Hvd Hlv]. apply StronglySorted_inv in Hls as [_ Hdl].
  rewrite Z.eqb_eq, (ko_eq d q) by done. split.
  - intros ->. right. by left.
  - intros [|[->|Hin]%elem_of_cons]; [done|done|]. rewrite list.Forall_forall in Hdl, Hl.
    destruct Hd as [Hd|Hd]; [by apply (ko_eq d q) in Hd|]. exfalso. apply (compare_irrefl compare valid q Hq).
    apply (ko_trans q d q); try done. by apply Hdl.
Qed.

(** The list stays in order, and holds the data that a set would. *)
Lemma spec_list_set o ds :
  increasing ds -> match o with LInsert d _ | LRemove d | LFind d => valid d | _ => True end ->
  increasing (spec_list compare o ds).2 /\
  match o with
  | LInsert d _ => (spec_list compare o ds).1 = c_bool (bool_decide (d ∉ ds)) /\
      (forall x, x ∈ (spec_list compare o ds).2 <-> x = d \/ x ∈ ds)
  | LRemove d => (spec_list compare o ds).1 = c_bool (bool_decide (d ∈ ds)) /\
      (forall x, x ∈ (spec_list compare o ds).2 <-> x <> d /\ x ∈ ds)
  | LFind d => (spec_list compare o ds).1 = (if bool_decide (d ∈ ds) then d else NULL) /\ (spec_list compare o ds).2 = ds
  | LEmpty | LSize => (spec_list compare o ds).2 = ds
  end.
Proof.
  assert (Hall : forall q, increasing ds -> valid q ->
    let p := passed compare q ds in let l := left_over compare q ds in
    ds = p ++ l /\ increasing p /\ increasing l /\ (forall a, a ∈ p -> compare a q < 0) /\
    (forall b, b ∈ l -> b = q \/ compare q b < 0)).
  { intros q Hs Hq. destruct (increasing_cut q ds Hs Hq) as (Hp & Hl & Hps & Hls). cbv zeta.
    rewrite list.Forall_forall in Hp, Hl. split_and!; [by rewrite passed_left_over|done..|].
    intros b Hb. destruct (Hl b Hb) as [H0|]; [|by right]. left. apply (ko_eq b q); [|done|done].
    destruct Hls as [_ Hv]. rewrite list.Forall_forall in Hv. by apply Hv. }
  intros Hs Ho. destruct o as [d n|d|d| |]; cbn [spec_list fst snd]; try done.
  - pose proof (hit_iff d ds Hs Ho) as Hh. destruct (Hall d Hs Ho) as (Hds & Hp & Hl & Hpq & Hlq).
    destruct (hit compare d ds); cbn [fst snd].
    + assert (Hin : d ∈ ds) by (by apply Hh). split; [done|]. rewrite bool_decide_eq_false_2 by tauto. split; [done|].
      intros x. split; [by right|]. by intros [->|].
    + assert (Hnin : d ∉ ds) by (rewrite <- Hh; done). rewrite bool_decide_eq_true_2 by done.
      split; [|split; [done|]].
      * apply increasing_app. split_and!; [done| |].
        -- destruct Hl as [Hl1 Hl2]. split; [|by constructor]. constructor; [done|]. apply list.Forall_forall. intros b Hb.
           destruct (Hlq b Hb) as [->|]; [|done]. exfalso. apply Hnin. rewrite Hds, elem_of_app. by right.
        -- intros a b Ha [->|Hb]%elem_of_cons; [by apply Hpq|]. rewrite Hds in Hs. by apply increasing_app in Hs as (_ & _ & Hab); auto.
      * intros x. rewrite Hds at 3. rewrite !elem_of_app, elem_of_cons. tauto.
  - pose proof (hit_iff d ds Hs Ho) as Hh. destruct (Hall d Hs Ho) as (Hds & Hp & Hl & Hpq & Hlq).
    unfold hit in *. destruct (left_over compare d ds) as [|e l] eqn:He.
    { assert (Hnin : d ∉ ds) by (rewrite <- Hh; done). rewrite bool_decide_eq_false_2 by done. split_and!; [done|done|].
      intros x. split; [|tauto]. intros Hx. split; [by intros ->|done]. }
    destruct (Z.eqb_spec (compare e d) 0) as [H0|H0]; cbn [fst snd].
    + assert (Hin : d ∈ ds) by (by apply Hh). rewrite bool_decide_eq_true_2 by done.
      assert (e = d) as ->.
      { destruct Hl as [_ [Hve _]%list.Forall_cons]. by apply (ko_eq e d). }
      rewrite Hds in Hs. pose proof Hs as Hs2. apply increasing_app in Hs as (_ & Hdl & Hab). cbn [list.tail].
      destruct Hdl as [[Hll Hdl]%StronglySorted_inv [_ Hvl]%list.Forall_cons]. rewrite list.Forall_forall in Hdl. split.
      { apply increasing_app. split_and!; [done|done|]. intros a b Ha Hb. apply Hab; [done|by right]. }
      assert (Hel : forall x, x ∈ ds <-> x ∈ passed compare d ds \/ x = d \/ x ∈ l).
      { intros x. rewrite Hds at 1. by rewrite elem_of_app, elem_of_cons. }
      split; [done|]. intros x. rewrite Hel, elem_of_app. split; [|tauto].
      intros Hx. split; [|tauto]. intros ->. apply (compare_irrefl compare valid d Ho). destruct Hx as [Hx|Hx]; auto.
    + assert (Hnin : d ∉ ds) by (rewrite <- Hh; done). rewrite bool_decide_eq_false_2 by done. split_and!; [done|done|].
      intros x. split; [|tauto]. intros Hx. split; [by intros ->|done].
  - pose proof (hit_iff d ds Hs Ho) as Hh. destruct (Hall d Hs Ho) as (Hds & Hp & Hl & Hpq & Hlq). split; [done|split; [|done]].
    unfold hit in *. destruct (left_over compare d ds) as [|e l] eqn:He.
    { rewrite bool_decide_eq_false_2; [done|]. rewrite <- Hh. done. }
    destruct (Z.eqb_spec (compare e d) 0) as [H0|H0].
    + rewrite bool_decide_eq_true_2 by (by apply Hh). cbn. destruct Hl as [_ [Hve _]%list.Forall_cons]. by apply (ko_eq e d).
    + rewrite bool_decide_eq_false_2; [done|]. rewrite <- Hh. done.
Qed.

End Meaning.

(** ** The theorem *)

Section Theorems.

Context (compare : Z -> Z -> Z) (valid : Z -> Prop) `{!KeyOrder compare valid}.

(** C39. Every operation on a list object returns what it should of the set of the
    data in the list, and leaves a list object with the data it should, which stay
    in increasing order without duplicates; with more turns than the list has
    nodes it always ends, and no other object changes. *)
Theorem list_refines_set fuel h s cmp ns o :
  list_at h s cmp ns -> increasing compare valid ns.*2 ->
  (length ns < fuel)%nat -> Z.of_nat (length ns) + 1 < 2 ^ 63 -> list_op_ok h s ns o ->
  match o with LInsert d _ | LRemove d | LFind d => valid d | _ => True end ->
  exists r h' ns', run (run_list compare fuel s o) h = Some (r, h') /\
    list_at h' s cmp ns' /\ increasing compare valid ns'.*2 /\
    only_list h h' s (list_op_new o ++ ns.*1) /\ (forall a, a ∈ ns'.*1 -> a ∈ list_op_new o ++ ns.*1) /\
    match o with
    | LInsert d _ => r = c_bool (bool_decide (d ∉ ns.*2)) /\ forall x, x ∈ ns'.*2 <-> x = d \/ x ∈ ns.*2
    | LRemove d => r = c_bool (bool_decide (d ∈ ns.*2)) /\ forall x, x ∈ ns'.*2 <-> x <> d /\ x ∈ ns.*2
    | LFind d => r = (if bool_decide (d ∈ ns.*2) then d else NULL) /\ ns'.*2 = ns.*2
    | LEmpty => r = c_bool (bool_decide (ns.*2 = [])) /\ ns'.*2 = ns.*2
    | LSize => r = Z.of_nat (length ns) /\ ns'.*2 = ns.*2
    end.
Proof.
  intros Hl Hs Hf Hsz Ho Hv. destruct (list_op_run compare fuel h s cmp ns o Hl Hf Hsz Ho) as (h' & ns' & Hr & Hl' & Hd & Hon & Hsub).
  destruct (spec_list_set compare valid o ns.*2 Hs Hv) as [Hs' Hm]. rewrite <- Hd in Hs', Hm.
  exists (spec_list compare o ns.*2).1, h', ns'. split_and!; try done.
  destruct o; try done.
  split; [|done]. cbn. by rewrite length_fmap.
Qed.

End Theorems.

#[export] Instance address_order : KeyOrder compareDataPtrAddresses (fun k => 0 <= k < 2 ^ 63) := default_order.

(** Two nodes; a third is inserted between them *)
Definition demo_list : gmap Z (list Z) :=
  <[8000 := [0; 8128; 0; 2]]> (<[8128 := [10; 8192]]> (<[8192 := [30; 0]]> {[8256 := [7; 7]]})).

Lemma demo_list_at : list_at demo_list 8000 0 [(8128, 10); (8192, 30)].
Proof.
  constructor.
  - cbn. by split_and!.
  - apply (bool_decide_unpack _). vm_compute. exact I.
  - repeat (apply list.Forall_cons; split; [unfold is_addr; cbn; lia|]). constructor.
  - repeat (apply list.Forall_cons; split; [unfold is_word, word_size; cbn; lia|]). constructor.
Qed.

Lemma list_refines_set_witness :
  let ns := [(8128, 10); (8192, 30)] in
  let o := LInsert 20 8256 in
  exists r h' ns', run (run_list compareDataPtrAddresses 3 8000 o) demo_list = Some (r, h') /\
    list_at h' 8000 0 ns' /\ increasing compareDataPtrAddresses (fun k => 0 <= k < 2 ^ 63) ns'.*2 /\
    only_list demo_list h' 8000 (list_op_new o ++ ns.*1) /\ (forall a, a ∈ ns'.*1 -> a ∈ list_op_new o ++ ns.*1) /\
    r = c_bool (bool_decide (20 ∉ ns.*2)) /\ forall x, x ∈ ns'.*2 <-> x = 20 \/ x ∈ ns.*2.
Proof.
  apply (list_refines_set compareDataPtrAddresses (fun k => 0 <= k < 2 ^ 63) 3 demo_list 8000 0 [(8128, 10); (8192, 30)] (LInsert 20 8256)).
  - exact demo_list_at.
  - split; [repeat constructor|]. repeat (apply list.Forall_cons; split; [cbn; lia|]). constructor.
  - cbn. lia.
  - cbn. lia.
  - split; [unfold is_word, word_size; lia|]. constructor; [unfold is_addr; lia| |by eexists].
    apply (bool_decide_unpack _). vm_compute. exact I.
  - lia.
Defined.

(** The program itself *)
Example demo_list_run :
  (fst <$> run (do@ list_insert compareDataPtrAddresses 4 8000 20 8256;
                do@ list_remove compareDataPtrAddresses 4 8000 10;
                let@ size := list_getSize 8000 in
                let@ found := list_find compareDataPtrAddresses 4 8000 20 in
                let@ gone := list_find compareDataPtrAddresses 4 8000 10 in
                ORet [size; found; gone]) demo_list) = Some [2; 20; 0].
Proof. vm_compute. reflexivity. Qed.
