(* ===== verification/Store.v ===== *)
(** * The store of the server's tables

    The code of TPCC/Server/dataTable and manager.c works on objects (the rows), on
    maps from keys to rows, which are the red-black trees of TPCC/lib, and on what
    its environment gives it: memory, random numbers, the time.  It is written here
    as programs over these commands ([code]).  [run] executes a program on a store
    whose maps are finite maps; StoreTx.v replaces every map by its tree and every
    command by the accesses of a transaction.

    What the environment will answer is part of the store: the blocks that malloc
    returns, in order ([places], each with what it holds), the values of
    [random_generate] and of [time].  C strings, which are never written after they
    are built, are kept apart. *)
From Stdlib Require Import String.
From S2P Require Import Prelude Words LockWord Machine Tx Ctl CtlHist Wrappers Objects RBTree.

(** ** Programs *)

Inductive cmd : Type -> Type :=
| Load (o : Z) (f : nat) : cmd Z
| Store (o : Z) (f : nat) (v : Z) : cmd unit
| Store2 (o : Z) (f : nat) (v x : Z) : cmd unit       (* the bits of the mask x *)
| Touch (o : Z) : cmd unit
| MapGet (s key : Z) : cmd Z                           (* rbtree_get *)
| MapInsert (s key val : Z) : cmd Z                    (* rbtree_insert *)
| MapAlloc : cmd Z                                     (* rbtree_alloc *)
| Malloc (n : nat) : cmd Z                             (* of n words *)
| NewString (str : string) : cmd Z
| GetString (p : Z) : cmd string                       (* reading it up to its end *)
| Random : cmd Z                                       (* random_generate *)
| Time : cmd Z
| Restart : cmd unit                                   (* TM_RESTART, TM_ABORT *)
| Undefined (X : Type) : cmd X                         (* what C does not define, and failed assertions *)
| Spent (X : Type) : cmd X.                            (* a loop took more turns than it is given *)
Arguments Undefined {X}.
Arguments Spent {X}.

Inductive code (A : Type) : Type :=
| CRet (a : A)
| CDo {X : Type} (c : cmd X) (k : X -> code A).
Arguments CRet {A} a.
Arguments CDo {A X} c k.

Fixpoint cbind {A B} (p : code A) (q : A -> code B) : code B :=
  match p with
  | CRet a => q a
  | CDo c k => CDo c (fun x => cbind (k x) q)
  end.

Definition do_cmd {X} (c : cmd X) : code X := CDo c CRet.

Declare Scope code_scope.
Delimit Scope code_scope with code.
Notation "'let$' x := p 'in' q" := (cbind p (fun x => q))
  (at level 10, x name, p at level 100, q at level 200) : code_scope.
Notation "'do$' p ; q" := (cbind p (fun _ => q))
  (at level 10, p at level 100, q at level 200) : code_scope.
Open Scope code_scope.

(** ** The store *)

Record env := mk_env {
  places : list (Z * list Z);
  draws : nat -> Z;
  times : nat -> Z;
  strs : gmap Z string }.

Record db := mk_db {
  objs : gmap Z (list Z);
  maps : gmap Z (gmap Z Z);
  ev : env }.

#[export] Instance eta_env : Eta env := fun e => mk_env (places e) (draws e) (times e) (strs e).
#[export] Instance eta_db : Eta db := fun x => mk_db (objs x) (maps x) (ev x).

(** Why a program stops: it comes to a restart, finds no memory where malloc should
    have found some (the library then exits), spends the turns of one of its loops,
    or does what C does not define. *)
Inductive stop := Restarted | NoMemory | Endless | Wrong.

Inductive outcome (A : Type) :=
| Done (a : A) (x : db)
| Stop (s : stop).
Arguments Done {A} a x.
Arguments Stop {A} s.

(** The difference of two keys, which compareKeysDefault computes, is defined. *)
Definition key_ok (k : Z) : bool := (0 <=? k) && (k <? 2 ^ 62) || (2 ^ 64 - 2 ^ 62 <=? k) && (k <? 2 ^ 64).

(** [strlen(s) + 1] bytes, in words *)
Definition string_words (s : string) : nat := (String.length s / 8 + 1)%nat.

(** An address that malloc may return: one of a program, aligned, and not in use *)
Definition free_at (a : Z) (x : db) : bool :=
  (0 <? a) && (a <? 2 ^ 62) && (a mod 8 =? 0) &&
  bool_decide (objs x !! a = None) && bool_decide (maps x !! a = None) && bool_decide (strs (ev x) !! a = None).

Definition user_addr (a : Z) : Prop := 0 < a < 2 ^ 62 /\ a mod 8 = 0.

Lemma free_at_spec a x : free_at a x = true <->
  user_addr a /\ objs x !! a = None /\ maps x !! a = None /\ strs (ev x) !! a = None.
Proof.
  unfold free_at, user_addr. rewrite !andb_true_iff, !bool_decide_eq_true, !Z.ltb_lt, Z.eqb_eq. tauto.
Qed.

(** The next block that malloc returns, which must have [n] words *)
Definition take_block (n : nat) (x : db) : option (Z * list Z * db) :=
  match places (ev x) with
  | [] => None
  | (a, ob) :: ps =>
      if (length ob =? n)%nat && free_at a x then Some (a, ob, x <| ev := ev x <| places := ps |> |>) else None
  end.

Definition step {X} (c : cmd X) (x : db) : outcome X :=
  match c in cmd X return outcome X with
  | Load o f =>
      match objs x !! o with
      | Some ob => match ob !! f with Some v => Done v x | None => Stop Wrong end
      | None => Stop Wrong
      end
  | Store o f v =>
      match objs x !! o with
      | Some ob => if (f <? length ob)%nat then Done tt (x <| objs := <[o := <[f := w64 v]> ob]> (objs x) |>) else Stop Wrong
      | None => Stop Wrong
      end
  | Store2 o f v m =>
      match objs x !! o with
      | Some ob =>
          match ob !! f with
          | Some w => Done tt (x <| objs := <[o := <[f := wmerge w (w64 v) (w64 m)]> ob]> (objs x) |>)
          | None => Stop Wrong
          end
      | None => Stop Wrong
      end
  | Touch o => match objs x !! o with Some (_ :: _) => Done tt x | _ => Stop Wrong end
  | MapGet s key =>
      match maps x !! s with
      | Some M => if key_ok key then Done (default NULL (M !! key)) x else Stop Wrong
      | None => Stop Wrong
      end
  | MapInsert s key val =>
      match maps x !! s with
      | Some M =>
          if key_ok key then
            match take_block 6 x with
            | Some (_, _, x) =>
                match M !! key with
                | Some _ => Done 0 x
                | None => Done 1 (x <| maps := <[s := <[key := w64 val]> M]> (maps x) |>)
                end
            | None => Stop NoMemory
            end
          else Stop Wrong
      | None => Stop Wrong
      end
  | MapAlloc =>
      match take_block 2 x with
      | Some (s, _, x) => Done s (x <| maps := <[s := ∅]> (maps x) |>)
      | None => Stop NoMemory
      end
  | Malloc n =>
      match take_block n x with
      | Some (a, ob, x) => Done a (x <| objs := <[a := ob]> (objs x) |>)
      | None => Stop NoMemory
      end
  | NewString s =>
      match take_block (string_words s) x with
      | Some (p, _, x) => Done p (x <| ev := ev x <| strs := <[p := s]> (strs (ev x)) |> |>)
      | None => Stop NoMemory
      end
  | GetString p => match strs (ev x) !! p with Some s => Done s x | None => Stop Wrong end
  | Random => Done (draws (ev x) O) (x <| ev := ev x <| draws := (fun n => draws (ev x) (S n)) |> |>)
  | Time => Done (times (ev x) O) (x <| ev := ev x <| times := (fun n => times (ev x) (S n)) |> |>)
  | Restart => Stop Restarted
  | Undefined => Stop Wrong
  | Spent => Stop Endless
  end.

Fixpoint run {A} (p : code A) (x : db) : outcome A :=
  match p with
  | CRet a => Done a x
  | CDo c k =>
      match step c x with
      | Done v x => run (k v) x
      | Stop s => Stop s
      end
  end.

Lemma run_cbind {A B} (p : code A) (q : A -> code B) x :
  run (cbind p q) x =
  match run p x with
  | Done a x => run (q a) x
  | Stop s => Stop s
  end.
Proof.
  revert x. induction p as [a|X c k IH]; intros x; cbn; [done|]. destruct (step c x); [apply IH|done].
Qed.

Lemma run_cbind_ok {A B} (p : code A) (q : A -> code B) x a x' :
  run p x = Done a x' -> run (cbind p q) x = run (q a) x'.
Proof. intros Hp. by rewrite run_cbind, Hp. Qed.

(** ** What the code is written with *)

(** [o->f] and [o->f = v] for a field of one word *)
Definition ld (o : Z) (f : nat) : code Z := do_cmd (Load o f).
Definition st (o : Z) (f : nat) (v : Z) : code unit := do_cmd (Store o f v).

(** The same for a [long]: its value is signed. *)
Definition to_long (w : Z) : Z := if w <? 2 ^ 63 then w else w - 2 ^ 64.
Definition ldl (o : Z) (f : nat) : code Z := let$ w := ld o f in CRet (to_long w).

(** A [float] is the half [i] of a word: TM_SHARED_READ_F and TM_SHARED_WRITE_F *)
Definition ldf32 (o : Z) (f : nat) (i : Z) : code Z := let$ w := ld o f in CRet (part 32 w i).
Definition stf32 (o : Z) (f : nat) (i v : Z) : code unit :=
  do_cmd (Store2 o f (set_part 32 0 i v) (set_part 32 0 i (Z.ones 32))).

(** MAP_FIND, TMMAP_FIND and so on, with MAP_USE_RBTREE *)
Definition MAP_FIND (s key : Z) : code Z := do_cmd (MapGet s (w64 key)).
Definition MAP_INSERT (s key data : Z) : code Z := do_cmd (MapInsert s (w64 key) data).
Definition MAP_ALLOC : code Z := do_cmd MapAlloc.
Definition malloc (n : nat) : code Z := do_cmd (Malloc n).
Definition random_gen : code Z := do_cmd Random.
Definition time_now : code Z := do_cmd Time.
Definition TM_RESTART : code unit := do_cmd Restart.
Definition undefined {A} : code A := do_cmd Undefined.
Definition spent {A} : code A := do_cmd Spent.
Definition assert (b : bool) : code unit := if b then CRet tt else undefined.

(** The functions that work on objects only (list.c) *)
Fixpoint lift {A} (p : oprog A) : code A :=
  match p with
  | ORet a => CRet a
  | OLoad o f k => CDo (Load o f) (fun v => lift (k v))
  | OStore o f v k => CDo (Store o f v) (fun _ => lift k)
  | OStore2 o f v x k => CDo (Store2 o f v x) (fun _ => lift k)
  | OTouch o k => CDo (Touch o) (fun _ => lift k)
  | OAbort k => CDo Restart (fun _ => lift k)
  | OFail => undefined
  end.

(** [for (i = from; n more turns; i++)], where [s] is what the body assigns *)
Fixpoint for_loop {S} (n : nat) (from : Z) (s : S) (body : Z -> S -> code S) : code S :=
  match n with
  | O => CRet s
  | Datatypes.S n => let$ s := body from s in for_loop n (from + 1) s body
  end.

(** [for (i = from; i <= to; i++)] *)
Definition for_to {S} (from to : Z) (s : S) (body : Z -> S -> code S) : code S :=
  for_loop (Z.to_nat (to - from + 1)) from s body.

(** The part of the word is the 32 bits that [stm_store_float] writes, and
    [stm_load_float] reads, at its address. *)
Lemma float_address o f i :
  o mod 8 = 0 -> 0 <= o -> o + 8 * Z.of_nat f + 8 <= 2 ^ 64 -> i = 0 \/ i = 1 ->
  let a := field_addr o f + 4 * i in
  Z.land a 3 = 0 /\ word_base a = field_addr o f /\ Z.shiftr (Z.land a 7) 2 = i.
Proof.
  intros Ho H0 H1 Hi. cbv zeta. assert (Hf : field_addr o f = o + 8 * Z.of_nat f).
  { unfold field_addr. apply w64_id. unfold is_word, word_size. lia. }
  rewrite Hf, land_3, land_7, word_base_eq by (unfold is_word, word_size; lia).
  assert (Hm : (o + 8 * Z.of_nat f + 4 * i) mod 8 = 4 * i).
  { rewrite (Z.div_mod o 8), Ho by lia. replace (8 * (o / 8) + 0 + 8 * Z.of_nat f + 4 * i) with (4 * i + (o / 8 + Z.of_nat f) * 8) by lia.
    rewrite Z.mod_add by lia. apply Z.mod_small. lia. }
  rewrite Hm. split_and!; [|lia|by destruct Hi; subst].
  rewrite (Z.div_mod o 8), Ho by lia. replace (8 * (o / 8) + 0 + 8 * Z.of_nat f + 4 * i) with (0 + (2 * (o / 8) + 2 * Z.of_nat f + i) * 4) by lia.
  by rewrite Z.mod_add by lia.
Qed.

Lemma float_store_code junk o f i v k :
  o mod 8 = 0 -> 0 <= o -> o + 8 * Z.of_nat f + 8 <= 2 ^ 64 -> i = 0 \/ i = 1 ->
  stm_store_float junk (field_addr o f + 4 * i) v k =
  TStore2 (field_addr o f) (set_part 32 junk i v) (set_part 32 0 i (Z.ones 32)) k.
Proof.
  intros Ho H0 H1 Hi. destruct (float_address o f i Ho H0 H1 Hi) as (H3 & Hb & Hx).
  unfold stm_store_float, stm_store_u32. by rewrite H3, Hb, Hx.
Qed.

Lemma float_load_code o f i k :
  o mod 8 = 0 -> 0 <= o -> o + 8 * Z.of_nat f + 8 <= 2 ^ 64 -> i = 0 \/ i = 1 ->
  stm_load_float (field_addr o f + 4 * i) k = TLoad (field_addr o f) (fun w => k (part 32 w i)).
Proof.
  intros Ho H0 H1 Hi. destruct (float_address o f i Ho H0 H1 Hi) as (H3 & Hb & Hx).
  unfold stm_load_float, stm_load_u32. by rewrite H3, Hb, Hx.
Qed.

(** A float that is stored is read back, and the other half of the word stays. *)
Lemma float_merge w i v junk :
  0 <= v < 2 ^ 32 -> i = 0 \/ i = 1 ->
  let w' := wmerge w (w64 (set_part 32 junk i v)) (w64 (set_part 32 0 i (Z.ones 32))) in
  part 32 w' i = v /\ part 32 w' (1 - i) = part 32 w (1 - i).
Proof.
  intros Hv Hi. cbv zeta.
  assert (Hb : forall j, 0 <= j < 64 ->
    Z.testbit (wmerge w (w64 (set_part 32 junk i v)) (w64 (set_part 32 0 i (Z.ones 32)))) j =
    if (32 * i <=? j) && (j <? 32 * (i + 1)) then Z.testbit v (j - 32 * i) else Z.testbit w j).
  { intros j Hj'. assert (H1 : 32 * (i + 1) <= 64) by lia. assert (Hones : 0 <= Z.ones 32 < 2 ^ 32) by (split; [done|reflexivity]).
    rewrite wmerge_bit, !w64_bit, (set_part_bit 32 junk i v j), (set_part_bit 32 0 i (Z.ones 32) j) by (done || lia).
    destruct (Z.leb_spec (32 * i) j), (Z.ltb_spec j (32 * (i + 1))); cbn [andb]; rewrite ?Z.testbit_0_l; try done.
    by rewrite Z.ones_spec_low by lia. }
  split; apply Z.bits_inj_iff'; intros j Hj'; rewrite part_bit by lia.
  - destruct (Z.ltb_spec j 32); cbn [andb].
    + rewrite Hb by lia. rewrite (proj2 (Z.leb_le _ _)), (proj2 (Z.ltb_lt _ _)) by lia. cbn [andb]. f_equal. lia.
    + symmetry. destruct (decide (v = 0)) as [->|]; [apply Z.testbit_0_l|]. apply Z.bits_above_log2; [lia|].
      apply Z.lt_le_trans with 32; [|lia]. apply Z.log2_lt_pow2; lia.
  - rewrite part_bit by lia. destruct (Z.ltb_spec j 32); cbn [andb]; [|done]. rewrite Hb by lia.
    destruct (Z.leb_spec (32 * i) (32 * (1 - i) + j)), (Z.ltb_spec (32 * (1 - i) + j) (32 * (i + 1))); cbn [andb]; try done. lia.
Qed.
