(* ===== verification/StoreLogic.v ===== *)
(** * A separation logic for the store

    Assertions about the parts of the store that a piece of code works on: a row, a
    map.  They are Iris's [uPred] over maps with exclusive entries, without
    ghost state or steps, so that an assertion simply speaks of a part of the store
    ([holds]).  [wp] says that a program, run on any store that has the part, does
    nothing undefined and ends; the frame is in its definition. *)
From Stdlib Require Import String.
From iris.algebra Require Import gmap excl.
From iris.base_logic Require Import base_logic.
From iris.proofmode Require Import proofmode.
From S2P Require Import Prelude Words LockWord Machine Tx Ctl CtlHist Wrappers Objects RBTree Store.
Local Open Scope Z_scope.

(** ** Resources *)

Definition exmap (V : Type) : ucmra := gmapUR Z (exclR (leibnizO V)).

Definition storeUR : ucmra := prodUR (exmap (list Z)) (exmap (gmap Z Z)).

(** The entries of a map, each as a resource *)
Definition ex {V} (m : gmap Z V) : exmap V := (Excl : V -> excl (leibnizO V)) <$> m.

Definition res (x : db) : storeUR := (ex (objs x), ex (maps x)).

Abbreviation sProp := (uPredI storeUR).

Definition row_at (p : Z) (ob : list Z) : sProp := uPred_ownM (({[p := Excl ob]}, ε) : storeUR).
Definition map_at (s : Z) (M : gmap Z Z) : sProp := uPred_ownM ((ε, {[s := Excl M]}) : storeUR).

Declare Scope store_scope.
Delimit Scope store_scope with store.
Notation "p ↦ ob" := (row_at p ob) (at level 20, format "p  ↦  ob") : bi_scope.
Notation "s ⤇ M" := (map_at s M) (at level 20, format "s  ⤇  M") : bi_scope.

(** The store has a part of which the assertion speaks. *)
Definition holds (P : sProp) (x : db) : Prop := uPred_holds P O (res x).

Section Exmap.

Context {V : Type}.
Implicit Types (m : gmap Z V) (g : exmap V).

Lemma exmap_lookup m p v g : ex m ≡ {[p := Excl v]} ⋅ g -> m !! p = Some v /\ g !! p = None.
Proof.
  intros He. specialize (He p). rw /ex lookup_fmap lookup_op lookup_singleton_eq in He.
  assert (✓ (Excl' v ⋅ g !! p)) as Hv by (rw -He; by destruct (m !! p)).
  apply exclusive_Some_l in Hv; [|apply _]. rw Hv right_id in He. split; [|exact Hv].
  destruct (m !! p) as [w|]; simpl in He; [|by inversion He].
  apply (inj Some) in He. inversion He as [? ? Hw| ]. by rw Hw.
Qed.

Lemma exmap_insert m p v g : ex m ≡ g -> g !! p = None -> ex (<[p := v]> m) ≡ {[p := Excl v]} ⋅ g.
Proof.
  intros He Hn q. rw /ex lookup_fmap lookup_op. destruct (decide (q = p)) as [->|Hne].
  - by rw !lookup_insert_eq Hn.
  - rw lookup_insert_ne // lookup_singleton_ne // left_id -(He q) lookup_fmap //.
Qed.

Lemma exmap_update m p v w g :
  ex m ≡ {[p := Excl v]} ⋅ g -> ex (<[p := w]> m) ≡ {[p := Excl w]} ⋅ g.
Proof.
  intros He q. destruct (exmap_lookup _ _ _ _ He) as [_ Hg]. rw /ex lookup_fmap lookup_op. destruct (decide (q = p)) as [->|Hne].
  - by rw !lookup_insert_eq Hg.
  - rw lookup_insert_ne // lookup_singleton_ne //. specialize (He q).
    rw /ex lookup_fmap lookup_op lookup_singleton_ne // in He.
Qed.

Lemma exmap_fresh m p g : ex m ≡ g -> m !! p = None -> g !! p = None.
Proof. intros He Hp. specialize (He p). rw /ex lookup_fmap Hp in He. simpl in He. by inversion He. Qed.

End Exmap.

Lemma res_equiv x (g : storeUR) :
  res x ≡ g <-> (ex (objs x) ≡ g.1) /\ (ex (maps x) ≡ g.2).
Proof. destruct g as [g1 g2]. split; [intros [H1 H2]|intros (H1 & H2)]; by repeat split. Qed.

(** ** Programs *)

(** What a run is to end with, beside the frame [f]; it stops only as [may] allows. *)
Definition ends {A} (may : stop -> Prop) (Φ : A -> env -> sProp) (n : nat) (f : storeUR) (o : outcome A) : Prop :=
  match o with
  | Done a x => exists r, res x ≡ r ⋅ f /\ uPred_holds (Φ a (ev x)) n r
  | Stop s => may s
  end.

Program Definition wp (may : stop -> Prop) {A} (p : code A) (e : env) (Φ : A -> env -> sProp) : sProp :=
  UPred storeUR (fun n r => forall n' x f, (n' <= n)%nat -> ev x = e -> res x ≡ r ⋅ f -> ends may Φ n' f (run p x)) _.
Next Obligation.
  intros may A p e Φ n1 n2 r1 r2 Hr Hi Hn n' x f Hn' He Hx. apply cmra_discrete_included_iff in Hi as [z Hz].
  assert (Hx2 : res x ≡ r1 ⋅ (z ⋅ f)) by (by rw Hx Hz assoc).
  specialize (Hr n' x (z ⋅ f) ltac:(lia) He Hx2). destruct (run p x) as [a x'|]; [|done].
  destruct Hr as (r & Hres & HΦ). exists (r ⋅ z). split; [by rw Hres assoc|].
  eapply uPred_mono; [exact HΦ| |done]. apply cmra_includedN_l.
Qed.

Section Rules.

Context (may : stop -> Prop).
Implicit Types (ob : list Z) (M : gmap Z Z).

Lemma wp_run {A} (p : code A) (Φ : A -> env -> sProp) x :
  holds (wp may p (ev x) Φ) x ->
  match run p x with Done a x' => holds (Φ a (ev x')) x' | Stop s => may s end.
Proof.
  intros Hw. specialize (Hw O x ε ltac:(lia) eq_refl). rw right_id in Hw. specialize (Hw (reflexivity _)).
  destruct (run p x) as [a x'|]; [|done]. destruct Hw as (r & Hr & HΦ).
  eapply uPred_mono; [exact HΦ| |done]. rw Hr. apply cmra_includedN_l.
Qed.

Lemma res_valid x n : ✓{n} res x.
Proof.
  rw /res. repeat split; intros i; rw /= /ex lookup_fmap.
  - by destruct (objs x !! i).
  - by destruct (maps x !! i).
Qed.

Lemma part_valid x n (r f : storeUR) : res x ≡ r ⋅ f -> ✓{n} r.
Proof. intros He. apply (cmra_validN_op_l n r f). rw -He. apply res_valid. Qed.

Lemma holds_entails P Q x : (P ⊢ Q) -> holds P x -> holds Q x.
Proof. intros [Hpq] Hp. apply Hpq; [apply res_valid|done]. Qed.

Lemma wp_ret {A} (a : A) e Φ : Φ a e ⊢ wp may (CRet a) e Φ.
Proof.
  split=> n r Hv HΦ n' x f Hn He Hx. subst e. exists r. split; [done|]. by eapply uPred_mono.
Qed.

Lemma wp_cbind {A B} (p : code A) (q : A -> code B) e Φ :
  wp may p e (fun a e' => wp may (q a) e' Φ) ⊢ wp may (cbind p q) e Φ.
Proof.
  split=> n r Hv Hw n' x f Hn He Hx. rw run_cbind. specialize (Hw n' x f Hn He Hx).
  destruct (run p x) as [a x'|]; [|done]. destruct Hw as (r' & Hr & Hq). by apply (Hq n' x' f).
Qed.

Lemma wp_wand {A} (p : code A) e Φ Ψ :
  wp may p e Φ -∗ (∀ a e', Φ a e' -∗ Ψ a e') -∗ wp may p e Ψ.
Proof.
  apply bi.entails_wand, bi.wand_intro_r. uPred.unseal. split=> n r Hv. intros (r1 & r2 & Hr & Hw & Hm) n' x f Hn He Hx.
  assert (Hx1 : res x ≡ r1 ⋅ (r2 ⋅ f)).
  { rw Hx. apply discrete in Hr; [|apply _]. by rw Hr assoc. }
  specialize (Hw n' x (r2 ⋅ f) Hn He Hx1).
  destruct (run p x) as [a x'|]; [|done]. destruct Hw as (r' & Hr' & Hq). exists (r2 ⋅ r'). split.
  { rw Hr' (comm _ r2 r'). by rw assoc. }
  assert (Hv2 : ✓{n'} (r2 ⋅ r')).
  { apply (part_valid x' n' _ f). by rw Hr' assoc (comm _ r' r2). }
  by apply (Hm a (ev x') n' r').
Qed.

(** A command that turns the part [a] into [b], whatever the frame *)
Lemma wp_cmd {A X} (c : cmd X) (k : X -> code A) (a b : storeUR) v e e' Φ :
  (forall x f, ev x = e -> res x ≡ a ⋅ f ->
     may NoMemory /\ step c x = Stop NoMemory \/ exists x', step c x = Done v x' /\ ev x' = e' /\ res x' ≡ b ⋅ f) ->
  uPred_ownM a ∗ (uPred_ownM b -∗ wp may (k v) e' Φ) ⊢ wp may (CDo c k) e Φ.
Proof.
  intros Hc. uPred.unseal. split=> n r Hv. intros (r1 & r2 & Hr & [z Ha] & Hk) n' x f Hn He Hx.
  apply discrete in Hr; [|apply _]. apply discrete in Ha; [|apply _].
  assert (Hx1 : res x ≡ a ⋅ (z ⋅ r2 ⋅ f)) by (by rw Hx Hr Ha !assoc).
  simpl. destruct (Hc x _ He Hx1) as [[Hm ->]|(x' & -> & He' & Hx')]; [exact Hm|].
  assert (Hv2 : ✓{n'} (r2 ⋅ (b ⋅ z))).
  { apply (part_valid x' n' _ f). by rw Hx' (comm _ r2 (b ⋅ z)) !assoc. }
  apply (Hk n' (b ⋅ z) Hn Hv2 (cmra_includedN_l _ _ _) n' x' f); [done|done|].
  rw Hx' (comm _ r2 (b ⋅ z)) !assoc. done.
Qed.

(** *** Rows *)

Lemma row_own x p ob f :
  res x ≡ (({[p := Excl ob]}, ε) : storeUR) ⋅ f ->
  objs x !! p = Some ob /\ forall ob', res (x <| objs := <[p := ob']> (objs x) |>) ≡ (({[p := Excl ob']}, ε) : storeUR) ⋅ f.
Proof.
  destruct f as [f1 f2]. intros [H1 H2]. simpl in *. split; [by apply exmap_lookup in H1 as [? _]|].
  intros ob'. split; simpl; [by eapply exmap_update|done].
Qed.

Lemma wp_ld p ob i v e Φ :
  ob !! i = Some v -> p ↦ ob -∗ (p ↦ ob -∗ Φ v e) -∗ wp may (ld p i) e Φ.
Proof.
  iIntros (Hi) "Hp HΦ". iApply (wp_cmd (Load p i)); last first.
  { iFrame "Hp". iIntros "Hp". iApply wp_ret. by iApply "HΦ". }
  intros x f He Hx. right. exists x. destruct (row_own _ _ _ _ Hx) as [Ho _]. rw /= Ho Hi. done.
Qed.

Lemma wp_st p ob i v e Φ :
  (i < length ob)%nat -> p ↦ ob -∗ (p ↦ <[i := w64 v]> ob -∗ Φ tt e) -∗ wp may (st p i v) e Φ.
Proof.
  iIntros (Hi) "Hp HΦ". iApply (wp_cmd (Store p i v)); last first.
  { iFrame "Hp". iIntros "Hp". iApply wp_ret. by iApply "HΦ". }
  intros x f He Hx. right. destruct (row_own _ _ _ _ Hx) as [Ho Hu]. eexists. rw /= Ho (proj2 (Nat.ltb_lt _ _) Hi).
  split; [done|]. split; [done|]. apply Hu.
Qed.

(** The word [w] with [v] in its half [i] *)
Definition put_half (w i v : Z) : Z := wmerge w (w64 (set_part 32 0 i v)) (w64 (set_part 32 0 i (Z.ones 32))).

Lemma wp_stf32 p ob i w h v e Φ :
  ob !! i = Some w ->
  p ↦ ob -∗ (p ↦ <[i := put_half w h v]> ob -∗ Φ tt e) -∗
  wp may (stf32 p i h v) e Φ.
Proof.
  iIntros (Hi) "Hp HΦ". iApply (wp_cmd (Store2 p i _ _)); last first.
  { iFrame "Hp". iIntros "Hp". iApply wp_ret. by iApply "HΦ". }
  intros x f He Hx. right. destruct (row_own _ _ _ _ Hx) as [Ho Hu]. eexists. rw /= Ho Hi.
  split; [done|]. split; [done|]. apply Hu.
Qed.

Lemma wp_ldf32 p ob i w h e Φ :
  ob !! i = Some w -> p ↦ ob -∗ (p ↦ ob -∗ Φ (part 32 w h) e) -∗ wp may (ldf32 p i h) e Φ.
Proof.
  iIntros (Hi) "Hp HΦ". iApply wp_cbind. iApply (wp_ld with "Hp"); [done|]. iIntros "Hp". iApply wp_ret. by iApply "HΦ".
Qed.

Lemma wp_ldl p ob i w e Φ :
  ob !! i = Some w -> p ↦ ob -∗ (p ↦ ob -∗ Φ (to_long w) e) -∗ wp may (ldl p i) e Φ.
Proof.
  iIntros (Hi) "Hp HΦ". iApply wp_cbind. iApply (wp_ld with "Hp"); [done|]. iIntros "Hp". iApply wp_ret. by iApply "HΦ".
Qed.

(** *** Maps *)

Lemma map_own x s M f :
  res x ≡ ((ε, {[s := Excl M]}) : storeUR) ⋅ f ->
  maps x !! s = Some M /\ forall M', res (x <| maps := <[s := M']> (maps x) |>) ≡ ((ε, {[s := Excl M']}) : storeUR) ⋅ f.
Proof.
  destruct f as [f1 f2]. intros [H1 H2]. simpl in *. split; [by apply exmap_lookup in H2 as [? _]|].
  intros ob'. split; simpl; [done|by eapply exmap_update].
Qed.

Lemma wp_map_find s M key e Φ :
  key_ok (w64 key) = true -> s ⤇ M -∗ (s ⤇ M -∗ Φ (default NULL (M !! w64 key)) e) -∗ wp may (MAP_FIND s key) e Φ.
Proof.
  iIntros (Hk) "Hs HΦ". iApply (wp_cmd (MapGet s (w64 key))); last first.
  { iFrame "Hs". iIntros "Hs". iApply wp_ret. by iApply "HΦ". }
  intros x f He Hx. right. exists x. destruct (map_own _ _ _ _ Hx) as [Ho _]. rw /= Ho Hk. done.
Qed.

(** *** What malloc returns *)

Lemma take_block_spec n x a ob ps :
  places (ev x) = (a, ob) :: ps ->
  take_block n x = None \/
  take_block n x = Some (a, ob, x <| ev := ev x <| places := ps |> |>) /\ length ob = n /\ free_at a x = true.
Proof.
  unfold take_block. intros ->. destruct (Nat.eqb_spec (length ob) n), (free_at a x); cbn; eauto.
Qed.

Context (no_memory : may NoMemory).

Lemma wp_no_memory {A X} (c : cmd X) (k : X -> code A) (a : storeUR) e Φ :
  (forall x f, ev x = e -> res x ≡ a ⋅ f -> step c x = Stop NoMemory) -> uPred_ownM a ⊢ wp may (CDo c k) e Φ.
Proof.
  intros Hc. uPred.unseal. split=> n r Hv [z Ha] n' x f Hn He Hx. apply discrete in Ha; [|apply _].
  rw /= (Hc x (z ⋅ f) He); [done|]. by rw Hx Ha assoc.
Qed.

(** The rules for a command that takes a block: there is one, or no memory. *)
Lemma wp_take {A X} (c : cmd X) (k : X -> code A) (n : nat) a b v (e' : Z -> env -> env) e Φ :
  (forall x f, ev x = e -> res x ≡ a ⋅ f -> take_block n x = None -> step c x = Stop NoMemory) ->
  (forall p ob ps x f, places e = (p, ob) :: ps -> ev x = e -> res x ≡ a ⋅ f -> length ob = n -> free_at p x = true ->
    take_block n x = Some (p, ob, x <| ev := ev x <| places := ps |> |>) ->
    exists x', step c x = Done (v p) x' /\ ev x' = e' p (e <| places := ps |>) /\ res x' ≡ b p ob ⋅ f) ->
  uPred_ownM a -∗
  (∀ p ob ps, ⌜places e = (p, ob) :: ps⌝ -∗ ⌜length ob = n⌝ -∗ ⌜user_addr p⌝ -∗ ⌜strs e !! p = None⌝ -∗ uPred_ownM (b p ob) -∗
     wp may (k (v p)) (e' p (e <| places := ps |>)) Φ) -∗
  wp may (CDo c k) e Φ.
Proof.
  iIntros (Hno Hyes) "Ha Hk". destruct (places e) as [|[p ob] ps] eqn:Hp.
  { iApply (wp_no_memory with "Ha"). intros x f He Hx. apply (Hno x f He Hx). unfold take_block. by rw He Hp. }
  destruct (decide (length ob = n /\ user_addr p /\ strs e !! p = None)) as [(Hl & Hu & Hn)|Hne].
  - iApply (wp_cmd c k a (b p ob) (v p) e (e' p (e <| places := ps |>))).
    + intros x f He Hx. destruct (take_block_spec n x p ob ps) as [Ht|(Ht & _ & Hf)]; [by rw He| |].
      * left. split; [done|]. by apply (Hno x f).
      * right. by apply (Hyes p ob ps x f).
    + iFrame "Ha". iIntros "Hb". by iApply ("Hk" with "[//] [//] [//] [//]").
  - iApply (wp_no_memory with "Ha"). intros x f He Hx. apply (Hno x f He Hx). destruct (take_block_spec n x p ob ps) as [Ht|(Ht & Hl & Hf)]; [by rw He|done|].
    exfalso. apply Hne. apply free_at_spec in Hf as (Hu & _ & _ & Hn). by rw He in Hn.
Qed.

Lemma own_unit : ⊢ uPred_ownM (ε : storeUR).
Proof. apply uPred.ownM_unit. Qed.

Lemma wp_malloc n e Φ :
  (∀ p ob ps, ⌜places e = (p, ob) :: ps⌝ -∗ ⌜length ob = n⌝ -∗ ⌜user_addr p⌝ -∗ p ↦ ob -∗ Φ p (e <| places := ps |>)) -∗
  wp may (malloc n) e Φ.
Proof.
  iIntros "H". iApply (wp_take (Malloc n) CRet n ε (fun p ob => ({[p := Excl ob]}, ε)) (fun p => p) (fun p e => e)).
  - intros x f _ _ Ht. by rw /= Ht.
  - intros p ob ps x f Hp He Hx Hl Hf Ht. eexists. rw /= Ht. split; [done|]. split; [by rw /= He|].
    apply free_at_spec in Hf as (_ & Hf & _). destruct f as [f1 f2]. apply res_equiv in Hx as [H1 H2]. simpl in *.
    apply res_equiv. split; simpl; [|done]. rw !left_id in H1. apply exmap_insert; [done|]. by eapply exmap_fresh.
  - iApply own_unit.
  - iIntros (p ob ps) "%H1 %H2 %H3 _ Hp". iApply wp_ret. by iApply ("H" with "[//] [//] [//]").
Qed.

Lemma wp_map_alloc e Φ :
  (∀ p ob ps, ⌜places e = (p, ob) :: ps⌝ -∗ ⌜user_addr p⌝ -∗ p ⤇ ∅ -∗ Φ p (e <| places := ps |>)) -∗
  wp may MAP_ALLOC e Φ.
Proof.
  iIntros "H". iApply (wp_take MapAlloc CRet 2 ε (fun p ob => (ε, {[p := Excl ∅]})) (fun p => p) (fun p e => e)).
  - intros x f _ _ Ht. by rw /= Ht.
  - intros p ob ps x f Hp He Hx Hl Hf Ht. eexists. rw /= Ht. split; [done|]. split; [by rw /= He|].
    apply free_at_spec in Hf as (_ & _ & Hf & _). destruct f as [f1 f2]. apply res_equiv in Hx as [H1 H2]. simpl in *.
    apply res_equiv. split; simpl; [done|]. rw !left_id in H2. apply exmap_insert; [done|]. by eapply exmap_fresh.
  - iApply own_unit.
  - iIntros (p ob ps) "%H1 %H2 %H3 _ Hp". iApply wp_ret. by iApply ("H" with "[//] [//]").
Qed.

Lemma wp_new_string str e Φ :
  (∀ p ob ps, ⌜places e = (p, ob) :: ps⌝ -∗ ⌜user_addr p⌝ -∗ ⌜strs e !! p = None⌝ -∗
     Φ p (e <| places := ps |> <| strs := <[p := str]> (strs e) |>)) -∗
  wp may (do_cmd (NewString str)) e Φ.
Proof.
  iIntros "H". iApply (wp_take (NewString str) CRet (string_words str) ε (fun p ob => ε) (fun p => p)
    (fun p e => e <| strs := <[p := str]> (strs e) |>)).
  - intros x f _ _ Ht. by rw /= Ht.
  - intros p ob ps x f Hp He Hx Hl Hf Ht. eexists. rw /= Ht. split; [done|]. split; [by rw /= He|]. done.
  - iApply own_unit.
  - iIntros (p ob ps) "%H1 %H2 %H3 %H4 _". iApply wp_ret. by iApply ("H" with "[//] [//]").
Qed.

Lemma wp_map_insert s M key d e Φ :
  key_ok (w64 key) = true ->
  s ⤇ M -∗
  (∀ p ob ps, ⌜places e = (p, ob) :: ps⌝ -∗
     s ⤇ (match M !! w64 key with Some _ => M | None => <[w64 key := w64 d]> M end) -∗
     Φ (match M !! w64 key with Some _ => 0 | None => 1 end) (e <| places := ps |>)) -∗
  wp may (MAP_INSERT s key d) e Φ.
Proof.
  iIntros (Hk) "Hs H".
  iApply (wp_take (MapInsert s (w64 key) d) CRet 6 _ (fun p ob => (ε, {[s := Excl (match M !! w64 key with Some _ => M | None => <[w64 key := w64 d]> M end)]}))
    (fun p => match M !! w64 key with Some _ => 0 | None => 1 end) (fun p e => e) with "Hs").
  - intros x f _ Hx Ht. destruct (map_own _ _ _ _ Hx) as [Hm _]. by rw /= Hm Hk Ht.
  - intros p ob ps x f Hp He Hx Hl Hf Ht. destruct (map_own _ _ _ _ Hx) as [Hm Hu]. rw /= Hm Hk Ht.
    destruct (M !! w64 key).
    + eexists. split; [done|]. split; [by rw /= He|]. done.
    + eexists. split; [done|]. split; [by rw /= He|]. apply (Hu _).
  - iIntros (p ob ps) "%H1 %H2 %H3 _ Hp". iApply wp_ret. by iApply ("H" with "[//]").
Qed.

(** *** The environment *)

(** A command that only reads or changes the environment *)
Lemma wp_env {A X} (c : cmd X) (k : X -> code A) v e e' Φ :
  (forall x, ev x = e -> step c x = Done v (x <| ev := e' |>)) ->
  wp may (k v) e' Φ -∗ wp may (CDo c k) e Φ.
Proof.
  iIntros (Hc) "H". iApply (wp_cmd c k ε ε v e e').
  - intros x f He Hx. right. eexists. split; [by apply Hc|]. split; [done|].
    by rw -Hx.
  - iSplitR; [iApply own_unit|]. by iIntros "_".
Qed.

(** The next random number is drawn. *)
Definition drawn (e : env) : env := e <| draws := (fun n => draws e (S n)) |>.
Definition timed (e : env) : env := e <| times := (fun n => times e (S n)) |>.

Lemma wp_random e Φ : Φ (draws e O) (drawn e) -∗ wp may random_gen e Φ.
Proof.
  iIntros "H". iApply (wp_env Random CRet _ e (drawn e)); [|by iApply wp_ret]. intros x He. by rw /= He.
Qed.

Lemma wp_time e Φ : Φ (times e O) (timed e) -∗ wp may time_now e Φ.
Proof.
  iIntros "H". iApply (wp_env Time CRet _ e (timed e)); [|by iApply wp_ret]. intros x He. by rw /= He.
Qed.

Lemma wp_get_string p str e Φ : strs e !! p = Some str -> Φ str e -∗ wp may (do_cmd (GetString p)) e Φ.
Proof.
  iIntros (Hp) "H". iApply (wp_env (GetString p) CRet str e e); [|by iApply wp_ret]. intros x He. rw /= He Hp.
  by destruct x; simpl in *; subst.
Qed.

Lemma wp_assert (b : bool) e Φ : b = true -> Φ tt e -∗ wp may (assert b) e Φ.
Proof. iIntros (->) "H". by iApply wp_ret. Qed.

(** *** Loops *)

(** A loop of [n] turns keeps the invariant [I], which the number of turns done
    indexes. *)
Lemma wp_for_loop {S} n from (s : S) body (I : nat -> S -> env -> sProp) e Φ :
  I O s e -∗
  □ (∀ i s e, ⌜(i < n)%nat⌝ -∗ I i s e -∗ wp may (body (from + Z.of_nat i) s) e (I (Datatypes.S i))) -∗
  (∀ s e', I n s e' -∗ Φ s e') -∗
  wp may (for_loop n from s body) e Φ.
Proof.
  revert from s e I. induction n as [|n IH]; intros from s e I.
  - iIntros "HI _ HΦ". iApply wp_ret. by iApply "HΦ".
  - iIntros "HI #Hb HΦ". simpl. iApply wp_cbind. iApply (wp_wand with "[HI]").
    { iSpecialize ("Hb" $! O s e with "[] HI"); [iPureIntro; lia|]. by rw Z.add_0_r. }
    iIntros (s1 e1) "HI". iApply (IH (from + 1) s1 e1 (fun i => I (Datatypes.S i)) with "HI"); [|done].
    iIntros "!>" (i s2 e2) "%Hi HI". iSpecialize ("Hb" $! (Datatypes.S i) s2 e2 with "[] HI"); [iPureIntro; lia|].
    by replace (from + Z.of_nat (Datatypes.S i)) with (from + 1 + Z.of_nat i) by lia.
Qed.

Lemma wp_for_to {S} from to (s : S) body (I : nat -> S -> env -> sProp) e Φ :
  from <= to + 1 ->
  I O s e -∗
  □ (∀ i s e, ⌜from + Z.of_nat i <= to⌝ -∗ I i s e -∗ wp may (body (from + Z.of_nat i) s) e (I (Datatypes.S i))) -∗
  (∀ s e', I (Z.to_nat (to - from + 1)) s e' -∗ Φ s e') -∗
  wp may (for_to from to s body) e Φ.
Proof.
  iIntros (Hle) "HI #Hb HΦ". iApply (wp_for_loop with "HI"); [|done].
  iIntros "!>" (i s2 e2) "%Hi HI". iApply ("Hb" with "[] HI"). iPureIntro. lia.
Qed.

(** *** Code on objects only *)

Definition rows (h : gmap Z (list Z)) : sProp := [∗ map] a ↦ ob ∈ h, a ↦ ob.

Lemma wp_lift {A} (p : oprog A) h r h' e Φ :
  Objects.run p h = Some (r, h') -> rows h -∗ (rows h' -∗ Φ r e) -∗ wp may (lift p) e Φ.
Proof.
  revert h. induction p as [a|o f k IH|o f v k IH|o f v x k IH|o k IH|k IH|]; intros h Hr; simpl in Hr; try done.
  - injection Hr as -> ->. iIntros "Hh HΦ". iApply wp_ret. by iApply "HΦ".
  - destruct (h !! o) as [ob|] eqn:Ho; [|done]. destruct (ob !! f) as [v|] eqn:Hv; [|done]. iIntros "Hh HΦ".
    iDestruct (big_sepM_lookup_acc with "Hh") as "[Ho Hh]"; [exact Ho|].
    iApply (wp_cbind (ld o f)). iApply (wp_ld with "Ho"); [exact Hv|]. iIntros "Ho".
    iApply (IH v h Hr with "[Hh Ho]"); [|done]. by iApply "Hh".
  - destruct (h !! o) as [ob|] eqn:Ho; [|done]. destruct (Nat.ltb_spec f (length ob)) as [Hf|]; [|done]. iIntros "Hh HΦ".
    iDestruct (big_sepM_insert_acc with "Hh") as "[Ho Hh]"; [exact Ho|].
    iApply (wp_cbind (st o f v)). iApply (wp_st with "Ho"); [exact Hf|]. iIntros "Ho".
    iApply (IH _ Hr with "[Hh Ho]"); [|done]. by iApply "Hh".
  - destruct (h !! o) as [ob|] eqn:Ho; [|done]. destruct (ob !! f) as [w|] eqn:Hw; [|done]. iIntros "Hh HΦ".
    iDestruct (big_sepM_insert_acc with "Hh") as "[Ho Hh]"; [exact Ho|].
    iApply (wp_cmd (Store2 o f v x)); last first.
    { iFrame "Ho". iIntros "Ho". iApply (IH _ Hr with "[Hh Ho]"); [|done]. by iApply "Hh". }
    intros y g He Hy. right. destruct (row_own _ _ _ _ Hy) as [Hoy Hu]. eexists. rw /= Hoy Hw.
    split; [done|]. split; [done|]. apply Hu.
  - destruct (h !! o) as [[|w ob]|] eqn:Ho; [done| |done]. iIntros "Hh HΦ".
    iDestruct (big_sepM_lookup_acc with "Hh") as "[Ho Hh]"; [exact Ho|].
    iApply (wp_cmd (Touch o)); last first.
    { iFrame "Ho". iIntros "Ho". iApply (IH h Hr with "[Hh Ho]"); [|done]. by iApply "Hh". }
    intros y g He Hy. right. destruct (row_own _ _ _ _ Hy) as [Hoy Hu]. exists y. by rw /= Hoy.
Qed.

End Rules.

(** ** Tactics

    One access: [H] is the row, whose words are known. *)
#[global] Arguments w64 : simpl never.
#[global] Arguments wmerge : simpl never.
#[global] Arguments set_part : simpl never.
#[global] Arguments part : simpl never.
#[global] Arguments put_half : simpl never.
#[global] Arguments to_long : simpl never.
#[global] Arguments Z.mul : simpl nomatch.

(** The words of a list of known length *)
Ltac list_words ob H :=
  let x := fresh "x" in let ob' := fresh "ob" in
  destruct ob as [|x ob']; [try discriminate H|first [discriminate H|list_words ob' H]].

Tactic Notation "wp_bind" := iApply wp_cbind.
Tactic Notation "wp_malloc" ident(p) ident(ob) ident(ps) ident(Hp) ident(Hl) ident(Hu) constr(H) :=
  wp_bind; iApply wp_malloc; [assumption|]; iIntros (p ob ps) "%Hp %Hl %Hu"; iIntros H; list_words ob Hl.
Tactic Notation "wp_ld" constr(H) := wp_bind; iApply (wp_ld with H); [reflexivity|]; iIntros H.
Tactic Notation "wp_ldl" constr(H) := wp_bind; iApply (wp_ldl with H); [reflexivity|]; iIntros H.
Tactic Notation "wp_ldf" constr(H) := wp_bind; iApply (wp_ldf32 with H); [reflexivity|]; iIntros H.
Tactic Notation "wp_st" constr(H) := wp_bind; iApply (wp_st with H); [apply Nat.ltb_lt; reflexivity|]; iIntros H; iEval (simpl) in H.
Tactic Notation "wp_stf" constr(H) := wp_bind; iApply (wp_stf32 with H); [reflexivity|]; iIntros H; iEval (simpl) in H.
Tactic Notation "wp_random" := wp_bind; wp_bind; iApply wp_random; iApply wp_ret.

(** What stops the run *)
Lemma wp_stop (may : stop -> Prop) {A X} (c : cmd X) (q : X -> code A) s e Φ :
  (forall x, step c x = Stop s) -> may s -> ⊢ wp may (CDo c q) e Φ.
Proof. intros Hc Hm. split=> n r Hv _ n' x f Hn He Hx. rw /= Hc. exact Hm. Qed.
