(* ===== verification/Tables.v ===== *)
(** * The tables of the server: TPCC/Server/dataTable

    The structures, with the word of each field, and the functions that allocate
    rows, fill tables and look rows up, as programs over the commands of Store.v.  A
    function that exists twice, on direct and on transactional accesses, is one
    program with a second name.  A test whose only effect is [assert] of a string
    literal, which cannot fail, is left out, as are arguments that a function does
    not use; of text only what is read later is kept. *)
From Stdlib Require Import String.
From S2P Require Import Prelude Words Float Objects RBTree SList Store.
Local Open Scope Z_scope.

(** ** Fields *)

(** warehouse_t: 9 words; W_TAX and W_YTD are the halves of one. *)
Definition W_ID : nat := 0.
Definition W_TAX : nat * Z := (7%nat, 0).
Definition W_YTD : nat * Z := (7%nat, 1).
Definition districtMap : nat := 8.
Definition warehouse_words : nat := 9.

(** district_t *)
Definition D_ID : nat := 0.
Definition D_W_ID : nat := 1.
Definition D_TAX : nat * Z := (8%nat, 0).
Definition D_YTD : nat * Z := (8%nat, 1).
Definition D_NEXT_O_ID : nat := 9.
Definition customerMap : nat := 10.
Definition orderMap : nat := 11.
Definition district_words : nat := 12.

(** customer_t *)
Definition C_ID : nat := 0.
Definition C_D_ID : nat := 1.
Definition C_W_ID : nat := 2.
Definition C_LAST : nat := 5.
Definition C_SINCE : nat := 12.
Definition C_DISCOUNT : nat * Z := (14%nat, 1).
Definition C_BALANCE : nat * Z := (15%nat, 0).
Definition C_YTD_PAYMENT : nat * Z := (15%nat, 1).
Definition C_PAYMENT_CNT : nat := 16.
Definition C_DELIVERY_CNT : nat := 17.
Definition lastOrder : nat := 19.
Definition customer_words : nat := 20.

(** order_t *)
Definition O_ID : nat := 0.
Definition O_D_ID : nat := 1.
Definition O_W_ID : nat := 2.
Definition O_C_ID : nat := 3.
Definition O_ENTRY_D : nat := 4.
Definition O_CARRIER_ID : nat := 5.
Definition O_OL_CNT : nat := 6.
Definition O_ALL_LOCAL : nat := 7.
Definition orderline : nat := 8.
Definition order_words : nat := 9.

(** orderline_t *)
Definition OL_O_ID : nat := 0.
Definition OL_D_ID : nat := 1.
Definition OL_W_ID : nat := 2.
Definition OL_NUMBER : nat := 3.
Definition OL_I_ID : nat := 4.
Definition OL_SUPPLY_W_ID : nat := 5.
Definition OL_DELIVERY_D : nat := 6.
Definition OL_QUANTITY : nat := 7.
Definition OL_AMOUNT : nat * Z := (8%nat, 0).
Definition orderline_words : nat := 10.

(** stocktable_t *)
Definition S_I_ID : nat := 0.
Definition S_W_ID : nat := 1.
Definition S_QUANTITY : nat := 2.
Definition S_YTD : nat := 13.
Definition S_ORDER_CNT : nat := 14.
Definition stocktable_words : nat := 17.

(** item_t *)
Definition I_ID : nat := 0.
Definition I_IM_ID : nat := 1.
Definition I_NAME : nat := 2.
Definition I_PRICE : nat * Z := (3%nat, 0).
Definition I_DATA : nat := 4.
Definition item_words : nat := 5.

(** neworder_t *)
Definition NO_O_ID : nat := 0.
Definition NO_D_ID : nat := 1.
Definition NO_W_ID : nat := 2.
Definition neworder_words : nat := 3.

(** history_t *)
Definition H_C_ID : nat := 0.
Definition H_C_D_ID : nat := 1.
Definition H_C_W_ID : nat := 2.
Definition H_DATE : nat := 5.
Definition H_AMOUNT : nat * Z := (6%nat, 0).
Definition history_words : nat := 8.

(** A [float] field *)
Definition ldfl (o : Z) (f : nat * Z) : code Z := ldf32 o f.1 f.2.
Definition stfl (o : Z) (f : nat * Z) (v : Z) : code unit := stf32 o f.1 f.2 v.

(** [random_generate(randomPtr) % n] *)
Definition random_mod (n : Z) : code Z := let$ r := random_gen in CRet (r mod n).

(** ** customer.c *)

Definition customer_alloc (c_id d_id w_id last since : Z) : code Z :=
  let$ p := malloc customer_words in
  do$ st p C_ID c_id;
  do$ st p C_D_ID d_id;
  do$ st p C_W_ID w_id;
  do$ st p C_LAST last;
  do$ st p C_SINCE since;
  do$ stfl p C_BALANCE (f32_of_int (-10));
  do$ stfl p C_YTD_PAYMENT (f32_of_int 10);
  do$ st p C_PAYMENT_CNT 1;
  CRet p.

Open Scope string_scope.
Definition stringCLast : list string :=
  ["BAR"; "OUGHT"; "ABLE"; "PRI"; "PRES"; "ESE"; "ANTI"; "CALLY"; "ACTION"; "EING"].
Close Scope string_scope.

(** [stringCLast\[module\]] *)
Definition syllable (module : Z) : code string :=
  if 0 <=? module then match stringCLast !! Z.to_nat module with Some s => CRet s | None => undefined end else undefined.

Definition generate_CLAST (seedClast : Z) : code Z :=
  let module3 := Z.rem seedClast 10 in
  let app := Z.quot seedClast 10 in
  let module2 := Z.rem app 10 in
  let module1 := Z.quot app 10 in
  let$ s1 := syllable module1 in
  let$ s2 := syllable module2 in
  let$ s3 := syllable module3 in
  do_cmd (NewString (String.append (String.append s1 s2) s3)).

Definition TM_generate_CLAST := generate_CLAST.

(** [since] is the address of the literal that is passed as C_SINCE. *)
Definition fill_customer (customerMap since : Z) : code Z :=
  for_to 1 10 1 (fun id_d key =>
    for_to 1 3000 key (fun id_c key =>
      let$ c_last := (if id_c <=? 1000 then generate_CLAST (id_c - 1)
                      else let$ r := random_mod 999 in generate_CLAST r) in
      let$ chkCredit := random_mod 100 in
      let$ disc := random_mod 5000 in
      let$ customerPtr := customer_alloc id_c id_d 1 c_last since in
      do$ MAP_INSERT customerMap key customerPtr;
      CRet (key + 1))).

Definition fill_customer2 (customerMap since id_d : Z) : code Z :=
  do$ for_to 1 3000 tt (fun id_c _ =>
    let$ r := random_mod 999 in
    let$ c_last := generate_CLAST r in
    let$ chkCredit := random_mod 100 in
    let$ disc := random_mod 5000 in
    let$ customerPtr := customer_alloc id_c id_d 1 c_last since in
    do$ MAP_INSERT customerMap id_c customerPtr;
    CRet tt);
  CRet 0.

(** [for(key=1;key<=30000;key++)], with [n] turns left *)
Fixpoint getcustomer_loop (n : nat) (key customerMapPtr w_id d_id c_id customerPtr : Z) : code Z :=
  match n with
  | O => CRet customerPtr
  | S n =>
      let$ customerPtr := MAP_FIND customerMapPtr key in
      let$ hit :=
        (if customerPtr =? NULL then CRet false
         else
           let$ d := ldl customerPtr C_D_ID in
           if negb (d =? d_id) then CRet false
           else
             let$ c := ldl customerPtr C_ID in
             if negb (c =? c_id) then CRet false
             else let$ w := ldl customerPtr C_W_ID in CRet (w =? w_id)) in
      if hit : bool then CRet customerPtr
      else getcustomer_loop n (key + 1) customerMapPtr w_id d_id c_id customerPtr
  end.

Definition TM_getcustomer (customerMapPtr w_id d_id c_id : Z) : code Z :=
  getcustomer_loop (Z.to_nat 30000) 1 customerMapPtr w_id d_id c_id NULL.

(** ** orderline.c *)

Definition orderline_alloc (o_id d_id w_id number i_id supply_w_id delivery_d quantity amount : Z) : code Z :=
  let$ p := malloc orderline_words in
  do$ st p OL_O_ID o_id;
  do$ st p OL_D_ID d_id;
  do$ st p OL_W_ID w_id;
  do$ st p OL_NUMBER number;
  do$ st p OL_I_ID i_id;
  do$ st p OL_SUPPLY_W_ID supply_w_id;
  do$ st p OL_DELIVERY_D delivery_d;
  do$ st p OL_QUANTITY quantity;
  do$ stfl p OL_AMOUNT amount;
  CRet p.

Definition TM_orderline_alloc := orderline_alloc.

(** OL_DIST_INFO is not used. *)
Definition TM_add_orderline (orderlineMapPtr o_id d_id w_id number i_id supply_w_id delivery_d quantity amount key : Z) : code Z :=
  let$ orderlinePtr := TM_orderline_alloc o_id d_id w_id number i_id supply_w_id delivery_d quantity amount in
  do$ MAP_INSERT orderlineMapPtr key orderlinePtr;
  CRet orderlinePtr.

(** [n] is the node that the insertion obtains. *)
Definition TM_add_orderline2 (fuel : nat) (orderlineMapPtr o_id d_id w_id number i_id supply_w_id delivery_d quantity amount : Z) : code Z :=
  let$ orderlinePtr := TM_orderline_alloc o_id d_id w_id number i_id supply_w_id delivery_d quantity amount in
  let$ n := malloc 2 in
  do$ lift (TMlist_insert compareDataPtrAddresses fuel orderlineMapPtr orderlinePtr n);
  CRet orderlinePtr.

(** OL_DELIVERY_D and OL_AMOUNT of a line of the order [id_o] *)
Definition line_values (id_o : Z) : code (Z * Z) :=
  if id_o <? 2101 then
    let$ r := random_mod 10 in CRet (r + 1, f32_of_int 0)
  else
    let$ r := random_mod 999999 in CRet (-1, f32_of_int ((r + 1) / 100)).

Definition fill_orderline (orderlineMap id_o id_d id_w o_ol_cnt : Z) : code Z :=
  do$ for_to 1 o_ol_cnt tt (fun i _ =>
    let$ v := line_values id_o in
    let$ r := random_mod 100000 in
    let id_item := r + 1 in
    let$ orderlinePtr := orderline_alloc id_o id_d id_w i id_item id_w v.1 5 v.2 in
    do$ MAP_INSERT orderlineMap i orderlinePtr;
    CRet tt);
  CRet 0.

(** The array is an object with a word for each pointer. *)
Definition fill_orderline_array (orderlineMap id_o id_d id_w o_ol_cnt : Z) : code Z :=
  do$ for_to 1 o_ol_cnt tt (fun i _ =>
    let$ v := line_values id_o in
    let$ r := random_mod 100000 in
    let id_item := r + 1 in
    let$ orderlinePtr := orderline_alloc id_o id_d id_w i id_item id_w v.1 5 v.2 in
    st orderlineMap (Z.to_nat (o_ol_cnt - 1)) orderlinePtr);
  CRet 0.

(** ** order.c *)

Definition order_alloc (id_o id_d id_c id_w o_entry o_carrier o_ol_cnt o_all_local : Z) : code Z :=
  let$ p := malloc order_words in
  do$ st p O_ID id_o;
  do$ st p O_D_ID id_d;
  do$ st p O_C_ID id_c;
  do$ st p O_W_ID id_w;
  do$ st p O_ENTRY_D o_entry;
  do$ st p O_CARRIER_ID o_carrier;
  do$ st p O_OL_CNT o_ol_cnt;
  do$ st p O_ALL_LOCAL o_all_local;
  let$ lines := MAP_ALLOC in
  do$ st p orderline lines;
  do$ fill_orderline lines id_o id_d id_w o_ol_cnt;
  CRet p.

Definition TM_order_alloc (id_o id_d id_c id_w o_entry o_carrier o_ol_cnt o_all_local : Z) : code Z :=
  let$ p := malloc order_words in
  do$ st p O_ID id_o;
  do$ st p O_D_ID id_d;
  do$ st p O_C_ID id_c;
  do$ st p O_W_ID id_w;
  do$ st p O_ENTRY_D o_entry;
  do$ st p O_CARRIER_ID o_carrier;
  do$ st p O_OL_CNT o_ol_cnt;
  do$ st p O_ALL_LOCAL o_all_local;
  let$ lines := MAP_ALLOC in
  do$ st p orderline lines;
  let$ lines := ld p orderline in
  do$ assert (negb (lines =? NULL));
  CRet p.

Definition TM_add_order (orderMapPtr id_o id_d id_c id_w o_entry o_carrier o_ol_cnt o_all_local key_map : Z) : code Z :=
  let$ orderPtr := TM_order_alloc id_o id_d id_c id_w o_entry o_carrier o_ol_cnt o_all_local in
  do$ MAP_INSERT orderMapPtr key_map orderPtr;
  CRet orderPtr.

(** The next customer of [fill_order2] *)
Definition next_customer (id_c : Z) : Z :=
  let id_c := Z.rem (id_c + 1) 3000 in if id_c =? 0 then 3000 else id_c.

Definition fill_order2 (orderMap customerMap id_w id_d : Z) : code Z :=
  let rownumber := 3000 in
  let$ sec := time_now in
  let$ r := random_mod 3000 in
  do$ for_to 1 rownumber (r + 1) (fun id_o id_c =>
    let$ o_carr := (if id_o <? 2101 then let$ r := random_mod 10 in CRet (r + 1) else CRet (-1)) in
    let$ r := random_mod 10 in
    let o_ol_cnt := r + 5 in
    do$ assert ((id_c <? 3001) && (0 <? id_c));
    let$ orderPtr := order_alloc id_o id_d id_c id_w sec o_carr o_ol_cnt 1 in
    do$ MAP_INSERT orderMap id_o orderPtr;
    let$ cPtr := MAP_FIND customerMap id_c in
    do$ st cPtr lastOrder orderPtr;
    CRet (next_customer id_c));
  CRet (rownumber + 1).

(** ** district.c *)

Definition district_alloc (since d_id w_id tax : Z) : code Z :=
  let$ p := malloc district_words in
  do$ st p D_ID d_id;
  do$ st p D_W_ID w_id;
  do$ st p D_NEXT_O_ID 3001;
  do$ stfl p D_TAX tax;
  do$ stfl p D_YTD (f32_of_int 30000);
  let$ m := MAP_ALLOC in
  do$ st p customerMap m;
  let$ m := ld p customerMap in
  do$ fill_customer2 m since d_id;
  let$ m := MAP_ALLOC in
  do$ st p orderMap m;
  let$ om := ld p orderMap in
  let$ cm := ld p customerMap in
  do$ fill_order2 om cm w_id d_id;
  CRet p.

(** [x = random_generate(randomPtr) % 2000; x = x / 10000] *)
Definition random_tax : code Z :=
  let$ r := random_mod 2000 in CRet (fdiv (f32_of_int r) (f32_of_int 10000)).

Definition fill_district (districtMap since : Z) : code Z :=
  do$ for_to 1 10 tt (fun id _ =>
    let$ d_tax := random_tax in
    let$ districtPtr := district_alloc since id 1 d_tax in
    do$ MAP_INSERT districtMap id districtPtr;
    CRet tt);
  CRet 11.

(** [for(key=1;key<=10;key++)], with [n] turns left *)
Fixpoint getdistrict_loop (n : nat) (key districtMapPtr w_id d_id districtPtr : Z) : code Z :=
  match n with
  | O => CRet districtPtr
  | S n =>
      let$ districtPtr := MAP_FIND districtMapPtr key in
      let$ hit :=
        (if districtPtr =? NULL then CRet false
         else
           let$ d := ldl districtPtr D_ID in
           if negb (d =? d_id) then CRet false
           else let$ w := ldl districtPtr D_W_ID in CRet (w =? w_id)) in
      if hit : bool then CRet districtPtr
      else getdistrict_loop n (key + 1) districtMapPtr w_id d_id districtPtr
  end.

Definition TM_getdistrict (districtMapPtr w_id d_id : Z) : code Z :=
  getdistrict_loop 10 1 districtMapPtr w_id d_id NULL.

(** ** warehouse.c *)

Definition warehouse_alloc (since id tax : Z) : code Z :=
  let$ p := malloc warehouse_words in
  do$ st p W_ID id;
  do$ stfl p W_TAX tax;
  do$ stfl p W_YTD (f32_of_int 300000);
  let$ m := MAP_ALLOC in
  do$ st p districtMap m;
  let$ m := ld p districtMap in
  do$ fill_district m since;
  CRet p.

Definition fill_warehouse (warehouseMapPtr since : Z) : code Z :=
  let$ w_tax := random_tax in
  let$ warehousePtr := warehouse_alloc since 1 w_tax in
  do$ MAP_INSERT warehouseMapPtr 1 warehousePtr;
  CRet 1.

Definition TM_getwarehouse (warehouseMapPtr w_id : Z) : code Z := MAP_FIND warehouseMapPtr w_id.

(** ** history.c *)

Definition history_alloc (c_id c_d_id c_w_id date amount : Z) : code Z :=
  let$ p := malloc history_words in
  do$ st p H_C_ID c_id;
  do$ st p H_C_D_ID c_d_id;
  do$ st p H_C_W_ID c_w_id;
  do$ st p H_DATE date;
  do$ stfl p H_AMOUNT amount;
  CRet p.

Definition TM_history_alloc := history_alloc.

Definition TM_add_history (historyMapPtr c_id c_d_id c_w_id date amount key : Z) : code Z :=
  let$ historyPtr := TM_history_alloc c_id c_d_id c_w_id date amount in
  do$ MAP_INSERT historyMapPtr key historyPtr;
  CRet historyPtr.

Definition fill_history (historyMap : Z) : code Z :=
  let$ sec := time_now in
  for_to 1 10 1 (fun id_d id_h =>
    for_to 1 3000 id_h (fun id_c id_h =>
      let$ historyPtr := history_alloc id_c id_d 0 sec (f32_of_int 10) in
      let id_h := id_h + 1 in
      do$ MAP_INSERT historyMap id_h historyPtr;
      CRet id_h)).

(** ** item.c *)

Definition item_alloc (i_id im_id name price data : Z) : code Z :=
  let$ p := malloc item_words in
  do$ st p I_ID i_id;
  do$ st p I_IM_ID im_id;
  do$ st p I_NAME name;
  do$ stfl p I_PRICE price;
  do$ st p I_DATA data;
  CRet p.

(** [iName] and [iData] are the addresses of the arrays of the function; what it
    writes there is checked to be inside. *)
Definition fill_item (iName iData itemMap : Z) : code Z :=
  do$ for_to 1 100000 tt (fun id _ =>
    let$ imID := random_mod 10000 in
    let$ r := random_mod 10 in
    let leniname := r + 14 in
    let$ r := random_mod 24 in
    let lenidata := r + 26 in
    do$ assert (leniname <? 24);
    do$ assert (lenidata <? 50);
    let$ r := random_mod 9900 in
    let iPrice := fdiv (fadd (f32_of_int r) (f32_of_int 100)) (f32_of_int 100) in
    let$ itemPtr := item_alloc id imID iName iPrice iData in
    do$ MAP_INSERT itemMap id itemPtr;
    CRet tt);
  CRet 100001.

(** ** neworder.c *)

Definition neworder_alloc (o_id d_id w_id : Z) : code Z :=
  let$ p := malloc neworder_words in
  do$ st p NO_D_ID d_id;
  do$ st p NO_O_ID o_id;
  do$ st p NO_W_ID w_id;
  CRet p.

Definition TM_neworder_alloc := neworder_alloc.

Definition TM_add_neworder (fuel : nat) (neworderMapPtr o_id d_id w_id : Z) : code Z :=
  let$ neworderPtr := TM_neworder_alloc o_id d_id w_id in
  do$ assert (negb (neworderPtr =? NULL));
  let$ n := malloc 2 in
  do$ lift (TMlist_insert compareDataPtrAddresses fuel neworderMapPtr neworderPtr n);
  CRet neworderPtr.

Definition fill_neworder (fuel : nat) (neworderMap : Z) : code Z :=
  do$ for_to 1 10 tt (fun id_d _ =>
    for_to 2101 3000 tt (fun id_o _ =>
      let$ neworderPtr := neworder_alloc id_o id_d 0 in
      let$ n := malloc 2 in
      do$ lift (list_insert compareDataPtrAddresses fuel neworderMap neworderPtr n);
      CRet tt));
  lift (list_getSize neworderMap).

(** ** stocktable.c *)

Definition stocktable_alloc (i_id w_id quantity : Z) : code Z :=
  let$ p := malloc stocktable_words in
  do$ st p S_I_ID i_id;
  do$ st p S_W_ID w_id;
  do$ st p S_QUANTITY quantity;
  CRet p.

Definition fill_stock (stockMap : Z) : code Z :=
  do$ for_to 1 100000 tt (fun id _ =>
    let$ r := random_mod 90 in
    let quantity := r + 10 in
    let$ stockPtr := stocktable_alloc id 0 quantity in
    do$ MAP_INSERT stockMap id stockPtr;
    CRet tt);
  do$ for_to 1 100000 tt (fun id _ =>
    let$ p := MAP_FIND stockMap id in assert (negb (p =? NULL)));
  CRet 100001.
