(* ===== verification/StoreTx.v ===== *)
(** * The programs of the server as transactions

    [compile] turns a program over the commands of Store.v into one that only reads
    and writes words of objects, with every map the red-black tree of TPCC/lib that
    it is in the server: what a transaction executes ([to_tx] of Objects.v).  The
    blocks that malloc returns, the random numbers, the times and the strings are
    those of an environment.  A run on the store is a run on the heap ([sim]): so
    what TpccCorrect.v says of the programs holds of the transactions. *)
From Stdlib Require Import String.
From S2P Require Import Prelude Words LockWord Machine Tx Ctl CtlHist Wrappers Objects RBTree RBShape RBPure RBOrder RBMap RBOps Store.
Open Scope obj_scope.

(** ** Compilation *)

(** The turns that a loop on a tree is given: a tree has fewer than [2 ^ 64] nodes. *)
Definition FUEL : nat := 257.

(** Without memory the library exits, and the transaction never returns. *)
Definition no_memory {A} : oprog A := OAbort OFail.

(** The next block, which must have [n] words *)
Definition obtain {A} (n : nat) (e : env) (q : Z -> env -> oprog A) : oprog A :=
  match places e with
  | [] => no_memory
  | (a, ob) :: ps => if (length ob =? n)%nat then q a (e <| places := ps |>) else no_memory
  end.

Definition compile_cmd {X} (c : cmd X) (e : env) : oprog (X * env) :=
  match c in cmd X return oprog (X * env) with
  | Load o f => OLoad o f (fun v => ORet (v, e))
  | Store o f v => OStore o f v (ORet (tt, e))
  | Store2 o f v m => OStore2 o f v m (ORet (tt, e))
  | Touch o => OTouch o (ORet (tt, e))
  | MapGet s key => let@ v := TMrbtree_get compareKeysDefault FUEL s key in ORet (v, e)
  | MapInsert s key val =>
      obtain 6 e (fun n e => let@ r := TMrbtree_insert compareKeysDefault FUEL s key (w64 val) n in ORet (r, e))
  | MapAlloc => obtain 2 e (fun s e => do@ TMrbtree_alloc s; ORet (s, e))
  | Malloc n => obtain n e (fun a e => ORet (a, e))
  | NewString s => obtain (string_words s) e (fun p e => ORet (p, e <| strs := <[p := s]> (strs e) |>))
  | GetString p => match strs e !! p with Some s => ORet (s, e) | None => OFail end
  | Random => ORet (draws e O, e <| draws := (fun n => draws e (S n)) |>)
  | Time => ORet (times e O, e <| times := (fun n => times e (S n)) |>)
  | Restart => OAbort (ORet (tt, e))
  | Undefined | Spent => OFail
  end.

Fixpoint compile {A} (p : code A) (e : env) : oprog (A * env) :=
  match p with
  | CRet a => ORet (a, e)
  | CDo c k => let@ r := compile_cmd c e in compile (k r.1) r.2
  end.

(** The body of the transaction *)
Definition code_tx (p : code Z) (e : env) : txbody := to_tx (let@ r := compile p e in ORet r.1).

(** ** Trees *)

(** Keys whose differences are those of the numbers that they stand for *)
#[export] Instance key_order : KeyOrder compareKeysDefault (fun k => key_ok k = true).
Proof.
  assert (Hk : forall k, key_ok k = true -> is_word k /\ - 2 ^ 62 <= to_long k < 2 ^ 62 /\ (to_long k = k \/ to_long k = k - 2 ^ 64)).
  { intros k Hk. unfold key_ok in Hk. unfold is_word, word_size, to_long. destruct (Z.ltb_spec k (2 ^ 63)); lia. }
  assert (Hc : forall a b, key_ok a = true -> key_ok b = true -> compareKeysDefault a b = to_long a - to_long b).
  { intros a b (Ha & Ha2 & Ha3)%Hk (Hb & Hb2 & Hb3)%Hk. unfold compareKeysDefault, w64, word_size.
    assert (Hm : (a - b) mod 2 ^ 64 = (to_long a - to_long b) mod 2 ^ 64).
    { destruct Ha3 as [-> | ->], Hb3 as [-> | ->]; [done| | |].
      - by replace (a - b) with (a - (b - 2 ^ 64) + -1 * 2 ^ 64) by lia; rewrite Z.mod_add by lia.
      - by replace (a - b) with (a - 2 ^ 64 - b + 1 * 2 ^ 64) by lia; rewrite Z.mod_add by lia.
      - by replace (a - b) with (a - 2 ^ 64 - (b - 2 ^ 64)) by lia. }
    rewrite Hm. destruct (Z.leb_spec 0 (to_long a - to_long b)).
    - rewrite Z.mod_small by lia. rewrite (proj2 (Z.ltb_lt _ _)) by lia. done.
    - rewrite <- (Z.mod_add _ 1) by lia. rewrite Z.mod_small by lia. rewrite (proj2 (Z.ltb_ge _ _)) by lia. lia. }
  assert (Hinj : forall a b, key_ok a = true -> key_ok b = true -> to_long a = to_long b -> a = b).
  { intros a b (Ha & _ & Ha3)%Hk (Hb & _ & Hb3)%Hk. unfold is_word, word_size in *. lia. }
  split.
  - intros a Ha. by apply Hk.
  - intros a b Ha Hb. rewrite Hc by done. split; [intros; apply Hinj; [done|done|lia]|intros ->; lia].
  - intros a b Ha Hb. rewrite !Hc by done. lia.
  - intros a b c Ha Hb Hd. rewrite !Hc by done. lia.
Qed.

Abbreviation tree_at := (map_at compareKeysDefault (fun k => key_ok k = true)).

Lemma tree_at_frame h h' s rest N M :
  tree_at h s rest N M -> (forall a, a ∈ s :: N -> h' !! a = h !! a) -> tree_at h' s rest N M.
Proof.
  intros (t & [Hroot Htree Hp] & Hrb & Hs & HN & HM) Hf. exists t. split_and!; try done. constructor; [|..|done].
  - rewrite Hf by (by left). done.
  - apply (tree_in_frame _ _ _ _ Htree). intros a Ha. apply Hf. right. by rewrite <- HN.
Qed.

Lemma tree_at_nodes h s rest N M : tree_at h s rest N M -> NoDup (s :: N) /\ Forall is_addr (s :: N) /\ length N = base.size M.
Proof.
  intros (t & [_ _ [Hn Ha]] & _ & Hs & HN & HM). assert (Hp : s :: addrs t ≡ₚ s :: N) by (by rewrite HN).
  split_and!; [by rewrite <- Hp|by rewrite <- Hp|]. rewrite <- HN, <- HM, (map_of_size compareKeysDefault _ _ Hs), length_inorder.
  clear. induction t as [|c l IHl a k v r IHr]; cbn; [done|]. rewrite length_app. lia.
Qed.

Lemma nodup_range n (l : list Z) : NoDup l -> Forall (fun a => 0 < a < n) l -> l <> [] -> Z.of_nat (length l) < n.
Proof.
  intros Hn Hf Hl. assert (Hs : l ⊆+ seqZ 1 (n - 1)).
  { apply NoDup_submseteq; [done|]. intros a Ha. apply elem_of_seqZ. rewrite list.Forall_forall in Hf. specialize (Hf a Ha). lia. }
  apply submseteq_length in Hs. rewrite length_seqZ in Hs. assert (0 < n); [|lia].
  destruct l as [|a l]; [done|]. apply list.Forall_cons in Hf as [Ha _]. lia.
Qed.

Lemma tree_at_enough h s rest N M : tree_at h s rest N M -> enough FUEL M.
Proof.
  intros (Hn & Ha & Hl)%tree_at_nodes. assert (Hlt : Z.of_nat (length (s :: N)) < 2 ^ 64) by (by apply nodup_range).
  cbn in Hlt. unfold enough, FUEL. rewrite <- Hl. set (n := S (length N)) in *. assert (H0 : (0 < n)%nat) by lia. clearbody n.
  pose proof (Nat.log2_spec n H0) as [Hlow _]. apply Nat2Z.inj_le in Hlow. rewrite Nat2Z.inj_pow in Hlow. change (Z.of_nat 2) with 2 in Hlow.
  assert (Z.of_nat (Nat.log2 n) < 64); [|lia]. apply (Z.pow_lt_mono_r_iff 2); lia.
Qed.

(** ** The store in the heap *)

(** What the object at an address belongs to *)
Inductive owner := Row | OfMap (s : Z) | Block.

(** The heap holds the store: the rows, every map as a tree, the blocks that malloc
    will return to the program, and those that are for others ([F]). *)
Record stored (F : list (Z * list Z)) (x : db) (own : gmap Z owner) (h : gmap Z (list Z)) : Prop := {
  so_objs o ob : objs x !! o = Some ob -> own !! o = Some Row /\ h !! o = Some ob;
  so_maps s M : maps x !! s = Some M ->
    exists rest N, tree_at h s rest N M /\ forall a, a ∈ s :: N -> own !! a = Some (OfMap s);
  so_nodup : NoDup (places (ev x) ++ F).*1;
  so_blocks a ob : (a, ob) ∈ places (ev x) ++ F ->
    own !! a = Some Block /\ h !! a = Some ob /\ user_addr a /\ strs (ev x) !! a = None }.

Section Sim.

Context (F : list (Z * list Z)).

(** A map changes, its nodes apart from all else. *)
Lemma stored_map x own h s M' rest N' own' h' :
  stored F x own h -> tree_at h' s rest N' M' ->
  (forall a k, own !! a = Some k -> own' !! a = Some k) -> (forall a, a ∈ s :: N' -> own' !! a = Some (OfMap s)) ->
  (forall a k, own !! a = Some k -> k <> OfMap s -> h' !! a = h !! a) ->
  stored F (x <| maps := <[s := M']> (maps x) |>) own' h'.
Proof.
  intros [Ho Hm Hn Hb] Ht Hown HN Hh. constructor; cbn; [| |done|].
  - intros o ob [H1 H2]%Ho. split; [by apply Hown|]. by rewrite (Hh o Row).
  - intros s1 M1. destruct (decide (s1 = s)) as [->|Hne].
    + rewrite lookup_insert_eq. intros [= <-]. by exists rest, N'.
    + rewrite lookup_insert_ne by done. intros (rest1 & N1 & Ht1 & H1)%Hm. exists rest1, N1. split.
      * apply (tree_at_frame _ _ _ _ _ _ Ht1). intros a Ha. apply (Hh a (OfMap s1)); [by apply H1|congruence].
      * intros a Ha. by apply Hown, H1.
  - intros a ob (H1 & H2 & H3 & H4)%Hb. split_and!; [by apply Hown| |done|done]. by rewrite (Hh a Block).
Qed.

(** A row changes. *)
Lemma stored_row x own h o ob ob' :
  stored F x own h -> objs x !! o = Some ob ->
  stored F (x <| objs := <[o := ob']> (objs x) |>) own (<[o := ob']> h).
Proof.
  intros [Ho Hm Hn Hb] Hob. destruct (Ho o ob Hob) as [Hoo _]. constructor; cbn; [| |done|].
  - intros p pb. destruct (decide (p = o)) as [->|Hne].
    + rewrite !lookup_insert_eq. by intros [= ->].
    + rewrite !lookup_insert_ne by done. apply Ho.
  - intros s M (rest & N & Ht & H1)%Hm. exists rest, N. split; [|done]. apply (tree_at_frame _ _ _ _ _ _ Ht).
    intros a Ha. apply lookup_insert_ne. intros <-. specialize (H1 _ Ha). congruence.
  - intros a pb (H1 & H2 & H3 & H4)%Hb. split_and!; [done| |done|done]. rewrite lookup_insert_ne; [done|]. intros <-. congruence.
Qed.

(** The next block *)
Lemma stored_take x own h a ob ps :
  stored F x own h -> places (ev x) = (a, ob) :: ps ->
  free_at a x = true /\ h !! a = Some ob /\ stored F (x <| ev := ev x <| places := ps |> |>) (delete a own) h /\
  delete a own !! a = None.
Proof.
  intros [Ho Hm Hn Hb] Hp. rewrite Hp in Hn, Hb. cbn in Hn. apply list.NoDup_cons in Hn as [Hna Hn].
  destruct (Hb a ob) as (H1 & H2 & H3 & H4); [by left|]. split_and!; [|done| |apply lookup_delete_eq].
  - apply free_at_spec. split_and!; [done| | |done].
    + destruct (objs x !! a) as [ob'|] eqn:He; [|done]. apply Ho in He as [He _]. congruence.
    + destruct (maps x !! a) as [M|] eqn:He; [|done]. apply Hm in He as (rest & N & _ & He). rewrite He in H1; [done|by left].
  - constructor; cbn.
    + intros o ob' [Hoo Hob]%Ho. split; [|done]. rewrite lookup_delete_ne; [done|]. intros <-. congruence.
    + intros s M (rest & N & Ht & H5)%Hm. exists rest, N. split; [done|]. intros b Hb2. rewrite lookup_delete_ne; [by apply H5|].
      intros <-. specialize (H5 _ Hb2). congruence.
    + done.
    + intros b bb Hin. destruct (Hb b bb) as (H5 & H6 & H7 & H8); [by right|]. split_and!; try done.
      rewrite lookup_delete_ne; [done|]. intros <-. apply Hna. apply list_elem_of_fmap. by exists (a, bb).
Qed.

(** A new row *)
Lemma stored_new x own h a ob :
  stored F x own h -> own !! a = None -> h !! a = Some ob ->
  stored F (x <| objs := <[a := ob]> (objs x) |>) (<[a := Row]> own) h.
Proof.
  intros [Ho Hm Hn Hb] Ha Hob.
  assert (Hown : forall b k, own !! b = Some k -> <[a := Row]> own !! b = Some k).
  { intros b k Hk. rewrite lookup_insert_ne; [done|]. intros <-. congruence. }
  constructor; cbn; [| |done|].
  - intros o ob'. destruct (decide (o = a)) as [->|Hne].
    + rewrite !lookup_insert_eq. by intros [= <-].
    + rewrite lookup_insert_ne by done. intros [H1 H2]%Ho. by split; [apply Hown|].
  - intros s M (rest & N & Ht & H1)%Hm. exists rest, N. split; [done|]. intros b Hin. by apply Hown, H1.
  - intros b ob' (H1 & H2 & H3 & H4)%Hb. split_and!; [by apply Hown|done|done|done].
Qed.

Lemma take_stored n x own h :
  stored F x own h ->
  take_block n x =
  match places (ev x) with
  | [] => None
  | (a, ob) :: ps => if (length ob =? n)%nat then Some (a, ob, x <| ev := ev x <| places := ps |> |>) else None
  end.
Proof.
  intros Hst. unfold take_block. destruct (places (ev x)) as [|[a ob] ps] eqn:Hp; [done|].
  destruct (stored_take _ _ _ _ _ _ Hst Hp) as [-> _]. by destruct (length ob =? n)%nat.
Qed.

(** ** The simulation *)

(** The heap program ends as the run on the store does. *)
Definition agrees {A} (o : outcome A) (p : oprog (A * env)) (h : gmap Z (list Z)) : Prop :=
  match o with
  | Done v x => exists own h', Objects.run p h = Some ((v, ev x), h') /\ stored F x own h'
  | Stop Restarted | Stop NoMemory => restarts p h = true
  | Stop _ => True
  end.

(** An operation on the tree of a map *)
Lemma stored_op x own h s M o :
  stored F x own h -> maps x !! s = Some M -> op_static (fun k => key_ok k = true) o ->
  (forall n, n ∈ op_node o -> own !! n = None /\ is_addr n /\ exists ob, h !! n = Some ob /\ length ob = 6%nat) ->
  exists own' h', Objects.run (run_op compareKeysDefault FUEL s o) h = Some ((spec_op o M).1, h') /\
    stored F (x <| maps := <[s := (spec_op o M).2]> (maps x) |>) own' h'.
Proof.
  intros Hst HM Hs Hn. destruct (so_maps _ _ _ _ Hst s M HM) as (rest & N & Ht & HN).
  assert (Hok : op_ok (fun k => key_ok k = true) h s N o).
  { assert (Hf : forall n, n ∈ op_node o -> fresh N s h n).
    { intros n Hin. destruct (Hn n Hin) as (H1 & H2 & H3). constructor; [done| |done]. intros Hin2. specialize (HN _ Hin2). congruence. }
    destruct o as [q w n|q|q w n|q|q]; cbn in *; try done; destruct Hs; split_and!; try done; apply Hf; by left. }
  destruct (op_refines _ _ FUEL h s rest N M o Ht (tree_at_enough _ _ _ _ _ Ht) Hok) as (h' & N' & Hr & Ht' & Ho & HN').
  exists (list_to_map ((fun n => (n, OfMap s)) <$> op_node o) ∪ own), h'. split; [exact Hr|].
  assert (Hlk : forall a, a ∉ op_node o ->
    (list_to_map ((fun n => (n, OfMap s)) <$> op_node o) ∪ own) !! a = own !! a).
  { intros a Ha. apply lookup_union_r. apply not_elem_of_list_to_map_1. by rewrite <- list_fmap_compose, list_fmap_id. }
  assert (Hown : forall a k, own !! a = Some k -> a ∉ op_node o).
  { intros a k Ha Hin. destruct (Hn a Hin) as [H1 _]. congruence. }
  eapply stored_map; [exact Hst|exact Ht'|..].
  - intros a k Ha. rewrite Hlk; [done|by eapply Hown].
  - intros a Ha. destruct (decide (a ∈ op_node o)) as [Hin|Hin].
    + apply lookup_union_Some_l. destruct o; cbn in Hin |- *; apply elem_of_cons in Hin as [->|[]%elem_of_nil] || by apply elem_of_nil in Hin.
      all: apply lookup_insert_eq.
    + rewrite Hlk by done. apply HN. apply elem_of_cons in Ha as [->|Ha]; [by left|]. right.
      apply HN' in Ha. by apply elem_of_app in Ha as [Ha|Ha].
  - intros a k Ha Hk. apply Ho.
    + intros ->. rewrite HN in Ha by (by left). congruence.
    + rewrite not_elem_of_app. split; [by eapply Hown|]. intros Hin. rewrite HN in Ha by (by right). congruence.
Qed.

(** A command that takes a block *)
Lemma sim_obtain {X} n x own h (r : Z -> list Z -> db -> outcome X) (q : Z -> env -> oprog (X * env)) :
  stored F x own h ->
  (forall a ob x' own', length ob = n -> h !! a = Some ob -> own' !! a = None -> user_addr a ->
     stored F x' own' h -> objs x' = objs x -> maps x' = maps x -> agrees (r a ob x') (q a (ev x')) h) ->
  agrees (match take_block n x with Some (a, ob, x') => r a ob x' | None => Stop NoMemory end) (obtain n (ev x) q) h.
Proof.
  intros Hst Hq. rewrite (take_stored n x own h Hst). unfold obtain. destruct (places (ev x)) as [|[a ob] ps] eqn:Hp; [done|].
  destruct (Nat.eqb_spec (length ob) n) as [Hl|]; [|done].
  destruct (stored_take _ _ _ _ _ _ Hst Hp) as (Hf & Hob & Hst' & Hn). apply free_at_spec in Hf as (Hu & _).
  exact (Hq a ob _ _ Hl Hob Hn Hu Hst' eq_refl eq_refl).
Qed.

(** The environment apart from the blocks changes. *)
Lemma stored_env x own h e :
  stored F x own h -> places e = places (ev x) ->
  (forall a s, strs e !! a = Some s -> strs (ev x) !! a = Some s \/ own !! a <> Some Block) ->
  stored F (x <| ev := e |>) own h.
Proof.
  intros [Ho Hm Hn Hb] Hp Hs. constructor; cbn; [done|done|by rewrite Hp|]. rewrite Hp. intros a ob (H1 & H2 & H3 & H4)%Hb.
  split_and!; try done. destruct (strs e !! a) as [s|] eqn:He; [|done]. destruct (Hs a s He); congruence.
Qed.

Lemma sim_cmd {X} (c : cmd X) x own h : stored F x own h -> agrees (step c x) (compile_cmd c (ev x)) h.
Proof.
  intros Hst. destruct c as [o f|o f v|o f v m|o|s key|s key val| |n|str|p| | | | |]; cbn [step compile_cmd].
  - destruct (objs x !! o) as [ob|] eqn:Ho; [|done]. destruct (ob !! f) as [v|] eqn:Hv; [|done].
    exists own, h. split; [|done]. cbn. destruct (so_objs _ _ _ _ Hst o ob Ho) as [_ ->]. by rewrite Hv.
  - destruct (objs x !! o) as [ob|] eqn:Ho; [|done]. destruct (f <? length ob)%nat eqn:Hf; [|done].
    exists own, (<[o := <[f := w64 v]> ob]> h). split; [|by apply (stored_row x own h o ob)].
    cbn [Objects.run]. destruct (so_objs _ _ _ _ Hst o ob Ho) as [_ ->]. by rewrite Hf.
  - destruct (objs x !! o) as [ob|] eqn:Ho; [|done]. destruct (ob !! f) as [w|] eqn:Hw; [|done].
    exists own, (<[o := <[f := wmerge w (w64 v) (w64 m)]> ob]> h). split; [|by apply (stored_row x own h o ob)].
    cbn. destruct (so_objs _ _ _ _ Hst o ob Ho) as [_ ->]. by rewrite Hw.
  - destruct (objs x !! o) as [[|w ob]|] eqn:Ho; [done| |done].
    exists own, h. split; [|done]. cbn. by destruct (so_objs _ _ _ _ Hst o _ Ho) as [_ ->].
  - destruct (maps x !! s) as [M|] eqn:HM; [|done]. destruct (key_ok key) eqn:Hk; [|done].
    destruct (stored_op x own h s M (Get key) Hst HM Hk) as (own' & h' & Hr & Hst'); [by intros n []%elem_of_nil|].
    exists own', h'. split; [|].
    + by rewrite (run_bind_ok _ _ _ _ _ Hr).
    + cbn [spec_op snd] in Hst'. rewrite insert_id in Hst' by done. by destruct x.
  - destruct (maps x !! s) as [M|] eqn:HM; [|done]. destruct (key_ok key) eqn:Hk; [|done].
    apply (sim_obtain 6 x own h (fun _ _ x => match M !! key with
      | Some _ => Done 0 x | None => Done 1 (x <| maps := <[s := <[key := w64 val]> M]> (maps x) |>) end)); [done|].
    intros n ob x' own1 Hl Hob Hn Hu Hst1 _ Hm1. rewrite <- Hm1 in HM.
    destruct (stored_op x' own1 h s M (Insert key (w64 val) n) Hst1 HM) as (own' & h' & Hr & Hst').
    + split; [done|apply w64_word].
    + intros n' [->|[]%elem_of_nil]%elem_of_cons. split_and!; [done| |by exists ob]. unfold is_addr. destruct Hu. lia.
    + cbn [run_op] in Hr. cbn [spec_op] in Hr, Hst'. destruct (M !! key) as [v|].
      * exists own', h'. split; [by rewrite (run_bind_ok _ _ _ _ _ Hr)|]. cbn [snd] in Hst'. rewrite insert_id in Hst' by done. by destruct x'.
      * exists own', h'. split; [by rewrite (run_bind_ok _ _ _ _ _ Hr)|done].
  - apply (sim_obtain 2 x own h (fun s _ x => Done s (x <| maps := <[s := ∅]> (maps x) |>))); [done|].
    intros s ob x' own1 Hl Hob Hn Hu Hst1 _ _. destruct ob as [|o0 rest]; [done|].
    destruct (alloc_map compareKeysDefault (fun k => key_ok k = true) h s o0 rest) as (h' & Hr & Ht & Ho); [unfold is_addr; destruct Hu; lia|done|].
    exists (<[s := OfMap s]> own1), h'. split; [by rewrite (run_bind_ok _ _ _ _ _ Hr)|].
    assert (Hne : forall a k, own1 !! a = Some k -> a <> s) by (intros a k Ha ->; congruence).
    eapply stored_map; [exact Hst1|exact Ht|..].
    + intros a k Ha. rewrite lookup_insert_ne; [done|]. intros <-. by eapply Hne.
    + intros a [->|[]%elem_of_nil]%elem_of_cons. apply lookup_insert_eq.
    + intros a k Ha _. apply Ho; [by eapply Hne|apply not_elem_of_nil].
  - apply (sim_obtain n x own h (fun a ob x => Done a (x <| objs := <[a := ob]> (objs x) |>))); [done|].
    intros a ob x' own1 Hl Hob Hn Hu Hst1 _ _. exists (<[a := Row]> own1), h. split; [done|]. by apply stored_new.
  - apply (sim_obtain (string_words str) x own h (fun p _ x => Done p (x <| ev := ev x <| strs := <[p := str]> (strs (ev x)) |> |>))); [done|].
    intros p ob x' own1 Hl Hob Hn Hu Hst1 _ _. exists own1, h. split; [done|]. apply stored_env; [done|done|].
    intros a s. cbn. destruct (decide (a = p)) as [->|Hne]; [right; congruence|]. rewrite lookup_insert_ne by done. by left.
  - destruct (strs (ev x) !! p) as [s|]; [|done]. by exists own, h.
  - exists own, h. split; [done|]. apply stored_env; [done|done|]. by left.
  - exists own, h. split; [done|]. apply stored_env; [done|done|]. by left.
  - done.
  - done.
  - done.
Qed.

(** The run of a program *)
Theorem sim {A} (p : code A) x own h : stored F x own h -> agrees (run p x) (compile p (ev x)) h.
Proof.
  revert x own h. induction p as [a|X c k IH]; intros x own h Hst; cbn [run compile].
  - by exists own, h.
  - pose proof (sim_cmd c x own h Hst) as Hc. destruct (step c x) as [v x'|s]; cbn in Hc.
    + destruct Hc as (own' & h' & Hr & Hst'). specialize (IH v x' own' h' Hst').
      destruct (run (k v) x') as [a x2|s]; cbn in IH |- *.
      * destruct IH as (own2 & h2 & Hr2 & Hst2). exists own2, h2. split; [|done]. by rewrite (run_bind_ok _ _ _ _ _ Hr).
      * assert (Hb : restarts (compile (k v) (ev x')) h' = true -> restarts (let@ r := compile_cmd c (ev x) in compile (k r.1) r.2) h = true).
        { intros H. rewrite restarts_obind, Hr. cbn. by rewrite H, orb_true_r. }
        destruct s; auto.
    + assert (Hb : restarts (compile_cmd c (ev x)) h = true -> restarts (let@ r := compile_cmd c (ev x) in compile (k r.1) r.2) h = true).
      { intros H. by rewrite restarts_obind, H. }
      destruct s; cbn; auto.
Qed.

End Sim.

(** ** The transaction *)

(** What a transaction that returns has done, when the program does nothing undefined *)
Lemma code_tx_run F (p : code Z) x own h m r m' :
  stored F x own h -> layout h -> Objects.holds h m -> is_mem m ->
  run p x <> Stop Wrong -> run p x <> Stop Endless ->
  seq_body (code_tx p (ev x)) m = Some (r, m') ->
  exists x' own' h', run p x = Done r x' /\ stored F x' own' h' /\ layout h' /\ Objects.holds h' m' /\ is_mem m'.
Proof.
  intros Hst Hl Hh Hm Hw He Hb. pose proof (sim F p x own h Hst) as Hs. rewrite seq_body_run in Hb. unfold code_tx in Hb.
  destruct (run p x) as [a x'|s]; cbn in Hs.
  - destruct Hs as (own' & h' & Hr & Hst'). assert (Hr2 : Objects.run (let@ r := compile p (ev x) in ORet r.1) h = Some (a, h')).
    { by rewrite (run_bind_ok _ _ _ _ _ Hr). }
    destruct (run_to_tx _ _ _ _ _ Hr2 Hl Hh Hm) as (m1 & Hb1 & Hl1 & Hh1 & Hm1 & _). rewrite Hb1 in Hb. injection Hb as <- <-.
    by exists x', own', h'.
  - assert (Hab : restarts (compile p (ev x)) h = true -> False).
    { intros Hr. rewrite (restarts_to_tx _ h m) in Hb; [done|by rewrite restarts_obind, Hr|done..]. }
    by destruct s.
Qed.

(** ** Several programs on one store *)

Lemma stored_perm F F' x own h : F ≡ₚ F' -> stored F x own h -> stored F' x own h.
Proof.
  intros Hp [Ho Hm Hn Hb]. constructor; [done|done|by rewrite <- Hp|]. intros a ob. rewrite <- Hp. apply Hb.
Qed.

(** The program that runs next gets its blocks. *)
Lemma stored_lend ps F x own h e :
  places (ev x) = [] -> stored (ps ++ F) x own h -> places e = ps -> strs e = strs (ev x) ->
  stored F (x <| ev := e |>) own h.
Proof.
  intros Hx [Ho Hm Hn Hb] Hp Hs. rewrite Hx in Hn, Hb. cbn in Hn, Hb. constructor; cbn; [done|done|by rewrite Hp|].
  rewrite Hp, Hs. apply Hb.
Qed.

(** When it has ended, the blocks of the others are there still. *)
Lemma stored_return F x own h e :
  stored F x own h -> places e = [] -> (forall a, a ∈ F.*1 -> strs e !! a = None) ->
  stored F (x <| ev := e |>) own h.
Proof.
  intros [Ho Hm Hn Hb] Hp Hs. constructor; cbn; [done|done| |]; rewrite Hp; cbn.
  - rewrite fmap_app in Hn. by apply list.NoDup_app in Hn as (_ & _ & Hn).
  - intros a ob Hin. destruct (Hb a ob) as (H1 & H2 & H3 & _); [apply elem_of_app; by right|]. split_and!; try done.
    apply Hs, list_elem_of_fmap. by exists (a, ob).
Qed.
