(* ===== verification/Manager.v ===== *)
(** * The transactions of the server: TPCC/Server/manager.c

    The manager with its tables, and the five transactions of TPC-C (the text between
    TM_BEGIN and TM_END) as programs over the commands of Store.v.  The direct
    accesses of a transaction, to fields that are not written once the row is in a
    table, are ordinary commands as well.  What is printed is left out, and so are
    the parts of the source that are commented out or not compiled
    (DELIVERY_BIGTX, NEWQUAGLIA). *)
From Stdlib Require Import String.
From S2P Require Import Prelude Words Float Objects RBTree SList Store Tables.
Local Open Scope Z_scope.

(** ** The manager *)

Definition warehouseMapPtr : nat := 0.
Definition historyMapPtr : nat := 1.
Definition itemMapPtr : nat := 2.
Definition neworderMapPtr : nat := 3.
Definition stockMapPtr : nat := 4.
Definition next_key_history : nat := 5.
Definition randomPtr : nat := 6.
(** manager_t ends with a pthread_mutex_t of 40 bytes. *)
Definition manager_words : nat := 12.

Definition tableAlloc : code Z := MAP_ALLOC.

(** [compare] is the address of compareDataPtrAddresses. *)
Definition listAlloc (compare : Z) : code Z :=
  let$ p := malloc 4 in lift (list_alloc p compare).

(** *** Consistency

    [while(TRUE)] and the inner loop, with the turns left *)
Fixpoint sum_districts (n : nat) (j districtMap sum : Z) : code Z :=
  match n with
  | O => CRet sum
  | S n =>
      let$ districtPtr := MAP_FIND districtMap j in
      if districtPtr =? NULL then CRet sum
      else let$ y := ldfl districtPtr D_YTD in sum_districts n (j + 1) districtMap (fadd sum y)
  end.

Fixpoint checkConsistency_loop (fuel : nat) (managerPtr i : Z) : code unit :=
  match fuel with
  | O => spent
  | S fuel =>
      let$ wm := ld managerPtr warehouseMapPtr in
      let$ warehousePtr := MAP_FIND wm i in
      if warehousePtr =? NULL then CRet tt
      else
        let$ dm := ld warehousePtr districtMap in
        let$ sum := sum_districts 10 0 dm (f32_of_int 0) in
        let$ y := ldfl warehousePtr W_YTD in
        do$ assert (negb (feqb y sum));
        checkConsistency_loop fuel managerPtr (i + 1)
  end.

Definition checkConsistency1 (fuel : nat) (managerPtr : Z) : code unit := checkConsistency_loop fuel managerPtr 0.
Definition checkConsistency := checkConsistency1.

(** The addresses that the functions use and that no later access reads through: a
    literal, two local arrays, a function; and the generator, whose numbers are
    those of the environment ([random_seed] with 42 is the start of its stream). *)
Record linked := mk_linked { l_since : Z; l_iName : Z; l_iData : Z; l_compare : Z }.

(** random_t: [genrand], 624 words of state, and [mti] (Mt.v) *)
Definition random_words : nat := 626.

Definition manager_allocation (fuel : nat) (l : linked) : code Z :=
  let$ managerPtr := malloc manager_words in
  let$ r := malloc random_words in
  do$ st managerPtr randomPtr r;
  let$ t := tableAlloc in
  do$ st managerPtr warehouseMapPtr t;
  let$ t := ld managerPtr warehouseMapPtr in
  do$ fill_warehouse t (l_since l);
  let$ t := tableAlloc in
  do$ st managerPtr historyMapPtr t;
  let$ t := ld managerPtr historyMapPtr in
  let$ key := fill_history t in
  do$ st managerPtr next_key_history key;
  let$ t := tableAlloc in
  do$ st managerPtr itemMapPtr t;
  let$ t := ld managerPtr itemMapPtr in
  do$ fill_item (l_iName l) (l_iData l) t;
  let$ t := listAlloc (l_compare l) in
  do$ st managerPtr neworderMapPtr t;
  let$ t := ld managerPtr neworderMapPtr in
  do$ fill_neworder fuel t;
  let$ t := tableAlloc in
  do$ st managerPtr stockMapPtr t;
  let$ t := ld managerPtr stockMapPtr in
  do$ fill_stock t;
  do$ checkConsistency fuel managerPtr;
  CRet managerPtr.

(** ** New order *)

(** One line of an order: the new total *)
Definition neworder_line (managerPtr orderPtr d_next w_id d_id i total : Z) : code Z :=
  let$ r := random_mod 100000 in
  let i_id := r + 1 in
  let$ im := ld managerPtr itemMapPtr in
  let$ itemPtr := MAP_FIND im i_id in
  let$ i_price := ldfl itemPtr I_PRICE in
  let$ sm := ld managerPtr stockMapPtr in
  let$ stocktablePtr := MAP_FIND sm i_id in
  let$ r := random_mod 10 in
  let quantity := r + 1 in
  let$ s_quantity := ldl stocktablePtr S_QUANTITY in
  let s_quantity := s_quantity - quantity in
  let s_quantity := if s_quantity <=? 10 then s_quantity + 91 else s_quantity in
  do$ st stocktablePtr S_QUANTITY s_quantity;
  let$ ytd := ldl stocktablePtr S_YTD in
  do$ st stocktablePtr S_YTD (ytd + quantity);
  let$ cnt := ldl stocktablePtr S_ORDER_CNT in
  do$ st stocktablePtr S_ORDER_CNT (cnt + 1);
  let ol_amount := fmul (f32_of_int quantity) i_price in
  let total := fadd total ol_amount in
  let$ ol := ld orderPtr orderline in
  let$ orderlinePtr := TM_add_orderline ol d_next d_id w_id i i_id w_id (-1) quantity ol_amount i in
  do$ (if orderlinePtr =? NULL then TM_RESTART else CRet tt);
  CRet total.

Definition manager_newordertransaction (managerPtr w_id d_id c_id : Z) : code Z :=
  let$ wm := ld managerPtr warehouseMapPtr in
  let$ warehousePtr := MAP_FIND wm w_id in
  if warehousePtr =? NULL then CRet (-1) else
  let$ dm := ld warehousePtr districtMap in
  let$ districtPtr := MAP_FIND dm d_id in
  if districtPtr =? NULL then CRet (-1) else
  let$ cm := ld districtPtr customerMap in
  let$ customerPtr := MAP_FIND cm c_id in
  if customerPtr =? NULL then CRet (-1) else
  let$ w_tax := ldfl warehousePtr W_TAX in
  let$ d_tax := ldfl districtPtr D_TAX in
  let$ d_next := ldl districtPtr D_NEXT_O_ID in
  do$ st districtPtr D_NEXT_O_ID (d_next + 1);
  let$ c_discount := ldfl customerPtr C_DISCOUNT in
  let$ r := random_mod 10 in
  let o_ol_cnt := r + 5 in
  let$ sec := time_now in
  let$ om := ld districtPtr orderMap in
  let$ orderPtr := TM_add_order om d_next d_id c_id w_id sec (-1) o_ol_cnt 1 d_next in
  do$ st customerPtr lastOrder orderPtr;
  let$ r := random_mod 100 in
  let rbk := r + 1 in
  let$ total_amount := for_to 1 o_ol_cnt (f32_of_int 0)
    (fun i total => neworder_line managerPtr orderPtr d_next w_id d_id i total) in
  let total_amount := fmul (fmul total_amount (fsub (f32_of_int 1) c_discount))
                           (fadd (fadd (f32_of_int 1) w_tax) d_tax) in
  CRet 1.

(** ** Payment *)

(** [strncmp(a, b, 100) == 0] *)
Definition same_name (a b : string) : bool := String.eqb (substring 0 100 a) (substring 0 100 b).

(** [for(i=1;i<=3000;i++)], with [n] turns left: the customer, or NULL *)
Fixpoint find_by_name (n : nat) (i customerMap c_last22 : Z) : code Z :=
  match n with
  | O => CRet NULL
  | S n =>
      let$ customerPtrApp := MAP_FIND customerMap i in
      let$ a := do_cmd (GetString c_last22) in
      let$ last := ld customerPtrApp C_LAST in
      let$ b := do_cmd (GetString last) in
      if same_name a b then CRet customerPtrApp else find_by_name n (i + 1) customerMap c_last22
  end.

(** [(int)r] *)
Definition to_int (r : Z) : Z := let r := r mod 2 ^ 32 in if r <? 2 ^ 31 then r else r - 2 ^ 32.

Definition payment_customer (districtPtr c_id : Z) : code Z :=
  if negb (c_id =? -1) then
    let$ cm := ld districtPtr customerMap in MAP_FIND cm c_id
  else
    let$ r := random_gen in
    let clastseed := Z.abs (Z.rem (to_int r) 999) in
    let$ c_last22 := TM_generate_CLAST clastseed in
    let$ cm := ld districtPtr customerMap in
    find_by_name (Z.to_nat 3000) 1 cm c_last22.

Definition manager_paymenttransaction (managerPtr w_id d_id c_id h_amount : Z) : code Z :=
  let$ wm := ld managerPtr warehouseMapPtr in
  let$ warehousePtr := MAP_FIND wm w_id in
  if warehousePtr =? NULL then CRet (-1) else
  let$ dm := ld warehousePtr districtMap in
  let$ districtPtr := MAP_FIND dm d_id in
  if districtPtr =? NULL then CRet (-1) else
  let$ customerPtr := payment_customer districtPtr c_id in
  do$ (if customerPtr =? NULL then TM_RESTART else CRet tt);
  let$ y := ldfl warehousePtr W_YTD in
  do$ stfl warehousePtr W_YTD (fadd y h_amount);
  let$ y := ldfl districtPtr D_YTD in
  do$ stfl districtPtr D_YTD (fadd y h_amount);
  let$ y := ldfl customerPtr C_BALANCE in
  do$ stfl customerPtr C_BALANCE (fsub y h_amount);
  let$ y := ldfl customerPtr C_YTD_PAYMENT in
  do$ stfl customerPtr C_YTD_PAYMENT (fadd y h_amount);
  let$ n := ldl customerPtr C_PAYMENT_CNT in
  do$ st customerPtr C_PAYMENT_CNT (n + 1);
  CRet 1.

(** ** Order status *)

(** [result\[index\] = v] in an array of 50 *)
Definition set_result (result : list Z) (index : nat) (v : Z) : code (list Z) :=
  if (index <? 50)%nat then CRet (<[index := v]> result) else undefined.

(** [for(count=1;count<=result\[0\];count++)], with the turns left *)
Fixpoint status_loop (n : nat) (count lastOrderPtr : Z) (index : nat) (result : list Z) : code (list Z) :=
  match n with
  | O => CRet result
  | S n =>
      let$ ol := ld lastOrderPtr orderline in
      let$ orderLinePtr := MAP_FIND ol count in
      do$ (if orderLinePtr =? NULL then TM_RESTART else CRet tt);
      let$ i_id := ldl orderLinePtr OL_I_ID in
      let$ result := set_result result index i_id in
      let index := (index + 1)%nat in
      let$ d := ldl orderLinePtr OL_DELIVERY_D in
      let$ result := set_result result index (if d <? 0 then 1 else 0) in
      status_loop n (count + 1) lastOrderPtr (index + 1) result
  end.

(** The array and the value that is returned; [result0] is what the array, which is
    not initialised, holds. *)
Definition orderstatus (result0 : list Z) (managerPtr w_id d_id c_id : Z) : code (Z * list Z) :=
  let$ wm := ld managerPtr warehouseMapPtr in
  let$ warehousePtr := MAP_FIND wm w_id in
  if warehousePtr =? NULL then CRet (-1, result0) else
  let$ dm := ld warehousePtr districtMap in
  let$ districtPtr := MAP_FIND dm d_id in
  if districtPtr =? NULL then CRet (-1, result0) else
  let$ cm := ld districtPtr customerMap in
  let$ customerPtr := MAP_FIND cm c_id in
  if customerPtr =? NULL then CRet (-1, result0) else
  let$ lastOrderPtr := ld customerPtr lastOrder in
  let$ result :=
    (if lastOrderPtr =? NULL then CRet result0
     else
       let$ n := ldl lastOrderPtr O_OL_CNT in
       let$ result := set_result result0 0 n in
       status_loop (Z.to_nat n) 1 lastOrderPtr 1 result) in
  CRet (1, result).

(** The array is local: the result is -1 or 1. *)
Definition manager_orderstatustransaction (result0 : list Z) (managerPtr w_id d_id c_id : Z) : code Z :=
  let$ r := orderstatus result0 managerPtr w_id d_id c_id in CRet r.1.

(** ** Stock level *)

(** [do ... while (orderPtr == NULL)], with [fuel] turns *)
Fixpoint find_order (fuel : nat) (districtPtr key : Z) : code Z :=
  match fuel with
  | O => spent
  | S fuel =>
      let$ om := ld districtPtr orderMap in
      let$ orderPtr := MAP_FIND om key in
      if orderPtr =? NULL then find_order fuel districtPtr key else CRet orderPtr
  end.

(** [item] of the source: the entries that are 1, in an array of 100000 *)
Definition item_seen (item : gset Z) (i : Z) : code bool :=
  if (0 <=? i) && (i <? 100000) then CRet (bool_decide (i ∈ item)) else undefined.
Definition set_item (item : gset Z) (i : Z) : code (gset Z) :=
  if (0 <=? i) && (i <? 100000) then CRet ({[i]} ∪ item) else undefined.

(** One line, when there is one *)
Definition level_line (managerPtr orderlinePtr treshold : Z) (item : gset Z) (countStockLevel : Z) : code (gset Z * Z) :=
  let$ i_id := ldl orderlinePtr OL_I_ID in
  let$ seen := item_seen item i_id in
  if seen : bool then CRet (item, countStockLevel)
  else
    let$ sm := ld managerPtr stockMapPtr in
    let$ i_id := ldl orderlinePtr OL_I_ID in
    let$ stocktablePtr := MAP_FIND sm i_id in
    let$ q := ldl stocktablePtr S_QUANTITY in
    let$ i_id := ldl orderlinePtr OL_I_ID in
    let$ item := set_item item i_id in
    CRet (item, if q <? treshold then countStockLevel + 1 else countStockLevel).

(** [for(count=1;count<=orderPtr->O_OL_CNT;count++)] *)
Fixpoint level_lines (fuel : nat) (managerPtr orderPtr count treshold : Z) (item : gset Z) (countStockLevel : Z) : code (gset Z * Z) :=
  match fuel with
  | O => spent
  | S fuel =>
      let$ n := ldl orderPtr O_OL_CNT in
      if n <? count then CRet (item, countStockLevel)
      else
        let$ ol := ld orderPtr orderline in
        let$ orderlinePtr := MAP_FIND ol count in
        let$ r := (if orderlinePtr =? NULL then CRet (item, countStockLevel)
                   else level_line managerPtr orderlinePtr treshold item countStockLevel) in
        level_lines fuel managerPtr orderPtr (count + 1) treshold r.1 r.2
  end.

(** [for(key=D_NEXT_O_ID-20;key<D_NEXT_O_ID;key++)]; [key] is unsigned. *)
Fixpoint level_orders (fuel : nat) (managerPtr districtPtr key treshold : Z) (item : gset Z) (countStockLevel : Z) : code Z :=
  match fuel with
  | O => spent
  | S fuel' =>
      let$ next := ld districtPtr D_NEXT_O_ID in
      if next <=? key then CRet countStockLevel
      else
        let$ orderPtr := find_order fuel districtPtr key in
        do$ assert (negb (orderPtr =? NULL));
        let$ r := level_lines fuel managerPtr orderPtr 1 treshold item countStockLevel in
        level_orders fuel' managerPtr districtPtr (w64 (key + 1)) treshold r.1 r.2
  end.

(** What is counted, and the value that is returned *)
Definition stocklevel (fuel : nat) (managerPtr w_id d_id treshold : Z) : code (Z * Z) :=
  let$ wm := ld managerPtr warehouseMapPtr in
  let$ warehousePtr := MAP_FIND wm w_id in
  if warehousePtr =? NULL then CRet (-1, 0) else
  let$ dm := ld warehousePtr districtMap in
  let$ districtPtr := MAP_FIND dm d_id in
  if districtPtr =? NULL then CRet (-1, 0) else
  let$ next := ld districtPtr D_NEXT_O_ID in
  let$ n := level_orders fuel managerPtr districtPtr (w64 (next - 20)) treshold ∅ 0 in
  CRet (1, n).

Definition manager_stockleveltransaction (fuel : nat) (managerPtr w_id d_id treshold : Z) : code Z :=
  let$ r := stocklevel fuel managerPtr w_id d_id treshold in CRet r.1.

(** ** Delivery *)

(** The lines of an order are delivered: the new total. *)
Fixpoint deliver_lines (fuel : nat) (orderPtr count total : Z) : code Z :=
  match fuel with
  | O => spent
  | S fuel =>
      let$ n := ld orderPtr O_OL_CNT in
      if n <? count then CRet total
      else
        let$ ol := ld orderPtr orderline in
        let$ orderlinePtr := MAP_FIND ol count in
        let$ total :=
          (if orderlinePtr =? NULL then CRet total
           else
             let$ sec := time_now in
             do$ st orderlinePtr OL_DELIVERY_D sec;
             let$ a := ldfl orderlinePtr OL_AMOUNT in
             CRet (fadd total a)) in
        deliver_lines fuel orderPtr (count + 1) total
  end.

Definition deliver_order (fuel : nat) (districtPtr orderPtr carrier : Z) : code unit :=
  let$ c_id := ldl orderPtr O_C_ID in
  do$ st orderPtr O_CARRIER_ID carrier;
  let$ total_amount := deliver_lines fuel orderPtr 1 (f32_of_int 0) in
  let$ cm := ld districtPtr customerMap in
  let$ customerPtr := MAP_FIND cm c_id in
  if customerPtr =? NULL then CRet tt
  else
    let$ y := ldfl customerPtr C_BALANCE in
    do$ stfl customerPtr C_BALANCE (fadd y total_amount);
    let$ n := ldl customerPtr C_DELIVERY_CNT in
    st customerPtr C_DELIVERY_CNT (n + 1).

(** The row of the list whose order is delivered *)
Definition deliver_new (fuel : nat) (managerPtr districtPtr carrier neworderPtr : Z) : code unit :=
  let$ om := ld districtPtr orderMap in
  let$ o_id := ldl neworderPtr NO_O_ID in
  let$ orderPtr := MAP_FIND om o_id in
  do$ (if orderPtr =? NULL then CRet tt else deliver_order fuel districtPtr orderPtr carrier);
  let$ l := ld managerPtr neworderMapPtr in
  do$ lift (TMlist_remove compareDataPtrAddresses fuel l neworderPtr);
  CRet tt.

(** [while(TMLIST_ITER_HASNEXT(&iter,managerPtr->neworderMapPtr))] *)
Fixpoint delivery_loop (fuel : nat) (it managerPtr districtPtr w_id d_id carrier : Z) : code unit :=
  match fuel with
  | O => spent
  | S fuel' =>
      let$ more := lift (TMlist_iter_hasNext it) in
      if negb (truth more) then CRet tt
      else
        let$ next := lift (TMlist_iter_next it) in
        let neworderPtr := next.2 in
        let$ hit :=
          (if neworderPtr =? NULL then CRet false
           else
             let$ d := ldl neworderPtr NO_D_ID in
             if negb (d =? d_id) then CRet false
             else let$ w := ldl neworderPtr NO_W_ID in CRet (w =? w_id)) in
        if hit : bool then deliver_new fuel managerPtr districtPtr carrier neworderPtr
        else delivery_loop fuel' next.1 managerPtr districtPtr w_id d_id carrier
  end.

(** The transaction for one district: whether the loop over the districts goes on *)
Definition delivery_district (fuel : nat) (managerPtr w_id d_id carrier : Z) : code bool :=
  let$ wm := ld managerPtr warehouseMapPtr in
  let$ warehousePtr := MAP_FIND wm w_id in
  if warehousePtr =? NULL then CRet false
  else
    let$ dm := ld warehousePtr districtMap in
    let$ districtPtr := MAP_FIND dm d_id in
    let$ l := ld managerPtr neworderMapPtr in
    let iter := TMlist_iter_reset l in
    do$ delivery_loop fuel iter managerPtr districtPtr w_id d_id carrier;
    CRet true.

(** [for(d_id=1;d_id<=10;d_id++)], with the turns left: each turn is a transaction. *)
Fixpoint delivery_districts (n fuel : nat) (managerPtr w_id d_id carrier : Z) : code Z :=
  match n with
  | O => CRet 1
  | S n =>
      let$ go := delivery_district fuel managerPtr w_id d_id carrier in
      if go : bool then delivery_districts n fuel managerPtr w_id (d_id + 1) carrier else CRet (-1)
  end.

Definition manager_deliverytransaction (fuel : nat) (managerPtr w_id carrier : Z) : code Z :=
  delivery_districts 10 fuel managerPtr w_id 1 carrier.
