(* ===== verification/Tpcc.v ===== *)
(** * The database of the server, abstractly

    What the tables hold, without addresses: a table is the list of its rows, in the
    order of their keys, which are 1, 2, ...; and what the transactions do to it.
    Numbers are the words and the binary32 patterns that memory holds. *)
From Stdlib Require Import String.
From S2P Require Import Prelude Words Float Store Tables Manager.
Local Open Scope Z_scope.

(** ** Data *)

Record oline := mk_line { l_i_id : Z; l_delivery : Z; l_quantity : Z; l_amount : Z }.

(** O_OL_CNT is the number of lines. *)
Record order := mk_order { o_c_id : Z; o_entry : Z; o_carrier : Z; o_lines : list oline }.

(** [c_order] is the place of the last order among those of the district. *)
Record customer := mk_customer {
  c_last : string; c_discount : Z; c_balance : Z; c_ytd : Z; c_payments : Z; c_deliveries : Z; c_order : nat }.

(** D_NEXT_O_ID is the number of orders plus one. *)
Record district := mk_district { d_tax : Z; d_ytd : Z; d_customers : list customer; d_orders : list order }.

Record warehouse := mk_warehouse { w_tax : Z; w_ytd : Z; w_districts : list district }.

Record stock := mk_stock { s_quantity : Z; s_ytd : Z; s_orders : Z }.

(** A row of the list of new orders: order, district, warehouse *)
Record neworder := mk_neworder { no_o_id : Z; no_d_id : Z; no_w_id : Z }.

(** The items are given by their prices. *)
Record database := mk_database {
  warehouses : list warehouse; items : list Z; stocks : list stock; neworders : list neworder }.

#[export] Instance eta_order : Eta order := fun o => mk_order (o_c_id o) (o_entry o) (o_carrier o) (o_lines o).
#[export] Instance eta_customer : Eta customer := fun c =>
  mk_customer (c_last c) (c_discount c) (c_balance c) (c_ytd c) (c_payments c) (c_deliveries c) (c_order c).
#[export] Instance eta_district : Eta district := fun d => mk_district (d_tax d) (d_ytd d) (d_customers d) (d_orders d).
#[export] Instance eta_warehouse : Eta warehouse := fun w => mk_warehouse (w_tax w) (w_ytd w) (w_districts w).
#[export] Instance eta_database : Eta database := fun b => mk_database (warehouses b) (items b) (stocks b) (neworders b).

(** ** Keys *)

(** The row with the key [k], a word *)
Definition at_key {A} (l : list A) (k : Z) : option A := if 1 <=? k then l !! Z.to_nat (k - 1) else None.
Definition set_key {A} (l : list A) (k : Z) (r : A) : list A := <[Z.to_nat (k - 1) := r]> l.

(** ** New order *)

(** The random numbers of the transaction: the number of lines, the draw for the
    rollback, and for each line the item and the quantity *)
Definition line_count (r : nat -> Z) : Z := r 0%nat mod 10 + 5.
Definition line_item (r : nat -> Z) (i : nat) : Z := r (2 + 2 * i)%nat mod 100000 + 1.
Definition line_quantity (r : nat -> Z) (i : nat) : Z := r (3 + 2 * i)%nat mod 10 + 1.

Definition take_quantity (q s : Z) : Z := let s := s - q in if s <=? 10 then s + 91 else s.

Definition take_stock (q : Z) (s : stock) : stock :=
  mk_stock (w64 (take_quantity q (to_long (s_quantity s)))) (w64 (s_ytd s + q)) (w64 (s_orders s + 1)).

Definition new_line (prices : list Z) (r : nat -> Z) (i : nat) : oline :=
  mk_line (line_item r i) (-1) (line_quantity r i)
    (fmul (f32_of_int (line_quantity r i)) (default 0 (at_key prices (line_item r i)))).

Definition take_line (r : nat -> Z) (ss : list stock) (i : nat) : list stock :=
  match at_key ss (line_item r i) with
  | Some s => set_key ss (line_item r i) (take_stock (line_quantity r i) s)
  | None => ss
  end.

(** After the first [n] lines *)
Definition new_lines (prices : list Z) (r : nat -> Z) (n : nat) : list oline := new_line prices r <$> seq 0 n.
Definition take_lines (r : nat -> Z) (ss : list stock) (n : nat) : list stock := fold_left (take_line r) (seq 0 n) ss.

(** The rows that the parameters name *)
Definition find_district (b : database) (w d : Z) : option (warehouse * district) :=
  match at_key (warehouses b) w with
  | Some W => match at_key (w_districts W) d with Some D => Some (W, D) | None => None end
  | None => None
  end.

Definition find_customer (b : database) (w d c : Z) : option (warehouse * district * customer) :=
  match find_district b w d with
  | Some (W, D) => match at_key (d_customers D) c with Some C => Some (W, D, C) | None => None end
  | None => None
  end.

Definition set_district (b : database) (w d : Z) (W : warehouse) (D : district) : database :=
  b <| warehouses := set_key (warehouses b) w (W <| w_districts := set_key (w_districts W) d D |>) |>.

(** The result, and the database that is left *)
Definition spec_neworder (r : nat -> Z) (sec : Z) (w d c : Z) (b : database) : Z * database :=
  match find_customer b w d c with
  | None => (-1, b)
  | Some (W, D, C) =>
      let n := Z.to_nat (line_count r) in
      let o := mk_order c (w64 sec) (w64 (-1)) (new_lines (items b) r n) in
      let D := D <| d_orders := d_orders D ++ [o] |>
                 <| d_customers := set_key (d_customers D) c (C <| c_order := length (d_orders D) |>) |> in
      (1, set_district b w d W D <| stocks := take_lines r (stocks b) n |>)
  end.

(** Every line finds its item and its stock. *)
Definition stocked (r : nat -> Z) (b : database) : Prop :=
  forall i, (i < Z.to_nat (line_count r))%nat ->
    is_Some (at_key (items b) (line_item r i)) /\ is_Some (at_key (stocks b) (line_item r i)).

(** ** Payment *)

(** The name of clause 4.3.2.3 for a number below 1000 *)
Definition clast (n : Z) : string :=
  let s (i : Z) := default EmptyString (stringCLast !! Z.to_nat i) in
  String.append (String.append (s (n / 100)) (s (n / 10 mod 10))) (s (n mod 10)).

Definition name_number (r : Z) : Z := Z.abs (Z.rem (to_int r) 999).

(** The key of the first customer with the name, among 3000 *)
Fixpoint find_name (n : nat) (k : Z) (name : string) (cs : list customer) : option Z :=
  match n, cs with
  | S n, c :: cs => if same_name name (c_last c) then Some k else find_name n (k + 1) name cs
  | _, _ => None
  end.

Definition payment_key (r c : Z) (D : district) : option Z :=
  if c =? -1 then find_name 3000 1 (clast (name_number r)) (d_customers D) else Some (w64 c).

Definition pay (amount : Z) (c : customer) : customer :=
  c <| c_balance := fsub (c_balance c) amount |> <| c_ytd := fadd (c_ytd c) amount |>
    <| c_payments := w64 (c_payments c + 1) |>.

(** [None]: the transaction restarts. *)
Definition spec_payment (r w d c amount : Z) (b : database) : option (Z * database) :=
  match find_district b w d with
  | None => Some (-1, b)
  | Some (W, D) =>
      match payment_key r c D with
      | None => None
      | Some k =>
          match at_key (d_customers D) k with
          | None => None
          | Some C =>
              let W := W <| w_ytd := fadd (w_ytd W) amount |> in
              let D := D <| d_ytd := fadd (d_ytd D) amount |> <| d_customers := set_key (d_customers D) k (pay amount C) |> in
              Some (1, set_district b w d W D)
          end
      end
  end.

(** The loop over the names finds one, or there are all the rows that it reads. *)
Definition named (r w d c : Z) (b : database) : Prop :=
  c = -1 -> forall W D, find_district b w d = Some (W, D) ->
  (3000 <= length (d_customers D))%nat \/ is_Some (payment_key r c D).

(** ** Order status *)

(** What the array gets: for each line the item and whether it is to be delivered *)
Definition status (o : order) : list Z :=
  Z.of_nat (length (o_lines o)) ::
  concat ((fun l => [to_long (l_i_id l); if to_long (w64 (l_delivery l)) <? 0 then 1 else 0]) <$> o_lines o).

Definition spec_orderstatus (w d c : Z) (b : database) : Z * list Z :=
  match find_customer b w d c with
  | None => (-1, [])
  | Some (W, D, C) => (1, match d_orders D !! c_order C with Some o => status o | None => [] end)
  end.

(** ** Stock level *)

(** The items of the lines of the last 20 orders, in the order of the loops; with
    fewer than 20 orders the first key wraps around and the loop ends at once. *)
Definition recent_orders (D : district) : list order :=
  if (20 <=? length (d_orders D))%nat then drop (length (d_orders D) - 20) (d_orders D) else [].
Definition recent_items (D : district) : list Z := concat ((fun o => l_i_id <$> o_lines o) <$> recent_orders D).

Definition low_stock (ss : list stock) (treshold i : Z) : bool :=
  match at_key ss i with Some s => to_long (s_quantity s) <? treshold | None => false end.

(** How many of the items, each counted once, have a stock below the threshold *)
Definition count_low (ss : list stock) (treshold : Z) (l : list Z) : Z :=
  Z.of_nat (base.size (filter (fun i => low_stock ss treshold i = true) (list_to_set l : gset Z))).

Definition spec_stocklevel (w d treshold : Z) (b : database) : Z * Z :=
  match find_district b w d with
  | None => (-1, 0)
  | Some (W, D) => (1, count_low (stocks b) treshold (recent_items D))
  end.

(** ** Delivery *)

(** The row of the list is for the district. *)
Definition due (w d : Z) (n : neworder) : bool := (to_long (no_d_id n) =? d) && (to_long (no_w_id n) =? w).

Definition deliver_lines_at (ts : nat -> Z) (ls : list oline) : list oline :=
  imap (fun i l => mk_line (l_i_id l) (ts i) (l_quantity l) (l_amount l)) ls.

Definition amount_of (ls : list oline) : Z := fold_left (fun t l => fadd t (l_amount l)) ls (f32_of_int 0).

Definition deliver_customer (amount : Z) (c : customer) : customer :=
  c <| c_balance := fadd (c_balance c) amount |> <| c_deliveries := w64 (c_deliveries c + 1) |>.

Definition find_due (w d : Z) (ns : list neworder) : option (nat * neworder) := list_find (fun n => due w d n = true) ns.

(** The order with the key [k] is delivered at the times [ts], one for each line. *)
Definition deliver (ts : nat -> Z) (carrier k : Z) (o : order) (D : district) : district :=
  let D := D <| d_orders := set_key (d_orders D) k (o <| o_carrier := w64 carrier |> <| o_lines := deliver_lines_at ts (o_lines o) |>) |> in
  match at_key (d_customers D) (o_c_id o) with
  | Some C => D <| d_customers := set_key (d_customers D) (o_c_id o) (deliver_customer (amount_of (o_lines o)) C) |>
  | None => D
  end.

(** What the transaction for the district [d] leaves when the warehouse exists, and
    how often it asks the time *)
Definition spec_delivery (ts : nat -> Z) (w d carrier : Z) (b : database) : database * nat :=
  match find_due w d (neworders b) with
  | None => (b, O)
  | Some (i, n) =>
      let '(b', k) :=
        match find_district b w d with
        | Some (W, D) =>
            match at_key (d_orders D) (no_o_id n) with
            | Some o => (set_district b w d W (deliver ts carrier (no_o_id n) o D), length (o_lines o))
            | None => (b, O)
            end
        | None => (b, O)
        end in
      (b' <| neworders := delete i (neworders b) |>, k)
  end.

(** The districts from [d] on, [n] of them: the result and the database *)
Fixpoint spec_deliveries (n : nat) (ts : nat -> Z) (w d carrier : Z) (b : database) : Z * database :=
  match n with
  | O => (1, b)
  | S n =>
      match at_key (warehouses b) w with
      | None => (-1, b)
      | Some _ =>
          let '(b', k) := spec_delivery ts w d carrier b in
          spec_deliveries n (fun i => ts (k + i)%nat) w (d + 1) carrier b'
      end
  end.
