(* ===== verification/TpccRep.v ===== *)
(** * The database in the store

    [database_at] says which part of the store holds a database of Tpcc.v: the rows
    with their fields, every table a map from the keys 1, 2, ... to rows. *)
From Stdlib Require Import String.
From iris.proofmode Require Import proofmode.
From S2P Require Import Prelude Words Wrappers Float Objects RBTree SList Store StoreLogic Tables Manager Tpcc.
Local Open Scope Z_scope.

(** ** Numbered maps *)

(** The map from [k], [k + 1], ... to the elements *)
Fixpoint numbered_from (k : Z) (ps : list Z) : gmap Z Z :=
  match ps with [] => ∅ | p :: ps => <[k := p]> (numbered_from (k + 1) ps) end.
Definition numbered (ps : list Z) : gmap Z Z := numbered_from 1 ps.

Lemma numbered_from_lookup k ps q :
  numbered_from k ps !! q = if k <=? q then ps !! Z.to_nat (q - k) else None.
Proof.
  revert k. induction ps as [|p ps IH]; intros k; simpl.
  - rw lookup_empty lookup_nil. by destruct (k <=? q).
  - destruct (decide (q = k)) as [->|Hne].
    + rw lookup_insert_eq Z.leb_refl Z.sub_diag. done.
    + rw lookup_insert_ne // IH. destruct (Z.leb_spec k q), (Z.leb_spec (k + 1) q); try done; try lia.
      by replace (Z.to_nat (q - k)) with (S (Z.to_nat (q - (k + 1)))) by lia.
Qed.

Lemma numbered_lookup ps q : numbered ps !! q = at_key ps q.
Proof. apply numbered_from_lookup. Qed.

Lemma numbered_snoc ps p : numbered (ps ++ [p]) = <[Z.of_nat (length ps) + 1 := p]> (numbered ps).
Proof.
  apply map_eq. intros q. rw numbered_lookup /at_key. destruct (decide (q = Z.of_nat (length ps) + 1)) as [->|Hne].
  - rw lookup_insert_eq. destruct (Z.leb_spec 1 (Z.of_nat (length ps) + 1)); [|lia].
    rw lookup_app_r; [|lia]. by replace (Z.to_nat (Z.of_nat (length ps) + 1 - 1) - length ps)%nat with 0%nat by lia.
  - rw lookup_insert_ne // numbered_lookup /at_key. destruct (Z.leb_spec 1 q); [|done].
    destruct (decide (Z.to_nat (q - 1) < length ps)%nat) as [Hl|Hl]; [by rw lookup_app_l|].
    rw lookup_app_r; [|lia]. rw (lookup_ge_None_2 ps); [|lia]. apply lookup_ge_None_2. simpl. lia.
Qed.

Lemma at_key_new {A} (l : list A) : at_key l (Z.of_nat (length l) + 1) = None.
Proof. rw /at_key. destruct (Z.leb_spec 1 (Z.of_nat (length l) + 1)); [|done]. apply lookup_ge_None_2. lia. Qed.

Lemma at_key_nth {A} (l : list A) (i : nat) : at_key l (Z.of_nat i + 1) = l !! i.
Proof. rw /at_key. destruct (Z.leb_spec 1 (Z.of_nat i + 1)); [|lia]. f_equal. lia. Qed.

Lemma at_key_spec {A} (l : list A) k r : at_key l k = Some r -> exists i : nat, k = Z.of_nat i + 1 /\ l !! i = Some r.
Proof.
  rw /at_key. destruct (Z.leb_spec 1 k); [|done]. intros Hl. exists (Z.to_nat (k - 1)). split; [lia|done].
Qed.

Lemma set_key_nth {A} (l : list A) (i : nat) r : set_key l (Z.of_nat i + 1) r = <[i := r]> l.
Proof. rw /set_key. f_equal. lia. Qed.

(** ** Tables *)

Lemma user_addr_word p : user_addr p -> w64 p = p.
Proof. intros [H _]. apply w64_id. unfold is_word, word_size. lia. Qed.

Lemma user_addr_null p : user_addr p -> (p =? NULL) = false.
Proof. intros [H _]. apply Z.eqb_neq. unfold NULL. lia. Qed.

Section Table.

Context {R : Type} (Row : Z -> Z -> R -> sProp).

(** The map [s] leads from the keys to the rows at [ps], which hold [rs]. *)
Definition table (s : Z) (ps : list Z) (rs : list R) : sProp :=
  s ⤇ numbered ps ∗ ⌜Forall user_addr ps⌝ ∗ [∗ list] i ↦ p; r ∈ ps; rs, Row (Z.of_nat i + 1) p r.

Lemma table_length s ps rs : table s ps rs -∗ ⌜length ps = length rs⌝.
Proof. iIntros "(_ & _ & H)". by iApply big_sepL2_length. Qed.

(** One row of the table *)
Lemma table_acc s ps rs (i : nat) p r :
  ps !! i = Some p -> rs !! i = Some r ->
  table s ps rs -∗ Row (Z.of_nat i + 1) p r ∗ (∀ r', Row (Z.of_nat i + 1) p r' -∗ table s ps (<[i := r']> rs)).
Proof.
  iIntros (Hp Hr) "(Hs & %Ha & Hr)". iDestruct (big_sepL2_insert_acc with "Hr") as "[$ Hr]"; [done|done|].
  iIntros (r') "Hrow". iSpecialize ("Hr" $! p r' with "Hrow"). rw (list_insert_id ps i p) //. by iFrame.
Qed.

(** A further row *)
Lemma table_snoc s ps rs p r :
  length ps = length rs -> user_addr p ->
  s ⤇ numbered (ps ++ [p]) -∗ ⌜Forall user_addr ps⌝ -∗ ([∗ list] i ↦ p; r ∈ ps; rs, Row (Z.of_nat i + 1) p r) -∗
  Row (Z.of_nat (length rs) + 1) p r -∗ table s (ps ++ [p]) (rs ++ [r]).
Proof.
  iIntros (Hl Hp) "$ %Ha Hr Hrow". iSplit; [iPureIntro; apply Forall_last_app; done|].
  iApply (big_sepL2_app with "Hr"). simpl. rw Nat.add_0_r Hl. by iFrame.
Qed.

Context (may : stop -> Prop).

(** A key that has no row *)
Lemma wp_find_none s ps rs key e Φ :
  key_ok (w64 key) = true -> at_key rs (w64 key) = None ->
  table s ps rs -∗ (table s ps rs -∗ Φ NULL e) -∗ wp may (MAP_FIND s key) e Φ.
Proof.
  iIntros (Hk Hn) "Ht HΦ". iDestruct (table_length with "Ht") as %Hl. iDestruct "Ht" as "(Hs & %Ha & Hr)".
  iApply (wp_map_find with "Hs"); [done|]. iIntros "Hs". rw numbered_lookup.
  assert (at_key ps (w64 key) = None) as ->.
  { move: Hn. rw /at_key. case_match; [|done]. intros Hn. apply lookup_ge_None in Hn. apply lookup_ge_None. by rw Hl. }
  iApply "HΦ". by iFrame.
Qed.

(** A key that has one: the row, and what makes a table of it again *)
Lemma wp_find_some s ps rs key (i : nat) r e Φ :
  key_ok (w64 key) = true -> w64 key = Z.of_nat i + 1 -> rs !! i = Some r ->
  table s ps rs -∗
  (∀ p, ⌜ps !! i = Some p⌝ -∗ ⌜user_addr p⌝ -∗ Row (Z.of_nat i + 1) p r -∗
     (∀ r', Row (Z.of_nat i + 1) p r' -∗ table s ps (<[i := r']> rs)) -∗ Φ p e) -∗
  wp may (MAP_FIND s key) e Φ.
Proof.
  iIntros (Hk Hi Hr) "Ht HΦ". iDestruct (table_length with "Ht") as %Hl. iDestruct "Ht" as "(Hs & %Ha & Hr)".
  iApply (wp_map_find with "Hs"); [done|]. iIntros "Hs". rw numbered_lookup Hi at_key_nth.
  destruct (lookup_lt_is_Some_2 ps i) as [p Hp]; [rw Hl; by eapply lookup_lt_Some|]. rw Hp /=.
  iDestruct (table_acc s ps rs with "[$Hs $Hr]") as "[Hrow Ht]"; [done|done|done|].
  iApply ("HΦ" with "[//] [] Hrow Ht"). iPureIntro. by eapply Forall_lookup_1.
Qed.

(** The next key *)
Lemma wp_insert_next (no_memory : may NoMemory) s ps rs key p r e Φ :
  key_ok (w64 key) = true -> w64 key = Z.of_nat (length rs) + 1 -> user_addr p ->
  table s ps rs -∗ Row (Z.of_nat (length rs) + 1) p r -∗
  (∀ b ob bs, ⌜places e = (b, ob) :: bs⌝ -∗ table s (ps ++ [p]) (rs ++ [r]) -∗ Φ 1 (e <| places := bs |>)) -∗
  wp may (MAP_INSERT s key p) e Φ.
Proof.
  iIntros (Hk Hi Hp) "Ht Hrow HΦ". iDestruct (table_length with "Ht") as %Hl. iDestruct "Ht" as "(Hs & %Ha & Hr)".
  iApply (wp_map_insert with "Hs"); [done|done|]. iIntros (b ob bs) "%Hb Hs". rw numbered_lookup Hi -Hl at_key_new user_addr_word //.
  iApply ("HΦ" with "[//]"). rw -numbered_snoc Hl. by iApply (table_snoc with "Hs [//] Hr Hrow").
Qed.

Lemma table_empty s : s ⤇ ∅ ⊢ table s [] [].
Proof. rw /table /numbered /=. iIntros "$". by iSplit. Qed.

End Table.

Lemma table_mono {R} (Row Row' : Z -> Z -> R -> sProp) s ps rs :
  (forall k p r, Row k p r ⊢ Row' k p r) -> table Row s ps rs ⊢ table Row' s ps rs.
Proof. iIntros (Hm) "($ & $ & H)". iApply (big_sepL2_mono with "H"). intros. apply Hm. Qed.

(** ** Rows *)

(** The strings that rows refer to are there for good: [known_strings] is the table of
    those that the database was loaded with. *)
Class known := known_strings : gmap Z string.

Definition str_at `{known} (p : Z) (str : string) : sProp := ⌜known_strings !! p = Some str⌝.
Notation "p ↪ str" := (str_at p str) (at level 20, format "p  ↪  str") : bi_scope.

(** The halves of a word of two floats *)
Definition halves (w a b : Z) : Prop := part 32 w 0 = a /\ part 32 w 1 = b.

Lemma halves_0 w a b v : is_f32 v -> halves w a b -> halves (put_half w 0 v) v b.
Proof.
  intros Hv [_ Hb]. destruct (float_merge w 0 v 0 Hv (or_introl eq_refl)) as [H1 H2]. split; [exact H1|]. by rw -Hb -H2.
Qed.

Lemma halves_1 w a b v : is_f32 v -> halves w a b -> halves (put_half w 1 v) a v.
Proof.
  intros Hv [Ha _]. destruct (float_merge w 1 v 0 Hv (or_intror eq_refl)) as [H1 H2]. split; [|exact H1]. by rw -Ha -H2.
Qed.

Section Rows.

Context {names : known}.

Definition line_row (o d w n p : Z) (l : oline) : sProp :=
  ∃ supply aw info, p ↦ [o; d; w; n; l_i_id l; supply; w64 (l_delivery l); l_quantity l; aw; info] ∗
    ⌜part 32 aw 0 = l_amount l⌝.

Definition order_row (d w k p : Z) (o : order) : sProp :=
  ∃ lm ps, p ↦ [k; d; w; o_c_id o; o_entry o; o_carrier o; Z.of_nat (length (o_lines o)); 1; lm] ∗
    table (line_row k d w) lm ps (o_lines o).

(** [os] are the addresses of the orders of the district. *)
Definition customer_row (os : list Z) (d w k p : Z) (c : customer) : sProp :=
  ∃ x3 x4 last x6 x7 x8 x9 x10 x11 since x13 lw bw x18 lo,
    p ↦ [k; d; w; x3; x4; last; x6; x7; x8; x9; x10; x11; since; x13; lw; bw; c_payments c; c_deliveries c; x18; lo] ∗
    last ↪ c_last c ∗
    ⌜part 32 lw 1 = c_discount c /\ halves bw (c_balance c) (c_ytd c) /\ os !! c_order c = Some lo⌝.

Lemma customer_row_more os p' d w k p c : customer_row os d w k p c ⊢ customer_row (os ++ [p']) d w k p c.
Proof.
  iDestruct 1 as (x3 x4 last x6 x7 x8 x9 x10 x11 since x13 lw bw x18 lo) "(Hp & Hl & %H1 & %H2 & %H3)".
  repeat iExists _. iFrame. iPureIntro. split_and!; [done|done|]. by apply lookup_app_l_Some.
Qed.

(** The words of the row, with the next order number [next] *)
Definition district_head (w k p cm om next : Z) (d : district) : sProp :=
  ∃ x2 x3 x4 x5 x6 x7 tw,
    p ↦ [k; w; x2; x3; x4; x5; x6; x7; tw; next; cm; om] ∗ ⌜halves tw (d_tax d) (d_ytd d)⌝.

Definition district_row (w k p : Z) (d : district) : sProp :=
  ∃ cm om cs os, district_head w k p cm om (Z.of_nat (length (d_orders d)) + 1) d ∗
    table (customer_row os k w) cm cs (d_customers d) ∗ table (order_row k w) om os (d_orders d).

Definition warehouse_head (k p dm : Z) (w : warehouse) : sProp :=
  ∃ x1 x2 x3 x4 x5 x6 tw, p ↦ [k; x1; x2; x3; x4; x5; x6; tw; dm] ∗ ⌜halves tw (w_tax w) (w_ytd w)⌝.

Definition warehouse_row (k p : Z) (w : warehouse) : sProp :=
  ∃ dm ds, warehouse_head k p dm w ∗ table (district_row k) dm ds (w_districts w).

Definition item_row (k p : Z) (price : Z) : sProp :=
  ∃ x1 x2 pw x4, p ↦ [k; x1; x2; pw; x4] ∗ ⌜part 32 pw 0 = price⌝.

Definition stock_row (k p : Z) (s : stock) : sProp :=
  ∃ x1 x3 x4 x5 x6 x7 x8 x9 x10 x11 x12 x15 x16,
    p ↦ [k; x1; s_quantity s; x3; x4; x5; x6; x7; x8; x9; x10; x11; x12; s_ytd s; s_orders s; x15; x16].

(** The list object of new orders: its data are the addresses of the rows. *)
Definition neworder_row (p : Z) (n : neworder) : sProp := p ↦ [no_o_id n; no_d_id n; no_w_id n].

Definition neworder_list (s : Z) (ns : list neworder) : sProp :=
  ∃ h cmp cells, rows h ∗ ⌜list_at h s cmp cells⌝ ∗
    ⌜Forall user_addr cells.*2 /\ increasing compareDataPtrAddresses (fun k => 0 <= k < 2 ^ 63) cells.*2⌝ ∗ [∗ list] p; n ∈ cells.*2; ns, neworder_row p n.

(** The manager and the other tables *)
Definition tables (m wm : Z) (b : database) : sProp :=
  ∃ hm im nm sm x5 x6 x7 x8 x9 x10 x11 its ss,
    m ↦ [wm; hm; im; nm; sm; x5; x6; x7; x8; x9; x10; x11] ∗
    table item_row im its (items b) ∗ table stock_row sm ss (stocks b) ∗ neworder_list nm (neworders b).

Definition database_at (m : Z) (b : database) : sProp :=
  ∃ wm ws, tables m wm b ∗ table warehouse_row wm ws (warehouses b).

End Rows.

Lemma set_district_same b w d W D : find_district b w d = Some (W, D) -> set_district b w d W D = b.
Proof.
  unfold find_district. destruct (at_key (warehouses b) w) as [W'|] eqn:HW; [|done].
  destruct (at_key (w_districts W') d) as [D'|] eqn:HD; [|done]. intros [= <- <-].
  destruct (at_key_spec _ _ _ HW) as (iw & -> & HW2), (at_key_spec _ _ _ HD) as (id & -> & HD2).
  rw /set_district !set_key_nth (list_insert_id (w_districts W')) //.
  rw list_insert_id; [by destruct b|]. rw HW2. by destruct W'.
Qed.

Lemma find_district_in b w d W D : find_district b w d = Some (W, D) -> W ∈ warehouses b /\ D ∈ w_districts W.
Proof.
  unfold find_district. destruct (at_key (warehouses b) w) as [W'|] eqn:HW; [|done].
  destruct (at_key (w_districts W') d) as [D'|] eqn:HD; [|done]. intros [= <- <-].
  destruct (at_key_spec _ _ _ HW) as (iw & -> & HW2), (at_key_spec _ _ _ HD) as (id & -> & HD2).
  split; by eapply list_elem_of_lookup_2.
Qed.

(** ** The beginning of a transaction *)

Section Find.

Context (may : stop -> Prop) {names : known}.

(** The parts of the store at a district *)
Definition at_district (m : Z) (b : database) (w d : Z) (W : warehouse) (D : district) (wm dm pw pd : Z) : sProp :=
  tables m wm b ∗ warehouse_head w pw dm W ∗ district_row w d pd D ∗
  (∀ b' W' D', ⌜warehouses b' = warehouses b /\ w_districts W' = w_districts W⌝ -∗
     tables m wm b' -∗ warehouse_head w pw dm W' -∗ district_row w d pd D' -∗ database_at m (set_district b' w d W' D')).

(** Whether the parameters name rows, and the store taken apart at the district *)
Lemma wp_find_rows {A} (fail : A) (K : Z -> Z -> code A) m b w d e Φ :
  key_ok (w64 w) = true -> key_ok (w64 d) = true ->
  database_at m b -∗
  ((⌜at_key (warehouses b) (w64 w) = None⌝ -∗ database_at m b -∗ Φ fail e) ∧
   (∀ W pw, ⌜at_key (warehouses b) (w64 w) = Some W /\ at_key (w_districts W) (w64 d) = None⌝ -∗
      database_at m b -∗ wp may (K pw NULL) e Φ) ∧
   (∀ W D pw pd wm dm, ⌜at_key (warehouses b) (w64 w) = Some W /\ at_key (w_districts W) (w64 d) = Some D /\ user_addr pd⌝ -∗
      at_district m b (w64 w) (w64 d) W D wm dm pw pd -∗ wp may (K pw pd) e Φ)) -∗
  wp may (let$ wm := ld m warehouseMapPtr in
          let$ warehousePtr := MAP_FIND wm w in
          if warehousePtr =? NULL then CRet fail else
          let$ dm := ld warehousePtr districtMap in
          let$ districtPtr := MAP_FIND dm d in
          K warehousePtr districtPtr) e Φ.
Proof.
  iIntros (Hw Hd) "(%wm & %ws & Ht & Hws) HΦ".
  iDestruct "Ht" as (hm im nm sm x5 x6 x7 x8 x9 x10 x11 its ss) "(Hm & Ht)". wp_ld "Hm".
  iAssert (tables m wm b) with "[Hm Ht]" as "Ht"; [repeat iExists _; iFrame|].
  destruct (at_key (warehouses b) (w64 w)) as [W|] eqn:HW; last first.
  { wp_bind. iApply (wp_find_none with "Hws"); [done..|]. iIntros "Hws". iApply wp_ret.
    iDestruct "HΦ" as "[HΦ _]". iApply "HΦ"; [done|]. iExists _, _. iFrame. }
  destruct (at_key_spec _ _ _ HW) as (iw & Hiw & HW2).
  wp_bind. iApply (wp_find_some with "Hws"); [done..|]. iIntros (pw) "_ %Hwu (%dm & %ds & Hh & Hds) HWc".
  rw user_addr_null //. iDestruct "Hh" as (w1 w2 w3 w4 w5 w6 tw) "(Hwp & %Htw)". wp_ld "Hwp".
  iAssert (warehouse_head (Z.of_nat iw + 1) pw dm W) with "[Hwp]" as "Hh"; [repeat iExists _; by iFrame|].
  iDestruct "HΦ" as "[_ HΦ]". destruct (at_key (w_districts W) (w64 d)) as [D|] eqn:HD; last first.
  { wp_bind. iApply (wp_find_none with "Hds"); [done..|]. iIntros "Hds".
    iDestruct "HΦ" as "[HΦ _]". iApply ("HΦ" $! W pw); [done|].
    iSpecialize ("HWc" $! W with "[Hh Hds]"); [iExists _, _; iFrame|]. rw list_insert_id //. iExists _, _. iFrame. }
  destruct (at_key_spec _ _ _ HD) as (id & Hid & HD2).
  wp_bind. iApply (wp_find_some with "Hds"); [done..|]. iIntros (pd) "_ %Hdu Hd HDc".
  iDestruct "HΦ" as "[_ HΦ]". rw Hiw Hid.
  iApply ("HΦ" $! W D pw pd wm dm); [iPureIntro; split_and!; [done|by rw at_key_nth|done]|]. iFrame "Ht Hh Hd".
  iIntros (b' W' D' [Hb HW']) "Ht Hh Hd". iSpecialize ("HDc" with "Hd").
  iSpecialize ("HWc" $! (W' <| w_districts := <[id := D']> (w_districts W) |>) with "[Hh HDc]").
  { iExists _, _. iFrame. }
  iExists _, _. rw /set_district !set_key_nth HW' Hb. iFrame.
Qed.

(** The same with the test of the district *)
Lemma wp_find_district {A} (fail : A) (K : Z -> Z -> code A) m b w d e Φ :
  key_ok (w64 w) = true -> key_ok (w64 d) = true ->
  database_at m b -∗
  ((⌜find_district b (w64 w) (w64 d) = None⌝ -∗ database_at m b -∗ Φ fail e) ∧
   (∀ W D pw pd wm dm, ⌜find_district b (w64 w) (w64 d) = Some (W, D)⌝ -∗
      at_district m b (w64 w) (w64 d) W D wm dm pw pd -∗ wp may (K pw pd) e Φ)) -∗
  wp may (let$ wm := ld m warehouseMapPtr in
          let$ warehousePtr := MAP_FIND wm w in
          if warehousePtr =? NULL then CRet fail else
          let$ dm := ld warehousePtr districtMap in
          let$ districtPtr := MAP_FIND dm d in
          if districtPtr =? NULL then CRet fail else K warehousePtr districtPtr) e Φ.
Proof.
  iIntros (Hw Hd) "Hdb HΦ". iApply (wp_find_rows with "Hdb"); [done..|]. iSplit; [|iSplit].
  - iIntros "%HW Hdb". iDestruct "HΦ" as "[HΦ _]". iApply ("HΦ" with "[] Hdb"). iPureIntro. by rw /find_district HW.
  - iIntros (W pw) "[%HW %HD] Hdb". iApply wp_ret. iDestruct "HΦ" as "[HΦ _]". iApply ("HΦ" with "[] Hdb").
    iPureIntro. by rw /find_district HW HD.
  - iIntros (W D pw pd wm dm) "(%HW & %HD & %Hu) Hat". rw user_addr_null //. iDestruct "HΦ" as "[_ HΦ]".
    iApply ("HΦ" with "[] Hat"). iPureIntro. by rw /find_district HW HD.
Qed.

End Find.
