(* ===== verification/TpccNew.v ===== *)
(** * The new-order transaction *)
From Stdlib Require Import String.
From iris.proofmode Require Import proofmode.
From S2P Require Import Prelude Words Wrappers Float Objects RBTree SList Store StoreLogic Tables Manager Tpcc TpccRep.
Local Open Scope Z_scope.

(** The numbers that are drawn from here on are those of [r] from the place [k]. *)
Definition at_draw (r : nat -> Z) (e : env) (k : nat) : Prop := forall n, draws e n = r (k + n)%nat.

(** No number is drawn. *)
Definition keeps (e e' : env) : Prop := draws e' = draws e /\ times e' = times e.

Lemma at_draw_keeps r e e' k : keeps e e' -> at_draw r e k -> at_draw r e' k.
Proof. intros [He _] Hr n. rw He. apply Hr. Qed.

Lemma at_draw_drawn r e k : at_draw r e k -> at_draw r (drawn e) (S k).
Proof. intros Hr n. rw /drawn /=. rw (Hr (S n)). f_equal. lia. Qed.

(** The districts do not have so many orders that the key of the next overflows. *)
Definition small_orders (b : database) : Prop :=
  forall W D, W ∈ warehouses b -> D ∈ w_districts W -> Z.of_nat (length (d_orders D)) + 1 < 2 ^ 62.

Section New.

Context (may : stop -> Prop) {names : known} (no_memory : may NoMemory).

(** *** Rows that are allocated *)

Lemma wp_orderline_alloc o d w n i sup del q a e Φ :
  is_f32 a ->
  (∀ p ob ps, ⌜places e = (p, ob) :: ps⌝ -∗ ⌜user_addr p⌝ -∗
     line_row (w64 o) (w64 d) (w64 w) (w64 n) p (mk_line (w64 i) del (w64 q) a) -∗ Φ p (e <| places := ps |>)) -∗
  wp may (orderline_alloc o d w n i sup del q a) e Φ.
Proof.
  iIntros (Ha) "HΦ". wp_malloc p ob ps Hp Hl Hu "Hp".
  do 8 wp_st "Hp". wp_stf "Hp".
  iApply wp_ret. iApply ("HΦ" with "[//] [//]"). iExists _, _, _. iFrame. iPureIntro. simpl. by apply float_merge; [|left].
Qed.

Lemma wp_add_orderline lm ps ls o d w n i sup del q a key e Φ :
  is_f32 a -> key_ok (w64 key) = true -> w64 key = Z.of_nat (length ls) + 1 -> w64 key = w64 n ->
  table (line_row (w64 o) (w64 d) (w64 w)) lm ps ls -∗
  (∀ p e', ⌜keeps e e'⌝ -∗ ⌜user_addr p⌝ -∗
     table (line_row (w64 o) (w64 d) (w64 w)) lm (ps ++ [p]) (ls ++ [mk_line (w64 i) del (w64 q) a]) -∗ Φ p e') -∗
  wp may (TM_add_orderline lm o d w n i sup del q a key) e Φ.
Proof.
  iIntros (Ha Hk Hn Hkn) "Ht HΦ". wp_bind. iApply wp_orderline_alloc; [done|]. iIntros (p ob bs) "_ %Hu Hrow".
  wp_bind. rw -Hkn Hn. iApply (wp_insert_next with "Ht Hrow"); [done..|]. iIntros (b ob2 bs2) "_ Ht".
  iApply wp_ret. by iApply ("HΦ" with "[] [//] Ht").
Qed.

(** *** A line of a new order *)

Lemma line_item_range r i : 1 <= line_item r i <= 100000.
Proof. unfold line_item. pose proof (Z.mod_pos_bound (r (2 + 2 * i)%nat) 100000). lia. Qed.

Lemma line_quantity_range r i : 1 <= line_quantity r i <= 10.
Proof. unfold line_quantity. pose proof (Z.mod_pos_bound (r (3 + 2 * i)%nat) 10). lia. Qed.

Lemma small_word k : 0 <= k < 2 ^ 62 -> w64 k = k /\ key_ok k = true.
Proof.
  intros Hk. split; [apply w64_id; unfold is_word, word_size; lia|]. unfold key_ok.
  rw (proj2 (Z.leb_le 0 k)); [|lia]. by rw (proj2 (Z.ltb_lt k _)); [|lia].
Qed.

Lemma word_of_long v k : w64 (to_long v + k) = w64 (v + k).
Proof.
  unfold to_long. case_bool; [done|]. unfold w64, word_size. replace (v - 2 ^ 64 + k) with (v + k + -1 * 2 ^ 64) by lia.
  by rw Z.mod_add.
Qed.

Lemma wp_neworder_line m mw im its prices sm ss sts op ow lm lps lines o d w i total r e Φ :
  mw !! itemMapPtr = Some im -> mw !! stockMapPtr = Some sm -> ow !! orderline = Some lm ->
  let n := length lines in
  i = Z.of_nat n + 1 -> i < 2 ^ 62 -> at_draw r e (2 + 2 * n) ->
  is_Some (at_key prices (line_item r n)) -> is_Some (at_key sts (line_item r n)) ->
  m ↦ mw -∗ table item_row im its prices -∗ table stock_row sm ss sts -∗ op ↦ ow -∗
  table (line_row (w64 o) (w64 d) (w64 w)) lm lps lines -∗
  (∀ total' lps' e', ⌜at_draw r e' (2 + 2 * S n)⌝ -∗
     m ↦ mw -∗ table item_row im its prices -∗ table stock_row sm ss (take_line r sts n) -∗ op ↦ ow -∗
     table (line_row (w64 o) (w64 d) (w64 w)) lm lps' (lines ++ [new_line prices r n]) -∗ Φ total' e') -∗
  wp may (neworder_line m op o w d i total) e Φ.
Proof.
  iIntros (Him Hsm Hlm n Hi Hib Hr [price Hp] [s Hs]) "Hm Hit Hst Ho Hl HΦ".
  pose proof (line_item_range r n) as Hir. destruct (small_word (line_item r n)) as [Hiw Hik]; [lia|].
  pose proof (line_quantity_range r n) as Hqr. destruct (small_word (line_quantity r n)) as [Hqw _]; [lia|].
  destruct (at_key_spec _ _ _ Hp) as (j & Hj & Hpj). rw Hj at_key_nth in Hs.
  wp_random. rw (Hr 0%nat) Nat.add_0_r. change (r (2 + 2 * n)%nat mod 100000 + 1) with (line_item r n).
  wp_bind. iApply (wp_ld with "Hm"); [done|]. iIntros "Hm".
  wp_bind. iApply (wp_find_some with "Hit"); [by rw Hiw|by rw Hiw|done|]. iIntros (p) "_ _ (%x1 & %x2 & %pw & %x4 & Hp & %Hpr) Hit".
  wp_ldf "Hp". rw Hpr. iSpecialize ("Hit" $! price with "[Hp]"); [iExists _, _, _, _; by iFrame|]. rw (list_insert_id prices) //.
  wp_bind. iApply (wp_ld with "Hm"); [done|]. iIntros "Hm".
  wp_bind. iApply (wp_find_some with "Hst"); [by rw Hiw|by rw Hiw|done|]. iIntros (p2) "_ _ Hp Hst".
  iDestruct "Hp" as (y1 y3 y4 y5 y6 y7 y8 y9 y10 y11 y12 y15 y16) "Hp".
  pose proof (at_draw_drawn _ _ _ Hr) as Hr1. wp_random. rw (Hr1 0%nat) Nat.add_0_r.
  replace (S (2 + 2 * n)) with (3 + 2 * n)%nat by lia.
  change (r (3 + 2 * n)%nat mod 10 + 1) with (line_quantity r n).
  wp_ldl "Hp". wp_st "Hp". wp_ldl "Hp". wp_st "Hp". wp_ldl "Hp". wp_st "Hp".
  iSpecialize ("Hst" $! (take_stock (line_quantity r n) s) with "[Hp]").
  { iExists _, _, _, _, _, _, _, _, _, _, _, _, _. rw /take_stock /take_quantity !word_of_long /=. iFrame. }
  wp_bind. iApply (wp_ld with "Ho"); [done|]. iIntros "Ho".
  destruct (small_word i) as [Hiw2 Hik2]; [lia|].
  wp_bind. iApply (wp_add_orderline with "Hl"); [apply fmul_f32|by rw Hiw2|by rw Hiw2 Hi|done|]. iIntros (p3 e3) "%Hk3 %Hu3 Hl".
  rw user_addr_null //. wp_bind. iApply wp_ret. iApply wp_ret. iApply ("HΦ" with "[] Hm Hit [Hst] Ho").
  - iPureIntro. eapply at_draw_keeps; [done|]. replace (2 + 2 * S n)%nat with (S (S (2 + 2 * n))) by lia. by apply at_draw_drawn.
  - rw /take_line Hj at_key_nth Hs set_key_nth. done.
  - rw /new_line Hp Hiw Hqw /=. done.
Qed.

(** *** The order row *)

Lemma wp_order_alloc o d c w entry carrier cnt e Φ :
  (∀ p lm e', ⌜keeps e e'⌝ -∗ ⌜user_addr p⌝ -∗
     p ↦ [w64 o; w64 d; w64 w; w64 c; w64 entry; w64 carrier; w64 cnt; 1; lm] -∗ lm ⤇ ∅ -∗ Φ p e') -∗
  wp may (TM_order_alloc o d c w entry carrier cnt 1) e Φ.
Proof.
  iIntros "HΦ". wp_malloc p ob ps Hp Hl Hu "Hp".
  do 8 wp_st "Hp". wp_bind. iApply wp_map_alloc; [done|]. iIntros (lm ob2 ps2) "_ %Hu2 Hl".
  wp_st "Hp". wp_ld "Hp". rw !(user_addr_word lm) //.
  wp_bind. iApply wp_assert; [by rw user_addr_null|].
  change (w64 1) with 1. iApply wp_ret. by iApply ("HΦ" $! p lm with "[] [//] Hp Hl").
Qed.

(** The map gets its next entry; the row is not complete yet. *)
Lemma wp_add_order om ps o d c w entry carrier cnt key e Φ :
  key_ok (w64 key) = true -> w64 key = Z.of_nat (length ps) + 1 ->
  om ⤇ numbered ps -∗
  (∀ p lm e', ⌜keeps e e'⌝ -∗ ⌜user_addr p⌝ -∗
     p ↦ [w64 o; w64 d; w64 w; w64 c; w64 entry; w64 carrier; w64 cnt; 1; lm] -∗ lm ⤇ ∅ -∗
     om ⤇ numbered (ps ++ [p]) -∗ Φ p e') -∗
  wp may (TM_add_order om o d c w entry carrier cnt 1 key) e Φ.
Proof.
  iIntros (Hk Hn) "Hm HΦ". wp_bind. iApply wp_order_alloc. iIntros (p lm e1) "%Hk1 %Hu Hp Hl".
  wp_bind. iApply (wp_map_insert with "Hm"); [done|done|]. iIntros (b ob bs) "_ Hm".
  rw numbered_lookup Hn at_key_new (user_addr_word p) // -numbered_snoc. iApply wp_ret. by iApply ("HΦ" $! p lm with "[] [//] Hp Hl Hm").
Qed.

(** *** The loop *)

Lemma take_lines_S r ss n : take_lines r ss (S n) = take_line r (take_lines r ss n) n.
Proof. unfold take_lines. rw seq_S fold_left_app /=. done. Qed.

Lemma new_lines_S ps r n : new_lines ps r (S n) = new_lines ps r n ++ [new_line ps r n].
Proof. unfold new_lines. by rw seq_S fmap_app. Qed.

Lemma take_line_length r ss i : length (take_line r ss i) = length ss.
Proof. unfold take_line. case_match; [apply length_insert|done]. Qed.

Lemma take_lines_length r ss n : length (take_lines r ss n) = length ss.
Proof. induction n as [|n IH]; [done|]. by rw take_lines_S take_line_length. Qed.

Lemma at_key_length {A} (l l' : list A) k : length l = length l' -> is_Some (at_key l k) <-> is_Some (at_key l' k).
Proof.
  intros Hl. unfold at_key. destruct (1 <=? k); [|done]. rw !lookup_lt_is_Some Hl. done.
Qed.

Lemma wp_neworder_lines m mw im its sm ss op ow lm o d w b cnt total r e Φ :
  mw !! itemMapPtr = Some im -> mw !! stockMapPtr = Some sm -> ow !! orderline = Some lm ->
  cnt = line_count r -> stocked r b -> at_draw r e 2 ->
  m ↦ mw -∗ table item_row im its (items b) -∗ table stock_row sm ss (stocks b) -∗ op ↦ ow -∗ lm ⤇ ∅ -∗
  (∀ total' lps e', let n := Z.to_nat cnt in ⌜at_draw r e' (2 + 2 * n)⌝ -∗
     m ↦ mw -∗ table item_row im its (items b) -∗ table stock_row sm ss (take_lines r (stocks b) n) -∗ op ↦ ow -∗
     table (line_row (w64 o) (w64 d) (w64 w)) lm lps (new_lines (items b) r n) -∗ Φ total' e') -∗
  wp may (for_to 1 cnt total (fun i total => neworder_line m op o w d i total)) e Φ.
Proof.
  iIntros (Him Hsm Hlm -> Hst Hr) "Hm Hit Hst Ho Hl HΦ". unfold line_count. pose proof (Z.mod_pos_bound (r 0%nat) 10) as Hc.
  iApply (wp_for_to may 1 _ total _ (fun i t e' => ∃ lps, ⌜at_draw r e' (2 + 2 * i)⌝ ∗
     m ↦ mw ∗ table item_row im its (items b) ∗ table stock_row sm ss (take_lines r (stocks b) i) ∗ op ↦ ow ∗
     table (line_row (w64 o) (w64 d) (w64 w)) lm lps (new_lines (items b) r i))%I with "[Hm Hit Hst Ho Hl]").
  - lia.
  - iExists []. iFrame "Hm Hit Ho Hst". iSplit; [done|]. by iApply table_empty.
  - iIntros "!>" (i t e') "%Hi (%lps & %Hr' & Hm & Hit & Hst & Ho & Hl)".
    assert (Hlen : length (new_lines (items b) r i) = i) by (unfold new_lines; by rw length_fmap length_seq).
    destruct (Hst i) as [Hs1 Hs2]; [unfold line_count; lia|].
    iApply (wp_neworder_line with "Hm Hit Hst Ho Hl"); rw ?Hlen; try done; [lia|lia| |].
    { apply (at_key_length _ (stocks b)); [apply take_lines_length|done]. }
    iIntros (t' lps' e2) "%Hr2 Hm Hit Hst Ho Hl". iExists lps'. rw take_lines_S new_lines_S. by iFrame.
  - iIntros (t e') "(%lps & %Hr' & Hm & Hit & Hst & Ho & Hl)".
    replace (r 0%nat mod 10 + 5 - 1 + 1) with (r 0%nat mod 10 + 5) in * by lia.
    by iApply ("HΦ" $! t lps e' with "[//] Hm Hit Hst Ho Hl").
Qed.

(** *** The transaction *)

Lemma wp_neworder m b w d c e Φ :
  key_ok (w64 w) = true -> key_ok (w64 d) = true -> key_ok (w64 c) = true ->
  stocked (draws e) b -> small_orders b ->
  database_at m b -∗
  (∀ v b' e', ⌜spec_neworder (draws e) (times e 0%nat) (w64 w) (w64 d) (w64 c) b = (v, b')⌝ -∗ database_at m b' -∗ Φ v e') -∗
  wp may (manager_newordertransaction m w d c) e Φ.
Proof.
  iIntros (Hw Hd Hc Hst Hsm) "Hdb HΦ". iApply (wp_find_district with "Hdb"); [done..|]. iSplit.
  { iIntros "%Hf Hdb". iApply ("HΦ" with "[] Hdb"). iPureIntro. by rw /spec_neworder /find_customer Hf. }
  iIntros (W D pw pd wm dm) "%Hf (Ht & Hw & Hd & Hclose)".
  iDestruct "Hd" as (cm om cs os) "(Hd & Hcs & Hos)". iDestruct "Hd" as (d2 d3 d4 d5 d6 d7 tw) "(Hd & %Htw)". wp_ld "Hd".
  destruct (at_key (d_customers D) (w64 c)) as [C|] eqn:HC; last first.
  { wp_bind. iApply (wp_find_none with "Hcs"); [done..|]. iIntros "Hcs". iApply wp_ret.
    iApply ("HΦ" $! _ b); [iPureIntro; by rw /spec_neworder /find_customer Hf HC|].
    iSpecialize ("Hclose" $! b W D with "[//] Ht Hw [Hd Hcs Hos]"); [repeat iExists _; by iFrame|].
    by rw set_district_same. }
  destruct (at_key_spec _ _ _ HC) as (ic & Hic & HC2).
  wp_bind. iApply (wp_find_some with "Hcs"); [done..|]. iIntros (pc) "%Hpc %Hcu HCr HCc".
  iDestruct "HCr" as (c3 c4 last c6 c7 c8 c9 c10 c11 since c13 lw bw c18 lo) "(Hpc & Hlast & %Hcf)".
  rw user_addr_null //. iDestruct "Hw" as (w1 w2 w3 w4 w5 w6 ww) "(Hw & %Hww)".
  wp_ldf "Hw". wp_ldf "Hd". wp_ldl "Hd". wp_st "Hd". wp_ldf "Hpc".
  iSpecialize ("HCc" $! C with "[Hpc Hlast]"); [repeat iExists _; by iFrame|]. rw list_insert_id //.
  pose proof (Hsm W D ltac:(by eapply find_district_in) ltac:(by eapply find_district_in)) as Hlen.
  iDestruct (table_length with "Hos") as %Hol.
  set (k := Z.of_nat (length (d_orders D)) + 1) in *. destruct (small_word k) as [Hkw Hkk]; [lia|].
  assert (to_long k = k) as -> by (rw /to_long; by rw (proj2 (Z.ltb_lt k _)); [|lia]).
  wp_random. change (draws e 0%nat mod 10 + 5) with (line_count (draws e)).
  wp_bind. iApply wp_time. wp_ld "Hd".
  iDestruct "Hos" as "(Hom & %Hoa & Hor)".
  wp_bind. iApply (wp_add_order with "Hom"); [by rw Hkw|by rw Hkw Hol|]. iIntros (po lm e1) "%Hk1 %Hou Hpo Hlm Hom".
  iDestruct (table_mono _ (customer_row (os ++ [po]) (w64 d) (w64 w)) with "HCc") as "HCc"; [by intros; apply customer_row_more|].
  iDestruct (table_acc with "HCc") as "[HCr HCc]"; [done|done|].
  iDestruct "HCr" as (c3' c4' last' c6' c7' c8' c9' c10' c11' since' c13' lw' bw' c18' lo') "(Hpc & Hlast & %Hcf1 & %Hcf2 & _)".
  wp_st "Hpc". rw (user_addr_word po) //.
  iSpecialize ("HCc" $! (C <| c_order := length (d_orders D) |>) with "[Hpc Hlast]").
  { repeat iExists _. iFrame. iPureIntro. split_and!; [done|done|]. rw /= -Hol. apply lookup_last_app. }
  wp_random. iDestruct "Ht" as (hm im nm sm x5 x6 x7 x8 x9 x10 x11 its ss) "(Hm & Hits & Hss & Hno)".
  assert (Hr : at_draw (draws e) (drawn e1) 2).
  { apply at_draw_drawn. eapply at_draw_keeps; [exact Hk1|]. by apply (at_draw_drawn _ e 0). }
  wp_bind. iApply (wp_neworder_lines with "Hm Hits Hss Hpo Hlm"); [done..|].
  iIntros (total lps e2) "_ Hm Hits Hss Hpo Hl". iApply wp_ret. set (n := Z.to_nat (line_count (draws e))).
  set (o := mk_order (w64 c) (w64 (times e 0%nat)) (w64 (-1)) (new_lines (items b) (draws e) n)).
  set (D' := D <| d_orders := d_orders D ++ [o] |>
               <| d_customers := set_key (d_customers D) (w64 c) (C <| c_order := length (d_orders D) |>) |>).
  iApply ("HΦ" $! 1 (set_district (b <| stocks := take_lines (draws e) (stocks b) n |>) (w64 w) (w64 d) W D')).
  { iPureIntro. by rw /spec_neworder /find_customer Hf HC. }
  iApply ("Hclose" $! (b <| stocks := take_lines (draws e) (stocks b) n |>) W D' with "[] [Hm Hits Hss Hno] [Hw]").
  { iPureIntro. by split. }
  { do 13 iExists _. rw /=. iFrame. }
  { repeat iExists _. by iFrame. }
  iExists cm, om, cs, (os ++ [po]). iSplitL "Hd".
  { repeat iExists _. iSplit; [|done]. rw /= length_app /= Nat.add_1_r Nat2Z.inj_succ -Z.add_1_r. fold k.
    rw (w64_id (k + 1)); [iFrame|unfold is_word, word_size; lia]. }
  iSplitL "HCc"; [by rw /D' /= Hic set_key_nth|].
  iApply (table_snoc with "Hom [//] Hor"); [done|done|]. fold k. iExists lm, lps. rw Hkw. iFrame.
  assert (w64 (line_count (draws e)) = Z.of_nat (length (o_lines o))) as ->; [|done].
  rw /= /new_lines length_fmap length_seq /n. unfold line_count. pose proof (Z.mod_pos_bound (draws e 0%nat) 10).
  rw w64_id; [lia|unfold is_word, word_size; lia].
Qed.

End New.
