(* ===== verification/TpccPay.v ===== *)
(** * The payment transaction *)
From Stdlib Require Import String.
From iris.proofmode Require Import proofmode.
From S2P Require Import Prelude Words Wrappers Float Objects RBTree SList Store StoreLogic Tables Manager Tpcc TpccRep TpccNew.
Local Open Scope Z_scope.

Section Pay.

Context (may : stop -> Prop) {names : known} (no_memory : may NoMemory).

(** ** Names *)

Lemma syllable_lookup i : 0 <= i < 10 -> exists s, stringCLast !! Z.to_nat i = Some s /\ syllable i = CRet s.
Proof.
  intros Hi. destruct (lookup_lt_is_Some_2 stringCLast (Z.to_nat i)) as [s Hs]; [simpl; lia|].
  exists s. split; [done|]. unfold syllable. rw (proj2 (Z.leb_le 0 i)); [|lia]. by rw Hs.
Qed.

Lemma wp_generate_CLAST n e Φ :
  0 <= n < 1000 ->
  (∀ p e', ⌜keeps e e' /\ strs e ⊆ strs e' /\ strs e' !! p = Some (clast n) /\ user_addr p⌝ -∗ Φ p e') -∗ wp may (generate_CLAST n) e Φ.
Proof.
  iIntros (Hn) "HΦ". unfold generate_CLAST.
  assert (Hq1 : Z.quot n 10 = n / 10) by (apply Z.quot_div_nonneg; lia).
  assert (H1 : 0 <= n / 10 < 100) by (split; [apply Z.div_pos; lia|apply Z.div_lt_upper_bound; lia]).
  assert (Hq2 : Z.quot (n / 10) 10 = n / 100) by (rw Z.quot_div_nonneg; [by rw Z.div_div|lia|lia]).
  rw Hq1 Hq2 !Z.rem_mod_nonneg; [|lia..].
  destruct (syllable_lookup (n / 100)) as (s1 & Hs1 & ->); [split; [apply Z.div_pos; lia|apply Z.div_lt_upper_bound; lia]|].
  destruct (syllable_lookup (n / 10 mod 10)) as (s2 & Hs2 & ->); [apply Z.mod_pos_bound; lia|].
  destruct (syllable_lookup (n mod 10)) as (s3 & Hs3 & ->); [apply Z.mod_pos_bound; lia|].
  do 3 (wp_bind; iApply wp_ret). iApply wp_new_string; [done|]. iIntros (p ob ps) "_ %Hu %Hfresh".
  iApply "HΦ". iPureIntro. split; [done|]. split; [by apply insert_subseteq|].
  split; [rw /clast Hs1 Hs2 Hs3; apply lookup_insert_eq|done].
Qed.

Lemma wp_find_by_name os d w cm cps cs p name n k (off : list customer) e Φ :
  let all := (off ++ cs)%list in
  k = Z.of_nat (length off) + 1 -> Z.of_nat (length off + n) < 2 ^ 61 ->
  (n <= length cs)%nat \/ is_Some (find_name n k name cs) ->
  strs e !! p = Some name -> known_strings ⊆ strs e -> table (customer_row os d w) cm cps all -∗
  ((⌜find_name n k name cs = None⌝ -∗ table (customer_row os d w) cm cps all -∗ Φ NULL e) ∧
   (∀ (i : nat) pc C, ⌜find_name n k name cs = Some (Z.of_nat i + 1)%Z⌝ -∗ ⌜cps !! i = Some pc⌝ -∗ ⌜all !! i = Some C⌝ -∗ ⌜user_addr pc⌝ -∗
      table (customer_row os d w) cm cps all -∗ Φ pc e)) -∗
  wp may (find_by_name n k cm p) e Φ.
Proof.
  revert k off cs. induction n as [|n IH]; intros k off cs all Hk Hb Hs; iIntros (Hp Hks) "Ht HΦ".
  { iApply wp_ret. iDestruct "HΦ" as "[HΦ _]". by iApply "HΦ". }
  cbn [find_by_name]. destruct cs as [|c cs]; [exfalso; destruct Hs as [Hs|[? [=]]]; simpl in Hs; lia|].
  assert (Hi : all !! length off = Some c) by apply list_lookup_middle, eq_refl.
  destruct (small_word k) as [Hkw Hkk]; [lia|].
  wp_bind. iApply (wp_find_some with "Ht"); [by rw Hkw|by rw Hkw|done|]. iIntros (pc) "%Hpc %Hu Hr Hc".
  iDestruct "Hr" as (c3 c4 last c6 c7 c8 c9 c10 c11 since c13 lw bw c18 lo) "(Hpc & #Hlast & %Hcf)".
  iDestruct "Hlast" as %Hlast. wp_bind. iApply wp_get_string; [exact Hp|]. wp_ld "Hpc".
  wp_bind. iApply wp_get_string; [by eapply lookup_weaken|].
  iSpecialize ("Hc" $! c with "[Hpc]"); [repeat iExists _; iFrame; by iPureIntro|]. rw list_insert_id //.
  simpl in Hs. destruct (same_name name (c_last c)) eqn:Hsame; cbn [find_name]; rw Hsame.
  - iApply wp_ret. iDestruct "HΦ" as "[_ HΦ]". by iApply ("HΦ" $! (length off) pc c with "[] [//] [//] [//]"); [iPureIntro; by rw Hk|].
  - assert (Ha : all = ((off ++ [c]) ++ cs)%list) by (by rw -app_assoc). rw Ha.
    iApply (IH (k + 1) (off ++ [c])%list cs with "Hc HΦ"); [rw length_app /=; lia|rw length_app /=; lia| |done|done].
    destruct Hs as [Hs|Hs]; [left; lia|by right].
Qed.

(** ** The customer *)

Lemma name_number_range r : 0 <= name_number r < 1000.
Proof.
  unfold name_number. pose proof (Z.rem_bound_abs (to_int r) 999 ltac:(lia)). lia.
Qed.

(** The customer that is paid for: a key of the table, or none *)
Lemma wp_payment_customer os d w pd cm cps D pdw c e Φ :
  key_ok (w64 c) = true -> pdw !! customerMap = Some cm ->
  known_strings ⊆ strs e -> (c = -1 -> (3000 <= length (d_customers D))%nat \/ is_Some (payment_key (draws e 0%nat) c D)) ->
  pd ↦ pdw -∗ table (customer_row os d w) cm cps (d_customers D) -∗
  (∀ pc e', pd ↦ pdw -∗ table (customer_row os d w) cm cps (d_customers D) -∗
     ⌜pc = NULL /\ (payment_key (draws e 0%nat) c D = None \/
        exists k, payment_key (draws e 0%nat) c D = Some k /\ at_key (d_customers D) k = None) \/
      exists (i : nat) C, user_addr pc /\ payment_key (draws e 0%nat) c D = Some (Z.of_nat i + 1)%Z /\ cps !! i = Some pc /\ d_customers D !! i = Some C⌝ -∗
     Φ pc e') -∗
  wp may (payment_customer pd c) e Φ.
Proof.
  iIntros (Hk Hcm Hks Hn) "Hd Ht HΦ". unfold payment_customer, payment_key in *. destruct (Z.eqb_spec c (-1)) as [->|Hc]; cbn [negb].
  - wp_bind. iApply wp_random. change (Z.abs (Z.rem (to_int (draws e 0%nat)) 999)) with (name_number (draws e 0%nat)).
    wp_bind. iApply wp_generate_CLAST; [apply name_number_range|]. iIntros (p e1) "(_ & %Hsub & %Hp & _)".
    wp_bind. iApply (wp_ld with "Hd"); [done|]. iIntros "Hd".
    iApply (wp_find_by_name os d w cm cps (d_customers D) p _ 3000 1 [] with "Ht"); [done|done|by apply Hn|exact Hp|by etrans|]. iSplit.
    + iIntros "%Hf Ht". iApply ("HΦ" with "Hd Ht"). iPureIntro. left. split; [done|]. by left.
    + iIntros (i pc C) "%Hf %Hpc %HC %Hu Ht". iApply ("HΦ" with "Hd Ht"). iPureIntro. right. by exists i, C.
  - wp_bind. iApply (wp_ld with "Hd"); [done|]. iIntros "Hd".
    destruct (at_key (d_customers D) (w64 c)) as [C|] eqn:HC.
    + destruct (at_key_spec _ _ _ HC) as (i & Hi & HC2).
      iApply (wp_find_some with "Ht"); [done..|]. iIntros (pc) "%Hpc %Hu Hr Hc". iSpecialize ("Hc" $! C with "Hr").
      rw list_insert_id //. iApply ("HΦ" with "Hd Hc"). iPureIntro. right. exists i, C. by rw Hi.
    + iApply (wp_find_none with "Ht"); [done..|]. iIntros "Ht". iApply ("HΦ" with "Hd Ht"). iPureIntro. left.
      split; [done|]. right. by eexists.
Qed.

(** ** The transaction *)

Lemma wp_payment m b w d c a e Φ :
  key_ok (w64 w) = true -> key_ok (w64 d) = true -> key_ok (w64 c) = true ->
  known_strings ⊆ strs e -> named (draws e 0%nat) (w64 w) (w64 d) c b ->
  (spec_payment (draws e 0%nat) (w64 w) (w64 d) c a b = None -> may Restarted) ->
  database_at m b -∗
  (∀ v b' e', ⌜spec_payment (draws e 0%nat) (w64 w) (w64 d) c a b = Some (v, b')⌝ -∗ database_at m b' -∗ Φ v e') -∗
  wp may (manager_paymenttransaction m w d c a) e Φ.
Proof.
  iIntros (Hw Hd Hc Hks Hn Hmay) "Hdb HΦ". iApply (wp_find_district with "Hdb"); [done..|]. iSplit.
  { iIntros "%Hf Hdb". iApply ("HΦ" with "[] Hdb"). iPureIntro. by rw /spec_payment Hf. }
  iIntros (W D pw pd wm dm) "%Hf (Ht & Hw & Hd & Hclose)".
  iDestruct "Hd" as (cm om cs os) "(Hd & Hcs & Hos)". iDestruct "Hd" as (d2 d3 d4 d5 d6 d7 tw) "(Hd & %Htw)".
  iDestruct "Hw" as (w1 w2 w3 w4 w5 w6 ww) "(Hw & %Hww)".
  wp_bind. iApply (wp_payment_customer with "Hd Hcs"); [done|done|done|by intros ->; eapply Hn|].
  iIntros (pc e1) "Hd Hcs [[-> %HC]|(%i & %C & %Hu & %HC & %Hpc & %HC2)]".
  { iApply wp_stop; [done|]. apply Hmay. unfold spec_payment. rw Hf. by destruct HC as [->|(k & -> & ->)]. }
  rw user_addr_null //. wp_bind. iApply wp_ret.
  iDestruct (table_acc with "Hcs") as "[HCr HCc]"; [done|done|].
  iDestruct "HCr" as (c3 c4 last c6 c7 c8 c9 c10 c11 since c13 lw bw c18 lo) "(Hpc & Hlast & %Hcf1 & %Hcf2 & %Hcf3)".
  wp_ldf "Hw". wp_stf "Hw". wp_ldf "Hd". wp_stf "Hd". wp_ldf "Hpc". wp_stf "Hpc". wp_ldf "Hpc". wp_stf "Hpc".
  wp_ldl "Hpc". wp_st "Hpc". iApply wp_ret.
  pose proof (halves_0 bw _ _ (fsub (c_balance C) a) (fsub_f32 _ _) Hcf2) as Hb1.
  destruct Hcf2 as [Hp0 Hp1]. pose proof Hb1 as [_ Hb2]. destruct Htw as [Ht0 Ht1], Hww as [Hw0 Hw1].
  rw Hp0 Hb2 Ht1 Hw1 word_of_long.
  set (W' := W <| w_ytd := fadd (w_ytd W) a |>).
  set (D' := D <| d_ytd := fadd (d_ytd D) a |> <| d_customers := set_key (d_customers D) (Z.of_nat i + 1) (pay a C) |>).
  iApply ("HΦ" $! 1 (set_district b (w64 w) (w64 d) W' D')).
  { iPureIntro. by rw /spec_payment Hf HC at_key_nth HC2. }
  iApply ("Hclose" $! b W' D' with "[//] Ht [Hw]").
  { repeat iExists _. iFrame "Hw". iPureIntro. eapply halves_1; [apply fadd_f32|by split]. }
  iExists cm, om, cs, os. iSplitL "Hd".
  { repeat iExists _. iFrame "Hd". iPureIntro. eapply halves_1; [apply fadd_f32|by split]. }
  iSplitR "Hos"; [|done]. rw /D' /= set_key_nth. iApply "HCc". repeat iExists _. iFrame "Hpc Hlast". iPureIntro.
  split_and!; [done| |done]. eapply halves_1; [apply fadd_f32|done].
Qed.

End Pay.
