(* ===== verification/TpccRead.v ===== *)
(** * The transactions that only read: order status and stock level *)
From Stdlib Require Import String.
From iris.proofmode Require Import proofmode.
From S2P Require Import Prelude Words Wrappers Float Objects RBTree SList Store StoreLogic Tables Manager Tpcc TpccRep TpccNew.
Local Open Scope Z_scope.

Section Read.

Context (may : stop -> Prop) {names : known}.

(** ** Order status *)

Definition line_status (l : oline) : list Z := [to_long (l_i_id l); if to_long (w64 (l_delivery l)) <? 0 then 1 else 0].

Lemma status_lines ls : concat ((fun l => [to_long (l_i_id l); if to_long (w64 (l_delivery l)) <? 0 then 1 else 0]) <$> ls) = concat (line_status <$> ls).
Proof. done. Qed.

Lemma lines_status_length ls : length (concat (line_status <$> ls)) = (2 * length ls)%nat.
Proof. induction ls as [|l ls IH]; [done|]. rw fmap_cons /= -/fmap IH. lia. Qed.

Lemma wp_set_result result i v e Φ : (i < 50)%nat -> Φ (<[i := v]> result) e -∗ wp may (set_result result i v) e Φ.
Proof. iIntros (Hi) "H". rw /set_result (proj2 (Nat.ltb_lt i 50)) //. by iApply wp_ret. Qed.

(** The entry after the ones that are right *)
Lemma take_put (l done : list Z) v : length l = 50%nat -> take (length done) l = done -> (length done < 50)%nat ->
  take (length (done ++ [v])) (<[length done := v]> l) = (done ++ [v])%list.
Proof.
  intros Hl Hd Hb. rw length_app /= Nat.add_1_r. rw (take_S_r _ _ v); [|apply list_lookup_insert_eq; lia].
  by rw take_insert_ge // Hd.
Qed.

Lemma wp_status_loop o d w po ow lm lps all off ls k index result pre e Φ :
  all = (off ++ ls)%list -> ow !! orderline = Some lm -> k = Z.of_nat (length off) + 1 -> (length all <= 24)%nat ->
  length result = 50%nat -> index = length pre -> length pre = (1 + 2 * length off)%nat -> take (length pre) result = pre ->
  po ↦ ow -∗ table (line_row o d w) lm lps all -∗
  (∀ result', ⌜length result' = 50%nat /\ take (length (pre ++ concat (line_status <$> ls))) result' = pre ++ concat (line_status <$> ls)⌝ -∗
     po ↦ ow -∗ table (line_row o d w) lm lps all -∗ Φ result' e) -∗
  wp may (status_loop (length ls) k po index result) e Φ.
Proof.
  revert off k index result pre. induction ls as [|l ls IH]; intros off k index result pre Hall Hlm Hk Hb Hl Hi Hlp Ht; iIntros "Hp Hls HΦ".
  { iApply wp_ret. iApply ("HΦ" with "[] Hp Hls"). iPureIntro. by rw /= app_nil_r. }
  assert (Hlk : all !! length off = Some l) by (rw Hall; by apply list_lookup_middle).
  assert (Hb2 : (length off + S (length ls) <= 24)%nat) by (rw Hall length_app /= in Hb; lia).
  destruct (small_word k) as [Hkw Hkk]; [lia|]. cbn [status_loop length].
  wp_bind. iApply (wp_ld with "Hp"); [done|]. iIntros "Hp".
  wp_bind. iApply (wp_find_some with "Hls"); [by rw Hkw|by rw Hkw|done|]. iIntros (pl) "_ %Hu Hr Hc".
  rw user_addr_null //. wp_bind. iApply wp_ret. iDestruct "Hr" as (sup aw info) "[Hpl %Ha]".
  wp_ldl "Hpl". wp_bind. iApply wp_set_result; [lia|]. wp_ldl "Hpl". wp_bind. iApply wp_set_result; [lia|].
  iSpecialize ("Hc" $! l with "[Hpl]"); [repeat iExists _; by iFrame|]. rw list_insert_id //.
  set (v1 := to_long (l_i_id l)). set (v2 := if to_long (w64 (l_delivery l)) <? 0 then 1 else 0).
  iApply (IH (off ++ [l])%list (k + 1) (index + 1 + 1)%nat _ ((pre ++ [v1]) ++ [v2])%list with "Hp Hc").
  - by rw -app_assoc.
  - done.
  - rw length_app /=. lia.
  - done.
  - by rw !length_insert.
  - rw !length_app /=. lia.
  - rw !length_app /=. lia.
  - subst index. replace (length pre + 1)%nat with (length (pre ++ [v1])) by (by rw length_app).
    apply take_put; [by rw length_insert|by apply take_put; [..|lia]|rw length_app /=; lia].
  - iIntros (result') "%Hr Hp Hls". iApply ("HΦ" with "[] Hp Hls"). iPureIntro.
    rw fmap_cons /= -/fmap. by rw -!app_assoc /= in Hr.
Qed.

(** The orders are not so long that the array is too short. *)
Definition short_orders (b : database) : Prop :=
  forall W D o, W ∈ warehouses b -> D ∈ w_districts W -> o ∈ d_orders D -> (length (o_lines o) <= 24)%nat.

Lemma to_long_small k : 0 <= k < 2 ^ 63 -> to_long k = k.
Proof. intros Hk. unfold to_long. by rw (proj2 (Z.ltb_lt k _)); [|lia]. Qed.

Lemma wp_orderstatus m b w d c result0 e Φ :
  key_ok (w64 w) = true -> key_ok (w64 d) = true -> key_ok (w64 c) = true ->
  length result0 = 50%nat -> short_orders b ->
  database_at m b -∗
  (∀ v st result, ⌜spec_orderstatus (w64 w) (w64 d) (w64 c) b = (v, st)⌝ -∗ ⌜take (length st) result = st⌝ -∗ database_at m b -∗ Φ (v, result) e) -∗
  wp may (orderstatus result0 m w d c) e Φ.
Proof.
  iIntros (Hw Hd Hc Hl Hsh) "Hdb HΦ". iApply (wp_find_district with "Hdb"); [done..|]. iSplit.
  { iIntros "%Hf Hdb". iApply ("HΦ" with "[] [] Hdb"); iPureIntro; [by rw /spec_orderstatus /find_customer Hf|done]. }
  iIntros (W D pw pd wm dm) "%Hf (Ht & Hw & Hd & Hclose)".
  iDestruct "Hd" as (cm om cs os) "(Hd & Hcs & Hos)". iDestruct "Hd" as (d2 d3 d4 d5 d6 d7 tw) "(Hd & %Htw)". wp_ld "Hd".
  iAssert (∀ cs', table (customer_row os (w64 d) (w64 w)) cm cs' (d_customers D) -∗ table (order_row (w64 d) (w64 w)) om os (d_orders D) -∗ database_at m b)%I
    with "[Ht Hw Hd Hclose]" as "Hclose".
  { iIntros (cs') "Hcs Hos". iSpecialize ("Hclose" $! b W D with "[//] Ht Hw [Hd Hcs Hos]"); [repeat iExists _; by iFrame|].
    by rw set_district_same. }
  destruct (at_key (d_customers D) (w64 c)) as [C|] eqn:HC; last first.
  { wp_bind. iApply (wp_find_none with "Hcs"); [done..|]. iIntros "Hcs". iApply wp_ret.
    iApply ("HΦ" with "[] [] [Hclose Hcs Hos]"); [iPureIntro; by rw /spec_orderstatus /find_customer Hf HC|done|].
    by iApply ("Hclose" with "Hcs Hos"). }
  destruct (at_key_spec _ _ _ HC) as (ic & Hic & HC2).
  wp_bind. iApply (wp_find_some with "Hcs"); [done..|]. iIntros (pc) "%Hpc %Hcu HCr HCc".
  iDestruct "HCr" as (c3 c4 last c6 c7 c8 c9 c10 c11 since c13 lw bw c18 lo) "(Hpc & Hlast & %Hcf1 & %Hcf2 & %Hlo)".
  rw user_addr_null //. wp_ld "Hpc".
  iSpecialize ("HCc" $! C with "[Hpc Hlast]"); [repeat iExists _; by iFrame|]. rw list_insert_id //.
  iDestruct (table_length with "Hos") as %Hol. iDestruct "Hos" as "(Hom & %Hoa & Hor)".
  destruct (lookup_lt_is_Some_2 (d_orders D) (c_order C)) as [o Ho]; [rw -Hol; by eapply lookup_lt_Some|].
  iDestruct (table_acc (order_row (w64 d) (w64 w)) om os (d_orders D) with "[$Hom $Hor]") as "[Hor Hos]"; [done|done|done|].
  iDestruct "Hor" as (lm ps) "[Hpo Hl]". assert (Hou : user_addr lo) by (by eapply Forall_lookup_1).
  assert (Hol2 : (length (o_lines o) <= 24)%nat).
  { pose proof (find_district_in _ _ _ _ _ Hf) as [H1 H2]. eapply Hsh; [done|done|by eapply list_elem_of_lookup_2]. }
  rw user_addr_null //. wp_bind. wp_ldl "Hpo". wp_bind. iApply wp_set_result; [lia|]. rw to_long_small; [|lia]. rw Nat2Z.id.
  iApply (wp_status_loop _ _ _ lo _ lm ps (o_lines o) [] (o_lines o) 1 1 _ [Z.of_nat (length (o_lines o))] with "Hpo Hl");
    [done|done|done|done|by rw length_insert|done|done| |].
  { destruct result0; [done|]. done. }
  iIntros (result) "[%Hrl %Hr] Hpo Hl". iApply wp_ret.
  iSpecialize ("Hos" $! o with "[Hpo Hl]"); [iExists _, _; iFrame|]. rw list_insert_id //.
  iApply ("HΦ" with "[] [] [Hclose HCc Hos]"); [iPureIntro; by rw /spec_orderstatus /find_customer Hf HC Ho|done|].
  by iApply ("Hclose" with "HCc Hos").
Qed.

(** ** Stock level *)

(** The item of a line is an index of the array, and has a stock. *)
Definition good_item (ss : list stock) (i : Z) : Prop := 0 <= i < 100000 /\ is_Some (at_key ss i).
Definition bad_item (i : Z) : Prop := 100000 <= i < 2 ^ 63.

Lemma low_filter_insert ss t i (X : gset Z) : i ∉ X ->
  Z.of_nat (base.size (filter (fun j => low_stock ss t j = true) ({[i]} ∪ X))) =
  Z.of_nat (base.size (filter (fun j => low_stock ss t j = true) X)) + (if low_stock ss t i then 1 else 0).
Proof.
  intros Hi. rw filter_union_L. destruct (low_stock ss t i) eqn:Hl.
  - rw filter_singleton_L decide_True // size_union; [rw size_singleton; lia|].
    apply disjoint_singleton_l. by intros [_ Hx]%elem_of_filter.
  - rw filter_singleton_L decide_False; [|by rw Hl]. rw left_id_L. lia.
Qed.

(** The state of the loops after the items [l] *)
Definition seen (ss : list stock) (t : Z) (l : list Z) (item : gset Z) (n : Z) : Prop :=
  item = list_to_set l /\ n = count_low ss t l.

Lemma wp_level_line mw m sm sps ss pl o d w k l t done item n e Φ :
  mw !! stockMapPtr = Some sm -> good_item ss (l_i_id l) \/ bad_item (l_i_id l) /\ may Wrong -> seen ss t done item n ->
  m ↦ mw -∗ table stock_row sm sps ss -∗ line_row o d w k pl l -∗
  (∀ item' n', ⌜good_item ss (l_i_id l) /\ seen ss t (done ++ [l_i_id l]) item' n'⌝ -∗
     m ↦ mw -∗ table stock_row sm sps ss -∗ line_row o d w k pl l -∗ Φ (item', n') e) -∗
  wp may (level_line m pl t item n) e Φ.
Proof.
  iIntros (Hsm Hg Hseen) "Hm Hss (%sup & %aw & %info & Hpl & %Ha) HΦ". wp_ldl "Hpl".
  assert (Hlong : to_long (l_i_id l) = l_i_id l) by (destruct Hg as [[? _]|[[? ?] _]]; apply to_long_small; lia). rw Hlong.
  destruct Hg as [[Hi [s Hs]]|[[Hi _] Hm]]; last first.
  { unfold item_seen. rw (proj2 (Z.ltb_ge (l_i_id l) 100000)) // andb_false_r. wp_bind. by iApply wp_stop. }
  assert (Hb : ((0 <=? l_i_id l) && (l_i_id l <? 100000)) = true) by lia.
  wp_bind. rw /item_seen Hb. iApply wp_ret. destruct Hseen as [-> ->].
  assert (Happ : list_to_set (done ++ [l_i_id l]) = {[l_i_id l]} ∪ (list_to_set done : gset Z)) by (by rw list_to_set_app_L list_to_set_singleton_L (comm_L _)).
  case_bool_decide as Hin.
  { iApply wp_ret. iApply ("HΦ" with "[] Hm Hss [Hpl]"); [|repeat iExists _; by iFrame].
    assert (Hsame : {[l_i_id l]} ∪ (list_to_set done : gset Z) = list_to_set done) by (by apply subseteq_union_1_L, singleton_subseteq_l).
    iPureIntro. split; [by split|]. split; [by rw Happ Hsame|]. unfold count_low. by rw Happ Hsame. }
  destruct (small_word (l_i_id l)) as [Hw Hk]; [lia|]. destruct (at_key_spec _ _ _ Hs) as (j & Hj & Hsj).
  wp_bind. iApply (wp_ld with "Hm"); [done|]. iIntros "Hm". wp_ldl "Hpl". rw Hlong.
  wp_bind. iApply (wp_find_some with "Hss"); [by rw Hw|by rw Hw|done|]. iIntros (ps) "_ _ Hr Hc".
  iDestruct "Hr" as (y1 y3 y4 y5 y6 y7 y8 y9 y10 y11 y12 y15 y16) "Hp". wp_ldl "Hp".
  iSpecialize ("Hc" $! s with "[Hp]"); [repeat iExists _; iFrame|]. rw list_insert_id //.
  wp_ldl "Hpl". rw Hlong. wp_bind. rw /set_item Hb. iApply wp_ret. iApply wp_ret.
  iApply ("HΦ" with "[] Hm Hc [Hpl]"); [|repeat iExists _; by iFrame].
  iPureIntro. split; [by split|]. split; [by rw Happ|]. unfold count_low. rw Happ low_filter_insert //.
  assert (low_stock ss t (l_i_id l) = (to_long (s_quantity s) <? t)) as -> by (by rw /low_stock Hs).
  destruct (to_long (s_quantity s) <? t); lia.
Qed.

Lemma wp_level_lines mw m sm sps ss po ow lm lps o d w all off ls k t done item n fuel e Φ :
  mw !! stockMapPtr = Some sm -> ow !! orderline = Some lm -> ow !! O_OL_CNT = Some (Z.of_nat (length all)) ->
  all = (off ++ ls)%list -> k = Z.of_nat (length off) + 1 -> (length all <= 24)%nat -> (length ls < fuel)%nat ->
  Forall (fun l => good_item ss (l_i_id l) \/ bad_item (l_i_id l) /\ may Wrong) ls -> seen ss t done item n ->
  m ↦ mw -∗ table stock_row sm sps ss -∗ po ↦ ow -∗ table (line_row o d w) lm lps all -∗
  (∀ item' n', ⌜Forall (fun l => good_item ss (l_i_id l)) ls /\ seen ss t (done ++ (l_i_id <$> ls)) item' n'⌝ -∗
     m ↦ mw -∗ table stock_row sm sps ss -∗ po ↦ ow -∗ table (line_row o d w) lm lps all -∗ Φ (item', n') e) -∗
  wp may (level_lines fuel m po k t item n) e Φ.
Proof.
  revert off k done item n fuel. induction ls as [|l ls IH]; intros off k done item n fuel Hsm Hlm Hcnt Hall Hk Hb Hf Hg Hseen;
    iIntros "Hm Hss Hp Hls HΦ"; destruct fuel as [|fuel]; [simpl in Hf; lia| |simpl in Hf; lia|]; cbn [level_lines];
    (wp_bind; iApply (wp_ldl with "Hp"); [exact Hcnt|]; iIntros "Hp"); (rw to_long_small; [|lia]).
  - rw app_nil_r in Hall. subst off. rw (proj2 (Z.ltb_lt _ k)); [|lia]. iApply wp_ret.
    iApply ("HΦ" with "[] Hm Hss Hp Hls"). iPureIntro. split; [done|]. by rw app_nil_r.
  - assert (Hlk : all !! length off = Some l) by (rw Hall; by apply list_lookup_middle).
    assert (Hb2 : (length off + S (length ls) = length all)%nat) by (rw Hall length_app /=; lia).
    destruct (small_word k) as [Hkw Hkk]; [lia|]. rw (proj2 (Z.ltb_ge _ k)); [|lia].
    apply list.Forall_cons in Hg as [Hg1 Hg].
    wp_bind. iApply (wp_ld with "Hp"); [done|]. iIntros "Hp".
    wp_bind. iApply (wp_find_some with "Hls"); [by rw Hkw|by rw Hkw|done|]. iIntros (pl) "_ %Hu Hr Hc". rw user_addr_null //.
    wp_bind. iApply (wp_level_line with "Hm Hss Hr"); [done..|]. iIntros (item' n') "[%Hg1' %Hseen'] Hm Hss Hr".
    iSpecialize ("Hc" with "Hr"). rw list_insert_id //.
    iApply (IH (off ++ [l])%list with "Hm Hss Hp Hc"); try done.
    + by rw -app_assoc.
    + rw length_app /=. lia.
    + simpl in Hf. lia.
    + iIntros (item2 n2) "[%Hg2 %Hs2] Hm Hss Hp Hls". iApply ("HΦ" with "[] Hm Hss Hp Hls"). iPureIntro.
      split; [by constructor|]. by rw -app_assoc in Hs2.
Qed.

Lemma wp_find_order pd dw om os d w orders key (i : nat) o fuel e Φ :
  dw !! orderMap = Some om -> orders !! i = Some o -> w64 key = Z.of_nat i + 1 -> key_ok (w64 key) = true -> (0 < fuel)%nat ->
  pd ↦ dw -∗ table (order_row d w) om os orders -∗
  (∀ po, ⌜user_addr po⌝ -∗ pd ↦ dw -∗ order_row d w (Z.of_nat i + 1) po o -∗
     (order_row d w (Z.of_nat i + 1) po o -∗ table (order_row d w) om os orders) -∗ Φ po e) -∗
  wp may (find_order fuel pd key) e Φ.
Proof.
  iIntros (Hom Ho Hk Hok Hf) "Hd Hos HΦ". destruct fuel as [|fuel]; [lia|]. cbn [find_order].
  wp_bind. iApply (wp_ld with "Hd"); [done|]. iIntros "Hd".
  wp_bind. iApply (wp_find_some with "Hos"); [done..|]. iIntros (po) "_ %Hu Hr Hc". rw user_addr_null //. iApply wp_ret.
  iApply ("HΦ" with "[//] Hd Hr"). iIntros "Hr". iSpecialize ("Hc" with "Hr"). by rw list_insert_id.
Qed.

(** The loop for an order that does not exist never ends. *)
Lemma wp_find_order_none pd dw om os d w orders key fuel e Φ :
  dw !! orderMap = Some om -> key_ok (w64 key) = true -> at_key orders (w64 key) = None -> may Endless ->
  pd ↦ dw -∗ table (order_row d w) om os orders -∗ wp may (find_order fuel pd key) e Φ.
Proof.
  iIntros (Hom Hk Hn Hm) "Hd Hos". iInduction fuel as [|fuel] "IH"; cbn [find_order]; [by iApply wp_stop|].
  wp_bind. iApply (wp_ld with "Hd"); [done|]. iIntros "Hd".
  wp_bind. iApply (wp_find_none with "Hos"); [done..|]. iIntros "Hos". iApply ("IH" with "Hd Hos").
Qed.

Lemma wp_level_orders mw m sm sps ss pd dw om os d w all off rest t done item n fuel e Φ :
  mw !! stockMapPtr = Some sm -> dw !! orderMap = Some om -> dw !! D_NEXT_O_ID = Some (Z.of_nat (length all) + 1) ->
  all = (off ++ rest)%list -> Z.of_nat (length all) + 1 < 2 ^ 62 ->
  Forall (fun o => (length (o_lines o) <= 24)%nat) rest -> (length rest + 25 <= fuel)%nat ->
  let its := concat ((fun o => l_i_id <$> o_lines o) <$> rest) in
  Forall (fun i => good_item ss i \/ bad_item i /\ may Wrong) its -> seen ss t done item n ->
  m ↦ mw -∗ table stock_row sm sps ss -∗ pd ↦ dw -∗ table (order_row d w) om os all -∗
  (∀ n', ⌜Forall (good_item ss) its /\ n' = count_low ss t (done ++ its)⌝ -∗
     m ↦ mw -∗ table stock_row sm sps ss -∗ pd ↦ dw -∗ table (order_row d w) om os all -∗ Φ n' e) -∗
  wp may (level_orders fuel m pd (Z.of_nat (length off) + 1) t item n) e Φ.
Proof.
  revert off done item n fuel. induction rest as [|o rest IH]; intros off done item n fuel Hsm Hom Hnext Hall Hb Hsh Hf its Hg Hseen;
    iIntros "Hm Hss Hd Hos HΦ"; destruct fuel as [|fuel]; [simpl in Hf; lia| |simpl in Hf; lia|]; cbn [level_orders];
    (wp_bind; iApply (wp_ld with "Hd"); [exact Hnext|]; iIntros "Hd").
  - rw app_nil_r in Hall. subst off. rw Z.leb_refl. iApply wp_ret. iApply ("HΦ" with "[] Hm Hss Hd Hos"). iPureIntro.
    split; [done|]. rw /its /= app_nil_r. by destruct Hseen.
  - assert (Hlk : all !! length off = Some o) by (rw Hall; by apply list_lookup_middle).
    assert (Hb2 : (length off + S (length rest) = length all)%nat) by (rw Hall length_app /=; lia).
    destruct (small_word (Z.of_nat (length off) + 1)) as [Hkw Hkk]; [lia|]. destruct (small_word (Z.of_nat (length off) + 1 + 1)) as [Hkw2 _]; [lia|].
    rw (proj2 (Z.leb_gt (Z.of_nat (length all) + 1) (Z.of_nat (length off) + 1))); [|lia].
    apply list.Forall_cons in Hsh as [Hsh1 Hsh]. rw /its fmap_cons /= in Hg. apply list.Forall_app in Hg as [Hg1 Hg].
    wp_bind. iApply (wp_find_order with "Hd Hos"); [done|done|by rw Hkw|by rw Hkw|lia|]. iIntros (po) "%Hu Hd Hr Hc".
    wp_bind. iApply wp_assert; [by rw user_addr_null|]. iDestruct "Hr" as (lm lps) "[Hpo Hl]".
    wp_bind. iApply (wp_level_lines _ m sm sps ss po _ lm lps _ _ _ _ [] (o_lines o) with "Hm Hss Hpo Hl"); try done; [simpl in Hf; lia| |].
    { apply Forall_fmap in Hg1. exact Hg1. }
    iIntros (item' n') "[%Hg1' %Hseen'] Hm Hss Hpo Hl". iSpecialize ("Hc" with "[Hpo Hl]"); [iExists _, _; iFrame|].
    rw Hkw2. replace (Z.of_nat (length off) + 1 + 1) with (Z.of_nat (length (off ++ [o])) + 1) by (rw length_app /=; lia).
    iApply (IH (off ++ [o])%list _ item' n' fuel with "Hm Hss Hd Hc"); try done.
    + by rw -app_assoc.
    + simpl in Hf. lia.
    + iIntros (n2) "[%Hg2 %Hn2] Hm Hss Hd Hos". iApply ("HΦ" with "[] Hm Hss Hd Hos"). iPureIntro.
      rw /its fmap_cons /=. split; [apply list.Forall_app; split; [by apply Forall_fmap|done]|]. by rw Hn2 app_assoc.
Qed.

Lemma wp_stocklevel m b w d t fuel e Φ :
  key_ok (w64 w) = true -> key_ok (w64 d) = true -> small_orders b -> short_orders b -> (45 <= fuel)%nat ->
  (forall W D, find_district b (w64 w) (w64 d) = Some (W, D) ->
     (length (d_orders D) <> 19%nat \/ may Endless) /\
     Forall (fun i => good_item (stocks b) i \/ bad_item i /\ may Wrong) (recent_items D)) ->
  database_at m b -∗
  (⌜forall W D, find_district b (w64 w) (w64 d) = Some (W, D) -> length (d_orders D) <> 19%nat /\ Forall (good_item (stocks b)) (recent_items D)⌝ -∗
     database_at m b -∗ Φ (spec_stocklevel (w64 w) (w64 d) t b) e) -∗
  wp may (stocklevel fuel m w d t) e Φ.
Proof.
  iIntros (Hw Hd Hsm Hsh Hfuel Hpre) "Hdb HΦ". iApply (wp_find_district with "Hdb"); [done..|]. iSplit.
  { iIntros "%Hf Hdb". rw /spec_stocklevel Hf. iApply ("HΦ" with "[] Hdb"); iPureIntro; done. }
  iIntros (W D pw pd wm dm) "%Hf (Ht & Hw & Hd & Hclose)". destruct (Hpre W D Hf) as [H19 Hits].
  pose proof (find_district_in _ _ _ _ _ Hf) as [HW HD]. pose proof (Hsm W D HW HD) as Hlen.
  iDestruct "Hd" as (cm om cs os) "(Hd & Hcs & Hos)". iDestruct "Hd" as (d2 d3 d4 d5 d6 d7 tw) "(Hd & %Htw)". wp_ld "Hd".
  iDestruct "Ht" as (hm im nm sm x5 x6 x7 x8 x9 x10 x11 its ss) "(Hm & Hits & Hss & Hno)".
  wp_bind. iAssert (∀ n', ⌜length (d_orders D) <> 19%nat /\ Forall (good_item (stocks b)) (recent_items D) /\ n' = count_low (stocks b) t (recent_items D)⌝ -∗
    m ↦ [wm; hm; im; nm; sm; x5; x6; x7; x8; x9; x10; x11] -∗ table stock_row sm ss (stocks b) -∗
    pd ↦ [w64 d; w64 w; d2; d3; d4; d5; d6; d7; tw; Z.of_nat (length (d_orders D)) + 1; cm; om] -∗
    table (order_row (w64 d) (w64 w)) om os (d_orders D) -∗ Φ (1, n') e)%I with "[HΦ Hits Hno Hw Hcs Hclose]" as "Hend".
  { iIntros (n') "(%H1 & %H2 & %Hn) Hm Hss Hd Hos". rw /spec_stocklevel Hf -Hn. iApply "HΦ".
    - iPureIntro. by intros W' D' [= <- <-].
    - iSpecialize ("Hclose" $! b W D with "[//] [Hm Hits Hss Hno] Hw [Hd Hcs Hos]"); [do 13 iExists _; iFrame|repeat iExists _; by iFrame|].
      by rw set_district_same. }
  assert (Hsh2 : Forall (fun o => (length (o_lines o) <= 24)%nat) (d_orders D)) by (apply list.Forall_forall; intros o Ho; by eapply Hsh).
  destruct (decide (20 <= length (d_orders D))%nat) as [Hge|Hlt].
  - assert (Hrec : recent_orders D = drop (length (d_orders D) - 20) (d_orders D)) by (rw /recent_orders (proj2 (Nat.leb_le _ _)) //).
    assert (w64 (Z.of_nat (length (d_orders D)) + 1 - 20) = Z.of_nat (length (take (length (d_orders D) - 20) (d_orders D))) + 1) as ->.
    { rw length_take w64_id; [lia|unfold is_word, word_size; lia]. }
    iApply (wp_level_orders _ m sm ss (stocks b) pd _ om os _ _ (d_orders D) _ (recent_orders D) t [] with "Hm Hss Hd Hos"); try done.
    + by rw Hrec take_drop.
    + rw Hrec. by apply Forall_drop.
    + rw Hrec length_drop. lia.
    + iIntros (n') "[%H1 %H2] Hm Hss Hd Hos". iApply wp_ret. iApply ("Hend" with "[] Hm Hss Hd Hos"). iPureIntro. split; [lia|done].
  - assert (Hrec : recent_items D = []) by (rw /recent_items /recent_orders (proj2 (Nat.leb_gt _ _)) //; lia).
    destruct fuel as [|fuel]; [lia|]. cbn [level_orders]. wp_ld "Hd".
    destruct (decide (length (d_orders D) = 19%nat)) as [H19'|H19'].
    + rw H19'. change (w64 (Z.of_nat 19 + 1 - 20)) with 0. change (Z.of_nat 19 + 1 <=? 0) with false.
      wp_bind. destruct H19 as [?|Hm]; [done|]. by iApply (wp_find_order_none with "Hd Hos").
    + assert (w64 (Z.of_nat (length (d_orders D)) + 1 - 20) = Z.of_nat (length (d_orders D)) + 1 - 20 + 2 ^ 64) as ->.
      { unfold w64, word_size. rw -(Z.mod_add _ 1 (2 ^ 64)); [|lia]. apply Z.mod_small. lia. }
      rw (proj2 (Z.leb_le (Z.of_nat (length (d_orders D)) + 1) _)); [|lia]. iApply wp_ret. iApply wp_ret.
      iApply ("Hend" with "[] Hm Hss Hd Hos"). iPureIntro. split; [done|]. by rw Hrec.
Qed.

End Read.
