(* ===== verification/TpccDeliver.v ===== *)
(** * The delivery transaction *)
From Stdlib Require Import String.
From stdpp Require Import sorting.
From iris.proofmode Require Import proofmode.
From S2P Require Import Prelude Words Wrappers Float Objects RBTree RBOrder SList Store StoreLogic Tables Manager Tpcc TpccRep TpccNew TpccRead.
Local Open Scope Z_scope.

Lemma key_ok_word k : key_ok k = true -> is_word k.
Proof. unfold key_ok, is_word, word_size. lia. Qed.

Lemma w64_to_long v : is_word v -> w64 (to_long v) = v.
Proof. intros Hv. rw -{2}(w64_id v) // -(Z.add_0_r (to_long v)) word_of_long. by rw Z.add_0_r. Qed.

Definition neworder_rows (cells : list (Z * Z)) (ns : list neworder) : sProp :=
  [∗ list] p; n ∈ cells.*2; ns, neworder_row p n.

Abbreviation increasing_data := (increasing compareDataPtrAddresses (fun k => 0 <= k < 2 ^ 63)).

(** The list is cut at the element itself. *)
Lemma cut_at ds (i : nat) q :
  increasing_data ds -> ds !! i = Some q ->
  passed compareDataPtrAddresses q ds = take i ds /\ left_over compareDataPtrAddresses q ds = drop i ds.
Proof.
  intros [Hs Hv]. revert i. induction Hs as [|d ds Hs IH Hd]; intros i Hi; [done|].
  apply list.Forall_cons in Hv as [Hvd Hv]. destruct i as [|i]; simpl in Hi.
  - injection Hi as ->. simpl. unfold below. destruct (Z.ltb_spec (compareDataPtrAddresses q q) 0) as [Hlt|]; [|done].
    exfalso. by apply (compare_irrefl compareDataPtrAddresses (fun k => 0 <= k < 2 ^ 63) q Hvd).
  - pose proof (proj1 (list.Forall_forall _ _) Hd) as Hd'. simpl. unfold below.
    rw (proj2 (Z.ltb_lt (compareDataPtrAddresses d q) 0)); [|by apply Hd'; eapply list_elem_of_lookup_2].
    destruct (IH Hv i Hi) as [-> ->]. done.
Qed.

Lemma delete_rows cells cells' ns (i : nat) c :
  cells !! i = Some c -> cells'.*2 = delete i cells.*2 -> neworder_rows cells ns -∗ neworder_rows cells' (delete i ns).
Proof.
  iIntros (Hc Hd) "H". unfold neworder_rows. rw Hd. iDestruct (big_sepL2_length with "H") as %Hl.
  rw !delete_take_drop. rw -{1}(take_drop i cells.*2) -{1}(take_drop i ns).
  iDestruct (big_sepL2_app_inv with "H") as "[H1 H2]"; [left; by rw !length_take Hl|]. iApply (big_sepL2_app with "H1").
  assert (Hc2 : cells.*2 !! i = Some c.2) by (by rw list_lookup_fmap Hc).
  destruct (lookup_lt_is_Some_2 ns i) as [n Hn]; [rw -Hl; by eapply lookup_lt_Some|].
  rw (drop_S cells.*2 c.2 i) // (drop_S ns n i) //. iDestruct "H2" as "[_ $]".
Qed.

Section Deliver.

Context (may : stop -> Prop) {names : known}.

(** ** An order *)

Lemma wp_deliver_lines o d w po ow lm lps off ls k total fuel e Φ :
  ow !! orderline = Some lm -> ow !! O_OL_CNT = Some (Z.of_nat (length (off ++ ls))) -> k = Z.of_nat (length off) + 1 ->
  Z.of_nat (length (off ++ ls)) < 2 ^ 61 -> (length ls < fuel)%nat ->
  po ↦ ow -∗ table (line_row o d w) lm lps (off ++ ls) -∗
  (∀ e', ⌜draws e' = draws e /\ (forall n, times e' n = times e (length ls + n)%nat)⌝ -∗
     po ↦ ow -∗ table (line_row o d w) lm lps (off ++ deliver_lines_at (times e) ls) -∗
     Φ (fold_left (fun t l => fadd t (l_amount l)) ls total) e') -∗
  wp may (deliver_lines fuel po k total) e Φ.
Proof.
  revert off k total fuel e. induction ls as [|l ls IH]; intros off k total fuel e Hlm Hcnt Hk Hb Hf; iIntros "Hp Hls HΦ";
    (destruct fuel as [|fuel]; [simpl in Hf; lia|]); cbn [deliver_lines];
    (wp_bind; iApply (wp_ld with "Hp"); [exact Hcnt|]; iIntros "Hp").
  - rw app_nil_r. rw (proj2 (Z.ltb_lt _ k)); [|lia]. iApply wp_ret. by iApply ("HΦ" with "[] Hp Hls").
  - rw length_app /= in Hb. rw (proj2 (Z.ltb_ge _ k)); [|rw length_app /=; lia].
    assert (Hlk : (off ++ l :: ls) !! length off = Some l) by (by apply list_lookup_middle).
    destruct (small_word k) as [Hkw Hkk]; [lia|].
    wp_bind. iApply (wp_ld with "Hp"); [done|]. iIntros "Hp".
    wp_bind. iApply (wp_find_some with "Hls"); [by rw Hkw|by rw Hkw|done|]. iIntros (pl) "_ %Hu Hr Hc". rw user_addr_null //.
    iDestruct "Hr" as (sup aw info) "[Hpl %Ha]".
    wp_bind. wp_bind. iApply wp_time. wp_st "Hpl". wp_ldf "Hpl". iApply wp_ret. rw Ha.
    set (l' := mk_line (l_i_id l) (times e 0%nat) (l_quantity l) (l_amount l)).
    iSpecialize ("Hc" $! l' with "[Hpl]"); [repeat iExists _; by iFrame|].
    assert (Hins : <[length off := l']> (off ++ l :: ls) = ((off ++ [l']) ++ ls)%list).
    { rw insert_app_r_alt // Nat.sub_diag /=. by rw -app_assoc. }
    rw Hins. iApply (IH (off ++ [l'])%list (k + 1) _ fuel (timed e) with "Hp Hc").
    + done.
    + rw Hcnt !length_app /=. do 2 f_equal. lia.
    + rw length_app /=. lia.
    + rw !length_app /=. lia.
    + simpl in Hf. lia.
    + iIntros (e') "[%Hd %Ht] Hp Hls". iApply ("HΦ" with "[] Hp [Hls]").
      * iPureIntro. split; [done|]. intros n. by rw Ht.
      * rw -app_assoc. done.
Qed.

Lemma wp_deliver_order po pd D dw os o d w cm cs oid carrier fuel e Φ :
  dw !! customerMap = Some cm -> key_ok (o_c_id o) = true -> Z.of_nat (length (o_lines o)) < 2 ^ 61 -> (length (o_lines o) < fuel)%nat ->
  pd ↦ dw -∗ order_row d w oid po o -∗ table (customer_row os d w) cm cs (d_customers D) -∗
  (∀ e', ⌜draws e' = draws e /\ (forall n, times e' n = times e (length (o_lines o) + n)%nat)⌝ -∗
     pd ↦ dw -∗ order_row d w oid po (o <| o_carrier := w64 carrier |> <| o_lines := deliver_lines_at (times e) (o_lines o) |>) -∗
     table (customer_row os d w) cm cs
       (match at_key (d_customers D) (o_c_id o) with
        | Some C => set_key (d_customers D) (o_c_id o) (deliver_customer (amount_of (o_lines o)) C)
        | None => d_customers D
        end) -∗ Φ tt e') -∗
  wp may (deliver_order fuel pd po carrier) e Φ.
Proof.
  iIntros (Hcm Hck Hb Hf) "Hd (%lm & %lps & Hpo & Hl) Hcs HΦ". wp_ldl "Hpo". wp_st "Hpo".
  wp_bind. iApply (wp_deliver_lines oid d w po _ lm lps [] (o_lines o) with "Hpo Hl"); [done|done|done|done|done|].
  iIntros (e') "%He Hpo Hl". wp_bind. iApply (wp_ld with "Hd"); [done|]. iIntros "Hd".
  assert (Hw : w64 (to_long (o_c_id o)) = o_c_id o) by (by apply w64_to_long, key_ok_word).
  iAssert (order_row d w oid po (o <| o_carrier := w64 carrier |> <| o_lines := deliver_lines_at (times e) (o_lines o) |>))
    with "[Hpo Hl]" as "Ho".
  { iExists lm, lps. rw /= /deliver_lines_at length_imap. iFrame. }
  destruct (at_key (d_customers D) (o_c_id o)) as [C|] eqn:HC; last first.
  { wp_bind. iApply (wp_find_none with "Hcs"); [by rw Hw|by rw Hw|]. iIntros "Hcs". iApply wp_ret. by iApply ("HΦ" with "[//] Hd Ho Hcs"). }
  destruct (at_key_spec _ _ _ HC) as (i & Hi & HC2).
  wp_bind. iApply (wp_find_some with "Hcs"); [by rw Hw|by rw Hw|done|]. iIntros (pc) "_ %Hu Hr Hc". rw user_addr_null //.
  iDestruct "Hr" as (c3 c4 last c6 c7 c8 c9 c10 c11 since c13 lw bw c18 lo) "(Hpc & Hlast & %H1 & %H2 & %H3)".
  wp_ldf "Hpc". wp_stf "Hpc". wp_ldl "Hpc". iApply (wp_st with "Hpc"); [apply Nat.ltb_lt; reflexivity|]. iIntros "Hpc". iEval (simpl) in "Hpc".
  iApply ("HΦ" with "[//] Hd Ho"). rw Hi set_key_nth. iApply "Hc". repeat iExists _. iFrame "Hlast".
  destruct H2 as [H2 H2']. rw H2 word_of_long. iFrame "Hpc". iPureIntro. split_and!; [done| |done].
  eapply halves_0; [apply fadd_f32|by split].
Qed.

(** ** The list of new orders *)


Lemma neworder_acc cells ns (i : nat) c n :
  cells !! i = Some c -> ns !! i = Some n ->
  neworder_rows cells ns -∗ neworder_row c.2 n ∗ (neworder_row c.2 n -∗ neworder_rows cells ns).
Proof.
  iIntros (Hc Hn) "H". iApply (big_sepL2_lookup_acc with "H"); [|done]. by rw list_lookup_fmap Hc.
Qed.

Lemma wp_delivery_loop s cmp h cells pre post ns preN postN m pd w d carrier fuel e Φ :
  cells = (pre ++ post)%list -> ns = (preN ++ postN)%list -> length pre = length preN ->
  list_at h s cmp cells -> Forall user_addr cells.*2 -> (length post < fuel)%nat ->
  rows h -∗ neworder_rows cells ns -∗
  ((⌜find_due w d postN = None⌝ -∗ rows h -∗ neworder_rows cells ns -∗ Φ tt e) ∧
   (∀ i c n, ⌜find_due w d postN = Some (i, n)⌝ -∗ ⌜cells !! (length pre + i)%nat = Some c⌝ -∗
      rows h -∗ neworder_rows cells ns -∗ wp may (deliver_new (fuel - i) m pd carrier c.2) e Φ)) -∗
  wp may (delivery_loop fuel (last_addr s pre) m pd w d carrier) e Φ.
Proof.
  revert pre preN fuel postN. induction post as [|[a x] post IH]; intros pre preN fuel postN Hcells Hns Hlen Hla Hua Hf;
    iIntros "Hh Hrows HΦ"; destruct fuel as [|fuel]; try (simpl in Hf; lia); cbn [delivery_loop];
    iDestruct (big_sepL2_length with "Hrows") as %Hl; rw length_fmap in Hl;
    pose proof Hla as Hla2; rw Hcells in Hla2; destruct (iter_run _ _ _ _ _ Hla2) as [Hhas Hnext];
    (wp_bind; iApply (wp_lift with "Hh"); [exact Hhas|]; iIntros "Hh"); rw truth_c_bool.
  - iApply wp_ret. iDestruct "HΦ" as "[HΦ _]". iApply ("HΦ" with "[] Hh Hrows"). iPureIntro.
    rw Hcells Hns app_nil_r length_app Hlen in Hl. destruct postN; [done|simpl in Hl; lia].
  - cbn [negb bool_decide]. destruct postN as [|n postN]; [rw Hcells Hns !length_app Hlen /= in Hl; lia|].
    assert (Hc : cells !! length pre = Some (a, x)) by (rw Hcells; by apply list_lookup_middle).
    assert (Hn : ns !! length pre = Some n) by (rw Hns Hlen; by apply list_lookup_middle).
    wp_bind. iApply (wp_lift with "Hh"); [by apply (Hnext a x post)|]. iIntros "Hh".
    assert (Hxu : user_addr x) by (apply (Forall_lookup_1 _ _ (length pre) _ Hua); by rw list_lookup_fmap Hc).
    iDestruct (neworder_acc with "Hrows") as "[Hr Hrows]"; [done|done|]. cbn [fst snd]. rw user_addr_null //.
    iAssert (∀ hit : bool, ⌜hit = due w d n⌝ -∗ neworder_row x n -∗
      wp may (if hit : bool then deliver_new (S fuel) m pd carrier x
              else delivery_loop fuel (last_addr (list_iter_reset s) (pre ++ [(a, x)])) m pd w d carrier) e Φ)%I
      with "[Hh Hrows HΦ]" as "Hgo".
    { iIntros (hit) "%Hhit Hr". iSpecialize ("Hrows" with "Hr"). destruct hit.
      - iDestruct "HΦ" as "[_ HΦ]". iApply ("HΦ" $! 0%nat (a, x) n with "[] [] Hh Hrows"); iPureIntro; [|by rw Nat.add_0_r].
        cbn. by rw decide_True.
      - iApply (IH (pre ++ [(a, x)])%list (preN ++ [n])%list fuel postN with "Hh Hrows"); try done.
        + by rw -app_assoc.
        + by rw -app_assoc.
        + by rw !length_app Hlen.
        + simpl in Hf. lia.
        + assert (Hcons : forall r, find_due w d postN = r ->
            find_due w d (n :: postN) = (prod_map S id) <$> r).
          { intros r <-. cbn. rw decide_False //. by rw -Hhit. }
          iSplit.
          * iDestruct "HΦ" as "[HΦ _]". iIntros "%Hnone". iApply "HΦ". iPureIntro. by rw (Hcons _ Hnone).
          * iDestruct "HΦ" as "[_ HΦ]". iIntros (i c n') "%Hs %Hci Hh Hrows".
            iApply ("HΦ" $! (S i) c n' with "[] [] Hh Hrows"); iPureIntro; [by rw (Hcons _ Hs)|].
            rw length_app /= in Hci. by rw -Hci; f_equal; lia. }
    wp_bind. wp_ldl "Hr". unfold due. destruct (to_long (no_d_id n) =? d); cbn [negb andb].
    + wp_ldl "Hr". iApply wp_ret. by iApply ("Hgo" $! (to_long (no_w_id n) =? w) with "[] Hr").
    + iApply wp_ret. by iApply ("Hgo" $! false with "[] Hr").
Qed.

Lemma wp_remove_new fuel h s cmp cells ns (i : nat) c e Φ :
  list_at h s cmp cells -> increasing_data cells.*2 -> Forall user_addr cells.*2 -> cells !! i = Some c ->
  (length cells < fuel)%nat -> Z.of_nat (length cells) < 2 ^ 63 ->
  rows h -∗ neworder_rows cells ns -∗ (∀ v, neworder_list s (delete i ns) -∗ Φ v e) -∗
  wp may (lift (TMlist_remove compareDataPtrAddresses fuel s c.2)) e Φ.
Proof.
  iIntros (Hla Hinc Hu Hc Hf Hsz) "Hh Hrows HΦ".
  destruct (remove_run compareDataPtrAddresses fuel h s cmp cells c.2 Hla Hf Hsz) as (h' & cells' & Hr & Hla' & Hd & _).
  assert (Hci : cells.*2 !! i = Some c.2) by (by rw list_lookup_fmap Hc).
  destruct (cut_at _ _ _ Hinc Hci) as [Hp Hl].
  assert (Hv : 0 <= c.2 < 2 ^ 63).
  { pose proof (Forall_lookup_1 _ _ _ _ Hu Hci) as [Hv _]. lia. }
  pose proof (spec_list_set compareDataPtrAddresses (fun k => 0 <= k < 2 ^ 63) (LRemove c.2) cells.*2 Hinc Hv) as [Hinc' _].
  assert (Hdel : cells'.*2 = delete i cells.*2).
  { rw Hd. cbn [spec_list].
    rw (proj2 (hit_iff compareDataPtrAddresses (fun k => 0 <= k < 2 ^ 63) c.2 cells.*2 Hinc Hv)); [|by eapply list_elem_of_lookup_2].
    cbn [snd]. rw Hp Hl (drop_S _ c.2) // delete_take_drop. done. }
  iApply (wp_lift with "Hh"); [exact Hr|]. iIntros "Hh". iApply "HΦ". iExists h', cmp, cells'. iFrame "Hh". iSplit; [done|].
  iSplit; [|by iApply (delete_rows with "Hrows")]. iPureIntro. rw -Hd in Hinc'. split; [|done]. rw Hdel. by apply Forall_delete.
Qed.

(** ** The transaction for a district *)

(** A row [n] of the list that is due names a district, and an order of it, if there
    is one, with a key for the customer and at most 24 lines. *)
Definition deliverable_row (w d : Z) (b : database) (n : neworder) : Prop :=
  forall W, at_key (warehouses b) w = Some W ->
  exists D, at_key (w_districts W) d = Some D /\ key_ok (no_o_id n) = true /\
    forall o, at_key (d_orders D) (no_o_id n) = Some o -> key_ok (o_c_id o) = true /\ (length (o_lines o) <= 24)%nat.

Definition deliverable (w d : Z) (b : database) : Prop :=
  forall n, n ∈ neworders b -> due w d n = true -> deliverable_row w d b n.

Definition later_times (e e' : env) (k : nat) : Prop := draws e' = draws e /\ times e' = fun n => times e (k + n)%nat.

Lemma wp_delivery_district m b w d carrier fuel e Φ :
  key_ok w = true -> key_ok d = true -> 0 <= w < 2 ^ 62 -> 0 <= d < 2 ^ 62 -> deliverable w d b ->
  (2 * length (neworders b) + 25 < fuel)%nat -> Z.of_nat (length (neworders b)) < 2 ^ 61 ->
  database_at m b -∗
  ((⌜at_key (warehouses b) w = None⌝ -∗ database_at m b -∗ Φ false e) ∧
   (∀ e' b' k, ⌜is_Some (at_key (warehouses b) w)⌝ -∗ ⌜spec_delivery (times e) w d carrier b = (b', k)⌝ -∗ ⌜later_times e e' k⌝ -∗
      database_at m b' -∗ Φ true e')) -∗
  wp may (delivery_district fuel m w d carrier) e Φ.
Proof.
  iIntros (Hkw Hkd Hw Hd Hdel Hf Hsz) "Hdb HΦ". destruct (small_word w) as [Hww _]; [done|]. destruct (small_word d) as [Hdw _]; [done|].
  iApply (wp_find_rows with "Hdb"); [by rw Hww|by rw Hdw|]. rw Hww Hdw. iSplit; [|iSplit].
  - iDestruct "HΦ" as "[HΦ _]". iIntros "%HW Hdb". by iApply ("HΦ" with "[] Hdb").
  - iDestruct "HΦ" as "[_ HΦ]". iIntros (W pw) "[%HW %HD] Hdb".
    assert (Hnone : find_due w d (neworders b) = None).
    { destruct (find_due w d (neworders b)) as [[i n]|] eqn:Hfd; [|done]. apply list_find_Some in Hfd as (Hin & Hdue & _).
      destruct (Hdel n (list_elem_of_lookup_2 _ _ _ Hin) Hdue W HW) as (D' & Hf' & _). by rw HD in Hf'. }
    iDestruct "Hdb" as (wm ws) "[Ht Hws]". iDestruct "Ht" as (hm im nm sm x5 x6 x7 x8 x9 x10 x11 its ss) "(Hm & Hits & Hss & Hno)".
    wp_ld "Hm". iDestruct "Hno" as (h cmp cells) "(Hh & %Hla & [%Hu %Hinc] & Hrows)".
    iDestruct (big_sepL2_length with "Hrows") as %Hl. rw length_fmap in Hl.
    wp_bind. iApply (wp_delivery_loop nm cmp h cells [] cells (neworders b) [] (neworders b) with "Hh Hrows"); [done..|lia|].
    iSplit; [|iIntros (i c n) "%Hs"; by rw Hnone in Hs].
    iIntros "_ Hh Hrows". iApply wp_ret. iApply ("HΦ" $! e b 0%nat); [iPureIntro; by eexists|by rw /spec_delivery Hnone|done|].
    iExists _, _. iFrame "Hws". do 13 iExists _. iFrame. by iExists cmp.
  - iDestruct "HΦ" as "[_ HΦ]". iIntros (W D pw pd wm dm) "(%HW & %HD & %Hpu) (Ht & Hwh & Hdr & Hclose)".
    assert (Hfd : find_district b w d = Some (W, D)) by (by rw /find_district HW HD).
    iDestruct "Ht" as (hm im nm sm x5 x6 x7 x8 x9 x10 x11 its ss) "(Hm & Hits & Hss & Hno)".
    wp_ld "Hm". iDestruct "Hno" as (h cmp cells) "(Hh & %Hla & [%Hu %Hinc] & Hrows)".
    iDestruct (big_sepL2_length with "Hrows") as %Hl. rw length_fmap in Hl.
    wp_bind. iApply (wp_delivery_loop nm cmp h cells [] cells (neworders b) [] (neworders b) with "Hh Hrows"); [done..|lia|]. iSplit.
    + iIntros "%Hnone Hh Hrows". iApply wp_ret. iApply ("HΦ" $! e b 0%nat); [iPureIntro; by eexists|by rw /spec_delivery Hnone|done|].
      iSpecialize ("Hclose" $! b W D with "[//] [Hm Hits Hss Hh Hrows] Hwh Hdr"); [do 13 iExists _; iFrame; by iExists cmp|]. by rw set_district_same.
    + iIntros (i c n) "%Hs %Hc Hh Hrows". pose proof (proj1 (list_find_Some _ _ _ _) Hs) as (Hni & Hdue & _).
      destruct (Hdel n (list_elem_of_lookup_2 _ _ _ Hni) Hdue W HW) as (D' & HD' & Hko & Hok).
      rw HD in HD'. injection HD' as <-.
      iDestruct "Hdr" as (cm om cs os) "(Hd & Hcs & Hos)". iDestruct "Hd" as (d2 d3 d4 d5 d6 d7 tw) "(Hd & %Htw)". wp_ld "Hd".
      iDestruct (neworder_acc with "Hrows") as "[Hr Hrows]"; [done|done|]. wp_ldl "Hr". iSpecialize ("Hrows" with "Hr").
      assert (Hkword : w64 (to_long (no_o_id n)) = no_o_id n) by (by apply w64_to_long, key_ok_word).
      assert (Hilt : (i < length (neworders b))%nat) by (by eapply lookup_lt_Some).
      iAssert (∀ e1 D' k, ⌜later_times e e1 k /\ spec_delivery (times e) w d carrier b = (set_district b w d W D' <| neworders := delete i (neworders b) |>, k)⌝ -∗
        district_row w d pd D' -∗
        wp may (let$ l := ld m neworderMapPtr in
                do$ lift (TMlist_remove compareDataPtrAddresses (fuel - i) l c.2); CRet tt) e1 (fun _ e' => wp may (CRet true) e' Φ))%I
        with "[HΦ Hits Hss Hwh Hclose Hm Hh Hrows]" as "Hend".
      { iIntros (e1 D' k) "[%Hlt %Hspec] Hd". wp_ld "Hm".
        wp_bind. iApply (wp_remove_new with "Hh Hrows"); [done|done|done|exact Hc|lia|lia|]. iIntros (v) "Hno".
        iApply wp_ret. iApply wp_ret. iApply ("HΦ" $! e1 _ k); [iPureIntro; by eexists|by rw Hspec|done|].
        iApply ("Hclose" $! (b <| neworders := delete i (neworders b) |>) W D' with "[] [Hm Hits Hss Hno] Hwh Hd"); [iPureIntro; by split|].
        do 13 iExists _. rw /=. iFrame. }
      destruct (at_key (d_orders D) (no_o_id n)) as [o|] eqn:Ho; last first.
      { wp_bind. iApply (wp_find_none with "Hos"); [by rw Hkword|by rw Hkword|]. iIntros "Hos". wp_bind. iApply wp_ret.
        iApply ("Hend" $! e D 0%nat); [|repeat iExists _; by iFrame]. iPureIntro. split; [done|].
        by rw /spec_delivery Hs Hfd Ho set_district_same. }
      destruct (Hok o eq_refl) as [Hck Hlen]. destruct (at_key_spec _ _ _ Ho) as (io & Hio & Ho2).
      wp_bind. iApply (wp_find_some with "Hos"); [by rw Hkword|by rw Hkword|done|]. iIntros (po) "_ %Hou Hor Hoc". rw user_addr_null //.
      wp_bind. iApply (wp_deliver_order po pd D _ os o d w cm cs _ carrier with "Hd Hor Hcs"); [done|done|lia|lia|].
      iIntros (e1) "[%Hdr %Htm] Hd Hor Hcs". iSpecialize ("Hoc" with "Hor").
      iApply ("Hend" $! e1 (deliver (times e) carrier (no_o_id n) o D) (length (o_lines o))).
      { iPureIntro. split; [split; [done|by apply FunctionalExtensionality.functional_extensionality]|]. by rw /spec_delivery Hs Hfd Ho. }
      rw /deliver Hio /=. destruct (at_key (d_customers D) (o_c_id o)) as [C|]; rw /= ?set_key_nth;
        (iExists cm, om, cs, os; rw /= ?length_insert; iFrame; repeat iExists _; by iFrame).
Qed.

End Deliver.

(** ** All districts *)

Lemma at_key_set {A} (l : list A) k q (r r' : A) :
  at_key l k = Some r -> at_key (set_key l k r') q = if decide (q = k) then Some r' else at_key l q.
Proof.
  intros Hr. destruct (at_key_spec _ _ _ Hr) as (i & -> & Hi). rw set_key_nth /at_key.
  destruct (Z.leb_spec 1 q) as [Hq|Hq]; [|rw decide_False //; lia].
  destruct (decide (q = Z.of_nat i + 1)) as [->|Hne].
  - replace (Z.to_nat (Z.of_nat i + 1 - 1)) with i by lia. apply list_lookup_insert_eq. by eapply lookup_lt_Some.
  - apply list_lookup_insert_ne. lia.
Qed.

(** Delivering a district leaves the others' new orders deliverable. *)
Lemma deliverable_step ts w d0 d carrier b b' k :
  d <> d0 -> deliverable w d b -> spec_delivery ts w d0 carrier b = (b', k) ->
  deliverable w d b' /\ (length (neworders b') <= length (neworders b))%nat /\
  (is_Some (at_key (warehouses b') w) <-> is_Some (at_key (warehouses b) w)).
Proof.
  intros Hne Hdel. unfold spec_delivery. destruct (find_due w d0 (neworders b)) as [[i n]|] eqn:Hfd; [|by intros [= <- <-]].
  assert (Hns : forall b1, deliverable w d b1 -> neworders b1 = neworders b -> deliverable w d (b1 <| neworders := delete i (neworders b) |>)).
  { intros b1 Hb1 Hn n' Hn'. apply Hb1. rw Hn. cbn in Hn'. apply list_elem_of_lookup in Hn' as [j Hj].
    apply list_elem_of_lookup. rw list_lookup_delete in Hj. case_decide; by eexists. }
  assert (Hlen : (length (delete i (neworders b)) <= length (neworders b))%nat) by apply sublist_length, sublist_delete.
  destruct (find_district b w d0) as [[W D]|] eqn:HD; [|intros [= <- <-]; by split; [apply Hns|]].
  destruct (at_key (d_orders D) (no_o_id n)) as [o|] eqn:Ho; [|intros [= <- <-]; by split; [apply Hns|]].
  intros [= <- <-]. unfold find_district in HD. destruct (at_key (warehouses b) w) as [W0|] eqn:HW; [|done].
  destruct (at_key (w_districts W0) d0) as [D0|] eqn:HD0; [|done]. injection HD as -> ->.
  split; [|split; [done|]].
  - apply Hns; [|done]. intros n' Hn' Hdue W' HW'. cbn in HW'.
    rw (at_key_set _ _ _ _ _ HW) decide_True // in HW'. injection HW' as <-.
    destruct (Hdel n' Hn' Hdue W HW) as (D' & HD' & Hrest). exists D'. split; [|done].
    cbn. by rw (at_key_set _ _ _ _ _ HD0) decide_False.
  - cbn. rw (at_key_set _ _ _ _ _ HW) decide_True //.
Qed.

(** The districts from [d] on *)
Lemma wp_deliveries `{known} may n m b w d carrier fuel e Φ :
  key_ok w = true -> 0 <= w < 2 ^ 62 -> 0 <= d -> d + Z.of_nat n <= 2 ^ 61 ->
  (forall d', d <= d' < d + Z.of_nat n -> deliverable w d' b) ->
  (2 * length (neworders b) + 25 < fuel)%nat -> Z.of_nat (length (neworders b)) < 2 ^ 61 ->
  database_at m b -∗
  (∀ v b' e', ⌜spec_deliveries n (times e) w d carrier b = (v, b')⌝ -∗ database_at m b' -∗ Φ v e') -∗
  wp may (delivery_districts n fuel m w d carrier) e Φ.
Proof.
  revert b d e Φ. induction n as [|n IH]; intros b d e Φ; iIntros (Hkw Hw Hd Hdn Hdel Hf Hsz) "Hdb HΦ"; cbn [delivery_districts].
  { iApply wp_ret. iApply ("HΦ" with "[//] Hdb"). }
  wp_bind. iApply (wp_delivery_district with "Hdb"); [done|unfold key_ok; lia|done|lia|apply Hdel; lia|done|done|]. iSplit.
  - iIntros "%HW Hdb". iApply wp_ret. iApply ("HΦ" with "[] Hdb"). iPureIntro. by rw /= HW.
  - iIntros (e1 b1 k [W HW] Hspec [_ Ht]) "Hdb".
    assert (Hstep : forall d', d + 1 <= d' < d + 1 + Z.of_nat n -> deliverable w d' b1).
    { intros d' Hd'. apply (deliverable_step _ w d d' _ _ _ _ ltac:(lia) (Hdel d' ltac:(lia)) Hspec). }
    assert (Hle : (length (neworders b1) <= length (neworders b))%nat).
    { unfold spec_delivery in Hspec. destruct (find_due w d (neworders b)) as [[i r]|]; [|by injection Hspec as <- _].
      destruct (match find_district b w d with Some (W0, D) => _ | None => _ end) as [b2 k2].
      injection Hspec as <- _. apply sublist_length, sublist_delete. }
    iApply (IH b1 (d + 1) e1 Φ with "Hdb"); [done|done|lia|lia|done|lia|lia|].
    iIntros (v b' e') "%Hv Hdb". iApply ("HΦ" with "[] Hdb"). iPureIntro. cbn [spec_deliveries]. rw HW Hspec -Hv Ht. done.
Qed.
