(* ===== verification/TpccCorrect.v ===== *)
(** * The transactions of the server do what they should

    On any store that holds a database, with whatever else beside it, a transaction
    returns what Tpcc.v says and leaves a store that holds the database it says.  It
    stops early only as stated: without memory, for a restart, or in the two cases
    where stock-level has no result. *)
From Stdlib Require Import String.
From iris.base_logic Require Import base_logic.
From iris.proofmode Require Import proofmode.
From S2P Require Import Prelude Words Wrappers Float Objects RBTree SList Store StoreLogic Tables Manager Tpcc TpccRep TpccNew TpccPay TpccRead TpccDeliver.
Local Open Scope Z_scope.

(** The run ends as [may] allows, or as [Q] says. *)
Definition run_ends {A} (may : stop -> Prop) (Q : A -> db -> Prop) (o : outcome A) : Prop :=
  match o with Done a x => Q a x | Stop s => may s end.

(** The result [v] with the database [b] in the store *)
Definition leaves `{known} {A} (m : Z) (v : A) (b : database) (a : A) (x : db) : Prop := a = v /\ holds (database_at m b) x.

Lemma wp_sound {A} may (p : code A) (P : sProp) (Φ : A -> env -> sProp) x :
  holds P x -> (P ⊢ wp may p (ev x) Φ) -> run_ends may (fun a x' => holds (Φ a (ev x')) x') (run p x).
Proof. intros HP Hw. apply wp_run. by eapply holds_entails. Qed.

Lemma run_ends_mono {A} may (Q Q' : A -> db -> Prop) o :
  (forall a x, Q a x -> Q' a x) -> run_ends may Q o -> run_ends may Q' o.
Proof. intros Hq. destruct o; simpl; auto. Qed.

Lemma holds_pure_sep φ P x : holds (⌜φ⌝ ∗ P) x -> φ /\ holds P x.
Proof.
  unfold holds. intros Hh. split.
  - assert (Hp : holds (⌜φ⌝) x) by (eapply holds_entails; [|exact Hh]; iIntros "[$ _]").
    revert Hp. unfold holds. by uPred.unseal.
  - eapply holds_entails; [|exact Hh]. iIntros "[_ $]".
Qed.

Lemma holds_exist {B} (P : B -> sProp) x : holds (∃ b, P b) x -> exists b, holds (P b) x.
Proof. unfold holds. uPred.unseal. done. Qed.


(** C5. New order, on every branch: without the warehouse, the district or the
    customer it returns -1 and changes nothing; otherwise the district gets its next
    order, with the lines that the random numbers say and their amounts, the
    customer's last order is this one, the stock of every item is taken from line by
    line (plus 91 when 10 or fewer are left, with the counts of the item), and it
    returns 1.  It never restarts and does nothing undefined. *)
Theorem neworder_correct `{known} m b w d c x :
  holds (database_at m b) x -> key_ok (w64 w) = true -> key_ok (w64 d) = true -> key_ok (w64 c) = true ->
  stocked (draws (ev x)) b -> small_orders b ->
  let r := spec_neworder (draws (ev x)) (times (ev x) 0%nat) (w64 w) (w64 d) (w64 c) b in
  run_ends (fun s => s = NoMemory) (leaves m r.1 r.2) (run (manager_newordertransaction m w d c) x).
Proof.
  intros Hh Hw Hd Hc Hst Hsm r.
  eapply run_ends_mono; [|eapply (wp_sound _ _ _ (fun v _ => ⌜v = r.1⌝ ∗ database_at m r.2)%I); [exact Hh|]].
  - intros v x' Hv. by apply holds_pure_sep in Hv.
  - iIntros "Hdb". iApply (wp_neworder with "Hdb"); [done..|]. iIntros (v b' e') "%Hs Hdb". unfold r. rw Hs. by iFrame.
Qed.

(** C6. Payment, on every branch: -1 and no change without the warehouse or the
    district; a restart exactly when there is no such customer; otherwise the amount
    is added to what warehouse and district have for the year and to the customer's
    payments, and taken from the balance, in binary32 arithmetic.  With C_ID = -1 the
    customer is the first with the name drawn. *)
Theorem payment_correct `{known} m b w d c amount x :
  holds (database_at m b) x -> key_ok (w64 w) = true -> key_ok (w64 d) = true -> key_ok (w64 c) = true ->
  known_strings ⊆ strs (ev x) -> named (draws (ev x) 0%nat) (w64 w) (w64 d) c b ->
  let r := spec_payment (draws (ev x) 0%nat) (w64 w) (w64 d) c amount b in
  run_ends (fun s => s = NoMemory \/ s = Restarted /\ r = None)
    (fun v x' => exists b', r = Some (v, b') /\ holds (database_at m b') x')
    (run (manager_paymenttransaction m w d c amount) x).
Proof.
  intros Hh Hw Hd Hc Hks Hn r.
  eapply run_ends_mono; [|eapply (wp_sound _ _ _ (fun v _ => ∃ b', ⌜r = Some (v, b')⌝ ∗ database_at m b')%I); [exact Hh|]].
  - intros v x' [b' Hv]%holds_exist. exists b'. by apply holds_pure_sep in Hv.
  - iIntros "Hdb". iApply (wp_payment with "Hdb"); [by left|done..|by right|]. iIntros (v b' e') "%Hs Hdb". iExists b'. by iFrame.
Qed.

(** C23. Order status: -1 without the warehouse, the district or the customer;
    otherwise 1, and the array holds the number of lines of the customer's last order
    and for each line its item and whether it is to be delivered.  No entry outside
    the array of 50 is written, the transaction never restarts, needs no memory and
    changes nothing. *)
Theorem orderstatus_correct `{known} m b w d c result0 x :
  holds (database_at m b) x -> key_ok (w64 w) = true -> key_ok (w64 d) = true -> key_ok (w64 c) = true ->
  length result0 = 50%nat -> short_orders b ->
  let r := spec_orderstatus (w64 w) (w64 d) (w64 c) b in
  run_ends (fun _ => False)
    (fun a x' => a.1 = r.1 /\ take (length r.2) a.2 = r.2 /\ holds (database_at m b) x')
    (run (orderstatus result0 m w d c) x).
Proof.
  intros Hh Hw Hd Hc Hl Hs r.
  eapply run_ends_mono; [|eapply (wp_sound _ _ _ (fun a _ => ⌜a.1 = r.1 /\ take (length r.2) a.2 = r.2⌝ ∗ database_at m b)%I); [exact Hh|]].
  - intros v x' Hv. by apply holds_pure_sep in Hv as [[H1 H2] H3].
  - iIntros "Hdb". iApply (wp_orderstatus with "Hdb"); [done..|]. iIntros (v st result) "%Hspec %Ht Hdb". unfold r. rw Hspec. by iFrame.
Qed.

(** C22. Stock level: -1 without the warehouse or the district; otherwise 1, after it
    has counted the distinct items of the lines of the last 20 orders with a stock
    below the threshold.  It loops forever exactly when the district has 19 orders (it
    then looks for the order 0), and does something undefined only when a line of
    these orders has an item that is not below 100000, which it takes as an index;
    when neither is the case 45 turns of any loop are enough. *)
Theorem stocklevel_correct `{known} m b w d t fuel x :
  holds (database_at m b) x -> key_ok (w64 w) = true -> key_ok (w64 d) = true ->
  small_orders b -> short_orders b -> (45 <= fuel)%nat ->
  (forall W D, find_district b (w64 w) (w64 d) = Some (W, D) ->
     Forall (fun i => good_item (stocks b) i \/ bad_item i) (recent_items D)) ->
  let nineteen := exists W D, find_district b (w64 w) (w64 d) = Some (W, D) /\ length (d_orders D) = 19%nat in
  let outside := exists W D, find_district b (w64 w) (w64 d) = Some (W, D) /\ Exists bad_item (recent_items D) in
  run_ends (fun s => s = Endless /\ nineteen \/ s = Wrong /\ outside)
    (fun a x' => a = spec_stocklevel (w64 w) (w64 d) t b /\ holds (database_at m b) x' /\ ~ nineteen /\ ~ outside)
    (run (stocklevel fuel m w d t) x).
Proof.
  intros Hh Hw Hd Hsm Hsh Hf Hits nineteen outside.
  eapply run_ends_mono; [|eapply (wp_sound _ _ _ (fun a _ => ⌜a = spec_stocklevel (w64 w) (w64 d) t b /\ ~ nineteen /\ ~ outside⌝ ∗ database_at m b)%I); [exact Hh|]].
  - intros v x' Hv. by apply holds_pure_sep in Hv as [(H1 & H2 & H3) H4].
  - iIntros "Hdb". iApply (wp_stocklevel with "Hdb"); [done..| |].
    + intros W D HD. specialize (Hits W D HD). split.
      * destruct (decide (length (d_orders D) = 19%nat)); [right; left; split; [done|by exists W, D]|by left].
      * pose proof (proj1 (list.Forall_forall _ _) Hits) as Hits'. apply list.Forall_forall. intros i Hi. destruct (Hits' i Hi) as [|Hb]; [by left|].
        right. split; [done|]. right. split; [done|]. exists W, D. split; [done|]. apply list.Exists_exists. by exists i.
    + iIntros "%Hgood Hdb". iFrame. iPureIntro. split; [done|]. split.
      * intros (W & D & HD & H19). by destruct (Hgood W D HD) as [? _].
      * intros (W & D & HD & (i & Hi & Hb)%list.Exists_exists). destruct (Hgood W D HD) as [_ Hg].
        destruct (proj1 (list.Forall_forall _ _) Hg i Hi) as [[? ?] _]. unfold bad_item in Hb. lia.
Qed.

(** C7. Delivery: -1 without the warehouse; otherwise, for each of the districts 1 to
    10 in turn, the first row of the list of new orders that is for it is taken off
    the list, its order gets the carrier and the time for every line, and its customer
    gets the sum of the amounts and one delivery more; the result is 1.  It never
    restarts, needs no memory and does nothing undefined. *)
Theorem delivery_correct `{known} m b w carrier fuel x :
  holds (database_at m b) x -> key_ok w = true -> 0 <= w < 2 ^ 62 ->
  (forall d, 1 <= d <= 10 -> deliverable w d b) ->
  (2 * length (neworders b) + 25 < fuel)%nat -> Z.of_nat (length (neworders b)) < 2 ^ 61 ->
  let r := spec_deliveries 10 (times (ev x)) w 1 carrier b in
  run_ends (fun _ => False) (leaves m r.1 r.2) (run (manager_deliverytransaction fuel m w carrier) x).
Proof.
  intros Hh Hk Hw Hdel Hf Hsz r.
  eapply run_ends_mono; [|eapply (wp_sound _ _ _ (fun v _ => ⌜v = r.1⌝ ∗ database_at m r.2)%I); [exact Hh|]].
  - intros v x' Hv. by apply holds_pure_sep in Hv.
  - iIntros "Hdb". iApply (wp_deliveries with "Hdb"); [done|done|lia|lia|intros; apply Hdel; lia|done|done|].
    iIntros (v b' e') "%Hs Hdb". unfold r. rw Hs. by iFrame.
Qed.
