(* ===== verification/TpccReq.v ===== *)
(** * Requests

    A [request] is a transaction of manager.c with its parameters and with what its
    environment will answer: the blocks that malloc returns, the random numbers and the
    times.  [sound] is the invariant of the database under which no request does
    anything undefined or loops for ever. *)
From Stdlib Require Import String.
From iris.proofmode Require Import proofmode.
From S2P Require Import Prelude Words Wrappers Float Objects RBTree SList Store StoreLogic StoreTx Tables Manager Tpcc TpccRep TpccNew TpccPay TpccRead TpccDeliver TpccCorrect.
Local Open Scope Z_scope.

(** ** Requests *)

(** The transactions, each between TM_BEGIN and TM_END.  [Delivery] is one turn of
    the loop over the districts; [result0] is what the local array of order status
    holds at first. *)
Inductive transaction :=
| NewOrder (w d c : Z)
| Payment (w d c amount : Z)
| OrderStatus (w d c : Z) (result0 : list Z)
| StockLevel (w d treshold : Z)
| Delivery (w d carrier : Z).

Record request := mk_request {
  rq_tx : transaction;
  rq_places : list (Z * list Z);
  rq_draws : nat -> Z;
  rq_times : nat -> Z }.

Definition code_of (fuel : nat) (m : Z) (t : transaction) : code Z :=
  match t with
  | NewOrder w d c => manager_newordertransaction m w d c
  | Payment w d c amount => manager_paymenttransaction m w d c amount
  | OrderStatus w d c result0 => manager_orderstatustransaction result0 m w d c
  | StockLevel w d treshold => manager_stockleveltransaction fuel m w d treshold
  | Delivery w d carrier => let$ go := delivery_district fuel m w d carrier in CRet (if go : bool then 1 else -1)
  end.

Definition env_of `{known} (a : request) : env := mk_env (rq_places a) (rq_draws a) (rq_times a) known_strings.

(** What the request does to the database; [None]: it restarts. *)
Definition spec_request (a : request) (b : database) : option (Z * database) :=
  match rq_tx a with
  | NewOrder w d c => Some (spec_neworder (rq_draws a) (rq_times a O) (w64 w) (w64 d) (w64 c) b)
  | Payment w d c amount => spec_payment (rq_draws a O) (w64 w) (w64 d) c amount b
  | OrderStatus w d c _ => Some ((spec_orderstatus (w64 w) (w64 d) (w64 c) b).1, b)
  | StockLevel w d treshold => Some ((spec_stocklevel (w64 w) (w64 d) treshold b).1, b)
  | Delivery w d carrier =>
      match at_key (warehouses b) w with
      | None => Some (-1, b)
      | Some _ => Some (1, (spec_delivery (rq_times a) w d carrier b).1)
      end
  end.

(** ** The invariant *)

Definition order_ok (ss : list stock) (o : order) : Prop :=
  (length (o_lines o) <= 24)%nat /\ key_ok (o_c_id o) = true /\ Forall (fun l => good_item ss (l_i_id l)) (o_lines o).

(** [n] requests are still to come. *)
Record sound (fuel n : nat) (b : database) : Prop := {
  sd_small w d W D : find_district b w d = Some (W, D) -> Z.of_nat (length (d_orders D) + n) + 1 < 2 ^ 62;
  sd_orders w d W D : find_district b w d = Some (W, D) -> Forall (order_ok (stocks b)) (d_orders D);
  sd_new r w d : r ∈ neworders b -> due w d r = true -> is_Some (at_key (warehouses b) w) ->
    is_Some (find_district b w d) /\ key_ok (no_o_id r) = true;
  sd_fuel : (2 * length (neworders b) + 25 < fuel)%nat /\ (45 <= fuel)%nat /\ Z.of_nat (length (neworders b)) < 2 ^ 61 }.

(** What a request needs: keys that can be compared, item numbers that exist and are
    below 100000, an array of 50, names that are found, 20 orders for stock level. *)
Definition request_ok (b : database) (a : request) : Prop :=
  match rq_tx a with
  | NewOrder w d c =>
      key_ok (w64 w) = true /\ key_ok (w64 d) = true /\ key_ok (w64 c) = true /\
      forall i, (i < Z.to_nat (line_count (rq_draws a)))%nat ->
        line_item (rq_draws a) i < 100000 /\ line_item (rq_draws a) i <= Z.of_nat (length (items b)) /\
        line_item (rq_draws a) i <= Z.of_nat (length (stocks b))
  | Payment w d c _ =>
      key_ok (w64 w) = true /\ key_ok (w64 d) = true /\ key_ok (w64 c) = true /\
      named (rq_draws a O) (w64 w) (w64 d) c b
  | OrderStatus w d c result0 =>
      key_ok (w64 w) = true /\ key_ok (w64 d) = true /\ key_ok (w64 c) = true /\ length result0 = 50%nat
  | StockLevel w d _ =>
      key_ok (w64 w) = true /\ key_ok (w64 d) = true /\
      forall W D, find_district b (w64 w) (w64 d) = Some (W, D) -> (20 <= length (d_orders D))%nat
  | Delivery w d _ => key_ok w = true /\ 0 <= w < 2 ^ 62 /\ 0 <= d < 2 ^ 62
  end.

(** ** A request on the store *)

Lemma at_key_some {A} (l : list A) k : is_Some (at_key l k) <-> 1 <= k <= Z.of_nat (length l).
Proof.
  unfold at_key. destruct (Z.leb_spec 1 k).
  - rw lookup_lt_is_Some. lia.
  - split; [by intros [? ?]|lia].
Qed.

Lemma district_found b W D :
  W ∈ warehouses b -> D ∈ w_districts W -> exists w d, find_district b w d = Some (W, D).
Proof.
  intros [i Hi]%list_elem_of_lookup [j Hj]%list_elem_of_lookup. exists (Z.of_nat i + 1), (Z.of_nat j + 1).
  by rw /find_district at_key_nth Hi at_key_nth Hj.
Qed.

Lemma sound_small fuel n b : sound fuel n b -> small_orders b.
Proof.
  intros Hs W D HW HD. destruct (district_found b W D HW HD) as (w & d & Hf). pose proof (sd_small _ _ _ Hs _ _ _ _ Hf). lia.
Qed.

Lemma sound_order fuel n b W D o :
  sound fuel n b -> W ∈ warehouses b -> D ∈ w_districts W -> o ∈ d_orders D -> order_ok (stocks b) o.
Proof.
  intros Hs HW HD. destruct (district_found b W D HW HD) as (w & d & Hf).
  apply (proj1 (list.Forall_forall _ _) (sd_orders _ _ _ Hs _ _ _ _ Hf)).
Qed.

Lemma sound_short fuel n b : sound fuel n b -> short_orders b.
Proof. intros Hs W D o HW HD Ho. by destruct (sound_order _ _ _ _ _ _ Hs HW HD Ho) as [? _]. Qed.

Lemma sound_items fuel n b w d W D :
  sound fuel n b -> find_district b w d = Some (W, D) -> Forall (good_item (stocks b)) (recent_items D).
Proof.
  intros Hs Hf. pose proof (proj1 (list.Forall_forall _ _) (sd_orders _ _ _ Hs _ _ _ _ Hf)) as Ho. apply list.Forall_forall. intros i Hi.
  unfold recent_items in Hi. apply list_elem_of_In, in_concat in Hi as (l & Hl & Hi). apply list_elem_of_In in Hl, Hi. apply list_elem_of_fmap in Hl as (o & -> & Hin).
  apply list_elem_of_fmap in Hi as (ol & -> & Hi).
  assert (Hoo : o ∈ d_orders D).
  { unfold recent_orders in Hin. destruct (20 <=? length (d_orders D))%nat; [|by apply elem_of_nil in Hin].
    eapply subseteq_drop, Hin. }
  destruct (Ho o Hoo) as (_ & _ & Hg). by apply (proj1 (list.Forall_forall _ _) Hg).
Qed.

Lemma sound_deliverable fuel n b w d : sound fuel n b -> deliverable w d b.
Proof.
  intros Hs r Hr Hdue W HW. destruct (sd_new _ _ _ Hs r w d Hr Hdue) as [[[W0 D] Hf] Hk]; [by eexists|].
  pose proof (sd_orders _ _ _ Hs _ _ _ _ Hf) as Hor. unfold find_district in Hf. rw HW in Hf.
  destruct (at_key (w_districts W) d) as [D0|] eqn:HD; [|done]. injection Hf as _ <-. exists D0. split; [done|]. split; [done|].
  intros o Ho. apply at_key_spec in Ho as (i & _ & Hi). by destruct (Forall_lookup_1 _ _ _ _ Hor Hi) as (H1 & H2 & _).
Qed.

Lemma wp_request `{known} may fuel n m b a Φ :
  sound fuel n b -> request_ok b a -> may NoMemory -> may Restarted ->
  database_at m b -∗
  (∀ v b' e', ⌜spec_request a b = Some (v, b')⌝ -∗ database_at m b' -∗ Φ v e') -∗
  wp may (code_of fuel m (rq_tx a)) (env_of a) Φ.
Proof.
  iIntros (Hs Hok Hmem Hre) "Hdb HΦ". unfold request_ok, spec_request in *. pose proof (sound_small _ _ _ Hs) as Hsmall.
  pose proof (sound_short _ _ _ Hs) as Hshort. destruct (rq_tx a) as [w d c|w d c amount|w d c result0|w d t|w d carrier]; cbn [code_of].
  - destruct Hok as (Hw & Hd & Hc & Hit). iApply (wp_neworder with "Hdb"); [done..| | |].
    + intros i Hi. destruct (Hit i Hi) as (_ & H1 & H2). pose proof (line_item_range (rq_draws a) i).
      split; apply at_key_some; cbn; lia.
    + done.
    + iIntros (v b' e') "%Hr Hdb". iApply ("HΦ" with "[] Hdb"). by rw -Hr.
  - destruct Hok as (Hw & Hd & Hc & Hn). iApply (wp_payment with "Hdb"); [done..|]. iApply "HΦ".
  - destruct Hok as (Hw & Hd & Hc & Hl). wp_bind. iApply (wp_orderstatus with "Hdb"); [done..|].
    iIntros (v st result) "%Hr _ Hdb". iApply wp_ret. iApply ("HΦ" with "[] Hdb"). by rw Hr.
  - destruct Hok as (Hw & Hd & H20). wp_bind. destruct (sd_fuel _ _ _ Hs) as (_ & Hf & _).
    iApply (wp_stocklevel with "Hdb"); [done..| |].
    + intros W D HD. split; [left; specialize (H20 W D HD); lia|]. eapply list.Forall_impl; [by eapply sound_items|]. by left.
    + iIntros "_ Hdb". iApply wp_ret. by iApply ("HΦ" with "[] Hdb").
  - destruct Hok as (Hk & Hw & Hd). destruct (sd_fuel _ _ _ Hs) as (Hf & _ & Hsz). wp_bind.
    iApply (wp_delivery_district with "Hdb"); [done|unfold key_ok; lia|done|done|by eapply sound_deliverable|done|done|]. iSplit.
    + iIntros "%HW Hdb". iApply wp_ret. iApply ("HΦ" with "[] Hdb"). by rw HW.
    + iIntros (e' b' k [W HW]) "%Hr _ Hdb". iApply wp_ret. iApply ("HΦ" with "[] Hdb"). by rw HW Hr.
Qed.

Lemma request_correct `{known} fuel n m b a x :
  holds (database_at m b) x -> ev x = env_of a -> sound fuel n b -> request_ok b a ->
  run_ends (fun s => s = NoMemory \/ s = Restarted)
    (fun v x' => exists b', spec_request a b = Some (v, b') /\ holds (database_at m b') x')
    (run (code_of fuel m (rq_tx a)) x).
Proof.
  intros Hh He Hs Hok.
  eapply run_ends_mono; [|eapply (wp_sound _ _ _ (fun v _ => ∃ b', ⌜spec_request a b = Some (v, b')⌝ ∗ database_at m b')%I); [exact Hh|]].
  - intros v x' [b' Hv]%holds_exist. exists b'. by apply holds_pure_sep in Hv.
  - rw He. iIntros "Hdb". iApply (wp_request with "Hdb"); [done|done|by left|by right|].
    iIntros (v b' e') "%Hr Hdb". iExists b'. by iFrame.
Qed.
