(* ===== verification/TpccLoad.v ===== *)
(** * Loading the database

    [manager_allocation] fills the tables: one warehouse with 10 districts, each with
    3000 customers and 3000 orders, one of each customer, and 100000 items and stocks.
    From any store it ends with a store that holds such a database, unless there is no
    memory. *)
From Stdlib Require Import String.
From iris.proofmode Require Import proofmode.
From S2P Require Import Prelude Words Wrappers Float Objects RBTree RBOrder SList Store StoreLogic Tables Manager Tpcc TpccRep TpccNew TpccPay TpccRead TpccDeliver TpccCorrect TpccReq.
Local Open Scope Z_scope.

Section Load.

Context (may : stop -> Prop) (no_memory : may NoMemory).

(** ** A table that is filled *)

Section Fill.

(** A row may refer to strings of a table of strings. *)
Context {R : Type} (Row : gmap Z string -> Z -> Z -> R -> sProp) (P : nat -> R -> Prop).
Context (Row_mono : forall S S' k p r, S ⊆ S' -> Row S k p r ⊢ Row S' k p r).

(** The first [i] rows are there. *)
Definition filled (s : Z) (e0 : env) (i : nat) (e : env) : sProp :=
  ∃ ps rs, ⌜length rs = i /\ (forall j r, rs !! j = Some r -> P j r) /\ strs e0 ⊆ strs e⌝ ∗ table (Row (strs e)) s ps rs.

(** The next row is inserted. *)
Lemma wp_insert_row s e0 i e1 e key p r Φ :
  key_ok (w64 key) = true -> w64 key = Z.of_nat i + 1 -> user_addr p -> strs e1 ⊆ strs e -> P i r ->
  filled s e0 i e1 -∗ Row (strs e) (Z.of_nat i + 1) p r -∗
  (∀ e', filled s e0 (S i) e' -∗ Φ 1 e') -∗ wp may (MAP_INSERT s key p) e Φ.
Proof.
  iIntros (Hk Hi Hu Hs HP) "(%ps & %rs & (%Hl & %HPs & %Hs0) & Ht) Hrow HΦ".
  iDestruct (table_mono _ (Row (strs e)) with "Ht") as "Ht"; [intros; by apply Row_mono|].
  iApply (wp_insert_next with "Ht [Hrow]"); [done|done|by rw Hl|done|by rw Hl|].
  iIntros (b ob bs) "_ Ht". iApply "HΦ". iExists _, _. iFrame "Ht". iPureIntro. rw length_app Hl /=. split_and!.
  - lia.
  - intros j r' [Hj|[Hj Hr]]%lookup_app_Some; [by apply HPs|]. apply list_lookup_singleton_Some in Hr as [Hz <-].
    by replace j with i by lia.
  - cbn. by etrans.
Qed.

Lemma wp_fill s N body e Φ :
  0 <= N -> s ⤇ ∅ -∗
  □ (∀ (i : nat) e1, ⌜Z.of_nat i < N⌝ -∗ filled s e i e1 -∗ wp may (body (1 + Z.of_nat i) tt) e1 (fun _ e' => filled s e (S i) e')) -∗
  (∀ e', filled s e (Z.to_nat N) e' -∗ Φ tt e') -∗
  wp may (for_to 1 N tt body) e Φ.
Proof.
  iIntros (HN) "Hs #Hb HΦ". iApply (wp_for_to may 1 N tt body (fun i _ e' => filled s e i e') with "[Hs]"); [lia| | |].
  - iExists [], []. iSplit; [done|]. by iApply table_empty.
  - iIntros "!>" (i [] e1) "%Hi HI". iApply ("Hb" with "[] HI"). iPureIntro. lia.
  - iIntros ([] e') "HI". replace (N - 1 + 1) with N by lia. by iApply "HΦ".
Qed.

End Fill.

(** A row that refers to no string *)
Lemma mono_const {R} (Row : Z -> Z -> R -> sProp) (S S' : gmap Z string) k p r : S ⊆ S' -> Row k p r ⊢ Row k p r.
Proof. done. Qed.

(** A random number below [n] *)
Lemma wp_random_mod n e Φ :
  0 < n -> (∀ r, ⌜0 <= r < n⌝ -∗ Φ r (drawn e)) -∗ wp may (random_mod n) e Φ.
Proof.
  iIntros (Hn) "HΦ". wp_bind. iApply wp_random. iApply wp_ret. iApply "HΦ". iPureIntro. by apply Z.mod_pos_bound.
Qed.

(** ** Items and stocks *)

Lemma wp_fill_item iName iData s e Φ :
  s ⤇ ∅ -∗
  (∀ ps prices e', ⌜Z.of_nat (length prices) = 100000 /\ strs e ⊆ strs e'⌝ -∗ table item_row s ps prices -∗ Φ 100001 e') -∗
  wp may (fill_item iName iData s) e Φ.
Proof.
  iIntros "Hs HΦ". wp_bind. iApply (wp_fill (fun _ => item_row) (fun _ _ => True) with "Hs"); [done| |].
  - iIntros "!>" (i e1) "%Hi HI". destruct (small_word (1 + Z.of_nat i)) as [Hw Hk]; [lia|].
    wp_bind. iApply wp_random_mod; [lia|]. iIntros (im) "_". wp_bind. iApply wp_random_mod; [lia|]. iIntros (r1) "%Hr1".
    wp_bind. iApply wp_random_mod; [lia|]. iIntros (r2) "%Hr2". wp_bind. iApply wp_assert; [apply Z.ltb_lt; lia|].
    wp_bind. iApply wp_assert; [apply Z.ltb_lt; lia|]. wp_bind. iApply wp_random_mod; [lia|]. iIntros (r3) "_".
    set (price := fdiv _ _). wp_bind. wp_malloc p ob ps Hp Hl Hu "Hp". do 3 wp_st "Hp". wp_stf "Hp". wp_st "Hp". iApply wp_ret.
    wp_bind. iApply (wp_insert_row (fun _ => item_row) (fun _ _ => True) (mono_const _) _ e i _ _ _ _ price with "HI [Hp]");
      [by rw Hw|rw Hw; lia|done|done|done| |].
    + iExists _, _, _, _. rw Hw (Z.add_comm 1). iFrame "Hp". iPureIntro. apply float_merge; [apply fdiv_f32|by left].
    + iIntros (e') "HI". by iApply wp_ret.
  - iIntros (e') "(%ps & %rs & (%Hl & _ & %Hs) & Ht)". iApply wp_ret. iApply ("HΦ" with "[] Ht"). iPureIntro. split; [lia|done].
Qed.

(** A value drawn for the quantity *)
Definition loaded_stock (s : stock) : Prop := 10 <= s_quantity s < 100.

Lemma wp_fill_stock s e Φ :
  s ⤇ ∅ -∗
  (∀ ps sts e', ⌜Z.of_nat (length sts) = 100000 /\ Forall loaded_stock sts /\ strs e ⊆ strs e'⌝ -∗ table stock_row s ps sts -∗ Φ 100001 e') -∗
  wp may (fill_stock s) e Φ.
Proof.
  iIntros "Hs HΦ". wp_bind. iApply (wp_fill (fun _ => stock_row) (fun _ => loaded_stock) with "Hs"); [done| |].
  - iIntros "!>" (i e1) "%Hi HI". destruct (small_word (1 + Z.of_nat i)) as [Hw Hk]; [lia|].
    wp_bind. iApply wp_random_mod; [lia|]. iIntros (q) "%Hq". destruct (small_word (q + 10)) as [Hqw _]; [lia|].
    wp_bind. wp_malloc p ob ps Hp Hl Hu "Hp". do 3 wp_st "Hp". iApply wp_ret.
    wp_bind. iApply (wp_insert_row (fun _ => stock_row) (fun _ => loaded_stock) (mono_const _) _ e i _ _ _ _ (mk_stock (q + 10) _ _) with "HI [Hp]");
      [by rw Hw|rw Hw; lia|done|done| | |].
    + unfold loaded_stock. simpl. lia.
    + repeat iExists _. rw Hw Hqw (Z.add_comm 1). iFrame "Hp".
    + iIntros (e') "HI". by iApply wp_ret.
  - iIntros (e') "(%ps & %rs & (%Hl & %HP & %Hs) & Ht)". wp_bind.
    iApply (wp_for_to may 1 100000 tt _ (fun _ _ e2 => ⌜strs e ⊆ strs e2⌝ ∗ table stock_row s ps rs)%I with "[Ht]"); [lia|by iFrame| |].
    + iIntros "!>" (i [] e1) "%Hi (%Hs1 & Ht)". destruct (small_word (1 + Z.of_nat i)) as [Hw Hk]; [lia|].
      destruct (lookup_lt_is_Some_2 rs i) as [r Hr]; [lia|].
      wp_bind. iApply (wp_find_some with "Ht"); [by rw Hw|rw Hw; apply Z.add_comm|done|].
      iIntros (p) "_ %Hu Hrow Ht". iSpecialize ("Ht" with "Hrow"). rw list_insert_id //.
      iApply wp_assert; [by rw user_addr_null|]. by iFrame.
    + iIntros ([] e2) "(%Hs2 & Ht)". iApply wp_ret. iApply ("HΦ" with "[] Ht"). iPureIntro. split_and!; [lia| |done].
      apply Forall_lookup_2. intros j r Hj. by eapply HP.
Qed.

(** ** Orders *)

Definition loaded_line (l : oline) : Prop := 1 <= l_i_id l <= 100000 /\ l_quantity l = 5.

Lemma wp_line_values o e Φ :
  (∀ v e', ⌜is_f32 v.2 /\ strs e' = strs e⌝ -∗ Φ v e') -∗ wp may (line_values o) e Φ.
Proof.
  iIntros "HΦ". unfold line_values. case_match; wp_bind; (iApply wp_random_mod; [lia|]); iIntros (r) "_"; iApply wp_ret;
    iApply "HΦ"; iPureIntro; (split; [apply f32_of_int_f32|done]).
Qed.

Lemma wp_fill_orderline lm o d w cnt e Φ :
  0 <= cnt < 2 ^ 62 -> lm ⤇ ∅ -∗
  (∀ ps ls e', ⌜Z.of_nat (length ls) = cnt /\ Forall loaded_line ls /\ strs e ⊆ strs e'⌝ -∗
     table (line_row (w64 o) (w64 d) (w64 w)) lm ps ls -∗ Φ 0 e') -∗
  wp may (fill_orderline lm o d w cnt) e Φ.
Proof.
  iIntros (Hc) "Hs HΦ". wp_bind.
  iApply (wp_fill (fun _ => line_row (w64 o) (w64 d) (w64 w)) (fun _ => loaded_line) with "Hs"); [lia| |].
  - iIntros "!>" (i e1) "%Hi HI". destruct (small_word (1 + Z.of_nat i)) as [Hw Hk]; [lia|].
    wp_bind. iApply wp_line_values. iIntros (v e2) "[%Hv %Hs2]". wp_bind. iApply wp_random_mod; [lia|]. iIntros (r) "%Hr".
    destruct (small_word (r + 1)) as [Hrw _]; [lia|].
    wp_bind. iApply wp_orderline_alloc; [done|done|]. iIntros (p ob ps) "_ %Hu Hrow". rw Hw Hrw (Z.add_comm 1).
    wp_bind. iApply (wp_insert_row _ _ (mono_const _) with "HI Hrow");
      [by rw -(Z.add_comm 1) Hw|rw -(Z.add_comm 1) Hw; lia|done|by rw /= Hs2| |].
    + split; [simpl; lia|done].
    + iIntros (e') "HI". by iApply wp_ret.
  - iIntros (e') "(%ps & %rs & (%Hl & %HP & %Hs) & Ht)". iApply wp_ret. iApply ("HΦ" with "[] Ht"). iPureIntro.
    split_and!; [lia| |done]. apply Forall_lookup_2. intros j r Hj. by eapply HP.
Qed.

(** The order [j] of a district whose first order is of the customer [s + 1] *)
Definition loaded_order (s : Z) (j : nat) (o : order) : Prop :=
  o_c_id o = (s + Z.of_nat j) mod 3000 + 1 /\ (5 <= length (o_lines o) <= 14)%nat /\ Forall loaded_line (o_lines o).

Lemma wp_load_order o d c w entry carrier cnt e Φ :
  5 <= cnt <= 14 ->
  (∀ p ls e', ⌜user_addr p /\ Z.of_nat (length ls) = cnt /\ Forall loaded_line ls /\ strs e ⊆ strs e'⌝ -∗
     order_row (w64 d) (w64 w) (w64 o) p (mk_order (w64 c) (w64 entry) (w64 carrier) ls) -∗ Φ p e') -∗
  wp may (order_alloc o d c w entry carrier cnt 1) e Φ.
Proof.
  iIntros (Hc) "HΦ". wp_malloc p ob ps Hp Hl Hu "Hp". do 8 wp_st "Hp". wp_bind. iApply wp_map_alloc; [done|].
  iIntros (lm ob2 ps2) "_ %Hu2 Hlm". wp_st "Hp". wp_bind. iApply (wp_fill_orderline with "Hlm"); [lia|].
  iIntros (lps ls e') "(%Hl1 & %Hl2 & %Hs) Hls". iApply wp_ret. destruct (small_word cnt) as [Hcw _]; [lia|].
  iApply ("HΦ" $! p ls); [by iPureIntro|]. iExists lm, lps. rw /= (user_addr_word lm) // Hcw -Hl1. iFrame.
Qed.

(** ** Customers *)

Lemma halves_both w a b : is_f32 a -> is_f32 b -> halves (put_half (put_half w 0 a) 1 b) a b.
Proof. intros Ha Hb. apply (halves_1 _ _ (part 32 w 1)); [done|]. by apply (halves_0 _ (part 32 w 0)). Qed.

(** The row of a customer while the strings are [S] and the orders are at [os]; the
    flag says whether there is a last order. *)
Definition loading_row (S : gmap Z string) (os : list Z) (d w k p : Z) (r : customer * bool) : sProp :=
  ∃ x3 x4 last x6 x7 x8 x9 x10 x11 since x13 lw bw x18 lo,
    p ↦ [k; d; w; x3; x4; last; x6; x7; x8; x9; x10; x11; since; x13; lw; bw; c_payments r.1; c_deliveries r.1; x18; lo] ∗
    ⌜S !! last = Some (c_last r.1)⌝ ∗
    ⌜part 32 lw 1 = c_discount r.1 /\ halves bw (c_balance r.1) (c_ytd r.1) /\ (r.2 = true -> os !! c_order r.1 = Some lo)⌝.

Lemma loading_mono S S' os ps d w k p r :
  S ⊆ S' -> loading_row S os d w k p r ⊢ loading_row S' (os ++ ps) d w k p r.
Proof.
  iIntros (HS) "(%x3 & %x4 & %last & %x6 & %x7 & %x8 & %x9 & %x10 & %x11 & %since & %x13 & %lw & %bw & %x18 & %lo & Hp & %Hl & %H1 & %H2 & %H3)".
  repeat iExists _. iFrame. iPureIntro. split_and!; [by eapply lookup_weaken|done|done|].
  intros Hr. apply lookup_app_l_Some. auto.
Qed.

Lemma loading_strings os d w S S' k p r : S ⊆ S' -> loading_row S os d w k p r ⊢ loading_row S' os d w k p r.
Proof. iIntros (HS) "H". iDestruct (loading_mono _ _ _ [] with "H") as "H"; [done|]. by rw app_nil_r. Qed.

Lemma loading_done S os d w k p c : loading_row S os d w k p (c, true) ⊢ @customer_row S os d w k p c.
Proof.
  iIntros "(%x3 & %x4 & %last & %x6 & %x7 & %x8 & %x9 & %x10 & %x11 & %since & %x13 & %lw & %bw & %x18 & %lo & Hp & %Hl & %H1 & %H2 & %H3)".
  repeat iExists _. iFrame. iPureIntro. split_and!; auto.
Qed.

Definition loaded_customer (c : customer) : Prop :=
  (exists n, 0 <= n < 999 /\ c_last c = clast n) /\
  c_balance c = f32_of_int (-10) /\ c_ytd c = f32_of_int 10 /\ c_payments c = 1.

Lemma wp_load_customer c d w last name since e Φ :
  strs e !! last = Some name -> is_word last ->
  (∀ p c' ob ps, ⌜places e = (p, ob) :: ps /\ user_addr p /\ c_last c' = name /\ c_balance c' = f32_of_int (-10) /\
       c_ytd c' = f32_of_int 10 /\ c_payments c' = 1⌝ -∗
     loading_row (strs e) [] (w64 d) (w64 w) (w64 c) p (c', false) -∗ Φ p (e <| places := ps |>)) -∗
  wp may (customer_alloc c d w last since) e Φ.
Proof.
  iIntros (Hn Hlw) "HΦ". wp_malloc p ob ps Hp Hl Hu "Hp". do 5 wp_st "Hp". wp_stf "Hp". wp_stf "Hp". wp_st "Hp". iApply wp_ret.
  iApply ("HΦ" $! p (mk_customer name (part 32 _ 1) (f32_of_int (-10)) (f32_of_int 10) 1 _ O)); [by iPureIntro|].
  repeat iExists _. iFrame "Hp". iPureIntro. split_and!; [by rw w64_id|done| |done].
  apply halves_both; apply f32_of_int_f32.
Qed.

Lemma wp_fill_customer2 s since d e Φ :
  s ⤇ ∅ -∗
  (∀ ps cs e', ⌜Z.of_nat (length cs) = 3000 /\ Forall loaded_customer cs /\ strs e ⊆ strs e'⌝ -∗
     table (loading_row (strs e') [] (w64 d) 1) s ps ((fun c => (c, false)) <$> cs) -∗ Φ 0 e') -∗
  wp may (fill_customer2 s since d) e Φ.
Proof.
  iIntros "Hs HΦ". wp_bind.
  iApply (wp_fill (fun S => loading_row S [] (w64 d) 1) (fun _ r => loaded_customer r.1 /\ r.2 = false) with "Hs"); [lia| |].
  - iIntros "!>" (i e1) "%Hi HI". destruct (small_word (1 + Z.of_nat i)) as [Hw Hk]; [lia|].
    wp_bind. iApply wp_random_mod; [lia|]. iIntros (n) "%Hn". wp_bind. iApply wp_generate_CLAST; [done|lia|].
    iIntros (last e2) "(_ & %Hs2 & %Hlast & %Hlu)". wp_bind. iApply wp_random_mod; [lia|]. iIntros (r1) "_".
    wp_bind. iApply wp_random_mod; [lia|]. iIntros (r2) "_". wp_bind. iApply wp_load_customer; [done|destruct Hlu; unfold is_word, word_size; lia|].
    iIntros (p c ob ps) "(%Hp & %Hu & %Hc1 & %Hc2 & %Hc3 & %Hc4) Hrow". rw Hw.
    wp_bind. iApply (wp_insert_row _ _ (loading_strings [] _ _) with "HI [Hrow]"); last first.
    + iIntros (e') "HI". by iApply wp_ret.
    + by rw (Z.add_comm 1).
    + split; [|done]. split; [by eexists|done].
    + done.
    + done.
    + rw Hw. lia.
    + by rw Hw.
  - iIntros (e') "(%ps & %rs & (%Hl & %HP & %Hs) & Ht)". iApply wp_ret.
    assert (rs = (fun c => (c, false)) <$> rs.*1) as ->.
    { apply list_eq. intros j. rw !list_lookup_fmap. destruct (rs !! j) as [[c v]|] eqn:Hj; [|done]. by destruct (HP j _ Hj) as [_ [= ->]]. }
    iApply ("HΦ" with "[] Ht"). iPureIntro. split_and!; [rw length_fmap; lia| |done].
    apply Forall_lookup_2. intros j c Hj. apply list_lookup_fmap_Some in Hj as ([c' v] & -> & Hj). by apply (HP j _ Hj).
Qed.

(** ** An order of every customer *)

(** After [i] turns: the orders, and the customers that have one.  The first order is
    of the customer [s + 1]. *)
Definition ordering (s : Z) (i : nat) (os : list order) (rs : list (customer * bool)) : Prop :=
  length os = i /\ (forall j o, os !! j = Some o -> loaded_order s j o) /\ Z.of_nat (length rs) = 3000 /\
  (forall j r, rs !! j = Some r -> loaded_customer r.1 /\ (r.2 = true -> Z.of_nat (c_order r.1) = (Z.of_nat j - s) mod 3000)) /\
  (forall t, (t < i)%nat -> exists c, rs !! Z.to_nat ((s + Z.of_nat t) mod 3000) = Some (c, true)).

Lemma ordering_start s cs :
  Z.of_nat (length cs) = 3000 -> Forall loaded_customer cs -> ordering s O [] ((fun c => (c, false)) <$> cs).
Proof.
  intros Hl Hc. split; [done|]. split; [by intros|]. split; [by rw length_fmap|]. split; [|lia].
  intros j r Hj. apply list_lookup_fmap_Some in Hj as (c & -> & Hj). split; [by eapply Forall_lookup_1|done].
Qed.

Lemma ordering_step s i os rs o n c v :
  0 <= s < 3000 -> (i < Z.to_nat 3000)%nat -> ordering s i os rs -> loaded_order s i o -> n = Z.to_nat ((s + Z.of_nat i) mod 3000) ->
  rs !! n = Some (c, v) -> ordering s (S i) (os ++ [o]) (<[n := (c <| c_order := i |>, true)]> rs).
Proof.
  intros Hs Hi (Ho & HPo & Hr & HPr & Hv) Hlo -> Hn. pose proof (Z.mod_pos_bound (s + Z.of_nat i) 3000) as Hb.
  split; [rw length_app /=; lia|]. split; [|split; [by rw length_insert|split]].
  - intros j o' [Hj|[Hj Hz]]%lookup_app_Some; [auto|]. apply list_lookup_singleton_Some in Hz as [Hz <-]. by replace j with i by lia.
  - intros j r [(<- & <- & _)|[_ Hj]]%list_lookup_insert_Some; [|auto]. destruct (HPr _ _ Hn) as [Hl _].
    split; [exact Hl|intros _]. rw /= Z2Nat.id; [|lia]. rw Zminus_mod_idemp_l. replace (s + Z.of_nat i - s) with (Z.of_nat i) by lia.
    rw Z.mod_small; lia.
  - intros t Ht. destruct (decide (t = i)) as [->|Hne].
    + eexists. apply list_lookup_insert_eq. by eapply lookup_lt_Some.
    + destruct (Hv t) as [c' Hc']; [lia|]. destruct (decide (Z.to_nat ((s + Z.of_nat i) mod 3000) = Z.to_nat ((s + Z.of_nat t) mod 3000))) as [->|Hd].
      * eexists. apply list_lookup_insert_eq. by eapply lookup_lt_Some.
      * exists c'. by rw list_lookup_insert_ne.
Qed.

(** Every customer has an order and every order is of one customer. *)
Definition one_each (cs : list customer) (os : list order) : Prop :=
  Z.of_nat (length cs) = 3000 /\ Z.of_nat (length os) = 3000 /\ Forall loaded_customer cs /\ exists s, 0 <= s < 3000 /\
  (forall j o, os !! j = Some o -> loaded_order s j o) /\
  (forall i c, cs !! i = Some c -> Z.of_nat (c_order c) = (Z.of_nat i - s) mod 3000).

Lemma ordering_end s os rs :
  0 <= s < 3000 -> ordering s (Z.to_nat 3000) os rs -> one_each rs.*1 os /\ rs = (fun c => (c, true)) <$> rs.*1.
Proof.
  intros Hs (Ho & HPo & Hr & HPr & Hv).
  assert (Ht : forall j r, rs !! j = Some r -> r.2 = true).
  { intros j r Hj. pose proof (lookup_lt_Some _ _ _ Hj) as Hlt. pose proof (Z.mod_pos_bound (Z.of_nat j - s) 3000) as Hb.
    destruct (Hv (Z.to_nat ((Z.of_nat j - s) mod 3000))) as [c Hc]; [lia|]. rw Z2Nat.id in Hc; [|lia].
    rw Zplus_mod_idemp_r in Hc. replace (s + (Z.of_nat j - s)) with (Z.of_nat j) in Hc by lia.
    rw Z.mod_small in Hc; [|lia]. rw Nat2Z.id Hj in Hc. by injection Hc as ->. }
  assert (Hc : forall j c, rs.*1 !! j = Some c -> loaded_customer c /\ Z.of_nat (c_order c) = (Z.of_nat j - s) mod 3000).
  { intros j c Hj. apply list_lookup_fmap_Some in Hj as (r & -> & Hj). destruct (HPr _ _ Hj) as [H1 H2]. eauto. }
  split.
  - split; [by rw length_fmap|]. split; [lia|]. split; [apply Forall_lookup_2; intros j c Hj; by apply (Hc j)|].
    exists s. split; [done|]. split; [done|]. intros j c Hj. by apply Hc.
  - apply list_eq. intros j. rw !list_lookup_fmap. destruct (rs !! j) as [[c v]|] eqn:Hj; [|done]. by rw -(Ht j _ Hj).
Qed.

Lemma next_customer_mod k : 0 <= k -> next_customer (k mod 3000 + 1) = (k + 1) mod 3000 + 1.
Proof.
  intros Hk. pose proof (Z.mod_pos_bound k 3000) as Hb. unfold next_customer. rw Z.rem_mod_nonneg; [|lia..].
  rw (Z.add_mod k 1) //. change (1 mod 3000) with 1.
  destruct (decide (k mod 3000 = 2998)) as [->|Hq]; [done|]. destruct (decide (k mod 3000 = 2999)) as [->|Hq2]; [done|].
  rw !(Z.mod_small (_ + 1)); [|lia..]. by rw (proj2 (Z.eqb_neq _ 0)); [|lia].
Qed.

(** The tables of a district after [i] turns, the number of the next customer [id_c] *)
Definition ordered (s cm om d w : Z) (S0 : gmap Z string) (i : nat) (id_c : Z) (e : env) : sProp :=
  ∃ cps rs ops os, ⌜id_c = ((s + Z.of_nat i) mod 3000 + 1)%Z /\ ordering s i os rs /\ S0 ⊆ strs e⌝ ∗
    table (loading_row (strs e) ops d w) cm cps rs ∗ table (order_row d w) om ops os.

Lemma ordered_step s cm om d w S0 sec i id_c e :
  0 <= s < 3000 -> (i < Z.to_nat 3000)%nat ->
  let id_o := 1 + Z.of_nat i in
  ordered s cm om (w64 d) (w64 w) S0 i id_c e ⊢
  wp may (let$ o_carr := (if id_o <? 2101 then let$ r := random_mod 10 in CRet (r + 1) else CRet (-1)) in
          let$ r := random_mod 10 in
          let o_ol_cnt := r + 5 in
          do$ assert ((id_c <? 3001) && (0 <? id_c));
          let$ orderPtr := order_alloc id_o d id_c w sec o_carr o_ol_cnt 1 in
          do$ MAP_INSERT om id_o orderPtr;
          let$ cPtr := MAP_FIND cm id_c in
          do$ st cPtr lastOrder orderPtr;
          CRet (next_customer id_c)) e (ordered s cm om (w64 d) (w64 w) S0 (S i)).
Proof.
  iIntros (Hs Hi id_o) "(%cps & %rs & %ops & %os & (-> & %Ho & %HS) & Hct & Hot)".
  pose proof (Z.mod_pos_bound (s + Z.of_nat i) 3000) as Hb. set (n := (s + Z.of_nat i) mod 3000) in *.
  destruct (small_word id_o) as [Hiw Hik]; [lia|]. destruct (small_word (n + 1)) as [Hcw Hck]; [lia|].
  wp_bind. iApply (wp_wand _ _ _ (fun _ e' => ⌜strs e' = strs e⌝)%I).
  { case_match; [|by iApply wp_ret]. wp_bind. iApply wp_random_mod; [lia|]. iIntros (r) "_". by iApply wp_ret. }
  iIntros (carr e1) "%Hs1". wp_bind. iApply wp_random_mod; [lia|]. iIntros (r) "%Hr".
  wp_bind. iApply wp_assert; [lia|]. wp_bind. iApply wp_load_order; [lia|]. iIntros (p ls e2) "(%Hu & %Hl & %HP & %Hs2) Hrow".
  rw Hiw Hcw. set (o := mk_order (n + 1) (w64 sec) (w64 carr) ls).
  assert (Hlo : loaded_order s i o) by (split; [done|]; split; [simpl; lia|done]).
  pose proof (ordering_step s i os rs o (Z.to_nat n)) as Hstep. destruct Ho as (Hol & HPo & Hr' & HPr & Hv).
  destruct (lookup_lt_is_Some_2 rs (Z.to_nat n)) as [[c v] Hc]; [lia|]. specialize (Hstep c v).
  iDestruct (table_length with "Hot") as %Hl2. rw /id_o (Z.add_comm 1) -Hol in Hiw Hik |- *.
  wp_bind. iApply (wp_insert_next with "Hot Hrow"); [done|by rw Hiw|by rw Hiw|done|]. iIntros (b ob bs) "_ Hot".
  iDestruct (table_mono _ (loading_row (strs e2) (ops ++ [p]) (w64 d) (w64 w)) with "Hct") as "Hct".
  { intros. apply loading_mono. by rw -Hs1. }
  wp_bind. iApply (wp_find_some with "Hct"); [by rw Hcw|rw Hcw -{1}(Z2Nat.id n); [done|lia]|done|].
  iIntros (pc) "_ %Hcu Hrow Hct".
  iDestruct "Hrow" as (x3 x4 last x6 x7 x8 x9 x10 x11 since x13 lw bw x18 lo) "(Hp & %H1 & %H2 & %H3 & _)".
  wp_st "Hp". iSpecialize ("Hct" $! (c <| c_order := i |>, true) with "[Hp]").
  { repeat iExists _. iFrame "Hp". iPureIntro. split_and!; [done..|]. intros _. rw /= -Hol -Hl2 user_addr_word //. apply lookup_last_app. }
  iApply wp_ret. repeat iExists _. iFrame. iPureIntro. split_and!.
  - rw next_customer_mod; [|lia]. do 2 f_equal. lia.
  - rw Hol. by apply Hstep.
  - etrans; [exact HS|]. by rw -Hs1.
Qed.

Lemma wp_fill_order2 om cm w d cps cs e Φ :
  Z.of_nat (length cs) = 3000 -> Forall loaded_customer cs ->
  table (loading_row (strs e) [] (w64 d) (w64 w)) cm cps ((fun c => (c, false)) <$> cs) -∗ om ⤇ ∅ -∗
  (∀ ops os cps' cs' e', ⌜one_each cs' os /\ strs e ⊆ strs e'⌝ -∗
     table (@customer_row (strs e') ops (w64 d) (w64 w)) cm cps' cs' -∗ table (order_row (w64 d) (w64 w)) om ops os -∗ Φ 3001 e') -∗
  wp may (fill_order2 om cm w d) e Φ.
Proof.
  iIntros (Hl Hc) "Hct Hot HΦ". wp_bind. iApply wp_time. wp_bind. iApply wp_random_mod; [lia|]. iIntros (s) "%Hs". wp_bind.
  iApply (wp_for_to may 1 3000 (s + 1) _ (ordered s cm om (w64 d) (w64 w) (strs e)) with "[Hct Hot]"); [lia| | |].
  - iExists cps, _, [], []. iFrame "Hct". iSplit; [|by iApply table_empty]. iPureIntro.
    split; [|split; [by apply ordering_start|done]]. rw Z.add_0_r Z.mod_small //.
  - iIntros "!>" (i id_c e1) "%Hi HI". iApply (ordered_step with "HI"); [done|lia].
  - iIntros (id_c e') "(%cps' & %rs & %ops & %os & (-> & %Ho & %HS) & Hct & Hot)". iApply wp_ret.
    apply ordering_end in Ho as [H1 ->]; [|done].
    iApply ("HΦ" $! ops os cps' with "[//] [Hct] Hot"). iDestruct "Hct" as "($ & $ & Hct)". rw big_sepL2_fmap_r.
    iApply (big_sepL2_mono with "Hct"). intros. apply loading_done.
Qed.

(** ** Districts and the warehouse *)

Definition loaded_tax (t : Z) : Prop := exists r, 0 <= r < 2000 /\ t = fdiv (f32_of_int r) (f32_of_int 10000).

Lemma loaded_tax_f32 t : loaded_tax t -> is_f32 t.
Proof. intros (r & _ & ->). apply fdiv_f32. Qed.

Definition loaded_district (D : district) : Prop :=
  one_each (d_customers D) (d_orders D) /\ d_ytd D = f32_of_int 30000 /\ loaded_tax (d_tax D).

Definition loaded_warehouse (W : warehouse) : Prop :=
  length (w_districts W) = 10%nat /\ Forall loaded_district (w_districts W) /\ w_ytd W = f32_of_int 300000 /\ loaded_tax (w_tax W).

Lemma wp_random_tax e Φ : (∀ t, ⌜loaded_tax t⌝ -∗ Φ t (drawn e)) -∗ wp may random_tax e Φ.
Proof.
  iIntros "HΦ". wp_bind. iApply wp_random_mod; [lia|]. iIntros (r) "%Hr". iApply wp_ret. iApply "HΦ". iPureIntro. by eexists.
Qed.

Lemma district_strings w (S S' : gmap Z string) k p D : S ⊆ S' -> @district_row S w k p D ⊢ @district_row S' w k p D.
Proof.
  iIntros (HS) "(%cm & %om & %cs & %os & Hd & Hc & Ho)". iExists _, _, _, _. iFrame "Hd Ho".
  iApply (table_mono with "Hc"). intros k' p' c. iIntros "(%x3 & %x4 & %last & %x6 & %x7 & %x8 & %x9 & %x10 & %x11 & %since & %x13 & %lw & %bw & %x18 & %lo & Hp & %Hl & %H)".
  repeat iExists _. iFrame. iPureIntro. split; [by eapply lookup_weaken|done].
Qed.

Lemma wp_district_alloc since d tax e Φ :
  is_word d -> loaded_tax tax ->
  (∀ p D e', ⌜user_addr p /\ loaded_district D /\ strs e ⊆ strs e'⌝ -∗ @district_row (strs e') 1 d p D -∗ Φ p e') -∗
  wp may (district_alloc since d 1 tax) e Φ.
Proof.
  iIntros (Hd Htax) "HΦ". wp_malloc p ob ps Hp Hl Hu "Hp". do 3 wp_st "Hp". do 2 wp_stf "Hp".
  wp_bind. iApply wp_map_alloc; [done|]. iIntros (cm ob2 ps2) "_ %Hcu Hcm". wp_st "Hp". wp_ld "Hp". rw !(user_addr_word cm) //.
  wp_bind. iApply (wp_fill_customer2 with "Hcm"). iIntros (cps cs e1) "(%Hcl & %HPc & %Hs1) Hct".
  wp_bind. iApply wp_map_alloc; [done|]. iIntros (om ob3 ps3) "_ %Hou Hom". wp_st "Hp". wp_ld "Hp". wp_ld "Hp". rw !(user_addr_word om) //.
  wp_bind. iApply (wp_fill_order2 om cm 1 d cps cs with "[Hct] Hom"); [exact Hcl|exact HPc|iExact "Hct"|].
  iIntros (ops os cps' cs' e2) "(%Hone & %Hs2) Hct Hot". iApply wp_ret.
  iApply ("HΦ" $! p (mk_district tax (f32_of_int 30000) cs' os)).
  { iPureIntro. split; [done|]. split; [done|]. by etrans. }
  rw (w64_id d) //. change (w64 1) with 1. iExists cm, om, cps', ops. iFrame "Hct Hot". repeat iExists _.
  destruct Hone as (_ & Hol & _). rw /= Hol. change (w64 3001) with (3000 + 1). iFrame "Hp". iPureIntro.
  apply halves_both; [by apply loaded_tax_f32|apply f32_of_int_f32].
Qed.

Lemma wp_fill_district s since e Φ :
  s ⤇ ∅ -∗
  (∀ ps Ds e', ⌜length Ds = 10%nat /\ Forall loaded_district Ds /\ strs e ⊆ strs e'⌝ -∗
     table (@district_row (strs e') 1) s ps Ds -∗ Φ 11 e') -∗
  wp may (fill_district s since) e Φ.
Proof.
  iIntros "Hs HΦ". wp_bind.
  iApply (wp_fill (fun S => @district_row S 1) (fun _ => loaded_district) with "Hs"); [done| |].
  - iIntros "!>" (i e1) "%Hi HI". destruct (small_word (1 + Z.of_nat i)) as [Hw Hk]; [lia|].
    wp_bind. iApply wp_random_tax. iIntros (t) "%Ht". wp_bind. iApply wp_district_alloc; [rw -Hw; apply w64_word|done|].
    iIntros (p D e2) "(%Hu & %HD & %Hs2) Hrow".
    wp_bind. iApply (wp_insert_row _ _ (district_strings 1) with "HI [Hrow]"); last first.
    + iIntros (e') "HI". by iApply wp_ret.
    + by rw (Z.add_comm 1).
    + done.
    + done.
    + done.
    + rw Hw. lia.
    + by rw Hw.
  - iIntros (e') "(%ps & %rs & (%Hl & %HP & %Hs) & Ht)". iApply wp_ret. iApply ("HΦ" with "[] Ht"). iPureIntro.
    split_and!; [done| |done]. apply Forall_lookup_2. intros j D Hj. by eapply HP.
Qed.

Lemma wp_fill_warehouse s since e Φ :
  s ⤇ ∅ -∗
  (∀ ps W e', ⌜loaded_warehouse W /\ strs e ⊆ strs e'⌝ -∗ table (@warehouse_row (strs e')) s ps [W] -∗ Φ 1 e') -∗
  wp may (fill_warehouse s since) e Φ.
Proof.
  iIntros "Hs HΦ". wp_bind. iApply wp_random_tax. iIntros (t) "%Ht". wp_bind.
  wp_malloc p ob ps Hp Hl Hu "Hp". wp_st "Hp". do 2 wp_stf "Hp".
  wp_bind. iApply wp_map_alloc; [done|]. iIntros (dm ob2 ps2) "_ %Hdu Hdm". wp_st "Hp". wp_ld "Hp". rw !(user_addr_word dm) //.
  wp_bind. iApply (wp_fill_district with "Hdm"). iIntros (dps Ds e1) "(%Hdl & %HPd & %Hs1) Hdt". iApply wp_ret.
  wp_bind. iApply (wp_insert_next (@warehouse_row (strs e1)) _ no_memory s [] [] 1 p (mk_warehouse t (f32_of_int 300000) Ds) with "[Hs] [Hp Hdt]"); [done|done|done| | |].
  - by iApply table_empty.
  - iExists dm, dps. iFrame "Hdt". repeat iExists _. iFrame "Hp". iPureIntro.
    apply halves_both; [by apply loaded_tax_f32|apply f32_of_int_f32].
  - iIntros (b ob3 bs) "_ Ht". iApply wp_ret. iApply ("HΦ" $! _ _ (e1 <| places := bs |>) with "[] Ht"). by iPureIntro.
Qed.

End Load.
