(* ===== verification/TpccStart.v ===== *)
(** * The database that the server starts with

    [fill_neworder] keeps its list in the order of the addresses of the rows, and
    [manager_allocation] ends with a [loaded] database. *)
From Stdlib Require Import String.
From iris.algebra Require Import gmap excl.
From iris.base_logic Require Import base_logic.
From iris.proofmode Require Import proofmode.
From S2P Require Import Prelude Words Wrappers Float Objects RBTree RBOrder SList Store StoreLogic Tables Manager Tpcc TpccRep TpccNew TpccPay TpccRead TpccDeliver TpccCorrect TpccReq TpccLoad.
Local Open Scope Z_scope.

(** ** Parts of the store that do not overlap *)

Lemma row_twice p ob ob' : p ↦ ob ⊢ p ↦ ob' -∗ False.
Proof.
  iIntros "H1 H2". iCombine "H1 H2" as "H". rw /row_at. iDestruct (uPred.ownM_valid with "H") as "%Hv". exfalso.
  destruct Hv as [Hv _]. specialize (Hv p). rw /= lookup_op !lookup_singleton_eq in Hv. done.
Qed.

Lemma row_not_in p ob h : p ↦ ob -∗ rows h -∗ ⌜h !! p = None⌝.
Proof.
  iIntros "Hp Hh". destruct (h !! p) as [ob'|] eqn:Hl; [|done]. iDestruct (big_sepM_lookup with "Hh") as "Hq"; [exact Hl|].
  iDestruct (row_twice with "Hp Hq") as "[]".
Qed.

Lemma rows_insert p ob h : p ↦ ob -∗ rows h -∗ rows (<[p := ob]> h).
Proof.
  iIntros "Hp Hh". iDestruct (row_not_in with "Hp Hh") as %Hn. iApply big_sepM_insert; [done|]. iFrame.
Qed.

Lemma neworder_not_in p n cells ns : neworder_row p n -∗ neworder_rows cells ns -∗ ⌜p ∉ cells.*2⌝.
Proof.
  iIntros "Hp Hr". destruct (decide (p ∈ cells.*2)) as [[i Hi]%list_elem_of_lookup|]; [|done].
  iDestruct (big_sepL2_length with "Hr") as %Hl. destruct (lookup_lt_is_Some_2 ns i) as [m Hm]; [rw -Hl; by eapply lookup_lt_Some|].
  iDestruct (big_sepL2_lookup with "Hr") as "Hq"; [exact Hi|exact Hm|]. iDestruct (row_twice with "Hp Hq") as "[]".
Qed.

(** The objects of a list *)
Lemma chain_in h cs q a : chain h cs q -> a ∈ addr <$> cs -> is_Some (h !! a).
Proof.
  induction cs as [|[[a' d] rest] cs IH]; [by intros _ ?%elem_of_nil|]. intros [Ha Hc] [->|Hin]%elem_of_cons; [by eexists|auto].
Qed.

Lemma list_objects h s cmp cells a : list_at h s cmp cells -> a ∈ s :: cells.*1 -> is_Some (h !! a).
Proof. intros [Hc _ _ _] Ha. eapply chain_in; [exact Hc|]. cbn. by rw addrs_node. Qed.

Section Start.

Context (may : stop -> Prop) (no_memory : may NoMemory).

(** ** The list of new orders *)

Lemma wp_list_insert fuel s ns p n c ob e Φ :
  (length ns < fuel)%nat -> Z.of_nat (length ns) + 1 < 2 ^ 63 -> user_addr p -> user_addr c -> length ob = 2%nat ->
  neworder_list s ns -∗ neworder_row p n -∗ c ↦ ob -∗
  (∀ ns', ⌜ns' ≡ₚ n :: ns⌝ -∗ neworder_list s ns' -∗ Φ 1 e) -∗
  wp may (lift (list_insert compareDataPtrAddresses fuel s p c)) e Φ.
Proof.
  iIntros (Hf Hsz Hp Hc Hob) "(%h & %cmp & %cells & Hh & %Hla & (%Hu & %Hinc) & Hrows) Hrow Hc HΦ".
  iDestruct (row_not_in with "Hc Hh") as %Hnc. iDestruct (neworder_not_in with "Hrow Hrows") as %Hnp.
  iDestruct (big_sepL2_length with "Hrows") as %Hlen. rw length_fmap in Hlen.
  iDestruct (rows_insert with "Hc Hh") as "Hh".
  assert (Hfresh : c ∉ s :: cells.*1).
  { intros Hin. destruct (list_objects _ _ _ _ _ Hla Hin) as [? Hx]. by rw Hnc in Hx. }
  assert (Hla2 : list_at (<[c := ob]> h) s cmp cells).
  { destruct Hla as [Hch Hnd Ha Hd]. constructor; try done. apply chain_store; [exact Hch|]. cbn. by rw addrs_node. }
  assert (Hv : 0 <= p < 2 ^ 63) by (destruct Hp; lia).
  assert (Hcn : new_node (<[c := ob]> h) s cells c).
  { constructor; [destruct Hc; red; lia|done|]. exists ob. by rw lookup_insert_eq. }
  destruct (insert_run compareDataPtrAddresses fuel _ s cmp cells p c Hla2) as (h' & cells' & Hr & Hla' & Hd & _);
    [lia|lia|unfold is_word, word_size; lia|exact Hcn|].
  pose proof (spec_list_set compareDataPtrAddresses (fun k => 0 <= k < 2 ^ 63) (LInsert p c) cells.*2 Hinc Hv) as [Hinc' _].
  assert (Hh : SList.hit compareDataPtrAddresses p cells.*2 = false).
  { destruct (SList.hit _ _ _) eqn:Hh; [|done]. exfalso. apply Hnp.
    by apply (hit_iff compareDataPtrAddresses (fun k => 0 <= k < 2 ^ 63) p cells.*2 Hinc Hv). }
  rw -Hd in Hinc'. cbn [spec_list] in Hr, Hd. rw Hh in Hr, Hd. cbn [fst snd] in Hr, Hd.
  iApply (wp_lift with "Hh"); [exact Hr|]. iIntros "Hh". pose proof (passed_left_over compareDataPtrAddresses p cells.*2) as Hpl.
  rw /neworder_rows -{1}Hpl. iDestruct (big_sepL2_app_inv_l with "Hrows") as (n1 n2 ->) "[H1 H2]".
  iApply ("HΦ" $! (n1 ++ n :: n2)); [iPureIntro; by rw -Permutation_middle|].
  iExists h', cmp, cells'. iFrame "Hh". iSplit; [done|]. iSplit; [iPureIntro; split; [|done]|].
  - rw Hd. rw -Hpl in Hu. apply list.Forall_app in Hu as [Hu1 Hu2]. apply list.Forall_app. split; [done|by constructor].
  - rw Hd. iApply (big_sepL2_app with "H1"). by iFrame.
Qed.

(** The first [i] new orders of the district [d], and those of the first [j] districts *)
Definition district_neworders (d i : Z) : list neworder := (fun o => mk_neworder o d 0) <$> seqZ 2101 i.
Definition loaded_neworders (j : Z) : list neworder := concat ((fun d => district_neworders d 900) <$> seqZ 1 j).

Lemma district_neworders_S d (i : nat) :
  district_neworders d (Z.of_nat (S i)) = district_neworders d (Z.of_nat i) ++ [mk_neworder (2101 + Z.of_nat i) d 0].
Proof. by rw /district_neworders seqZ_S fmap_app. Qed.

Lemma loaded_neworders_S (j : nat) :
  loaded_neworders (Z.of_nat (S j)) = loaded_neworders (Z.of_nat j) ++ district_neworders (1 + Z.of_nat j) 900.
Proof. rw /loaded_neworders seqZ_S fmap_app concat_app. f_equal. Qed.

Lemma district_neworders_length d (i : nat) : length (district_neworders d (Z.of_nat i)) = i.
Proof. rw /district_neworders length_fmap length_seqZ. lia. Qed.

Lemma loaded_neworders_length (j : nat) : Z.of_nat (length (loaded_neworders (Z.of_nat j))) = 900 * Z.of_nat j.
Proof.
  induction j as [|j IH]; [done|]. pose proof (district_neworders_length (1 + Z.of_nat j) (Z.to_nat 900)) as Hd.
  rw Z2Nat.id in Hd; [|done]. rw loaded_neworders_S length_app. lia.
Qed.

(** The rows of [ns0] are there, and [ns]. *)
Definition new_orders (s : Z) (S0 : gmap Z string) (ns : list neworder) (e : env) : sProp :=
  ∃ ns', ⌜ns' ≡ₚ ns /\ S0 ⊆ strs e⌝ ∗ neworder_list s ns'.

Lemma wp_load_neworder fuel s o d S0 ns e Φ :
  (length ns < fuel)%nat -> Z.of_nat (length ns) + 1 < 2 ^ 63 -> 0 <= o < 2 ^ 62 -> 0 <= d < 2 ^ 62 ->
  new_orders s S0 ns e -∗ (∀ e', new_orders s S0 (ns ++ [mk_neworder o d 0]) e' -∗ Φ tt e') -∗
  wp may (let$ neworderPtr := neworder_alloc o d 0 in
          let$ n := malloc 2 in
          do$ lift (list_insert compareDataPtrAddresses fuel s neworderPtr n);
          CRet tt) e Φ.
Proof.
  iIntros (Hf Hsz Ho Hd) "(%ns' & (%Hns & %HS) & Hl) HΦ". destruct (small_word o) as [Hw1 _]; [done|]. destruct (small_word d) as [Hw2 _]; [done|].
  wp_bind. wp_malloc p ob ps Hp Hl Hu "Hp". do 3 wp_st "Hp". iApply wp_ret. rw Hw1 Hw2.
  wp_bind. iApply wp_malloc; [done|]. iIntros (c ob2 ps2) "_ %Hl2 %Hc Hc". apply Permutation_length in Hns as Hlen.
  wp_bind. iApply (wp_list_insert fuel s ns' p (mk_neworder o d 0) with "Hl Hp Hc"); [lia|lia|done..|].
  iIntros (ns2) "%Hp2 Hl". iApply wp_ret. iApply "HΦ". iExists ns2. iFrame. iPureIntro. split; [|done].
  by rw Hp2 Hns Permutation_cons_append.
Qed.

Lemma wp_fill_neworder fuel s e Φ :
  (Z.to_nat 9000 < fuel)%nat -> neworder_list s [] -∗
  (∀ ns e', ⌜ns ≡ₚ loaded_neworders 10 /\ strs e ⊆ strs e'⌝ -∗ neworder_list s ns -∗ Φ 9000 e') -∗
  wp may (fill_neworder fuel s) e Φ.
Proof.
  iIntros (Hf) "Hl HΦ". wp_bind.
  iApply (wp_for_to may 1 10 tt _ (fun j _ e' => new_orders s (strs e) (loaded_neworders (Z.of_nat j)) e') with "[Hl]"); [lia| | |].
  - iExists []. by iFrame.
  - iIntros "!>" (j [] e1) "%Hj HI". pose proof (loaded_neworders_length j) as Hlj.
    iApply (wp_for_to may 2101 3000 tt _ (fun i _ e' => new_orders s (strs e) (loaded_neworders (Z.of_nat j) ++ district_neworders (1 + Z.of_nat j) (Z.of_nat i)) e') with "[HI]"); [lia| | |].
    + by rw app_nil_r.
    + iIntros "!>" (i [] e2) "%Hi HI". pose proof (district_neworders_length (1 + Z.of_nat j) i) as Hli.
      iApply (wp_load_neworder with "HI"); [rw length_app; lia|rw length_app; lia|lia|lia|]. iIntros (e') "HI".
      by rw district_neworders_S app_assoc.
    + iIntros ([] e') "HI". rw loaded_neworders_S. by replace (Z.of_nat (Z.to_nat (3000 - 2101 + 1))) with 900 by lia.
  - iIntros ([] e') "(%ns & (%Hns & %HS) & Hl)". iDestruct "Hl" as (h cmp cells) "(Hh & %Hla & H & Hrows)".
    iDestruct (big_sepL2_length with "Hrows") as %Hlen. rw length_fmap in Hlen.
    iApply (wp_lift with "Hh").
    { pose proof (la_chain _ _ _ _ Hla) as [Hs _]. rw /list_getSize /= Hs. reflexivity. }
    pose proof (Permutation_length Hns) as Hl2. pose proof (loaded_neworders_length (Z.to_nat (10 - 1 + 1))) as Hl3.
    iIntros "Hh". replace (Z.of_nat (length cells)) with 9000 by lia. iApply ("HΦ" $! ns); [by iPureIntro|]. iExists _, _, _. by iFrame.
Qed.

(** ** The other tables *)

Lemma wp_fill_history s e Φ :
  s ⤇ ∅ -∗ (∀ v e', ⌜strs e' = strs e⌝ -∗ Φ v e') -∗ wp may (fill_history s) e Φ.
Proof.
  iIntros "Hs HΦ". wp_bind. iApply wp_time.
  iApply (wp_for_to may 1 10 1 _ (fun j k e' => ⌜k = (1 + 3000 * Z.of_nat j)%Z /\ strs e' = strs e⌝ ∗ ∃ M, s ⤇ M)%I with "[Hs]"); [lia| | |].
  - iSplit; [done|]. by iExists ∅.
  - iIntros "!>" (j k e1) "%Hj (%Hk & %M & Hs)".
    iApply (wp_for_to may 1 3000 k _ (fun i k' e' => ⌜k' = (k + Z.of_nat i)%Z /\ strs e' = strs e⌝ ∗ ∃ M, s ⤇ M)%I with "[Hs]"); [lia| | |].
    + iSplit; [iPureIntro; split; [lia|apply Hk]|]. by iExists M.
    + iIntros "!>" (i k' e2) "%Hi ((-> & %Hs2) & %M' & Hs)". wp_bind. wp_malloc p ob ps Hp Hl Hu "Hp". do 4 wp_st "Hp". wp_stf "Hp". iApply wp_ret.
      destruct (small_word (k + Z.of_nat i + 1)) as [Hw Hok]; [lia|].
      wp_bind. iApply (wp_map_insert with "Hs"); [done|by rw Hw|]. iIntros (b ob2 bs) "_ Hs". iApply wp_ret.
      iSplit; [iPureIntro; split; [lia|done]|]. by iExists _.
    + iIntros (k' e2) "((-> & %Hs2) & HM)". iFrame. iPureIntro. split; [lia|done].
  - iIntros (k e') "((-> & %Hs2) & _)". by iApply "HΦ".
Qed.

Lemma wp_listAlloc cmp e Φ :
  is_word cmp -> (∀ s e', ⌜user_addr s /\ strs e' = strs e⌝ -∗ neworder_list s [] -∗ Φ s e') -∗ wp may (listAlloc cmp) e Φ.
Proof.
  iIntros (Hc) "HΦ". wp_bind. iApply wp_malloc; [done|]. iIntros (s ob ps) "_ %Hl %Hu Hs".
  destruct (alloc_run {[s := ob]} s cmp ob) as (h' & Hr & Hla & _); [destruct Hu; red; lia|done|apply lookup_singleton_eq|done|].
  iApply (wp_lift with "[Hs]"); [exact Hr|by iApply big_sepM_singleton|]. iIntros "Hh".
  iApply ("HΦ" $! s); [by iPureIntro|]. iExists h', cmp, []. iFrame "Hh". iSplit; [done|]. iSplit; [|done].
  iPureIntro. split; [constructor|]. split; constructor.
Qed.

(** ** The database *)

Record loaded (b : database) : Prop := {
  ld_warehouse : exists W, warehouses b = [W] /\ loaded_warehouse W;
  ld_items : Z.of_nat (length (items b)) = 100000;
  ld_stocks : Z.of_nat (length (stocks b)) = 100000 /\ Forall loaded_stock (stocks b);
  ld_neworders : neworders b ≡ₚ loaded_neworders 10 }.

Lemma tables_strings (S S' : gmap Z string) wm ps Ws :
  S ⊆ S' -> table (@warehouse_row S) wm ps Ws ⊢ table (@warehouse_row S') wm ps Ws.
Proof.
  intros HS. apply table_mono. intros k p W. iIntros "(%dm & %ds & Hh & Hd)". iExists dm, ds. iFrame "Hh".
  iApply (table_mono with "Hd"). intros. by apply district_strings.
Qed.

Lemma wp_manager_allocation fuel l e Φ :
  (Z.to_nat 9000 < fuel)%nat -> is_word (l_compare l) ->
  (∀ m b e', ⌜loaded b /\ strs e ⊆ strs e'⌝ -∗ @database_at (strs e') m b -∗ Φ m e') -∗
  wp may (manager_allocation fuel l) e Φ.
Proof.
  iIntros (Hf Hc) "HΦ". wp_malloc m ob ps Hp Hl Hu "Hm".
  wp_bind. iApply wp_malloc; [done|]. iIntros (r rb ps1) "_ _ _ _". wp_st "Hm".
  wp_bind. iApply wp_map_alloc; [done|]. iIntros (wm ob2 ps2) "_ %Hwu Hw". wp_st "Hm". wp_ld "Hm". rw !(user_addr_word wm) //.
  wp_bind. iApply (wp_fill_warehouse with "Hw"); [done|]. iIntros (wps W e1) "(%HW & %Hs1) Hwt".
  wp_bind. iApply wp_map_alloc; [done|]. iIntros (hm ob3 ps3) "_ %Hhu Hh". wp_st "Hm". wp_ld "Hm". rw !(user_addr_word hm) //.
  wp_bind. iApply (wp_fill_history with "Hh"). iIntros (key e2) "%Hs2". wp_st "Hm".
  wp_bind. iApply wp_map_alloc; [done|]. iIntros (im ob4 ps4) "_ %Hiu Hi". wp_st "Hm". wp_ld "Hm". rw !(user_addr_word im) //.
  wp_bind. iApply (wp_fill_item with "Hi"); [done|]. iIntros (its prices e3) "(%Hil & %Hs3) Hit".
  wp_bind. iApply wp_listAlloc; [done|]. iIntros (nm e4) "(%Hnu & %Hs4) Hn". wp_st "Hm". wp_ld "Hm". rw !(user_addr_word nm) //.
  wp_bind. iApply (wp_fill_neworder with "Hn"); [done|]. iIntros (ns e5) "(%Hns & %Hs5) Hn".
  wp_bind. iApply wp_map_alloc; [done|]. iIntros (sm ob6 ps6) "_ %Hsu Hs". wp_st "Hm". wp_ld "Hm". rw !(user_addr_word sm) //.
  wp_bind. iApply (wp_fill_stock with "Hs"); [done|]. iIntros (ss sts e6) "(%Hsl & %HPs & %Hs6) Hst".
  destruct fuel as [|fuel]; [lia|]. wp_bind. cbn [checkConsistency checkConsistency1 checkConsistency_loop].
  wp_ld "Hm". wp_bind. iApply (wp_find_none with "Hwt"); [done..|]. iIntros "Hwt". iApply wp_ret. iApply wp_ret.
  set (b := mk_database [W] prices sts ns).
  assert (HS : strs e1 ⊆ strs e6).
  { rw Hs2 in Hs3 *. etrans; [exact Hs3|]. rw -Hs4. by etrans. }
  iApply ("HΦ" $! m b e6).
  { iPureIntro. split; [constructor; [by exists W|done..]|]. by etrans. }
  iDestruct (tables_strings _ (strs e6) with "Hwt") as "Hwt"; [exact HS|]. iExists wm, wps. iFrame "Hwt".
  do 13 iExists _. iFrame.
Qed.

End Start.

(** ** What it allows *)

(** [i]: no line of an order has the item 100000, at which the arrays of stock level
    end. *)
Definition lines_below (b : database) : Prop :=
  forall w d W D o l, find_district b w d = Some (W, D) -> o ∈ d_orders D -> l ∈ o_lines o -> l_i_id l < 100000.

Lemma loaded_find b w d W D :
  loaded b -> find_district b w d = Some (W, D) -> w = 1 /\ loaded_district D.
Proof.
  intros Hl Hf. destruct (ld_warehouse _ Hl) as (W' & HW & _ & HD & _). unfold find_district in Hf. rw HW in Hf.
  destruct (at_key [W'] w) as [W2|] eqn:Hw; [|done]. apply at_key_spec in Hw as (i & -> & Hi).
  apply list_lookup_singleton_Some in Hi as [-> <-]. destruct (at_key (w_districts W') d) as [D'|] eqn:Hd; [|done]. injection Hf as <- <-.
  split; [done|]. apply at_key_spec in Hd as (j & _ & Hj). by eapply Forall_lookup_1.
Qed.

Lemma loaded_neworder_in n : n ∈ loaded_neworders 10 -> no_w_id n = 0 /\ 1 <= no_d_id n <= 10 /\ 2101 <= no_o_id n <= 3000.
Proof.
  unfold loaded_neworders. intros Hn. apply list_elem_of_In, in_concat in Hn as (l & Hl & Hn). apply list_elem_of_In in Hl, Hn.
  apply list_elem_of_fmap in Hl as (d & -> & Hd). apply list_elem_of_fmap in Hn as (o & -> & Ho).
  apply elem_of_seqZ in Hd, Ho. simpl. lia.
Qed.

Lemma loaded_sound fuel n b :
  loaded b -> lines_below b -> (Z.to_nat 18025 < fuel)%nat -> Z.of_nat n < 2 ^ 61 -> sound fuel n b.
Proof.
  intros Hl Hb Hf Hn. constructor.
  - intros w d W D HD. destruct (loaded_find _ _ _ _ _ Hl HD) as [_ ((_ & Ho & _) & _)]. lia.
  - intros w d W D HD. destruct (loaded_find _ _ _ _ _ Hl HD) as [_ ((_ & Ho & _ & s & Hs & HPo & _) & _)].
    apply list.Forall_forall. intros o Ho2. pose proof Ho2 as [j Hj]%list_elem_of_lookup. destruct (HPo _ _ Hj) as (Hc & Hlen & HPl).
    pose proof (Z.mod_pos_bound (s + Z.of_nat j) 3000) as Hm. split; [lia|]. split; [rw Hc; unfold key_ok; lia|].
    apply list.Forall_forall. intros l Hll. pose proof (proj1 (list.Forall_forall _ _) HPl l Hll) as [Hi _].
    pose proof (Hb _ _ _ _ _ _ HD Ho2 Hll). destruct (ld_stocks _ Hl) as [Hs2 _]. split; [lia|]. apply at_key_some. lia.
  - intros r w d Hr Hdue [W HW]. exfalso. rw (ld_neworders _ Hl) in Hr. apply loaded_neworder_in in Hr as (Hw & _).
    unfold due in Hdue. apply andb_prop in Hdue as [_ Hdue]. rw Hw in Hdue. apply Z.eqb_eq in Hdue. subst w. done.
  - pose proof (Permutation_length (ld_neworders _ Hl)) as Hlen. pose proof (loaded_neworders_length 10) as Hl2. change (Z.of_nat 10) with 10 in Hl2. lia.
Qed.

(** C24. From any store, manager_allocation ends with the address of a manager whose
    tables hold a loaded database, unless malloc fails: one warehouse with 10
    districts, each with 3000 customers, who have names of the table of syllables,
    and 3000 orders of 5 to 14 lines, one of each customer, who knows it; 100000 items
    and stocks; and the 9000 new orders, which are of the warehouse 0.  When no line
    has the item 100000 the database satisfies the invariant under which every request
    is defined and ends, for 2^61 requests. *)
Theorem manager_allocation_correct fuel l x :
  (Z.to_nat 18025 < fuel)%nat -> is_word (l_compare l) ->
  run_ends (fun s => s = NoMemory)
    (fun m x' => exists b, holds (@database_at (strs (ev x')) m b) x' /\ loaded b /\
       (lines_below b -> forall n, Z.of_nat n < 2 ^ 61 -> sound fuel n b))
    (run (manager_allocation fuel l) x).
Proof.
  intros Hf Hc. eapply run_ends_mono; [|eapply (wp_sound _ _ True%I
    (fun m e' => ∃ b, ⌜loaded b⌝ ∗ @database_at (strs e') m b)%I)].
  - intros m x' [b Hb]%holds_exist. apply holds_pure_sep in Hb as [Hl Hb]. exists b. split; [done|]. split; [done|].
    intros Hlow n Hn. by apply loaded_sound.
  - rw /holds; uPred.unseal; done.
  - iIntros "_". iApply wp_manager_allocation; [done|lia|done|]. iIntros (m b e') "(%Hl & _) Hdb". iExists b. by iFrame.
Qed.


Definition demo_linked : linked := mk_linked 64 128 256 512.
Definition empty_store (places : list (Z * list Z)) (draws : nat -> Z) : db := mk_db ∅ ∅ (mk_env places draws (fun _ => 0) ∅).

Lemma manager_allocation_correct_witness :
  (Z.to_nat 18025 < Z.to_nat 20000)%nat /\ is_word 512 /\
  run_ends (fun s => s = NoMemory)
    (fun m x' => exists b, holds (@database_at (strs (ev x')) m b) x' /\ loaded b /\
       (lines_below b -> forall n, Z.of_nat n < 2 ^ 61 -> sound (Z.to_nat 20000) n b))
    (run (manager_allocation (Z.to_nat 20000) demo_linked) (empty_store [(4096, repeat 7 12)] (fun n => Z.of_nat n))).
Proof.
  split; [lia|]. split; [done|].
  apply (manager_allocation_correct (Z.to_nat 20000) demo_linked (empty_store [(4096, repeat 7 12)] (fun n => Z.of_nat n))); [lia|done].
Defined.
