(* ===== verification/TpccTx.v ===== *)
(** * The server's transactions run concurrently

    The threads of the server run requests on one database, as transactions of the
    library.  Every request keeps the invariant of the database ([sound]) and what the
    other requests need, so an execution of any number of threads has the results of
    whole requests that take effect one after the other. *)
From Stdlib Require Import String.
From S2P Require Import Prelude Words LockWord Machine Tx Ctl CtlHist CtlInv CtlStep CtlLogic CtlAssert CtlExtend CtlBody CtlCommit CtlRun CtlCorrect Serial Wrappers Float Objects RBTree SList Store StoreLogic StoreTx Tables Manager Tpcc TpccRep TpccNew TpccRead TpccDeliver TpccReq.

(** ** How the database changes *)

(** What no request changes, and what only grows or shrinks *)
Record evolves (b b' : database) : Prop := {
  ev_items : items b' = items b;
  ev_stocks : length (stocks b') = length (stocks b);
  ev_warehouses w : is_Some (at_key (warehouses b') w) <-> is_Some (at_key (warehouses b) w);
  ev_districts w d : is_Some (find_district b w d) -> is_Some (find_district b' w d);
  ev_district w d W' D' : find_district b' w d = Some (W', D') ->
    exists W D, find_district b w d = Some (W, D) /\ c_last <$> d_customers D' = c_last <$> d_customers D /\
      (length (d_orders D) <= length (d_orders D') <= S (length (d_orders D)))%nat;
  ev_new : neworders b' `sublist_of` neworders b }.

Lemma evolves_refl b : evolves b b.
Proof. split; try done. intros w d W D HD. exists W, D. split_and!; try done; lia. Qed.

Lemma good_item_length ss ss' i : length ss' = length ss -> good_item ss i -> good_item ss' i.
Proof. intros Hl [Hi Hs]. split; [done|]. apply at_key_some in Hs. apply at_key_some. by rewrite Hl. Qed.

Lemma order_ok_length ss ss' o : length ss' = length ss -> order_ok ss o -> order_ok ss' o.
Proof.
  intros Hl (H1 & H2 & H3). split_and!; [done|done|]. eapply list.Forall_impl; [exact H3|]. intros l. by apply good_item_length.
Qed.

(** A district with a row that changes *)
Lemma find_set b w d W D W' D' w2 d2 :
  find_district b w d = Some (W, D) -> w_districts W' = w_districts W ->
  (is_Some (find_district b w2 d2) -> is_Some (find_district (set_district b w d W' D') w2 d2)) /\
  (forall W2 D2, find_district (set_district b w d W' D') w2 d2 = Some (W2, D2) ->
     w2 = w /\ d2 = d /\ D2 = D' \/ exists W3, find_district b w2 d2 = Some (W3, D2)) /\
  (is_Some (at_key (warehouses (set_district b w d W' D')) w2) <-> is_Some (at_key (warehouses b) w2)).
Proof.
  intros HD HW'. unfold find_district in *. destruct (at_key (warehouses b) w) as [W0|] eqn:HW; [|done].
  destruct (at_key (w_districts W0) d) as [D0|] eqn:HD0; [|done]. injection HD as -> ->. cbn.
  rewrite HW', (at_key_set _ _ _ _ _ HW). destruct (decide (w2 = w)) as [->|Hne].
  - rewrite HW. cbn. rewrite (at_key_set _ _ _ _ _ HD0). destruct (decide (d2 = d)) as [->|Hd].
    + rewrite HD0. split_and!; [done| |done]. intros W2 D2 [= _ <-]. by left.
    + destruct (at_key (w_districts W) d2) as [D3|]; split_and!; try done; intros W2 D2 [= _ <-]. right. by exists W.
  - split_and!; [done| |done]. intros W2 D2 H2. right. by exists W2.
Qed.

(** A change of one district, of stocks and of the list of new orders *)
Lemma evolves_set fuel n b w d W D W' D' b' :
  sound fuel (S n) b -> find_district b w d = Some (W, D) -> w_districts W' = w_districts W ->
  warehouses b' = warehouses (set_district b w d W' D') -> items b' = items b -> length (stocks b') = length (stocks b) ->
  neworders b' `sublist_of` neworders b ->
  c_last <$> d_customers D' = c_last <$> d_customers D ->
  (length (d_orders D) <= length (d_orders D') <= S (length (d_orders D)))%nat ->
  Forall (order_ok (stocks b')) (d_orders D') ->
  sound fuel n b' /\ evolves b b'.
Proof.
  intros [Hs Ho Hn Hf] HD HW' Hw Hi Hst Hnew Hc Hl Hok.
  assert (Hfind : forall w2 d2, find_district b' w2 d2 = find_district (set_district b w d W' D') w2 d2).
  { intros. unfold find_district. by rewrite Hw. }
  assert (Hev : evolves b b').
  { split; [done|done| | | |done].
    - intros w2. rewrite Hw. apply (find_set b w d W D W' D' w2 d HD HW').
    - intros w2 d2. rewrite Hfind. apply (find_set b w d W D W' D' w2 d2 HD HW').
    - intros w2 d2 W2 D2. rewrite Hfind. intros [(-> & -> & ->)|[W3 H3]]%(find_set b w d W D W' D' w2 d2 HD HW').
      + by exists W, D.
      + exists W3, D2. split_and!; try done; lia. }
  split; [|done]. constructor.
  - intros w2 d2 W2 D2 (W3 & D3 & H3 & _ & Hl3)%(ev_district _ _ Hev). specialize (Hs _ _ _ _ H3). lia.
  - intros w2 d2 W2 D2. rewrite Hfind. intros [(-> & -> & ->)|[W3 H3]]%(find_set b w d W D W' D' w2 d2 HD HW'); [done|].
    eapply list.Forall_impl; [by eapply Ho|]. intros o. by apply order_ok_length.
  - intros r w2 d2 Hr Hdue Hw2. assert (Hr2 : r ∈ neworders b) by (eapply sublist_subseteq; [exact Hnew|done]).
    destruct (Hn r w2 d2 Hr2 Hdue) as [H1 H2]; [by apply (ev_warehouses _ _ Hev)|]. split; [|done]. by apply (ev_districts _ _ Hev).
  - apply sublist_length in Hnew. lia.
Qed.

(** No change *)
Lemma sound_less fuel n b : sound fuel (S n) b -> sound fuel n b.
Proof.
  intros [Hs Ho Hn Hf]. constructor; [|done..]. intros w d W D HD. specialize (Hs _ _ _ _ HD). lia.
Qed.

Lemma fmap_set_key {A B} (f : A -> B) l k r r' : at_key l k = Some r -> f r' = f r -> f <$> set_key l k r' = f <$> l.
Proof.
  intros Hr Hf. destruct (at_key_spec _ _ _ Hr) as (i & -> & Hi). rewrite set_key_nth, list_fmap_insert, Hf.
  apply list_insert_id. by rewrite list_lookup_fmap, Hi.
Qed.

Lemma find_customer_district b w d c W D C :
  find_customer b w d c = Some (W, D, C) -> find_district b w d = Some (W, D) /\ at_key (d_customers D) c = Some C.
Proof.
  unfold find_customer. destruct (find_district b w d) as [[W0 D0]|]; [|done].
  destruct (at_key (d_customers D0) c) as [C0|] eqn:HC; [|done]. intros [= -> -> ->]. by split.
Qed.

Lemma neworder_step fuel n b r sec w d c :
  sound fuel (S n) b -> key_ok c = true ->
  (forall i, (i < Z.to_nat (line_count r))%nat -> line_item r i < 100000 /\ line_item r i <= Z.of_nat (length (stocks b))) ->
  let b' := (spec_neworder r sec w d c b).2 in sound fuel n b' /\ evolves b b'.
Proof.
  intros Hs Hc Hit. unfold spec_neworder. destruct (find_customer b w d c) as [[[W D] C]|] eqn:Hf.
  2: { split; [by apply sound_less|apply evolves_refl]. }
  apply find_customer_district in Hf as [Hf HC]. cbn [snd].
  eapply (evolves_set fuel n b w d W D W); [done|done|done|reflexivity|done| |done| | |]; cbn.
  - apply take_lines_length.
  - by apply (fmap_set_key c_last _ _ _ _ HC).
  - rewrite length_app. cbn. lia.
  - apply Forall_app. split.
    + eapply list.Forall_impl; [by eapply sd_orders|]. intros o. apply order_ok_length. apply take_lines_length.
    + apply list.Forall_cons. split; [|constructor]. pose proof (Z.mod_pos_bound (r 0%nat) 10). split_and!; cbn.
      * unfold new_lines. rewrite length_fmap, length_seq. unfold line_count. lia.
      * done.
      * unfold new_lines. apply list.Forall_fmap, list.Forall_forall. intros i Hi%elem_of_seq. cbn.
        destruct (Hit i) as [H1 H2]; [lia|]. pose proof (line_item_range r i). split; [lia|].
        apply at_key_some. rewrite take_lines_length. lia.
Qed.

Lemma payment_step fuel n b r w d c amount v b' :
  sound fuel (S n) b -> spec_payment r w d c amount b = Some (v, b') -> sound fuel n b' /\ evolves b b'.
Proof.
  intros Hs. unfold spec_payment. destruct (find_district b w d) as [[W D]|] eqn:Hf.
  2: { intros [= _ <-]. split; [by apply sound_less|apply evolves_refl]. }
  destruct (payment_key r c D) as [k|]; [|done]. destruct (at_key (d_customers D) k) as [C|] eqn:HC; [|done].
  intros [= _ <-]. eapply (evolves_set fuel n b w d W D); [done|done| |reflexivity|done|done|done| | |]; cbn; [done| |lia|].
  - by apply (fmap_set_key c_last _ _ _ _ HC).
  - by eapply sd_orders.
Qed.

Lemma deliver_order_ok ss ts carrier o :
  order_ok ss o -> order_ok ss (o <| o_carrier := w64 carrier |> <| o_lines := deliver_lines_at ts (o_lines o) |>).
Proof.
  intros (H1 & H2 & H3). split_and!; cbn; [by unfold deliver_lines_at; rewrite length_imap|done|]. apply list.Forall_lookup. intros i l Hl.
  unfold deliver_lines_at in Hl. rewrite list_lookup_imap in Hl. apply fmap_Some in Hl as (l0 & Hl0 & ->). cbn.
  by eapply (Forall_lookup_1 _ _ _ _ H3).
Qed.

Lemma delivery_step fuel n b ts w d carrier :
  sound fuel (S n) b -> let b' := (spec_delivery ts w d carrier b).1 in sound fuel n b' /\ evolves b b'.
Proof.
  intros Hs. unfold spec_delivery. destruct (find_due w d (neworders b)) as [[i r]|] eqn:Hdue.
  2: { split; [by apply sound_less|apply evolves_refl]. }
  assert (Hsub : delete i (neworders b) `sublist_of` neworders b) by apply sublist_delete.
  assert (Hsame : sound fuel n (b <| neworders := delete i (neworders b) |>) /\ evolves b (b <| neworders := delete i (neworders b) |>)).
  { split.
    - destruct Hs as [H1 H2 H3 H4]. constructor; [intros w2 d2 W D HD; specialize (H1 w2 d2 W D HD); lia|done| |].
      + intros r2 w2 d2 Hr. apply (H3 r2 w2 d2). by eapply sublist_subseteq.
      + apply sublist_length in Hsub. cbn. lia.
    - split; [done|done|done|done| |done]. intros w2 d2 W D HD. exists W, D. split_and!; try done; lia. }
  destruct (find_district b w d) as [[W D]|] eqn:HD; [|exact Hsame].
  destruct (at_key (d_orders D) (no_o_id r)) as [o|] eqn:Ho; [|exact Hsame]. cbn [fst].
  assert (Hor : Forall (order_ok (stocks b)) (d_orders D)) by (by eapply sd_orders).
  destruct (at_key_spec _ _ _ Ho) as (k & Hk & Hko).
  assert (Hset : Forall (order_ok (stocks b)) (set_key (d_orders D) (no_o_id r)
    (o <| o_carrier := w64 carrier |> <| o_lines := deliver_lines_at ts (o_lines o) |>))).
  { rewrite Hk, set_key_nth. apply Forall_insert; [done|]. apply deliver_order_ok. by eapply (Forall_lookup_1 _ _ _ _ Hor). }
  eapply (evolves_set fuel n b w d W D W (deliver ts carrier (no_o_id r) o D)); [done|done|done|reflexivity|done|done|done| | |];
    unfold deliver; cbn; destruct (at_key (d_customers D) (o_c_id o)) as [C|] eqn:HC; cbn; try done.
  - by apply (fmap_set_key c_last _ _ _ _ HC).
  - unfold set_key. rewrite length_insert. lia.
  - unfold set_key. rewrite length_insert. lia.
Qed.

(** Every request keeps the invariant. *)
Lemma request_step fuel n b a v b' :
  sound fuel (S n) b -> request_ok b a -> spec_request a b = Some (v, b') -> sound fuel n b' /\ evolves b b'.
Proof.
  intros Hs. unfold request_ok, spec_request. destruct (rq_tx a) as [w d c|w d c amount|w d c result0|w d t|w d carrier].
  - intros (_ & _ & Hc & Hit) Hr. injection Hr as Hr.
    pose proof (neworder_step fuel n b (rq_draws a) (rq_times a O) (w64 w) (w64 d) (w64 c) Hs Hc) as Hn. rewrite Hr in Hn.
    apply Hn. intros i Hi. destruct (Hit i Hi) as (H1 & _ & H2). by split.
  - intros _. by apply payment_step.
  - intros _ [= _ <-]. split; [by apply sound_less|apply evolves_refl].
  - intros _ [= _ <-]. split; [by apply sound_less|apply evolves_refl].
  - intros _. destruct (at_key (warehouses b) w); intros [= _ <-].
    + by apply delivery_step.
    + split; [by apply sound_less|apply evolves_refl].
Qed.

(** And what the others need *)
Lemma find_name_last n k name cs cs' : c_last <$> cs = c_last <$> cs' -> find_name n k name cs = find_name n k name cs'.
Proof.
  revert k cs cs'. induction n as [|n IH]; intros k cs cs' Hc; [done|]. destruct cs as [|c cs], cs' as [|c' cs']; cbn in Hc; try done.
  injection Hc as Hc Hcs. cbn. rewrite Hc. destruct (same_name name (c_last c')); [done|]. by apply IH.
Qed.

Lemma request_ok_step b b' a : evolves b b' -> request_ok b a -> request_ok b' a.
Proof.
  intros [Hi Hst _ _ Hd _]. unfold request_ok. destruct (rq_tx a) as [w d c|w d c amount|w d c result0|w d t|w d carrier]; [| |done| |done].
  - by rewrite Hi, Hst.
  - intros (H1 & H2 & H3 & Hn). split_and!; try done. intros -> W' D' (W & D & HD & Hc & _)%Hd.
    destruct (Hn eq_refl W D HD) as [Hl|Hk]; [left|right].
    + rewrite <- (length_fmap c_last), Hc, length_fmap. done.
    + unfold payment_key in *. cbn [Z.eqb] in *. by rewrite (find_name_last _ _ _ _ _ Hc).
  - intros (H1 & H2 & H3). split_and!; try done. intros W' D' (W & D & HD & _ & Hl)%Hd. specialize (H3 W D HD). lia.
Qed.

(** ** The requests as transactions *)

Section Serve.

Context {names : known} (fuel : nat) (m : Z).

Definition request_body (a : request) : txbody := code_tx (code_of fuel m (rq_tx a)) (env_of a).

Definition blocks_of (rest : list request) : list (Z * list Z) := concat (rq_places <$> rest).

(** The memory holds the database: its rows, and every table as a red-black tree;
    and the blocks [F], apart from all of that. *)
Definition in_memory (F : list (Z * list Z)) (b : database) (me : mem) : Prop :=
  exists x own h, StoreLogic.holds (database_at m b) x /\ strs (ev x) = known_strings /\ places (ev x) = [] /\
    stored F x own h /\ layout h /\ Objects.holds h me /\ is_mem me.

(** And the requests [rest] can run on it. *)
Definition serves (rest : list request) (b : database) (me : mem) : Prop :=
  in_memory (blocks_of rest) b me /\ sound fuel (length rest) b /\ Forall (request_ok b) rest.

Lemma blocks_perm rest rest' : rest ≡ₚ rest' -> blocks_of rest ≡ₚ blocks_of rest'.
Proof.
  unfold blocks_of. induction 1 as [|a l l' _ IH|a a' l|l l' l'' _ IH1 _ IH2]; cbn; [done|by rewrite IH| |by rewrite IH1].
  rewrite !app_assoc. f_equiv. apply Permutation_app_comm.
Qed.

Lemma stored_known F x own h a : stored F x own h -> a ∈ F.*1 -> strs (ev x) !! a = None.
Proof.
  intros Hst ([b ob] & -> & Hin)%list_elem_of_fmap. apply (so_blocks _ _ _ _ Hst b ob). apply elem_of_app. by right.
Qed.

#[export] Instance requests_represented : Represented request_body spec_request serves.
Proof.
  split.
  - intros rest b me [(x & own & h & _ & _ & _ & _ & _ & _ & Hm) _]. exact Hm.
  - intros rest rest' b me Hp [(x & own & h & Hh & Hk & Hpl & Hst & H) [Hs Hf]]. split_and!.
    + exists x, own, h. split_and!; try done; try apply H. by eapply stored_perm; [apply blocks_perm|].
    + by rewrite <- (Permutation_length Hp).
    + by rewrite <- Hp.
  - intros a rest b me r me' [(x & own & h & Hh & Hk & Hpl & Hst & Hl & Hho & Hm) [Hs Hf]] Hb.
    apply list.Forall_cons in Hf as [Ha Hf]. change (blocks_of (a :: rest)) with (rq_places a ++ blocks_of rest)%list in Hst.
    assert (Hnone : forall p, p ∈ (blocks_of rest).*1 -> known_strings !! p = None).
    { intros p Hp. rewrite <- Hk. eapply stored_known; [exact Hst|]. rewrite fmap_app. apply elem_of_app. by right. }
    pose proof (stored_lend (rq_places a) (blocks_of rest) x own h (env_of a) Hpl Hst eq_refl (eq_sym Hk)) as Hst1.
    set (x1 := x <| ev := env_of a |>) in *. assert (He : ev x1 = env_of a) by done. assert (Hh1 : StoreLogic.holds (database_at m b) x1) by exact Hh.
    clearbody x1. pose proof (request_correct fuel _ m b a x1 Hh1 He Hs Ha) as Hrun.
    destruct (code_tx_run (blocks_of rest) (code_of fuel m (rq_tx a)) x1 own h me r me' Hst1 Hl Hho Hm)
      as (x' & own' & h' & Hr & Hst' & Hl' & Hho' & Hm').
    { intros Hr. rewrite Hr in Hrun. destruct Hrun as [H|H]; discriminate H. }
    { intros Hr. rewrite Hr in Hrun. destruct Hrun as [H|H]; discriminate H. }
    { rewrite He. exact Hb. }
    rewrite Hr in Hrun. destruct Hrun as (b' & Hspec & Hh'). exists b'. split; [done|].
    destruct (request_step fuel _ b a r b' Hs Ha Hspec) as [Hs' Hev]. split_and!.
    + exists (x' <| ev := mk_env [] (draws (ev x')) (times (ev x')) known_strings |>), own', h'. split_and!; try done.
      by apply stored_return.
    + done.
    + eapply list.Forall_impl; [exact Hf|]. intros a'. by apply request_ok_step.
Qed.

(** C2. The transactions of the server are linearizable: any number of threads run
    requests on one database, each as a transaction of the library.  When all have
    ended, whatever the interleaving of their steps, there is an order of all the
    requests, which keeps the order of each thread, such that every thread got the
    results that the requests have, on the abstract database and one after the other
    in that order, and the memory holds the database that they leave. *)
Theorem requests_linearizable C fuelC (reqs : list (list (option stm_tx_attr * request))) ext_step s0 s ts b :
  let progs := req_program request_body <$> reqs in
  setup C progs ext_step s0 -> reachable C fuelC progs ext_step s0 s ts -> all_done ts ->
  serves (concat reqs).*2 b (words s0) ->
  exists results sched b',
    Forall2 (fun rs vs => length rs = length vs) reqs results /\
    (forall i vs, results !! i = Some vs -> exists tx, ts !! i = Some (Ret (Ok (Some <$> vs), tx))) /\
    interleaving (zip_with (fun rs vs => zip rs.*2 vs) reqs results) sched /\
    steps spec_request sched.*2 b = Some b' /\ in_memory [] b' (words s).
Proof.
  intros progs Hsu Hr Hd Hs.
  destruct (serial_requests request_body spec_request serves C fuelC reqs ext_step s0 s ts b Hsu Hr Hd Hs)
    as (results & sched & b' & Hlens & Hres & Hi & Hst & [Hm _]).
  by exists results, sched, b'.
Qed.

End Serve.
