(* ===== verification/TpccDemo.v ===== *)
(** * A small database

    One warehouse with one district, one customer and one order of one line; the
    theorems of TpccCorrect.v apply to it, and the transactions run. *)
From Stdlib Require Import String.
From iris.algebra Require Import gmap excl.
From iris.base_logic Require Import base_logic.
From iris.proofmode Require Import proofmode.
From S2P Require Import Prelude Words Wrappers Float Objects RBTree RBOrder SList Store StoreLogic Tables Manager Tpcc TpccRep TpccNew TpccRead TpccDeliver TpccCorrect.
Local Open Scope Z_scope.

(** ** A whole store as an assertion *)

Lemma ex_all {V} (m : gmap Z V) (F : exmap V -> sProp) (G : Z -> V -> sProp) :
  (forall p v g, F ({[p := Excl v]} ⋅ g) ⊢ G p v ∗ F g) -> (forall g g', g ≡ g' -> F g ⊢ F g') ->
  F (ex m) ⊢ [∗ map] p ↦ v ∈ m, G p v.
Proof.
  intros HF Hp. induction m as [|p v m Hn IH] using map_ind; [rw big_sepM_empty; iIntros "_"; done|].
  rw big_sepM_insert // -IH -HF. apply Hp. apply exmap_insert; [done|]. by rw /ex lookup_fmap Hn.
Qed.

Lemma rows_all (m : gmap Z (list Z)) : uPred_ownM ((ex m, ε) : storeUR) ⊢ [∗ map] p ↦ ob ∈ m, p ↦ ob.
Proof.
  apply (ex_all m (fun g => uPred_ownM ((g, ε) : storeUR))); last by intros g g' Hg; rw Hg.
  intros p v g. by rw -uPred.ownM_op.
Qed.

Lemma maps_all (m : gmap Z (gmap Z Z)) : uPred_ownM ((ε, ex m) : storeUR) ⊢ [∗ map] p ↦ M ∈ m, p ⤇ M.
Proof.
  apply (ex_all m (fun g => uPred_ownM ((ε, g) : storeUR))); last by intros g g' Hg; rw Hg.
  intros p v g. by rw -uPred.ownM_op.
Qed.

Lemma holds_all x :
  holds (([∗ map] p ↦ ob ∈ objs x, p ↦ ob) ∗ ([∗ map] p ↦ M ∈ maps x, p ⤇ M)) x.
Proof.
  apply (holds_entails (uPred_ownM (res x))); [|unfold holds; uPred.unseal; exists ε; by rw right_id].
  rw -rows_all -maps_all -uPred.ownM_op.
  assert (He : res x ≡ ((ex (objs x), ε) : storeUR) ⋅ (ε, ex (maps x))); [|by rw -He].
  apply res_equiv. split; intros q; rw /= ?lookup_op ?lookup_empty ?left_id ?right_id //.
Qed.

(** ** The database *)

Definition small_line : oline := mk_line 1 (w64 (-1)) 3 (f32_of_int 6).
Definition small_order : order := mk_order 1 7 (w64 (-1)) [small_line].
Definition small_customer : customer := mk_customer "BARBARBAR" 0 (f32_of_int (-10)) (f32_of_int 10) 1 0 0.
Definition small_district : district := mk_district 0 (f32_of_int 100) [small_customer] [small_order].
Definition small_db : database :=
  mk_database [mk_warehouse 0 (f32_of_int 200) [small_district]] [f32_of_int 2] [mk_stock 12 0 0] [mk_neworder 1 1 1].

(** A word of two floats *)
Definition word_of (a b : Z) : Z := a + 2 ^ 32 * b.

Definition small_objs : list (Z * list Z) :=
  [(8000, [16000; 0; 24000; 40000; 32000; 0; 0; 0; 0; 0; 0; 0]);               (* the manager *)
   (48000, [1; 0; 0; 0; 0; 0; 0; word_of 0 (f32_of_int 200); 64000]);           (* the warehouse *)
   (72000, [1; 1; 0; 0; 0; 0; 0; 0; word_of 0 (f32_of_int 100); 2; 80000; 88000]);  (* the district *)
   (96000, [1; 1; 1; 0; 0; 104000; 0; 0; 0; 0; 0; 0; 0; 0; 0; word_of (f32_of_int (-10)) (f32_of_int 10); 1; 0; 0; 112000]);
   (112000, [1; 1; 1; 1; 7; w64 (-1); 1; 1; 120000]);                          (* the order *)
   (128000, [1; 1; 1; 1; 1; 1; w64 (-1); 3; f32_of_int 6; 0]);
   (136000, [1; 0; 0; f32_of_int 2; 0]);                                       (* the item *)
   (144000, [1; 1; 12; 0; 0; 0; 0; 0; 0; 0; 0; 0; 0; 0; 0; 0; 0]);              (* its stock *)
   (40000, [0; 152000; 0; 1]);                                                 (* the list of new orders *)
   (152000, [160000; 0]);
   (160000, [1; 1; 1])].

(** Every map leads from 1 to a row. *)
Definition small_tables : list (Z * Z) :=
  [(16000, 48000); (24000, 136000); (32000, 144000); (64000, 72000); (80000, 96000); (88000, 112000); (120000, 128000)].

Definition small_maps : list (Z * gmap Z Z) := (fun sp => (sp.1, numbered [sp.2])) <$> small_tables.

(** Fresh blocks: a row of an order, its map, the nodes of the maps and the lines *)
Definition small_places : list (Z * list Z) :=
  [(200000, repeat 0 9); (208000, repeat 0 2); (216000, repeat 0 6)] ++
  concat ((fun i => [(224000 + 16000 * Z.of_nat i, repeat 0 10); (232000 + 16000 * Z.of_nat i, repeat 0 6)]) <$> seq 0 5).

#[export] Instance small_names : known := ({[104000 := "BARBARBAR"%string]} : gmap Z string).

Definition small_store (places : list (Z * list Z)) : db :=
  mk_db (list_to_map small_objs) (list_to_map small_maps)
    (mk_env places (fun _ => 0) (fun n => 1000 + Z.of_nat n) known_strings).

Lemma table_one {R} (Row : Z -> Z -> R -> sProp) s p r :
  user_addr p -> s ⤇ numbered [p] -∗ Row 1 p r -∗ table Row s [p] [r].
Proof. iIntros (Hp) "$ Hr". iSplit; [iPureIntro; by constructor|]. rw big_sepL2_singleton. iFrame. Qed.

Lemma small_holds ps : holds (database_at 8000 small_db) (small_store ps).
Proof.
  eapply holds_entails; [|apply holds_all]. unfold small_store. cbn [objs maps ev strs].
  rw (big_sepM_list_to_map _ small_objs); [|by apply (bool_decide_unpack _); vm_compute].
  rw (big_sepM_list_to_map _ small_maps); [|by apply (bool_decide_unpack _); vm_compute].
  iIntros "[Ho Hm]". cbn [big_opL small_objs small_maps small_tables fst snd fmap list_fmap].
  iDestruct "Ho" as "(H8 & H48 & H72 & H96 & H112 & H128 & H136 & H144 & H40 & H152 & H160 & _)".
  iDestruct "Hm" as "(M16 & M24 & M32 & M64 & M80 & M88 & M120 & _)".
  iExists 16000, [48000]. iSplitL "H8 H136 H144 H40 H152 H160 M24 M32".
  - do 11 iExists _. iExists [136000], [144000]. iFrame "H8". iSplitL "H136 M24"; [|iSplitL "H144 M32"].
    + iApply (table_one with "M24"); [done|]. repeat iExists _. iFrame. iPureIntro. by vm_compute.
    + iApply (table_one with "M32"); [done|]. repeat iExists _. iFrame.
    + iExists (<[40000 := [0; 152000; 0; 1]]> {[152000 := [160000; 0]]}), 0, [(152000, 160000)].
      rw /rows big_sepM_insert // big_sepM_singleton. iFrame "H40 H152". cbn [fmap list_fmap snd]. rw big_sepL2_singleton. iFrame.
      iPureIntro. split; [|split; [by repeat constructor|split; [by repeat constructor|by repeat constructor]]].
      constructor; [by repeat split|by apply (bool_decide_unpack _); vm_compute|by repeat constructor|by repeat constructor].
  - iApply (table_one with "M16"); [done|]. iExists 64000, [72000]. iSplitL "H48".
    { repeat iExists _. iFrame. iPureIntro. by vm_compute. }
    iApply (table_one with "M64"); [done|]. iExists 80000, 88000, [96000], [112000]. iSplitL "H72".
    { repeat iExists _. iFrame. iPureIntro. by vm_compute. }
    iSplitL "H96 M80".
    + iApply (table_one with "M80"); [done|]. repeat iExists _. iFrame. iPureIntro. by vm_compute.
    + iApply (table_one with "M88"); [done|]. iExists 120000, [128000]. iFrame "H112".
      iApply (table_one with "M120"); [done|]. repeat iExists _. iFrame. iPureIntro. by vm_compute.
Qed.

(** ** The transactions on it *)

Lemma small_found : find_district small_db 1 1 = Some (mk_warehouse 0 (f32_of_int 200) [small_district], small_district).
Proof. done. Qed.

Lemma small_orders_ok : small_orders small_db.
Proof. by intros W D [->|[]%elem_of_nil]%elem_of_cons [->|[]%elem_of_nil]%elem_of_cons. Qed.

Lemma short_orders_ok : short_orders small_db.
Proof.
  intros W D o [->|[]%elem_of_nil]%elem_of_cons [->|[]%elem_of_nil]%elem_of_cons [->|[]%elem_of_nil]%elem_of_cons.
  cbn. lia.
Qed.

Lemma small_deliverable d : deliverable 1 d small_db.
Proof.
  intros n [->|[]%elem_of_nil]%elem_of_cons Hdue W HW. unfold due in Hdue. cbn in Hdue, HW. injection HW as <-.
  assert (d = 1) as -> by lia. exists small_district. split_and!; [done|done|]. intros o [= <-]. cbn. split; [done|lia].
Qed.

(** The order of five lines is made, and its stock is taken. *)
Lemma neworder_witness :
  exists x', run (manager_newordertransaction 8000 1 1 1) (small_store small_places) = Done 1 x' /\
    holds (database_at 8000 (spec_neworder (fun _ => 0) 1000 1 1 1 small_db).2) x'.
Proof.
  pose proof (neworder_correct 8000 small_db 1 1 1 (small_store small_places) (small_holds _) eq_refl eq_refl eq_refl) as H.
  destruct (run (manager_newordertransaction 8000 1 1 1) (small_store small_places)) as [v x'|s] eqn:E;
    [|vm_compute in E; discriminate].
  destruct H as [Hv H]; [|exact small_orders_ok|].
  - intros i _. split; by eexists.
  - exists x'. split; [|exact H]. f_equal. rw Hv. by vm_compute.
Defined.

Lemma payment_witness :
  exists x' b', run (manager_paymenttransaction 8000 1 1 1 (f32_of_int 5)) (small_store []) = Done 1 x' /\
    spec_payment 0 1 1 1 (f32_of_int 5) small_db = Some (1, b') /\ holds (database_at 8000 b') x'.
Proof.
  pose proof (payment_correct 8000 small_db 1 1 1 (f32_of_int 5) (small_store []) (small_holds _) eq_refl eq_refl eq_refl) as H.
  destruct (run (manager_paymenttransaction 8000 1 1 1 (f32_of_int 5)) (small_store [])) as [v x'|s] eqn:E;
    [|vm_compute in E; discriminate].
  destruct H as [b' [Hs H]]; [done|by intros Hc|].
  assert (v = 1) as -> by (change (option_map fst (spec_payment 0 1 1 1 (f32_of_int 5) small_db) = Some v) with (option_map fst (Some (1, b')) = Some v); vm_compute in Hs; congruence).
  by exists x', b'.
Defined.

Lemma orderstatus_witness :
  exists result x', run (orderstatus (repeat 0 50) 8000 1 1 1) (small_store []) = Done (1, result) x' /\
    take 3 result = [1; 1; 1] /\ holds (database_at 8000 small_db) x'.
Proof.
  pose proof (orderstatus_correct 8000 small_db 1 1 1 (repeat 0 50) (small_store []) (small_holds _) eq_refl eq_refl eq_refl eq_refl short_orders_ok) as H.
  destruct (run (orderstatus (repeat 0 50) 8000 1 1 1) (small_store [])) as [[v result] x'|s]; [|by destruct H].
  destruct H as (Hv & Ht & H). cbn in Hv. subst v. by exists result, x'.
Defined.

Lemma stocklevel_witness :
  exists x', run (stocklevel 45 8000 1 1 15) (small_store []) = Done (1, 0) x' /\ holds (database_at 8000 small_db) x'.
Proof.
  pose proof (stocklevel_correct 8000 small_db 1 1 15 45 (small_store []) (small_holds _) eq_refl eq_refl small_orders_ok short_orders_ok) as H.
  destruct (run (stocklevel 45 8000 1 1 15) (small_store [])) as [v x'|s] eqn:E; [|vm_compute in E; discriminate].
  destruct H as (Hv & H & _); [lia| |by exists x'; split; [rw Hv|]].
  intros W D Hf. rw small_found in Hf. injection Hf as _ <-. constructor.
Defined.

Lemma delivery_witness :
  exists x', run (manager_deliverytransaction 28 8000 1 4) (small_store []) = Done 1 x' /\
    holds (database_at 8000 (spec_deliveries 10 (fun n => 1000 + Z.of_nat n) 1 1 4 small_db).2) x'.
Proof.
  pose proof (delivery_correct 8000 small_db 1 4 28 (small_store []) (small_holds _) eq_refl) as H.
  destruct (run (manager_deliverytransaction 28 8000 1 4) (small_store [])) as [v x'|s].
  - destruct H as [Hv H]; [lia|intros; apply small_deliverable|cbn; lia|cbn; lia|]. exists x'. split; [|exact H].
    f_equal. rw Hv. by vm_compute.
  - destruct H; [lia|intros; apply small_deliverable|cbn; lia|cbn; lia].
Defined.

(** With 18 orders more the district has 19: stock-level does not end.  With 19 more it
    looks at the last 20, all of lines of the one item, and finds it once. *)
Definition many_places : list (Z * list Z) :=
  concat ((fun i => (fun b => (b.1 + 200000 * i, b.2)) <$> small_places) ∘ Z.of_nat <$> seq 0 19).

Definition orders_then_level (n : nat) (treshold : Z) : code (Z * Z) :=
  let$ _ := for_loop n 0 0 (fun _ _ => manager_newordertransaction 8000 1 1 1) in stocklevel 45 8000 1 1 treshold.

Definition result_of {A} (o : outcome A) : A + stop := match o with Done a _ => inl a | Stop s => inr s end.

Example level_of_19 : result_of (run (orders_then_level 18 15) (small_store many_places)) = inr Endless.
Proof. by vm_compute. Qed.

Example level_of_20 :
  result_of (run (orders_then_level 19 100) (small_store many_places)) = inl (1, 1) /\
  result_of (run (orders_then_level 19 99) (small_store many_places)) = inl (1, 0).
Proof. by vm_compute. Qed.
