(* ===== verification/TpccServe.v ===== *)
(** * Two threads of the server on the small database

    A memory that holds the database of TpccDemo.v with its tables as trees, two threads
    that run four requests on it, and the theorem of TpccTx.v applied to them. *)
From Stdlib Require Import String.
From S2P Require Import Prelude Words LockWord Machine Tx Ctl CtlHist CtlInv CtlStep CtlLogic CtlAssert CtlExtend CtlBody CtlCommit CtlRun CtlCorrect CtlDemo Serial Wrappers Float Objects RBTree RBShape RBPure RBOrder RBMap RBTrans Store StoreLogic StoreTx Tables Manager Tpcc TpccRep TpccDeliver TpccReq TpccTx TpccDemo.

(** ** The memory *)

(** The tree of a table with one row: its root is at a fixed distance. *)
Definition tree_objs (sp : Z * Z) : list (Z * list Z) :=
  [(sp.1, [sp.1 + 4000; 0]); (sp.1 + 4000, [1; sp.2; NULL; NULL; NULL; BLACK])].

Definition small_heap : list (Z * list Z) := small_objs ++ concat (tree_objs <$> small_tables) ++ small_places.

(** The word at an address *)
Fixpoint word_at (l : list (Z * list Z)) (a : Z) : Z :=
  match l with
  | [] => 0
  | (o, ob) :: l => if (o <=? a) && (a <? o + 8 * Z.of_nat (length ob)) then ob !!! Z.to_nat ((a - o) / 8) else word_at l a
  end.

Definition small_start : stm_state := 
  mk_state (fun l => match l with Word a => word_at small_heap a | _ => 0 end) (fun _ => (0, 0)).

Definition small_own : gmap Z owner :=
  list_to_map (((fun o => (o.1, Row)) <$> small_objs) ++
    concat ((fun sp => [(sp.1, OfMap sp.1); (sp.1 + 4000, OfMap sp.1)]) <$> small_tables) ++
    ((fun o => (o.1, Block)) <$> small_places)).

#[local] Instance owner_eq : EqDecision owner.
Proof. solve_decision. Defined.

Local Abbreviation heap := (list_to_map small_heap : gmap Z (list Z)).

(** *** Its objects are apart. *)

Definition apart_from (o o' : Z * list Z) : bool :=
  (o.1 + 8 * Z.of_nat (length o.2) <=? o'.1) || (o'.1 + 8 * Z.of_nat (length o'.2) <=? o.1).

Fixpoint all_apart (l : list (Z * list Z)) : bool :=
  match l with
  | [] => true
  | o :: l =>
      (0 <? o.1) && (o.1 + 8 * Z.of_nat (length o.2) <=? 2 ^ 64) && (o.1 mod 8 =? 0) && forallb (apart_from o) l && all_apart l
  end.

Lemma all_apart_range l o : all_apart l = true -> o ∈ l -> 0 < o.1 /\ o.1 + 8 * Z.of_nat (length o.2) <= 2 ^ 64 /\ o.1 mod 8 = 0.
Proof.
  intros Ha. induction 1 as [o l|o o' l _ IH]; cbn in Ha; rewrite !andb_true_iff in Ha; destruct Ha as [[[[H1 H2] H3] H4] H5]; [lia|by apply IH].
Qed.

Lemma all_apart_pair l o o' : all_apart l = true -> o ∈ l -> o' ∈ l -> o <> o' -> apart_from o o' = true.
Proof.
  intros Ha Ho Ho' Hne. induction l as [|c l IH]; [by apply elem_of_nil in Ho|].
  cbn in Ha. rewrite !andb_true_iff in Ha. destruct Ha as [[_ Hf] Hl]. rewrite forallb_forall in Hf.
  apply elem_of_cons in Ho as [->|Ho], Ho' as [->|Ho']; [done| | |by apply IH].
  - by apply Hf, list_elem_of_In.
  - specialize (Hf o (proj1 (list_elem_of_In _ _) Ho)). unfold apart_from in *. rewrite orb_true_iff in *. tauto.
Qed.

Lemma all_apart_layout l : all_apart l = true -> layout (list_to_map l).
Proof.
  intros Ha. constructor.
  - intros o ob Ho%elem_of_list_to_map_2. by destruct (all_apart_range l (o, ob) Ha Ho) as (? & ? & _).
  - intros o ob o' ob' Ho%elem_of_list_to_map_2 Ho'%elem_of_list_to_map_2 Hne.
    pose proof (all_apart_pair l (o, ob) (o', ob') Ha Ho Ho' ltac:(congruence)) as Hap. unfold apart_from in Hap. cbn in Hap. lia.
  - intros o ob Ho%elem_of_list_to_map_2. by apply (all_apart_range l (o, ob) Ha Ho).
Qed.

(** *** The memory holds them. *)

Lemma word_at_holds l : all_apart l = true -> Objects.holds (list_to_map l) (word_at l).
Proof.
  intros Ha o ob f v Ho Hv. destruct (field_addr_eq (list_to_map l) o ob f (all_apart_layout l Ha) Ho) as [-> _]; [by eapply lookup_lt_Some|].
  apply elem_of_list_to_map_2 in Ho. apply lookup_lt_Some in Hv as Hf. induction l as [|c l IH]; [by apply elem_of_nil in Ho|].
  pose proof Ha as Ha2. cbn in Ha2. rewrite !andb_true_iff in Ha2. destruct Ha2 as [[[[H1 H2] H3] H4] H5]. destruct c as [p pb]. cbn in *.
  apply elem_of_cons in Ho as [[= <- <-]|Ho].
  - rewrite (proj2 (Z.leb_le _ _)), (proj2 (Z.ltb_lt _ _)) by lia. cbn.
    replace ((o + 8 * Z.of_nat f - o) / 8) with (Z.of_nat f) by (replace (o + 8 * Z.of_nat f - o) with (Z.of_nat f * 8) by lia; by rewrite Z.div_mul).
    rewrite Nat2Z.id. by apply list_lookup_total_correct.
  - rewrite forallb_forall in H4. specialize (H4 _ (proj1 (list_elem_of_In _ _) Ho)). unfold apart_from in H4. cbn in H4.
    replace ((p <=? o + 8 * Z.of_nat f) && (o + 8 * Z.of_nat f <? p + 8 * Z.of_nat (length pb))) with false by lia.
    by apply IH.
Qed.

Lemma word_at_word l : Forall (fun o => Forall is_word o.2) l -> forall a, is_word (word_at l a).
Proof.
  induction 1 as [|[o ob] l Ho _ IH]; intros a; cbn; [done|]. destruct (_ && _) eqn:Hc; [|done].
  destruct (lookup_lt_is_Some_2 ob (Z.to_nat ((a - o) / 8))) as [v Hv].
  { apply andb_true_iff in Hc as [H1%Z.leb_le H2%Z.ltb_lt]. assert ((a - o) / 8 < Z.of_nat (length ob)) by (apply Z.div_lt_upper_bound; lia).
    pose proof (Z.div_pos (a - o) 8). lia. }
  rewrite (list_lookup_total_correct _ _ _ Hv). by apply (Forall_lookup_1 _ _ _ _ Ho Hv).
Qed.

(** *** It holds the store. *)

Lemma one_tree h s n p r :
  h !! s = Some [n; r] -> h !! n = Some [1; p; NULL; NULL; NULL; BLACK] -> is_addr s -> is_addr n -> is_word p -> s <> n ->
  tree_at h s [r] [n] (numbered [p]).
Proof.
  intros Hs Hn Has Han Hp Hne. exists (T Black E n 1 p E). split_and!; [|split; [done|by exists 1%nat]| |done|done].
  - constructor; [exact Hs|by split_and!|]. cbn. split.
    + apply list.NoDup_cons. split; [|apply NoDup_singleton]. by intros ->%list_elem_of_singleton.
    + by repeat (apply list.Forall_cons; split; [done|]).
  - repeat constructor.
Qed.

Lemma small_stored : stored small_places (small_store []) small_own heap.
Proof.
  assert (Hap : all_apart small_heap = true) by (by vm_compute).
  constructor.
  - intros o ob Ho%elem_of_list_to_map_2. revert o ob Ho.
    assert (Hf : Forall (fun o => small_own !! o.1 = Some Row /\ heap !! o.1 = Some o.2) small_objs) by (apply (bool_decide_unpack _); by vm_compute).
    intros o ob Ho. by apply (proj1 (list.Forall_forall _ _) Hf (o, ob)).
  - intros s M Hs%elem_of_list_to_map_2. apply list_elem_of_fmap in Hs as ([s' p] & [= -> ->] & Hin).
    assert (Hf : Forall (fun sp => heap !! sp.1 = Some [sp.1 + 4000; 0] /\ heap !! (sp.1 + 4000) = Some [1; sp.2; NULL; NULL; NULL; BLACK] /\
        (0 < sp.1 < 2 ^ 63 /\ 0 <= sp.2 < 2 ^ 64) /\ small_own !! sp.1 = Some (OfMap sp.1) /\ small_own !! (sp.1 + 4000) = Some (OfMap sp.1)) small_tables)
      by (apply (bool_decide_unpack _); by vm_compute).
    destruct (proj1 (list.Forall_forall _ _) Hf _ Hin) as (H1 & H2 & H3 & H4 & H5). cbn [fst snd] in *.
    exists [0], [s' + 4000]. split; [apply one_tree; [exact H1|exact H2|unfold is_addr, is_word, word_size; lia..]|].
    intros a [->|Ha]%elem_of_cons; [done|]. apply list_elem_of_singleton in Ha as ->. done.
  - apply (bool_decide_unpack _). by vm_compute.
  - assert (Hf : Forall (fun o => small_own !! o.1 = Some Block /\ heap !! o.1 = Some o.2 /\ (0 < o.1 < 2 ^ 62 /\ o.1 mod 8 = 0) /\
        known_strings !! o.1 = None) small_places) by (apply (bool_decide_unpack _); by vm_compute).
    intros a ob Hin. by apply (proj1 (list.Forall_forall _ _) Hf (a, ob)).
Qed.

(** ** The threads *)

Definition small_request (t : transaction) (ps : list (Z * list Z)) : request :=
  mk_request t ps (fun _ => 0) (fun n => 1000 + Z.of_nat n).

Definition small_reqs : list (list (option stm_tx_attr * request)) :=
  [ [(None, small_request (Payment 1 1 1 (f32_of_int 5)) []); (None, small_request (NewOrder 1 1 1) small_places)];
    [(None, small_request (OrderStatus 1 1 1 (repeat 0 50)) []); (None, small_request (Delivery 1 1 4) [])] ].

Definition small_progs : list program := req_program (request_body 45 8000) <$> small_reqs.

(** They take turns. *)
Definition small_end : stm_state * list (prog loc ext thread_result) :=
  play demo_ext (concat (replicate 3000 [0%nat; 1%nat])) (stm_init small_start)
    (start_threads demo_config 20 small_progs).

Lemma small_setup : setup demo_config small_progs ext_spec small_start.
Proof.
  constructor.
  - constructor; [done|done| |done]. apply Nat2Z.inj_le. by compute.
  - by repeat constructor.
  - intros a. apply (word_at_word small_heap). apply (bool_decide_unpack _). by vm_compute.
  - done.
Qed.

Lemma small_reachable : reachable demo_config 20 small_progs ext_spec small_start small_end.1 small_end.2.
Proof.
  unfold reachable. rewrite <- surjective_pairing.
  apply (play_pool demo_ext ext_spec demo_good demo_ext_ok). by left.
Qed.

Lemma small_results : exists tx0 tx1, small_end.2 = [Ret (Ok [Some 1; Some 1], tx0); Ret (Ok [Some 1; Some 1], tx1)].
Proof. eexists _, _. vm_compute. reflexivity. Qed.

Lemma small_done : all_done small_end.2.
Proof.
  destruct small_results as (tx0 & tx1 & ->).
  constructor; [by eexists _, _|]. constructor; [by eexists _, _|constructor].
Qed.

(** ** What they need *)

Lemma small_district_only w d W D : find_district small_db w d = Some (W, D) -> w = 1 /\ d = 1 /\ D = small_district.
Proof.
  unfold find_district. destruct (at_key (warehouses small_db) w) as [W0|] eqn:HW; [|done].
  destruct (at_key (w_districts W0) d) as [D0|] eqn:HD; [|done]. intros [= <- <-].
  apply at_key_spec in HW as (i & -> & HW). apply list_lookup_singleton_Some in HW as [-> <-].
  apply at_key_spec in HD as (j & -> & HD). by apply list_lookup_singleton_Some in HD as [-> <-].
Qed.

Lemma small_sound : sound 45 4 small_db.
Proof.
  constructor.
  - intros w d W D (_ & _ & ->)%small_district_only. done.
  - intros w d W D (_ & _ & ->)%small_district_only.
    apply list.Forall_cons. split; [|constructor]. split_and!; cbn; [lia|done|].
    apply list.Forall_cons. split; [|constructor]. split; cbn; [lia|by eexists].
  - intros r w d Hr Hdue Hw. apply list_elem_of_singleton in Hr as ->. unfold due in Hdue. cbn in Hdue.
    change (to_long 1) with 1 in Hdue. assert (w = 1 /\ d = 1) as [-> ->] by lia. split; [by eexists|done].
  - cbn. lia.
Qed.

Lemma small_serves : serves 45 8000 (concat small_reqs).*2 small_db (words small_start).
Proof.
  split; [|split; [exact small_sound|]].
  - exists (small_store []), small_own, heap. split; [apply small_holds|]. split; [reflexivity|]. split; [reflexivity|].
    split; [exact small_stored|]. assert (Hap : all_apart small_heap = true) by (by vm_compute).
    split; [by apply all_apart_layout|]. split; [by apply word_at_holds|]. apply small_setup.
  - apply list.Forall_cons. split; [split_and!; [reflexivity..|by intros Hc]|].
    apply list.Forall_cons. split; [split_and!; [reflexivity..|]|].
    { intros i _. change (1 < 100000 /\ 1 <= 1 /\ 1 <= 1). lia. }
    apply list.Forall_cons. split; [split_and!; reflexivity|].
    apply list.Forall_cons. split; [|constructor]. split_and!; [reflexivity|lia..].
Qed.

Lemma requests_linearizable_witness :
  (exists tx0 tx1, small_end.2 = [Ret (Ok [Some 1; Some 1], tx0); Ret (Ok [Some 1; Some 1], tx1)]) /\
  exists results sched b',
    Forall2 (fun rs vs => length rs = length vs) small_reqs results /\
    (forall i vs, results !! i = Some vs -> exists tx, small_end.2 !! i = Some (Ret (Ok (Some <$> vs), tx))) /\
    interleaving (zip_with (fun rs vs => zip rs.*2 vs) small_reqs results) sched /\
    steps spec_request sched.*2 small_db = Some b' /\ in_memory 8000 [] b' (words small_end.1).
Proof.
  split; [exact small_results|].
  exact (requests_linearizable 45 8000 demo_config 20 small_reqs ext_spec small_start small_end.1 small_end.2 small_db
    small_setup small_reachable small_done small_serves).
Defined.
